(* ===== verification/_CoqProject ===== *)
-Q . S2P
Prelude.v
Types.v
Backends.v
Packing.v
Visited.v
Prog.v
Store.v
Identity.v
Slot.v
SlotRun.v
IdentitySpec.v
SlotSpec.v
Alloc.v
Demo.v
Identifiers.v
Protocol.v
Lifecycle.v
Recovery.v
RecoverySpec.v
Reclaim.v
Layout.v
LayoutSpec.v
PoolSpec.v
Ring.v
RingSpec.v
Buffer.v
BufferSpec.v
Link.v
Reconcile.v
LinuxTransport.v
LinkSpec.v
LinuxTransportSpec.v
Apart.v
Delivery.v
LinuxDemo.v
LinuxMemory.v
LinuxMemorySpec.v
ReconcileSpec.v
Topology.v
TopologyText.v
TopologySpec.v
TopologyRoundtrip.v
Packetrate.v
PacketrateSpec.v
Stat.v
Spawn.v
Ping.v
Relay.v
Sender.v
PingSpec.v
Interleave.v
RingConcurrent.v
Exclusive.v
SafeCalls.v
Concurrent.v
BareMetal.v
FreeRtos.v
Xen.v
Kernel.v
DeviceSpec.v
History.v
