(* ===== verification/Prelude.v ===== *)
(** * zIPC verification library

    zIPC moves buffers between components (processes, cores, guests) through a
    shared-memory pool: a control mapping with a header, one control block per
    slot and a table of component incarnations, and a payload mapping.  A slot
    is owned by one component, handed over by a transfer announced in a
    descriptor message, claimed by its receiver, released, and recovered when
    its owner dies.  This library models the portable core, the Linux,
    kernel, FreeRTOS, bare-metal and Xen platforms under it and the topology
    registry above it, and proves what makes them correct.

    ** How code is modelled

    A C function is a [prog] (Prog.v): a tree of atomic actions on the [world]
    (Store.v), which holds the shared control records, rings, application
    buffer objects, identifier generators, payload bytes and the state of the
    platform.  A [prog] runs by [run]; [wp p Q w] says that from [w] it runs
    without undefined behaviour (a dereference of NULL or outside an array, a
    division by zero) to a result and a world that satisfy [Q].  Integers are
    [Z] with the wrap-around of their C width written out ([u32], [u64]).
    Status codes are values of [zipc_status_t].  Weak compare-exchanges consult
    a list of spurious failures in the world.  In [wp] statements one call runs
    from start to end, and interference is represented by the states a call may
    find, among them every state a crashed call may have left.  Interleave.v
    runs any number of the same [prog]s step by step, with other processes
    changing the world in between.

    Platform services are the classes [Platform] (memory, page protection,
    clock, random numbers) and [Heap]; [PlatformLaws] states the documented
    effect of page protection.  A link uses a transport through the class
    [Transport]; [TransportLaws] (LinkSpec.v) is what it relies on, and
    LinuxTransportSpec.v discharges it for the shared-ring transports, as
    LinuxMemorySpec.v discharges [PlatformLaws] for the Linux platform.  Linux
    system calls are the classes [LinuxOs] and [LinuxMm], with the documented
    behaviour of the latter in [LinuxMmLaws]; the services of the other targets
    are [BoardMm], [BoardOs], [Rtos], [XenOs] and [KernelOs].  The utilities use
    [MemoryObjects], [Pipes], [Processes] (with [ProcessLaws]) and [PingOs].

    ** Files and sources

    - Types.v, Packing.v: the types and inline functions of
      include/zipc/zipc.h, and the lifecycle words and claim tokens of
      src/core/zipc.c.
    - Visited.v: the visited-component set.
    - Identity.v: [generate_buffer_id], its session rotation and entropy retry.
    - Slot.v: tracing, protection, [buffer_allocate_internal],
      [buffer_prepare_transfer_internal], [zipc_buffer_claim],
      [zipc_pool_buffer_release], [zipc_buffer_from_handle].
    - Lifecycle.v: component registration, heartbeat, restart begin and finish.
    - Recovery.v: the restart scan, [zipc_pool_recover_owner],
      [zipc_pool_recover_claiming], the trace copy.
    - Layout.v: sizes, normalisation, guard pages, format and attach.
    - Ring.v: the ring of zipc.c and platform/linux/common.
    - Buffer.v: application views and the window operations.
    - Link.v: links, allocation, send, receive and the copying interface.
    - Reconcile.v: [zipc_link_reconcile].
    - LinuxTransport.v: the transports of
      platform/linux/user/platform-linux-user.c.
    - LinuxMemory.v: its memory objects, page protection, clock and random
      source.
    - BareMetal.v, FreeRtos.v, Xen.v, Kernel.v: the platforms of
      platform/baremetal, platform/freertos, platform/xen and
      platform/linux/kernel.
    - Backends.v: src/core/zipc-backends.c.
    - Topology.v, TopologyText.v: the link registry, its INI parser and
      zipc-topology-file.c.
    - Interleave.v: configurations of concurrent calls and their steps;
      Exclusive.v: the discipline of a slot's state word, its rules and their
      composition; SafeCalls.v: the slot operations keep to it; Concurrent.v:
      the calls of Slot.v run concurrently; RingConcurrent.v: producer and
      consumer of a ring run concurrently.
    - Packetrate.v, Spawn.v: utilities/zipc-packetrate.c, a chain of processes
      over the library, and the parent that starts and collects them.
    - Ping.v: utilities/zipc-ping.c; Stat.v: utilities/zipc-stat.c.
    - Apart.v: transports that do not disturb each other and that have room, as
      classes with instances for the rings.
    - SlotRun.v: rules that execute the slot operations symbolically; Alloc.v,
      IdentitySpec.v, SlotSpec.v, LinkSpec.v: the specifications and the lemmas
      the theorems share; Demo.v, LinuxDemo.v: a platform, a pool and a pair of
      links on which the theorems are evaluated.

    ** What is proved

    - Ownership (Protocol.v, against the contract of SlotSpec.v): each slot
      operation implements its abstract operation on every branch and touches
      nothing else; a handover keeps identity and region; an announcement is
      claimed once; stale handles are refused; in a strict pool the payload is
      accessible exactly while it is owned.
    - Concurrency (Concurrent.v): every interleaving of allocations, transfers,
      claims and releases is linearisable slot by slot against the contract of
      SlotSpec.v; of rival calls one wins; transfers, claims and releases are
      wait-free.  The producer and the consumer of a shared ring
      (RingConcurrent.v), interleaved in any way, are those of a sequential
      queue.
    - Histories (History.v): after any sequence of calls, with the processes, the
      registrations and the platform changing in between, the pool is well
      formed and its buffers are accounted for.
    - Links (Delivery.v): a send is all or nothing, a receive delivers the
      oldest announcement that stands, bytes sent by copy arrive unchanged.
    - Recovery (RecoverySpec.v, Reclaim.v, ReconcileSpec.v): what the restart
      scan, the two reclaiming calls and the repair of an endpoint leave.
    - Lifecycles (Lifecycle.v): the entry of a component refines a state
      machine, and a superseded incarnation has no effect.
    - Pools (LayoutSpec.v, PoolSpec.v): the arithmetic does not overflow, slots
      are disjoint and inside their mappings, a formatted pool attaches.
    - Rings and transports (RingSpec.v, LinuxTransportSpec.v): a bounded FIFO
      queue across index wrap-around, an honest send status, timeouts.  The
      rings of the other platforms (DeviceSpec.v) are such queues too, whose
      receive consumes at once; where pages cannot be protected strict pools are
      refused.
    - Linux memory (LinuxMemorySpec.v): exact page protection, a random source
      that terminates, and with them the platform contract.
    - Views (BufferSpec.v): window operations are operations on byte strings.
    - Words and identifiers (Identifiers.v, Visited.v).
    - Registry (TopologySpec.v, TopologyRoundtrip.v): reachable registries are
      well formed, merge policies, printed text loads back.
    - Packet-rate utility (PacketrateSpec.v, Relay.v, Sender.v): its sizes do not
      wrap around and describe a pool the library accepts; a relay forwards
      every packet in order; the sender announces every packet with its payload
      and the last receiver gives every buffer back, so that buffers circulate.
      The processes run one after the other there.  The parent (Spawn.v) collects
      every process and signals no other.
    - The other utilities: a probe of zipc-ping makes its round trip and is
      measured, its summary is that of the times measured (PingSpec.v);
      zipc-stat only observes and reports exactly what is in use (Stat.v).

    ** Bounds and fuel

    Loops that are not structural take fuel.  Each theorem states fuel that
    suffices: the number of slots (or stale messages, ring entries) plus one,
    the number of spurious failures plus two for an identifier, the timeout in
    nanoseconds for a polling receive with an advancing clock.  Concurrent
    transfers, claims and releases take at most 40 steps each; a concurrent
    allocation may run out of its fuel, so its progress is not claimed.  Ring
    theorems ask for a depth that divides 2^32; [ring_wrap_overwrites] shows why.
    Addresses and sizes are those of an LP64 target.

    ** What modelling showed

    [zipc_pool_recover_owner] can free a slot that still carries a claim token
    and is then lost; ring indices wrap wrongly for depths that do not divide
    2^32; [zipc_topology_validate] may pass a NULL name to [strcmp]; OVERRIDE
    can leave two links with one identifier; [zipc_pool_buffer_release] does not
    compare generations again once it has claimed the slot, so a suspended
    release can free a younger buffer of the same component; zipc-stat compares
    a null pointer when its last argument is an option without its value.

    ** Not modelled

    The interleaving of recovery, lifecycle and link calls (the slot operations
    and the ring are interleaved); weak memory orderings, which the
    interleaving takes as one global order of atomic actions; the test hooks
    compiled under ZIPC_TESTING; the rate zipc-packetrate.c prints; the
    floating-point durations of zipc-ping.c, which are arguments; the memory
    benchmark, the examples and the tests. *)
From stdpp Require Export base tactics option list numbers gmap.
From stdpp Require Import strings.
From Stdlib Require Import Lia.

#[export] Set Default Goal Selector "!".

Open Scope Z_scope.

(** ** Machine integers

    Every C integer is a [Z]; the width of the C type is written out where
    the source converts or lets a value wrap. *)
Abbreviation UINT8_MAX := 255 (only parsing).
Abbreviation UINT16_MAX := 65535 (only parsing).
Abbreviation UINT32_MAX := 4294967295 (only parsing).
Abbreviation UINT64_MAX := 18446744073709551615 (only parsing).
(** [size_t] and [uintptr_t] on the LP64 targets the core is built for. *)
Abbreviation SIZE_MAX := 18446744073709551615 (only parsing).
Abbreviation UINTPTR_MAX := 18446744073709551615 (only parsing).

Definition u8 (z : Z) : Z := z `mod` 256.
Definition u16 (z : Z) : Z := z `mod` 65536.
Definition u32 (z : Z) : Z := z `mod` 4294967296.
Definition u64 (z : Z) : Z := z `mod` 18446744073709551616.

Definition in_u8 (z : Z) : Prop := 0 <= z <= UINT8_MAX.
Definition in_u16 (z : Z) : Prop := 0 <= z <= UINT16_MAX.
Definition in_u32 (z : Z) : Prop := 0 <= z <= UINT32_MAX.
Definition in_u64 (z : Z) : Prop := 0 <= z <= UINT64_MAX.

Create HintDb zipc discriminated.
Create Rewrite HintDb zipc.

(** ** Generic tactics *)

(** Case analysis on the scrutinee of the first [match] or [if] in the goal,
    keeping the equation. *)
Ltac case_goal :=
  match goal with
  | |- context [match ?x with _ => _ end] => destruct x eqn:?
  end.

(** Turn boolean tests in the context into propositions. *)
Ltac bool_to_prop :=
  repeat match goal with
  | H : _ && _ = true |- _ => apply andb_true_iff in H; destruct H
  | H : _ || _ = false |- _ => apply orb_false_iff in H; destruct H
  | H : negb _ = true |- _ => apply negb_true_iff in H
  | H : negb _ = false |- _ => apply negb_false_iff in H
  | H : (_ =? _) = true |- _ => apply Z.eqb_eq in H
  | H : (_ =? _) = false |- _ => apply Z.eqb_neq in H
  | H : (_ <? _) = true |- _ => apply Z.ltb_lt in H
  | H : (_ <? _) = false |- _ => apply Z.ltb_ge in H
  | H : (_ <=? _) = true |- _ => apply Z.leb_le in H
  | H : (_ <=? _) = false |- _ => apply Z.leb_gt in H
  | H : bool_decide _ = true |- _ => apply bool_decide_eq_true in H
  | H : bool_decide _ = false |- _ => apply bool_decide_eq_false in H
  end.

(** Linear arithmetic with the width predicates unfolded and the wrap-around
    written as Euclidean division. *)
Ltac zlia :=
  unfold in_u8, in_u16, in_u32, in_u64, u8, u16, u32, u64 in *;
  Z.to_euclidean_division_equations; lia.

(** ** Wrap-around *)
Lemma u8_small z : in_u8 z → u8 z = z.
Proof. zlia. Qed.
Lemma u16_small z : in_u16 z → u16 z = z.
Proof. zlia. Qed.
Lemma u32_small z : in_u32 z → u32 z = z.
Proof. zlia. Qed.
Lemma u64_small z : in_u64 z → u64 z = z.
Proof. zlia. Qed.

Lemma u8_range z : in_u8 (u8 z).
Proof. zlia. Qed.
Lemma u16_range z : in_u16 (u16 z).
Proof. zlia. Qed.
Lemma u32_range z : in_u32 (u32 z).
Proof. zlia. Qed.
Lemma u64_range z : in_u64 (u64 z).
Proof. zlia. Qed.
#[export] Hint Resolve u8_range u16_range u32_range u64_range : zipc.
#[export] Hint Rewrite u8_small u16_small u32_small u64_small
  using (assumption || zlia) : zipc.

(** ** Bit fields *)
#[global] Arguments Z.testbit : simpl never.

Lemma land_shiftl_low hi lo n :
  0 <= n → 0 <= lo < 2 ^ n → Z.land (Z.shiftl hi n) lo = 0.
Proof.
  intros Hn Hlo. apply Z.bits_inj'. intros i Hi. rewrite Z.land_spec, Z.bits_0.
  destruct (Z.ltb_spec i n); [by rewrite Z.shiftl_spec_low|].
  replace lo with (lo `mod` 2 ^ n) by (apply Z.mod_small; lia).
  by rewrite Z.mod_pow2_bits_high, andb_false_r by lia.
Qed.

(** Packing [hi] above [n] low bits with [|] is addition. *)
Lemma lor_shiftl_add hi lo n :
  0 <= n → 0 <= lo < 2 ^ n → Z.lor (Z.shiftl hi n) lo = hi * 2 ^ n + lo.
Proof.
  intros Hn Hlo. pose proof (land_shiftl_low hi lo n Hn Hlo) as H0.
  rewrite <- Z.lxor_lor, <- Z.add_nocarry_lxor, Z.shiftl_mul_pow2 by done. done.
Qed.

(** A mask of [n] ones keeps the low [n] bits. *)
Lemma land_mask z n m : 0 <= n → m = 2 ^ n - 1 → Z.land z m = z `mod` 2 ^ n.
Proof.
  intros Hn ->. rewrite <- Z.land_ones by done. f_equal.
  rewrite Z.ones_equiv. lia.
Qed.

Lemma land_pow2_testbit z n :
  0 <= n → (Z.land z (Z.shiftl 1 n) =? 0) = negb (Z.testbit z n).
Proof.
  intros Hn. rewrite Z.shiftl_1_l. destruct (Z.testbit z n) eqn:Hb; simpl.
  - apply Z.eqb_neq. intros H0. apply (f_equal (λ x, Z.testbit x n)) in H0.
    rewrite Z.land_spec, Hb, Z.pow2_bits_true, Z.bits_0 in H0 by done. done.
  - apply Z.eqb_eq, Z.bits_inj'. intros i Hi. rewrite Z.land_spec, Z.bits_0.
    destruct (decide (i = n)) as [->|Hne]; [by rewrite Hb|].
    rewrite Z.pow2_bits_false by lia. apply andb_false_r.
Qed.

(** ** Lists *)
Lemma list_filter_ext_in {A} (P Q : A → Prop) `{∀ x, Decision (P x)}
    `{∀ x, Decision (Q x)} (l : list A) :
  (∀ x, x ∈ l → (P x ↔ Q x)) → filter P l = filter Q l.
Proof.
  induction l as [|x l IH]; intros HPQ; [done|]. rewrite !filter_cons.
  rewrite IH by (intros y Hy; apply HPQ; by right).
  destruct (HPQ x ltac:(left)). repeat case_decide; tauto.
Qed.
