(* ===== verification/Types.v ===== *)
(** * The data model of include/zipc/zipc.h

    Enumerations that the core compares, and the shared control structures.
    A C enumeration whose values are only stored and compared is an inductive
    type; one that is packed into an integer word (component states, claim
    kinds, trace events) keeps its integer values.  Padding fields
    ([reserved*]) carry no behaviour and are left out.  A pointer is a [Z],
    NULL is [0]; a pointer that is only dereferenced as an optional argument
    is an [option]. *)
From S2P Require Import Prelude.

(** ** Constants *)
Abbreviation ZIPC_POOL_MAGIC := 1514754115 (only parsing). (* 0x5A495043 *)
Abbreviation ZIPC_POOL_ABI_VERSION := 3 (only parsing).
Abbreviation ZIPC_TRACE_DEPTH := 8 (only parsing).
Abbreviation ZIPC_HOP_LIMIT_UNLIMITED := 4294967295 (only parsing).
Abbreviation ZIPC_DEADLINE_NONE := 18446744073709551615 (only parsing).
Abbreviation ZIPC_COMPONENT_NAMESPACE_SIZE := 256 (only parsing).
Abbreviation ZIPC_COMPONENT_ID_MIN := 1 (only parsing).
Abbreviation ZIPC_COMPONENT_ID_MAX := 254 (only parsing).
Abbreviation ZIPC_INVALID_COMPONENT_ID := 65535 (only parsing).
Abbreviation ZIPC_INVALID_HANDLE := 18446744073709551615 (only parsing).
Abbreviation ZIPC_PHYS_ADDR_INVALID := 18446744073709551615 (only parsing).
Abbreviation ZIPC_SESSION_MASK := 16777215 (only parsing). (* 0x00ffffff *)
Abbreviation ZIPC_SESSION_ROTATING := 2147483648 (only parsing). (* 0x80000000 *)

Abbreviation ZIPC_COMPONENT_INACTIVE := 0 (only parsing).
Abbreviation ZIPC_COMPONENT_RECOVERING := 1 (only parsing).
Abbreviation ZIPC_COMPONENT_ACTIVE := 2 (only parsing).

Abbreviation ZIPC_CLAIM_NONE := 0 (only parsing).
Abbreviation ZIPC_CLAIM_ALLOCATE := 1 (only parsing).
Abbreviation ZIPC_CLAIM_SEND := 2 (only parsing).
Abbreviation ZIPC_CLAIM_RECEIVE := 3 (only parsing).
Abbreviation ZIPC_CLAIM_RELEASE := 4 (only parsing).
Abbreviation ZIPC_CLAIM_ROLLBACK := 5 (only parsing).

Abbreviation ZIPC_TRACE_ALLOCATE := 1 (only parsing).
Abbreviation ZIPC_TRACE_SEND := 2 (only parsing).
Abbreviation ZIPC_TRACE_RECEIVE := 3 (only parsing).
Abbreviation ZIPC_TRACE_RELEASE := 4 (only parsing).
Abbreviation ZIPC_TRACE_RECOVER := 5 (only parsing).
Abbreviation ZIPC_TRACE_ERROR := 6 (only parsing).

Abbreviation ZIPC_MEM_CAP_CPU_READ := 1 (only parsing).
Abbreviation ZIPC_MEM_CAP_CPU_WRITE := 2 (only parsing).
Abbreviation ZIPC_MEM_CAP_ATOMIC32 := 4 (only parsing).
Abbreviation ZIPC_MEM_CAP_ATOMIC64 := 8 (only parsing).
Abbreviation ZIPC_MEM_CAP_CACHEABLE := 16 (only parsing).
Abbreviation ZIPC_MEM_CAP_FIXED_PHYS := 32 (only parsing).
Abbreviation ZIPC_MEM_CAP_REMOTE_ACCESS := 64 (only parsing).
Abbreviation ZIPC_MEM_CAP_DEVICE_MEMORY := 128 (only parsing).
Abbreviation ZIPC_MEM_CAP_PAGE_PROTECT := 256 (only parsing).

Abbreviation ZIPC_POOL_F_GUARD_PAGES := 1 (only parsing).
Abbreviation ZIPC_POOL_F_STRICT_OWNERSHIP := 2 (only parsing).

(** ** Enumerations *)
Inductive zipc_status_t : Set :=
| ZIPC_OK
| ZIPC_ERR_INVALID_ARGUMENT
| ZIPC_ERR_INVALID_POOL
| ZIPC_ERR_NO_BUFFER
| ZIPC_ERR_INVALID_HANDLE
| ZIPC_ERR_STALE_HANDLE
| ZIPC_ERR_INVALID_STATE
| ZIPC_ERR_NOT_OWNER
| ZIPC_ERR_INVALID_RECEIVER
| ZIPC_ERR_SEQUENCE_MISMATCH
| ZIPC_ERR_REGION_OVERFLOW
| ZIPC_ERR_UNSUPPORTED_MEMORY
| ZIPC_ERR_TRANSPORT
| ZIPC_ERR_PLATFORM
| ZIPC_ERR_TIMEOUT
| ZIPC_ERR_HOP_LIMIT
| ZIPC_ERR_DEADLINE
| ZIPC_ERR_COMPONENT_STALE
| ZIPC_ERR_RECOVERY_REQUIRED
| ZIPC_ERR_INVALID_BUFFER
| ZIPC_ERR_BUFFER_TOO_SMALL
| ZIPC_ERR_ENTROPY_UNAVAILABLE
| ZIPC_ERR_TRANSPORT_PUBLISHED
| ZIPC_ERR_RECOVERY_UNSUPPORTED.

Inductive zipc_slot_state_t : Set :=
| ZIPC_SLOT_FREE
| ZIPC_SLOT_CLAIMING
| ZIPC_SLOT_OWNED
| ZIPC_SLOT_TRANSFER
| ZIPC_SLOT_ERROR.

Inductive zipc_link_role_t : Set :=
| ZIPC_LINK_ROLE_UNSPECIFIED
| ZIPC_LINK_ROLE_PRODUCER
| ZIPC_LINK_ROLE_CONSUMER.

Inductive zipc_platform_transport_type_t : Set :=
| ZIPC_TRANSPORT_MESSAGE_QUEUE
| ZIPC_TRANSPORT_UNIX_DGRAM
| ZIPC_TRANSPORT_FIFO
| ZIPC_TRANSPORT_SHM_RING_EVENTFD
| ZIPC_TRANSPORT_SHM_RING_POLLING
| ZIPC_TRANSPORT_RPMSG
| ZIPC_TRANSPORT_TASK_NOTIFICATION
| ZIPC_TRANSPORT_IPI
| ZIPC_TRANSPORT_XEN_RING_EVTCHN
| ZIPC_TRANSPORT_PL_RING_IRQ
| ZIPC_TRANSPORT_SMC
| ZIPC_TRANSPORT_FFA.

#[export] Instance zipc_status_eq_dec : EqDecision zipc_status_t.
Proof. solve_decision. Defined.
#[export] Instance zipc_slot_state_eq_dec : EqDecision zipc_slot_state_t.
Proof. solve_decision. Defined.
#[export] Instance zipc_link_role_eq_dec : EqDecision zipc_link_role_t.
Proof. solve_decision. Defined.
#[export] Instance zipc_transport_type_eq_dec :
  EqDecision zipc_platform_transport_type_t.
Proof. solve_decision. Defined.

(** The comparison [status == s] of the source. *)
Definition status_is (s t : zipc_status_t) : bool := bool_decide (s = t).
Definition state_is (s t : zipc_slot_state_t) : bool := bool_decide (s = t).

(** ** Structures *)
Record zipc_buffer_identity_t := ZipcIdentity {
  id_id : Z;
  id_parent_id : Z }.

(** [uint32_t words[8]]. *)
Record zipc_visited_set_t := ZipcVisited { v_words : list Z }.

Record zipc_buffer_region_t := ZipcRegion {
  r_offset : Z;
  r_length : Z }.

Record zipc_trace_entry_t := ZipcTraceEntry {
  te_timestamp_ns : Z;
  te_sequence : Z;
  te_component_id : Z;
  te_event : Z }.

Record zipc_trace_record_t := ZipcTraceRecord {
  tr_timestamp_ns : Z;
  tr_buffer_id : Z;
  tr_parent_id : Z;
  tr_handle : Z;
  tr_pool_id : Z;
  tr_transfer_sequence : Z;
  tr_component_id : Z;
  tr_event : Z }.

Record zipc_component_status_t := ZipcComponentStatus {
  c_lifecycle : Z;
  c_last_heartbeat_ns : Z;
  c_recovered_slots : Z }.

Record zipc_slot_control_t := ZipcSlot {
  s_state : zipc_slot_state_t;
  s_generation : Z;
  s_owner_id : Z;
  s_next_owner_id : Z;
  s_owner_epoch : Z;
  s_hop_count : Z;
  s_hop_limit : Z;
  s_visited : zipc_visited_set_t;
  s_identity : zipc_buffer_identity_t;
  s_region : zipc_buffer_region_t;
  s_transfer_sequence : Z;
  s_payload_type : Z;
  s_flags : Z;
  s_error_flags : Z;
  s_acquired_ns : Z;
  s_deadline_ns : Z;
  s_trace_count : Z;
  s_recovery_count : Z;
  s_claim_token : Z;
  s_claim_previous_sequence : Z;
  s_claim_previous_region : zipc_buffer_region_t;
  s_claim_previous_owner : Z;
  s_claim_previous_owner_epoch : Z;
  s_transfer_link_id : Z;
  s_transfer_source_id : Z;
  s_transfer_source_epoch : Z;
  s_transfer_hop_count : Z;
  s_transfer_acquired_ns : Z;
  s_transfer_visited : zipc_visited_set_t;
  s_trace : list zipc_trace_entry_t }.

(** The pool header less its [components] array, which is kept beside it
    (see [world]). *)
Record zipc_pool_header_t := ZipcHeader {
  h_magic : Z;
  h_abi_version : Z;
  h_header_size : Z;
  h_slot_count : Z;
  h_slot_capacity : Z;
  h_slot_stride : Z;
  h_controls_offset : Z;
  h_payload_alignment : Z;
  h_allocation_cursor : Z;
  h_allocation_count : Z;
  h_release_count : Z;
  h_allocation_failure_count : Z;
  h_protocol_error_count : Z;
  h_recovery_count : Z }.

Record zipc_pool_config_t := ZipcPoolConfig {
  pc_control_memory : Z;
  pc_control_offset : Z;
  pc_payload_memory : Z;
  pc_payload_offset : Z;
  pc_slot_count : Z;
  pc_slot_capacity : Z;
  pc_slot_stride : Z;
  pc_payload_alignment : Z;
  pc_flags : Z;
  pc_pool_id : Z }.

(** The process-local view of a pool.  [p_self] is the address of the
    structure, which the core compares ([link->pool != restart->pool]);
    [p_header] is the address of the shared header, under which the world
    keeps the header, its component table and its slot controls. *)
Record zipc_pool_t := ZipcPool {
  p_self : Z;
  p_control_memory : Z;
  p_payload_memory : Z;
  p_control_offset : Z;
  p_payload_offset : Z;
  p_header : Z;
  p_payload_base : Z;
  p_flags : Z;
  p_pool_id : Z }.

Record zipc_message_t := ZipcMessage {
  m_handle : Z;
  m_pool_id : Z;
  m_source_component : Z;
  m_destination_component : Z;
  m_transfer_sequence : Z;
  m_flags : Z }.

(** What [zipc_buffer_t]'s opaque storage holds. *)
Record zipc_buffer_impl_t := ZipcBuffer {
  b_handle : Z;
  b_slot_id : Z;
  b_control : option (Z * Z);
  b_slot_base : Z;
  b_data : Z;
  b_length : Z;
  b_capacity : Z;
  b_pool : option zipc_pool_t;
  b_owner : Z;
  b_local_state : Z;
  b_owner_epoch : Z;
  b_pool_id : Z }.

Abbreviation ZIPC_BUFFER_LOCAL_INVALID := 0 (only parsing).
Abbreviation ZIPC_BUFFER_LOCAL_OWNED := 1 (only parsing).

Record zipc_component_snapshot_t := ZipcSnapshot {
  sn_epoch : Z;
  sn_active : bool;
  sn_state : Z;
  sn_last_heartbeat_ns : Z;
  sn_recovered_slots : Z }.

Record zipc_restart_t := ZipcRestart {
  rs_pool : option zipc_pool_t;
  rs_component : Z;
  rs_dead_epoch : Z;
  rs_epoch : Z;
  rs_cursor : Z;
  rs_scan_complete : bool }.

Record zipc_recovery_result_t := ZipcRecoveryResult {
  rr_recovered_owned : Z;
  rr_recovered_transfer : Z;
  rr_skipped_newer_epoch : Z }.

Record zipc_buffer_id_generator_t := ZipcGenerator {
  g_session_state : Z;
  g_sequence : Z;
  g_active : Z }.

(** [entries] is the flexible array of [depth] descriptors. *)
Record zipc_transport_spsc_ring_t := ZipcRing {
  ring_producer : Z;
  ring_consumer : Z;
  ring_depth : Z;
  ring_entries : list zipc_message_t }.

(** ** All-zero values ([memset], compound literals) *)
Definition zero_identity : zipc_buffer_identity_t := ZipcIdentity 0 0.
Definition zero_region : zipc_buffer_region_t := ZipcRegion 0 0.
Definition zero_visited : zipc_visited_set_t := ZipcVisited (replicate 8 0).
Definition zero_trace_entry : zipc_trace_entry_t := ZipcTraceEntry 0 0 0 0.
Definition zero_trace : list zipc_trace_entry_t := replicate 8 zero_trace_entry.
Definition zero_message : zipc_message_t := ZipcMessage 0 0 0 0 0 0.
Definition zero_buffer : zipc_buffer_impl_t :=
  ZipcBuffer 0 0 None 0 0 0 0 None 0 0 0 0.
Definition zero_restart : zipc_restart_t := ZipcRestart None 0 0 0 0 false.
Definition zero_component : zipc_component_status_t := ZipcComponentStatus 0 0 0.
Definition zero_slot : zipc_slot_control_t :=
  ZipcSlot ZIPC_SLOT_FREE 0 0 0 0 0 0 zero_visited zero_identity zero_region
    0 0 0 0 0 0 0 0 0 0 zero_region 0 0 0 0 0 0 0 zero_visited zero_trace.

(** ** Component identifiers *)
Definition zipc_component_id_valid (component : Z) : bool :=
  (ZIPC_COMPONENT_ID_MIN <=? component) && (component <=? ZIPC_COMPONENT_ID_MAX).

Lemma zipc_component_id_valid_spec c :
  zipc_component_id_valid c = true ↔ 1 <= c <= 254.
Proof. unfold zipc_component_id_valid. rewrite andb_true_iff, !Z.leb_le. lia. Qed.
