(* ===== verification/Backends.v ===== *)
(** * The back-end roles of a transport (src/core/zipc-backends.c)

    Enumerations arrive as C integers: a value outside its enumeration takes
    the [default] branch. *)
From Stdlib Require Import String.
From S2P Require Import Prelude Types.
Open Scope string_scope.
Open Scope Z_scope.

Inductive zipc_platform_memory_type_t :=
| ZIPC_SHM_POSIX
| ZIPC_SHM_HUGEPAGES
| ZIPC_SHM_DTREVMEM_CACHED
| ZIPC_SHM_DTREVMEM_UNCACHED
| ZIPC_SHM_XEN_STATIC
| ZIPC_SHM_PREALLOCATED.
Inductive zipc_descriptor_backend_type_t :=
| ZIPC_DESCRIPTOR_BACKEND_NONE
| ZIPC_DESCRIPTOR_BACKEND_MESSAGE_QUEUE
| ZIPC_DESCRIPTOR_BACKEND_UNIX_DGRAM
| ZIPC_DESCRIPTOR_BACKEND_FIFO
| ZIPC_DESCRIPTOR_BACKEND_SHM_RING
| ZIPC_DESCRIPTOR_BACKEND_RPMSG
| ZIPC_DESCRIPTOR_BACKEND_SHARED_MAILBOX
| ZIPC_DESCRIPTOR_BACKEND_XEN_RING
| ZIPC_DESCRIPTOR_BACKEND_PL_RING
| ZIPC_DESCRIPTOR_BACKEND_SECURE_CALL.
Inductive zipc_event_backend_type_t :=
| ZIPC_EVENT_BACKEND_NONE
| ZIPC_EVENT_BACKEND_INTEGRATED
| ZIPC_EVENT_BACKEND_EVENTFD
| ZIPC_EVENT_BACKEND_SHM_POLLING
| ZIPC_EVENT_BACKEND_TASK_NOTIFICATION
| ZIPC_EVENT_BACKEND_IPI
| ZIPC_EVENT_BACKEND_XEN_EVENT_CHANNEL
| ZIPC_EVENT_BACKEND_IRQ
| ZIPC_EVENT_BACKEND_SYNCHRONOUS_CALL.

#[export] Instance memory_type_eq_dec : EqDecision zipc_platform_memory_type_t.
Proof. solve_decision. Defined.
#[export] Instance descriptor_backend_eq_dec : EqDecision zipc_descriptor_backend_type_t.
Proof. solve_decision. Defined.
#[export] Instance event_backend_eq_dec : EqDecision zipc_event_backend_type_t.
Proof. solve_decision. Defined.

(** The enumerations in the order of their values. *)
Definition transport_types : list zipc_platform_transport_type_t :=
  [ZIPC_TRANSPORT_MESSAGE_QUEUE; ZIPC_TRANSPORT_UNIX_DGRAM; ZIPC_TRANSPORT_FIFO;
   ZIPC_TRANSPORT_SHM_RING_EVENTFD; ZIPC_TRANSPORT_SHM_RING_POLLING; ZIPC_TRANSPORT_RPMSG;
   ZIPC_TRANSPORT_TASK_NOTIFICATION; ZIPC_TRANSPORT_IPI; ZIPC_TRANSPORT_XEN_RING_EVTCHN;
   ZIPC_TRANSPORT_PL_RING_IRQ; ZIPC_TRANSPORT_SMC; ZIPC_TRANSPORT_FFA].
Definition memory_types : list zipc_platform_memory_type_t :=
  [ZIPC_SHM_POSIX; ZIPC_SHM_HUGEPAGES; ZIPC_SHM_DTREVMEM_CACHED; ZIPC_SHM_DTREVMEM_UNCACHED;
   ZIPC_SHM_XEN_STATIC; ZIPC_SHM_PREALLOCATED].
Definition descriptor_backends : list zipc_descriptor_backend_type_t :=
  [ZIPC_DESCRIPTOR_BACKEND_NONE; ZIPC_DESCRIPTOR_BACKEND_MESSAGE_QUEUE;
   ZIPC_DESCRIPTOR_BACKEND_UNIX_DGRAM; ZIPC_DESCRIPTOR_BACKEND_FIFO;
   ZIPC_DESCRIPTOR_BACKEND_SHM_RING; ZIPC_DESCRIPTOR_BACKEND_RPMSG;
   ZIPC_DESCRIPTOR_BACKEND_SHARED_MAILBOX; ZIPC_DESCRIPTOR_BACKEND_XEN_RING;
   ZIPC_DESCRIPTOR_BACKEND_PL_RING; ZIPC_DESCRIPTOR_BACKEND_SECURE_CALL].
Definition event_backends : list zipc_event_backend_type_t :=
  [ZIPC_EVENT_BACKEND_NONE; ZIPC_EVENT_BACKEND_INTEGRATED; ZIPC_EVENT_BACKEND_EVENTFD;
   ZIPC_EVENT_BACKEND_SHM_POLLING; ZIPC_EVENT_BACKEND_TASK_NOTIFICATION;
   ZIPC_EVENT_BACKEND_IPI; ZIPC_EVENT_BACKEND_XEN_EVENT_CHANNEL; ZIPC_EVENT_BACKEND_IRQ;
   ZIPC_EVENT_BACKEND_SYNCHRONOUS_CALL].
(** The enumerator of a C integer. *)
Definition enumerator {A} (values : list A) (code : Z) : option A :=
  if code <? 0 then None else values !! Z.to_nat code.

(** [*descriptor] and [*event]; [false] is a NULL result pointer. *)
Definition zipc_transport_backend_roles (transport : Z) (descriptor event : bool)
    : zipc_status_t * option (zipc_descriptor_backend_type_t * zipc_event_backend_type_t) :=
  if negb descriptor || negb event then (ZIPC_ERR_INVALID_ARGUMENT, None)
  else
  let roles d e := (ZIPC_OK, Some (d, e)) in
  match enumerator transport_types transport with
  | Some ZIPC_TRANSPORT_MESSAGE_QUEUE =>
      roles ZIPC_DESCRIPTOR_BACKEND_MESSAGE_QUEUE ZIPC_EVENT_BACKEND_INTEGRATED
  | Some ZIPC_TRANSPORT_UNIX_DGRAM =>
      roles ZIPC_DESCRIPTOR_BACKEND_UNIX_DGRAM ZIPC_EVENT_BACKEND_INTEGRATED
  | Some ZIPC_TRANSPORT_FIFO =>
      roles ZIPC_DESCRIPTOR_BACKEND_FIFO ZIPC_EVENT_BACKEND_INTEGRATED
  | Some ZIPC_TRANSPORT_SHM_RING_EVENTFD =>
      roles ZIPC_DESCRIPTOR_BACKEND_SHM_RING ZIPC_EVENT_BACKEND_EVENTFD
  | Some ZIPC_TRANSPORT_SHM_RING_POLLING =>
      roles ZIPC_DESCRIPTOR_BACKEND_SHM_RING ZIPC_EVENT_BACKEND_SHM_POLLING
  | Some ZIPC_TRANSPORT_RPMSG =>
      roles ZIPC_DESCRIPTOR_BACKEND_RPMSG ZIPC_EVENT_BACKEND_INTEGRATED
  | Some ZIPC_TRANSPORT_TASK_NOTIFICATION =>
      roles ZIPC_DESCRIPTOR_BACKEND_SHARED_MAILBOX ZIPC_EVENT_BACKEND_TASK_NOTIFICATION
  | Some ZIPC_TRANSPORT_IPI =>
      roles ZIPC_DESCRIPTOR_BACKEND_SHARED_MAILBOX ZIPC_EVENT_BACKEND_IPI
  | Some ZIPC_TRANSPORT_XEN_RING_EVTCHN =>
      roles ZIPC_DESCRIPTOR_BACKEND_XEN_RING ZIPC_EVENT_BACKEND_XEN_EVENT_CHANNEL
  | Some ZIPC_TRANSPORT_PL_RING_IRQ =>
      roles ZIPC_DESCRIPTOR_BACKEND_PL_RING ZIPC_EVENT_BACKEND_IRQ
  | Some ZIPC_TRANSPORT_SMC | Some ZIPC_TRANSPORT_FFA =>
      roles ZIPC_DESCRIPTOR_BACKEND_SECURE_CALL ZIPC_EVENT_BACKEND_SYNCHRONOUS_CALL
  | None => (ZIPC_ERR_TRANSPORT, None)
  end.

Definition zipc_payload_backend_name (backend : Z) : string :=
  match enumerator memory_types backend with
  | Some ZIPC_SHM_POSIX => "posix-shm"
  | Some ZIPC_SHM_HUGEPAGES => "hugepages"
  | Some ZIPC_SHM_DTREVMEM_CACHED => "dtrevmem-cached"
  | Some ZIPC_SHM_DTREVMEM_UNCACHED => "dtrevmem-uncached"
  | Some ZIPC_SHM_XEN_STATIC => "xen-static"
  | Some ZIPC_SHM_PREALLOCATED => "preallocated"
  | None => "unknown"
  end.
Definition zipc_descriptor_backend_name (backend : Z) : string :=
  match enumerator descriptor_backends backend with
  | Some ZIPC_DESCRIPTOR_BACKEND_NONE => "none"
  | Some ZIPC_DESCRIPTOR_BACKEND_MESSAGE_QUEUE => "message-queue"
  | Some ZIPC_DESCRIPTOR_BACKEND_UNIX_DGRAM => "unix-dgram"
  | Some ZIPC_DESCRIPTOR_BACKEND_FIFO => "fifo"
  | Some ZIPC_DESCRIPTOR_BACKEND_SHM_RING => "shm-ring"
  | Some ZIPC_DESCRIPTOR_BACKEND_RPMSG => "rpmsg"
  | Some ZIPC_DESCRIPTOR_BACKEND_SHARED_MAILBOX => "shared-mailbox"
  | Some ZIPC_DESCRIPTOR_BACKEND_XEN_RING => "xen-ring"
  | Some ZIPC_DESCRIPTOR_BACKEND_PL_RING => "pl-ring"
  | Some ZIPC_DESCRIPTOR_BACKEND_SECURE_CALL => "secure-call"
  | None => "unknown"
  end.
Definition zipc_event_backend_name (backend : Z) : string :=
  match enumerator event_backends backend with
  | Some ZIPC_EVENT_BACKEND_NONE => "none"
  | Some ZIPC_EVENT_BACKEND_INTEGRATED => "integrated"
  | Some ZIPC_EVENT_BACKEND_EVENTFD => "eventfd"
  | Some ZIPC_EVENT_BACKEND_SHM_POLLING => "shm-polling"
  | Some ZIPC_EVENT_BACKEND_TASK_NOTIFICATION => "task-notification"
  | Some ZIPC_EVENT_BACKEND_IPI => "ipi"
  | Some ZIPC_EVENT_BACKEND_XEN_EVENT_CHANNEL => "xen-event-channel"
  | Some ZIPC_EVENT_BACKEND_IRQ => "irq"
  | Some ZIPC_EVENT_BACKEND_SYNCHRONOUS_CALL => "synchronous-call"
  | None => "unknown"
  end.

(** ** The tables are complete *)
Lemma enumerator_Some {A} (values : list A) code :
  is_Some (enumerator values code) ↔ 0 <= code < Z.of_nat (length values).
Proof.
  unfold enumerator. destruct (Z.ltb_spec code 0).
  - split; [intros [? ?]; done|lia].
  - rewrite lookup_lt_is_Some. lia.
Qed.
(** A transport has roles exactly if its type is one of the enumeration. *)
Lemma transport_roles_total transport :
  (zipc_transport_backend_roles transport true true).1 =
    (if (0 <=? transport) && (transport <? 12) then ZIPC_OK else ZIPC_ERR_TRANSPORT).
Proof.
  pose proof (enumerator_Some transport_types transport) as Hs. cbn [length transport_types] in Hs.
  unfold zipc_transport_backend_roles. cbn [negb orb].
  destruct (enumerator transport_types transport) as [t|].
  - assert (0 <= transport < 12) as [H1 H2] by (apply Hs; by eexists).
    rewrite (proj2 (Z.leb_le _ _) H1), (proj2 (Z.ltb_lt _ _) H2). by destruct t.
  - destruct (Z.leb_spec 0 transport), (Z.ltb_spec transport 12); try done.
    destruct (proj2 Hs) as [? ?]; [lia|done].
Qed.

(** Names identify their back-end, and none is the name of no back-end. *)
Lemma backend_names_distinct :
  NoDup ("unknown" :: map zipc_payload_backend_name (seqZ 0 6)) ∧
  NoDup ("unknown" :: map zipc_descriptor_backend_name (seqZ 0 10)) ∧
  NoDup ("unknown" :: map zipc_event_backend_name (seqZ 0 9)).
Proof. split_and!; apply (bool_decide_eq_true_1 _); vm_compute; reflexivity. Qed.
