(* ===== verification/Packing.v ===== *)
(** * Packed words

    The bit layouts of include/zipc/zipc.h (handles, buffer identifiers) and
    of src/core/zipc.c (component lifecycles, claim tokens), with the round
    trips that make them usable as identities. *)
From S2P Require Import Prelude Types.

(** ** Handles: [{generation:32, slot_id:32}] *)
Definition zipc_handle_make (slot_id generation : Z) : Z :=
  Z.lor (Z.shiftl generation 32) slot_id.
Definition zipc_handle_slot_id (handle : Z) : Z := u32 (Z.land handle UINT32_MAX).
Definition zipc_handle_generation (handle : Z) : Z := u32 (Z.shiftr handle 32).

(** ** Buffer identifiers: [{component:8, session:24, sequence:32}] *)
Definition zipc_buffer_id_make (allocator session sequence : Z) : Z :=
  Z.lor (Z.lor (Z.shiftl (Z.land allocator 255) 56)
               (Z.shiftl (Z.land session ZIPC_SESSION_MASK) 32))
        sequence.
Definition zipc_buffer_id_component (id : Z) : Z := u16 (Z.shiftr id 56).
Definition zipc_buffer_id_session (id : Z) : Z :=
  u32 (Z.land (Z.shiftr id 32) ZIPC_SESSION_MASK).
Definition zipc_buffer_id_sequence (id : Z) : Z := u32 id.
Definition zipc_buffer_id_valid (id : Z) : bool :=
  let component := zipc_buffer_id_component id in
  (ZIPC_COMPONENT_ID_MIN <=? component) && (component <=? ZIPC_COMPONENT_ID_MAX) &&
  negb (zipc_buffer_id_session id =? 0) &&
  negb (zipc_buffer_id_sequence id =? UINT32_MAX).

(** ** Component lifecycle words: [{epoch:32, state:32}] *)
Definition component_lifecycle_make (epoch state : Z) : Z :=
  Z.lor (Z.shiftl epoch 32) state.
Definition component_lifecycle_epoch (lifecycle : Z) : Z :=
  u32 (Z.shiftr lifecycle 32).
Definition component_lifecycle_state (lifecycle : Z) : Z := u32 lifecycle.

(** ** Claim tokens: [{epoch:32, 0:8, component:16, kind:8}] *)
Definition claim_token_make (kind component epoch : Z) : Z :=
  Z.lor (Z.lor (Z.shiftl epoch 32) (Z.shiftl component 8)) kind.
Definition claim_token_kind (token : Z) : Z := u8 token.
Definition claim_token_component (token : Z) : Z :=
  u16 (Z.land (Z.shiftr token 8) 65535).
Definition claim_token_epoch (token : Z) : Z := u32 (Z.shiftr token 32).

(** ** The layouts as sums *)
Lemma zipc_handle_make_sum i g :
  in_u32 i → zipc_handle_make i g = g * 4294967296 + i.
Proof. intros Hi. apply lor_shiftl_add; zlia. Qed.

Lemma component_lifecycle_make_sum e s :
  in_u32 s → component_lifecycle_make e s = e * 4294967296 + s.
Proof. intros Hs. apply lor_shiftl_add; zlia. Qed.

Lemma claim_token_make_sum k c e :
  in_u8 k → in_u16 c → claim_token_make k c e = e * 4294967296 + c * 256 + k.
Proof.
  intros Hk Hc. unfold claim_token_make.
  rewrite <- Z.lor_assoc, (lor_shiftl_add c k 8), (lor_shiftl_add e) by zlia. zlia.
Qed.

Lemma zipc_buffer_id_make_sum a se sq :
  in_u8 a → 0 <= se <= ZIPC_SESSION_MASK → in_u32 sq →
  zipc_buffer_id_make a se sq = a * 72057594037927936 + se * 4294967296 + sq.
Proof.
  intros Ha Hse Hsq. unfold zipc_buffer_id_make.
  rewrite (land_mask a 8), (land_mask se 24) by done.
  rewrite !Z.mod_small by zlia.
  rewrite <- Z.lor_assoc, (lor_shiftl_add se sq 32), (lor_shiftl_add a) by zlia. zlia.
Qed.

(** The extractors as arithmetic. *)
Lemma zipc_handle_slot_id_mod h : zipc_handle_slot_id h = h `mod` 4294967296.
Proof.
  unfold zipc_handle_slot_id. rewrite (land_mask h 32) by done.
  unfold u32. apply Z.mod_mod. done.
Qed.
Lemma zipc_handle_generation_div h :
  zipc_handle_generation h = u32 (h `div` 4294967296).
Proof. unfold zipc_handle_generation. by rewrite Z.shiftr_div_pow2. Qed.
Lemma component_lifecycle_epoch_div l :
  component_lifecycle_epoch l = u32 (l `div` 4294967296).
Proof. unfold component_lifecycle_epoch. by rewrite Z.shiftr_div_pow2. Qed.
Lemma claim_token_component_div t :
  claim_token_component t = (t `div` 256) `mod` 65536.
Proof.
  unfold claim_token_component. rewrite (land_mask _ 16), Z.shiftr_div_pow2 by done.
  unfold u16. apply Z.mod_mod. done.
Qed.
Lemma claim_token_epoch_div t : claim_token_epoch t = u32 (t `div` 4294967296).
Proof. unfold claim_token_epoch. by rewrite Z.shiftr_div_pow2. Qed.
Lemma zipc_buffer_id_session_div i :
  zipc_buffer_id_session i = (i `div` 4294967296) `mod` 16777216.
Proof.
  unfold zipc_buffer_id_session.
  rewrite (land_mask _ 24), Z.shiftr_div_pow2 by done. zlia.
Qed.
Lemma zipc_buffer_id_component_div i :
  zipc_buffer_id_component i = u16 (i `div` 72057594037927936).
Proof. unfold zipc_buffer_id_component. by rewrite Z.shiftr_div_pow2. Qed.

(** ** Round trips *)
Lemma handle_slot_id_make i g :
  in_u32 i → zipc_handle_slot_id (zipc_handle_make i g) = i.
Proof.
  intros Hi. rewrite zipc_handle_slot_id_mod, zipc_handle_make_sum by done. zlia.
Qed.
Lemma handle_generation_make i g :
  in_u32 i → in_u32 g → zipc_handle_generation (zipc_handle_make i g) = g.
Proof.
  intros Hi Hg. rewrite zipc_handle_generation_div, zipc_handle_make_sum by done. zlia.
Qed.
Lemma lifecycle_epoch_make e s :
  in_u32 e → in_u32 s → component_lifecycle_epoch (component_lifecycle_make e s) = e.
Proof.
  intros. rewrite component_lifecycle_epoch_div, component_lifecycle_make_sum by done.
  zlia.
Qed.
Lemma lifecycle_state_make e s :
  in_u32 s → component_lifecycle_state (component_lifecycle_make e s) = s.
Proof.
  intros. unfold component_lifecycle_state. rewrite component_lifecycle_make_sum by done.
  zlia.
Qed.
Lemma lifecycle_make_split l :
  in_u64 l →
  component_lifecycle_make (component_lifecycle_epoch l) (component_lifecycle_state l) = l.
Proof.
  intros. rewrite component_lifecycle_make_sum by (apply u32_range).
  rewrite component_lifecycle_epoch_div. unfold component_lifecycle_state. zlia.
Qed.
Lemma token_kind_make k c e :
  in_u8 k → in_u16 c → claim_token_kind (claim_token_make k c e) = k.
Proof.
  intros. unfold claim_token_kind. rewrite claim_token_make_sum by done. zlia.
Qed.
Lemma token_component_make k c e :
  in_u8 k → in_u16 c → claim_token_component (claim_token_make k c e) = c.
Proof.
  intros. rewrite claim_token_component_div, claim_token_make_sum by done. zlia.
Qed.
Lemma token_epoch_make k c e :
  in_u8 k → in_u16 c → in_u32 e → claim_token_epoch (claim_token_make k c e) = e.
Proof.
  intros. rewrite claim_token_epoch_div, claim_token_make_sum by done. zlia.
Qed.
(** A token of a real claim is never the empty token. *)
Lemma claim_token_make_nonzero k c e :
  1 <= k <= 255 → in_u16 c → in_u32 e → claim_token_make k c e ≠ 0.
Proof. intros. rewrite claim_token_make_sum by zlia. zlia. Qed.

#[export] Hint Rewrite handle_slot_id_make handle_generation_make
  lifecycle_epoch_make lifecycle_state_make token_kind_make token_component_make
  token_epoch_make using (assumption || zlia) : zipc.
