(* ===== verification/Visited.v ===== *)
(** * The exact visited-component set (src/core/zipc.c)

    A 256-bit set in eight 32-bit words.  The reserved identifiers 0 and 255
    always test false and are left out of the count. *)
From S2P Require Import Prelude Types.

Definition visited_word (visited : zipc_visited_set_t) (i : Z) : Z :=
  default 0 (v_words visited !! Z.to_nat i).

(** [visited == NULL] is [None]. *)
Definition zipc_visited_set_test (visited : option zipc_visited_set_t)
    (component : Z) : bool :=
  match visited with
  | None => false
  | Some v =>
      if negb (zipc_component_id_valid component) then false
      else negb (Z.land (visited_word v (component `div` 32))
                        (Z.shiftl 1 (component `mod` 32)) =? 0)
  end.

(** [while (word != 0) { word &= word - 1; ++count; }]; every iteration
    clears one bit, so 32 iterations empty a 32-bit word
    ([popcount_loop_total]). *)
Fixpoint popcount_loop (fuel : nat) (word count : Z) : option Z :=
  if word =? 0 then Some count
  else match fuel with
       | O => None
       | S fuel' => popcount_loop fuel' (Z.land word (word - 1)) (u32 (count + 1))
       end.

(** The outer loop over the words, [i] counting from 0. *)
Fixpoint count_words (words : list Z) (count : Z) : option Z :=
  match words with
  | [] => Some count
  | word :: words' =>
      count' ← popcount_loop 32 word count;
      count_words words' count'
  end.

Definition zipc_visited_set_count (visited : option zipc_visited_set_t) : option Z :=
  match visited with
  | None => Some 0
  | Some v =>
      count ← count_words (v_words v) 0;
      let count := u32 (count - (if negb (Z.land (visited_word v 0) 1 =? 0)
                                 then 1 else 0)) in
      Some (u32 (count - (if negb (Z.land (visited_word v 7) (Z.shiftl 1 31) =? 0)
                          then 1 else 0)))
  end.

Definition visited_set_add (visited : zipc_visited_set_t) (component : Z)
    : zipc_visited_set_t :=
  if zipc_component_id_valid component
  then let i := component `div` 32 in
       ZipcVisited (<[Z.to_nat i :=
         Z.lor (visited_word visited i) (Z.shiftl 1 (component `mod` 32))]>
         (v_words visited))
  else visited.

(** ** Well-formed sets and the set they denote *)
Definition visited_wf (v : zipc_visited_set_t) : Prop :=
  length (v_words v) = 8%nat ∧ Forall in_u32 (v_words v).

(** The members, as the client sees them through the test. *)
Definition visited_members (v : zipc_visited_set_t) : list Z :=
  filter (λ c, zipc_visited_set_test (Some v) c = true) (seqZ 0 256).

Lemma visited_wf_zero : visited_wf zero_visited.
Proof. split; [done|]. repeat constructor; done. Qed.

Lemma visited_word_range v i : visited_wf v → in_u32 (visited_word v i).
Proof.
  intros [_ Hall]. unfold visited_word.
  destruct (v_words v !! Z.to_nat i) as [x|] eqn:Hx; simpl; [|zlia].
  by eapply Forall_lookup_1 in Hall.
Qed.

Lemma visited_test_bit v c :
  1 <= c <= 254 →
  zipc_visited_set_test (Some v) c = Z.testbit (visited_word v (c `div` 32)) (c `mod` 32).
Proof.
  intros Hc. unfold zipc_visited_set_test.
  rewrite (proj2 (zipc_component_id_valid_spec c)) by done. simpl.
  rewrite land_pow2_testbit by zlia. by rewrite negb_involutive.
Qed.

Lemma visited_test_reserved v c :
  ¬ 1 <= c <= 254 → zipc_visited_set_test (Some v) c = false.
Proof.
  intros Hc. unfold zipc_visited_set_test.
  destruct (zipc_component_id_valid c) eqn:Hv; [|done].
  by apply zipc_component_id_valid_spec in Hv.
Qed.

Lemma lor_pow2_range w k : in_u32 w → 0 <= k < 32 → in_u32 (Z.lor w (Z.shiftl 1 k)).
Proof.
  intros Hw Hk. rewrite Z.shiftl_1_l.
  assert (H0 : 0 <= Z.lor w (2 ^ k)).
  { apply Z.lor_nonneg. split; [zlia|]. apply Z.pow_nonneg. lia. }
  split; [done|]. apply Z.lt_succ_r. change (Z.succ UINT32_MAX) with (2 ^ 32).
  destruct (decide (Z.lor w (2 ^ k) = 0)) as [->|Hnz]; [done|].
  apply Z.log2_lt_pow2; [lia|]. rewrite Z.log2_lor by (try zlia; apply Z.pow_nonneg; lia).
  rewrite Z.log2_pow2 by lia. apply Z.max_lub_lt; [|lia].
  destruct (decide (w = 0)) as [->|]; [done|]. apply Z.log2_lt_pow2; zlia.
Qed.

Lemma visited_wf_add v c : visited_wf v → visited_wf (visited_set_add v c).
Proof.
  intros Hwf. pose proof (visited_word_range v (c `div` 32) Hwf) as Hr.
  destruct Hwf as [Hlen Hall]. unfold visited_set_add.
  destruct (zipc_component_id_valid c); [|by split].
  split; simpl; [by rewrite length_insert|].
  apply Forall_insert; [done|]. apply lor_pow2_range; [done|zlia].
Qed.
#[export] Hint Resolve visited_wf_zero visited_wf_add : zipc.

Lemma visited_word_add v c i :
  visited_wf v → 1 <= c <= 254 → 0 <= i < 8 →
  visited_word (visited_set_add v c) i =
    if decide (i = c `div` 32)
    then Z.lor (visited_word v i) (Z.shiftl 1 (c `mod` 32)) else visited_word v i.
Proof.
  intros [Hlen _] Hc Hi. unfold visited_set_add.
  rewrite (proj2 (zipc_component_id_valid_spec c)) by done.
  unfold visited_word at 1. simpl.
  case_decide as Hd.
  - subst i. by rewrite list_lookup_insert_eq by (rewrite Hlen; zlia).
  - by rewrite list_lookup_insert_ne by zlia.
Qed.

Lemma visited_test_add v c c' :
  visited_wf v → 1 <= c <= 254 →
  zipc_visited_set_test (Some (visited_set_add v c)) c' =
    bool_decide (c' = c) || zipc_visited_set_test (Some v) c'.
Proof.
  intros Hwf Hc. destruct (decide (1 <= c' <= 254)) as [Hc'|Hc'].
  - rewrite !visited_test_bit, visited_word_add by (done || zlia).
    case_decide as Hd; [|rewrite bool_decide_eq_false_2 by congruence; done].
    rewrite Z.lor_spec, Z.shiftl_1_l.
    destruct (decide (c' `mod` 32 = c `mod` 32)) as [He|Hn].
    + rewrite He, Z.pow2_bits_true, orb_true_r by zlia.
      by rewrite bool_decide_eq_true_2 by zlia.
    + rewrite Z.pow2_bits_false, orb_false_r by zlia.
      by rewrite bool_decide_eq_false_2 by congruence.
  - rewrite !visited_test_reserved by done.
    by rewrite bool_decide_eq_false_2 by (intros ->; done).
Qed.

Lemma visited_add_self v c :
  visited_wf v → zipc_component_id_valid c = true →
  zipc_visited_set_test (Some (visited_set_add v c)) c = true.
Proof.
  intros Hv Hc. rewrite visited_test_add by (done || by apply zipc_component_id_valid_spec).
  by rewrite bool_decide_eq_true_2.
Qed.
#[export] Hint Resolve visited_add_self : zipc.

(** ** The population count *)
Fixpoint popcount (n : nat) (w : Z) : Z :=
  match n with O => 0 | S n' => w `mod` 2 + popcount n' (w `div` 2) end.

Lemma popcount_bounds n w : 0 <= popcount n w <= Z.of_nat n.
Proof.
  revert w. induction n as [|n IH]; intros w; simpl; [lia|].
  specialize (IH (w `div` 2)). zlia.
Qed.

Lemma popcount_zero n : popcount n 0 = 0.
Proof.
  induction n as [|n IH]; [done|]. cbn [popcount].
  change (0 `div` 2) with 0. by rewrite IH.
Qed.

Lemma land_pred_odd q : Z.land (2 * q + 1) (2 * q + 1 - 1) = 2 * q.
Proof.
  replace (2 * q + 1 - 1) with (2 * q) by lia.
  apply Z.bits_inj'. intros i Hi. rewrite Z.land_spec.
  destruct (decide (i = 0)) as [->|]; [by rewrite Z.testbit_odd_0, Z.testbit_even_0|].
  replace i with (Z.succ (i - 1)) by lia.
  rewrite Z.testbit_odd_succ, Z.testbit_even_succ by lia. apply andb_diag.
Qed.

Lemma land_pred_even q : Z.land (2 * q) (2 * q - 1) = 2 * Z.land q (q - 1).
Proof.
  replace (2 * q - 1) with (2 * (q - 1) + 1) by lia.
  apply Z.bits_inj'. intros i Hi. rewrite Z.land_spec.
  destruct (decide (i = 0)) as [->|]; [by rewrite !Z.testbit_even_0|].
  replace i with (Z.succ (i - 1)) by lia.
  rewrite Z.testbit_odd_succ, !Z.testbit_even_succ by lia. by rewrite Z.land_spec.
Qed.

(** [word & (word - 1)] clears exactly one bit. *)
Lemma popcount_clear_lowest n w :
  0 < w < 2 ^ Z.of_nat n →
  popcount n (Z.land w (w - 1)) = popcount n w - 1 ∧
  0 <= Z.land w (w - 1) < 2 ^ Z.of_nat n.
Proof.
  revert w. induction n as [|n IH]; intros w Hw; [simpl in Hw; lia|].
  rewrite Nat2Z.inj_succ, Z.pow_succ_r in * by lia. cbn [popcount].
  destruct (Z.Even_or_Odd w) as [[q ->]|[q ->]].
  - destruct (IH q) as [IH1 IH2]; [lia|].
    rewrite land_pred_even, !(Z.mul_comm 2), !Z.mod_mul, !Z.div_mul, IH1 by lia. lia.
  - rewrite land_pred_odd.
    replace ((2 * q + 1) `mod` 2) with 1 by zlia.
    replace ((2 * q + 1) `div` 2) with q by zlia.
    rewrite (Z.mul_comm 2), Z.mod_mul, Z.div_mul by lia. lia.
Qed.

#[local] Arguments popcount : simpl never.

(** The inner loop is total on a 32-bit word and counts its bits. *)
Lemma popcount_loop_total fuel word count :
  0 <= word < 2 ^ 32 → popcount 32 word <= Z.of_nat fuel →
  0 <= count → count + popcount 32 word <= UINT32_MAX →
  popcount_loop fuel word count = Some (count + popcount 32 word).
Proof.
  revert word count. induction fuel as [|fuel IH]; intros word count Hw Hf Hc Hsum;
    destruct (Z.eqb_spec word 0) as [->|Hnz];
    try (cbn [popcount_loop]; rewrite Z.eqb_refl, popcount_zero, Z.add_0_r; done).
  - destruct (popcount_clear_lowest 32 word) as [H1 _]; [lia|].
    pose proof (popcount_bounds 32 (Z.land word (word - 1))). lia.
  - destruct (popcount_clear_lowest 32 word) as [H1 H2]; [lia|].
    change (2 ^ Z.of_nat 32) with (2 ^ 32) in H2.
    cbn [popcount_loop]. rewrite (proj2 (Z.eqb_neq word 0)) by done.
    pose proof (popcount_bounds 32 (Z.land word (word - 1))).
    rewrite u32_small by zlia. rewrite IH by lia. f_equal. lia.
Qed.

Lemma count_words_total words count :
  Forall in_u32 words → 0 <= count →
  count + 32 * Z.of_nat (length words) <= UINT32_MAX →
  count_words words count =
    Some (count + Z.of_nat (sum_list_with (λ w, Z.to_nat (popcount 32 w)) words)).
Proof.
  revert count. induction words as [|word words IH]; intros count Hall Hc Hsum.
  - simpl. f_equal. lia.
  - apply Forall_cons in Hall as [Hw Hall]. cbn [count_words length sum_list_with] in *.
    pose proof (popcount_bounds 32 word).
    rewrite popcount_loop_total by zlia. simpl. rewrite IH by (done || lia).
    f_equal. rewrite Nat2Z.inj_add, Z2Nat.id by apply popcount_bounds. lia.
Qed.

(** Counting bits is counting the indices at which [Z.testbit] holds. *)
Lemma popcount_filter n w lo :
  popcount n w =
  Z.of_nat (length (filter (λ i, Z.testbit w (i - lo) = true) (seqZ lo (Z.of_nat n)))).
Proof.
  revert w lo. induction n as [|n IH]; intros w lo; [done|].
  change (popcount (S n) w) with (w `mod` 2 + popcount n (w `div` 2)).
  rewrite Nat2Z.inj_succ, <- Z.add_1_l, (seqZ_app lo 1) by lia.
  rewrite filter_app, length_app, Nat2Z.inj_add. f_equal.
  - change (seqZ lo 1) with [lo]. rewrite filter_cons, filter_nil, Z.sub_diag.
    rewrite <- (Z.bit0_mod w). by destruct (Z.testbit w 0).
  - rewrite (IH (w `div` 2) (lo + 1)). f_equal. f_equal.
    apply list_filter_ext_in. intros i Hi%elem_of_seqZ.
    rewrite Z.div2_bits by lia. by replace (Z.succ (i - (lo + 1))) with (i - lo) by lia.
Qed.

Definition visited_bit (v : zipc_visited_set_t) (c : Z) : Prop :=
  Z.testbit (visited_word v (c `div` 32)) (c `mod` 32) = true.

#[export] Instance visited_bit_dec v c : Decision (visited_bit v c).
Proof. unfold visited_bit. apply _. Defined.

Lemma visited_block_count v k :
  0 <= k < 8 →
  length (filter (visited_bit v) (seqZ (32 * k) 32)) =
  Z.to_nat (popcount 32 (visited_word v k)).
Proof.
  intros Hk. rewrite (popcount_filter 32 _ (32 * k)), Nat2Z.id. f_equal.
  apply list_filter_ext_in. intros c Hc%elem_of_seqZ. unfold visited_bit.
  replace (c `div` 32) with k by zlia. by replace (c `mod` 32) with (c - 32 * k) by zlia.
Qed.

Lemma visited_blocks_count v :
  length (v_words v) = 8%nat →
  length (filter (visited_bit v) (seqZ 0 256)) =
  sum_list_with (λ w, Z.to_nat (popcount 32 w)) (v_words v).
Proof.
  intros Hlen. change (seqZ 0 256) with
    (seqZ (32*0) 32 ++ seqZ (32*1) 32 ++ seqZ (32*2) 32 ++ seqZ (32*3) 32 ++
     seqZ (32*4) 32 ++ seqZ (32*5) 32 ++ seqZ (32*6) 32 ++ seqZ (32*7) 32).
  rewrite !filter_app, !length_app.
  rewrite !visited_block_count by lia.
  destruct v as [ws]. simpl in Hlen.
  do 8 (destruct ws as [|? ws]; [done|]). destruct ws; [|done].
  unfold visited_word. simpl. lia.
Qed.

Lemma visited_members_count v :
  length (filter (visited_bit v) (seqZ 0 256)) =
  (Nat.b2n (Z.testbit (visited_word v 0) 0) + length (visited_members v) +
   Nat.b2n (Z.testbit (visited_word v 7) 31))%nat.
Proof.
  unfold visited_members.
  change (seqZ 0 256) with ([0] ++ seqZ 1 254 ++ [255]).
  rewrite !filter_app, !length_app, !filter_cons, !filter_nil.
  rewrite (decide_False (P := zipc_visited_set_test (Some v) 0 = true)) by done.
  rewrite (decide_False (P := zipc_visited_set_test (Some v) 255 = true)) by done.
  rewrite (list_filter_ext_in (visited_bit v)
    (λ c, zipc_visited_set_test (Some v) c = true) (seqZ 1 254)).
  2:{ intros c Hc%elem_of_seqZ. rewrite visited_test_bit by lia. done. }
  assert (H0 : visited_bit v 0 ↔ Z.testbit (visited_word v 0) 0 = true) by done.
  assert (H7 : visited_bit v 255 ↔ Z.testbit (visited_word v 7) 31 = true) by done.
  destruct (Z.testbit (visited_word v 0) 0), (Z.testbit (visited_word v 7) 31);
    repeat case_decide; try tauto; try (exfalso; intuition congruence); simpl; lia.
Qed.

Lemma visited_members_length v : (length (visited_members v) <= 254)%nat.
Proof.
  unfold visited_members. change (seqZ 0 256) with ([0] ++ seqZ 1 254 ++ [255]).
  rewrite !filter_app, !length_app, !filter_cons, !filter_nil.
  rewrite (decide_False (P := zipc_visited_set_test (Some v) 0 = true)) by done.
  rewrite (decide_False (P := zipc_visited_set_test (Some v) 255 = true)) by done.
  pose proof (length_filter (λ c, zipc_visited_set_test (Some v) c = true) (seqZ 1 254)).
  rewrite length_seqZ in *. change (length (@nil Z)) with 0%nat. lia.
Qed.

(** The visited set is exact: after adding a usable component the test
    answers true for that component and unchanged for every other, the
    reserved identifiers 0 and 255 never test true, and the set stays eight
    32-bit words. *)
Theorem visited_set_exact (v : zipc_visited_set_t) (c c' : Z) :
  visited_wf v →
  visited_wf (visited_set_add v c) ∧
  zipc_visited_set_test (Some (visited_set_add v c)) c' =
    ((bool_decide (c' = c) && zipc_component_id_valid c) ||
     zipc_visited_set_test (Some v) c') ∧
  zipc_visited_set_test (Some v) 0 = false ∧
  zipc_visited_set_test (Some v) 255 = false.
Proof.
  intros Hwf. split_and!; [by apply visited_wf_add| |done|done].
  destruct (zipc_component_id_valid c) eqn:Hc.
  - rewrite andb_true_r. apply visited_test_add; [done|].
    by apply zipc_component_id_valid_spec.
  - unfold visited_set_add. by rewrite Hc, andb_false_r.
Qed.


(** The nested counting loops terminate within their bound and return
    exactly the number of usable identifiers the set contains, although they
    count all 256 bits and then subtract the two reserved ones. *)
Theorem visited_set_count_exact (v : zipc_visited_set_t) :
  visited_wf v →
  zipc_visited_set_count (Some v) = Some (Z.of_nat (length (visited_members v))).
Proof.
  intros [Hlen Hall]. unfold zipc_visited_set_count.
  rewrite count_words_total, <- visited_blocks_count, visited_members_count
    by (done || rewrite Hlen; done || lia).
  pose proof (visited_members_length v) as Hm.
  generalize dependent (length (visited_members v)). intros n Hn. simpl.
  change (Z.land (visited_word v 0) 1) with (Z.land (visited_word v 0) (Z.shiftl 1 0)).
  rewrite !land_pow2_testbit, !negb_involutive by lia.
  destruct (Z.testbit (visited_word v 0) 0), (Z.testbit (visited_word v 7) 31);
    simpl; f_equal; zlia.
Qed.

Lemma visited_set_count_exact_witness :
  zipc_visited_set_count (Some (visited_set_add (visited_set_add zero_visited 7) 254))
  = Some 2.
Proof.
  rewrite (visited_set_count_exact
    (visited_set_add (visited_set_add zero_visited 7) 254)
    (visited_wf_add _ _ (visited_wf_add _ _ visited_wf_zero))).
  vm_compute. reflexivity.
Defined.
