(* ===== verification/Prog.v ===== *)
(** * Programs over a shared store

    A C function of the core is a program: a tree of atomic actions on a
    store, each of which may fault (undefined behaviour: a dereference outside
    an array, of NULL, a division by zero).  [run] executes a tree and [wp] is
    its weakest precondition: no fault, a result, and a postcondition. *)
From S2P Require Import Prelude.

Section prog.
Context {W : Type}.

Inductive prog (A : Type) : Type :=
| Ret (a : A)
| Act {B : Type} (f : W → option (B * W)) (k : B → prog A).
Arguments Ret {A} a.
Arguments Act {A B} f k.

Fixpoint prog_bind {A B} (g : A → prog B) (p : prog A) : prog B :=
  match p with
  | Ret a => g a
  | Act f k => Act f (λ b, prog_bind g (k b))
  end.

#[export] Instance prog_ret : MRet prog := λ A a, Ret a.
#[export] Instance prog_mbind : MBind prog := λ A B g p, prog_bind g p.

(** One atomic action. *)
Definition act {B} (f : W → option (B * W)) : prog B := Act f Ret.

(** Sequential execution; [None] is a fault. *)
Fixpoint run {A} (p : prog A) (w : W) : option (A * W) :=
  match p with
  | Ret a => Some (a, w)
  | Act f k => match f w with Some (b, w') => run (k b) w' | None => None end
  end.

(** [wp p Q w]: from [w], [p] runs without a fault to a result and a store
    that satisfy [Q]. *)
Definition wp {A} (p : prog A) (Q : A → W → Prop) (w : W) : Prop :=
  match run p w with Some (a, w') => Q a w' | None => False end.

Lemma run_bind {A B} (g : A → prog B) (p : prog A) w :
  run (p ≫= g) w = match run p w with Some (a, w') => run (g a) w' | None => None end.
Proof.
  revert w. induction p as [a|B' f k IH]; intros w; simpl; [done|].
  destruct (f w) as [[b w']|]; [|done]. apply IH.
Qed.

Lemma wp_ret {A} (a : A) Q w : Q a w → wp (mret a) Q w.
Proof. done. Qed.

Lemma wp_bind {A B} (g : A → prog B) (p : prog A) Q w :
  wp p (λ a w', wp (g a) Q w') w → wp (p ≫= g) Q w.
Proof.
  unfold wp. rewrite run_bind. destruct (run p w) as [[a w']|]; done.
Qed.

Lemma wp_act {B} (f : W → option (B * W)) Q w b w' :
  f w = Some (b, w') → Q b w' → wp (act f) Q w.
Proof. intros Hf HQ. unfold wp, act. simpl. by rewrite Hf. Qed.

Lemma wp_mono {A} (p : prog A) (Q R : A → W → Prop) w :
  wp p Q w → (∀ a w', Q a w' → R a w') → wp p R w.
Proof. unfold wp. destruct (run p w) as [[a w']|]; auto. Qed.

Lemma wp_and {A} (p : prog A) (Q R : A → W → Prop) w :
  wp p Q w → wp p R w → wp p (λ a w', Q a w' ∧ R a w') w.
Proof. unfold wp. destruct (run p w) as [[a w']|]; auto. Qed.

Lemma wp_run {A} (p : prog A) Q w :
  wp p Q w ↔ ∃ a w', run p w = Some (a, w') ∧ Q a w'.
Proof.
  unfold wp. destruct (run p w) as [[a w']|]; naive_solver.
Qed.
Lemma wp_run_eq {A} (p : prog A) Q w :
  wp p Q w → wp p (λ a w', Q a w' ∧ run p w = Some (a, w')) w.
Proof. rewrite !wp_run. naive_solver. Qed.

(** ** Loops

    [for (i = lo; i < lo + n; ++i)] with an early [return]: the body yields
    [Some] result to leave the function and [None] to go on ([continue]). *)
Fixpoint for_range {A} (n : nat) (i : Z) (body : Z → prog (option A))
    : prog (option A) :=
  match n with
  | O => mret None
  | S n' =>
      r ← body i;
      match r with
      | Some a => mret (Some a)
      | None => for_range n' (i + 1) body
      end
  end.

(** [for (;;)]: [None] goes round again; running out of fuel is [None]. *)
Fixpoint loop {A} (fuel : nat) (body : prog (option A)) : prog (option A) :=
  match fuel with
  | O => mret None
  | S fuel' =>
      r ← body;
      match r with
      | Some a => mret (Some a)
      | None => loop fuel' body
      end
  end.

(** Loop with a state threaded through the iterations. *)
Fixpoint loop_with {S A} (fuel : nat) (body : S → prog (S + A)) (s : S)
    : prog (option A) :=
  match fuel with
  | O => mret None
  | Datatypes.S fuel' =>
      r ← body s;
      match r with
      | inr a => mret (Some a)
      | inl s' => loop_with fuel' body s'
      end
  end.

(** Loop rule: an invariant indexed by the iteration. *)
Lemma wp_for_range {A} (Inv : Z → W → Prop) (body : Z → prog (option A)) Q n lo w :
  Inv lo w →
  (∀ i w, lo <= i < lo + Z.of_nat n → Inv i w →
     wp (body i) (λ r w', match r with Some a => Q (Some a) w' | None => Inv (i + 1) w' end) w) →
  (∀ w, Inv (lo + Z.of_nat n) w → Q None w) →
  wp (for_range n lo body) Q w.
Proof.
  revert lo w. induction n as [|n IH]; intros lo w Hlo Hbody Hend; simpl.
  - apply wp_ret, Hend. by rewrite Z.add_0_r.
  - apply wp_bind. eapply wp_mono; [apply Hbody; [lia|done]|].
    intros [a|] w' Hr; [by apply wp_ret|].
    apply IH; [done| |].
    + intros i w'' Hi. apply Hbody. lia.
    + intros w'' HI. apply Hend. by replace (lo + Z.of_nat (S n)) with
        (lo + 1 + Z.of_nat n) by lia.
Qed.

End prog.

Arguments prog : clear implicits.
Arguments Ret {W A} a.
Arguments Act {W A B} f k.

(** Reduction that leaves the structure of a program alone. *)
Ltac psimpl := cbn beta iota zeta delta [negb orb andb fst snd].
