(* ===== verification/Store.v ===== *)
(** * The store the core runs on

    [world] holds what the functions of src/core/zipc.c read and write: the
    shared control memory of the attached pools (headers, component tables,
    slot controls), the shared descriptor rings, and the process-local state
    (buffer objects by address, the buffer-identifier generators, the trace
    hook, payload bytes) together with the state [E] of the platform layer.

    The platform layer is an interface: [Platform] lists the functions of
    "Platform memory API" in zipc.h that the core calls, and [PlatformLaws]
    what the core relies on.  platform/linux/user implements it. *)
From S2P Require Import Prelude Types Prog.

(** ** The platform interface *)
Class Platform (E : Type) := {
  zipc_platform_memory_base : E → Z → Z;
  zipc_platform_memory_size : E → Z → Z;
  zipc_platform_memory_physical_base : E → Z → Z;
  zipc_platform_memory_capabilities : E → Z → Z;
  zipc_platform_memory_page_size : E → Z → Z;
  zipc_platform_page_size : E → Z;
  zipc_platform_memory_protect_none : Z → Z → Z → E → zipc_status_t * E;
  zipc_platform_memory_protect_rw : Z → Z → Z → E → zipc_status_t * E;
  zipc_platform_time_ns : E → Z * E;
  (** Status, and the four bytes written to a [uint32_t]. *)
  zipc_platform_random : E → zipc_status_t * Z * E }.

(** Two platform states that describe the same memory objects. *)
Definition same_memory {E} `{Platform E} (e e' : E) : Prop :=
  zipc_platform_memory_base e = zipc_platform_memory_base e' ∧
  zipc_platform_memory_size e = zipc_platform_memory_size e' ∧
  zipc_platform_memory_physical_base e = zipc_platform_memory_physical_base e' ∧
  zipc_platform_memory_capabilities e = zipc_platform_memory_capabilities e' ∧
  zipc_platform_memory_page_size e = zipc_platform_memory_page_size e' ∧
  zipc_platform_page_size e = zipc_platform_page_size e'.

(** [plat_accessible e m o]: the byte at offset [o] of memory [m] is mapped
    read/write in this process.  A call that fails may leave any protection. *)
Class PlatformLaws (E : Type) `{Platform E} := {
  plat_accessible : E → Z → Z → bool;
  plat_memory_range e m : in_u64 (zipc_platform_memory_base e m) ∧
    in_u64 (zipc_platform_memory_size e m) ∧ in_u64 (zipc_platform_memory_page_size e m);
  plat_time_range e : in_u64 (zipc_platform_time_ns e).1;
  plat_time_frame e : same_memory e (zipc_platform_time_ns e).2 ∧
    plat_accessible (zipc_platform_time_ns e).2 = plat_accessible e;
  plat_random_range e : in_u32 (zipc_platform_random e).1.2;
  plat_random_frame e : same_memory e (zipc_platform_random e).2 ∧
    plat_accessible (zipc_platform_random e).2 = plat_accessible e;
  plat_protect_none_frame m o l e :
    same_memory e (zipc_platform_memory_protect_none m o l e).2;
  plat_protect_rw_frame m o l e :
    same_memory e (zipc_platform_memory_protect_rw m o l e).2;
  plat_protect_none_spec m o l e m' x :
    0 <= o → 0 <= l → (zipc_platform_memory_protect_none m o l e).1 = ZIPC_OK →
    plat_accessible (zipc_platform_memory_protect_none m o l e).2 m' x =
      if (m' =? m) && (o <=? x) && (x <? o + l) then false else plat_accessible e m' x;
  plat_protect_rw_spec m o l e m' x :
    0 <= o → 0 <= l → (zipc_platform_memory_protect_rw m o l e).1 = ZIPC_OK →
    plat_accessible (zipc_platform_memory_protect_rw m o l e).2 m' x =
      if (m' =? m) && (o <=? x) && (x <? o + l) then true else plat_accessible e m' x }.

(** ** The world *)
Record world (E : Type) := World {
  (** Shared: pool headers by address, component tables by header address and
      component, slot controls by header address and slot. *)
  w_headers : gmap Z zipc_pool_header_t;
  w_components : gmap (Z * Z) zipc_component_status_t;
  w_controls : gmap (Z * Z) zipc_slot_control_t;
  w_rings : gmap Z zipc_transport_spsc_ring_t;
  (** Process-local: [zipc_buffer_t] objects by address,
      [g_buffer_id_generators], [g_trace_hook != NULL] and the records the
      hook received (newest first). *)
  w_buffers : gmap Z zipc_buffer_impl_t;
  w_generators : gmap Z zipc_buffer_id_generator_t;
  w_trace_hook : bool;
  w_trace_log : list zipc_trace_record_t;
  (** Payload bytes by address. *)
  w_payload : Z → Z;
  (** The spurious failures the next weak compare-exchanges suffer. *)
  w_spurious : list bool;
  w_env : E }.
Arguments World {E} _ _ _ _ _ _ _ _ _ _ _.
Arguments w_headers {E} _.
Arguments w_components {E} _.
Arguments w_controls {E} _.
Arguments w_rings {E} _.
Arguments w_buffers {E} _.
Arguments w_generators {E} _.
Arguments w_trace_hook {E} _.
Arguments w_trace_log {E} _.
Arguments w_payload {E} _.
Arguments w_spurious {E} _.
Arguments w_env {E} _.

Section store.
Context {E : Type}.
Implicit Type w : world E.

Definition put_header (h : Z) (x : zipc_pool_header_t) w : world E :=
  {| w with w_headers := <[h := x]> (w_headers w) |}.
Definition put_component (k : Z * Z) (x : zipc_component_status_t) w : world E :=
  {| w with w_components := <[k := x]> (w_components w) |}.
Definition put_slot (k : Z * Z) (x : zipc_slot_control_t) w : world E :=
  {| w with w_controls := <[k := x]> (w_controls w) |}.
Definition put_ring (a : Z) (x : zipc_transport_spsc_ring_t) w : world E :=
  {| w with w_rings := <[a := x]> (w_rings w) |}.
Definition put_buffer (a : Z) (x : zipc_buffer_impl_t) w : world E :=
  {| w with w_buffers := <[a := x]> (w_buffers w) |}.
Definition put_generator (c : Z) (x : zipc_buffer_id_generator_t) w : world E :=
  {| w with w_generators := <[c := x]> (w_generators w) |}.
Definition put_env (e : E) w : world E := {| w with w_env := e |}.
Definition put_trace (r : zipc_trace_record_t) w : world E :=
  {| w with w_trace_log := r :: w_trace_log w |}.
Definition put_payload (f : Z → Z) w : world E := {| w with w_payload := f |}.
Definition put_spurious (l : list bool) w : world E := {| w with w_spurious := l |}.

Lemma put_slot_twice k s s' w : put_slot k s' (put_slot k s w) = put_slot k s' w.
Proof. unfold put_slot. simpl. f_equal. apply insert_insert_eq. Qed.
Lemma put_slot_id k s w : w_controls w !! k = Some s → put_slot k s w = w.
Proof. intros Hs. destruct w. unfold put_slot. simpl in *. f_equal. by apply insert_id. Qed.

(** ** Field assignments *)
Definition set_state (x : zipc_slot_state_t) (s : zipc_slot_control_t) :=
  {| s with s_state := x |}.
Definition set_token (x : Z) (s : zipc_slot_control_t) :=
  {| s with s_claim_token := x |}.
Definition set_generation (x : Z) (s : zipc_slot_control_t) :=
  {| s with s_generation := x |}.
Definition set_lifecycle (x : Z) (c : zipc_component_status_t) :=
  {| c with c_lifecycle := x |}.
Definition set_heartbeat (x : Z) (c : zipc_component_status_t) :=
  {| c with c_last_heartbeat_ns := x |}.

(** ** Atomic actions

    A read or write of a cell that does not exist faults. *)
Definition slot_read {A} (k : Z * Z) (f : zipc_slot_control_t → A) : prog (world E) A :=
  act (λ w, s ← w_controls w !! k; Some (f s, w)).
Definition slot_write (k : Z * Z) (f : zipc_slot_control_t → zipc_slot_control_t)
    : prog (world E) () :=
  act (λ w, s ← w_controls w !! k; Some (tt, put_slot k (f s) w)).

(** [atomic_compare_exchange_strong] on [slot->state]; every caller ignores
    the value written back to [expected]. *)
Definition cas_state (k : Z * Z) (expected desired : zipc_slot_state_t)
    : prog (world E) bool :=
  act (λ w, s ← w_controls w !! k;
    if state_is (s_state s) expected
    then Some (true, put_slot k (set_state desired s) w)
    else Some (false, w)).

(** The same on [slot->claim_token]; the second component is the value left
    in [expected]. *)
Definition cas_token (k : Z * Z) (expected desired : Z) : prog (world E) (bool * Z) :=
  act (λ w, s ← w_controls w !! k;
    if s_claim_token s =? expected
    then Some ((true, expected), put_slot k (set_token desired s) w)
    else Some ((false, s_claim_token s), w)).

Definition store_state (k : Z * Z) (x : zipc_slot_state_t) : prog (world E) () :=
  slot_write k (set_state x).
Definition store_generation (k : Z * Z) (x : Z) : prog (world E) () :=
  slot_write k (set_generation x).
Definition store_token (k : Z * Z) (x : Z) : prog (world E) () :=
  slot_write k (set_token x).

Definition header_read {A} (h : Z) (f : zipc_pool_header_t → A) : prog (world E) A :=
  act (λ w, x ← w_headers w !! h; Some (f x, w)).
Definition header_write (h : Z) (f : zipc_pool_header_t → zipc_pool_header_t)
    : prog (world E) () :=
  act (λ w, x ← w_headers w !! h; Some (tt, put_header h (f x) w)).

Definition component_read {A} (k : Z * Z) (f : zipc_component_status_t → A)
    : prog (world E) A :=
  act (λ w, x ← w_components w !! k; Some (f x, w)).
Definition component_write (k : Z * Z)
    (f : zipc_component_status_t → zipc_component_status_t) : prog (world E) () :=
  act (λ w, x ← w_components w !! k; Some (tt, put_component k (f x) w)).
(** [atomic_compare_exchange_strong] on [entry->lifecycle]. *)
Definition cas_lifecycle (k : Z * Z) (expected desired : Z)
    : prog (world E) (bool * Z) :=
  act (λ w, x ← w_components w !! k;
    if c_lifecycle x =? expected
    then Some ((true, expected), put_component k (set_lifecycle desired x) w)
    else Some ((false, c_lifecycle x), w)).

(** Whether the weak compare-exchange about to be issued fails spuriously. *)
Definition spurious : prog (world E) bool :=
  act (λ w, match w_spurious w with
            | [] => Some (false, w)
            | b :: l => Some (b, put_spurious l w)
            end).
(** [atomic_compare_exchange_weak] on [entry->lifecycle]. *)
Definition cas_lifecycle_weak (k : Z * Z) (expected desired : Z)
    : prog (world E) (bool * Z) :=
  fails ← spurious;
  if fails : bool then current ← component_read k c_lifecycle; mret (false, current)
  else cas_lifecycle k expected desired.

Definition generator_read {A} (c : Z) (f : zipc_buffer_id_generator_t → A)
    : prog (world E) A :=
  act (λ w, x ← w_generators w !! c; Some (f x, w)).
Definition generator_write (c : Z)
    (f : zipc_buffer_id_generator_t → zipc_buffer_id_generator_t) : prog (world E) () :=
  act (λ w, x ← w_generators w !! c; Some (tt, put_generator c (f x) w)).
(** [atomic_compare_exchange_weak] on a field of a generator. *)
Definition cas_generator_weak (c : Z) (get : zipc_buffer_id_generator_t → Z)
    (set : Z → zipc_buffer_id_generator_t → zipc_buffer_id_generator_t)
    (expected desired : Z) : prog (world E) bool :=
  fails ← spurious;
  if fails : bool then mret false
  else act (λ w, x ← w_generators w !! c;
         if get x =? expected
         then Some (true, put_generator c (set desired x) w)
         else Some (false, w)).

(** [zipc_buffer_t] objects; the address 0 is NULL and faults. *)
Definition buffer_read (a : Z) : prog (world E) zipc_buffer_impl_t :=
  act (λ w, x ← w_buffers w !! a; Some (x, w)).
Definition buffer_write (a : Z) (x : zipc_buffer_impl_t) : prog (world E) () :=
  act (λ w, _ ← w_buffers w !! a; Some (tt, put_buffer a x w)).

(** [memcpy] into payload memory. *)
Definition copy_in (a : Z) (bytes : list Z) (f : Z → Z) : Z → Z :=
  λ x, default (f x) (if (a <=? x) then bytes !! Z.to_nat (x - a) else None).
Definition payload_write (a : Z) (bytes : list Z) : prog (world E) () :=
  act (λ w, Some (tt, put_payload (copy_in a bytes (w_payload w)) w)).
Definition payload_read (a : Z) (n : nat) : prog (world E) (list Z) :=
  act (λ w, Some (map (λ i, w_payload w (a + Z.of_nat i)) (seq 0 n), w)).

(** A pure lookup in the platform state, and a platform call. *)
Definition env_get {A} (f : E → A) : prog (world E) A := act (λ w, Some (f (w_env w), w)).
Definition env_call {A} (f : E → A * E) : prog (world E) A :=
  act (λ w, let '(a, e) := f (w_env w) in Some (a, put_env e w)).

(** [g_trace_hook != NULL], and the call of the hook. *)
Definition trace_hook_set : prog (world E) bool := act (λ w, Some (w_trace_hook w, w)).
Definition trace_hook_call (r : zipc_trace_record_t) : prog (world E) () :=
  act (λ w, Some (tt, put_trace r w)).

(** Undefined behaviour. *)
Definition fault {A} : prog (world E) A := act (λ _, None).

End store.

(** A loop that exhausts its fuel has no result: like a fault it makes [run]
    return [None], so a [wp] statement shows termination as well. *)
Definition returned {E A} (r : option A) : prog (world E) A :=
  match r with Some a => mret a | None => fault end.

(** ** Rules for the actions *)
Section rules.
Context {E : Type}.
Implicit Type w : world E.

Lemma wp_slot_read {A} k (f : zipc_slot_control_t → A) Q w s :
  w_controls w !! k = Some s → Q (f s) w → wp (slot_read k f) Q w.
Proof. intros Hs HQ. eapply wp_act; [by rewrite Hs|done]. Qed.

(** The slot a rule leaves behind gets a name, so that the worlds of a long
    run stay small. *)
Lemma wp_slot_write k f Q w s :
  w_controls w !! k = Some s → (∀ s', s' = f s → Q tt (put_slot k s' w)) →
  wp (slot_write k f) Q w.
Proof. intros Hs HQ. eapply wp_act; [by rewrite Hs|by apply HQ]. Qed.

Lemma wp_cas_state k x y Q w s :
  w_controls w !! k = Some s →
  (∀ s', s' = set_state y s → s_state s = x → Q true (put_slot k s' w)) →
  (s_state s ≠ x → Q false w) →
  wp (cas_state k x y) Q w.
Proof.
  intros Hs H1 H2. destruct (decide (s_state s = x)) as [He|Hn].
  - eapply wp_act; [|by apply H1]. rewrite Hs. simpl. unfold state_is.
    by rewrite bool_decide_eq_true_2.
  - eapply wp_act; [|by apply H2]. rewrite Hs. simpl. unfold state_is.
    by rewrite bool_decide_eq_false_2.
Qed.

Lemma wp_cas_token k x y Q w s :
  w_controls w !! k = Some s →
  (∀ s', s' = set_token y s → s_claim_token s = x → Q (true, x) (put_slot k s' w)) →
  (s_claim_token s ≠ x → Q (false, s_claim_token s) w) →
  wp (cas_token k x y) Q w.
Proof.
  intros Hs H1 H2. destruct (Z.eqb_spec (s_claim_token s) x) as [He|Hn].
  - eapply wp_act; [|by apply H1]. rewrite Hs. simpl. by rewrite (proj2 (Z.eqb_eq _ _)).
  - eapply wp_act; [|by apply H2]. rewrite Hs. simpl. by rewrite (proj2 (Z.eqb_neq _ _)).
Qed.

Lemma wp_header_read {A} h (f : zipc_pool_header_t → A) Q w x :
  w_headers w !! h = Some x → Q (f x) w → wp (header_read h f) Q w.
Proof. intros Hs HQ. eapply wp_act; [by rewrite Hs|done]. Qed.
Lemma wp_header_write h f Q w x :
  w_headers w !! h = Some x → Q tt (put_header h (f x) w) → wp (header_write h f) Q w.
Proof. intros Hs HQ. eapply wp_act; [by rewrite Hs|done]. Qed.

Lemma wp_component_read {A} k (f : zipc_component_status_t → A) Q w x :
  w_components w !! k = Some x → Q (f x) w → wp (component_read k f) Q w.
Proof. intros Hs HQ. eapply wp_act; [by rewrite Hs|done]. Qed.
Lemma wp_component_write k f Q w x :
  w_components w !! k = Some x → Q tt (put_component k (f x) w) →
  wp (component_write k f) Q w.
Proof. intros Hs HQ. eapply wp_act; [by rewrite Hs|done]. Qed.
Lemma wp_cas_lifecycle k x y Q w c :
  w_components w !! k = Some c →
  (c_lifecycle c = x → Q (true, x) (put_component k (set_lifecycle y c) w)) →
  (c_lifecycle c ≠ x → Q (false, c_lifecycle c) w) →
  wp (cas_lifecycle k x y) Q w.
Proof.
  intros Hs H1 H2. destruct (Z.eqb_spec (c_lifecycle c) x) as [He|Hn].
  - eapply wp_act; [|by apply H1]. rewrite Hs. simpl. by rewrite (proj2 (Z.eqb_eq _ _)).
  - eapply wp_act; [|by apply H2]. rewrite Hs. simpl. by rewrite (proj2 (Z.eqb_neq _ _)).
Qed.

Lemma wp_generator_read {A} c (f : zipc_buffer_id_generator_t → A) Q w x :
  w_generators w !! c = Some x → Q (f x) w → wp (generator_read c f) Q w.
Proof. intros Hs HQ. eapply wp_act; [by rewrite Hs|done]. Qed.
Lemma wp_generator_write c f Q w x :
  w_generators w !! c = Some x → Q tt (put_generator c (f x) w) →
  wp (generator_write c f) Q w.
Proof. intros Hs HQ. eapply wp_act; [by rewrite Hs|done]. Qed.

Lemma wp_buffer_read a Q w x :
  w_buffers w !! a = Some x → Q x w → wp (buffer_read a) Q w.
Proof. intros Hs HQ. eapply wp_act; [by rewrite Hs|done]. Qed.
Lemma wp_buffer_write a y Q w :
  is_Some (w_buffers w !! a) → Q tt (put_buffer a y w) → wp (buffer_write a y) Q w.
Proof. intros [x Hs] HQ. eapply wp_act; [by rewrite Hs|done]. Qed.

Lemma wp_env_get {A} (f : E → A) Q w : Q (f (w_env w)) w → wp (env_get f) Q w.
Proof. intros HQ. by eapply wp_act. Qed.
Lemma wp_env_call {A} (f : E → A * E) Q w :
  Q (f (w_env w)).1 (put_env (f (w_env w)).2 w) → wp (env_call f) Q w.
Proof. intros HQ. eapply wp_act; [|done]. simpl. by destruct (f (w_env w)). Qed.
(** The same with the platform state named. *)
Lemma wp_env_get_at {A} (f : E → A) Q w e : w_env w = e → Q (f e) w → wp (env_get f) Q w.
Proof. intros <-. apply wp_env_get. Qed.
Lemma wp_env_call_at {A} (f : E → A * E) Q w e :
  w_env w = e → Q (f e).1 (put_env (f e).2 w) → wp (env_call f) Q w.
Proof. intros <-. apply wp_env_call. Qed.
Lemma wp_trace_hook_set Q w : Q (w_trace_hook w) w → wp trace_hook_set Q w.
Proof. intros HQ. by eapply wp_act. Qed.
Lemma wp_trace_hook_call r Q w : Q tt (put_trace r w) → wp (trace_hook_call r) Q w.
Proof. intros HQ. by eapply wp_act. Qed.

Lemma wp_returned {A} (a : A) Q w : Q a w → wp (returned (Some a)) Q w.
Proof. done. Qed.

End rules.
