(* ===== verification/Identity.v ===== *)
(** * Buffer identifiers (src/core/zipc.c, [generate_buffer_id])

    One generator per component: a session word with a rotation flag, a
    sequence counter and the number of issuers in flight.  An identifier is
    [{component, session, sequence}]; sequence [UINT32_MAX] is never issued
    but makes the caller rotate to a fresh random session. *)
From S2P Require Import Prelude Types Packing Prog Store.

Section identity.
Context {E : Type} `{Platform E}.

Definition set_session_state (x : Z) (g : zipc_buffer_id_generator_t) :=
  {| g with g_session_state := x |}.
Definition set_sequence (x : Z) (g : zipc_buffer_id_generator_t) :=
  {| g with g_sequence := x |}.
Definition set_active (x : Z) (g : zipc_buffer_id_generator_t) :=
  {| g with g_active := x |}.

(** The second component is [*session_out], written only on success. *)
Definition random_session (old_session : Z) : prog (world E) (zipc_status_t * Z) :=
  r ← for_range 16 0 (λ _,
    '(status, session) ← env_call zipc_platform_random;
    if negb (status_is status ZIPC_OK)
    then mret (Some (ZIPC_ERR_ENTROPY_UNAVAILABLE, 0))
    else
      let session := Z.land session ZIPC_SESSION_MASK in
      if negb (session =? 0) && negb (session =? old_session)
      then mret (Some (ZIPC_OK, session))
      else mret None);
  mret (default (ZIPC_ERR_ENTROPY_UNAVAILABLE, 0) r).

(** [while (active != 0) {}] *)
Definition wait_drained (fuel : nat) (component : Z) : prog (world E) () :=
  r ← loop fuel (active ← generator_read component g_active;
                 mret (if active =? 0 then Some () else None));
  returned r.

(** [atomic_fetch_sub(&generator->active, 1)] *)
Definition leave_issuers (component : Z) : prog (world E) () :=
  generator_write component (λ g, set_active (u32 (g_active g - 1)) g).

(** The rotation shared by the first use and by exhaustion: wait for the
    issuers to leave, draw a session, publish it with sequence 0; without
    entropy the word [restore] is put back. *)
Definition rotate_session (fuel : nat) (component old_session restore : Z)
    : prog (world E) (option zipc_status_t) :=
  wait_drained fuel component;;
  '(status, session) ← random_session old_session;
  if negb (status_is status ZIPC_OK) then
    generator_write component (set_session_state restore);;
    mret (Some status)
  else
    generator_write component (set_sequence 0);;
    generator_write component (set_session_state session);;
    mret None.

(** One turn of the [for (;;)] of [generate_buffer_id]: [None] is [continue]. *)
Definition generate_turn (fuel : nat) (component : Z)
    (id_out : Z → prog (world E) ()) : prog (world E) (option zipc_status_t) :=
  state ← generator_read component g_session_state;
  if negb (Z.land state ZIPC_SESSION_ROTATING =? 0) then mret None
  else
  let session := Z.land state ZIPC_SESSION_MASK in
  if session =? 0 then
    claimed ← cas_generator_weak component g_session_state set_session_state
                state ZIPC_SESSION_ROTATING;
    if negb claimed then mret None
    else rotate_session fuel component 0 0
  else
  active ← generator_read component g_active;
  if active =? UINT32_MAX then mret None
  else
  joined ← cas_generator_weak component g_active set_active active (u32 (active + 1));
  if negb joined then mret None
  else
  current ← generator_read component g_session_state;
  if negb (current =? state) then leave_issuers component;; mret None
  else
  sequence ← generator_read component g_sequence;
  if sequence =? UINT32_MAX then
    leave_issuers component;;
    claimed ← cas_generator_weak component g_session_state set_session_state
                state (Z.lor state ZIPC_SESSION_ROTATING);
    if negb claimed then mret None
    else rotate_session fuel component session state
  else
  let next := u32 (sequence + 1) in
  reserved ← cas_generator_weak component g_sequence set_sequence sequence next;
  if negb reserved then leave_issuers component;; mret None
  else
  id_out (zipc_buffer_id_make component session sequence);;
  leave_issuers component;;
  mret (Some ZIPC_OK).

(** [id_out == NULL] is [None]; otherwise [id_out] is the write of [*id_out]. *)
Definition generate_buffer_id (fuel : nat) (component : Z)
    (id_out : option (Z → prog (world E) ())) : prog (world E) zipc_status_t :=
  match id_out with
  | None => mret ZIPC_ERR_INVALID_ARGUMENT
  | Some id_out =>
      if negb (zipc_component_id_valid component) then mret ZIPC_ERR_INVALID_ARGUMENT
      else r ← loop fuel (generate_turn fuel component id_out); returned r
  end.

End identity.

(** ** Rules *)
Section rules.
Context {E : Type} `{Platform E}.
Implicit Type w : world E.

(** [e'] is [e] after some requests for entropy. *)
Definition random_only : E → E → Prop := rtc (λ e e', e' = (zipc_platform_random e).2).

Lemma wp_cas_generator_weak c get set x y Q w g :
  w_generators w !! c = Some g →
  (head (w_spurious w) = Some true → Q false (put_spurious (tail (w_spurious w)) w)) →
  (get g = x →
     Q true (put_generator c (set y g) (put_spurious (tail (w_spurious w)) w))) →
  (get g ≠ x → Q false (put_spurious (tail (w_spurious w)) w)) →
  wp (cas_generator_weak c get set x y) Q w.
Proof.
  intros Hg Hfail Hyes Hno. destruct w as [hs cs xs rs bs gs hk lg pl sp e].
  unfold cas_generator_weak, spurious. apply wp_bind.
  assert (Hdo : ∀ sp', sp' = tail sp →
    wp (act (λ w, x0 ← w_generators w !! c;
         if get x0 =? x
         then Some (true, put_generator c (set y x0) w)
         else Some (false, w))) Q (World hs cs xs rs bs gs hk lg pl sp' e)).
  { intros sp' ->. cbn in Hg. unfold wp, act. cbn [run w_generators]. rewrite Hg. simpl.
    destruct (Z.eqb_spec (get g) x); [by apply Hyes|by apply Hno]. }
  destruct sp as [|[|] sp]; (eapply wp_act; [reflexivity|]).
  - by apply Hdo.
  - apply wp_ret. by apply Hfail.
  - by apply Hdo.
Qed.

(** A session the generator can issue from. *)
Definition session_ok (session : Z) : Prop := 1 <= session <= ZIPC_SESSION_MASK.

Lemma wp_random_session old Q w :
  (∀ session e', session_ok session → session ≠ old → random_only (w_env w) e' →
     Q (ZIPC_OK, session) (put_env e' w)) →
  (∀ e', random_only (w_env w) e' → Q (ZIPC_ERR_ENTROPY_UNAVAILABLE, 0) (put_env e' w)) →
  wp (random_session old) Q w.
Proof.
  intros Hok Hfail. unfold random_session. apply wp_bind.
  apply (wp_for_range (λ _ w', ∃ e', w' = put_env e' w ∧ random_only (w_env w) e')).
  - exists (w_env w). split; [by destruct w|reflexivity].
  - intros i w1 _ (e1&->&Hr). apply wp_bind, wp_env_call.
    cbn [w_env put_env]. destruct (zipc_platform_random e1) as [[st se] e2] eqn:Hcall.
    assert (Hr2 : random_only (w_env w) e2).
    { eapply rtc_r; [exact Hr|]. simpl. by rewrite Hcall. }
    cbn [fst snd]. psimpl.
    destruct (status_is st ZIPC_OK); psimpl; [|by apply wp_ret, Hfail].
    destruct (negb _ && negb _) eqn:Hgood; apply wp_ret; [|by exists e2].
    bool_to_prop. apply Hok; [|done|done].
    unfold session_ok. rewrite (land_mask _ 24) in * by done. zlia.
  - intros w1 (e1&->&Hr). by apply wp_ret, Hfail.
Qed.

Lemma wp_wait_drained fuel c Q w g :
  (0 < fuel)%nat → w_generators w !! c = Some g → g_active g = 0 → Q tt w →
  wp (wait_drained fuel c) Q w.
Proof.
  intros Hf Hg Ha HQ. destruct fuel as [|fuel]; [lia|]. unfold wait_drained.
  apply wp_bind. cbn [loop]. apply wp_bind, wp_bind. eapply wp_generator_read; [exact Hg|].
  rewrite Ha. by apply wp_ret, wp_ret, wp_ret.
Qed.

(** A generator at rest: no rotation and no issuer in flight. *)
Record generator_ok (g : zipc_buffer_id_generator_t) : Prop := {
  go_session : 0 <= g_session_state g <= ZIPC_SESSION_MASK;
  go_sequence : in_u32 (g_sequence g);
  go_active : g_active g = 0 }.

(** The next identifier needs a new session. *)
Definition exhausted (g : zipc_buffer_id_generator_t) : Prop :=
  g_session_state g = 0 ∨ g_sequence g = UINT32_MAX.

Lemma session_flag_clear x :
  0 <= x <= ZIPC_SESSION_MASK →
  Z.land x ZIPC_SESSION_ROTATING = 0 ∧ Z.land x ZIPC_SESSION_MASK = x.
Proof.
  intros Hx. split.
  - change ZIPC_SESSION_ROTATING with (Z.shiftl 1 31). apply Z.eqb_eq.
    rewrite land_pow2_testbit, negb_true_iff, <- (Z.mod_small x (2 ^ 24)) by lia.
    by rewrite Z.mod_pow2_bits_high by lia.
  - rewrite (land_mask x 24) by done. apply Z.mod_small. lia.
Qed.

Lemma wp_rotate_session fuel c old restore Q w g :
  (0 < fuel)%nat → w_generators w !! c = Some g → g_active g = 0 →
  (∀ e', random_only (w_env w) e' →
     Q (Some ZIPC_ERR_ENTROPY_UNAVAILABLE)
       (put_generator c (set_session_state restore g) (put_env e' w))) →
  (∀ session e', session_ok session → session ≠ old → random_only (w_env w) e' →
     Q None (put_generator c (ZipcGenerator session 0 0) (put_env e' w))) →
  wp (rotate_session fuel c old restore) Q w.
Proof.
  intros Hf Hg Ha Hno Hyes. destruct g as [se sq ac]. cbn in Ha. subst ac.
  unfold rotate_session. apply wp_bind. eapply wp_wait_drained; [done..|].
  apply wp_bind. apply wp_random_session.
  - intros session e' Hs Hn Hr. cbn [status_is]. psimpl.
    change (status_is ZIPC_OK ZIPC_OK) with true. psimpl.
    apply wp_bind. eapply wp_generator_write; [exact Hg|].
    apply wp_bind. eapply wp_generator_write; [apply lookup_insert_eq|]. apply wp_ret.
    specialize (Hyes session e' Hs Hn Hr). unfold put_generator in *. simpl in *.
    by rewrite insert_insert_eq.
  - intros e' Hr. psimpl.
    change (status_is ZIPC_ERR_ENTROPY_UNAVAILABLE ZIPC_OK) with false. psimpl.
    apply wp_bind. eapply wp_generator_write; [exact Hg|]. by apply wp_ret, Hno.
Qed.

End rules.
