(* ===== verification/Slot.v ===== *)
(** * The slot protocol (src/core/zipc.c)

    Allocation, transfer, claim and release of slots, with the tracing,
    protection and view helpers they call.  Every shared access is one atomic
    action; consecutive plain assignments to one slot that the caller holds
    exclusively are one action. *)
From S2P Require Import Prelude Types Packing Visited Prog Store Identity.

Section slot.
Context {E : Type} `{Platform E}.

(** [&pool->controls[slot_id]] *)
Definition slot_key (pool : zipc_pool_t) (slot_id : Z) : Z * Z :=
  (p_header pool, slot_id).

Definition zipc_now_ns : prog (world E) Z := env_call zipc_platform_time_ns.

(** ** Pool counters ([atomic_fetch_add]) *)
Definition count_protocol_error (h : zipc_pool_header_t) :=
  {| h with h_protocol_error_count := u64 (h_protocol_error_count h + 1) |}.
Definition bump_allocation_failure (h : zipc_pool_header_t) :=
  {| h with h_allocation_failure_count := u64 (h_allocation_failure_count h + 1) |}.
Definition bump_allocation (h : zipc_pool_header_t) :=
  {| h with h_allocation_count := u64 (h_allocation_count h + 1) |}.
Definition bump_release (h : zipc_pool_header_t) :=
  {| h with h_release_count := u64 (h_release_count h + 1) |}.
Definition bump_recovery (h : zipc_pool_header_t) :=
  {| h with h_recovery_count := u64 (h_recovery_count h + 1) |}.
Definition set_cursor (x : Z) (h : zipc_pool_header_t) :=
  {| h with h_allocation_cursor := x |}.

(** ** Component epochs *)
Definition registered_epoch (pool : zipc_pool_t) (component : Z) : prog (world E) Z :=
  if negb (zipc_component_id_valid component) then mret 0
  else
    lifecycle ← component_read (p_header pool, component) c_lifecycle;
    mret (if component_lifecycle_state lifecycle =? ZIPC_COMPONENT_INACTIVE
          then 0 else component_lifecycle_epoch lifecycle).

Definition component_epoch_current (pool : zipc_pool_t) (component epoch : Z)
    : prog (world E) bool :=
  if negb (zipc_component_id_valid component) || (epoch =? 0) then mret false
  else
    lifecycle ← component_read (p_header pool, component) c_lifecycle;
    mret ((component_lifecycle_epoch lifecycle =? epoch) &&
          negb (component_lifecycle_state lifecycle =? ZIPC_COMPONENT_INACTIVE)).

Definition component_epoch_recovering (pool : zipc_pool_t) (component epoch : Z)
    : prog (world E) bool :=
  if negb (zipc_component_id_valid component) || (epoch =? 0) then mret false
  else
    lifecycle ← component_read (p_header pool, component) c_lifecycle;
    mret (lifecycle =? component_lifecycle_make epoch ZIPC_COMPONENT_RECOVERING).

(** ** Tracing *)
Definition push_trace (timestamp component event : Z) (s : zipc_slot_control_t)
    : zipc_slot_control_t :=
  let index := s_trace_count s `mod` ZIPC_TRACE_DEPTH in
  {| s with
     s_trace := <[Z.to_nat index :=
       ZipcTraceEntry timestamp (s_transfer_sequence s) component event]> (s_trace s);
     s_trace_count := u32 (s_trace_count s + 1) |}.

Definition trace_slot (pool : zipc_pool_t) (slot_id component event : Z)
    : prog (world E) () :=
  timestamp ← zipc_now_ns;
  slot_write (slot_key pool slot_id) (push_trace timestamp component event);;
  hook ← trace_hook_set;
  if negb hook then mret ()
  else
    s ← slot_read (slot_key pool slot_id) (λ s, s);
    trace_hook_call
      {| tr_timestamp_ns := timestamp;
         tr_buffer_id := id_id (s_identity s);
         tr_parent_id := id_parent_id (s_identity s);
         tr_handle := zipc_handle_make slot_id (s_generation s);
         tr_pool_id := p_pool_id pool;
         tr_transfer_sequence := s_transfer_sequence s;
         tr_component_id := component;
         tr_event := event |}.

(** [owned_slot == NULL] is [None]. *)
Definition record_protocol_error (pool : zipc_pool_t) (owned_slot : option Z)
    (component : Z) : prog (world E) () :=
  header_write (p_header pool) count_protocol_error;;
  match owned_slot with
  | Some slot_id => trace_slot pool slot_id component ZIPC_TRACE_ERROR
  | None =>
      hook ← trace_hook_set;
      if negb hook then mret ()
      else
        timestamp ← zipc_now_ns;
        trace_hook_call
          {| tr_timestamp_ns := timestamp; tr_buffer_id := 0; tr_parent_id := 0;
             tr_handle := ZIPC_INVALID_HANDLE; tr_pool_id := p_pool_id pool;
             tr_transfer_sequence := 0; tr_component_id := component;
             tr_event := ZIPC_TRACE_ERROR |}
  end.

Definition trace_external_event (pool : zipc_pool_t)
    (handle transfer_sequence component event : Z) : prog (world E) () :=
  hook ← trace_hook_set;
  if negb hook then mret ()
  else
    timestamp ← zipc_now_ns;
    trace_hook_call
      {| tr_timestamp_ns := timestamp; tr_buffer_id := 0; tr_parent_id := 0;
         tr_handle := handle; tr_pool_id := p_pool_id pool;
         tr_transfer_sequence := transfer_sequence; tr_component_id := component;
         tr_event := event |}.

(** ** Claim tokens *)
Definition clear_claim_token (k : Z * Z) (token : Z) : prog (world E) () :=
  cas_token k token 0;; mret ().

(** The pair that ends every claim: publish the state, drop the token. *)
Definition publish_state (k : Z * Z) (x : zipc_slot_state_t) (token : Z)
    : prog (world E) () :=
  store_state k x;; clear_claim_token k token.

(** ** Payload protection *)
Definition protect_slot (pool : zipc_pool_t) (slot_id : Z) (read_write : bool)
    : prog (world E) zipc_status_t :=
  if Z.land (p_flags pool) ZIPC_POOL_F_STRICT_OWNERSHIP =? 0 then mret ZIPC_OK
  else
    count ← header_read (p_header pool) h_slot_count;
    if count <=? slot_id then mret ZIPC_ERR_INVALID_HANDLE
    else
      '(stride, capacity) ← header_read (p_header pool)
                              (λ h, (h_slot_stride h, h_slot_capacity h));
      let offset := u64 (p_payload_offset pool + u64 (slot_id * stride)) in
      if read_write
      then env_call (zipc_platform_memory_protect_rw (p_payload_memory pool) offset capacity)
      else env_call (zipc_platform_memory_protect_none (p_payload_memory pool) offset capacity).

(** ** Local views *)
Definition buffer_invalidate (buffer : Z) : prog (world E) () :=
  if buffer =? 0 then mret () else buffer_write buffer zero_buffer.

Definition make_view (pool : zipc_pool_t) (slot_id handle buffer : Z)
    : prog (world E) zipc_status_t :=
  region ← slot_read (slot_key pool slot_id) s_region;
  '(capacity, stride) ← header_read (p_header pool)
                          (λ h, (h_slot_capacity h, h_slot_stride h));
  if (capacity <? r_offset region) || (capacity - r_offset region <? r_length region)
  then mret ZIPC_ERR_REGION_OVERFLOW
  else
    '(owner, epoch) ← slot_read (slot_key pool slot_id)
                        (λ s, (s_owner_id s, s_owner_epoch s));
    let slot_base := p_payload_base pool + slot_id * stride in
    buffer_write buffer
      {| b_handle := handle;
         b_slot_id := slot_id;
         b_control := Some (slot_key pool slot_id);
         b_slot_base := slot_base;
         b_data := slot_base + r_offset region;
         b_length := r_length region;
         b_capacity := capacity;
         b_pool := Some pool;
         b_owner := owner;
         b_local_state := ZIPC_BUFFER_LOCAL_OWNED;
         b_owner_epoch := epoch;
         b_pool_id := p_pool_id pool |};;
    mret ZIPC_OK.

(** The assignments that leave a slot without an owner. *)
Definition clear_owner (s : zipc_slot_control_t) : zipc_slot_control_t :=
  {| s with s_owner_id := ZIPC_INVALID_COMPONENT_ID;
            s_next_owner_id := ZIPC_INVALID_COMPONENT_ID;
            s_region := zero_region |}.

Definition free_claiming_slot (pool : zipc_pool_t) (slot_id : Z) : prog (world E) () :=
  let k := slot_key pool slot_id in
  token ← slot_read k s_claim_token;
  slot_write k clear_owner;;
  publish_state k ZIPC_SLOT_FREE token.

(** ** Allocation *)

(** [generation + 1], skipping 0. *)
Definition next_generation (g : Z) : Z :=
  let g' := u32 (g + 1) in if g' =? 0 then 1 else g'.

(** The metadata written while the fresh claim is held. *)
Definition init_slot (allocator parent_id offset length epoch hop_limit generation : Z)
    (s : zipc_slot_control_t) : zipc_slot_control_t :=
  {| s with
     s_generation := generation;
     s_owner_id := allocator;
     s_next_owner_id := ZIPC_INVALID_COMPONENT_ID;
     s_owner_epoch := epoch;
     s_hop_count := 1;
     s_hop_limit := (if negb (hop_limit =? 0) then hop_limit
                     else ZIPC_HOP_LIMIT_UNLIMITED);
     s_visited := visited_set_add zero_visited allocator;
     s_identity := ZipcIdentity 0 parent_id;
     s_region := ZipcRegion offset length;
     s_transfer_sequence := 0;
     s_payload_type := 0;
     s_flags := 0;
     s_error_flags := 0 |}.

Definition init_slot_times (acquired deadline_duration : Z)
    (s : zipc_slot_control_t) : zipc_slot_control_t :=
  {| s with
     s_acquired_ns := acquired;
     s_deadline_ns := (if (deadline_duration =? 0) ||
                          (ZIPC_DEADLINE_NONE - acquired <=? deadline_duration)
                       then ZIPC_DEADLINE_NONE else acquired + deadline_duration);
     s_trace_count := 0;
     s_recovery_count := 0;
     s_claim_previous_sequence := 0;
     s_claim_previous_region := zero_region;
     s_claim_previous_owner := ZIPC_INVALID_COMPONENT_ID;
     s_claim_previous_owner_epoch := 0;
     s_transfer_link_id := 0;
     s_transfer_source_id := ZIPC_INVALID_COMPONENT_ID;
     s_transfer_source_epoch := 0;
     s_transfer_hop_count := 0;
     s_transfer_acquired_ns := 0;
     s_transfer_visited := zero_visited;
     s_trace := zero_trace |}.

Definition set_identity_id (id : Z) (s : zipc_slot_control_t) : zipc_slot_control_t :=
  {| s with s_identity := ZipcIdentity id (id_parent_id (s_identity s)) |}.

Definition count_allocation_failure (pool : zipc_pool_t) : prog (world E) () :=
  header_write (p_header pool) bump_allocation_failure.

(** The failure tail of an allocation that holds its slot; [revoke] when the
    payload was (to be) enabled. *)
Definition abandon_allocation (pool : zipc_pool_t) (slot_id allocator : Z)
    (revoke : bool) (buffer : Z) (status : zipc_status_t) : prog (world E) zipc_status_t :=
  trace_slot pool slot_id allocator ZIPC_TRACE_ERROR;;
  (if revoke then protect_slot pool slot_id false;; mret () else mret ());;
  free_claiming_slot pool slot_id;;
  count_allocation_failure pool;;
  buffer_invalidate buffer;;
  mret status.

(** The loop body from the successful claim of [slot_id] on. *)
Definition allocate_claimed (fuel : nat) (pool : zipc_pool_t) (slot_id count allocator
    parent_id offset length epoch hop_limit deadline_duration_ns claim_token : Z)
    (enable_payload : bool) (buffer : Z) : prog (world E) zipc_status_t :=
  let k := slot_key pool slot_id in
  old_generation ← slot_read k s_generation;
  let generation := next_generation old_generation in
  slot_write k (init_slot allocator parent_id offset length epoch hop_limit generation);;
  acquired ← zipc_now_ns;
  slot_write k (init_slot_times acquired deadline_duration_ns);;
  status ← generate_buffer_id fuel allocator
             (Some (λ id, slot_write k (set_identity_id id)));
  if negb (status_is status ZIPC_OK)
  then abandon_allocation pool slot_id allocator false buffer status
  else
  let handle := zipc_handle_make slot_id generation in
  status ← (if enable_payload then protect_slot pool slot_id true else mret ZIPC_OK);
  if negb (status_is status ZIPC_OK)
  then abandon_allocation pool slot_id allocator true buffer status
  else
  status ← make_view pool slot_id handle buffer;
  if negb (status_is status ZIPC_OK)
  then abandon_allocation pool slot_id allocator enable_payload buffer status
  else
  trace_slot pool slot_id allocator ZIPC_TRACE_ALLOCATE;;
  publish_state k ZIPC_SLOT_OWNED claim_token;;
  header_write (p_header pool) (set_cursor (u32 (slot_id + 1) `mod` count));;
  header_write (p_header pool) bump_allocation;;
  mret ZIPC_OK.

Definition buffer_allocate_internal (fuel : nat) (pool : option zipc_pool_t)
    (allocator parent_id offset length owner_epoch hop_limit deadline_duration_ns : Z)
    (enable_payload : bool) (buffer : Z) : prog (world E) zipc_status_t :=
  match pool with
  | None => mret ZIPC_ERR_INVALID_ARGUMENT
  | Some pool =>
  if (buffer =? 0) || negb (zipc_component_id_valid allocator) ||
     (negb (parent_id =? 0) && negb (zipc_buffer_id_valid parent_id))
  then mret ZIPC_ERR_INVALID_ARGUMENT
  else
  '(capacity, count) ← header_read (p_header pool)
                         (λ h, (h_slot_capacity h, h_slot_count h));
  if (capacity <? offset) || (capacity - offset <? length)
  then mret ZIPC_ERR_INVALID_ARGUMENT
  else
  registered ← (if negb (owner_epoch =? 0) then mret 0
                else registered_epoch pool allocator);
  let allocation_epoch := if negb (owner_epoch =? 0) then owner_epoch else registered in
  let claim_token := claim_token_make ZIPC_CLAIM_ALLOCATE allocator allocation_epoch in
  cursor ← header_read (p_header pool) h_allocation_cursor;
  if count =? 0 then fault (* cursor % 0 *)
  else
  let start := cursor `mod` count in
  r ← for_range (Z.to_nat count) 0 (λ n,
    let slot_id := u32 (start + n) `mod` count in
    let k := slot_key pool slot_id in
    state ← slot_read k s_state;
    if negb (state_is state ZIPC_SLOT_FREE) then mret None
    else
    '(token_ok, _) ← cas_token k 0 claim_token;
    if negb token_ok then mret None
    else
    state_ok ← cas_state k ZIPC_SLOT_FREE ZIPC_SLOT_CLAIMING;
    if negb state_ok then clear_claim_token k claim_token;; mret None
    else
    status ← allocate_claimed fuel pool slot_id count allocator parent_id offset length
               allocation_epoch hop_limit deadline_duration_ns claim_token
               enable_payload buffer;
    mret (Some status));
  match r with
  | Some status => mret status
  | None => count_allocation_failure pool;; mret ZIPC_ERR_NO_BUFFER
  end
  end.

Definition zipc_buffer_allocate (fuel : nat) (pool : option zipc_pool_t)
    (allocator parent_id buffer : Z) : prog (world E) zipc_status_t :=
  buffer_allocate_internal fuel pool allocator parent_id 0 0 0
    ZIPC_HOP_LIMIT_UNLIMITED 0 true buffer.

(** ** Views from handles *)
Definition zipc_buffer_from_handle (pool : option zipc_pool_t) (handle expected_owner
    buffer : Z) : prog (world E) zipc_status_t :=
  match pool with
  | None => mret ZIPC_ERR_INVALID_ARGUMENT
  | Some pool =>
  if (buffer =? 0) || negb (zipc_component_id_valid expected_owner)
  then mret ZIPC_ERR_INVALID_ARGUMENT
  else
  buffer_invalidate buffer;;
  let slot_id := zipc_handle_slot_id handle in
  count ← header_read (p_header pool) h_slot_count;
  if count <=? slot_id then mret ZIPC_ERR_INVALID_HANDLE
  else
  let k := slot_key pool slot_id in
  generation ← slot_read k s_generation;
  if negb (generation =? zipc_handle_generation handle) then mret ZIPC_ERR_STALE_HANDLE
  else
  state ← slot_read k s_state;
  if negb (state_is state ZIPC_SLOT_OWNED) then mret ZIPC_ERR_INVALID_STATE
  else
  owner ← slot_read k s_owner_id;
  if negb (owner =? expected_owner) then mret ZIPC_ERR_NOT_OWNER
  else
  epoch ← slot_read k s_owner_epoch;
  current ← registered_epoch pool expected_owner;
  if negb (epoch =? current) then mret ZIPC_ERR_COMPONENT_STALE
  else make_view pool slot_id handle buffer
  end.

(** ** Transfer *)

(** [slot->claim_previous_sequence = slot->transfer_sequence] *)
Definition remember_sequence (s : zipc_slot_control_t) : zipc_slot_control_t :=
  {| s with s_claim_previous_sequence := s_transfer_sequence s |}.

(** The metadata of a transfer, written while the sender holds the claim. *)
Definition mark_transfer (next_owner link_id current_owner : Z)
    (s : zipc_slot_control_t) : zipc_slot_control_t :=
  {| s with
     s_next_owner_id := next_owner;
     s_transfer_link_id := link_id;
     s_transfer_source_id := current_owner;
     s_transfer_source_epoch := s_owner_epoch s;
     s_transfer_hop_count := s_hop_count s;
     s_transfer_acquired_ns := s_acquired_ns s;
     s_transfer_visited := s_visited s;
     s_transfer_sequence := u32 (s_transfer_sequence s + 1) |}.

(** [slot->deadline_ns != NONE && now_ns > slot->deadline_ns] *)
Definition deadline_passed (now : Z) (s : zipc_slot_control_t) : bool :=
  negb (s_deadline_ns s =? ZIPC_DEADLINE_NONE) && (s_deadline_ns s <? now).
(** [slot->hop_limit != UNLIMITED && slot->hop_count >= slot->hop_limit] *)
Definition hops_exhausted (s : zipc_slot_control_t) : bool :=
  negb (s_hop_limit s =? ZIPC_HOP_LIMIT_UNLIMITED) && (s_hop_limit s <=? s_hop_count s).
(** [slot->owner_id == c && slot->owner_epoch == epoch] *)
Definition owned_by (c epoch : Z) (s : zipc_slot_control_t) : bool :=
  (s_owner_id s =? c) && (s_owner_epoch s =? epoch).

(** From the successful [OWNED -> CLAIMING] on. *)
Definition transfer_claimed (pool : zipc_pool_t) (handle current_owner next_owner link_id
    owner_epoch claim : Z) (message : zipc_message_t)
    : prog (world E) (zipc_status_t * zipc_message_t) :=
  let slot_id := zipc_handle_slot_id handle in
  let k := slot_key pool slot_id in
  let refuse status :=
    publish_state k ZIPC_SLOT_OWNED claim;;
    record_protocol_error pool None current_owner;;
    mret (status, message) in
  let refuse_traced status :=
    record_protocol_error pool (Some slot_id) current_owner;;
    publish_state k ZIPC_SLOT_OWNED claim;;
    mret (status, message) in
  generation ← slot_read k s_generation;
  if negb (generation =? zipc_handle_generation handle)
  then refuse ZIPC_ERR_STALE_HANDLE
  else
  owned ← slot_read k (owned_by current_owner owner_epoch);
  if negb owned then refuse ZIPC_ERR_NOT_OWNER
  else
  now_ns ← zipc_now_ns;
  late ← slot_read k (deadline_passed now_ns);
  if late : bool then refuse_traced ZIPC_ERR_DEADLINE
  else
  exhausted ← slot_read k hops_exhausted;
  if exhausted : bool then refuse_traced ZIPC_ERR_HOP_LIMIT
  else
  protect_status ← protect_slot pool slot_id false;
  if negb (status_is protect_status ZIPC_OK) then refuse_traced protect_status
  else
  slot_write k (mark_transfer next_owner link_id current_owner);;
  sequence ← slot_read k s_transfer_sequence;
  trace_slot pool slot_id current_owner ZIPC_TRACE_SEND;;
  publish_state k ZIPC_SLOT_TRANSFER claim;;
  mret (ZIPC_OK,
        {| m_handle := handle;
           m_pool_id := p_pool_id pool;
           m_source_component := current_owner;
           m_destination_component := next_owner;
           m_transfer_sequence := sequence;
           m_flags := 0 |}).

(** [message] is the caller's [*message] ([None] for NULL); the result holds
    what is left in it, unchanged on failure. *)
Definition buffer_prepare_transfer_internal (pool : option zipc_pool_t)
    (handle current_owner next_owner link_id : Z) (message : option zipc_message_t)
    : prog (world E) (zipc_status_t * zipc_message_t) :=
  match pool, message with
  | Some pool, Some message =>
  if negb (zipc_component_id_valid current_owner) ||
     negb (zipc_component_id_valid next_owner)
  then mret (ZIPC_ERR_INVALID_ARGUMENT, message)
  else
  let refuse status :=
    record_protocol_error pool None current_owner;; mret (status, message) in
  let slot_id := zipc_handle_slot_id handle in
  count ← header_read (p_header pool) h_slot_count;
  if count <=? slot_id then refuse ZIPC_ERR_INVALID_HANDLE
  else
  let k := slot_key pool slot_id in
  owner_epoch ← registered_epoch pool current_owner;
  state ← slot_read k s_state;
  if negb (state_is state ZIPC_SLOT_OWNED) then refuse ZIPC_ERR_INVALID_STATE
  else
  generation ← slot_read k s_generation;
  if negb (generation =? zipc_handle_generation handle)
  then refuse ZIPC_ERR_STALE_HANDLE
  else
  owned ← slot_read k (owned_by current_owner owner_epoch);
  if negb owned then refuse ZIPC_ERR_NOT_OWNER
  else
  slot_write k remember_sequence;;
  let claim := claim_token_make ZIPC_CLAIM_SEND current_owner owner_epoch in
  '(token_ok, _) ← cas_token k 0 claim;
  if negb token_ok then mret (ZIPC_ERR_INVALID_STATE, message)
  else
  state_ok ← cas_state k ZIPC_SLOT_OWNED ZIPC_SLOT_CLAIMING;
  if negb state_ok then clear_claim_token k claim;; refuse ZIPC_ERR_INVALID_STATE
  else transfer_claimed pool handle current_owner next_owner link_id owner_epoch claim
         message
  | _, _ => mret (ZIPC_ERR_INVALID_ARGUMENT, default zero_message message)
  end.

Definition zipc_buffer_prepare_transfer (pool : option zipc_pool_t)
    (handle current_owner next_owner : Z) (message : option zipc_message_t)
    : prog (world E) (zipc_status_t * zipc_message_t) :=
  buffer_prepare_transfer_internal pool handle current_owner next_owner 0 message.

(** ** Claim *)

(** The receiver's metadata, written while it holds the claim. *)
Definition take_ownership (receiver epoch now_ns : Z) (s : zipc_slot_control_t)
    : zipc_slot_control_t :=
  {| s with
     s_owner_id := receiver;
     s_next_owner_id := ZIPC_INVALID_COMPONENT_ID;
     s_owner_epoch := epoch;
     s_hop_count := u32 (s_transfer_hop_count s + 1);
     s_visited := visited_set_add (s_visited s) receiver;
     s_acquired_ns := now_ns |}.

(** From the successful [TRANSFER -> CLAIMING] on. *)
Definition receive_claimed (pool : zipc_pool_t) (message : zipc_message_t)
    (receiver receiver_epoch claim buffer : Z) : prog (world E) zipc_status_t :=
  let slot_id := zipc_handle_slot_id (m_handle message) in
  let k := slot_key pool slot_id in
  let refuse status :=
    publish_state k ZIPC_SLOT_TRANSFER claim;;
    record_protocol_error pool None receiver;;
    mret status in
  generation ← slot_read k s_generation;
  if negb (generation =? zipc_handle_generation (m_handle message))
  then refuse ZIPC_ERR_STALE_HANDLE
  else
  addressed ← slot_read k (λ s, (s_owner_id s =? m_source_component message) &&
                                (s_next_owner_id s =? receiver));
  if negb addressed then refuse ZIPC_ERR_INVALID_RECEIVER
  else
  sequence ← slot_read k s_transfer_sequence;
  if negb (sequence =? m_transfer_sequence message)
  then refuse ZIPC_ERR_SEQUENCE_MISMATCH
  else
  now_ns ← zipc_now_ns;
  late ← slot_read k (deadline_passed now_ns);
  if late : bool then refuse ZIPC_ERR_DEADLINE
  else
  exhausted ← slot_read k hops_exhausted;
  if exhausted : bool then refuse ZIPC_ERR_HOP_LIMIT
  else
  slot_write k (take_ownership receiver receiver_epoch now_ns);;
  status ← protect_slot pool slot_id true;
  if negb (status_is status ZIPC_OK) then
    record_protocol_error pool (Some slot_id) receiver;;
    free_claiming_slot pool slot_id;;
    buffer_invalidate buffer;;
    mret status
  else
  status ← make_view pool slot_id (m_handle message) buffer;
  if negb (status_is status ZIPC_OK) then
    record_protocol_error pool (Some slot_id) receiver;;
    protect_slot pool slot_id false;;
    free_claiming_slot pool slot_id;;
    buffer_invalidate buffer;;
    mret status
  else
  trace_slot pool slot_id receiver ZIPC_TRACE_RECEIVE;;
  publish_state k ZIPC_SLOT_OWNED claim;;
  mret ZIPC_OK.

Definition zipc_buffer_claim (pool : option zipc_pool_t)
    (message : option zipc_message_t) (receiver buffer : Z)
    : prog (world E) zipc_status_t :=
  match pool, message with
  | Some pool, Some message =>
  if (buffer =? 0) || negb (zipc_component_id_valid receiver)
  then mret ZIPC_ERR_INVALID_ARGUMENT
  else
  let refuse status := record_protocol_error pool None receiver;; mret status in
  if negb (m_pool_id message =? p_pool_id pool) then refuse ZIPC_ERR_INVALID_HANDLE
  else
  if negb (m_destination_component message =? receiver)
  then refuse ZIPC_ERR_INVALID_RECEIVER
  else
  let slot_id := zipc_handle_slot_id (m_handle message) in
  count ← header_read (p_header pool) h_slot_count;
  if count <=? slot_id then refuse ZIPC_ERR_INVALID_HANDLE
  else
  let k := slot_key pool slot_id in
  state ← slot_read k s_state;
  if negb (state_is state ZIPC_SLOT_TRANSFER) then refuse ZIPC_ERR_INVALID_STATE
  else
  receiver_epoch ← registered_epoch pool receiver;
  let claim := claim_token_make ZIPC_CLAIM_RECEIVE receiver receiver_epoch in
  '(first_ok, observed) ← cas_token k 0 claim;
  token_ok ←
    (if first_ok : bool then mret true
     else if negb (claim_token_kind observed =? ZIPC_CLAIM_SEND) then mret false
     else
       state ← slot_read k s_state;
       if negb (state_is state ZIPC_SLOT_TRANSFER) then mret false
       else '(second_ok, _) ← cas_token k observed claim; mret second_ok);
  if negb token_ok then refuse ZIPC_ERR_INVALID_STATE
  else
  state_ok ← cas_state k ZIPC_SLOT_TRANSFER ZIPC_SLOT_CLAIMING;
  if negb state_ok then clear_claim_token k claim;; refuse ZIPC_ERR_INVALID_STATE
  else receive_claimed pool message receiver receiver_epoch claim buffer
  | _, _ => mret ZIPC_ERR_INVALID_ARGUMENT
  end.

(** ** Release *)

(** What a restart needs to undo an abandoned release. *)
Definition remember_owner (s : zipc_slot_control_t) : zipc_slot_control_t :=
  {| s with s_claim_previous_region := s_region s;
            s_claim_previous_owner := s_owner_id s;
            s_claim_previous_owner_epoch := s_owner_epoch s |}.
Definition zipc_pool_buffer_release (pool : option zipc_pool_t)
    (handle current_owner : Z) : prog (world E) zipc_status_t :=
  match pool with
  | None => mret ZIPC_ERR_INVALID_ARGUMENT
  | Some pool =>
  if negb (zipc_component_id_valid current_owner) then mret ZIPC_ERR_INVALID_ARGUMENT
  else
  let slot_id := zipc_handle_slot_id handle in
  count ← header_read (p_header pool) h_slot_count;
  if count <=? slot_id then mret ZIPC_ERR_INVALID_HANDLE
  else
  let k := slot_key pool slot_id in
  generation ← slot_read k s_generation;
  if negb (generation =? zipc_handle_generation handle) then mret ZIPC_ERR_STALE_HANDLE
  else
  owner_epoch ← registered_epoch pool current_owner;
  state ← slot_read k s_state;
  if negb (state_is state ZIPC_SLOT_OWNED) then mret ZIPC_ERR_INVALID_STATE
  else
  owned ← slot_read k (owned_by current_owner owner_epoch);
  if negb owned then mret ZIPC_ERR_NOT_OWNER
  else
  slot_write k remember_owner;;
  let claim := claim_token_make ZIPC_CLAIM_RELEASE current_owner owner_epoch in
  '(token_ok, _) ← cas_token k 0 claim;
  if negb token_ok then mret ZIPC_ERR_INVALID_STATE
  else
  state_ok ← cas_state k ZIPC_SLOT_OWNED ZIPC_SLOT_CLAIMING;
  if negb state_ok then clear_claim_token k claim;; mret ZIPC_ERR_INVALID_STATE
  else
  owned ← slot_read k (owned_by current_owner owner_epoch);
  if negb owned then publish_state k ZIPC_SLOT_OWNED claim;; mret ZIPC_ERR_NOT_OWNER
  else
  protect_status ← protect_slot pool slot_id false;
  if negb (status_is protect_status ZIPC_OK)
  then publish_state k ZIPC_SLOT_OWNED claim;; mret protect_status
  else
  trace_slot pool slot_id current_owner ZIPC_TRACE_RELEASE;;
  slot_write k clear_owner;;
  publish_state k ZIPC_SLOT_FREE claim;;
  header_write (p_header pool) bump_release;;
  mret ZIPC_OK
  end.

(** ** Physical addresses *)
Definition zipc_buffer_payload_physical_address (pool : option zipc_pool_t)
    (slot_id offset : Z) : prog (world E) Z :=
  match pool with
  | None => mret ZIPC_PHYS_ADDR_INVALID
  | Some pool =>
  '(count, capacity, stride) ← header_read (p_header pool)
      (λ h, (h_slot_count h, h_slot_capacity h, h_slot_stride h));
  if (count <=? slot_id) || (capacity <? offset) then mret ZIPC_PHYS_ADDR_INVALID
  else
  base ← env_get (λ e, zipc_platform_memory_physical_base e (p_payload_memory pool));
  if base =? ZIPC_PHYS_ADDR_INVALID then mret ZIPC_PHYS_ADDR_INVALID
  else mret (u64 (base + p_payload_offset pool + u64 (slot_id * stride) + offset))
  end.

End slot.
