(* ===== verification/SlotRun.v ===== *)
(** * Symbolic execution of the slot protocol

    The sequential effect of the helpers of Slot.v as functions on worlds, the
    rules that execute them in a [wp] goal, and the tactic [wp_run] that
    drives a whole operation. *)
From S2P Require Import Prelude Types Packing Visited Prog Store Identity Slot.

Section effects.
Context {E : Type} `{Platform E}.
Implicit Type w : world E.

(** ** Effects of the tracing helpers *)

(** A record handed to the hook, if there is one. *)
Definition logged (r : zipc_trace_record_t) w : world E :=
  {| w with w_trace_log := if w_trace_hook w then r :: w_trace_log w else w_trace_log w |}.
(** The same for the helpers that read the clock only when there is a hook. *)
Definition logged_now (r : Z → zipc_trace_record_t) w : world E :=
  {| w with
     w_trace_log := (if w_trace_hook w
                     then r (zipc_platform_time_ns (w_env w)).1 :: w_trace_log w
                     else w_trace_log w);
     w_env := (if w_trace_hook w then (zipc_platform_time_ns (w_env w)).2 else w_env w) |}.

(** [e] is the platform state before, [s] the slot with its new entry. *)
Definition traced (pool : zipc_pool_t) (i component event : Z) (e : E)
    (s : zipc_slot_control_t) w : world E :=
  let t := zipc_platform_time_ns e in
  logged {| tr_timestamp_ns := t.1;
            tr_buffer_id := id_id (s_identity s);
            tr_parent_id := id_parent_id (s_identity s);
            tr_handle := zipc_handle_make i (s_generation s);
            tr_pool_id := p_pool_id pool;
            tr_transfer_sequence := s_transfer_sequence s;
            tr_component_id := component;
            tr_event := event |}
    (put_slot (slot_key pool i) s (put_env t.2 w)).

Definition error_counted (pool : zipc_pool_t) (hd : zipc_pool_header_t) (component : Z)
    w : world E :=
  logged_now (λ t, ZipcTraceRecord t 0 0 ZIPC_INVALID_HANDLE (p_pool_id pool) 0
                     component ZIPC_TRACE_ERROR)
    (put_header (p_header pool) (count_protocol_error hd) w).

(** The status and platform state of [protect_slot]. *)
Definition protect_result (pool : zipc_pool_t) (hd : zipc_pool_header_t) (i : Z)
    (read_write : bool) (e : E) : zipc_status_t * E :=
  if Z.land (p_flags pool) ZIPC_POOL_F_STRICT_OWNERSHIP =? 0 then (ZIPC_OK, e)
  else if h_slot_count hd <=? i then (ZIPC_ERR_INVALID_HANDLE, e)
  else
    let offset := u64 (p_payload_offset pool + u64 (i * h_slot_stride hd)) in
    if read_write
    then zipc_platform_memory_protect_rw (p_payload_memory pool) offset
           (h_slot_capacity hd) e
    else zipc_platform_memory_protect_none (p_payload_memory pool) offset
           (h_slot_capacity hd) e.

(** The epoch [registered_epoch] finds in a lifecycle word. *)
Definition live_epoch (lifecycle : Z) : Z :=
  if component_lifecycle_state lifecycle =? ZIPC_COMPONENT_INACTIVE
  then 0 else component_lifecycle_epoch lifecycle.

(** [e'] is [e] after some readings of the clock. *)
Definition clock_only : E → E → Prop := rtc (λ e e', e' = (zipc_platform_time_ns e).2).

Lemma clock_only_call e : clock_only e (zipc_platform_time_ns e).2.
Proof. by apply rtc_once. Qed.
Lemma clock_only_hook (b : bool) e :
  clock_only e (if b then (zipc_platform_time_ns e).2 else e).
Proof. destruct b; [apply clock_only_call|reflexivity]. Qed.

(** ** Rules *)
Lemma wp_trace_slot pool i c ev Q w s e :
  w_controls w !! slot_key pool i = Some s → w_env w = e →
  (∀ s', s' = push_trace (zipc_platform_time_ns e).1 c ev s →
     Q tt (traced pool i c ev e s' w)) →
  wp (trace_slot pool i c ev) Q w.
Proof.
  intros Hs <- HQ. unfold trace_slot, zipc_now_ns.
  apply wp_bind, wp_env_call, wp_bind. eapply wp_slot_write; [exact Hs|].
  intros s' Hs'. specialize (HQ s' Hs').
  apply wp_bind, wp_trace_hook_set. unfold traced, logged in HQ.
  destruct w as [hs cs xs rs bs gs hook lg pl sp e].
  cbn [w_trace_hook put_slot put_env] in *. case_match; psimpl; [|by apply wp_ret].
  apply wp_bind. eapply wp_slot_read; [apply lookup_insert_eq|].
  by apply wp_trace_hook_call.
Qed.

Lemma wp_record_protocol_error pool c Q w hd :
  w_headers w !! p_header pool = Some hd → Q tt (error_counted pool hd c w) →
  wp (record_protocol_error pool None c) Q w.
Proof.
  intros Hh HQ. unfold record_protocol_error, zipc_now_ns.
  apply wp_bind. eapply wp_header_write; [exact Hh|].
  apply wp_bind, wp_trace_hook_set. unfold error_counted, logged_now in HQ.
  destruct w as [hs cs xs rs bs gs hook lg pl sp e].
  cbn [w_trace_hook put_header w_env] in *. case_match; psimpl; [|by apply wp_ret].
  apply wp_bind, wp_env_call. by apply wp_trace_hook_call.
Qed.

Lemma wp_record_protocol_error_slot pool i c Q w hd s e :
  w_headers w !! p_header pool = Some hd →
  w_controls w !! slot_key pool i = Some s → w_env w = e →
  (∀ s', s' = push_trace (zipc_platform_time_ns e).1 c ZIPC_TRACE_ERROR s →
     Q tt (traced pool i c ZIPC_TRACE_ERROR e s'
             (put_header (p_header pool) (count_protocol_error hd) w))) →
  wp (record_protocol_error pool (Some i) c) Q w.
Proof.
  intros Hh Hs He HQ. unfold record_protocol_error.
  apply wp_bind. eapply wp_header_write; [exact Hh|].
  eapply wp_trace_slot; [exact Hs|exact He|done].
Qed.

Lemma wp_trace_external_event pool h sq c ev Q w :
  Q tt (logged_now (λ t, ZipcTraceRecord t 0 0 h (p_pool_id pool) sq c ev) w) →
  wp (trace_external_event pool h sq c ev) Q w.
Proof.
  intros HQ. unfold trace_external_event, zipc_now_ns.
  apply wp_bind, wp_trace_hook_set. unfold logged_now in HQ.
  destruct w as [hs cs xs rs bs gs hook lg pl sp e].
  cbn [w_trace_hook w_env] in *. case_match; psimpl; [|by apply wp_ret].
  apply wp_bind, wp_env_call. by apply wp_trace_hook_call.
Qed.

Lemma wp_protect_slot pool i rw Q w hd e :
  w_headers w !! p_header pool = Some hd → w_env w = e →
  Q (protect_result pool hd i rw e).1
    (put_env (protect_result pool hd i rw e).2 w) →
  wp (protect_slot pool i rw) Q w.
Proof.
  intros Hh <- HQ. unfold protect_slot, protect_result in *.
  destruct (_ =? 0); [apply wp_ret; by destruct w|].
  apply wp_bind. eapply wp_header_read; [exact Hh|].
  destruct (_ <=? _); [apply wp_ret; by destruct w|].
  apply wp_bind. eapply wp_header_read; [exact Hh|]. psimpl.
  destruct rw; by apply wp_env_call.
Qed.

Lemma wp_registered_epoch pool c Q w cs :
  zipc_component_id_valid c = true →
  w_components w !! (p_header pool, c) = Some cs →
  Q (live_epoch (c_lifecycle cs)) w →
  wp (registered_epoch pool c) Q w.
Proof.
  intros Hv Hc HQ. unfold registered_epoch. rewrite Hv. psimpl.
  apply wp_bind. eapply wp_component_read; [exact Hc|]. by apply wp_ret.
Qed.

Lemma wp_clear_claim_token k t Q w s :
  w_controls w !! k = Some s →
  (∀ s', s' = set_token 0 s → s_claim_token s = t → Q tt (put_slot k s' w)) →
  (s_claim_token s ≠ t → Q tt w) →
  wp (clear_claim_token k t) Q w.
Proof.
  intros Hs H1 H2. unfold clear_claim_token. apply wp_bind.
  eapply wp_cas_token; [exact Hs| |]; intros; apply wp_ret; auto.
Qed.

(** Publishing by the holder of the token. *)
Lemma wp_publish_state k x t Q w s :
  w_controls w !! k = Some s → s_claim_token s = t →
  (∀ s', s' = set_token 0 (set_state x s) → Q tt (put_slot k s' w)) →
  wp (publish_state k x t) Q w.
Proof.
  intros Hs Ht HQ. unfold publish_state, store_state. apply wp_bind.
  eapply wp_slot_write; [exact Hs|]. intros s1 ->.
  eapply wp_clear_claim_token; [apply lookup_insert_eq| |].
  - intros s2 -> _. rewrite put_slot_twice. by apply HQ.
  - intros Hn. by destruct Hn.
Qed.

Lemma wp_buffer_invalidate a Q w :
  a ≠ 0 → is_Some (w_buffers w !! a) → Q tt (put_buffer a zero_buffer w) →
  wp (buffer_invalidate a) Q w.
Proof.
  intros Ha Hb HQ. unfold buffer_invalidate.
  rewrite (proj2 (Z.eqb_neq a 0)) by done. by apply wp_buffer_write.
Qed.

Lemma wp_free_claiming_slot pool i Q w s :
  w_controls w !! slot_key pool i = Some s →
  (∀ s', s' = set_token 0 (set_state ZIPC_SLOT_FREE (clear_owner s)) →
     Q tt (put_slot (slot_key pool i) s' w)) →
  wp (free_claiming_slot pool i) Q w.
Proof.
  intros Hs HQ. unfold free_claiming_slot. apply wp_bind.
  eapply wp_slot_read; [exact Hs|]. apply wp_bind.
  eapply wp_slot_write; [exact Hs|]. intros s1 ->.
  eapply wp_publish_state; [apply lookup_insert_eq|done|].
  intros s2 ->. rewrite put_slot_twice. by apply HQ.
Qed.

(** The test and the result of [make_view]. *)
Definition region_fits (capacity : Z) (r : zipc_buffer_region_t) : bool :=
  negb ((capacity <? r_offset r) || (capacity - r_offset r <? r_length r)).
Definition view_of (pool : zipc_pool_t) (hd : zipc_pool_header_t) (i handle : Z)
    (s : zipc_slot_control_t) : zipc_buffer_impl_t :=
  let base := p_payload_base pool + i * h_slot_stride hd in
  {| b_handle := handle; b_slot_id := i; b_control := Some (slot_key pool i);
     b_slot_base := base; b_data := base + r_offset (s_region s);
     b_length := r_length (s_region s); b_capacity := h_slot_capacity hd;
     b_pool := Some pool; b_owner := s_owner_id s;
     b_local_state := ZIPC_BUFFER_LOCAL_OWNED; b_owner_epoch := s_owner_epoch s;
     b_pool_id := p_pool_id pool |}.

Lemma wp_make_view pool hd i handle a s Q w :
  w_headers w !! p_header pool = Some hd →
  w_controls w !! slot_key pool i = Some s → is_Some (w_buffers w !! a) →
  (∀ v, v = view_of pool hd i handle s →
     region_fits (h_slot_capacity hd) (s_region s) = true → Q ZIPC_OK (put_buffer a v w)) →
  (region_fits (h_slot_capacity hd) (s_region s) = false → Q ZIPC_ERR_REGION_OVERFLOW w) →
  wp (make_view pool i handle a) Q w.
Proof.
  intros Hh Hs Ha HQ1 HQ2. unfold make_view, region_fits in *.
  apply wp_bind. eapply wp_slot_read; [done|].
  apply wp_bind. eapply wp_header_read; [done|].
  destruct (_ || _); psimpl; [by apply wp_ret, HQ2|].
  apply wp_bind. eapply wp_slot_read; [done|]. psimpl.
  apply wp_bind. eapply wp_buffer_write; [done|]. by apply wp_ret, HQ1.
Qed.

End effects.

(** ** Tactics

    A run starts from a world written as a constructor ([wp_start]); every
    step leaves it that way ([world_simpl]). *)
Ltac world_simpl :=
  cbv beta iota zeta delta [put_header put_component put_slot put_ring put_buffer put_generator put_env
       put_trace put_payload put_spurious logged logged_now traced error_counted
       w_headers w_components w_controls w_rings w_buffers w_generators w_trace_hook
       w_trace_log w_payload w_spurious w_env
       set_session_state set_sequence set_active g_session_state g_sequence g_active].
Ltac wp_start w :=
  destruct w as [hdrs comps ctls rings bufs gens hook log pay spur env];
  cbn [w_headers w_components w_controls w_rings w_buffers w_generators
    w_trace_hook w_trace_log w_payload w_spurious w_env] in *.

(** Solve a lookup side condition of a rule. *)
Ltac wp_find :=
  world_simpl;
  first [ eassumption
        | apply lookup_insert_eq
        | rewrite lookup_insert_ne by congruence; wp_find ].

(** Name the platform state a call starts from. *)
Ltac wp_env := world_simpl; reflexivity.

(** Solve "the buffer object exists". *)
Ltac wp_exists :=
  world_simpl;
  first [ eassumption
        | apply lookup_insert_is_Some'; first [left; done | right; wp_exists] ].

Ltac wp_norm := world_simpl; rewrite ?insert_insert_eq; psimpl.

(** The token of a slot computed along the run. *)
Ltac wp_token := subst; reflexivity.

(** Evaluate comparisons of literal statuses and slot states. *)
Ltac literal_eval t a b :=
  is_constructor a; is_constructor b;
  let v := eval vm_compute in t in
  match v with
  | true => change t with true
  | false => change t with false
  end; psimpl.
Ltac status_eval :=
  repeat match goal with
  | |- context [status_is ?a ?b] => literal_eval (status_is a b) a b
  | |- context [state_is ?a ?b] => literal_eval (state_is a b) a b
  end.

(** One step of symbolic execution: the rule for the head of the program,
    case analysis where the program branches. *)
Ltac wp_step :=
  lazymatch goal with
  | |- wp (mbind _ _) _ _ => apply wp_bind
  | |- wp (mret _) _ _ => apply wp_ret
  | |- wp (if negb (status_is ?s ZIPC_OK) then _ else _) _ _ =>
      first [ progress status_eval | destruct (status_is s ZIPC_OK) eqn:?; psimpl ]
  | |- wp (if ?b then _ else _) _ _ => destruct b eqn:?; psimpl
  | |- wp (let '(_, _) := ?p in _) _ _ => destruct p eqn:?; psimpl
  | |- wp (slot_read _ _) _ _ => eapply wp_slot_read; [wp_find|]; wp_norm
  | |- wp (slot_write _ _) _ _ => eapply wp_slot_write; [wp_find|intros ? ?]; wp_norm
  | |- wp (store_state _ _) _ _ => eapply wp_slot_write; [wp_find|intros ? ?]; wp_norm
  | |- wp (store_token _ _) _ _ => eapply wp_slot_write; [wp_find|intros ? ?]; wp_norm
  | |- wp (store_generation _ _) _ _ => eapply wp_slot_write; [wp_find|intros ? ?]; wp_norm
  | |- wp (header_read _ _) _ _ => eapply wp_header_read; [wp_find|]; wp_norm
  | |- wp (header_write _ _) _ _ => eapply wp_header_write; [wp_find|]; wp_norm
  | |- wp (component_read _ _) _ _ => eapply wp_component_read; [wp_find|]; wp_norm
  | |- wp (component_write _ _) _ _ => eapply wp_component_write; [wp_find|]; wp_norm
  | |- wp (generator_read _ _) _ _ => eapply wp_generator_read; [wp_find|]; wp_norm
  | |- wp (generator_write _ _) _ _ => eapply wp_generator_write; [wp_find|]; wp_norm
  | |- wp (cas_generator_weak _ _ _ _ _) _ _ =>
      eapply wp_cas_generator_weak; [wp_find|intros ?|intros ?|intros ?]; wp_norm
  | |- wp (registered_epoch _ _) _ _ =>
      eapply wp_registered_epoch; [eassumption|wp_find|]; wp_norm
  | |- wp (cas_state _ _ _) _ _ => eapply wp_cas_state; [wp_find|intros ? ? ?|intros ?]; wp_norm
  | |- wp (cas_token _ _ _) _ _ => eapply wp_cas_token; [wp_find|intros ? ? ?|intros ?]; wp_norm
  | |- wp (cas_lifecycle _ _ _) _ _ =>
      eapply wp_cas_lifecycle; [wp_find|intros ?|intros ?]; wp_norm
  | |- wp (clear_claim_token _ _) _ _ =>
      eapply wp_clear_claim_token; [wp_find|intros ? ? ?|intros ?]; wp_norm
  | |- wp (publish_state _ _ _) _ _ =>
      eapply wp_publish_state; [wp_find|wp_token|intros ? ?]; wp_norm
  | |- wp (free_claiming_slot _ _) _ _ =>
      eapply wp_free_claiming_slot; [wp_find|intros ? ?]; wp_norm
  | |- wp (make_view _ _ _ _) _ _ =>
      eapply wp_make_view; [wp_find|wp_find|wp_exists|intros ? ? ?|intros ?]; wp_norm
  | |- wp (protect_slot _ _ _) _ _ => eapply wp_protect_slot; [wp_find|wp_env|]; wp_norm
  | |- wp (trace_slot _ _ _ _) _ _ => eapply wp_trace_slot; [wp_find|wp_env|intros ? ?]; wp_norm
  | |- wp (trace_external_event _ _ _ _ _) _ _ => eapply wp_trace_external_event; wp_norm
  | |- wp (record_protocol_error _ None _) _ _ =>
      eapply wp_record_protocol_error; [wp_find|]; wp_norm
  | |- wp (record_protocol_error _ (Some _) _) _ _ =>
      eapply wp_record_protocol_error_slot; [wp_find|wp_find|wp_env|intros ? ?]; wp_norm
  | |- wp (buffer_invalidate _) _ _ =>
      eapply wp_buffer_invalidate; [eassumption|wp_exists|]; wp_norm
  | |- wp (buffer_read _) _ _ => eapply wp_buffer_read; [wp_find|]; wp_norm
  | |- wp (buffer_write _ _) _ _ => eapply wp_buffer_write; [wp_exists|]; wp_norm
  | |- wp zipc_now_ns _ _ => eapply wp_env_call_at; [wp_env|]; wp_norm
  | |- wp (env_call _) _ _ => eapply wp_env_call_at; [wp_env|]; wp_norm
  | |- wp (env_get _) _ _ => eapply wp_env_get_at; [wp_env|]; wp_norm
  end.

(** Whole operations; definitions in the way are unfolded by the caller. *)
Ltac wp_run := psimpl; repeat wp_step.

(** ** Clean-up of a finished run *)

(** Evaluate the updates and projections of a slot. *)
Ltac slot_simpl :=
  unfold owned_by, deadline_passed, hops_exhausted in *;
  cbn [set_state set_token set_generation push_trace clear_owner init_slot init_slot_times
    set_identity_id remember_sequence mark_transfer take_ownership remember_owner
    s_state s_generation s_owner_id s_next_owner_id s_owner_epoch s_hop_count s_hop_limit
    s_visited s_identity s_region s_transfer_sequence s_payload_type s_flags s_error_flags
    s_deadline_ns s_acquired_ns s_claim_token s_claim_previous_sequence
    s_claim_previous_region s_claim_previous_owner s_claim_previous_owner_epoch
    s_transfer_link_id s_transfer_source_id s_transfer_source_epoch s_transfer_hop_count
    s_transfer_acquired_ns s_transfer_visited s_trace_count s_trace s_recovery_count] in *.

(** Remove the double negations and reflections the branches introduce. *)
Ltac test_clean :=
  repeat match goal with
  | H : negb _ = true |- _ => apply negb_true_iff in H
  | H : negb _ = false |- _ => apply negb_false_iff in H
  | H : state_is _ _ = true |- _ => apply bool_decide_eq_true in H
  | H : state_is _ _ = false |- _ => apply bool_decide_eq_false in H
  end.

(** Rewrite the goal with the tests decided on this branch. *)
Ltac use_tests :=
  repeat match goal with
  | H : ?b = true |- context [?b] => rewrite H; psimpl
  | H : ?b = false |- context [?b] => rewrite H; psimpl
  | |- context [?x =? ?x] => rewrite (Z.eqb_refl x); psimpl
  | H : ?x ≠ ?y |- context [?x =? ?y] => rewrite (proj2 (Z.eqb_neq x y) H); psimpl
  end.

Ltac use_state :=
  repeat match goal with
  | H : s_state ?s = _ |- context [s_state ?s] => rewrite H
  | H : s_claim_token ?s = _ |- context [s_claim_token ?s] => rewrite H
  end.

(** Split on a state known only to differ from another. *)
Ltac state_cases :=
  repeat match goal with
  | H : s_state ?s ≠ _ |- _ => destruct (s_state s) eqn:?; try done; clear H
  end.

(** Discard a branch whose tests contradict each other. *)
Ltac run_absurd := try solve [subst; test_clean; slot_simpl; congruence].

(** Show that a map of the final world is an update of the initial one. *)
Ltac frame_map :=
  world_simpl;
  first [ done
        | reflexivity
        | rewrite insert_id; [reflexivity|eassumption]
        | symmetry; apply insert_id; eassumption ].
