(* ===== verification/IdentitySpec.v ===== *)
(** * What the identifier generator guarantees

    The sequential behaviour of [generate_buffer_id] (src/core/zipc.c) as
    [allocate_claimed] calls it: it terminates, spurious failures of the weak
    compare-exchanges included, and either issues the next identifier of the
    session, rotates to a fresh session first, or reports the lack of entropy
    and leaves the generator as it was. *)
From S2P Require Import Prelude Types Packing Visited Prog Store Identity Slot SlotRun.

Section generate.
Context {E : Type} `{Platform E}.
Implicit Type w : world E.

Lemma length_tail_le {A} (l : list A) : (length (tail l) <= length l)%nat.
Proof. destruct l; simpl; lia. Qed.
Lemma length_tail_lt {A} (l : list A) a :
  head l = Some a → (length (tail l) < length l)%nat.
Proof. destruct l; simpl; [done|lia]. Qed.

(** One turn of the loop, for the caller that stores the identifier in slot
    [k]: retry, rotate, give up, or issue. *)
Lemma wp_generate_turn fuel c k s g Q w :
  (0 < fuel)%nat → generator_ok g →
  w_generators w !! c = Some g → w_controls w !! k = Some s →
  (∀ l, (length l < length (w_spurious w))%nat →
     Q None (put_spurious l w)) →
  (∀ l session e', (length l <= length (w_spurious w))%nat → exhausted g →
     session_ok session → session ≠ g_session_state g → random_only (w_env w) e' →
     Q None (put_env e' (put_spurious l
               (put_generator c (ZipcGenerator session 0 0) w)))) →
  (∀ l e', (length l <= length (w_spurious w))%nat → exhausted g → random_only (w_env w) e' →
     Q (Some ZIPC_ERR_ENTROPY_UNAVAILABLE)
       (put_env e' (put_spurious l w))) →
  (∀ l s', (length l <= length (w_spurious w))%nat → ¬ exhausted g →
     s' = set_identity_id (zipc_buffer_id_make c (g_session_state g) (g_sequence g)) s →
     Q (Some ZIPC_OK)
       (put_spurious l (put_slot k s' (put_generator c
          (ZipcGenerator (g_session_state g) (g_sequence g + 1) 0) w)))) →
  wp (generate_turn fuel c (λ id, slot_write k (set_identity_id id))) Q w.
Proof.
  intros Hf [Hse Hsq Hac] Hg Hs Hretry Hrotate Hfail Hissue.
  destruct g as [se sq ac]; cbn [g_session_state g_sequence g_active] in *; subst ac.
  destruct (session_flag_clear se Hse) as [H1 H2].
  wp_start w. assert (Hid : <[c := ZipcGenerator se sq 0]> gens = gens) by by apply insert_id.
  pose proof (length_tail_le spur). pose proof (length_tail_le (tail spur)).
  unfold generate_turn, leave_issuers. wp_step. wp_step. rewrite H1, H2. psimpl.
  repeat (wp_step; change (u32 (u32 (0 + 1) - 1)) with 0).
  all: try done; bool_to_prop; try lia.
  all: try (rewrite ?Hid; apply Hretry;
            match goal with H : head _ = Some true |- _ =>
              apply length_tail_lt in H; cbn [w_spurious] in H; lia end).
  - eapply wp_rotate_session; [done|apply lookup_insert_eq|done|..]; world_simpl.
    + intros e' Hr. rewrite insert_insert_eq. subst se. rewrite Hid.
      apply (Hfail (tail spur)); [simpl in *; lia|by left|done].
    + intros session e' ? Hn Hr. rewrite insert_insert_eq. subst se.
      apply Hrotate; try done. by left.
  - eapply wp_rotate_session; [done|apply lookup_insert_eq|done|..]; world_simpl.
    + intros e' Hr. rewrite insert_insert_eq, Hid. apply (Hfail (tail (tail spur)));
        [simpl in *; lia|by right|done].
    + intros session e' ? Hn Hr. rewrite insert_insert_eq.
      apply (Hrotate (tail (tail spur))); try done; [simpl in *; lia|by right].
  - rewrite u32_small by zlia. apply (Hissue (tail (tail spur))); [simpl in *; lia| |done].
    intros []; simpl in *; lia.
Qed.

(** ** The loop *)

(** What a successful call leaves: the identifier and the generator after it. *)
Definition issues (g : zipc_buffer_id_generator_t) (session sequence : Z) : Prop :=
  session_ok session ∧ 0 <= sequence < UINT32_MAX ∧
  ((¬ exhausted g ∧ session = g_session_state g ∧ sequence = g_sequence g) ∨
   (exhausted g ∧ session ≠ g_session_state g ∧ sequence = 0)).

(** From a generator that needs no rotation. *)
Lemma wp_generate_loop_ready n fuel c k s g Q w :
  (0 < fuel)%nat → (length (w_spurious w) < n)%nat → generator_ok g → ¬ exhausted g →
  w_generators w !! c = Some g → w_controls w !! k = Some s →
  (∀ l s', (length l <= length (w_spurious w))%nat →
     s' = set_identity_id (zipc_buffer_id_make c (g_session_state g) (g_sequence g)) s →
     Q (Some ZIPC_OK)
       (put_spurious l (put_slot k s' (put_generator c
          (ZipcGenerator (g_session_state g) (g_sequence g + 1) 0) w)))) →
  wp (loop n (generate_turn fuel c (λ id, slot_write k (set_identity_id id)))) Q w.
Proof.
  intros Hf. revert w. induction n as [|n IH]; intros w Hn Hok Hx Hg Hs HQ; [lia|].
  cbn [loop]. apply wp_bind. eapply wp_generate_turn; [done..| | | |].
  - intros l Hl. apply IH; try done; simpl; [lia|]. intros. apply HQ; [lia|done].
  - done.
  - done.
  - intros l s' Hl _ Hs'. apply wp_ret. by apply HQ.
Qed.

Lemma wp_generate_loop n fuel c k s g Q w :
  (0 < fuel)%nat → (length (w_spurious w) + 1 < n)%nat → generator_ok g →
  w_generators w !! c = Some g → w_controls w !! k = Some s →
  (∀ l s' e' session sequence, (length l <= length (w_spurious w))%nat →
     issues g session sequence → random_only (w_env w) e' →
     s' = set_identity_id (zipc_buffer_id_make c session sequence) s →
     Q (Some ZIPC_OK)
       (put_env e' (put_spurious l (put_slot k s' (put_generator c
          (ZipcGenerator session (sequence + 1) 0) w))))) →
  (∀ l e', (length l <= length (w_spurious w))%nat → exhausted g → random_only (w_env w) e' →
     Q (Some ZIPC_ERR_ENTROPY_UNAVAILABLE) (put_env e' (put_spurious l w))) →
  wp (loop n (generate_turn fuel c (λ id, slot_write k (set_identity_id id)))) Q w.
Proof.
  intros Hf. revert w. induction n as [|n IH]; intros w Hn Hok Hg Hs HQ1 HQ2; [lia|].
  cbn [loop]. apply wp_bind. eapply wp_generate_turn; [done..| | | |].
  - intros l Hl. apply IH; try done; simpl; [lia| |]; intros;
      [eapply HQ1|eapply HQ2]; try done; lia.
  - intros l session e' Hl Hx Hse Hne Hr. destruct w as [hs cs xs rs bs gs hk lg pl sp e].
    eapply wp_generate_loop_ready with (g := ZipcGenerator session 0 0);
      [done|simpl in *; lia|unfold session_ok in Hse; split; simpl; zlia| | | |].
    + intros []; simpl in *; unfold session_ok in *; lia.
    + apply lookup_insert_eq.
    + exact Hs.
    + intros l' s' Hl' Hs'. world_simpl. rewrite insert_insert_eq.
      apply (HQ1 l' s' e' session 0); [simpl in *; lia| |done|done].
      split_and!; try done. right. done.
  - intros l e' Hl Hx Hr. apply wp_ret. by apply HQ2.
  - intros l s' Hl Hx Hs'. apply wp_ret. destruct w as [hs cs xs rs bs gs hk lg pl sp e].
    apply (HQ1 l s' e (g_session_state g) (g_sequence g)); [done| |reflexivity|done].
    destruct Hok. unfold exhausted in *. split_and!; [unfold session_ok; lia|zlia|zlia|]. by left.
Qed.

(** The rule for the call in [allocate_claimed]: [fuel] covers every spurious
    failure, one rotation and one issue. *)
Lemma wp_generate_buffer_id fuel c k s g Q w :
  zipc_component_id_valid c = true →
  (length (w_spurious w) + 1 < fuel)%nat → generator_ok g →
  w_generators w !! c = Some g → w_controls w !! k = Some s →
  (∀ l s' e' session sequence, (length l <= length (w_spurious w))%nat →
     issues g session sequence → random_only (w_env w) e' →
     s' = set_identity_id (zipc_buffer_id_make c session sequence) s →
     Q ZIPC_OK
       (put_env e' (put_spurious l (put_slot k s' (put_generator c
          (ZipcGenerator session (sequence + 1) 0) w))))) →
  (∀ l e', (length l <= length (w_spurious w))%nat → exhausted g → random_only (w_env w) e' →
     Q ZIPC_ERR_ENTROPY_UNAVAILABLE (put_env e' (put_spurious l w))) →
  wp (generate_buffer_id fuel c (Some (λ id, slot_write k (set_identity_id id)))) Q w.
Proof.
  intros Hc Hf Hok Hg Hs HQ1 HQ2. unfold generate_buffer_id. rewrite Hc. psimpl.
  apply wp_bind. eapply wp_generate_loop; [lia|exact Hf|done..| |].
  - intros. apply wp_returned. by eapply HQ1.
  - intros. apply wp_returned. by apply HQ2.
Qed.
End generate.
