(* ===== verification/SlotSpec.v ===== *)
(** * The ownership contract of a slot

    What one slot promises its clients, stated without claims, tokens or
    tracing: it is free, owned by a component (in an epoch), or in transfer
    between two components, and it carries a buffer.  [spec_send],
    [spec_claim] and [spec_release] are the contract's operations, on every
    branch; the theorems show that the functions of Slot.v implement them and
    touch nothing but the slot, the pool's counters and the platform. *)
From S2P Require Import Prelude Types Packing Visited Prog Store Identity Slot SlotRun.

(** ** Abstract slots *)
Record buffer_info := BufferInfo {
  bi_generation : Z;
  bi_identity : zipc_buffer_identity_t;
  bi_region : zipc_buffer_region_t;
  bi_sequence : Z;
  bi_hop_count : Z;
  bi_hop_limit : Z;
  bi_visited : zipc_visited_set_t;
  bi_deadline : Z }.

Inductive ownership :=
| Free (generation : Z)
| Owned (component epoch : Z) (b : buffer_info)
| InTransfer (source epoch destination link : Z) (b : buffer_info)
| Busy (generation : Z).

(** The token is part of the view: a live or abandoned claim blocks the slot. *)
Record slot_view := SlotView { sv_owner : ownership; sv_token : Z }.

Definition info_of (s : zipc_slot_control_t) : buffer_info :=
  {| bi_generation := s_generation s;
     bi_identity := s_identity s;
     bi_region := s_region s;
     bi_sequence := s_transfer_sequence s;
     bi_hop_count := s_hop_count s;
     bi_hop_limit := s_hop_limit s;
     bi_visited := s_visited s;
     bi_deadline := s_deadline_ns s |}.

Definition abs_slot (s : zipc_slot_control_t) : slot_view :=
  {| sv_owner :=
       match s_state s with
       | ZIPC_SLOT_FREE => Free (s_generation s)
       | ZIPC_SLOT_OWNED => Owned (s_owner_id s) (s_owner_epoch s) (info_of s)
       | ZIPC_SLOT_TRANSFER =>
           InTransfer (s_owner_id s) (s_owner_epoch s) (s_next_owner_id s)
             (s_transfer_link_id s) (info_of s)
       | ZIPC_SLOT_CLAIMING | ZIPC_SLOT_ERROR => Busy (s_generation s)
       end;
     sv_token := s_claim_token s |}.

(** ** The contract *)

(** Status, whether a protocol error is counted, and the slot left behind. *)
Record outcome := Outcome {
  o_status : zipc_status_t;
  o_error : bool;
  o_view : slot_view }.

Definition info_late (now : Z) (b : buffer_info) : bool :=
  negb (bi_deadline b =? ZIPC_DEADLINE_NONE) && (bi_deadline b <? now).
Definition info_exhausted (b : buffer_info) : bool :=
  negb (bi_hop_limit b =? ZIPC_HOP_LIMIT_UNLIMITED) && (bi_hop_limit b <=? bi_hop_count b).

Definition next_sequence (b : buffer_info) : buffer_info :=
  {| b with bi_sequence := u32 (bi_sequence b + 1) |}.
Definition one_more_hop (receiver : Z) (b : buffer_info) : buffer_info :=
  {| b with bi_hop_count := u32 (bi_hop_count b + 1);
            bi_visited := visited_set_add (bi_visited b) receiver |}.

(** [c], in its current [epoch], hands the buffer of generation [g] to [next]
    over [link]; [prot] is the outcome of revoking the sender's mapping. *)
Definition spec_send (now : Z) (prot : zipc_status_t) (g c epoch next link : Z)
    (v : slot_view) : outcome :=
  match sv_owner v with
  | Owned o e b =>
      if negb (bi_generation b =? g) then Outcome ZIPC_ERR_STALE_HANDLE true v
      else if negb ((o =? c) && (e =? epoch)) then Outcome ZIPC_ERR_NOT_OWNER true v
      else if negb (sv_token v =? 0) then Outcome ZIPC_ERR_INVALID_STATE false v
      else if info_late now b then Outcome ZIPC_ERR_DEADLINE true v
      else if info_exhausted b then Outcome ZIPC_ERR_HOP_LIMIT true v
      else if negb (status_is prot ZIPC_OK) then Outcome prot true v
      else Outcome ZIPC_OK false
             (SlotView (InTransfer o e next link (next_sequence b)) 0)
  | _ => Outcome ZIPC_ERR_INVALID_STATE true v
  end.

(** [receiver], in its current [epoch], takes the buffer [m] announces.  A
    token left by the sender is taken over; once ownership moved, a mapping
    that cannot be enabled frees the slot. *)
Definition spec_claim (now : Z) (prot : zipc_status_t) (capacity : Z)
    (m : zipc_message_t) (receiver epoch : Z) (v : slot_view) : outcome :=
  match sv_owner v with
  | InTransfer o e d link b =>
      let back := SlotView (InTransfer o e d link b) 0 in
      let gone := SlotView (Free (bi_generation b)) 0 in
      if negb ((sv_token v =? 0) || (claim_token_kind (sv_token v) =? ZIPC_CLAIM_SEND))
      then Outcome ZIPC_ERR_INVALID_STATE true v
      else if negb (bi_generation b =? zipc_handle_generation (m_handle m))
      then Outcome ZIPC_ERR_STALE_HANDLE true back
      else if negb ((o =? m_source_component m) && (d =? receiver))
      then Outcome ZIPC_ERR_INVALID_RECEIVER true back
      else if negb (bi_sequence b =? m_transfer_sequence m)
      then Outcome ZIPC_ERR_SEQUENCE_MISMATCH true back
      else if info_late now b then Outcome ZIPC_ERR_DEADLINE true back
      else if info_exhausted b then Outcome ZIPC_ERR_HOP_LIMIT true back
      else if negb (status_is prot ZIPC_OK) then Outcome prot true gone
      else if negb (region_fits capacity (bi_region b)) then Outcome ZIPC_ERR_REGION_OVERFLOW true gone
      else Outcome ZIPC_OK false
             (SlotView (Owned receiver epoch (one_more_hop receiver b)) 0)
  | _ => Outcome ZIPC_ERR_INVALID_STATE true v
  end.

Definition view_generation (v : slot_view) : Z :=
  match sv_owner v with
  | Free g | Busy g => g
  | Owned _ _ b | InTransfer _ _ _ _ b => bi_generation b
  end.

Lemma view_generation_abs s : view_generation (abs_slot s) = s_generation s.
Proof. unfold view_generation, abs_slot. by destruct (s_state s). Qed.

(** [c], in its current [epoch], gives the buffer of generation [g] up.  No
    branch counts a protocol error. *)
Definition spec_release (prot : zipc_status_t) (g c epoch : Z) (v : slot_view) : outcome :=
  if negb (view_generation v =? g) then Outcome ZIPC_ERR_STALE_HANDLE false v
  else match sv_owner v with
  | Owned o e b =>
      if negb ((o =? c) && (e =? epoch)) then Outcome ZIPC_ERR_NOT_OWNER false v
      else if negb (sv_token v =? 0) then Outcome ZIPC_ERR_INVALID_STATE false v
      else if negb (status_is prot ZIPC_OK) then Outcome prot false v
      else Outcome ZIPC_OK false (SlotView (Free (bi_generation b)) 0)
  | _ => Outcome ZIPC_ERR_INVALID_STATE false v
  end.

(** ** Well-formed slots *)
Definition region_in (capacity : Z) (r : zipc_buffer_region_t) : Prop :=
  0 <= r_offset r ∧ 0 <= r_length r ∧ r_offset r + r_length r <= capacity.

(** The parts every slot has, whatever its state. *)
Record slot_base (s : zipc_slot_control_t) : Prop := {
  sb_generation : in_u32 (s_generation s);
  sb_sequence : in_u32 (s_transfer_sequence s);
  sb_hops : in_u32 (s_hop_count s);
  sb_visited : visited_wf (s_visited s);
  sb_trace : length (s_trace s) = 8%nat;
  sb_trace_count : in_u32 (s_trace_count s) }.

(** A slot with an owner. *)
Record slot_held (capacity : Z) (s : zipc_slot_control_t) : Prop := {
  sh_owner : zipc_component_id_valid (s_owner_id s) = true;
  sh_generation : 1 <= s_generation s;
  sh_visited : zipc_visited_set_test (Some (s_visited s)) (s_owner_id s) = true;
  sh_region : region_in capacity (s_region s) }.

(** What a restart or a rollback needs to give the buffer back. *)
Record transfer_saved (s : zipc_slot_control_t) : Prop := {
  ts_destination : zipc_component_id_valid (s_next_owner_id s) = true;
  ts_source : s_transfer_source_id s = s_owner_id s;
  ts_epoch : s_transfer_source_epoch s = s_owner_epoch s;
  ts_hops : s_transfer_hop_count s = s_hop_count s;
  ts_acquired : s_transfer_acquired_ns s = s_acquired_ns s;
  ts_visited : s_transfer_visited s = s_visited s }.

Definition slot_as (capacity : Z) (state : zipc_slot_state_t) (s : zipc_slot_control_t)
    : Prop :=
  match state with
  | ZIPC_SLOT_FREE =>
      s_owner_id s = ZIPC_INVALID_COMPONENT_ID ∧ s_region s = zero_region
  | ZIPC_SLOT_OWNED => slot_held capacity s
  | ZIPC_SLOT_TRANSFER => slot_held capacity s ∧ transfer_saved s
  | ZIPC_SLOT_CLAIMING | ZIPC_SLOT_ERROR => True
  end.

Definition slot_ok (capacity : Z) (s : zipc_slot_control_t) : Prop :=
  slot_base s ∧ slot_as capacity (s_state s) s.

Lemma slot_ok_owned capacity s :
  slot_ok capacity s → s_state s = ZIPC_SLOT_OWNED → slot_held capacity s.
Proof. intros [_ Has] Hst. by rewrite Hst in Has. Qed.
Lemma slot_ok_transfer capacity s :
  slot_ok capacity s → s_state s = ZIPC_SLOT_TRANSFER →
  slot_held capacity s ∧ transfer_saved s.
Proof. intros [_ Has] Hst. by rewrite Hst in Has. Qed.

(** No operation is under way on the slot. *)
Definition quiescent (s : zipc_slot_control_t) : Prop :=
  s_claim_token s = 0 ∧ s_state s ≠ ZIPC_SLOT_CLAIMING ∧ s_state s ≠ ZIPC_SLOT_ERROR.

(** ** Attached pools and frames *)
Record attached {E} (pool : zipc_pool_t) (hd : zipc_pool_header_t) (w : world E) : Prop := {
  at_header : w_headers w !! p_header pool = Some hd;
  at_count : 1 <= h_slot_count hd <= UINT32_MAX;
  at_slots i : 0 <= i < h_slot_count hd → is_Some (w_controls w !! slot_key pool i);
  at_components c : zipc_component_id_valid c = true →
    is_Some (w_components w !! (p_header pool, c)) }.

(** Everything a slot operation never writes. *)
Record same_rest {E} (w w' : world E) : Prop := {
  sr_components : w_components w' = w_components w;
  sr_rings : w_rings w' = w_rings w;
  sr_generators : w_generators w' = w_generators w;
  sr_payload : w_payload w' = w_payload w;
  sr_hook : w_trace_hook w' = w_trace_hook w;
  sr_spurious : w_spurious w' = w_spurious w }.

(** [w'] is [w] with slot [i] of the pool and the pool header replaced (and
    platform, trace log and buffer objects changed). *)
Definition slot_effect {E} (pool : zipc_pool_t) (i : Z) (s' : zipc_slot_control_t)
    (hd' : zipc_pool_header_t) (w w' : world E) : Prop :=
  w_controls w' = <[slot_key pool i := s']> (w_controls w) ∧
  w_headers w' = <[p_header pool := hd']> (w_headers w) ∧
  same_rest w w'.

Definition counted (error : bool) (hd : zipc_pool_header_t) : zipc_pool_header_t :=
  if error then count_protocol_error hd else hd.

(** The slot operation under [o] was carried out on slot [i]; [hd'] is the
    header it leaves. *)
Definition implements {E} (pool : zipc_pool_t) (hd' : zipc_pool_header_t) (i : Z)
    (s : zipc_slot_control_t) (o : outcome) (w : world E)
    (status : zipc_status_t) (w' : world E) : Prop :=
  ∃ s', slot_effect pool i s' hd' w w' ∧
    status = o_status o ∧ abs_slot s' = o_view o ∧
    (slot_ok (h_slot_capacity hd') s → slot_ok (h_slot_capacity hd') s').

(** Evaluate abstract slots. *)
Ltac view_simpl :=
  unfold abs_slot, info_of, info_late, info_exhausted in *;
  cbn [sv_owner sv_token bi_generation bi_identity bi_region bi_sequence bi_hop_count
     bi_hop_limit bi_visited bi_deadline next_sequence one_more_hop
     o_status o_error o_view counted] in *;
  slot_simpl.
Ltac spec_eval := view_simpl; use_state; view_simpl; use_tests; view_simpl.

(** Evaluate the outcome [o] the contract prescribes on this branch. *)
Ltac outcome_eval :=
  match goal with
  | Ho : ?o = _ :> outcome |- _ =>
      eassert (o = Outcome _ _ _) as -> by
        (rewrite Ho; clear Ho; subst; slot_simpl; spec_eval; reflexivity);
      clear Ho
  end;
  cbn [o_status o_error o_view counted].

(** [slot_base] of a slot computed from a well-formed one. *)
Ltac slot_base_done :=
  match goal with H : slot_base _ |- _ => destruct H end;
  split; slot_simpl; rewrite ?length_insert; auto with zipc.
(** [slot_ok], where the final state's own part may be left over. *)
Ltac slot_ok_done :=
  let Hb := fresh "Hbase" in let Ha := fresh "Has" in
  first [ done
        | intros [Hb Ha]; split;
          [ slot_base_done
          | slot_simpl; revert Ha; use_state; intros Ha; cbn [slot_as] in *;
            repeat match goal with
            | H : _ ∧ _ |- _ => destruct H
            | H : slot_held _ _ |- _ => destruct H
            | H : transfer_saved _ |- _ => destruct H
            end;
            repeat match goal with
            | |- _ ∧ _ => split
            | |- slot_held _ _ => split
            | |- transfer_saved _ => split
            end;
            slot_simpl; bool_to_prop; try (done || congruence) ] ].

Ltac implements_done :=
  eexists; split_and!;
    [split_and!; [frame_map|frame_map|split; world_simpl; done]
    |done
    |subst; view_simpl; use_state; done
    |subst; slot_ok_done].

(** The platform state after a successful operation. *)
Ltac clock_done :=
  cbn [fst snd w_env]; intros Hclock;
  first [ discriminate Hclock
        | rewrite Hclock in *; done
        | apply clock_only_call ].

Section refinement.
Context {E : Type} `{Platform E}.
Implicit Type w : world E.

(** ** Transfer *)
Lemma wp_prepare_transfer pool hd s cs handle c next link m w :
  let i := zipc_handle_slot_id handle in
  let t := zipc_platform_time_ns (w_env w) in
  let prot := protect_result pool hd i false t.2 in
  let o := spec_send t.1 prot.1 (zipc_handle_generation handle) c
             (live_epoch (c_lifecycle cs)) next link (abs_slot s) in
  attached pool hd w → i < h_slot_count hd →
  w_controls w !! slot_key pool i = Some s →
  w_components w !! (p_header pool, c) = Some cs →
  zipc_component_id_valid c = true → zipc_component_id_valid next = true →
  wp (buffer_prepare_transfer_internal (Some pool) handle c next link (Some m))
    (λ r w', implements pool (counted (o_error o) hd) i s o w r.1 w' ∧ w_buffers w' = w_buffers w ∧
       r.2 = (if status_is r.1 ZIPC_OK
              then ZipcMessage handle (p_pool_id pool) c next
                     (u32 (s_transfer_sequence s + 1)) 0
              else m) ∧
       (r.1 = ZIPC_OK → clock_only prot.2 (w_env w'))) w.
Proof.
  intros i t prot o [Hh _ _ _] Hi Hs Hc Hv1 Hv2.
  assert (Ho : o = o) by done. unfold o at 2 in Ho. clearbody o. subst i t prot. wp_start w.
  unfold buffer_prepare_transfer_internal. rewrite Hv1, Hv2. rewrite <- Z.leb_gt in Hi.
  psimpl. repeat (wp_step; rewrite ?Hi; psimpl; try unfold transfer_claimed).
  all: run_absurd; test_clean; state_cases; unfold spec_send in *; outcome_eval;
    (split_and!; [implements_done|world_simpl; done|subst; world_simpl; use_tests; done
                 |clock_done]).
Qed.

(** ** Claim *)

Lemma wp_claim pool hd s cs m receiver a w :
  let i := zipc_handle_slot_id (m_handle m) in
  let t := zipc_platform_time_ns (w_env w) in
  let prot := protect_result pool hd i true t.2 in
  let o := spec_claim t.1 prot.1 (h_slot_capacity hd) m receiver
             (live_epoch (c_lifecycle cs)) (abs_slot s) in
  attached pool hd w → i < h_slot_count hd →
  w_controls w !! slot_key pool i = Some s →
  w_components w !! (p_header pool, receiver) = Some cs →
  zipc_component_id_valid receiver = true → a ≠ 0 → is_Some (w_buffers w !! a) →
  slot_ok (h_slot_capacity hd) s →
  m_pool_id m = p_pool_id pool → m_destination_component m = receiver →
  wp (zipc_buffer_claim (Some pool) (Some m) receiver a)
    (λ r w', implements pool (counted (o_error o) hd) i s o w r w' ∧
       (r = ZIPC_OK → clock_only prot.2 (w_env w')) ∧
       if status_is r ZIPC_OK
       then w_buffers w' =
              <[a := view_of pool hd i (m_handle m)
                       (take_ownership receiver (live_epoch (c_lifecycle cs)) t.1 s)]>
                (w_buffers w)
       else w_buffers w' = w_buffers w ∨
            w_buffers w' = <[a := zero_buffer]> (w_buffers w)) w.
Proof.
  intros i t prot o [Hh _ _ _] Hi Hs Hc Hv Ha Hbuf Hok Hpool Hdest.
  assert (Ho : o = o) by done. unfold o at 2 in Ho. clearbody o. subst i t prot.
  wp_start w. unfold zipc_buffer_claim.
  rewrite Hv, Hpool, Hdest, (proj2 (Z.eqb_neq a 0) Ha), !Z.eqb_refl.
  rewrite <- Z.leb_gt in Hi.
  psimpl. repeat (wp_step; rewrite ?Hi; psimpl; try unfold receive_claimed).
  all: run_absurd; test_clean; state_cases; unfold spec_claim in *; outcome_eval.
  all: (split_and!; [|clock_done|subst; use_tests; status_eval; auto]; try implements_done).
  all: destruct (slot_ok_transfer _ _ Hok ltac:(eassumption)) as [[] [_ _ _ Hhop _ _]].
  all: eexists; split_and!;
    [split_and!; [frame_map|frame_map|split; done]
    |done|subst; view_simpl; use_state; by rewrite Hhop|subst; intros [[] _]].
  all: split; [split; slot_simpl; rewrite ?length_insert; auto with zipc|].
  all: split; slot_simpl; auto with zipc.
Qed.

(** ** Release *)
Lemma wp_release pool hd s cs handle c w :
  let i := zipc_handle_slot_id handle in
  let prot := protect_result pool hd i false (w_env w) in
  let o := spec_release prot.1 (zipc_handle_generation handle) c
             (live_epoch (c_lifecycle cs)) (abs_slot s) in
  attached pool hd w → i < h_slot_count hd →
  w_controls w !! slot_key pool i = Some s →
  w_components w !! (p_header pool, c) = Some cs →
  zipc_component_id_valid c = true →
  wp (zipc_pool_buffer_release (Some pool) handle c)
    (λ r w', implements pool (if status_is r ZIPC_OK then bump_release hd else hd)
               i s o w r w' ∧ w_buffers w' = w_buffers w ∧
       (r = ZIPC_OK → clock_only prot.2 (w_env w'))) w.
Proof.
  intros i prot o [Hh _ _ _] Hi Hs Hc Hv.
  assert (Ho : o = o) by done. unfold o at 2 in Ho. clearbody o. subst i prot.
  wp_start w. unfold zipc_pool_buffer_release. rewrite Hv. rewrite <- Z.leb_gt in Hi.
  psimpl. repeat (wp_step; rewrite ?Hi; psimpl).
  all: run_absurd; test_clean; state_cases; unfold spec_release in *.
  all: rewrite view_generation_abs in Ho; outcome_eval; use_tests; status_eval;
    (split_and!; [implements_done|done|clock_done]).
Qed.
End refinement.
