(* ===== verification/Alloc.v ===== *)
(** * Allocation (src/core/zipc.c, [buffer_allocate_internal])

    What an allocation promises: the scan takes the first free, unclaimed slot
    from the allocation cursor on, and either turns it into a fresh owned
    buffer with a new generation and identifier, or gives it back free. *)
From S2P Require Import Prelude Types Packing Visited Prog Store Identity Slot SlotRun.
From S2P Require Import IdentitySpec SlotSpec.

(** ** Generations and regions *)
Lemma next_generation_range z : in_u32 z → 1 <= next_generation z <= UINT32_MAX.
Proof.
  intros Hz. unfold next_generation. destruct (Z.eqb_spec (u32 (z + 1)) 0); zlia.
Qed.
Lemma next_generation_u32 z : in_u32 z → in_u32 (next_generation z).
Proof. intros Hz. pose proof (next_generation_range z Hz). zlia. Qed.
Lemma next_generation_fresh z : in_u32 z → next_generation z ≠ z.
Proof.
  intros Hz. unfold next_generation. destruct (Z.eqb_spec (u32 (z + 1)) 0); zlia.
Qed.

Lemma region_fits_in capacity r :
  region_fits capacity r = true → 0 <= r_offset r → 0 <= r_length r →
  region_in capacity r.
Proof.
  unfold region_fits, region_in. intros Hr ??. apply negb_true_iff in Hr. bool_to_prop. lia.
Qed.

(** The well-formedness of a slot an attempt leaves. *)
Ltac alloc_slot_ok :=
  intros []; split;
    [ split; slot_simpl; rewrite ?length_insert; auto using next_generation_u32 with zipc;
      zlia
    | slot_simpl; cbn [slot_as]; try done; split; slot_simpl;
      auto using region_fits_in with zipc; by apply next_generation_range ].

Section alloc.
Context {E : Type} `{Platform E}.
Implicit Type w : world E.

(** The arguments of an allocation, as the caller of the loop fixes them. *)
Context (pool : zipc_pool_t) (hd : zipc_pool_header_t)
  (allocator parent offset length epoch hop_limit duration : Z)
  (a : Z).

Definition fresh_deadline (now : Z) : Z :=
  if (duration =? 0) || (ZIPC_DEADLINE_NONE - now <=? duration)
  then ZIPC_DEADLINE_NONE else now + duration.

(** The buffer a successful allocation produces. *)
Definition fresh_info (generation session sequence now : Z) : buffer_info :=
  {| bi_generation := generation;
     bi_identity := ZipcIdentity (zipc_buffer_id_make allocator session sequence) parent;
     bi_region := ZipcRegion offset length;
     bi_sequence := 0;
     bi_hop_count := 1;
     bi_hop_limit := if negb (hop_limit =? 0) then hop_limit else ZIPC_HOP_LIMIT_UNLIMITED;
     bi_visited := visited_set_add zero_visited allocator;
     bi_deadline := fresh_deadline now |}.

(** Slot [i], which was [s], after the attempt to allocate it. *)
Inductive alloc_slot (enable : bool) (i : Z) (s : zipc_slot_control_t)
    (g : zipc_buffer_id_generator_t) w : zipc_status_t → world E → Prop :=
| alloc_done s' session sequence now w' :
    w_controls w' = <[slot_key pool i := s']> (w_controls w) →
    issues g session sequence →
    abs_slot s' = SlotView (Owned allocator epoch
      (fresh_info (next_generation (s_generation s)) session sequence now)) 0 →
    w_headers w' = <[p_header pool := bump_allocation
      (set_cursor (u32 (i + 1) `mod` h_slot_count hd) hd)]> (w_headers w) →
    w_generators w' = <[allocator := ZipcGenerator session (sequence + 1) 0]>
      (w_generators w) →
    w_buffers w' = <[a := view_of pool hd i
      (zipc_handle_make i (next_generation (s_generation s))) s']> (w_buffers w) →
    (slot_base s → slot_ok (h_slot_capacity hd) s') →
    alloc_slot enable i s g w ZIPC_OK w'
| alloc_failed s' g' status w' :
    w_controls w' = <[slot_key pool i := s']> (w_controls w) →
    (status = ZIPC_ERR_ENTROPY_UNAVAILABLE ∧ exhausted g ∧ g' = g ∨
     enable = true ∧ status ≠ ZIPC_OK ∧
       ∃ e session sequence, status = (protect_result pool hd i true e).1 ∧
         issues g session sequence ∧ g' = ZipcGenerator session (sequence + 1) 0) →
    abs_slot s' = SlotView (Free (next_generation (s_generation s))) 0 →
    w_headers w' = <[p_header pool := bump_allocation_failure hd]> (w_headers w) →
    w_generators w' = <[allocator := g']> (w_generators w) →
    w_buffers w' = <[a := zero_buffer]> (w_buffers w) →
    (slot_base s → slot_ok (h_slot_capacity hd) s') →
    alloc_slot enable i s g w status w'.

(** What an allocation never writes. *)
Definition alloc_frame w w' : Prop :=
  w_components w' = w_components w ∧ w_rings w' = w_rings w ∧
  w_payload w' = w_payload w ∧ w_trace_hook w' = w_trace_hook w ∧
  (List.length (w_spurious w') <= List.length (w_spurious w))%nat.

(** From the successful claim of slot [i] on. *)
Lemma wp_allocate_claimed fuel enable i s g token w :
  zipc_component_id_valid allocator = true → a ≠ 0 → is_Some (w_buffers w !! a) →
  region_fits (h_slot_capacity hd) (ZipcRegion offset length) = true →
  0 <= offset → 0 <= length →
  (List.length (w_spurious w) + 1 < fuel)%nat → generator_ok g →
  w_headers w !! p_header pool = Some hd →
  w_generators w !! allocator = Some g →
  w_controls w !! slot_key pool i = Some s →
  s_claim_token s = token →
  wp (allocate_claimed fuel pool i (h_slot_count hd) allocator parent offset length epoch
        hop_limit duration token enable a) (λ r w', alloc_slot enable i s g w r w' ∧ alloc_frame w w') w.
Proof.
  intros Hc Ha Hb Hfits Ho Hl Hf Hok Hh Hg Hs Ht. wp_start w.
  assert (Hid : <[allocator := g]> gens = gens) by by apply insert_id.
  unfold allocate_claimed, count_allocation_failure.
  repeat wp_step. eapply wp_generate_buffer_id; [done|exact Hf|exact Hok|wp_find|wp_find| |].
  - intros l s1 e1 session sequence Hsp Hiss Hr Hs1. wp_norm.
    repeat (wp_step; try unfold abandon_allocation, count_allocation_failure).
    all: try (exfalso; subst; slot_simpl; congruence).
    all: split; [|done].
    1, 3: eapply alloc_done; [frame_map|exact Hiss|subst; view_simpl; reflexivity|frame_map..
                          |subst; done|subst; alloc_slot_ok].
    all: eapply alloc_failed; [frame_map|right; split_and!; [done| |by eauto 10]
      |subst; view_simpl; reflexivity|frame_map..|done|subst; alloc_slot_ok].
    all: by match goal with H : status_is _ _ = false |- _ =>
           apply bool_decide_eq_false in H end.
  - intros l e1 Hsp Hex Hr. wp_norm.
    repeat (wp_step; try unfold abandon_allocation, count_allocation_failure).
    split; [|done].
    eapply alloc_failed; [frame_map|by left|subst; view_simpl; reflexivity|frame_map|..].
    + world_simpl. by rewrite Hid.
    + done.
    + subst; alloc_slot_ok.
Qed.

(** ** The scan *)

(** A slot an allocation can take: free and without a claim. *)
Definition allocatable (s : zipc_slot_control_t) : bool :=
  state_is (s_state s) ZIPC_SLOT_FREE && (s_claim_token s =? 0).
Definition allocatable_at w (i : Z) : bool :=
  match w_controls w !! slot_key pool i with Some s => allocatable s | None => false end.

(** The [n]-th slot the scan looks at. *)
Definition scan_slot (n : Z) : Z :=
  u32 (h_allocation_cursor hd `mod` h_slot_count hd + n) `mod` h_slot_count hd.

Lemma scan_slot_range n : 0 < h_slot_count hd → 0 <= scan_slot n < h_slot_count hd.
Proof. intros Hc. apply Z.mod_pos_bound. lia. Qed.

(** Every slot is looked at, unless the pool is so large that the index
    computation wraps. *)
Lemma scan_covers i :
  0 < h_slot_count hd <= 2147483648 → 0 <= i < h_slot_count hd →
  ∃ n, 0 <= n < h_slot_count hd ∧ scan_slot n = i.
Proof.
  intros Hc Hi. unfold scan_slot.
  pose proof (Z.mod_pos_bound (h_allocation_cursor hd) (h_slot_count hd)) as Hs.
  set (st := h_allocation_cursor hd `mod` h_slot_count hd) in *.
  exists ((i - st) `mod` h_slot_count hd). split; [apply Z.mod_pos_bound; lia|].
  rewrite u32_small by (pose proof (Z.mod_pos_bound (i - st) (h_slot_count hd)); zlia).
  rewrite Zplus_mod_idemp_r. replace (st + (i - st)) with i by lia.
  by apply Z.mod_small.
Qed.

(** Moving [alloc_slot] back over the two compare-exchanges of the claim. *)
Lemma alloc_slot_claim enable i s s1 g w r w' :
  s_generation s1 = s_generation s → (slot_base s → slot_base s1) →
  alloc_slot enable i s1 g (put_slot (slot_key pool i) s1 w) r w' →
  alloc_slot enable i s g w r w'.
Proof.
  intros Hg Hb Hal. destruct w as [hs cs xs rs bs gs hk lg pl sp e].
  inversion Hal as [s' se sq now w2 Hc Hi Habs Hh Hgen Hbuf Hok
                   |s' g' st w2 Hc Hwhy Habs Hh Hgen Hbuf Hok]; subst;
    cbn [put_slot w_controls w_headers w_generators w_buffers] in *;
    rewrite insert_insert_eq in Hc; rewrite Hg in *.
  - eapply alloc_done; eauto.
  - eapply alloc_failed; eauto.
Qed.

(** The outcome of the whole function once its arguments are accepted. *)
Definition alloc_outcome (enable : bool) (g : zipc_buffer_id_generator_t) w
    (r : zipc_status_t) (w' : world E) : Prop :=
  (∃ n s, 0 <= n < h_slot_count hd ∧
     w_controls w !! slot_key pool (scan_slot n) = Some s ∧ allocatable s = true ∧
     (∀ m, 0 <= m < n → allocatable_at w (scan_slot m) = false) ∧
     alloc_slot enable (scan_slot n) s g w r w') ∨
  ((∀ m, 0 <= m < h_slot_count hd → allocatable_at w (scan_slot m) = false) ∧
   r = ZIPC_ERR_NO_BUFFER ∧ w_controls w' = w_controls w ∧
   w_headers w' = <[p_header pool := bump_allocation_failure hd]> (w_headers w) ∧
   w_generators w' = w_generators w ∧ w_buffers w' = w_buffers w).

Lemma wp_buffer_allocate fuel enable owner_epoch cs g w :
  attached pool hd w →
  zipc_component_id_valid allocator = true → a ≠ 0 → is_Some (w_buffers w !! a) →
  (parent = 0 ∨ zipc_buffer_id_valid parent = true) →
  region_fits (h_slot_capacity hd) (ZipcRegion offset length) = true →
  0 <= offset → 0 <= length →
  (List.length (w_spurious w) + 1 < fuel)%nat → generator_ok g →
  w_generators w !! allocator = Some g →
  w_components w !! (p_header pool, allocator) = Some cs →
  epoch = (if negb (owner_epoch =? 0) then owner_epoch else live_epoch (c_lifecycle cs)) →
  wp (buffer_allocate_internal fuel (Some pool) allocator parent offset length owner_epoch
        hop_limit duration enable a)
    (λ r w', alloc_outcome enable g w r w' ∧ alloc_frame w w') w.
Proof.
  intros [Hh Hcount Hslots _] Hc Ha Hb Hp Hfits Ho Hl Hf Hok Hg Hcs Hepoch.
  unfold buffer_allocate_internal. rewrite Hc, (proj2 (Z.eqb_neq a 0) Ha).
  replace (negb (parent =? 0) && negb (zipc_buffer_id_valid parent)) with false
    by (destruct Hp as [->| ->]; [done|by rewrite andb_false_r]).
  psimpl. apply wp_bind. eapply wp_header_read; [exact Hh|]. psimpl.
  unfold region_fits in Hfits. apply negb_true_iff in Hfits. cbn [r_offset r_length] in Hfits.
  rewrite Hfits. apply wp_bind.
  apply (wp_mono _ (λ r w', w' = w ∧ r = if negb (owner_epoch =? 0) then 0
                                     else live_epoch (c_lifecycle cs))).
  { destruct (negb _); [by apply wp_ret|]. by eapply wp_registered_epoch. }
  intros r ? [-> ->]. apply wp_bind. eapply wp_header_read; [exact Hh|].
  rewrite (proj2 (Z.eqb_neq _ 0)) by lia. psimpl.
  replace (if negb (owner_epoch =? 0) then owner_epoch else _) with epoch
    by (rewrite Hepoch; by destruct (negb _)).
  apply wp_bind.
  apply (wp_for_range (λ n w', w' = w ∧ ∀ m, 0 <= m < n → allocatable_at w (scan_slot m) = false)).
  - split; [done|lia].
  - intros n ? Hn [-> Hbefore]. rewrite Z.add_0_l, Z2Nat.id in Hn by lia.
    fold (scan_slot n). assert (Hr := scan_slot_range n ltac:(lia)).
    destruct (Hslots _ Hr) as [s Hs]. apply wp_bind. eapply wp_slot_read; [exact Hs|].
    assert (Hnext : allocatable s = false →
      w = w ∧ ∀ m, 0 <= m < n + 1 → allocatable_at w (scan_slot m) = false).
    { intros Hno. split; [done|]. intros m Hm. destruct (decide (m = n)) as [->|];
        [|apply Hbefore; lia]. unfold allocatable_at. by rewrite Hs. }
    unfold allocatable in Hnext.
    destruct (state_is (s_state s) ZIPC_SLOT_FREE) eqn:Hst; psimpl; [|apply wp_ret; auto].
    apply wp_bind. eapply wp_cas_token; [exact Hs| |].
    2: { intros Ht. psimpl. apply wp_ret, Hnext. by apply Z.eqb_neq. }
    intros s1 -> Ht. psimpl. apply wp_bind.
    eapply wp_cas_state; [apply lookup_insert_eq| |].
    2: { intros Hn'. apply bool_decide_eq_true in Hst. by destruct Hn'. }
    intros s2 -> _. psimpl. rewrite put_slot_twice. apply wp_bind.
    eapply wp_mono.
    { eapply wp_allocate_claimed with (g := g); try done; [..|apply lookup_insert_eq|done].
      unfold region_fits. by apply negb_true_iff. }
    intros st w' [Hal Hfr]. apply wp_ret. split; [|exact Hfr]. left. exists n, s.
    assert (allocatable s = true) by (unfold allocatable; by rewrite Hst, Ht).
    split; [lia|]. split_and!; try done.
    eapply alloc_slot_claim; [| |exact Hal]; [done|]. intros []. split; done.
  - rewrite Z.add_0_l, Z2Nat.id by lia. intros ? [-> Hnone].
    unfold count_allocation_failure. apply wp_bind.
    eapply wp_header_write; [exact Hh|]. apply wp_ret. split; [|done]. right. split_and!; done.
Qed.
End alloc.
