(* ===== verification/Demo.v ===== *)
(** * A small platform and pool to evaluate the model on

    A platform state is a clock that ticks at every reading and the map of
    accessible bytes; it satisfies [PlatformLaws].  [demo_world] holds one pool
    of two 64-byte slots and two registered components, 7 and 9. *)
From S2P Require Import Prelude Types Packing Visited Prog Store Identity Slot SlotRun.
From S2P Require Import SlotSpec.

Record demo := Demo { d_clock : Z; d_access : Z → Z → bool }.

Definition demo_set (m o l : Z) (b : bool) (d : demo) : demo :=
  {| d with d_access := λ m' x,
       if (m' =? m) && (o <=? x) && (x <? o + l) then b else d_access d m' x |}.

#[export] Instance demo_platform : Platform demo := {
  zipc_platform_memory_base _ m := u64 (m * 1048576);
  zipc_platform_memory_size _ _ := 1048576;
  zipc_platform_memory_physical_base _ _ := ZIPC_PHYS_ADDR_INVALID;
  zipc_platform_memory_capabilities _ _ := 271;
  zipc_platform_memory_page_size _ _ := 64;
  zipc_platform_page_size _ := 64;
  zipc_platform_memory_protect_none m o l d := (ZIPC_OK, demo_set m o l false d);
  zipc_platform_memory_protect_rw m o l d := (ZIPC_OK, demo_set m o l true d);
  zipc_platform_time_ns d := (u64 (d_clock d), {| d with d_clock := d_clock d + 1 |});
  zipc_platform_random d :=
    (ZIPC_OK, u32 (d_clock d), {| d with d_clock := d_clock d + 1 |}) }.

#[export] Instance demo_laws : PlatformLaws demo.
Proof.
  refine {| plat_accessible := d_access |}; intros; simpl; auto with zipc; try done.
  split_and!; [apply u64_range|zlia|zlia].
Defined.

Definition demo_env : demo := Demo 5 (λ _ _, true).
Definition demo_pool : zipc_pool_t := ZipcPool 1 2 3 0 0 1000 3145728 2 42.
Definition demo_header : zipc_pool_header_t :=
  ZipcHeader ZIPC_POOL_MAGIC ZIPC_POOL_ABI_VERSION 6248 2 64 64 6248 64 0 0 0 0 0 0.
Definition demo_component : zipc_component_status_t :=
  ZipcComponentStatus (component_lifecycle_make 1 ZIPC_COMPONENT_ACTIVE) 0 0.
(** Every component identifier has its entry. *)
Definition demo_components : gmap (Z * Z) zipc_component_status_t :=
  list_to_map (map (λ c, ((1000, c), if (c =? 7) || (c =? 9)
    then demo_component else zero_component)) (seqZ 0 256)).
Definition demo_free : zipc_slot_control_t :=
  {| zero_slot with s_owner_id := ZIPC_INVALID_COMPONENT_ID;
                    s_next_owner_id := ZIPC_INVALID_COMPONENT_ID |}.
(** A slot owned by component 7 that carries a 16-byte buffer. *)
Definition demo_owned : zipc_slot_control_t :=
  set_state ZIPC_SLOT_OWNED (set_identity_id (zipc_buffer_id_make 7 3 11)
    (init_slot_times 4 0 (init_slot 7 0 8 16 1 0 1 demo_free))).
Definition demo_world_with (s0 s1 : zipc_slot_control_t) : world demo :=
  World {[1000 := demo_header]} demo_components
    (<[(1000, 0) := s0]> {[(1000, 1) := s1]}) ∅
    (<[1 := zero_buffer]> {[2 := zero_buffer]})
    (<[7 := ZipcGenerator 3 12 0]> {[9 := ZipcGenerator 0 0 0]})
    true [] (λ _, 0) [true; false] demo_env.
Definition demo_world : world demo := demo_world_with demo_owned demo_free.

Lemma demo_components_total c :
  zipc_component_id_valid c = true → is_Some (demo_components !! (1000, c)).
Proof.
  intros Hc. apply zipc_component_id_valid_spec in Hc.
  assert (Hall : Forall (λ c, is_Some (demo_components !! (1000, c))) (seqZ 0 256))
    by (apply (bool_decide_eq_true_1 _); vm_compute; reflexivity).
  rewrite Forall_forall in Hall. apply Hall, elem_of_seqZ. lia.
Qed.
Lemma demo_attached s0 s1 : attached demo_pool demo_header (demo_world_with s0 s1).
Proof.
  split; [reflexivity|done| |].
  - change (h_slot_count demo_header) with 2. intros i Hi.
    assert (i = 0 ∨ i = 1) as [-> | ->] by lia; eexists; reflexivity.
  - exact demo_components_total.
Qed.

(** Both slots are well formed. *)
Lemma demo_owned_ok : slot_ok 64 demo_owned.
Proof.
  unfold demo_owned. split.
  - split; slot_simpl; auto with zipc; zlia.
  - slot_simpl. cbn [slot_as]. split; slot_simpl; auto with zipc; [done|].
    unfold region_in. simpl. lia.
Qed.
Lemma demo_free_ok : slot_ok 64 demo_free.
Proof. split; [split; simpl; auto with zipc; zlia|done]. Qed.

(** The same buffer on its way from component 7 to component 9. *)
Definition demo_transfer : zipc_slot_control_t :=
  set_state ZIPC_SLOT_TRANSFER (mark_transfer 9 0 7 demo_owned).
Definition demo_message : zipc_message_t :=
  ZipcMessage (zipc_handle_make 0 1) 42 7 9 1 0.
Definition demo_world_sent : world demo := demo_world_with demo_transfer demo_free.
Lemma demo_transfer_ok : slot_ok 64 demo_transfer.
Proof.
  unfold demo_transfer, demo_owned. split.
  - split; slot_simpl; auto with zipc; zlia.
  - slot_simpl. cbn [slot_as]. split; [|by split; slot_simpl].
    split; slot_simpl; auto with zipc; [done|]. unfold region_in. simpl. lia.
Qed.
Lemma demo_buffer_1 s0 s1 : is_Some (w_buffers (demo_world_with s0 s1) !! 1).
Proof. by eexists. Qed.
Lemma demo_buffer_2 s0 s1 : is_Some (w_buffers (demo_world_with s0 s1) !! 2).
Proof. by eexists. Qed.
Lemma demo_component_7 s0 s1 :
  w_components (demo_world_with s0 s1) !! (p_header demo_pool, 7) = Some demo_component.
Proof. vm_compute. reflexivity. Qed.
Lemma demo_component_9 s0 s1 :
  w_components (demo_world_with s0 s1) !! (p_header demo_pool, 9) = Some demo_component.
Proof. vm_compute. reflexivity. Qed.
