(* ===== verification/Identifiers.v ===== *)
(** * Packed words and identifiers: theorems

    The round trips of the packed words of Packing.v, and the guarantees of the
    identifier generator: termination, validity, freshness. *)
From S2P Require Import Prelude Types Packing Visited Prog Store Identity Slot SlotRun.
From S2P Require Import IdentitySpec SlotSpec Demo.

(** The four packed words carry their fields without loss: a handle gives
    back slot and generation, a buffer identifier its component, session and
    sequence, a lifecycle word its epoch and state, a claim token its kind,
    component and epoch; every 64-bit lifecycle word is the packing of its own
    fields, and no claim token of a real claim is the empty token. *)
Theorem packed_words_roundtrip (i g c se sq e st k : Z) :
  in_u32 i → in_u32 g → in_u8 c → 0 <= se <= ZIPC_SESSION_MASK → in_u32 sq →
  in_u32 e → in_u32 st → 1 <= k <= 255 →
  zipc_handle_slot_id (zipc_handle_make i g) = i ∧
  zipc_handle_generation (zipc_handle_make i g) = g ∧
  zipc_buffer_id_component (zipc_buffer_id_make c se sq) = c ∧
  zipc_buffer_id_session (zipc_buffer_id_make c se sq) = se ∧
  zipc_buffer_id_sequence (zipc_buffer_id_make c se sq) = sq ∧
  component_lifecycle_epoch (component_lifecycle_make e st) = e ∧
  component_lifecycle_state (component_lifecycle_make e st) = st ∧
  claim_token_kind (claim_token_make k c e) = k ∧
  claim_token_component (claim_token_make k c e) = c ∧
  claim_token_epoch (claim_token_make k c e) = e ∧
  claim_token_make k c e ≠ 0 ∧
  (∀ l, in_u64 l →
     component_lifecycle_make (component_lifecycle_epoch l)
       (component_lifecycle_state l) = l).
Proof.
  intros. split_and!; autorewrite with zipc; try done.
  - rewrite zipc_buffer_id_component_div, zipc_buffer_id_make_sum by done. zlia.
  - rewrite zipc_buffer_id_session_div, zipc_buffer_id_make_sum by done. zlia.
  - unfold zipc_buffer_id_sequence. rewrite zipc_buffer_id_make_sum by done. zlia.
  - apply claim_token_make_nonzero; zlia.
  - apply lifecycle_make_split.
Qed.

Lemma packed_words_roundtrip_witness :
  zipc_handle_generation (zipc_handle_make 3 4294967295) = 4294967295.
Proof.
  refine (proj1 (proj2 (packed_words_roundtrip 3 4294967295 7 9 11 1 2 4 _ _ _ _ _ _ _ _)));
    zlia.
Defined.

Section identifiers.
Context {E : Type} `{Platform E}.
Implicit Type w : world E.

Lemma zipc_buffer_id_make_inj c se sq c' se' sq' :
  in_u8 c → 0 <= se <= ZIPC_SESSION_MASK → in_u32 sq →
  in_u8 c' → 0 <= se' <= ZIPC_SESSION_MASK → in_u32 sq' →
  zipc_buffer_id_make c se sq = zipc_buffer_id_make c' se' sq' →
  c = c' ∧ se = se' ∧ sq = sq'.
Proof. intros ??????. rewrite !zipc_buffer_id_make_sum by done. zlia. Qed.

Lemma issued_valid c g se sq :
  zipc_component_id_valid c = true → issues g se sq →
  zipc_buffer_id_valid (zipc_buffer_id_make c se sq) = true.
Proof.
  intros Hc%zipc_component_id_valid_spec (Hse&Hsq&_). unfold session_ok in Hse.
  unfold zipc_buffer_id_valid, zipc_buffer_id_sequence.
  rewrite zipc_buffer_id_component_div, zipc_buffer_id_session_div,
    zipc_buffer_id_make_sum by zlia.
  rewrite !andb_true_iff, !negb_true_iff, !Z.leb_le, !Z.eqb_neq. zlia.
Qed.

Lemma issues_ok g se sq :
  issues g se sq → generator_ok (ZipcGenerator se (sq + 1) 0).
Proof. intros (Hse&Hsq&_). unfold session_ok in Hse. split; simpl; zlia. Qed.

(** [generate_buffer_id] terminates, with fuel for every spurious failure
    of its weak compare-exchanges plus one rotation and one issue, and either
    stores a valid identifier - the next of the session, or sequence 0 of a
    different non-zero session when the old one is exhausted - or reports that
    entropy is unavailable, and then the generator and the slot are exactly as
    before, so that a later call can succeed. *)
Theorem generate_total fuel c k s g w :
  zipc_component_id_valid c = true → generator_ok g →
  w_generators w !! c = Some g → w_controls w !! k = Some s →
  (length (w_spurious w) + 1 < fuel)%nat →
  wp (generate_buffer_id fuel c (Some (λ id, slot_write k (set_identity_id id))))
    (λ r w',
      (r = ZIPC_OK ∧ ∃ se sq, issues g se sq ∧
         zipc_buffer_id_valid (zipc_buffer_id_make c se sq) = true ∧
         w_controls w' = <[k := set_identity_id (zipc_buffer_id_make c se sq) s]>
                           (w_controls w) ∧
         w_generators w' = <[c := ZipcGenerator se (sq + 1) 0]> (w_generators w)) ∨
      (r = ZIPC_ERR_ENTROPY_UNAVAILABLE ∧ exhausted g ∧
         w_controls w' = w_controls w ∧ w_generators w' = w_generators w)) w.
Proof.
  intros Hc Hok Hg Hs Hf. destruct w as [hs cs xs rs bs gs hk lg pl sp e].
  eapply wp_generate_buffer_id; [done|exact Hf|done..| |].
  - intros l s' e' se sq _ Hi _ ->. left. split; [done|]. exists se, sq.
    split_and!; try done. by eapply issued_valid.
  - intros l e' _ Hx _. right. done.
Qed.

(** Identifiers do not repeat from one call to the next: two consecutive
    successful calls for a component, across a rotation or not, store two
    different identifiers. *)
Theorem generate_fresh fuel c k k' s s' g w :
  zipc_component_id_valid c = true → generator_ok g → k ≠ k' →
  w_generators w !! c = Some g →
  w_controls w !! k = Some s → w_controls w !! k' = Some s' →
  (length (w_spurious w) + 1 < fuel)%nat →
  wp (st ← generate_buffer_id fuel c (Some (λ id, slot_write k (set_identity_id id)));
      st' ← generate_buffer_id fuel c (Some (λ id, slot_write k' (set_identity_id id)));
      mret (st, st'))
    (λ r w', r = (ZIPC_OK, ZIPC_OK) →
       ∃ t t', w_controls w' !! k = Some t ∧ w_controls w' !! k' = Some t' ∧
         id_id (s_identity t) ≠ id_id (s_identity t')) w.
Proof.
  intros Hc Hok Hk Hg Hs Hs' Hf. destruct w as [hs cs xs rs bs gs hk lg pl sp e].
  apply wp_bind. eapply wp_generate_buffer_id; [done|exact Hf|done..| |].
  2: { intros l e' Hl _ _. apply wp_bind.
       eapply wp_generate_buffer_id; [done| |done|exact Hg|exact Hs'|..];
         [simpl in *; lia|by intros; apply wp_ret..]. }
  intros l s1 e1 se sq Hl Hi _ ->. apply wp_bind.
  eapply wp_generate_buffer_id; [done| |by eapply issues_ok|apply lookup_insert_eq| | |].
  - simpl in *. lia.
  - simpl. rewrite lookup_insert_ne by done. exact Hs'.
  - intros l2 s2 e2 se2 sq2 _ Hi2 _ ->. apply wp_ret. intros _. simpl.
    eexists _, _. split_and!; [rewrite lookup_insert_ne by done; apply lookup_insert_eq
      |apply lookup_insert_eq|]. simpl.
    apply zipc_component_id_valid_spec in Hc. destruct Hi as (Hse&Hsq&_).
    destruct Hi2 as (Hse2&Hsq2&Hcase). unfold session_ok in *.
    intros Heq. apply zipc_buffer_id_make_inj in Heq; [|zlia..].
    simpl in Hcase. destruct Hcase as [(_&?&?)|(_&?&?)]; lia.
  - intros. by apply wp_ret.
Qed.
End identifiers.

Lemma generate_total_witness :
  wp (generate_buffer_id 4 9 (Some (λ id, slot_write (1000, 1) (set_identity_id id))))
    (λ r _, r = ZIPC_OK ∨ r = ZIPC_ERR_ENTROPY_UNAVAILABLE) demo_world.
Proof.
  eapply wp_mono; [apply (generate_total 4 9 (1000, 1) demo_free (ZipcGenerator 0 0 0)
    demo_world eq_refl); [split; simpl; zlia|done|done|simpl; lia]|].
  intros r w' [[-> _]|[-> _]]; auto.
Defined.

Lemma generate_fresh_witness :
  wp (st ← generate_buffer_id 4 7 (Some (λ id, slot_write (1000, 0) (set_identity_id id)));
      st' ← generate_buffer_id 4 7 (Some (λ id, slot_write (1000, 1) (set_identity_id id)));
      mret (st, st'))
    (λ r w', r = (ZIPC_OK, ZIPC_OK) →
       ∃ t t', w_controls w' !! (1000, 0) = Some t ∧ w_controls w' !! (1000, 1) = Some t' ∧
         id_id (s_identity t) ≠ id_id (s_identity t')) demo_world.
Proof.
  apply (generate_fresh 4 7 (1000, 0) (1000, 1) demo_owned demo_free (ZipcGenerator 3 12 0)
    demo_world eq_refl); [split; simpl; zlia|done|done|done|done|simpl; lia].
Defined.
