(* ===== verification/Protocol.v ===== *)
(** * The slot protocol: theorems

    The refinement of the ownership contract by the functions of Slot.v, and
    what follows from it for clients: a buffer is handed over whole, a message
    is received once, a handle dies with its buffer, and under strict ownership
    a sender loses access. *)
From S2P Require Import Prelude Types Packing Visited Prog Store Identity Slot SlotRun.
From S2P Require Import IdentitySpec SlotSpec Alloc Demo.

Section protocol.
Context {E : Type} `{Platform E}.
Implicit Type w : world E.

(** An operation refused before it looks at a slot. *)
Definition refused (pool : zipc_pool_t) (hd : zipc_pool_header_t) w w' : Prop :=
  w_controls w' = w_controls w ∧
  w_headers w' = <[p_header pool := hd]> (w_headers w) ∧
  w_buffers w' = w_buffers w ∧ same_rest w w'.

Lemma slot_of_handle pool hd w handle :
  attached pool hd w → zipc_handle_slot_id handle < h_slot_count hd →
  is_Some (w_controls w !! slot_key pool (zipc_handle_slot_id handle)).
Proof.
  intros Hat Hi. apply (at_slots _ _ _ Hat). split; [|done].
  rewrite zipc_handle_slot_id_mod. by apply Z.mod_pos_bound.
Qed.

(** Handles and messages that name no slot of the pool. *)
Lemma send_outside pool hd handle c next link m w :
  attached pool hd w → zipc_component_id_valid c = true → zipc_component_id_valid next = true →
  h_slot_count hd <= zipc_handle_slot_id handle →
  wp (buffer_prepare_transfer_internal (Some pool) handle c next link (Some m))
    (λ r w', r = (ZIPC_ERR_INVALID_HANDLE, m) ∧ refused pool (count_protocol_error hd) w w') w.
Proof.
  intros [Hh _ _ _] Hc Hn Hi%Z.leb_le. wp_start w. unfold buffer_prepare_transfer_internal.
  rewrite Hc, Hn. psimpl. repeat (wp_step; rewrite ?Hi; psimpl). done.
Qed.

Lemma claim_outside pool hd m receiver a w :
  attached pool hd w → zipc_component_id_valid receiver = true → a ≠ 0 →
  m_pool_id m ≠ p_pool_id pool ∨ m_destination_component m ≠ receiver ∨
    h_slot_count hd <= zipc_handle_slot_id (m_handle m) →
  wp (zipc_buffer_claim (Some pool) (Some m) receiver a)
    (λ r w', r = (if negb (m_pool_id m =? p_pool_id pool) then ZIPC_ERR_INVALID_HANDLE
                  else if negb (m_destination_component m =? receiver)
                  then ZIPC_ERR_INVALID_RECEIVER else ZIPC_ERR_INVALID_HANDLE) ∧
       refused pool (count_protocol_error hd) w w') w.
Proof.
  intros [Hh _ _ _] Hv Ha Hout. wp_start w. unfold zipc_buffer_claim.
  rewrite Hv, (proj2 (Z.eqb_neq a 0) Ha). psimpl.
  destruct (Z.eqb_spec (m_pool_id m) (p_pool_id pool)) as [Hp|Hp]; psimpl;
    [destruct (Z.eqb_spec (m_destination_component m) receiver) as [Hd|Hd]; psimpl|].
  - destruct Hout as [?|[?|Hi%Z.leb_le]]; [done..|].
    repeat (rewrite ?Hi; psimpl; wp_step); done.
  - repeat wp_step; done.
  - repeat wp_step; done.
Qed.

Lemma release_outside pool hd handle c w :
  attached pool hd w → zipc_component_id_valid c = true →
  h_slot_count hd <= zipc_handle_slot_id handle →
  wp (zipc_pool_buffer_release (Some pool) handle c)
    (λ r w', r = ZIPC_ERR_INVALID_HANDLE ∧ refused pool hd w w') w.
Proof.
  intros [Hh _ _ _] Hc Hi%Z.leb_le. wp_start w. unfold zipc_pool_buffer_release.
  rewrite Hc. psimpl. repeat (wp_step; rewrite ?Hi; psimpl).
  split; [done|]. split_and!; try done. symmetry. by apply insert_id.
Qed.

(** C1. [buffer_prepare_transfer_internal] implements the send of the
    ownership contract on every branch: a handle outside the pool is refused,
    otherwise the slot, the status, the error counter and the message are those
    of [spec_send] for the sender's current epoch; nothing else in shared or
    local memory changes, no dereference faults, and a well-formed slot stays
    well formed. *)
Theorem prepare_transfer_refines pool hd handle c next link m w :
  attached pool hd w →
  zipc_component_id_valid c = true → zipc_component_id_valid next = true →
  let i := zipc_handle_slot_id handle in
  wp (buffer_prepare_transfer_internal (Some pool) handle c next link (Some m))
    (λ r w',
      if h_slot_count hd <=? i
      then r = (ZIPC_ERR_INVALID_HANDLE, m) ∧ refused pool (count_protocol_error hd) w w'
      else ∃ s cs, w_controls w !! slot_key pool i = Some s ∧
        w_components w !! (p_header pool, c) = Some cs ∧
        let t := zipc_platform_time_ns (w_env w) in
        let o := spec_send t.1 (protect_result pool hd i false t.2).1
                   (zipc_handle_generation handle) c (live_epoch (c_lifecycle cs))
                   next link (abs_slot s) in
        implements pool (counted (o_error o) hd) i s o w r.1 w' ∧
        w_buffers w' = w_buffers w ∧
        r.2 = (if status_is r.1 ZIPC_OK
               then ZipcMessage handle (p_pool_id pool) c next
                      (u32 (s_transfer_sequence s + 1)) 0
               else m)) w.
Proof.
  intros Hat Hc Hn i. destruct (h_slot_count hd <=? i) eqn:Hi.
  - apply send_outside; auto. by apply Z.leb_le.
  - apply Z.leb_gt in Hi. destruct (slot_of_handle _ _ _ _ Hat Hi) as [s Hs].
    destruct (at_components _ _ _ Hat c Hc) as [cs Hcs].
    eapply wp_mono; [by eapply (wp_prepare_transfer pool hd s cs)|].
    intros r w' (Him&Hb&Hm&_). exists s, cs. split_and!; done.
Qed.

(** C2. [zipc_buffer_claim] implements the receive of the contract on every
    branch: a message of another pool, for another receiver or with a handle
    outside the pool is refused and counted; otherwise slot, status and error
    counter are those of [spec_claim], the caller's buffer object is the view of
    the claimed slot exactly on success, and nothing else changes. *)
Theorem claim_refines pool hd m receiver a w :
  attached pool hd w → zipc_component_id_valid receiver = true →
  a ≠ 0 → is_Some (w_buffers w !! a) →
  let i := zipc_handle_slot_id (m_handle m) in
  (∀ s, w_controls w !! slot_key pool i = Some s → slot_ok (h_slot_capacity hd) s) →
  wp (zipc_buffer_claim (Some pool) (Some m) receiver a)
    (λ r w',
      if negb (m_pool_id m =? p_pool_id pool)
      then r = ZIPC_ERR_INVALID_HANDLE ∧ refused pool (count_protocol_error hd) w w'
      else if negb (m_destination_component m =? receiver)
      then r = ZIPC_ERR_INVALID_RECEIVER ∧ refused pool (count_protocol_error hd) w w'
      else if h_slot_count hd <=? i
      then r = ZIPC_ERR_INVALID_HANDLE ∧ refused pool (count_protocol_error hd) w w'
      else ∃ s cs, w_controls w !! slot_key pool i = Some s ∧
        w_components w !! (p_header pool, receiver) = Some cs ∧
        let t := zipc_platform_time_ns (w_env w) in
        let o := spec_claim t.1 (protect_result pool hd i true t.2).1
                   (h_slot_capacity hd) m receiver (live_epoch (c_lifecycle cs))
                   (abs_slot s) in
        implements pool (counted (o_error o) hd) i s o w r w' ∧
        if status_is r ZIPC_OK
        then w_buffers w' = <[a := view_of pool hd i (m_handle m) (take_ownership
               receiver (live_epoch (c_lifecycle cs)) t.1 s)]> (w_buffers w)
        else w_buffers w' = w_buffers w ∨
             w_buffers w' = <[a := zero_buffer]> (w_buffers w)) w.
Proof.
  intros Hat Hv Ha Hb i Hok.
  destruct (negb (m_pool_id m =? p_pool_id pool)) eqn:Hp;
    [|destruct (negb (m_destination_component m =? receiver)) eqn:Hd;
      [|destruct (h_slot_count hd <=? i) eqn:Hi]].
  1-3: eapply wp_mono; [apply (claim_outside _ hd); auto; bool_to_prop; auto|];
    intros r w'; by rewrite Hp, ?Hd.
  apply Z.leb_gt in Hi. destruct (slot_of_handle _ _ _ _ Hat Hi) as [s Hs].
  destruct (at_components _ _ _ Hat receiver Hv) as [cs Hcs].
  eapply wp_mono; [eapply (wp_claim pool hd s cs); bool_to_prop; eauto|].
  intros r w' (Him&_&Hbuf). exists s, cs. split_and!; done.
Qed.

(** C3. [zipc_pool_buffer_release] implements the release of the contract on
    every branch, errors included; only a completed release bumps the release
    counter, and no branch counts a protocol error. *)
Theorem release_refines pool hd handle c w :
  attached pool hd w → zipc_component_id_valid c = true →
  let i := zipc_handle_slot_id handle in
  wp (zipc_pool_buffer_release (Some pool) handle c)
    (λ r w',
      if h_slot_count hd <=? i
      then r = ZIPC_ERR_INVALID_HANDLE ∧ refused pool hd w w'
      else ∃ s cs, w_controls w !! slot_key pool i = Some s ∧
        w_components w !! (p_header pool, c) = Some cs ∧
        implements pool (if status_is r ZIPC_OK then bump_release hd else hd) i s
          (spec_release (protect_result pool hd i false (w_env w)).1
             (zipc_handle_generation handle) c (live_epoch (c_lifecycle cs)) (abs_slot s))
          w r w' ∧
        w_buffers w' = w_buffers w) w.
Proof.
  intros Hat Hc i. destruct (h_slot_count hd <=? i) eqn:Hi.
  - apply release_outside; auto. by apply Z.leb_le.
  - apply Z.leb_gt in Hi. destruct (slot_of_handle _ _ _ _ Hat Hi) as [s Hs].
    destruct (at_components _ _ _ Hat c Hc) as [cs Hcs].
    eapply wp_mono; [by eapply (wp_release pool hd s cs)|].
    intros r w' (Him&Hb&_). exists s, cs. split_and!; done.
Qed.


(** ** Consequences for clients *)

Lemma attached_effect pool hd hd' i s s' w w' :
  attached pool hd w → w_controls w !! slot_key pool i = Some s →
  slot_effect pool i s' hd' w w' → h_slot_count hd' = h_slot_count hd →
  attached pool hd' w'.
Proof.
  intros [Hh Hc Hs Hcs] Hi (Hctl&Hhd&Hrest) Hcount. split.
  - rewrite Hhd. apply lookup_insert_eq.
  - by rewrite Hcount.
  - intros j Hj. rewrite Hctl. rewrite Hcount in Hj.
    apply lookup_insert_is_Some'. right. by apply Hs.
  - intros c Hc'. rewrite (sr_components _ _ Hrest). by apply Hcs.
Qed.

Lemma spec_send_ok now prot g c epoch next link s :
  s_state s = ZIPC_SLOT_OWNED → s_claim_token s = 0 → s_generation s = g →
  s_owner_id s = c → s_owner_epoch s = epoch →
  info_late now (info_of s) = false → info_exhausted (info_of s) = false → prot = ZIPC_OK →
  spec_send now prot g c epoch next link (abs_slot s) =
    Outcome ZIPC_OK false
      (SlotView (InTransfer c epoch next link (next_sequence (info_of s))) 0).
Proof.
  intros Hst Ht <- <- <- Hl Hx ->. unfold spec_send, abs_slot. rewrite Hst. simpl.
  by rewrite !Z.eqb_refl, Ht, Hl, Hx.
Qed.

Lemma spec_claim_ok now capacity m c e receiver epoch link b :
  bi_generation b = zipc_handle_generation (m_handle m) → m_source_component m = c →
  bi_sequence b = m_transfer_sequence m → info_late now b = false →
  info_exhausted b = false → region_fits capacity (bi_region b) = true →
  spec_claim now ZIPC_OK capacity m receiver epoch
      (SlotView (InTransfer c e receiver link b) 0) =
    Outcome ZIPC_OK false (SlotView (Owned receiver epoch (one_more_hop receiver b)) 0).
Proof.
  intros Hg <- Hsq Hl Hx Hr. unfold spec_claim. simpl.
  by rewrite Hg, Hsq, !Z.eqb_refl, Hl, Hx, Hr.
Qed.

Lemma region_in_fits capacity r : region_in capacity r → region_fits capacity r = true.
Proof.
  intros (?&?&?). unfold region_fits. apply negb_true_iff, orb_false_iff.
  rewrite !Z.ltb_ge. lia.
Qed.

(** A completed handover: when the owner of a well-formed buffer sends it
    and the addressee claims the message, both calls succeed and the addressee
    owns the same buffer (identity, region, payload bytes, generation), one
    transfer sequence and one hop further and with the addressee in its visited
    set; the sender's handle is the receiver's, and no counter moves. *)
Theorem handover pool hd s handle c next link m0 a cs csn w :
  let i := zipc_handle_slot_id handle in
  attached pool hd w → i < h_slot_count hd →
  w_controls w !! slot_key pool i = Some s → slot_ok (h_slot_capacity hd) s →
  w_components w !! (p_header pool, c) = Some cs →
  w_components w !! (p_header pool, next) = Some csn →
  zipc_component_id_valid c = true → zipc_component_id_valid next = true →
  a ≠ 0 → is_Some (w_buffers w !! a) →
  s_state s = ZIPC_SLOT_OWNED → s_claim_token s = 0 →
  s_generation s = zipc_handle_generation handle →
  s_owner_id s = c → s_owner_epoch s = live_epoch (c_lifecycle cs) →
  (∀ e, info_late (zipc_platform_time_ns e).1 (info_of s) = false) →
  info_exhausted (info_of s) = false →
  (∀ rw e, (protect_result pool hd i rw e).1 = ZIPC_OK) →
  wp ('(st, m) ← buffer_prepare_transfer_internal (Some pool) handle c next link (Some m0);
      st' ← zipc_buffer_claim (Some pool) (Some m) next a; mret (st, st'))
    (λ r w', r = (ZIPC_OK, ZIPC_OK) ∧ w_payload w' = w_payload w ∧
       w_headers w' = w_headers w ∧
       ∃ s' v, w_controls w' = <[slot_key pool i := s']> (w_controls w) ∧
         slot_ok (h_slot_capacity hd) s' ∧
         abs_slot s' = SlotView (Owned next (live_epoch (c_lifecycle csn))
           (one_more_hop next (next_sequence (info_of s)))) 0 ∧
         w_buffers w' = <[a := v]> (w_buffers w) ∧ b_handle v = handle ∧
         b_slot_id v = i ∧ b_owner v = next ∧ b_length v = r_length (s_region s)) w.
Proof.
  intros i Hat Hi Hs Hok Hcs Hcsn Hc Hn Ha Hb Hst Ht Hg Ho He Hlate Hx Hprot.
  apply wp_bind. eapply wp_mono; [by eapply (wp_prepare_transfer pool hd s cs)|].
  intros [st m] w1 ((s1&Heff&Hst1&Habs&Hok1)&Hbufs&Hm&_). cbn [fst snd] in *.
  rewrite spec_send_ok in * by done. cbn [o_error o_status o_view counted] in *.
  specialize (Hok1 Hok). subst st. cbn in Hm.
  assert (Hmh : m_handle m = handle) by by subst m.
  pose proof (attached_effect _ _ _ _ _ _ _ _ Hat Hs Heff eq_refl) as Hat1.
  destruct Heff as (Hctl&Hhd&[Hcomp _ _ Hpay _ _]).
  assert (Hs1 : w_controls w1 !! slot_key pool i = Some s1)
    by (rewrite Hctl; apply lookup_insert_eq).
  apply wp_bind. eapply wp_mono.
  { eapply (wp_claim pool hd s1 csn); rewrite ?Hmh, ?Hcomp, ?Hbufs; try done; by subst m. }
  rewrite Hmh. fold i.
  rewrite Habs, Hprot, spec_claim_ok
    by (rewrite ?Hmh; first [ done | by subst m | apply Hlate | apply region_in_fits;
        by destruct (slot_ok_owned _ _ Hok Hst) ]).
  intros st2 w2 ((s2&(Hctl2&Hhd2&[_ _ _ Hpay2 _ _])&Hst2&Habs2&Hok2)&_&Hbuf2). apply wp_ret.
  cbn [o_error o_status o_view counted m_handle] in *. subst st2. cbn in Hbuf2.
  split; [done|]. split; [congruence|].
  split; [rewrite Hhd2, Hhd, insert_insert_eq; by apply insert_id, (at_header _ _ _ Hat)|].
  eexists s2, _. split_and!; [by rewrite Hctl2, Hctl, insert_insert_eq|auto|done
    |by rewrite Hbuf2, Hbufs|done..|].
  simpl. assert (Hr : s_region s1 = s_region s); [|by rewrite Hr].
  unfold abs_slot in Habs. destruct (s_state s1); simplify_eq/=. done.
Qed.

(** Views from handles: the slot is only read. *)
Lemma wp_from_handle pool hd s cs handle c a w :
  let i := zipc_handle_slot_id handle in
  attached pool hd w → i < h_slot_count hd →
  w_controls w !! slot_key pool i = Some s →
  w_components w !! (p_header pool, c) = Some cs →
  zipc_component_id_valid c = true → a ≠ 0 → is_Some (w_buffers w !! a) →
  wp (zipc_buffer_from_handle (Some pool) handle c a)
    (λ r w', w_controls w' = w_controls w ∧ w_headers w' = w_headers w ∧
       (r = ZIPC_OK → s_generation s = zipc_handle_generation handle ∧
          s_state s = ZIPC_SLOT_OWNED ∧ s_owner_id s = c ∧
          s_owner_epoch s = live_epoch (c_lifecycle cs) ∧
          w_buffers w' = <[a := view_of pool hd i handle s]> (w_buffers w)) ∧
       (r ≠ ZIPC_OK → w_buffers w' = <[a := zero_buffer]> (w_buffers w))) w.
Proof.
  intros i [Hh _ _ _] Hi Hs Hc Hv Ha Hb. subst i. wp_start w.
  unfold zipc_buffer_from_handle. rewrite Hv, (proj2 (Z.eqb_neq a 0) Ha).
  rewrite <- Z.leb_gt in Hi. psimpl. repeat (wp_step; rewrite ?Hi; psimpl).
  all: test_clean; bool_to_prop; split_and!; intros; subst; try done.
Qed.

(** C9. A handle dies with its buffer: when the slot's generation is not the
    handle's (the slot was reallocated, or adopted by a restart), no operation
    that names the handle succeeds - not send, not release, not a claim of a
    message carrying it, not a view - and none of them changes who owns the
    slot.  Every allocation moves the slot to another generation. *)
Theorem stale_handle_rejected pool hd s handle c next link m a cs w :
  let i := zipc_handle_slot_id handle in
  attached pool hd w → i < h_slot_count hd →
  w_controls w !! slot_key pool i = Some s → slot_ok (h_slot_capacity hd) s →
  w_components w !! (p_header pool, c) = Some cs →
  zipc_component_id_valid c = true → zipc_component_id_valid next = true →
  a ≠ 0 → is_Some (w_buffers w !! a) →
  m_handle m = handle → m_pool_id m = p_pool_id pool → m_destination_component m = c →
  s_generation s ≠ zipc_handle_generation handle →
  let keeps r w' := r ≠ ZIPC_OK ∧
    ∃ s', w_controls w' = <[slot_key pool i := s']> (w_controls w) ∧
      sv_owner (abs_slot s') = sv_owner (abs_slot s) in
  wp (buffer_prepare_transfer_internal (Some pool) handle c next link (Some m))
    (λ r w', keeps r.1 w') w ∧
  wp (zipc_pool_buffer_release (Some pool) handle c) keeps w ∧
  wp (zipc_buffer_claim (Some pool) (Some m) c a) keeps w ∧
  wp (zipc_buffer_from_handle (Some pool) handle c a) keeps w ∧
  next_generation (s_generation s) ≠ s_generation s.
Proof.
  intros i Hat Hi Hs Hok Hcs Hc Hn Ha Hb Hm Hp Hd Hgen keeps.
  assert (Hg : (s_generation s =? zipc_handle_generation handle) = false) by by apply Z.eqb_neq.
  split_and!.
  - eapply wp_mono; [by eapply (wp_prepare_transfer pool hd s cs)|].
    intros r w' ((s'&(Hctl&_)&Hst&Habs&_)&_). unfold keeps. rewrite Hst. split.
    + unfold spec_send, abs_slot, info_of. destruct (s_state s); simpl; rewrite ?Hg; done.
    + exists s'. split; [done|]. rewrite Habs. unfold spec_send, abs_slot, info_of.
      destruct (s_state s); simpl; rewrite ?Hg; done.
  - eapply wp_mono; [by eapply (wp_release pool hd s cs)|].
    intros r w' ((s'&(Hctl&_)&Hst&Habs&_)&_). unfold keeps. rewrite Hst.
    unfold spec_release in *. rewrite view_generation_abs, Hg in *. cbn [negb] in *.
    split; [done|]. exists s'. split; [done|]. by rewrite Habs.
  - eapply wp_mono; [eapply (wp_claim pool hd s cs); rewrite ?Hm; done|].
    intros r w' ((s'&(Hctl&_)&Hst&Habs&_)&_). unfold keeps. rewrite Hm in *. rewrite Hst.
    split; [|exists s'; split; [done|]; rewrite Habs];
      unfold spec_claim, abs_slot, info_of; rewrite Hm;
      destruct (s_state s); simpl; rewrite ?Hg; simpl; by try destruct (negb _).
  - eapply wp_mono; [by eapply (wp_from_handle pool hd s cs)|].
    intros r w' (Hctl&_&Hyes&_). split.
    + intros ->. by destruct Hyes.
    + exists s. split; [|done]. rewrite Hctl. symmetry. by apply insert_id.
  - apply next_generation_fresh. by destruct Hok as [[]].
Qed.

(** A message is received at most once: claiming a message again after a
    claim of it succeeded is refused with INVALID_STATE, whoever still holds a
    copy of the message, and leaves the new owner in place. *)
Theorem claim_once pool hd s m receiver a a' cs w :
  let i := zipc_handle_slot_id (m_handle m) in
  attached pool hd w → i < h_slot_count hd →
  w_controls w !! slot_key pool i = Some s → slot_ok (h_slot_capacity hd) s →
  w_components w !! (p_header pool, receiver) = Some cs →
  zipc_component_id_valid receiver = true →
  a ≠ 0 → is_Some (w_buffers w !! a) → a' ≠ 0 → is_Some (w_buffers w !! a') →
  m_pool_id m = p_pool_id pool → m_destination_component m = receiver →
  wp (st ← zipc_buffer_claim (Some pool) (Some m) receiver a;
      st' ← zipc_buffer_claim (Some pool) (Some m) receiver a'; mret (st, st'))
    (λ r w', r.1 = ZIPC_OK → r.2 = ZIPC_ERR_INVALID_STATE ∧
       ∃ s' b, w_controls w' = <[slot_key pool i := s']> (w_controls w) ∧
         sv_owner (abs_slot s') = Owned receiver (live_epoch (c_lifecycle cs)) b) w.
Proof.
  intros i Hat Hi Hs Hok Hcs Hv Ha Hb Ha' Hb' Hp Hd.
  apply wp_bind. eapply wp_mono; [by eapply (wp_claim pool hd s cs)|].
  set (t := zipc_platform_time_ns (w_env w)). set (o := spec_claim _ _ _ _ _ _ _).
  intros st w1 ((s1&Heff&Hst&Habs&Hok1)&_&Hbuf).
  pose proof (attached_effect _ _ _ _ _ _ _ _ Hat Hs Heff
    ltac:(by destruct (o_error o))) as Hat1.
  assert (Hcap : h_slot_capacity (counted (o_error o) hd) = h_slot_capacity hd)
    by by destruct (o_error o).
  destruct Heff as (Hctl&Hhd&[Hcomp _ _ _ _ _]). fold i in Hctl.
  assert (Hs1 : w_controls w1 !! slot_key pool i = Some s1)
    by (rewrite Hctl; apply lookup_insert_eq).
  assert (Hbufs : is_Some (w_buffers w1 !! a')).
  { destruct (status_is st ZIPC_OK); [|destruct Hbuf as [Hbuf|Hbuf]]; rewrite Hbuf;
      rewrite ?lookup_insert_is_Some'; auto. }
  apply wp_bind. eapply wp_mono.
  { eapply (wp_claim pool _ s1 cs); rewrite ?Hcomp; try done.
    - fold i. by destruct (o_error o).
    - apply Hok1. by rewrite Hcap. }
  intros st' w2 ((s2&(Hctl2&_)&Hst2&Habs2&_)&_). apply wp_ret. cbn [fst snd]. intros ->.
  assert (Hown : ∃ b, sv_owner (abs_slot s1) = Owned receiver (live_epoch (c_lifecycle cs)) b).
  { rewrite Habs. revert Hst. unfold o, spec_claim.
    destruct (sv_owner (abs_slot s)); try done.
    repeat case_match; simpl; intros Hst; try discriminate Hst; eauto; by rewrite <- Hst in *. }
  destruct Hown as [b Hown]. unfold spec_claim in Hst2, Habs2. rewrite Hown in Hst2, Habs2.
  split; [done|]. exists s2, b. split; [by rewrite Hctl2, Hctl, insert_insert_eq|].
  rewrite Habs2. exact Hown.
Qed.
(** ** Strict ownership *)

Lemma clock_only_accessible `{!PlatformLaws E} (e e' : E) :
  clock_only e e' → plat_accessible e' = plat_accessible e.
Proof.
  induction 1 as [|e1 e2 e3 -> _ IH]; [done|]. rewrite IH. apply plat_time_frame.
Qed.

Lemma protect_accessible `{!PlatformLaws E} pool hd i rw (e : E) x :
  Z.land (p_flags pool) ZIPC_POOL_F_STRICT_OWNERSHIP ≠ 0 → i < h_slot_count hd →
  (protect_result pool hd i rw e).1 = ZIPC_OK →
  let offset := u64 (p_payload_offset pool + u64 (i * h_slot_stride hd)) in
  offset <= x < offset + h_slot_capacity hd →
  plat_accessible (protect_result pool hd i rw e).2 (p_payload_memory pool) x = rw.
Proof.
  intros Hf Hi Hok offset Hx. unfold protect_result in *.
  rewrite (proj2 (Z.eqb_neq _ _) Hf) in *. rewrite (proj2 (Z.leb_gt _ _) Hi) in *.
  fold offset in Hok |- *.
  assert (0 <= offset) by apply u64_range.
  destruct rw; [rewrite plat_protect_rw_spec by (done || lia)
               |rewrite plat_protect_none_spec by (done || lia)];
    by rewrite Z.eqb_refl, (proj2 (Z.leb_le _ _)), (proj2 (Z.ltb_lt _ _)) by lia.
Qed.

End protocol.

Lemma prepare_transfer_refines_witness :
  wp (buffer_prepare_transfer_internal (Some demo_pool) (zipc_handle_make 0 1) 7 9 0
        (Some zero_message)) (λ r _, r.1 = ZIPC_OK) demo_world.
Proof.
  eapply wp_mono; [apply (prepare_transfer_refines demo_pool demo_header
    (zipc_handle_make 0 1) 7 9 0 zero_message demo_world (demo_attached _ _)
    eq_refl eq_refl)|].
  intros r w' (s&cs&Hs&Hc&(s'&_&Hst&_)&_).
  vm_compute in Hs. vm_compute in Hc. simplify_eq. rewrite Hst. vm_compute. reflexivity.
Defined.


Lemma claim_refines_witness :
  wp (zipc_buffer_claim (Some demo_pool) (Some demo_message) 9 1)
    (λ r _, r = ZIPC_OK) demo_world_sent.
Proof.
  eapply wp_mono; [apply (claim_refines demo_pool demo_header demo_message 9 1
    demo_world_sent (demo_attached _ _) eq_refl ltac:(done) (demo_buffer_1 _ _))|].
  - intros s Hs. vm_compute in Hs. simplify_eq. exact demo_transfer_ok.
  - intros r w' (s&cs&Hs&Hc&(s'&_&Hst&_)&_).
    vm_compute in Hs. vm_compute in Hc. rewrite Hst. simplify_eq. vm_compute. reflexivity.
Defined.

Lemma release_refines_witness :
  wp (zipc_pool_buffer_release (Some demo_pool) (zipc_handle_make 0 1) 7)
    (λ r _, r = ZIPC_OK) demo_world.
Proof.
  eapply wp_mono; [apply (release_refines demo_pool demo_header (zipc_handle_make 0 1) 7
    demo_world (demo_attached _ _) eq_refl)|].
  intros r w' (s&cs&Hs&Hc&(s'&_&Hst&_)&_).
  vm_compute in Hs. vm_compute in Hc. rewrite Hst. simplify_eq. vm_compute. reflexivity.
Defined.


Lemma handover_witness :
  wp ('(st, m) ← buffer_prepare_transfer_internal (Some demo_pool) (zipc_handle_make 0 1)
                   7 9 0 (Some zero_message);
      st' ← zipc_buffer_claim (Some demo_pool) (Some m) 9 1; mret (st, st'))
    (λ r _, r = (ZIPC_OK, ZIPC_OK)) demo_world.
Proof.
  eapply wp_mono; [apply (handover demo_pool demo_header demo_owned (zipc_handle_make 0 1)
    7 9 0 zero_message 1 demo_component demo_component demo_world (demo_attached _ _)
    ltac:(done) eq_refl demo_owned_ok (demo_component_7 _ _) (demo_component_9 _ _)
    eq_refl eq_refl ltac:(done) (demo_buffer_1 _ _) eq_refl eq_refl eq_refl eq_refl eq_refl)|].
  - intros e. reflexivity.
  - reflexivity.
  - intros [] e; reflexivity.
  - intros r w' [-> _]. reflexivity.
Defined.

Lemma stale_handle_rejected_witness :
  wp (zipc_pool_buffer_release (Some demo_pool) (zipc_handle_make 0 6) 9)
    (λ r _, r ≠ ZIPC_OK) demo_world.
Proof.
  eapply wp_mono; [apply (stale_handle_rejected demo_pool demo_header demo_owned
    (zipc_handle_make 0 6) 9 7 0 (ZipcMessage (zipc_handle_make 0 6) 42 7 9 1 0) 1
    demo_component demo_world (demo_attached _ _) ltac:(done) eq_refl demo_owned_ok
    (demo_component_9 _ _) eq_refl eq_refl ltac:(done) (demo_buffer_1 _ _)
    eq_refl eq_refl eq_refl ltac:(vm_compute; discriminate))|].
  by intros r w' [Hr _].
Defined.

Lemma claim_once_witness :
  wp (st ← zipc_buffer_claim (Some demo_pool) (Some demo_message) 9 1;
      st' ← zipc_buffer_claim (Some demo_pool) (Some demo_message) 9 2; mret (st, st'))
    (λ r w', r.1 = ZIPC_OK → r.2 = ZIPC_ERR_INVALID_STATE) demo_world_sent.
Proof.
  eapply wp_mono; [apply (claim_once demo_pool demo_header demo_transfer demo_message 9 1 2
    demo_component demo_world_sent (demo_attached _ _) ltac:(done) eq_refl demo_transfer_ok
    (demo_component_9 _ _) eq_refl ltac:(done) (demo_buffer_1 _ _) ltac:(done)
    (demo_buffer_2 _ _) eq_refl eq_refl)|].
  intros r w' Hr Hok. by apply Hr.
Defined.

