(* ===== verification/Lifecycle.v ===== *)
(** * Component lifecycles (src/core/zipc.c)

    Registration, heartbeat, withdrawal, snapshot and the two ends of a
    restart.  A component's lifecycle is one packed word changed only by
    compare-exchange; the weak ones retry in a loop that carries the value the
    last attempt observed. *)
From S2P Require Import Prelude Types Packing Visited Prog Store Identity Slot SlotRun.
From S2P Require Import IdentitySpec SlotSpec Demo.

Section lifecycle.
Context {E : Type} `{Platform E}.

(** [for (;;)] around a weak compare-exchange of [entry->lifecycle]: [desired]
    is [None] when the loop returns COMPONENT_STALE.  The result is the word
    that was replaced. *)
Definition lifecycle_loop (fuel : nat) (k : Z * Z) (desired : Z → option Z)
    : prog (world E) (option Z) :=
  current ← component_read k c_lifecycle;
  r ← loop_with fuel (λ current,
        match desired current with
        | None => mret (inr None)
        | Some d =>
            '(ok, observed) ← cas_lifecycle_weak k current d;
            if ok : bool then mret (inr (Some current)) else mret (inl observed)
        end) current;
  returned r.

(** The second component is what is stored through [epoch_out]. *)
Definition zipc_component_register (fuel : nat) (pool : option zipc_pool_t)
    (component : Z) : prog (world E) (zipc_status_t * option Z) :=
  match pool with
  | None => mret (ZIPC_ERR_INVALID_ARGUMENT, None)
  | Some pool =>
  if negb (zipc_component_id_valid component)
  then mret (ZIPC_ERR_INVALID_ARGUMENT, None)
  else
  let k := (p_header pool, component) in
  r ← lifecycle_loop fuel k (λ current,
        let current_epoch := component_lifecycle_epoch current in
        if (current_epoch =? UINT32_MAX) ||
           negb (component_lifecycle_state current =? ZIPC_COMPONENT_INACTIVE)
        then None
        else Some (component_lifecycle_make (u32 (current_epoch + 1))
                     ZIPC_COMPONENT_ACTIVE));
  match r with
  | None => mret (ZIPC_ERR_COMPONENT_STALE, None)
  | Some current =>
      let epoch := u32 (component_lifecycle_epoch current + 1) in
      now ← zipc_now_ns;
      component_write k (set_heartbeat now);;
      mret (ZIPC_OK, Some epoch)
  end
  end.

Definition zipc_component_heartbeat (pool : option zipc_pool_t) (component epoch : Z)
    : prog (world E) zipc_status_t :=
  match pool with
  | None => mret ZIPC_ERR_INVALID_ARGUMENT
  | Some pool =>
  if negb (zipc_component_id_valid component) || (epoch =? 0)
  then mret ZIPC_ERR_INVALID_ARGUMENT
  else
  let k := (p_header pool, component) in
  lifecycle ← component_read k c_lifecycle;
  if (component_lifecycle_state lifecycle =? ZIPC_COMPONENT_INACTIVE) ||
     negb (component_lifecycle_epoch lifecycle =? epoch)
  then mret ZIPC_ERR_COMPONENT_STALE
  else
  now ← zipc_now_ns;
  component_write k (set_heartbeat now);;
  mret ZIPC_OK
  end.

Definition zipc_component_unregister (fuel : nat) (pool : option zipc_pool_t)
    (component epoch : Z) : prog (world E) zipc_status_t :=
  match pool with
  | None => mret ZIPC_ERR_INVALID_ARGUMENT
  | Some pool =>
  if negb (zipc_component_id_valid component) || (epoch =? 0)
  then mret ZIPC_ERR_INVALID_ARGUMENT
  else
  r ← lifecycle_loop fuel (p_header pool, component) (λ current,
        if negb (component_lifecycle_epoch current =? epoch) ||
           (component_lifecycle_state current =? ZIPC_COMPONENT_INACTIVE)
        then None
        else Some (component_lifecycle_make epoch ZIPC_COMPONENT_INACTIVE));
  mret (match r with None => ZIPC_ERR_COMPONENT_STALE | Some _ => ZIPC_OK end)
  end.

(** [snapshot == NULL] is refused with the other arguments ([out = false]);
    the second component is what is stored through [snapshot]. *)
Definition zipc_component_snapshot (pool : option zipc_pool_t) (component : Z) (out : bool)
    : prog (world E) (zipc_status_t * option zipc_component_snapshot_t) :=
  match pool with
  | None => mret (ZIPC_ERR_INVALID_ARGUMENT, None)
  | Some pool =>
  if negb (zipc_component_id_valid component) || negb out
  then mret (ZIPC_ERR_INVALID_ARGUMENT, None)
  else
  let k := (p_header pool, component) in
  lifecycle ← component_read k c_lifecycle;
  heartbeat ← component_read k c_last_heartbeat_ns;
  recovered ← component_read k c_recovered_slots;
  let state := component_lifecycle_state lifecycle in
  mret (ZIPC_OK, Some {| sn_epoch := component_lifecycle_epoch lifecycle;
                         sn_active := negb (state =? ZIPC_COMPONENT_INACTIVE);
                         sn_state := state;
                         sn_last_heartbeat_ns := heartbeat;
                         sn_recovered_slots := recovered |})
  end.

(** The second component is what is stored through [restart] ([out = false]
    for NULL). *)
Definition zipc_component_restart_begin (fuel : nat) (pool : option zipc_pool_t)
    (component dead_epoch : Z) (out : bool)
    : prog (world E) (zipc_status_t * option zipc_restart_t) :=
  match pool with
  | None => mret (ZIPC_ERR_INVALID_ARGUMENT, None)
  | Some pool =>
  if negb out || negb (zipc_component_id_valid component) || (dead_epoch =? 0)
  then mret (ZIPC_ERR_INVALID_ARGUMENT, None)
  else if dead_epoch =? UINT32_MAX then mret (ZIPC_ERR_COMPONENT_STALE, None)
  else
  let k := (p_header pool, component) in
  r ← lifecycle_loop fuel k (λ current,
        if negb (component_lifecycle_epoch current =? dead_epoch) ||
           (component_lifecycle_state current =? ZIPC_COMPONENT_RECOVERING)
        then None
        else Some (component_lifecycle_make (u32 (dead_epoch + 1))
                     ZIPC_COMPONENT_RECOVERING));
  match r with
  | None => mret (ZIPC_ERR_COMPONENT_STALE, None)
  | Some _ =>
      now ← zipc_now_ns;
      component_write k (set_heartbeat now);;
      mret (ZIPC_OK, Some {| rs_pool := Some pool;
                             rs_component := component;
                             rs_dead_epoch := dead_epoch;
                             rs_epoch := u32 (dead_epoch + 1);
                             rs_cursor := 0;
                             rs_scan_complete := false |})
  end
  end.

(** [restart] is [*restart] ([None] for NULL); the second component is what
    the call leaves in it. *)
Definition zipc_component_restart_finish (restart : option zipc_restart_t)
    : prog (world E) (zipc_status_t * option zipc_restart_t) :=
  match restart with
  | Some ({| rs_pool := Some pool |} as r) =>
  if negb (rs_scan_complete r) || negb (rs_epoch r =? u32 (rs_dead_epoch r + 1))
  then mret (ZIPC_ERR_INVALID_ARGUMENT, restart)
  else
  recovering ← component_epoch_recovering pool (rs_component r) (rs_epoch r);
  if negb recovering then mret (ZIPC_ERR_INVALID_ARGUMENT, restart)
  else
  let k := (p_header pool, rs_component r) in
  '(ok, _) ← cas_lifecycle k (component_lifecycle_make (rs_epoch r) ZIPC_COMPONENT_RECOVERING)
               (component_lifecycle_make (rs_epoch r) ZIPC_COMPONENT_ACTIVE);
  if negb ok then mret (ZIPC_ERR_COMPONENT_STALE, restart)
  else
  now ← zipc_now_ns;
  component_write k (set_heartbeat now);;
  mret (ZIPC_OK, Some zero_restart)
  | _ => mret (ZIPC_ERR_INVALID_ARGUMENT, restart)
  end.
End lifecycle.

(** ** The lifecycle state machine *)

(** A component is in incarnation [epoch], in one of three states. *)
Inductive lifecycle_step : Z * Z → Z * Z → Prop :=
| step_register e : 0 <= e < UINT32_MAX →
    lifecycle_step (e, ZIPC_COMPONENT_INACTIVE) (e + 1, ZIPC_COMPONENT_ACTIVE)
| step_unregister e st : st ≠ ZIPC_COMPONENT_INACTIVE →
    lifecycle_step (e, st) (e, ZIPC_COMPONENT_INACTIVE)
| step_restart e st : 0 < e < UINT32_MAX → st ≠ ZIPC_COMPONENT_RECOVERING →
    lifecycle_step (e, st) (e + 1, ZIPC_COMPONENT_RECOVERING)
| step_finish e :
    lifecycle_step (e, ZIPC_COMPONENT_RECOVERING) (e, ZIPC_COMPONENT_ACTIVE).

Definition lifecycle_view (l : Z) : Z * Z :=
  (component_lifecycle_epoch l, component_lifecycle_state l).

Lemma lifecycle_view_make e st :
  in_u32 e → in_u32 st → lifecycle_view (component_lifecycle_make e st) = (e, st).
Proof. intros. unfold lifecycle_view. by autorewrite with zipc. Qed.

Lemma lifecycle_epoch_range l : in_u32 (component_lifecycle_epoch l).
Proof. apply u32_range. Qed.

(** Incarnations never go back. *)
Lemma lifecycle_step_monotone x y : lifecycle_step x y → x.1 <= y.1 <= x.1 + 1.
Proof. destruct 1; simpl; lia. Qed.
Lemma lifecycle_steps_monotone x y : rtc lifecycle_step x y → x.1 <= y.1.
Proof.
  induction 1 as [|x y z Hs _ IH]; [lia|]. apply lifecycle_step_monotone in Hs. lia.
Qed.

Section rules.
Context {E : Type} `{Platform E}.
Implicit Type w : world E.

Lemma wp_cas_lifecycle_weak k x y Q w c :
  w_components w !! k = Some c →
  (head (w_spurious w) = Some true →
     Q (false, c_lifecycle c) (put_spurious (tail (w_spurious w)) w)) →
  (∀ c', c' = set_lifecycle y c → c_lifecycle c = x →
     Q (true, x) (put_component k c' (put_spurious (tail (w_spurious w)) w))) →
  (c_lifecycle c ≠ x →
     Q (false, c_lifecycle c) (put_spurious (tail (w_spurious w)) w)) →
  wp (cas_lifecycle_weak k x y) Q w.
Proof.
  intros Hc Hfail Hyes Hno. destruct w as [hs cs xs rs bs gs hk lg pl sp e].
  unfold cas_lifecycle_weak, spurious. apply wp_bind.
  destruct sp as [|[|] sp]; (eapply wp_act; [reflexivity|]); psimpl.
  - eapply wp_cas_lifecycle; [exact Hc|auto|auto].
  - apply wp_bind. eapply wp_component_read; [exact Hc|]. apply wp_ret. auto.
  - eapply wp_cas_lifecycle; [exact Hc|auto|auto].
Qed.

Lemma wp_lifecycle_loop fuel k desired Q w c :
  w_components w !! k = Some c → (length (w_spurious w) < fuel)%nat →
  (∀ l, desired (c_lifecycle c) = None → Q None (put_spurious l w)) →
  (∀ d l c', desired (c_lifecycle c) = Some d → c' = set_lifecycle d c →
     Q (Some (c_lifecycle c)) (put_component k c' (put_spurious l w))) →
  wp (lifecycle_loop fuel k desired) Q w.
Proof.
  intros Hc Hf Hno Hyes. unfold lifecycle_loop. apply wp_bind.
  eapply wp_component_read; [exact Hc|]. apply wp_bind.
  destruct w as [hs cs xs rs bs gs hk lg pl sp e]. simpl in Hc, Hf.
  set (sp0 := sp) in Hno, Hyes. clearbody sp0. revert sp Hf.
  induction fuel as [|fuel IH]; intros sp Hf; [lia|]. cbn [loop_with]. apply wp_bind.
  destruct (desired (c_lifecycle c)) as [d|] eqn:Hd; [|by apply wp_ret, wp_ret, (Hno sp)].
  apply wp_bind. eapply wp_cas_lifecycle_weak; [exact Hc| | |done].
  - intros Hh. psimpl. apply wp_ret. apply IH. apply length_tail_lt in Hh. simpl in *. lia.
  - intros c' Hc' _. psimpl. apply wp_ret, wp_ret. by apply (Hyes d (tail sp) c').
Qed.
End rules.

Section theorems.
Context {E : Type} `{Platform E}.
Implicit Type w : world E.

(** Only the entry of one component changed. *)
Definition component_effect (k : Z * Z) (c' : zipc_component_status_t) w w' : Prop :=
  w_components w' = <[k := c']> (w_components w) ∧
  w_headers w' = w_headers w ∧ w_controls w' = w_controls w ∧
  w_buffers w' = w_buffers w ∧ w_rings w' = w_rings w ∧ w_payload w' = w_payload w.

(** Decide the guard of an operation from the tests of the program. *)
Ltac guard_cases :=
  repeat match goal with
  | H : (if ?b then _ else _) = _ |- _ => destruct b eqn:?; simplify_eq
  end; bool_to_prop.
Ltac component_done :=
  eexists; split; [repeat split; world_simpl; rewrite ?insert_insert_eq;
    first [done | symmetry; by apply insert_id]|].

Lemma wp_register fuel pool c cs w :
  zipc_component_id_valid c = true → w_components w !! (p_header pool, c) = Some cs →
  (length (w_spurious w) < fuel)%nat →
  wp (zipc_component_register fuel (Some pool) c)
    (λ r w', ∃ cs', component_effect (p_header pool, c) cs' w w' ∧
       let '(e, st) := lifecycle_view (c_lifecycle cs) in
       if (e <? UINT32_MAX) && (st =? ZIPC_COMPONENT_INACTIVE)
       then r = (ZIPC_OK, Some (e + 1)) ∧
            lifecycle_view (c_lifecycle cs') = (e + 1, ZIPC_COMPONENT_ACTIVE)
       else r = (ZIPC_ERR_COMPONENT_STALE, None) ∧ cs' = cs) w.
Proof.
  intros Hv Hc Hf. unfold zipc_component_register. rewrite Hv. psimpl. wp_start w.
  pose proof (lifecycle_epoch_range (c_lifecycle cs)) as Hrange.
  apply wp_bind. eapply wp_lifecycle_loop; [exact Hc|exact Hf|..].
  - intros l Hg. guard_cases. apply wp_ret. component_done. unfold lifecycle_view.
    apply orb_true_iff in Heqb as [Hm%Z.eqb_eq|Hm%negb_true_iff].
    + by rewrite Hm.
    + by rewrite Hm, andb_false_r.
  - intros d l cs1 Hg Hcs1. guard_cases. wp_norm. wp_run. component_done. unfold lifecycle_view.
    rewrite (proj2 (Z.ltb_lt _ _)), (proj2 (Z.eqb_eq _ 0)) by zlia. psimpl.
    rewrite u32_small by zlia. split; [done|]. simpl.
    unfold lifecycle_view in *. by autorewrite with zipc.
Qed.

Lemma wp_unregister fuel pool c cs epoch w :
  zipc_component_id_valid c = true → w_components w !! (p_header pool, c) = Some cs →
  (length (w_spurious w) < fuel)%nat → 0 < epoch <= UINT32_MAX →
  wp (zipc_component_unregister fuel (Some pool) c epoch)
    (λ r w', ∃ cs', component_effect (p_header pool, c) cs' w w' ∧
       let '(e, st) := lifecycle_view (c_lifecycle cs) in
       if (e =? epoch) && negb (st =? ZIPC_COMPONENT_INACTIVE)
       then r = ZIPC_OK ∧
            lifecycle_view (c_lifecycle cs') = (e, ZIPC_COMPONENT_INACTIVE)
       else r = ZIPC_ERR_COMPONENT_STALE ∧ cs' = cs) w.
Proof.
  intros Hv Hc Hf He. unfold zipc_component_unregister. rewrite Hv.
  rewrite (proj2 (Z.eqb_neq epoch 0)) by lia. psimpl. wp_start w.
  apply wp_bind. eapply wp_lifecycle_loop; [exact Hc|exact Hf|..].
  - intros l Hg. guard_cases. apply wp_ret. component_done. unfold lifecycle_view.
    apply orb_true_iff in Heqb as [Hm%negb_true_iff|Hm].
    + by rewrite Hm.
    + by rewrite Hm, andb_false_r.
  - intros d l cs1 Hg Hcs1. guard_cases. apply wp_ret. component_done. unfold lifecycle_view.
    rewrite (proj2 (Z.eqb_eq _ epoch)), (proj2 (Z.eqb_neq _ 0)) by done. psimpl.
    split; [done|]. simpl. autorewrite with zipc. congruence.
Qed.

Lemma wp_restart_begin fuel pool c cs dead w :
  zipc_component_id_valid c = true → w_components w !! (p_header pool, c) = Some cs →
  (length (w_spurious w) < fuel)%nat → 0 < dead <= UINT32_MAX →
  wp (zipc_component_restart_begin fuel (Some pool) c dead true)
    (λ r w', ∃ cs', component_effect (p_header pool, c) cs' w w' ∧
       let '(e, st) := lifecycle_view (c_lifecycle cs) in
       if (dead <? UINT32_MAX) && (e =? dead) && negb (st =? ZIPC_COMPONENT_RECOVERING)
       then r = (ZIPC_OK, Some (ZipcRestart (Some pool) c dead (dead + 1) 0 false)) ∧
            lifecycle_view (c_lifecycle cs') = (dead + 1, ZIPC_COMPONENT_RECOVERING)
       else r = (ZIPC_ERR_COMPONENT_STALE, None) ∧ cs' = cs) w.
Proof.
  intros Hv Hc Hf He. unfold zipc_component_restart_begin. rewrite Hv.
  rewrite (proj2 (Z.eqb_neq dead 0)) by lia. psimpl. wp_start w.
  destruct (Z.eqb_spec dead UINT32_MAX) as [->|Hm].
  { apply wp_ret. by component_done. }
  apply wp_bind. eapply wp_lifecycle_loop; [exact Hc|exact Hf|..];
    rewrite (proj2 (Z.ltb_lt dead _)) by lia; psimpl.
  - intros l Hg. guard_cases. apply wp_ret. component_done. unfold lifecycle_view.
    apply orb_true_iff in Heqb as [Hx%negb_true_iff|Hx].
    + by rewrite Hx.
    + by rewrite Hx, andb_false_r.
  - intros d l cs1 Hg Hcs1. guard_cases. wp_norm. wp_run. component_done. unfold lifecycle_view.
    rewrite (proj2 (Z.eqb_eq _ dead)), (proj2 (Z.eqb_neq _ 1)) by done. psimpl.
    rewrite u32_small by zlia. split; [done|]. simpl.
    by autorewrite with zipc.
Qed.

Lemma wp_restart_finish pool c cs dead epoch cursor complete w :
  zipc_component_id_valid c = true → w_components w !! (p_header pool, c) = Some cs →
  in_u64 (c_lifecycle cs) → 0 < epoch <= UINT32_MAX →
  let r0 := ZipcRestart (Some pool) c dead epoch cursor complete in
  wp (zipc_component_restart_finish (Some r0))
    (λ r w', ∃ cs', component_effect (p_header pool, c) cs' w w' ∧
       if complete && (epoch =? u32 (dead + 1)) &&
          bool_decide (lifecycle_view (c_lifecycle cs) = (epoch, ZIPC_COMPONENT_RECOVERING))
       then r = (ZIPC_OK, Some zero_restart) ∧
            lifecycle_view (c_lifecycle cs') = (epoch, ZIPC_COMPONENT_ACTIVE)
       else r = (ZIPC_ERR_INVALID_ARGUMENT, Some r0) ∧ cs' = cs) w.
Proof.
  intros Hv Hc Hl He r0. unfold zipc_component_restart_finish, component_epoch_recovering.
  subst r0. cbn [rs_pool rs_scan_complete rs_epoch rs_dead_epoch rs_component].
  rewrite Hv, (proj2 (Z.eqb_neq epoch 0)) by lia. wp_start w.
  destruct complete, (epoch =? u32 (dead + 1)) eqn:Hd; psimpl;
    try (apply wp_ret; by component_done).
  assert (Hdec : (c_lifecycle cs =? component_lifecycle_make epoch ZIPC_COMPONENT_RECOVERING)
    = bool_decide (lifecycle_view (c_lifecycle cs) = (epoch, ZIPC_COMPONENT_RECOVERING))).
  { apply Bool.eq_iff_eq_true. rewrite Z.eqb_eq, bool_decide_eq_true. split.
    - intros ->. apply lifecycle_view_make; zlia.
    - unfold lifecycle_view. intros [= Ha Hb].
      by rewrite <- (lifecycle_make_split _ Hl), Ha, Hb. }
  rewrite <- Hdec. wp_step. wp_step. wp_step. wp_step.
  destruct (_ =? component_lifecycle_make _ _) eqn:Hw; psimpl;
    [|apply wp_ret; by component_done].
  wp_run.
  - component_done. split; [done|]. cbn [set_heartbeat c_lifecycle set_lifecycle].
    apply lifecycle_view_make; zlia.
  - by apply Z.eqb_eq in Hw.
Qed.

(** C24. The lifecycle operations implement the lifecycle machine: each one
    terminates whatever spurious failures its weak compare-exchange suffers,
    succeeds exactly when its step is enabled, then takes that step and no
    other, and otherwise is refused and changes nothing.  A new incarnation is
    told the epoch that was published for it. *)
Theorem lifecycle_refines fuel pool c cs epoch dead cursor complete w :
  zipc_component_id_valid c = true → w_components w !! (p_header pool, c) = Some cs →
  (length (w_spurious w) < fuel)%nat → in_u64 (c_lifecycle cs) →
  0 < epoch <= UINT32_MAX → 0 < dead <= UINT32_MAX →
  let x := lifecycle_view (c_lifecycle cs) in
  let refines {R} (status : R → zipc_status_t) (enabled : Prop) (y : Z * Z) (r : R) w' :=
    ∃ cs', component_effect (p_header pool, c) cs' w w' ∧
      (status r = ZIPC_OK ↔ enabled) ∧
      (status r = ZIPC_OK → lifecycle_step x y ∧ lifecycle_view (c_lifecycle cs') = y) ∧
      (status r ≠ ZIPC_OK → cs' = cs) in
  wp (zipc_component_register fuel (Some pool) c)
    (λ r w', refines fst (x.1 < UINT32_MAX ∧ x.2 = ZIPC_COMPONENT_INACTIVE)
               (x.1 + 1, ZIPC_COMPONENT_ACTIVE) r w' ∧
       (r.1 = ZIPC_OK → r.2 = Some (x.1 + 1))) w ∧
  wp (zipc_component_unregister fuel (Some pool) c epoch)
    (refines id (x.1 = epoch ∧ x.2 ≠ ZIPC_COMPONENT_INACTIVE)
       (epoch, ZIPC_COMPONENT_INACTIVE)) w ∧
  wp (zipc_component_restart_begin fuel (Some pool) c dead true)
    (refines fst (dead < UINT32_MAX ∧ x.1 = dead ∧ x.2 ≠ ZIPC_COMPONENT_RECOVERING)
       (dead + 1, ZIPC_COMPONENT_RECOVERING)) w ∧
  wp (zipc_component_restart_finish
        (Some (ZipcRestart (Some pool) c dead epoch cursor complete)))
    (refines fst (complete = true ∧ epoch = u32 (dead + 1) ∧
                  x = (epoch, ZIPC_COMPONENT_RECOVERING))
       (epoch, ZIPC_COMPONENT_ACTIVE)) w.
Proof.
  intros Hv Hc Hf Hl He Hd x refines. subst x.
  pose proof (lifecycle_epoch_range (c_lifecycle cs)) as Hr.
  unfold lifecycle_view in *. split_and!.
  - eapply wp_mono; [by apply (wp_register fuel pool c cs)|].
    intros r w' (cs'&Heff&Hcase). cbn beta iota zeta delta [lifecycle_view] in Hcase.
    destruct (_ && _) eqn:Hg; destruct Hcase as [-> Hcs']; simpl.
    + bool_to_prop. split; [|done]. exists cs'. split_and!; try done.
      intros _. split; [|done]. rewrite H1. constructor. zlia.
    + split; [|done]. exists cs'. split_and!; try done. split; [done|].
      intros [Ha%Z.ltb_lt Hb%Z.eqb_eq]. by rewrite Ha, Hb in Hg.
  - eapply wp_mono; [by apply (wp_unregister fuel pool c cs epoch)|].
    intros r w' (cs'&Heff&Hcase). cbn beta iota zeta delta [lifecycle_view] in Hcase.
    destruct (_ && _) eqn:Hg; destruct Hcase as [-> Hcs']; exists cs'; simpl.
    + bool_to_prop. split_and!; try done. intros _. rewrite H0 in *. by split; [constructor|].
    + split_and!; try done. split; [done|].
      intros [Ha%Z.eqb_eq Hb%Z.eqb_neq]. by rewrite Ha, Hb in Hg.
  - eapply wp_mono; [by apply (wp_restart_begin fuel pool c cs dead)|].
    intros r w' (cs'&Heff&Hcase). cbn beta iota zeta delta [lifecycle_view] in Hcase.
    destruct (_ && _) eqn:Hg; destruct Hcase as [-> Hcs']; exists cs'; simpl.
    + bool_to_prop. split_and!; try done. intros _. split; [|done].
      replace (component_lifecycle_epoch (c_lifecycle cs)) with dead by done.
      constructor; [lia|done].
    + split_and!; try done. split; [done|].
      intros (Ha%Z.ltb_lt&Hb%Z.eqb_eq&Hx%Z.eqb_neq). by rewrite Ha, Hb, Hx in Hg.
  - eapply wp_mono; [by apply (wp_restart_finish pool c cs dead epoch cursor complete)|].
    intros r w' (cs'&Heff&Hcase).
    destruct (_ && _) eqn:Hg; destruct Hcase as [-> Hcs']; exists cs'; simpl.
    + bool_to_prop. split_and!; try done. intros _. split; [|done].
      unfold lifecycle_view in *. rewrite H1. constructor.
    + split_and!; try done. split; [done|]. intros (->&Ha%Z.eqb_eq&Hx).
      unfold lifecycle_view in Hg. by rewrite Ha, bool_decide_eq_true_2 in Hg.
Qed.

End theorems.

Lemma lifecycle_refines_witness :
  wp (zipc_component_unregister 3 (Some demo_pool) 7 1) (λ r _, r = ZIPC_OK) demo_world.
Proof.
  eapply wp_mono; [refine (proj1 (proj2 (lifecycle_refines 3 demo_pool 7 demo_component 1 1 0
    false demo_world eq_refl (demo_component_7 _ _) _ _ _ _))); [simpl; lia|..]; vm_compute;
    intuition discriminate|].
  intros r w' (cs'&_&[_ Hen]&_). apply Hen. split; vm_compute; [reflexivity|discriminate].
Defined.

