(* ===== verification/Recovery.v ===== *)
(** * Recovery of slots (src/core/zipc.c)

    [zipc_component_restart_next] (adoption of a dead incarnation's slots by
    the next one), [zipc_pool_recover_owner] and [zipc_pool_recover_claiming]
    (reclaiming by a supervisor), and the copy-out of a slot's trace. *)
From S2P Require Import Prelude Types Packing Visited Prog Store Identity Slot SlotRun.
From S2P Require Import IdentitySpec SlotSpec Demo.

Section recovery.
Context {E : Type} `{Platform E}.

(** [for (; i < pool->header->slot_count; ++i)] with local variables [st]: the
    body goes on with [inl] and leaves the function with [inr].  At the end of
    the scan the result is [inl] of the last [i] and the variables. *)
Fixpoint scan_slots {S A} (fuel : nat) (pool : zipc_pool_t) (i : Z) (st : S)
    (body : Z → S → prog (world E) (S + A)) : prog (world E) ((Z * S) + A) :=
  match fuel with
  | O => fault
  | Datatypes.S fuel' =>
      count ← header_read (p_header pool) h_slot_count;
      if i <? count then
        r ← body i st;
        match r with
        | inr a => mret (inr a)
        | inl st' => scan_slots fuel' pool (u32 (i + 1)) st' body
        end
      else mret (inl (i, st))
  end.

(** ** Restart *)

(** Assignments that undo an abandoned claim. *)
Definition undo_receive (component : Z) (s : zipc_slot_control_t) : zipc_slot_control_t :=
  {| s with
     s_owner_id := s_transfer_source_id s;
     s_next_owner_id := component;
     s_owner_epoch := s_transfer_source_epoch s;
     s_hop_count := s_transfer_hop_count s;
     s_acquired_ns := s_transfer_acquired_ns s;
     s_visited := s_transfer_visited s |}.
Definition undo_sequence (s : zipc_slot_control_t) : zipc_slot_control_t :=
  {| s with s_transfer_sequence := s_claim_previous_sequence s |}.
Definition undo_release (s : zipc_slot_control_t) : zipc_slot_control_t :=
  {| s with
     s_owner_id := s_claim_previous_owner s;
     s_owner_epoch := s_claim_previous_owner_epoch s;
     s_region := s_claim_previous_region s |}.
Definition clear_next_owner (s : zipc_slot_control_t) : zipc_slot_control_t :=
  {| s with s_next_owner_id := ZIPC_INVALID_COMPONENT_ID |}.

(** [claim_token_component(token) == component && claim_token_epoch(token) ==
    dead_epoch] *)
Definition token_of (component dead_epoch token : Z) : bool :=
  (claim_token_component token =? component) && (claim_token_epoch token =? dead_epoch).

(** What the scan does after a slot: [Some (status, advance)] returns, after
    [restart->cursor++] if [advance]; [None] is [restart->cursor++; continue]. *)
Abbreviation verdict := (option (zipc_status_t * bool)) (only parsing).

(** The [state == ZIPC_SLOT_CLAIMING] block; [inl] falls out of it. *)
Definition restart_claiming (pool : zipc_pool_t) (component dead_epoch slot_id token : Z)
    : prog (world E) (zipc_slot_state_t + verdict) :=
  let k := slot_key pool slot_id in
  if negb (token_of component dead_epoch token) then mret (inr None)
  else
  claimed ← cas_state k ZIPC_SLOT_CLAIMING ZIPC_SLOT_ERROR;
  if negb claimed then mret (inr None)
  else
  let kind := claim_token_kind token in
  if kind =? ZIPC_CLAIM_RECEIVE then
    protect_status ← protect_slot pool slot_id false;
    if negb (status_is protect_status ZIPC_OK) then
      store_state k ZIPC_SLOT_CLAIMING;;
      mret (inr (Some (protect_status, false)))
    else
      slot_write k (undo_receive component);;
      store_token k 0;;
      store_state k ZIPC_SLOT_TRANSFER;;
      mret (inr None)
  else if kind =? ZIPC_CLAIM_ALLOCATE then
    protect_status ← protect_slot pool slot_id false;
    if negb (status_is protect_status ZIPC_OK) then
      store_state k ZIPC_SLOT_CLAIMING;;
      mret (inr (Some (protect_status, false)))
    else
      free_claiming_slot pool slot_id;;
      mret (inr None)
  else
  (if (kind =? ZIPC_CLAIM_SEND) || (kind =? ZIPC_CLAIM_ROLLBACK)
   then slot_write k undo_sequence else mret ());;
  (if kind =? ZIPC_CLAIM_RELEASE then slot_write k undo_release else mret ());;
  slot_write k clear_next_owner;;
  store_token k 0;;
  store_state k ZIPC_SLOT_OWNED;;
  mret (inl ZIPC_SLOT_OWNED).

Definition set_owner_epoch (x : Z) (s : zipc_slot_control_t) : zipc_slot_control_t :=
  {| s with s_owner_epoch := x |}.
Definition mark_recovered (now : Z) (s : zipc_slot_control_t) : zipc_slot_control_t :=
  {| s with s_acquired_ns := now; s_recovery_count := u32 (s_recovery_count s + 1) |}.
Definition bump_recovered (c : zipc_component_status_t) : zipc_component_status_t :=
  {| c with c_recovered_slots := u64 (c_recovered_slots c + 1) |}.

(** From the successful [OWNED -> ERROR] of a slot of the dead incarnation. *)
Definition restart_adopt (pool : zipc_pool_t) (component dead_epoch epoch slot_id buffer : Z)
    : prog (world E) verdict :=
  let k := slot_key pool slot_id in
  status ← protect_slot pool slot_id true;
  if negb (status_is status ZIPC_OK) then
    store_state k ZIPC_SLOT_OWNED;; mret (Some (status, false))
  else
  old_generation ← slot_read k s_generation;
  let generation := next_generation old_generation in
  store_generation k generation;;
  slot_write k (set_owner_epoch epoch);;
  now ← zipc_now_ns;
  slot_write k (mark_recovered now);;
  status ← make_view pool slot_id (zipc_handle_make slot_id generation) buffer;
  if negb (status_is status ZIPC_OK) then
    slot_write k (set_owner_epoch dead_epoch);;
    store_generation k old_generation;;
    store_state k ZIPC_SLOT_OWNED;;
    mret (Some (status, false))
  else
  trace_slot pool slot_id component ZIPC_TRACE_RECOVER;;
  header_write (p_header pool) bump_recovery;;
  component_write (p_header pool, component) bump_recovered;;
  store_state k ZIPC_SLOT_OWNED;;
  mret (Some (ZIPC_OK, true)).

(** From [state == ZIPC_SLOT_OWNED] on: drop an abandoned token, take the slot
    aside and adopt it if it is the dead incarnation's. *)
Definition restart_owned (pool : zipc_pool_t) (component dead_epoch epoch buffer slot_id
    observed_token : Z) : prog (world E) verdict :=
  let k := slot_key pool slot_id in
  (if token_of component dead_epoch observed_token
   then cas_token k observed_token 0;; mret () else mret ());;
  claimed ← cas_state k ZIPC_SLOT_OWNED ZIPC_SLOT_ERROR;
  if negb claimed then mret None
  else
  owned ← slot_read k (owned_by component dead_epoch);
  if negb owned then store_state k ZIPC_SLOT_OWNED;; mret None
  else restart_adopt pool component dead_epoch epoch slot_id buffer.

(** The body of the [while] loop. *)
Definition restart_slot (pool : zipc_pool_t) (component dead_epoch epoch buffer slot_id : Z)
    : prog (world E) verdict :=
  let k := slot_key pool slot_id in
  state ← slot_read k s_state;
  observed_token ← slot_read k s_claim_token;
  let mine := token_of component dead_epoch observed_token in
  if state_is state ZIPC_SLOT_FREE && mine then
    cas_token k observed_token 0;; mret None
  else if state_is state ZIPC_SLOT_TRANSFER &&
          (claim_token_kind observed_token =? ZIPC_CLAIM_RECEIVE) && mine then
    clear_claim_token k observed_token;; mret None
  else
  r ← (if state_is state ZIPC_SLOT_CLAIMING
       then restart_claiming pool component dead_epoch slot_id observed_token
       else mret (inl state));
  match r with
  | inr v => mret v
  | inl state =>
  if negb (state_is state ZIPC_SLOT_OWNED) then mret None
  else restart_owned pool component dead_epoch epoch buffer slot_id observed_token
  end.

(** [restart] is [*restart] ([None] for NULL); the second component is what
    the call leaves in it. *)
Definition set_restart_cursor (x : Z) (r : zipc_restart_t) : zipc_restart_t :=
  {| r with rs_cursor := x |}.
Definition set_scan_complete (r : zipc_restart_t) : zipc_restart_t :=
  {| r with rs_scan_complete := true |}.
Definition zipc_component_restart_next (fuel : nat) (restart : option zipc_restart_t)
    (buffer : Z) : prog (world E) (zipc_status_t * option zipc_restart_t) :=
  match restart with
  | Some ({| rs_pool := Some pool |} as r) =>
  if buffer =? 0 then mret (ZIPC_ERR_INVALID_ARGUMENT, restart)
  else
  recovering ← component_epoch_recovering pool (rs_component r) (rs_epoch r);
  if negb recovering || negb (rs_epoch r =? u32 (rs_dead_epoch r + 1))
  then mret (ZIPC_ERR_INVALID_ARGUMENT, restart)
  else
  buffer_invalidate buffer;;
  res ← scan_slots fuel pool (rs_cursor r) () (λ slot_id _,
          v ← restart_slot pool (rs_component r) (rs_dead_epoch r) (rs_epoch r) buffer slot_id;
          mret (match v with
                | None => inl ()
                | Some (status, advance) =>
                    inr (status, if advance : bool then u32 (slot_id + 1) else slot_id)
                end));
  mret (match res with
        | inr (status, cursor) => (status, Some (set_restart_cursor cursor r))
        | inl (cursor, _) =>
            (ZIPC_ERR_NO_BUFFER, Some (set_scan_complete (set_restart_cursor cursor r)))
        end)
  | _ => mret (ZIPC_ERR_INVALID_ARGUMENT, restart)
  end.

(** ** Reclaiming the slots of a dead owner *)

(** The assignments between the trace and the publication of FREE. *)
Definition reclaim_owned (s : zipc_slot_control_t) : zipc_slot_control_t :=
  {| s with
     s_recovery_count := u32 (s_recovery_count s + 1);
     s_error_flags := Z.lor (s_error_flags s) 1;
     s_owner_id := ZIPC_INVALID_COMPONENT_ID;
     s_next_owner_id := ZIPC_INVALID_COMPONENT_ID;
     s_region := zero_region |}.
Definition count_owned (r : zipc_recovery_result_t) :=
  {| r with rr_recovered_owned := u32 (rr_recovered_owned r + 1) |}.
Definition count_transfer (r : zipc_recovery_result_t) :=
  {| r with rr_recovered_transfer := u32 (rr_recovered_transfer r + 1) |}.
Definition count_newer (r : zipc_recovery_result_t) :=
  {| r with rr_skipped_newer_epoch := u32 (rr_skipped_newer_epoch r + 1) |}.
(** [minimum_age_ns != 0 && (now < acquired || now - acquired < minimum_age)] *)
Definition too_young (minimum_age now : Z) (s : zipc_slot_control_t) : bool :=
  negb (minimum_age =? 0) &&
  ((now <? s_acquired_ns s) || (now - s_acquired_ns s <? minimum_age)).

Definition recover_owner_slot (pool : zipc_pool_t) (component dead_epoch minimum_age now
    i : Z) (local : zipc_recovery_result_t)
    : prog (world E) (zipc_recovery_result_t + (zipc_status_t * zipc_recovery_result_t)) :=
  let k := slot_key pool i in
  state ← slot_read k s_state;
  if negb (state_is state ZIPC_SLOT_OWNED) && negb (state_is state ZIPC_SLOT_TRANSFER)
  then mret (inl local)
  else
  claimed ← cas_state k state ZIPC_SLOT_ERROR;
  if negb claimed then mret (inl local)
  else
  '(owner, owner_epoch) ← slot_read k (λ s, (s_owner_id s, s_owner_epoch s));
  if negb (owner =? component) then store_state k state;; mret (inl local)
  else if negb (owner_epoch =? dead_epoch) then
    store_state k state;;
    mret (inl (if dead_epoch <? owner_epoch then count_newer local else local))
  else
  young ← slot_read k (too_young minimum_age now);
  if young : bool then store_state k state;; mret (inl local)
  else
  protect_status ← protect_slot pool i false;
  if negb (status_is protect_status ZIPC_OK) then
    store_state k state;; mret (inr (protect_status, local))
  else
  trace_slot pool i component ZIPC_TRACE_RECOVER;;
  slot_write k reclaim_owned;;
  store_state k ZIPC_SLOT_FREE;;
  header_write (p_header pool) bump_recovery;;
  component_write (p_header pool, component) bump_recovered;;
  mret (inl (if state_is state ZIPC_SLOT_OWNED then count_owned local
             else count_transfer local)).

(** The second component is what is stored through [result]. *)
Definition zipc_pool_recover_owner (fuel : nat) (pool : option zipc_pool_t)
    (component dead_epoch minimum_age : Z)
    : prog (world E) (zipc_status_t * option zipc_recovery_result_t) :=
  match pool with
  | None => mret (ZIPC_ERR_INVALID_ARGUMENT, None)
  | Some pool =>
  if negb (zipc_component_id_valid component) || (dead_epoch =? 0)
  then mret (ZIPC_ERR_INVALID_ARGUMENT, None)
  else
  lifecycle ← component_read (p_header pool, component) c_lifecycle;
  if negb (component_lifecycle_state lifecycle =? ZIPC_COMPONENT_INACTIVE) &&
     (component_lifecycle_epoch lifecycle =? dead_epoch)
  then mret (ZIPC_ERR_COMPONENT_STALE, None)
  else
  now ← zipc_now_ns;
  res ← scan_slots fuel pool 0 (ZipcRecoveryResult 0 0 0)
          (recover_owner_slot pool component dead_epoch minimum_age now);
  mret (match res with
        | inr (status, local) => (status, Some local)
        | inl (_, local) => (ZIPC_OK, Some local)
        end)
  end.

(** ** Reclaiming abandoned claims *)
Definition reset_slot (s : zipc_slot_control_t) : zipc_slot_control_t :=
  {| s with
     s_owner_id := ZIPC_INVALID_COMPONENT_ID;
     s_next_owner_id := ZIPC_INVALID_COMPONENT_ID;
     s_owner_epoch := 0;
     s_hop_count := 0;
     s_hop_limit := 0;
     s_visited := zero_visited;
     s_identity := zero_identity;
     s_region := zero_region;
     s_transfer_sequence := 0;
     s_payload_type := 0;
     s_flags := 0;
     s_error_flags := 0;
     s_acquired_ns := 0;
     s_deadline_ns := 0;
     s_trace_count := 0;
     s_recovery_count := 0;
     s_claim_previous_sequence := 0;
     s_claim_previous_region := zero_region;
     s_claim_previous_owner := ZIPC_INVALID_COMPONENT_ID;
     s_claim_previous_owner_epoch := 0;
     s_transfer_link_id := 0;
     s_transfer_source_id := ZIPC_INVALID_COMPONENT_ID;
     s_transfer_source_epoch := 0;
     s_transfer_hop_count := 0;
     s_transfer_acquired_ns := 0;
     s_transfer_visited := zero_visited;
     s_trace := zero_trace |}.

Definition recover_claiming_slot (pool : zipc_pool_t) (i recovered : Z)
    : prog (world E) (Z + (zipc_status_t * Z)) :=
  let k := slot_key pool i in
  state ← slot_read k s_state;
  if negb (state_is state ZIPC_SLOT_CLAIMING) then mret (inl recovered)
  else
  claimed ← cas_state k ZIPC_SLOT_CLAIMING ZIPC_SLOT_ERROR;
  if negb claimed then mret (inl recovered)
  else
  protect_status ← protect_slot pool i false;
  if negb (status_is protect_status ZIPC_OK) then
    store_state k ZIPC_SLOT_CLAIMING;; mret (inr (protect_status, recovered))
  else
  slot_write k reset_slot;;
  store_token k 0;;
  store_state k ZIPC_SLOT_FREE;;
  header_write (p_header pool) bump_recovery;;
  trace_external_event pool ZIPC_INVALID_HANDLE 0 ZIPC_INVALID_COMPONENT_ID
    ZIPC_TRACE_RECOVER;;
  mret (inl (u32 (recovered + 1))).

(** The second component is what is stored through [recovered_out]. *)
Definition zipc_pool_recover_claiming (fuel : nat) (pool : option zipc_pool_t)
    : prog (world E) (zipc_status_t * option Z) :=
  match pool with
  | None => mret (ZIPC_ERR_INVALID_ARGUMENT, None)
  | Some pool =>
  res ← scan_slots fuel pool 0 0 (recover_claiming_slot pool);
  mret (match res with
        | inr (status, recovered) => (status, Some recovered)
        | inl (_, recovered) => (ZIPC_OK, Some recovered)
        end)
  end.
End recovery.

(** ** Copying a trace out *)

(** The entries written and the count returned; [entries == NULL] is
    [out = false].  The number of iterations is [count]. *)
Definition zipc_slot_trace_copy (slot : option zipc_slot_control_t) (out : bool)
    (capacity : Z) : list zipc_trace_entry_t * Z :=
  match slot with
  | None => ([], 0)
  | Some s =>
  if negb out || (capacity =? 0) then ([], 0)
  else
  let count := if s_trace_count s <? ZIPC_TRACE_DEPTH then s_trace_count s
               else ZIPC_TRACE_DEPTH in
  let count := if capacity <? count then capacity else count in
  let start := if ZIPC_TRACE_DEPTH <? s_trace_count s
               then s_trace_count s `mod` ZIPC_TRACE_DEPTH else 0 in
  (map (λ i, nth (Z.to_nat (u32 (start + i) `mod` ZIPC_TRACE_DEPTH)) (s_trace s)
               zero_trace_entry) (seqZ 0 count), count)
  end.
