(* ===== verification/RecoverySpec.v ===== *)
(** * Recovery: theorems

    What a completed restart scan, a reclaim and a trace copy guarantee. *)
From S2P Require Import Prelude Types Packing Visited Prog Store Identity Slot SlotRun.
From S2P Require Import IdentitySpec SlotSpec Alloc Demo Recovery.

Section rules.
Context {E : Type} `{Platform E}.
Implicit Type w : world E.

(** The scan visits every slot from [i] on; [Inv j] holds before slot [j]. *)
Lemma wp_scan_slots {S A} (Inv : Z → S → world E → Prop) fuel pool i (st : S) body
    (Q : (Z * S) + A → world E → Prop) count w :
  0 <= i <= count → count <= UINT32_MAX → (Z.to_nat (count - i) < fuel)%nat →
  (∀ j st w, Inv j st w →
     ∃ hd, w_headers w !! p_header pool = Some hd ∧ h_slot_count hd = count) →
  Inv i st w →
  (∀ j st w, i <= j < count → Inv j st w →
     wp (body j st) (λ r w', match r with
                             | inl st' => Inv (j + 1) st' w'
                             | inr a => Q (inr a) w'
                             end) w) →
  (∀ st w, Inv count st w → Q (inl (count, st)) w) →
  wp (scan_slots fuel pool i st body) Q w.
Proof.
  intros Hi Hmax Hf Hhd. revert i st w Hi Hf.
  induction fuel as [|fuel IH]; intros i st w Hi Hf HI Hbody Hend; [lia|].
  cbn [scan_slots]. destruct (Hhd _ _ _ HI) as (hd&Hh&Hc).
  apply wp_bind. eapply wp_header_read; [exact Hh|]. rewrite Hc.
  destruct (Z.ltb_spec i count) as [Hlt|Hge].
  - apply wp_bind. eapply wp_mono; [by apply Hbody|]. intros [st'|a] w' Hr; [|by apply wp_ret].
    rewrite u32_small by zlia. apply IH; [lia|lia|done| |done].
    intros j st'' w'' Hj. apply Hbody. lia.
  - apply wp_ret. replace i with count in * by lia. by apply Hend.
Qed.
End rules.

(** ** The restart of a component *)

(** The slot holds nothing of incarnation [dead] of [c]: neither a buffer nor
    an operation under way. *)
Definition view_clean (c dead : Z) (v : slot_view) : Prop :=
  match sv_owner v with
  | Owned o e _ => ¬ (o = c ∧ e = dead)
  | Busy _ => token_of c dead (sv_token v) = false
  | Free _ | InTransfer _ _ _ _ _ => True
  end.

Section restart.
Context {E : Type} `{Platform E}.
Implicit Type w : world E.

(** Everything but slot [i], its pool's counters and the caller's buffer. *)
Record slot_only (pool : zipc_pool_t) (i : Z) (hd : zipc_pool_header_t)
    (s' : zipc_slot_control_t) w w' : Prop := {
  so_slot : w_controls w' = <[slot_key pool i := s']> (w_controls w);
  so_header : ∃ hd', w_headers w' = <[p_header pool := hd']> (w_headers w) ∧
    h_slot_count hd' = h_slot_count hd ∧ h_slot_capacity hd' = h_slot_capacity hd ∧
    h_slot_stride hd' = h_slot_stride hd;
  so_components : ∃ cs, w_components w' = cs ∧
    ∀ k, c_lifecycle <$> cs !! k = c_lifecycle <$> w_components w !! k;
  so_rings : w_rings w' = w_rings w;
  so_generators : w_generators w' = w_generators w;
  so_payload : w_payload w' = w_payload w;
  so_hook : w_trace_hook w' = w_trace_hook w }.

(** The slot an abandoned claim is rolled back to. *)
Definition rolled_back (c : Z) (s : zipc_slot_control_t) : zipc_slot_control_t :=
  let kind := claim_token_kind (s_claim_token s) in
  if kind =? ZIPC_CLAIM_RECEIVE then
    set_state ZIPC_SLOT_TRANSFER (set_token 0 (undo_receive c s))
  else if kind =? ZIPC_CLAIM_ALLOCATE then
    set_state ZIPC_SLOT_FREE (set_token 0 (clear_owner s))
  else
    let s1 := if (kind =? ZIPC_CLAIM_SEND) || (kind =? ZIPC_CLAIM_ROLLBACK)
              then undo_sequence s else s in
    let s2 := if kind =? ZIPC_CLAIM_RELEASE then undo_release s1 else s1 in
    set_state ZIPC_SLOT_OWNED (set_token 0 (clear_next_owner s2)).

Lemma wp_restart_claiming pool hd c dead i s Q w :
  w_headers w !! p_header pool = Some hd →
  w_controls w !! slot_key pool i = Some s → s_state s = ZIPC_SLOT_CLAIMING →
  token_of c dead (s_claim_token s) = true →
  (∀ e, (protect_result pool hd i false e).1 = ZIPC_OK) →
  (∀ e' s', s' = rolled_back c s →
     Q (if state_is (s_state s') ZIPC_SLOT_OWNED then inl ZIPC_SLOT_OWNED else inr None)
       (put_env e' (put_slot (slot_key pool i) s' w))) →
  wp (restart_claiming pool c dead i (s_claim_token s)) Q w.
Proof.
  intros Hh Hs Hst Hmine Hp HQ. unfold restart_claiming. rewrite Hmine. psimpl. wp_start w.
  unfold rolled_back in HQ.
  repeat (wp_step; rewrite ?Hp; status_eval; psimpl).
  all: try done.
  all: subst; revert HQ; use_tests; intros HQ; exact (HQ _ _ eq_refl).
Qed.

(** A dead incarnation's buffer taken over by the next one. *)
Definition adopted (epoch now : Z) (s : zipc_slot_control_t) : zipc_slot_control_t :=
  mark_recovered now (set_owner_epoch epoch
    (set_generation (next_generation (s_generation s)) s)).

Lemma wp_restart_adopt pool hd c dead epoch a i s cs w Q :
  w_headers w !! p_header pool = Some hd →
  w_controls w !! slot_key pool i = Some s →
  w_components w !! (p_header pool, c) = Some cs → is_Some (w_buffers w !! a) →
  (∀ e, (protect_result pool hd i true e).1 = ZIPC_OK) →
  region_fits (h_slot_capacity hd) (s_region s) = true →
  (∀ now e' lg s1 s',
     s1 = adopted epoch now s →
     s' = set_state ZIPC_SLOT_OWNED (push_trace
            (zipc_platform_time_ns
               (zipc_platform_time_ns (protect_result pool hd i true (w_env w)).2).2).1
            c ZIPC_TRACE_RECOVER s1) →
     Q (Some (ZIPC_OK, true))
       {| w with
          w_controls := <[slot_key pool i := s']> (w_controls w);
          w_headers := <[p_header pool := bump_recovery hd]> (w_headers w);
          w_components := <[(p_header pool, c) := bump_recovered cs]> (w_components w);
          w_buffers := <[a := view_of pool hd i (zipc_handle_make i
                                (next_generation (s_generation s))) s1]> (w_buffers w);
          w_trace_log := lg; w_env := e' |}) →
  wp (restart_adopt pool c dead epoch i a) Q w.
Proof.
  intros Hh Hs Hc Ha Hp Hfit HQ. unfold restart_adopt. wp_start w.
  repeat (wp_step; rewrite ?Hp; status_eval; psimpl).
  - subst. eapply HQ; reflexivity.
  - subst. slot_simpl. cbn [set_owner_epoch mark_recovered s_region] in *. slot_simpl.
    congruence.
Qed.

(** The slot the scan decides on: an abandoned claim of the dead incarnation is
    rolled back, an abandoned token of it dropped. *)
Definition settled (c dead : Z) (s : zipc_slot_control_t) : zipc_slot_control_t :=
  if token_of c dead (s_claim_token s) then
    match s_state s with
    | ZIPC_SLOT_CLAIMING => rolled_back c s
    | ZIPC_SLOT_FREE | ZIPC_SLOT_OWNED => set_token 0 s
    | ZIPC_SLOT_TRANSFER =>
        if claim_token_kind (s_claim_token s) =? ZIPC_CLAIM_RECEIVE
        then set_token 0 s else s
    | ZIPC_SLOT_ERROR => s
    end
  else s.

Definition adopts (c dead : Z) (s : zipc_slot_control_t) : bool :=
  state_is (s_state (settled c dead s)) ZIPC_SLOT_OWNED && owned_by c dead (settled c dead s).

Definition next_incarnation (b : buffer_info) : buffer_info :=
  {| b with bi_generation := next_generation (bi_generation b) |}.

(** What the scan does to slot [i]. *)
Definition restart_result (pool : zipc_pool_t) (hd : zipc_pool_header_t)
    (c dead epoch a i : Z) (s : zipc_slot_control_t) w (v : option (zipc_status_t * bool)) w'
    : Prop :=
  ∃ s', slot_only pool i hd s' w w' ∧
  if adopts c dead s then
    v = Some (ZIPC_OK, true) ∧
    abs_slot s' = SlotView (Owned c epoch (next_incarnation (info_of (settled c dead s))))
                    (s_claim_token (settled c dead s)) ∧
    ∃ b, w_buffers w' = <[a := b]> (w_buffers w) ∧ b_owner b = c ∧ b_owner_epoch b = epoch ∧
      b_handle b = zipc_handle_make i (next_generation (s_generation (settled c dead s)))
  else
    v = None ∧ abs_slot s' = abs_slot (settled c dead s) ∧ w_buffers w' = w_buffers w.

Lemma token_of_zero c dead : 0 < dead → token_of c dead 0 = false.
Proof.
  intros Hd. unfold token_of. rewrite andb_false_iff. right. apply Z.eqb_neq.
  change (claim_token_epoch 0) with 0. lia.
Qed.

Lemma slot_only_intro pool hd i s' hd' cs' w w' :
  w_controls w' = <[slot_key pool i := s']> (w_controls w) →
  w_headers w' = <[p_header pool := hd']> (w_headers w) →
  (h_slot_count hd', h_slot_capacity hd', h_slot_stride hd') =
    (h_slot_count hd, h_slot_capacity hd, h_slot_stride hd) →
  w_components w' = cs' →
  (∀ k, c_lifecycle <$> cs' !! k = c_lifecycle <$> w_components w !! k) →
  (w_rings w', w_generators w', w_payload w', w_trace_hook w') =
    (w_rings w, w_generators w, w_payload w, w_trace_hook w) →
  slot_only pool i hd s' w w'.
Proof.
  intros Hc Hh [= ???] Hcs Hl [= ????]. split; try done; eauto 10.
Qed.

Lemma slot_only_after pool hd i s1 s' e w w' :
  slot_only pool i hd s' (put_env e (put_slot (slot_key pool i) s1 w)) w' →
  slot_only pool i hd s' w w'.
Proof.
  intros [Hs Hh Hc Hr Hg Hp Hk]. destruct w. simpl in *. rewrite insert_insert_eq in Hs.
  by split.
Qed.

Lemma rolled_back_token c s : s_claim_token (rolled_back c s) = 0.
Proof. unfold rolled_back. by repeat case_match. Qed.
Lemma abs_set_token_zero s : s_claim_token s = 0 → abs_slot (set_token 0 s) = abs_slot s.
Proof. intros Ht. unfold abs_slot. slot_simpl. by rewrite Ht. Qed.

Lemma recovered_lifecycle (m : gmap (Z * Z) zipc_component_status_t) k0 cs k :
  m !! k0 = Some cs →
  c_lifecycle <$> <[k0 := bump_recovered cs]> m !! k = c_lifecycle <$> m !! k.
Proof.
  intros Hm. destruct (decide (k = k0)) as [->|].
  - by rewrite lookup_insert_eq, Hm.
  - by rewrite lookup_insert_ne.
Qed.

(** Close a branch of the scan. *)
Ltac scan_slot_done :=
  eexists; split;
    [eapply slot_only_intro; [frame_map|frame_map|done|reflexivity|done|done]
    |split_and!; [done|subst; done|done]].

(** The tail of the scan on an owned slot whose token is settled by it. *)
Lemma wp_restart_owned pool hd c dead epoch a i s t cs w :
  w_headers w !! p_header pool = Some hd →
  w_controls w !! slot_key pool i = Some s → s_state s = ZIPC_SLOT_OWNED →
  w_components w !! (p_header pool, c) = Some cs →
  is_Some (w_buffers w !! a) → 0 < dead →
  (∀ rw e, (protect_result pool hd i rw e).1 = ZIPC_OK) →
  region_fits (h_slot_capacity hd) (s_region s) = true →
  s_claim_token s = t ∨ s_claim_token s = 0 →
  let s0 := if token_of c dead t then set_token 0 s else s in
  wp (restart_owned pool c dead epoch a i t)
    (λ v w', ∃ s', slot_only pool i hd s' w w' ∧
       if owned_by c dead s then
         v = Some (ZIPC_OK, true) ∧
         abs_slot s' = SlotView (Owned c epoch (next_incarnation (info_of s)))
                         (s_claim_token s0) ∧
         ∃ b, w_buffers w' = <[a := b]> (w_buffers w) ∧ b_owner b = c ∧
           b_owner_epoch b = epoch ∧
           b_handle b = zipc_handle_make i (next_generation (s_generation s))
       else v = None ∧ abs_slot s' = abs_slot s0 ∧ w_buffers w' = w_buffers w) w.
Proof.
  intros Hh Hs Hst Hc Ha Hd Hp Hfit Ht s0. unfold restart_owned. wp_start w.
  apply wp_bind.
  apply (wp_mono _ (λ _ w', w' = World hdrs comps (<[slot_key pool i := s0]> ctls) rings bufs
                              gens hook log pay spur env)).
  { subst s0. destruct (token_of c dead t) eqn:Hmine.
    - apply wp_bind. eapply wp_cas_token; [exact Hs| |].
      + intros s1 -> _. by apply wp_ret.
      + intros Hne. apply wp_ret. destruct Ht as [Ht|Ht]; [done|]. f_equal.
        replace (set_token 0 s) with s; [symmetry; by apply insert_id|].
        destruct s; simpl in *; by subst.
    - apply wp_ret. f_equal. symmetry. by apply insert_id. }
  intros _ ? ->. apply wp_bind.
  eapply wp_cas_state; [apply lookup_insert_eq| |].
  2: { intros Hn. destruct Hn. subst s0. by destruct (token_of c dead t). }
  intros s1 -> _. psimpl. apply wp_bind. eapply wp_slot_read; [apply lookup_insert_eq|].
  replace (owned_by c dead (set_state ZIPC_SLOT_ERROR s0)) with (owned_by c dead s)
    by (subst s0; by destruct (token_of c dead t)).
  destruct (owned_by c dead s) eqn:Hown; psimpl.
  - eapply wp_restart_adopt; [exact Hh|apply lookup_insert_eq|exact Hc|exact Ha|auto|
      subst s0; by destruct (token_of c dead t)|].
    intros now e' lg s2 s3 -> ->. eexists. split.
    + eapply slot_only_intro; [world_simpl; by rewrite !insert_insert_eq|frame_map|done
        |reflexivity| |done]. intros k. by apply recovered_lifecycle.
    + unfold owned_by in Hown. bool_to_prop. subst c dead.
      split_and!; [done|subst s0; by destruct (token_of _ _ t)|].
      eexists. split_and!; [reflexivity|subst s0; by destruct (token_of _ _ t)..].
  - wp_run. eexists. split.
    + eapply slot_only_intro; [frame_map|frame_map|done|reflexivity|done|done].
    + split_and!; [done| |done]. subst s'. unfold abs_slot. slot_simpl.
      subst s0. destruct (token_of c dead t); slot_simpl; by rewrite Hst.
Qed.

Lemma wp_restart_slot pool hd c dead epoch a i s cs w :
  w_headers w !! p_header pool = Some hd →
  w_controls w !! slot_key pool i = Some s →
  w_components w !! (p_header pool, c) = Some cs →
  is_Some (w_buffers w !! a) → 0 < dead →
  (∀ rw e, (protect_result pool hd i rw e).1 = ZIPC_OK) →
  (s_state (settled c dead s) = ZIPC_SLOT_OWNED →
     region_fits (h_slot_capacity hd) (s_region (settled c dead s)) = true) →
  wp (restart_slot pool c dead epoch a i) (restart_result pool hd c dead epoch a i s w) w.
Proof.
  intros Hh Hs Hc Ha Hd Hp Hfit. unfold restart_slot, restart_result.
  apply wp_bind. eapply wp_slot_read; [exact Hs|].
  apply wp_bind. eapply wp_slot_read; [exact Hs|]. wp_start w.
  unfold adopts. unfold settled in *.
  destruct (token_of c dead (s_claim_token s)) eqn:Hmine, (s_state s) eqn:Hst;
    status_eval; psimpl; slot_simpl; rewrite ?Hst in *; status_eval; psimpl;
    rewrite ?andb_false_r, ?andb_true_r; psimpl.
  all: try (repeat (wp_step; status_eval; psimpl); scan_slot_done).
  - apply wp_bind. eapply wp_restart_claiming; [done..|auto|]. intros e' s' ->.
    destruct (state_is (s_state (rolled_back c s)) ZIPC_SLOT_OWNED) eqn:Hr; psimpl.
    + status_eval. apply bool_decide_eq_true in Hr. eapply wp_mono.
      { eapply (wp_restart_owned pool hd c dead epoch a i (rolled_back c s));
          [exact Hh|apply lookup_insert_eq|done|exact Hc|exact Ha|done|done|auto|].
        right. apply rolled_back_token. }
      intros v w' (s'&Hso%slot_only_after&Hcase). exists s'. split; [exact Hso|].
      rewrite Hmine in Hcase. unfold owned_by in Hcase.
      rewrite abs_set_token_zero in Hcase by apply rolled_back_token.
      rewrite rolled_back_token. exact Hcase.
    + apply wp_ret. scan_slot_done.
  - apply wp_bind, wp_ret. status_eval. eapply wp_mono.
    { eapply (wp_restart_owned pool hd c dead epoch a i s (s_claim_token s)); eauto. }
    rewrite Hmine. intros v w' (s'&Hso&Hcase). exists s'. split; [exact Hso|].
    unfold owned_by in Hcase. exact Hcase.
  - destruct (claim_token_kind _ =? _); repeat (wp_step; status_eval; psimpl);
      try done; slot_simpl; rewrite ?Hst; status_eval; scan_slot_done.
  - unfold restart_claiming. rewrite Hmine. repeat (wp_step; status_eval; psimpl).
    scan_slot_done.
  - apply wp_bind, wp_ret. status_eval. eapply wp_mono.
    { eapply (wp_restart_owned pool hd c dead epoch a i s (s_claim_token s)); eauto. }
    rewrite Hmine. intros v w' (s'&Hso&Hcase). exists s'. split; [exact Hso|].
    unfold owned_by in Hcase. exact Hcase.
Qed.

(** A settled slot that is not adopted is clean, and so is an adopted one. *)
Lemma settled_clean c dead s :
  0 < dead → s_state s ≠ ZIPC_SLOT_ERROR → adopts c dead s = false →
  view_clean c dead (abs_slot (settled c dead s)).
Proof.
  intros Hd Herr Had. unfold adopts in Had. unfold view_clean.
  assert (Hbusy : s_state (settled c dead s) = ZIPC_SLOT_CLAIMING →
    token_of c dead (s_claim_token (settled c dead s)) = false).
  { unfold settled. destruct (token_of c dead (s_claim_token s)) eqn:Hm; [|done].
    destruct (s_state s) eqn:Hst; slot_simpl; rewrite ?Hst; try done.
    - unfold rolled_back. by repeat case_match.
    - case_match; slot_simpl; by rewrite Hst. }
  assert (Hne : s_state (settled c dead s) ≠ ZIPC_SLOT_ERROR).
  { unfold settled, rolled_back. repeat case_match; slot_simpl; congruence. }
  unfold abs_slot. destruct (s_state (settled c dead s)) eqn:Hst; simpl; try done; [by apply Hbusy|].
  unfold owned_by, state_is in Had. rewrite bool_decide_eq_true_2 in Had by done.
  intros [Ho%Z.eqb_eq He%Z.eqb_eq]. by rewrite Ho, He in Had.
Qed.

(** The scan from slot [lo] has turned every slot [s] before [j] into some
    [s'] with [R s s'], starting from world [w0]. *)
Record scan_state (R : zipc_slot_control_t → zipc_slot_control_t → Prop)
    (pool : zipc_pool_t) (hd : zipc_pool_header_t) (lo j : Z) (w0 w : world E) : Prop := {
  ss_header : ∃ hd', w_headers w !! p_header pool = Some hd' ∧
    h_slot_count hd' = h_slot_count hd ∧ h_slot_capacity hd' = h_slot_capacity hd ∧
    h_slot_stride hd' = h_slot_stride hd;
  ss_components k : c_lifecycle <$> w_components w !! k = c_lifecycle <$> w_components w0 !! k;
  ss_done m s : lo <= m < j → w_controls w0 !! slot_key pool m = Some s →
    ∃ s', w_controls w !! slot_key pool m = Some s' ∧ R s s';
  ss_rest k : (∀ m, lo <= m < j → k ≠ slot_key pool m) →
    w_controls w !! k = w_controls w0 !! k;
  ss_buffers : w_buffers w = w_buffers w0;
  ss_payload : w_payload w = w_payload w0 }.

Lemma slot_key_inj pool i j : slot_key pool i = slot_key pool j → i = j.
Proof. by intros [=]. Qed.

Lemma scan_state_start R pool hd lo w :
  w_headers w !! p_header pool = Some hd → scan_state R pool hd lo lo w w.
Proof. intros Hh. split; try done; [by exists hd|intros; lia]. Qed.

Lemma scan_state_step R pool hd hd' lo j s s' w0 w w' :
  scan_state R pool hd lo j w0 w → lo <= j →
  w_controls w0 !! slot_key pool j = Some s →
  h_slot_count hd' = h_slot_count hd → h_slot_capacity hd' = h_slot_capacity hd →
  h_slot_stride hd' = h_slot_stride hd →
  slot_only pool j hd' s' w w' → R s s' → w_buffers w' = w_buffers w →
  scan_state R pool hd lo (j + 1) w0 w'.
Proof.
  intros [_ Hcomp Hdone Hrest Hbuf Hpay] Hj Hs Hc1 Hc2 Hc3
    [Hctl (hd2&Hh2&?&?&?) (cs&Hcs&Hl) _ _ Hp _] HR Hb. split.
  - exists hd2. rewrite Hh2, lookup_insert_eq. split_and!; congruence.
  - intros k. by rewrite Hcs, Hl.
  - intros m t Hm Ht. rewrite Hctl. destruct (decide (m = j)) as [->|Hne].
    + rewrite lookup_insert_eq. rewrite Hs in Ht. injection Ht as <-. by exists s'.
    + rewrite lookup_insert_ne by (intros Heq%slot_key_inj; congruence).
      apply Hdone; [lia|done].
  - intros k Hk. rewrite Hctl, lookup_insert_ne by (intros <-; by apply (Hk j); [lia|]).
    apply Hrest. intros m Hm. apply Hk. lia.
  - congruence.
  - congruence.
Qed.

(** The slot at the scan's position is still the original one. *)
Lemma scan_state_here R pool hd lo j i w0 w :
  scan_state R pool hd lo j w0 w → j <= i →
  w_controls w !! slot_key pool i = w_controls w0 !! slot_key pool i.
Proof.
  intros Hst Hi. apply (ss_rest _ _ _ _ _ _ _ Hst).
  intros m Hm Heq%slot_key_inj. lia.
Qed.
Lemma scan_state_component R pool hd lo j k cs w0 w :
  scan_state R pool hd lo j w0 w → w_components w0 !! k = Some cs →
  ∃ cs1, w_components w !! k = Some cs1.
Proof.
  intros Hst Hc. pose proof (ss_components _ _ _ _ _ _ _ Hst k) as Hl.
  rewrite Hc in Hl. destruct (w_components w !! k); [eauto|done].
Qed.

Lemma protect_result_geometry pool hd hd' i rw (e : E) :
  h_slot_count hd' = h_slot_count hd → h_slot_capacity hd' = h_slot_capacity hd →
  h_slot_stride hd' = h_slot_stride hd →
  protect_result pool hd' i rw e = protect_result pool hd i rw e.
Proof. intros H1 H2 H3. unfold protect_result. by rewrite H1, H2, H3. Qed.

(** A slot the restart scan passed over. *)
Definition passed (c dead : Z) (s s' : zipc_slot_control_t) : Prop :=
  adopts c dead s = false ∧ abs_slot s' = abs_slot (settled c dead s).

(** What one call of [zipc_component_restart_next] leaves, for a scan that
    starts at slot [lo]: the slots it passed are settled, and it either adopted
    slot [n] or reached the end. *)
Definition next_result (pool : zipc_pool_t) (hd : zipc_pool_header_t)
    (c dead epoch a lo : Z) (r0 : zipc_restart_t) w
    (r : zipc_status_t * option zipc_restart_t) (w' : world E) : Prop :=
  (∃ n s s' b w1, lo <= n < h_slot_count hd ∧
     r = (ZIPC_OK, Some (set_restart_cursor (n + 1) r0)) ∧
     scan_state (passed c dead) pool hd lo n w w1 ∧
     w_controls w !! slot_key pool n = Some s ∧ adopts c dead s = true ∧
     w_controls w' = <[slot_key pool n := s']> (w_controls w1) ∧
     abs_slot s' = SlotView (Owned c epoch (next_incarnation (info_of (settled c dead s))))
                     (s_claim_token (settled c dead s)) ∧
     w_buffers w' = <[a := b]> (w_buffers w1) ∧ b_owner b = c ∧ b_owner_epoch b = epoch ∧
     b_handle b = zipc_handle_make n (next_generation (s_generation (settled c dead s))) ∧
     w_payload w' = w_payload w) ∨
  (r = (ZIPC_ERR_NO_BUFFER,
        Some (set_scan_complete (set_restart_cursor (h_slot_count hd) r0))) ∧
   scan_state (passed c dead) pool hd lo (h_slot_count hd) w w').

Lemma wp_restart_next fuel pool hd c dead cursor complete a cs w :
  attached pool hd w → zipc_component_id_valid c = true →
  w_components w !! (p_header pool, c) = Some cs →
  c_lifecycle cs = component_lifecycle_make (dead + 1) ZIPC_COMPONENT_RECOVERING →
  0 < dead < UINT32_MAX → 0 <= cursor <= h_slot_count hd →
  (Z.to_nat (h_slot_count hd) < fuel)%nat → a ≠ 0 → is_Some (w_buffers w !! a) →
  (∀ i rw e, 0 <= i < h_slot_count hd → (protect_result pool hd i rw e).1 = ZIPC_OK) →
  (∀ i s, w_controls w !! slot_key pool i = Some s →
     s_state (settled c dead s) = ZIPC_SLOT_OWNED →
     region_fits (h_slot_capacity hd) (s_region (settled c dead s)) = true) →
  let r0 := ZipcRestart (Some pool) c dead (dead + 1) cursor complete in
  wp (zipc_component_restart_next fuel (Some r0) a)
    (next_result pool hd c dead (dead + 1) a cursor r0 (put_buffer a zero_buffer w)) w.
Proof.
  intros Hat Hv Hcs Hlife Hd Hcur Hf Ha Hb Hp Hfit r0. subst r0.
  unfold zipc_component_restart_next, component_epoch_recovering.
  cbn [rs_pool rs_component rs_epoch rs_dead_epoch rs_cursor].
  rewrite (proj2 (Z.eqb_neq a 0) Ha), Hv, (proj2 (Z.eqb_neq (dead + 1) 0)) by lia. psimpl.
  apply wp_bind, wp_bind. eapply wp_component_read; [exact Hcs|]. apply wp_ret.
  rewrite Hlife, Z.eqb_refl, u32_small, Z.eqb_refl by zlia. psimpl.
  apply wp_bind. eapply wp_buffer_invalidate; [done|done|].
  set (w0 := put_buffer a zero_buffer w). apply wp_bind.
  pose proof (at_count _ _ _ Hat) as Hcount.
  apply (wp_scan_slots (λ j _ w1, scan_state (passed c dead) pool hd cursor j w0 w1) fuel pool
    cursor () _ _ (h_slot_count hd)); [lia|lia|lia| | | |].
  - intros j _ w1 [(hd'&Hh'&Hc'&_) _ _ _ _ _]. eauto.
  - apply scan_state_start. apply (at_header _ _ _ Hat).
  - intros j [] w1 Hj Hst. destruct (at_slots _ _ _ Hat j ltac:(lia)) as [s Hs].
    destruct (ss_header _ _ _ _ _ _ _ Hst) as (hd'&Hh'&Hg1&Hg2&Hg3).
    destruct (scan_state_component _ _ _ _ _ (p_header pool, c) cs _ _ Hst Hcs) as [cs1 Hc1].
    apply wp_bind. eapply wp_mono.
    { eapply (wp_restart_slot pool hd' c dead (dead + 1) a j s cs1 w1); try done.
      - by rewrite (scan_state_here _ _ _ _ _ j _ _ Hst) by lia.
      - rewrite (ss_buffers _ _ _ _ _ _ _ Hst). unfold w0. simpl.
        rewrite lookup_insert_eq. by eexists.
      - lia.
      - intros rw e. rewrite (protect_result_geometry pool hd) by done. apply Hp. lia.
      - rewrite Hg2. by apply (Hfit j). }
    intros v w2 (s'&Hso&Hcase). apply wp_ret.
    destruct (adopts c dead s) eqn:Had.
    + destruct Hcase as (->&Habs&b&Hbuf&Hbo&Hbe&Hbh). apply wp_ret. left.
      exists j, s, s', b, w1. rewrite u32_small by zlia.
      destruct Hso as [Hctl _ _ _ _ Hpay _].
      pose proof (ss_payload _ _ _ _ _ _ _ Hst). split_and!; try done; try lia; congruence.
    + destruct Hcase as (->&Habs&Hbuf).
      eapply scan_state_step; [exact Hst|lia|exact Hs|exact Hg1|exact Hg2|exact Hg3
        |exact Hso|by split|done].
  - intros _ w1 Hst. apply wp_ret. right. done.
Qed.

Lemma adopted_clean c dead v b t :
  0 < dead < UINT32_MAX → sv_owner v = Owned c (dead + 1) b → sv_token v = t →
  view_clean c dead v.
Proof. intros Hd Ho _. unfold view_clean. rewrite Ho. lia. Qed.

End restart.

(** ** Reclaiming *)
Section reclaim.
Context {E : Type} `{Platform E}.
Implicit Type w : world E.

(** A claim reset to a free slot; every other slot untouched. *)
Definition reset_claim (s s' : zipc_slot_control_t) : Prop :=
  if state_is (s_state s) ZIPC_SLOT_CLAIMING
  then s' = set_state ZIPC_SLOT_FREE (set_token 0 (reset_slot s)) else s' = s.

Lemma wp_recover_claiming_slot pool hd i s n w :
  w_headers w !! p_header pool = Some hd →
  w_controls w !! slot_key pool i = Some s →
  (∀ e, (protect_result pool hd i false e).1 = ZIPC_OK) →
  wp (recover_claiming_slot pool i n)
    (λ r w', ∃ s', slot_only pool i hd s' w w' ∧ reset_claim s s' ∧
       w_buffers w' = w_buffers w ∧
       r = inl (if state_is (s_state s) ZIPC_SLOT_CLAIMING then u32 (n + 1) else n)) w.
Proof.
  intros Hh Hs Hp. unfold recover_claiming_slot, reset_claim. wp_start w.
  destruct (state_is (s_state s) ZIPC_SLOT_CLAIMING) eqn:Hst;
    repeat (wp_step; rewrite ?Hst, ?Hp; status_eval; psimpl).
  2: by apply bool_decide_eq_true in Hst.
  all: eexists; split; [eapply slot_only_intro; [frame_map|frame_map|done|reflexivity|done|done]|].
  all: subst; done.
Qed.

(** The number of slots among the first [n] that satisfy [p]. *)
Definition slot_holds (p : zipc_slot_control_t → bool) (pool : zipc_pool_t) w (i : Z)
    : bool :=
  match w_controls w !! slot_key pool i with Some s => p s | None => false end.
Fixpoint slots_with (p : zipc_slot_control_t → bool) (pool : zipc_pool_t) w (n : nat) : Z :=
  match n with
  | O => 0
  | S n' => slots_with p pool w n' + (if slot_holds p pool w (Z.of_nat n') then 1 else 0)
  end.
Definition is_claiming (s : zipc_slot_control_t) : bool :=
  state_is (s_state s) ZIPC_SLOT_CLAIMING.

Lemma slots_with_bound p pool w n : 0 <= slots_with p pool w n <= Z.of_nat n.
Proof. induction n; simpl; [lia|]. case_match; lia. Qed.
(** Counting one slot further, as the loops do. *)
Lemma slots_with_next p pool w j s :
  0 <= j < UINT32_MAX → w_controls w !! slot_key pool j = Some s →
  slots_with p pool w (Z.to_nat (j + 1)) =
    if p s then u32 (slots_with p pool w (Z.to_nat j) + 1)
    else slots_with p pool w (Z.to_nat j).
Proof.
  intros Hj Hs. replace (Z.to_nat (j + 1)) with (S (Z.to_nat j)) by lia.
  cbn [slots_with]. unfold slot_holds. rewrite Z2Nat.id, Hs by lia.
  pose proof (slots_with_bound p pool w (Z.to_nat j)).
  case_match; [rewrite u32_small by zlia|]; lia.
Qed.

(** C22. [zipc_pool_recover_claiming] ends every abandoned claim: when mappings
    can be revoked it returns OK with the number of slots found CLAIMING, each
    of those is free, without owner, region or token and can be allocated
    again, and every other slot is exactly as before. *)
Theorem recover_claiming_frees fuel pool hd w :
  attached pool hd w → (Z.to_nat (h_slot_count hd) < fuel)%nat →
  (∀ i e, 0 <= i < h_slot_count hd → (protect_result pool hd i false e).1 = ZIPC_OK) →
  wp (zipc_pool_recover_claiming fuel (Some pool))
    (λ r w', r = (ZIPC_OK, Some (slots_with is_claiming pool w (Z.to_nat (h_slot_count hd)))) ∧
       w_payload w' = w_payload w ∧ w_buffers w' = w_buffers w ∧
       ∀ i s, 0 <= i < h_slot_count hd → w_controls w !! slot_key pool i = Some s →
         ∃ s', w_controls w' !! slot_key pool i = Some s' ∧
           if state_is (s_state s) ZIPC_SLOT_CLAIMING
           then allocatable s' = true ∧ s_owner_id s' = ZIPC_INVALID_COMPONENT_ID ∧
                s_region s' = zero_region ∧ s_generation s' = s_generation s
           else s' = s) w.
Proof.
  intros Hat Hf Hp. unfold zipc_pool_recover_claiming. apply wp_bind.
  pose proof (at_count _ _ _ Hat) as Hcount.
  apply (wp_scan_slots (λ j n w1, scan_state reset_claim pool hd 0 j w w1 ∧
    n = slots_with is_claiming pool w (Z.to_nat j)) fuel pool 0 0 _ _ (h_slot_count hd));
    [lia|lia|lia| | | |].
  - intros j n w1 [[(hd'&Hh'&Hc'&_) _ _ _ _ _] _]. eauto.
  - split; [|done]. apply scan_state_start. apply (at_header _ _ _ Hat).
  - intros j n w1 Hj [Hst ->]. destruct (at_slots _ _ _ Hat j ltac:(lia)) as [s Hs].
    destruct (ss_header _ _ _ _ _ _ _ Hst) as (hd'&Hh'&Hg1&Hg2&Hg3).
    eapply wp_mono.
    { eapply (wp_recover_claiming_slot pool hd' j s); [done| |].
      - by rewrite (scan_state_here _ _ _ _ _ j _ _ Hst) by lia.
      - intros e. rewrite (protect_result_geometry pool hd) by done. apply Hp. lia. }
    intros r w2 (s'&Hso&Hres&Hbuf&->). split.
    + eapply scan_state_step; [exact Hst|lia|exact Hs|exact Hg1|exact Hg2|exact Hg3
        |exact Hso|exact Hres|done].
    + by rewrite (slots_with_next _ _ _ j s) by (done || lia).
  - intros n w1 [Hst ->]. apply wp_ret. split; [done|].
    split; [apply (ss_payload _ _ _ _ _ _ _ Hst)|].
    split; [apply (ss_buffers _ _ _ _ _ _ _ Hst)|]. intros i s Hi Hs.
    destruct (ss_done _ _ _ _ _ _ _ Hst i s Hi Hs) as (s'&Hs'&Hres). exists s'.
    split; [exact Hs'|]. unfold reset_claim in Hres. by case_match; subst.
Qed.
End reclaim.
