(* ===== verification/Reclaim.v ===== *)
(** * Reclaiming the slots of a dead owner, and reading traces back

    [zipc_pool_recover_owner] frees exactly the slots of the dead incarnation;
    [zipc_slot_trace_copy] returns the last events of a slot in order. *)
From S2P Require Import Prelude Types Packing Visited Prog Store Identity Slot SlotRun.
From S2P Require Import IdentitySpec SlotSpec Alloc Demo Recovery RecoverySpec.

(** ** Reclaiming *)
Section reclaim_owner.
Context {E : Type} `{Platform E}.
Implicit Type w : world E.

(** The slots [zipc_pool_recover_owner] reclaims, by state. *)
Definition reclaims (c dead age now : Z) (st : zipc_slot_state_t)
    (s : zipc_slot_control_t) : bool :=
  state_is (s_state s) st && (s_owner_id s =? c) && (s_owner_epoch s =? dead) &&
  negb (too_young age now s).
Definition reclaimable (c dead age now : Z) (s : zipc_slot_control_t) : bool :=
  reclaims c dead age now ZIPC_SLOT_OWNED s || reclaims c dead age now ZIPC_SLOT_TRANSFER s.
(** The slots it skips because a later incarnation owns them. *)
Definition newer (c dead : Z) (s : zipc_slot_control_t) : bool :=
  (state_is (s_state s) ZIPC_SLOT_OWNED || state_is (s_state s) ZIPC_SLOT_TRANSFER) &&
  (s_owner_id s =? c) && (dead <? s_owner_epoch s).

Definition reclaimed (c dead age now : Z) (s s' : zipc_slot_control_t) : Prop :=
  if reclaimable c dead age now s
  then ∃ t, s' = set_state ZIPC_SLOT_FREE (reclaim_owned
                   (push_trace t c ZIPC_TRACE_RECOVER (set_state ZIPC_SLOT_ERROR s)))
  else s' = s.

(** What one slot adds to the counters. *)
Definition tally (c dead age now : Z) (s : zipc_slot_control_t)
    (r : zipc_recovery_result_t) : zipc_recovery_result_t :=
  if reclaims c dead age now ZIPC_SLOT_OWNED s then count_owned r
  else if reclaims c dead age now ZIPC_SLOT_TRANSFER s then count_transfer r
  else if newer c dead s then count_newer r else r.

Lemma set_state_back x s : s_state s = x → set_state x (set_state ZIPC_SLOT_ERROR s) = s.
Proof. intros <-. by destruct s. Qed.

Lemma wp_recover_owner_slot pool hd c dead age now i s n cs w :
  w_headers w !! p_header pool = Some hd →
  w_controls w !! slot_key pool i = Some s →
  w_components w !! (p_header pool, c) = Some cs →
  (∀ e, (protect_result pool hd i false e).1 = ZIPC_OK) →
  wp (recover_owner_slot pool c dead age now i n)
    (λ r w', ∃ s', slot_only pool i hd s' w w' ∧ reclaimed c dead age now s s' ∧
       w_buffers w' = w_buffers w ∧ r = inl (tally c dead age now s n)) w.
Proof.
  intros Hh Hs Hc Hp. unfold recover_owner_slot. wp_start w.
  repeat (wp_step; rewrite ?Hp; status_eval; psimpl); run_absurd.
  all: eexists; split; [eapply slot_only_intro; [frame_map|frame_map|done|reflexivity
    |intros; first [done|by apply recovered_lifecycle]|done]|].
  all: unfold reclaimed, reclaimable, tally, reclaims, newer; subst; unfold too_young in *;
    slot_simpl; rewrite ?set_state_back by done.
  all: destruct (s_state s) eqn:Hst; status_eval; psimpl; try done.
  all: unfold state_is in *; simpl in *; try done.
  all: test_clean; use_tests; rewrite ?andb_false_r; simpl; split_and!; try done; eauto.
  all: repeat match goal with H : (s_owner_epoch _ =? _) = true |- _ =>
         apply Z.eqb_eq in H; rewrite H end; by rewrite Z.ltb_irrefl.
Qed.

(** The three counters count disjoint slots. *)
Lemma reclaims_disjoint c dead age now s a b n :
  tally c dead age now s (ZipcRecoveryResult a b n) =
    ZipcRecoveryResult
      (if reclaims c dead age now ZIPC_SLOT_OWNED s then u32 (a + 1) else a)
      (if reclaims c dead age now ZIPC_SLOT_TRANSFER s then u32 (b + 1) else b)
      (if newer c dead s then u32 (n + 1) else n).
Proof.
  unfold tally, reclaims, newer, state_is.
  destruct (s_state s); simpl; rewrite ?andb_false_r; try done.
  all: destruct (s_owner_id s =? c), (Z.eqb_spec (s_owner_epoch s) dead) as [->|],
    (too_young age now s); simpl; rewrite ?Z.ltb_irrefl; try done.
  all: by case_match.
Qed.

(** C23. [zipc_pool_recover_owner] reclaims exactly the slots of the dead
    incarnation: when mappings can be revoked and the component does not run
    under the dead epoch, it returns OK with the number of OWNED slots, of
    TRANSFER slots and of slots of a later incarnation; every slot the dead
    incarnation owned (or had in transfer) for at least the minimum age is FREE
    with no owner, no region, the same generation and the error flag set, and
    every other slot, in particular every slot of another component or of a
    later epoch, is exactly as before.  A reclaimed slot can be allocated again
    exactly when its previous owner left no claim token on it. *)
Theorem recover_owner_reclaims fuel pool hd c dead age cs w :
  attached pool hd w → (Z.to_nat (h_slot_count hd) < fuel)%nat →
  zipc_component_id_valid c = true → dead ≠ 0 →
  w_components w !! (p_header pool, c) = Some cs →
  live_epoch (c_lifecycle cs) ≠ dead →
  (∀ i e, 0 <= i < h_slot_count hd → (protect_result pool hd i false e).1 = ZIPC_OK) →
  let now := (zipc_platform_time_ns (w_env w)).1 in
  let n := Z.to_nat (h_slot_count hd) in
  wp (zipc_pool_recover_owner fuel (Some pool) c dead age)
    (λ r w', r = (ZIPC_OK, Some (ZipcRecoveryResult
         (slots_with (reclaims c dead age now ZIPC_SLOT_OWNED) pool w n)
         (slots_with (reclaims c dead age now ZIPC_SLOT_TRANSFER) pool w n)
         (slots_with (newer c dead) pool w n))) ∧
       w_payload w' = w_payload w ∧ w_buffers w' = w_buffers w ∧
       ∀ i s, 0 <= i < h_slot_count hd → w_controls w !! slot_key pool i = Some s →
         ∃ s', w_controls w' !! slot_key pool i = Some s' ∧
           if reclaimable c dead age now s
           then s_state s' = ZIPC_SLOT_FREE ∧ s_owner_id s' = ZIPC_INVALID_COMPONENT_ID ∧
                s_next_owner_id s' = ZIPC_INVALID_COMPONENT_ID ∧
                s_region s' = zero_region ∧ s_generation s' = s_generation s ∧
                Z.testbit (s_error_flags s') 0 = true ∧
                allocatable s' = (s_claim_token s =? 0)
           else s' = s) w.
Proof.
  intros Hat Hf Hv Hd Hcs Hlive Hp now n. pose proof (at_count _ _ _ Hat) as Hcount.
  unfold zipc_pool_recover_owner. rewrite Hv, (proj2 (Z.eqb_neq dead 0) Hd). psimpl.
  apply wp_bind. eapply wp_component_read; [exact Hcs|].
  replace (_ && (_ =? dead)) with false.
  2: { unfold live_epoch in Hlive. symmetry. destruct (_ =? ZIPC_COMPONENT_INACTIVE); [done|].
       by apply Z.eqb_neq. }
  apply wp_bind. eapply wp_env_call. fold now. apply wp_bind.
  set (w0 := put_env _ w).
  assert (Hc0 : ∀ k, w_controls w0 !! k = w_controls w !! k) by done.
  apply (wp_scan_slots (λ j r w1, scan_state (reclaimed c dead age now) pool hd 0 j w0 w1 ∧
    r = ZipcRecoveryResult
      (slots_with (reclaims c dead age now ZIPC_SLOT_OWNED) pool w (Z.to_nat j))
      (slots_with (reclaims c dead age now ZIPC_SLOT_TRANSFER) pool w (Z.to_nat j))
      (slots_with (newer c dead) pool w (Z.to_nat j)))
    fuel pool 0 _ _ _ (h_slot_count hd)); [lia|lia|lia| | | |].
  - intros j r w1 [[(hd'&Hh'&Hc'&_) _ _ _ _ _] _]. eauto.
  - split; [|done]. apply scan_state_start. apply (at_header _ _ _ Hat).
  - intros j r w1 Hj [Hst ->]. destruct (at_slots _ _ _ Hat j ltac:(lia)) as [s Hs].
    destruct (ss_header _ _ _ _ _ _ _ Hst) as (hd'&Hh'&Hg1&Hg2&Hg3).
    destruct (scan_state_component _ _ _ _ _ _ _ _ _ Hst Hcs) as [cs1 Hcs1].
    eapply wp_mono.
    { eapply (wp_recover_owner_slot pool hd' c dead age now j s); [done| |exact Hcs1|].
      - by rewrite (scan_state_here _ _ _ _ _ j _ _ Hst) by lia.
      - intros e. rewrite (protect_result_geometry pool hd) by done. apply Hp. lia. }
    intros r w2 (s'&Hso&Hres&Hbuf&->). split.
    + eapply scan_state_step; [exact Hst|lia|exact Hs|exact Hg1|exact Hg2|exact Hg3
        |exact Hso|exact Hres|done].
    + rewrite !(slots_with_next _ _ _ j s) by (done || lia). by rewrite reclaims_disjoint.
  - intros r w1 [Hst ->]. apply wp_ret. split; [done|].
    split; [apply (ss_payload _ _ _ _ _ _ _ Hst)|].
    split; [apply (ss_buffers _ _ _ _ _ _ _ Hst)|]. intros i s Hi Hs.
    destruct (ss_done _ _ _ _ _ _ _ Hst i s Hi Hs) as (s'&Hs'&Hres). exists s'.
    split; [exact Hs'|]. unfold reclaimed in Hres.
    destruct (reclaimable _ _ _ _ s); [|done]. destruct Hres as [t ->].
    unfold reclaim_owned. slot_simpl. split_and!; try done.
    by rewrite Z.lor_spec, orb_comm.
Qed.
End reclaim_owner.

(** The owner died between taking the claim token and closing the slot: the
    slot is reclaimed as FREE, and no later allocation or reclaim can use it. *)
Definition demo_dying : zipc_slot_control_t :=
  set_token (claim_token_make ZIPC_CLAIM_SEND 7 1) demo_owned.
Definition demo_inactive : zipc_component_status_t :=
  set_lifecycle (component_lifecycle_make 1 ZIPC_COMPONENT_INACTIVE) demo_component.
Definition demo_world_dead : world demo :=
  put_component (1000, 7) demo_inactive (demo_world_with demo_dying demo_dying).

Lemma demo_dead_attached : attached demo_pool demo_header demo_world_dead.
Proof.
  destruct (demo_attached demo_dying demo_dying) as [H1 H2 H3 H4].
  split; [exact H1|exact H2|exact H3|]. intros c Hc. cbn [demo_world_dead put_component w_components].
  destruct (decide (c = 7)) as [->|Hne]; [rewrite lookup_insert_eq; eauto|].
  rewrite lookup_insert_ne by (intros [= Heq]; by apply Hne). by apply H4.
Qed.

Lemma demo_protect i rw e :
  0 <= i < 2 → (protect_result demo_pool demo_header i rw e).1 = ZIPC_OK.
Proof.
  intros Hi. unfold protect_result. cbn [p_flags demo_pool h_slot_count demo_header].
  rewrite (proj2 (Z.leb_gt 2 i)) by lia. by destruct rw.
Qed.

Lemma recover_owner_reclaims_witness :
  wp (zipc_pool_recover_owner 3 (Some demo_pool) 7 1 0)
    (λ r w', r = (ZIPC_OK, Some (ZipcRecoveryResult 2 0 0)) ∧
       ∃ s, w_controls w' !! slot_key demo_pool 0 = Some s ∧
            s_state s = ZIPC_SLOT_FREE ∧ allocatable s = false) demo_world_dead.
Proof.
  unshelve epose proof (recover_owner_reclaims 3 demo_pool demo_header 7 1 0 demo_inactive
    demo_world_dead demo_dead_attached _ eq_refl _ (lookup_insert_eq _ _ _) _ _) as Hw;
    [cbn; lia|lia|vm_compute; discriminate|intros; by apply demo_protect|].
  cbv zeta in Hw. eapply wp_mono; [exact Hw|].
  intros r w' (->&_&_&Hs). split; [vm_compute; reflexivity|].
  destruct (Hs 0 demo_dying) as (s'&Hs'&Hr); [cbn; lia|reflexivity|].
  change (reclaimable _ _ _ _ _) with true in Hr. exists s'.
  destruct Hr as (Hfree&_&_&_&_&_&Halloc). split; [exact Hs'|]. split; [exact Hfree|].
  rewrite Halloc. vm_compute. reflexivity.
Defined.

(** Reclaiming, then sweeping the abandoned claims, then allocating. *)
Example leaked_slots_unallocatable :
  run (zipc_pool_recover_owner 3 (Some demo_pool) 7 1 0;;
       zipc_pool_recover_claiming 3 (Some demo_pool);;
       zipc_buffer_allocate 9 (Some demo_pool) 9 0 1) demo_world_dead
    ≫= (λ r, Some r.1) = Some ZIPC_ERR_NO_BUFFER.
Proof. vm_compute. reflexivity. Qed.

(** A restart of component 7: epoch 1 died, epoch 2 is recovering. *)
Definition demo_recovering : zipc_component_status_t :=
  set_lifecycle (component_lifecycle_make 2 ZIPC_COMPONENT_RECOVERING) demo_component.
Definition demo_world_restarting : world demo :=
  put_component (1000, 7) demo_recovering demo_world.

Lemma demo_put_component_attached x s0 s1 c0 :
  attached demo_pool demo_header (put_component (1000, c0) x (demo_world_with s0 s1)).
Proof.
  destruct (demo_attached s0 s1) as [H1 H2 H3 H4]. split; [exact H1|exact H2|exact H3|].
  intros c Hc. cbn [put_component w_components].
  destruct (decide (c = c0)) as [->|Hne]; [rewrite lookup_insert_eq; eauto|].
  rewrite lookup_insert_ne by (intros [= Heq]; by apply Hne). by apply H4.
Qed.

(** The slots of the demonstration pool, one by one. *)
Lemma demo_slot_cases s0 s1 i s :
  w_controls (demo_world_with s0 s1) !! slot_key demo_pool i = Some s →
  (i = 0 ∧ s = s0) ∨ (i = 1 ∧ s = s1).
Proof.
  cbn [demo_world_with w_controls]. unfold slot_key. cbn [p_header demo_pool].
  rewrite lookup_insert_Some, lookup_singleton_Some. naive_solver.
Qed.


(** An allocation abandoned half-way. *)
Definition demo_abandoned : zipc_slot_control_t :=
  set_token (claim_token_make ZIPC_CLAIM_ALLOCATE 7 1) (set_state ZIPC_SLOT_CLAIMING demo_free).
Lemma recover_claiming_frees_witness :
  wp (zipc_pool_recover_claiming 3 (Some demo_pool))
    (λ r w', r = (ZIPC_OK, Some 1) ∧
       ∃ s, w_controls w' !! slot_key demo_pool 1 = Some s ∧ allocatable s = true)
    (demo_world_with demo_owned demo_abandoned).
Proof.
  unshelve epose proof (recover_claiming_frees 3 demo_pool demo_header
    (demo_world_with demo_owned demo_abandoned) (demo_attached _ _) _ _) as Hw;
    [cbn; lia|intros; by apply demo_protect|].
  eapply wp_mono; [exact Hw|]. cbn beta. intros r w' (->&_&_&Hs).
  split; [vm_compute; reflexivity|].
  destruct (Hs 1 demo_abandoned) as (s'&Hs'&Hr); [cbn; lia|reflexivity|].
  change (state_is _ _) with true in Hr. destruct Hr as (Ha&_). exists s'.
  split; [exact Hs'|exact Ha].
Defined.

(** ** Traces *)

(** The ring of the slot holds the last events of [hist], oldest first. *)
Record trace_holds (hist : list zipc_trace_entry_t) (s : zipc_slot_control_t) : Prop := {
  th_length : length (s_trace s) = 8%nat;
  th_count : s_trace_count s = Z.of_nat (length hist);
  th_entry (i : nat) : (i < length hist <= i + 8)%nat →
    s_trace s !! (i `mod` 8)%nat = hist !! i }.

(** The entry [trace_slot] appends. *)
Definition trace_entry_of (t c ev : Z) (s : zipc_slot_control_t) : zipc_trace_entry_t :=
  ZipcTraceEntry t (s_transfer_sequence s) c ev.

Lemma mod8_inj (i n : nat) :
  (i < n)%nat → (n < i + 8)%nat → (i `mod` 8 ≠ n `mod` 8)%nat.
Proof.
  intros H1 H2 Heq. pose proof (Nat.div_mod_eq i 8). pose proof (Nat.div_mod_eq n 8).
  pose proof (Nat.mod_upper_bound i 8). lia.
Qed.

(** The loop of [zipc_slot_trace_copy] reads a window of the history. *)
Lemma trace_window hist s (start count : nat) :
  trace_holds hist s → (length hist <= start + 8)%nat → (start + count <= length hist)%nat →
  Z.of_nat (length hist) < UINT32_MAX →
  map (λ i, nth (Z.to_nat (u32 (Z.of_nat start `mod` 8 + i) `mod` 8)) (s_trace s)
              zero_trace_entry) (seqZ 0 (Z.of_nat count))
  = take count (drop start hist).
Proof.
  intros [Hl Hc He] Hlo Hhi Hmax. apply list_eq. intros k.
  destruct (decide (k < count)%nat) as [Hk|Hk].
  - rewrite list_lookup_fmap, lookup_seqZ_lt by lia. simpl.
    rewrite lookup_take_lt, lookup_drop by lia.
    rewrite <- (He (start + k)%nat) by lia. rewrite nth_lookup.
    rewrite u32_small by zlia.
    replace (Z.to_nat _) with ((start + k) `mod` 8)%nat.
    2: { rewrite Zplus_mod_idemp_l. apply Nat2Z.inj. rewrite Z2Nat.id by zlia.
         rewrite Nat2Z.inj_mod. f_equal. lia. }
    destruct (lookup_lt_is_Some_2 (s_trace s) ((start + k) `mod` 8)) as [x ->]; [|done].
    rewrite Hl. by apply Nat.mod_upper_bound.
  - rewrite !lookup_ge_None_2; [done|rewrite length_take; lia|].
    rewrite length_map, length_seqZ. lia.
Qed.

Lemma trace_copy_value hist s capacity :
  trace_holds hist s → Z.of_nat (length hist) < UINT32_MAX → 0 < capacity →
  let tail := take (Z.to_nat capacity) (drop (length hist - 8) hist) in
  zipc_slot_trace_copy (Some s) true capacity = (tail, Z.of_nat (length tail)).
Proof.
  intros Hth Hmax Hcap tail. unfold zipc_slot_trace_copy. cbn [negb orb].
  rewrite (proj2 (Z.eqb_neq capacity 0)) by lia. cbv zeta. rewrite (th_count _ _ Hth).
  set (count := if capacity <? _ then _ else _).
  set (n := Nat.min (Z.to_nat capacity) (Nat.min (length hist) 8)).
  assert (Hn : count = Z.of_nat n).
  { unfold count, n. repeat case_match; bool_to_prop; lia. }
  assert (Htail : tail = take n (drop (length hist - 8) hist)).
  { unfold tail, n. apply list_eq. intros k. rewrite !lookup_take.
    repeat case_decide; try done; [|lia]. apply lookup_ge_None_2. rewrite length_drop. lia. }
  assert (Hlen : length tail = n) by (rewrite Htail, length_take, length_drop; lia).
  rewrite Hlen, Htail, Hn. f_equal.
  rewrite <- (trace_window hist s _ n Hth) by lia. apply map_ext. intros i.
  do 4 f_equal. destruct (Z.ltb_spec 8 (Z.of_nat (length hist))).
  - f_equal. rewrite Nat2Z.inj_sub by lia. by rewrite <- (Z_mod_plus_full _ (-1) 8).
  - by replace (length hist - 8)%nat with 0%nat by lia.
Qed.

(** The per-slot trace is the tail of the slot's history: recording an
    event appends it to the history the ring stands for, and
    [zipc_slot_trace_copy] copies out, oldest first, the last eight events (all
    of them when there are fewer), as many of them as the caller's array
    holds, and returns their number. *)
Theorem trace_copy_tail hist s t c ev capacity :
  trace_holds hist s → Z.of_nat (length hist) < UINT32_MAX → 0 < capacity →
  trace_holds (hist ++ [trace_entry_of t c ev s]) (push_trace t c ev s) ∧
  let tail := take (Z.to_nat capacity) (drop (length hist - 8) hist) in
  zipc_slot_trace_copy (Some s) true capacity = (tail, Z.of_nat (length tail)).
Proof.
  intros [Hl Hc He] Hmax Hcap. split.
  - split; [by cbn; rewrite length_insert|cbn; rewrite Hc, length_app, u32_small by zlia;
      simpl; lia|].
    intros i. rewrite length_app. simpl. intros Hi.
    rewrite Hc. replace (Z.to_nat (Z.of_nat (length hist) `mod` 8))
      with (length hist `mod` 8)%nat by (rewrite Z2Nat.inj_mod, Nat2Z.id by lia; done).
    destruct (decide (i = length hist)) as [->|Hne].
    + rewrite list_lookup_insert_eq; [|rewrite Hl; by apply Nat.mod_upper_bound].
      by rewrite lookup_app_r, Nat.sub_diag by lia.
    + rewrite list_lookup_insert_ne by (intros Heq; symmetry in Heq; revert Heq;
        apply mod8_inj; lia).
      rewrite lookup_app_l by lia. apply He. lia.
  - apply trace_copy_value; [by split|lia..].
Qed.

Definition demo_history : list zipc_trace_entry_t := replicate 3 (ZipcTraceEntry 4 0 7 1).
Definition demo_traced : zipc_slot_control_t :=
  push_trace 4 7 1 (push_trace 4 7 1 (push_trace 4 7 1 demo_free)).
Lemma trace_copy_tail_witness :
  zipc_slot_trace_copy (Some demo_traced) true 2 = (replicate 2 (ZipcTraceEntry 4 0 7 1), 2).
Proof.
  refine (proj2 (trace_copy_tail demo_history demo_traced 5 7 2 2 _ _ _)).
  - split; [reflexivity|reflexivity|]. change (length demo_history) with 3%nat.
    intros i Hi. destruct i as [|[|[|i]]]; [reflexivity..|lia].
  - cbn. lia.
  - lia.
Defined.
