(* ===== verification/Layout.v ===== *)
(** * Pool layout: sizes, formatting and attaching

    The size and alignment arithmetic of src/core/zipc.c, [normalize_config],
    [zipc_pool_format] and [zipc_pool_attach].  Every [size_t] expression is
    computed modulo 2^64 and every [uint32_t] one modulo 2^32, so that the
    overflow guards of the source have something to guard against. *)
From S2P Require Import Prelude Types Packing Prog Store Slot.

(** Sizes and alignments of the ABI structures on LP64 targets. *)
Definition sizeof_zipc_pool_header_t : Z := 6248.
Definition sizeof_zipc_slot_control_t : Z := 344.
Definition sizeof_zipc_message_t : Z := 24.
Definition sizeof_zipc_transport_spsc_ring_t : Z := 16.
Definition alignof_zipc_pool_header_t : Z := 8.
Definition alignof_zipc_slot_control_t : Z := 8.

(** ** Arithmetic *)
Definition is_power_of_two (value : Z) : bool :=
  negb (value =? 0) && (Z.land value (u64 (value - 1)) =? 0).

(** [*result] on success. *)
Definition align_up_checked (value alignment : Z) : option Z :=
  if negb (is_power_of_two alignment) || (u64 (SIZE_MAX - u64 (alignment - 1)) <? value)
  then None
  else Some (Z.land (u64 (u64 (value + alignment) - 1)) (u64 (Z.lnot (u64 (alignment - 1))))).

Definition zipc_pool_required_control_size (slot_count : Z) : Z :=
  if slot_count =? 0 then 0
  else match align_up_checked sizeof_zipc_pool_header_t alignof_zipc_slot_control_t with
  | None => 0
  | Some controls_offset =>
      if u64 (SIZE_MAX - controls_offset) / sizeof_zipc_slot_control_t <? slot_count then 0
      else u64 (controls_offset + u64 (slot_count * sizeof_zipc_slot_control_t))
  end.

Definition zipc_pool_required_payload_size (slot_count slot_capacity slot_stride
    payload_alignment : Z) : Z :=
  if (slot_count =? 0) || (slot_capacity =? 0) || negb (is_power_of_two payload_alignment)
  then 0
  else
  let aligned := if slot_stride =? 0
                 then align_up_checked slot_capacity payload_alignment else Some 0 in
  match aligned with
  | None => 0
  | Some aligned_capacity =>
  if (slot_stride =? 0) && (UINT32_MAX <? aligned_capacity) then 0
  else
  let stride := if negb (slot_stride =? 0) then slot_stride else u32 aligned_capacity in
  if (stride <? slot_capacity) || negb (stride `mod` payload_alignment =? 0)
     || (SIZE_MAX / stride <? slot_count) then 0
  else u64 (slot_count * stride)
  end.

Definition zipc_transport_spsc_ring_size (depth : Z) : Z :=
  if depth <? 2 then 0
  else u64 (sizeof_zipc_transport_spsc_ring_t + u64 (depth * sizeof_zipc_message_t)).

Section layout.
Context {E : Type} `{Platform E}.

Definition zipc_pool_guarded_slot_stride (e : E) (slot_capacity : Z) : Z :=
  let page_size := zipc_platform_page_size e in
  if (page_size =? 0) || (UINT32_MAX <? page_size) || (slot_capacity =? 0)
     || negb (slot_capacity `mod` page_size =? 0)
     || (u32 (UINT32_MAX - u32 page_size) <? slot_capacity) then 0
  else u32 (slot_capacity + u32 page_size).

Definition zipc_pool_guarded_payload_size (e : E) (slot_count slot_capacity : Z) : Z :=
  let stride := zipc_pool_guarded_slot_stride e slot_capacity in
  if (slot_count =? 0) || (stride =? 0) || (SIZE_MAX / stride <? slot_count) then 0
  else u64 (slot_count * stride).

Definition memory_address_aligned (e : E) (memory offset alignment : Z) : bool :=
  let base := zipc_platform_memory_base e memory in
  negb (base =? 0) && is_power_of_two alignment &&
  (offset <=? u64 (UINTPTR_MAX - base)) &&
  (Z.land (u64 (base + offset)) (u64 (alignment - 1)) =? 0).

Definition memory_range_fits (e : E) (memory offset length : Z) : bool :=
  let size := zipc_platform_memory_size e memory in
  let base := zipc_platform_memory_base e memory in
  negb (base =? 0) && (offset <=? size) && (length <=? u64 (size - offset)) &&
  (offset <=? u64 (UINTPTR_MAX - base)) &&
  (length <=? u64 (UINTPTR_MAX - u64 (base + offset))).

Definition pool_ranges_valid (e : E) (config : zipc_pool_config_t)
    (payload_memory control_required payload_required : Z) : bool :=
  if negb (memory_range_fits e (pc_control_memory config) (pc_control_offset config)
             control_required)
     || negb (memory_range_fits e payload_memory (pc_payload_offset config) payload_required)
  then false
  else if pc_control_memory config =? payload_memory then
    let control_end := u64 (pc_control_offset config + control_required) in
    let payload_end := u64 (pc_payload_offset config + payload_required) in
    negb ((pc_control_offset config <? payload_end) && (pc_payload_offset config <? control_end))
  else true.

(** ** Validation of a configuration *)

(** The test on the memory under protected slots and guard pages. *)
Definition page_layout_bad (e : E) (config : zipc_pool_config_t) (payload_memory : Z) : bool :=
  let page_size := zipc_platform_memory_page_size e payload_memory in
  (page_size =? 0) || (UINT32_MAX <? page_size)
  || (Z.land (zipc_platform_memory_capabilities e payload_memory) ZIPC_MEM_CAP_PAGE_PROTECT =? 0)
  || negb (pc_payload_offset config `mod` page_size =? 0)
  || negb (memory_address_aligned e payload_memory (pc_payload_offset config) page_size)
  || negb (pc_slot_capacity config `mod` page_size =? 0).

Definition pool_flag (flag : Z) (config : zipc_pool_config_t) : bool :=
  negb (Z.land (pc_flags config) flag =? 0).

(** [*slot_stride], or the error. *)
Definition normalize_stride (e : E) (config : zipc_pool_config_t) (payload_memory : Z)
    : zipc_status_t + Z :=
  if pool_flag ZIPC_POOL_F_GUARD_PAGES config then
    let page_size := zipc_platform_memory_page_size e payload_memory in
    if page_layout_bad e config payload_memory
       || (u32 (UINT32_MAX - u32 page_size) <? pc_slot_capacity config)
    then inl ZIPC_ERR_UNSUPPORTED_MEMORY
    else
    let guarded_stride := u32 (pc_slot_capacity config + u32 page_size) in
    if negb (pc_slot_stride config =? 0) && negb (pc_slot_stride config =? guarded_stride)
    then inl ZIPC_ERR_INVALID_ARGUMENT
    else inr guarded_stride
  else if negb (pc_slot_stride config =? 0) then inr (pc_slot_stride config)
  else match align_up_checked (pc_slot_capacity config) (pc_payload_alignment config) with
  | None => inl ZIPC_ERR_INVALID_ARGUMENT
  | Some aligned_capacity =>
      if UINT32_MAX <? aligned_capacity then inl ZIPC_ERR_INVALID_ARGUMENT
      else inr (u32 aligned_capacity)
  end.

(** The payload memory and the slot stride, or the error. *)
Definition normalize_config (e : E) (config : option zipc_pool_config_t)
    : zipc_status_t + Z * Z :=
  match config with
  | None => inl ZIPC_ERR_INVALID_ARGUMENT
  | Some config =>
  if (pc_control_memory config =? 0) || (pc_slot_count config =? 0)
     || (pc_slot_capacity config =? 0)
     || negb (is_power_of_two (pc_payload_alignment config))
     || negb (Z.land (pc_flags config) 4294967292 =? 0)
  then inl ZIPC_ERR_INVALID_ARGUMENT
  else
  let payload_memory := if negb (pc_payload_memory config =? 0)
                        then pc_payload_memory config else pc_control_memory config in
  if negb (pc_control_offset config `mod` alignof_zipc_pool_header_t =? 0)
     || negb (memory_address_aligned e (pc_control_memory config) (pc_control_offset config)
                alignof_zipc_pool_header_t)
     || negb (pc_payload_offset config `mod` pc_payload_alignment config =? 0)
     || negb (memory_address_aligned e payload_memory (pc_payload_offset config)
                (pc_payload_alignment config))
  then inl ZIPC_ERR_INVALID_ARGUMENT
  else if pool_flag ZIPC_POOL_F_STRICT_OWNERSHIP config
          && page_layout_bad e config payload_memory
  then inl ZIPC_ERR_UNSUPPORTED_MEMORY
  else match normalize_stride e config payload_memory with
  | inl status => inl status
  | inr slot_stride =>
  if (slot_stride <? pc_slot_capacity config)
     || negb (slot_stride `mod` pc_payload_alignment config =? 0)
  then inl ZIPC_ERR_INVALID_ARGUMENT
  else if negb (Z.land (zipc_platform_memory_capabilities e (pc_control_memory config)) 15 =? 15)
  then inl ZIPC_ERR_UNSUPPORTED_MEMORY
  else if negb (Z.land (zipc_platform_memory_capabilities e payload_memory) 3 =? 3)
  then inl ZIPC_ERR_UNSUPPORTED_MEMORY
  else inr (payload_memory, slot_stride)
  end
  end.

(** ** Guard pages *)
Definition apply_guard_pages (config : zipc_pool_config_t) (payload_memory slot_stride : Z)
    : prog (world E) zipc_status_t :=
  if negb (pool_flag ZIPC_POOL_F_GUARD_PAGES config) then mret ZIPC_OK
  else
  page_size ← env_get (λ e, zipc_platform_memory_page_size e payload_memory);
  if page_size =? 0 then mret ZIPC_ERR_UNSUPPORTED_MEMORY
  else
  r ← for_range (Z.to_nat (pc_slot_count config)) 0 (λ i,
        let guard_offset := u64 (u64 (pc_payload_offset config + u64 (i * slot_stride))
                                 + pc_slot_capacity config) in
        status ← env_call (zipc_platform_memory_protect_none payload_memory guard_offset page_size);
        mret (if negb (status_is status ZIPC_OK) then Some status else None));
  mret (default ZIPC_OK r).

(** ** Formatting *)
Definition zero_header : zipc_pool_header_t := ZipcHeader 0 0 0 0 0 0 0 0 0 0 0 0 0 0.

(** The header's component table and the slot controls after it, as cells. *)
Definition zero_components (h : Z) : gmap (Z * Z) zipc_component_status_t :=
  list_to_map (map (λ c, ((h, c), zero_component)) (seqZ 0 ZIPC_COMPONENT_NAMESPACE_SIZE)).
Definition zero_controls (h count : Z) : gmap (Z * Z) zipc_slot_control_t :=
  list_to_map (map (λ i, ((h, i), zero_slot)) (seqZ 0 count)).

(** [memset(control_base, 0, control_required)]. *)
Definition memset_control (h count : Z) : prog (world E) () :=
  act (λ w, Some (tt, {| w with
    w_headers := <[h := zero_header]> (w_headers w);
    w_components := zero_components h ∪ w_components w;
    w_controls := zero_controls h count ∪ w_controls w |})).

Definition init_geometry (config : zipc_pool_config_t) (slot_stride : Z)
    (h : zipc_pool_header_t) : zipc_pool_header_t :=
  {| h with
     h_magic := ZIPC_POOL_MAGIC;
     h_abi_version := ZIPC_POOL_ABI_VERSION;
     h_header_size := u16 sizeof_zipc_pool_header_t;
     h_slot_count := pc_slot_count config;
     h_slot_capacity := pc_slot_capacity config;
     h_slot_stride := slot_stride |}.
Definition init_controls_offset (config : zipc_pool_config_t) (controls_offset : Z)
    (h : zipc_pool_header_t) : zipc_pool_header_t :=
  {| h with
     h_controls_offset := u32 controls_offset;
     h_payload_alignment := pc_payload_alignment config |}.
Definition init_counters (h : zipc_pool_header_t) : zipc_pool_header_t :=
  {| h with
     h_allocation_cursor := 0;
     h_allocation_count := 0;
     h_release_count := 0;
     h_allocation_failure_count := 0;
     h_protocol_error_count := 0;
     h_recovery_count := 0 |}.
Definition init_control (s : zipc_slot_control_t) : zipc_slot_control_t :=
  {| s with
     s_state := ZIPC_SLOT_FREE;
     s_generation := 0;
     s_claim_token := 0;
     s_owner_id := ZIPC_INVALID_COMPONENT_ID;
     s_next_owner_id := ZIPC_INVALID_COMPONENT_ID |}.
(** Every field of the entry is stored. *)
Definition init_component (_ : zipc_component_status_t) : zipc_component_status_t :=
  {| c_lifecycle := component_lifecycle_make 0 ZIPC_COMPONENT_INACTIVE;
     c_last_heartbeat_ns := 0;
     c_recovered_slots := 0 |}.

(** The address of the header. *)
Definition control_base (e : E) (config : zipc_pool_config_t) : Z :=
  zipc_platform_memory_base e (pc_control_memory config) + pc_control_offset config.

Definition zipc_pool_format (config : option zipc_pool_config_t)
    : prog (world E) zipc_status_t :=
  norm ← env_get (λ e, normalize_config e config);
  match config, norm with
  | _, inl status => mret status
  | None, _ => mret ZIPC_ERR_INVALID_ARGUMENT
  | Some config, inr (payload_memory, slot_stride) =>
  let control_required := zipc_pool_required_control_size (pc_slot_count config) in
  let payload_required := zipc_pool_required_payload_size (pc_slot_count config)
        (pc_slot_capacity config) slot_stride (pc_payload_alignment config) in
  ranges ← env_get (λ e, pool_ranges_valid e config payload_memory control_required
                           payload_required);
  if (control_required =? 0) || (payload_required =? 0) || negb ranges
  then mret ZIPC_ERR_INVALID_ARGUMENT
  else
  status ← apply_guard_pages config payload_memory slot_stride;
  if negb (status_is status ZIPC_OK) then mret status
  else
  h ← env_get (λ e, control_base e config);
  memset_control h (pc_slot_count config);;
  header_write h (init_geometry config slot_stride);;
  match align_up_checked sizeof_zipc_pool_header_t alignof_zipc_slot_control_t with
  | None => mret ZIPC_ERR_INVALID_ARGUMENT
  | Some controls_offset =>
  aligned ← env_get (λ e, memory_address_aligned e (pc_control_memory config)
              (u64 (pc_control_offset config + controls_offset)) alignof_zipc_slot_control_t);
  if (UINT32_MAX <? controls_offset)
     || (u64 (SIZE_MAX - controls_offset) <? pc_control_offset config) || negb aligned
  then mret ZIPC_ERR_INVALID_ARGUMENT
  else
  header_write h (init_controls_offset config controls_offset);;
  for_range (A:=()) (Z.to_nat (pc_slot_count config)) 0 (λ i,
    slot_write (h, i) init_control;; mret None);;
  header_write h init_counters;;
  for_range (A:=()) (Z.to_nat ZIPC_COMPONENT_NAMESPACE_SIZE) 0 (λ c,
    component_write (h, c) init_component;; mret None);;
  mret ZIPC_OK
  end
  end.

(** ** Attaching *)

(** The header does not describe the pool the configuration asks for. *)
Definition header_mismatch (config : zipc_pool_config_t) (requested_stride : Z)
    (h : zipc_pool_header_t) : bool :=
  negb (h_magic h =? ZIPC_POOL_MAGIC) || negb (h_abi_version h =? ZIPC_POOL_ABI_VERSION)
  || negb (h_header_size h =? sizeof_zipc_pool_header_t)
  || negb (h_slot_count h =? pc_slot_count config)
  || negb (h_slot_capacity h =? pc_slot_capacity config)
  || negb (h_slot_stride h =? requested_stride)
  || negb (h_payload_alignment h =? pc_payload_alignment config).

Definition controls_misplaced (e : E) (config : zipc_pool_config_t) (h : zipc_pool_header_t)
    : bool :=
  match align_up_checked sizeof_zipc_pool_header_t alignof_zipc_slot_control_t with
  | None => true
  | Some expected =>
      (UINT32_MAX <? expected) || negb (h_controls_offset h =? expected)
      || negb (h_controls_offset h `mod` alignof_zipc_slot_control_t =? 0)
      || (u64 (SIZE_MAX - h_controls_offset h) <? pc_control_offset config)
      || negb (memory_address_aligned e (pc_control_memory config)
                 (u64 (pc_control_offset config + h_controls_offset h))
                 alignof_zipc_slot_control_t)
  end.

Definition ranges_bad (e : E) (config : zipc_pool_config_t) (payload_memory : Z)
    (h : zipc_pool_header_t) : bool :=
  let control_required := zipc_pool_required_control_size (h_slot_count h) in
  let payload_required := zipc_pool_required_payload_size (h_slot_count h)
        (h_slot_capacity h) (h_slot_stride h) (h_payload_alignment h) in
  (control_required =? 0) || (payload_required =? 0)
  || (control_required <? h_controls_offset h)
  || (u64 (control_required - h_controls_offset h) / sizeof_zipc_slot_control_t
        <? h_slot_count h)
  || negb (pool_ranges_valid e config payload_memory control_required payload_required).

Definition zero_pool (self : Z) : zipc_pool_t := ZipcPool self 0 0 0 0 0 0 0 0.

(** [self] is the address of the [zipc_pool_t]; the second component is what
    the call leaves there, [None] when it does not touch it.  The plain header
    fields are read once: nothing but formatting writes them. *)
Definition zipc_pool_attach (self : Z) (config : option zipc_pool_config_t)
    : prog (world E) (zipc_status_t * option zipc_pool_t) :=
  if self =? 0 then mret (ZIPC_ERR_INVALID_ARGUMENT, None)
  else
  norm ← env_get (λ e, normalize_config e config);
  match config, norm with
  | _, inl status => mret (status, None)
  | None, _ => mret (ZIPC_ERR_INVALID_ARGUMENT, None)
  | Some config, inr (payload_memory, requested_stride) =>
  size ← env_get (λ e, zipc_platform_memory_size e (pc_control_memory config));
  if (size <? pc_control_offset config)
     || (u64 (size - pc_control_offset config) <? sizeof_zipc_pool_header_t)
  then mret (ZIPC_ERR_INVALID_POOL, None)
  else
  base ← env_get (λ e, control_base e config);
  h ← header_read base (λ h, h);
  if header_mismatch config requested_stride h then mret (ZIPC_ERR_INVALID_POOL, None)
  else
  misplaced ← env_get (λ e, controls_misplaced e config h);
  if misplaced : bool then mret (ZIPC_ERR_INVALID_POOL, None)
  else
  bad ← env_get (λ e, ranges_bad e config payload_memory h);
  if bad : bool then mret (ZIPC_ERR_INVALID_POOL, None)
  else
  status ← apply_guard_pages config payload_memory requested_stride;
  if negb (status_is status ZIPC_OK) then mret (status, Some (zero_pool self))
  else
  payload_base ← env_get (λ e, zipc_platform_memory_base e payload_memory
                                + pc_payload_offset config);
  let pool := {|
    p_self := self;
    p_control_memory := pc_control_memory config;
    p_payload_memory := payload_memory;
    p_control_offset := pc_control_offset config;
    p_payload_offset := pc_payload_offset config;
    p_header := base;
    p_payload_base := payload_base;
    p_flags := pc_flags config;
    p_pool_id := pc_pool_id config |} in
  if negb (Z.land (p_flags pool) ZIPC_POOL_F_STRICT_OWNERSHIP =? 0) then
    r ← for_range (Z.to_nat (h_slot_count h)) 0 (λ i,
          '(stride, capacity) ← header_read base (λ h, (h_slot_stride h, h_slot_capacity h));
          let slot_offset := u64 (p_payload_offset pool + u64 (i * stride)) in
          status ← env_call (zipc_platform_memory_protect_none payload_memory slot_offset capacity);
          mret (if negb (status_is status ZIPC_OK) then Some status else None));
    mret (default ZIPC_OK r, Some pool)
  else mret (ZIPC_OK, Some pool)
  end.
End layout.
