(* ===== verification/LayoutSpec.v ===== *)
(** * Pool layout: theorems

    The overflow guards are exact, an accepted configuration lays out disjoint
    aligned slots inside the mapping, and formatting and attaching agree. *)
From S2P Require Import Prelude Types Packing Visited Prog Store Identity Slot SlotRun.
From S2P Require Import SlotSpec Alloc Demo Layout.

(** ** Powers of two *)
Lemma pow2_range k : 0 <= k → 2 ^ k <= UINT64_MAX → k < 64.
Proof.
  intros Hk Hle. destruct (Z.ltb_spec k 64) as [|Hge]; [done|].
  pose proof (Z.pow_le_mono_r 2 64 k ltac:(lia) Hge). lia.
Qed.

Lemma is_power_of_two_pow k : 0 <= k < 64 → is_power_of_two (2 ^ k) = true.
Proof.
  intros Hk. unfold is_power_of_two.
  pose proof (Z.pow_pos_nonneg 2 k ltac:(lia) ltac:(lia)).
  assert (2 ^ k < 2 ^ 64) by (apply Z.pow_lt_mono_r; lia).
  rewrite (proj2 (Z.eqb_neq _ 0)), u64_small by zlia. cbn [negb andb].
  rewrite (land_mask _ k) by lia. by rewrite Z.mod_same by lia.
Qed.

Lemma is_power_of_two_spec v :
  in_u64 v → is_power_of_two v = true ↔ ∃ k, 0 <= k < 64 ∧ v = 2 ^ k.
Proof.
  intros Hv. split; [|by intros (k&Hk&->); apply is_power_of_two_pow].
  unfold is_power_of_two. intros [Hne%negb_true_iff%Z.eqb_neq Hand%Z.eqb_eq]%andb_true_iff.
  assert (0 < v) by zlia. rewrite u64_small in Hand by zlia.
  pose proof (Z.log2_spec v ltac:(done)) as [Hlo Hhi].
  pose proof (Z.log2_nonneg v). exists (Z.log2 v).
  assert (Heq : v = 2 ^ Z.log2 v).
  { destruct (decide (v = 2 ^ Z.log2 v)) as [|Hn]; [done|]. exfalso.
    assert (Hl : Z.log2 (v - 1) = Z.log2 v) by (apply Z.log2_unique; lia).
    apply (f_equal (λ x, Z.testbit x (Z.log2 v))) in Hand.
    rewrite Z.land_spec, Z.bits_0, Z.bit_log2 in Hand by done.
    rewrite <- Hl in Hand at 1. rewrite Z.bit_log2 in Hand; [done|].
    pose proof (Z.pow_pos_nonneg 2 (Z.log2 v)). lia. }
  split; [|done]. split; [done|]. apply pow2_range; [done|]. rewrite <- Heq. zlia.
Qed.

(** [x & ~(2^k - 1)] rounds down. *)
Lemma land_not_mask x k :
  in_u64 x → 0 <= k < 64 → Z.land x (u64 (Z.lnot (2 ^ k - 1))) = x - x `mod` 2 ^ k.
Proof.
  intros Hx Hk. pose proof (Z.pow_pos_nonneg 2 k ltac:(lia) ltac:(lia)).
  assert (2 ^ k < 2 ^ 64) by (apply Z.pow_lt_mono_r; lia).
  unfold u64 at 1.
  change 18446744073709551616 with (2 ^ 64). rewrite <- Z.land_ones by lia.
  rewrite Z.land_assoc, (Z.land_comm x), <- Z.land_assoc, Z.land_ones by lia.
  rewrite (Z.mod_small x) by zlia. rewrite Z.land_comm.
  replace (2 ^ k - 1) with (Z.ones k) by (rewrite Z.ones_equiv; lia).
  rewrite <- Z.ldiff_land, Z.ldiff_ones_r, Z.shiftl_mul_pow2, Z.shiftr_div_pow2 by lia.
  pose proof (Z.div_mod x (2 ^ k)). lia.
Qed.

(** The alignment helper never overflows and never rounds too far: on
    [size_t] arguments [align_up_checked] succeeds exactly when the alignment is
    a power of two and the rounded value is representable, and then returns the
    least multiple of the alignment that is not below the value. *)
Theorem align_up_exact v a :
  in_u64 v → in_u64 a →
  match align_up_checked v a with
  | Some r => is_power_of_two a = true ∧ (a | r) ∧ v <= r <= SIZE_MAX ∧
              ∀ m, (a | m) → v <= m → r <= m
  | None => is_power_of_two a = false ∨ ∀ m, (a | m) → v <= m → SIZE_MAX < m
  end.
Proof.
  intros Hv Ha. unfold align_up_checked.
  destruct (is_power_of_two a) eqn:Hp; cbn [negb orb]; [|by left].
  apply is_power_of_two_spec in Hp as (k&Hk&->); [|done].
  pose proof (Z.pow_pos_nonneg 2 k ltac:(lia) ltac:(lia)) as Hpos.
  rewrite (u64_small (2 ^ k - 1)) by zlia. rewrite u64_small by zlia.
  destruct (Z.ltb_spec (SIZE_MAX - (2 ^ k - 1)) v) as [Hlt|Hge].
  - right. intros m [q ->] Hm.
    assert (Hpow : 2 ^ 64 = 2 ^ (64 - k) * 2 ^ k) by (rewrite <- Z.pow_add_r; [f_equal|..]; lia).
    destruct (Z.lt_ge_cases q (2 ^ (64 - k))) as [Hq|Hq].
    + pose proof (Z.mul_le_mono_nonneg_r (q + 1) (2 ^ (64 - k)) (2 ^ k)). lia.
    + pose proof (Z.mul_le_mono_nonneg_r (2 ^ (64 - k)) q (2 ^ k)). lia.
  - replace (u64 (u64 (v + 2 ^ k) - 1)) with (v + 2 ^ k - 1) by zlia.
    rewrite !land_not_mask by zlia.
    pose proof (Z.mod_pos_bound (v + 2 ^ k - 1) (2 ^ k) Hpos) as Hm.
    set (x := v + 2 ^ k - 1) in *. pose proof (Z.div_mod x (2 ^ k) ltac:(lia)) as Hd.
    split; [done|]. split; [exists (x / 2 ^ k); lia|]. split; [zlia|].
    intros m [q ->] Hle. assert (x / 2 ^ k <= q); [|nia].
    apply Z.lt_succ_r, Z.div_lt_upper_bound; lia.
Qed.

(** ** Accepted configurations *)
Section geometry.
Context {E : Type} `{PlatformLaws E}.
Implicit Type e : E.

Lemma memory_address_aligned_spec e m o a :
  in_u64 o → in_u64 a →
  memory_address_aligned e m o a = true ↔
  zipc_platform_memory_base e m ≠ 0 ∧ is_power_of_two a = true ∧
  zipc_platform_memory_base e m + o <= UINTPTR_MAX ∧ (a | zipc_platform_memory_base e m + o).
Proof.
  intros Ho Ha. destruct (plat_memory_range e m) as [Hb _]. unfold memory_address_aligned.
  set (base := zipc_platform_memory_base e m) in *.
  rewrite !andb_true_iff, negb_true_iff, Z.eqb_neq, Z.leb_le, Z.eqb_eq.
  rewrite (u64_small (_ - base)) by zlia.
  enough (Hx : is_power_of_two a = true → base + o <= UINTPTR_MAX →
    Z.land (u64 (base + o)) (u64 (a - 1)) = 0 ↔ (a | base + o)).
  { split; intros; destruct_and?; split_and?; try done; try lia; apply Hx; (done || lia). }
  intros (k&Hk&->)%is_power_of_two_spec Hmax; [|done].
  pose proof (Z.pow_pos_nonneg 2 k ltac:(lia) ltac:(lia)).
  rewrite !u64_small, (land_mask _ k) by zlia. apply Z.mod_divide. lia.
Qed.

Lemma memory_range_fits_spec e m o l :
  in_u64 o → in_u64 l →
  memory_range_fits e m o l = true ↔
  zipc_platform_memory_base e m ≠ 0 ∧ o + l <= zipc_platform_memory_size e m ∧
  zipc_platform_memory_base e m + o + l <= UINTPTR_MAX.
Proof.
  intros Ho Hl. destruct (plat_memory_range e m) as (Hb&Hs&_). unfold memory_range_fits.
  set (base := zipc_platform_memory_base e m) in *.
  set (size := zipc_platform_memory_size e m) in *.
  rewrite !andb_true_iff, negb_true_iff, Z.eqb_neq, !Z.leb_le.
  rewrite (u64_small (_ - base)) by zlia.
  split.
  - intros ((((?&?)&Hr1)&?)&Hr2). rewrite (u64_small (size - o)) in Hr1 by zlia.
    rewrite (u64_small (base + o)), u64_small in Hr2 by zlia. lia.
  - intros (?&?&?). rewrite (u64_small (size - o)) by zlia.
    rewrite (u64_small (base + o)), u64_small by zlia. zlia.
Qed.

(** A configuration as its C type allows it. *)
Record config_wf (c : zipc_pool_config_t) : Prop := {
  cw_control_offset : in_u64 (pc_control_offset c);
  cw_payload_offset : in_u64 (pc_payload_offset c);
  cw_count : in_u32 (pc_slot_count c);
  cw_capacity : in_u32 (pc_slot_capacity c);
  cw_stride : in_u32 (pc_slot_stride c);
  cw_alignment : in_u32 (pc_payload_alignment c) }.

(** What [normalize_config] checks. *)
Record page_ok e (c : zipc_pool_config_t) (pm : Z) : Prop := {
  po_size : 0 < zipc_platform_memory_page_size e pm <= UINT32_MAX;
  po_offset : (zipc_platform_memory_page_size e pm | pc_payload_offset c);
  po_capacity : (zipc_platform_memory_page_size e pm | pc_slot_capacity c) }.
Record normalized e (c : zipc_pool_config_t) (pm stride : Z) : Prop := {
  no_control : pc_control_memory c ≠ 0;
  no_count : 1 <= pc_slot_count c;
  no_capacity : 1 <= pc_slot_capacity c;
  no_pow2 : is_power_of_two (pc_payload_alignment c) = true;
  no_header : memory_address_aligned e (pc_control_memory c) (pc_control_offset c) 8 = true;
  no_control_offset : (8 | pc_control_offset c);
  no_payload : memory_address_aligned e pm (pc_payload_offset c) (pc_payload_alignment c) = true;
  no_payload_offset : (pc_payload_alignment c | pc_payload_offset c);
  no_stride : pc_slot_capacity c <= stride <= UINT32_MAX;
  no_stride_aligned : (pc_payload_alignment c | stride);
  no_strict : pool_flag ZIPC_POOL_F_STRICT_OWNERSHIP c = true → page_ok e c pm;
  no_guard : pool_flag ZIPC_POOL_F_GUARD_PAGES c = true → page_ok e c pm ∧
    stride = pc_slot_capacity c + zipc_platform_memory_page_size e pm }.

Lemma page_layout_ok e c pm : page_layout_bad e c pm = false → page_ok e c pm.
Proof.
  intros Hb. unfold page_layout_bad in Hb.
  destruct (plat_memory_range e pm) as (_&_&Hp). bool_to_prop.
  split; [zlia|apply Z.mod_divide; lia..].
Qed.

Lemma normalize_stride_ok e c pm stride :
  config_wf c → 1 <= pc_slot_capacity c →
  normalize_stride e c pm = inr stride →
  stride <= UINT32_MAX ∧ (pool_flag ZIPC_POOL_F_GUARD_PAGES c = true → page_ok e c pm ∧
    stride = pc_slot_capacity c + zipc_platform_memory_page_size e pm).
Proof.
  intros [_ _ _ Hcap Hst _] Hc. unfold normalize_stride.
  destruct (pool_flag ZIPC_POOL_F_GUARD_PAGES c) eqn:Hg.
  - destruct (_ || _) eqn:Hb; [done|]. apply orb_false_iff in Hb as [Hb%page_layout_ok Hmax].
    destruct Hb as [Hsz Ho Hd].
    rewrite (u32_small (zipc_platform_memory_page_size e pm)) in * by zlia.
    apply Z.ltb_ge in Hmax. rewrite u32_small in Hmax by zlia.
    destruct (_ && _); [done|]. intros [= <-]. rewrite u32_small by zlia. split; [lia|done].
  - destruct (negb (_ =? 0)); [by intros [= <-]; split; [zlia|done]|].
    destruct (align_up_checked _ _) as [r|]; [|done]. destruct (_ <? r) eqn:Hr; [done|].
    intros [= <-]. split; [zlia|done].
Qed.

Lemma normalize_ok e c pm stride :
  config_wf c → normalize_config e (Some c) = inr (pm, stride) → normalized e c pm stride.
Proof.
  intros Hwf. unfold normalize_config.
  destruct (_ || negb (Z.land _ 4294967292 =? 0)) eqn:H1; [done|].
  set (pm' := if negb (pc_payload_memory c =? 0) then _ else _).
  destruct (_ || negb (memory_address_aligned e pm' _ _)) eqn:H2; [done|].
  destruct (_ && _) eqn:H3; [done|].
  destruct (normalize_stride e c pm') as [|st] eqn:H4; [done|].
  destruct ((st <? _) || _) eqn:H5; [done|]. destruct (negb (Z.land _ 15 =? 15)); [done|].
  destruct (negb (Z.land _ 3 =? 3)) eqn:H7; [done|]. intros [= <- <-]. clear H7.
  bool_to_prop. pose proof Hwf as [_ _ ? ? _ Hal].
  assert (pc_payload_alignment c ≠ 0).
  { intros Hz. match goal with H : is_power_of_two _ = true |- _ => by rewrite Hz in H end. }
  apply normalize_stride_ok in H4 as [Hs Hg]; [|done|zlia].
  split; try done; try zlia.
  all: try (apply Z.mod_divide; unfold alignof_zipc_pool_header_t in *; lia).
  intros Hst. rewrite Hst in H3. by apply page_layout_ok.
Qed.

(** The guards of the size computations never trigger on an accepted pool. *)
Lemma required_control_size_exact n :
  1 <= n <= UINT32_MAX → zipc_pool_required_control_size n = 6248 + n * 344.
Proof.
  intros Hn. unfold zipc_pool_required_control_size.
  rewrite (proj2 (Z.eqb_neq n 0)) by lia.
  change (align_up_checked _ _) with (Some 6248). cbv beta iota.
  unfold sizeof_zipc_slot_control_t.
  change (u64 (SIZE_MAX - 6248) / 344) with 53624256028225422.
  rewrite (proj2 (Z.ltb_ge _ _)) by lia. rewrite (u64_small (n * 344)), u64_small by zlia. lia.
Qed.

Lemma mul_u32_bound x y : 0 <= x <= UINT32_MAX → 0 <= y <= UINT32_MAX →
  0 <= x * y <= 18446744065119617025.
Proof. nia. Qed.

Lemma required_payload_size_exact n cap stride a :
  1 <= n <= UINT32_MAX → 1 <= cap <= stride → stride <= UINT32_MAX →
  is_power_of_two a = true → in_u64 a → (a | stride) →
  zipc_pool_required_payload_size n cap stride a = n * stride.
Proof.
  intros Hn Hcap Hs Hp Ha Hd. unfold zipc_pool_required_payload_size.
  rewrite Hp, (proj2 (Z.eqb_neq n 0)), (proj2 (Z.eqb_neq cap 0)),
    (proj2 (Z.eqb_neq stride 0)) by lia. cbn [negb orb andb].
  rewrite (proj2 (Z.ltb_ge stride cap)) by lia.
  assert (a ≠ 0) by (intros ->; done).
  rewrite (proj2 (Z.eqb_eq (stride `mod` a) 0)) by (by apply Z.mod_divide).
  cbn [negb orb]. pose proof (mul_u32_bound n stride ltac:(lia) ltac:(lia)).
  rewrite (proj2 (Z.ltb_ge _ _)) by (apply Z.div_le_lower_bound; lia).
  apply u64_small. zlia.
Qed.

(** [zipc_pool_format] and [zipc_pool_attach] go past their checks. *)
Definition accepted e (c : zipc_pool_config_t) (pm stride : Z) : Prop :=
  normalize_config e (Some c) = inr (pm, stride) ∧
  pool_ranges_valid e c pm (zipc_pool_required_control_size (pc_slot_count c))
    (zipc_pool_required_payload_size (pc_slot_count c) (pc_slot_capacity c) stride
       (pc_payload_alignment c)) = true.

(** Offsets of a slot's payload and of its control block. *)
Definition slot_offset (c : zipc_pool_config_t) (stride i : Z) : Z :=
  pc_payload_offset c + i * stride.
Definition slot_control_offset (c : zipc_pool_config_t) (i : Z) : Z :=
  pc_control_offset c + 6248 + i * 344.

(** The ranges of an accepted pool. *)
Record ranges_ok e (c : zipc_pool_config_t) (pm stride : Z) : Prop := {
  ro_control : pc_control_offset c + 6248 + pc_slot_count c * 344
    <= zipc_platform_memory_size e (pc_control_memory c);
  ro_control_address : zipc_platform_memory_base e (pc_control_memory c)
    + pc_control_offset c + 6248 + pc_slot_count c * 344 <= UINTPTR_MAX;
  ro_payload : pc_payload_offset c + pc_slot_count c * stride
    <= zipc_platform_memory_size e pm;
  ro_payload_address : zipc_platform_memory_base e pm
    + pc_payload_offset c + pc_slot_count c * stride <= UINTPTR_MAX;
  ro_disjoint : pc_control_memory c = pm →
    pc_payload_offset c + pc_slot_count c * stride <= pc_control_offset c ∨
    pc_control_offset c + 6248 + pc_slot_count c * 344 <= pc_payload_offset c }.

Lemma accepted_ranges e c pm stride :
  config_wf c → accepted e c pm stride → normalized e c pm stride ∧ ranges_ok e c pm stride.
Proof.
  intros Hwf [Hn Hr]. apply normalize_ok in Hn; [|done]. split; [done|].
  pose proof Hwf as [Hco Hpo Hc _ _ Ha]. destruct Hn as [_ ?? Hp _ _ _ _ ? Hal _ _].
  rewrite required_control_size_exact in Hr by zlia.
  rewrite required_payload_size_exact in Hr by (done || zlia).
  pose proof (mul_u32_bound (pc_slot_count c) stride ltac:(zlia) ltac:(zlia)).
  destruct (plat_memory_range e pm) as (?&?&_).
  destruct (plat_memory_range e (pc_control_memory c)) as (?&?&_).
  unfold pool_ranges_valid in Hr.
  destruct (negb (memory_range_fits e (pc_control_memory c) _ _)) eqn:Hr1; [done|].
  destruct (negb (memory_range_fits e pm _ _)) eqn:Hr2; [done|]. cbn [orb] in Hr.
  apply negb_false_iff, memory_range_fits_spec in Hr1 as (_&?&?); [|zlia..].
  apply negb_false_iff, memory_range_fits_spec in Hr2 as (_&?&?); [|zlia..].
  split; try lia. intros Hcm. rewrite (proj2 (Z.eqb_eq _ _) Hcm) in Hr.
  rewrite !u64_small in Hr by zlia. apply negb_true_iff, andb_false_iff in Hr. zlia.
Qed.

Lemma slots_apart stride x y i j :
  x <= stride → 0 <= stride → i < j → y + i * stride + x <= y + j * stride.
Proof. intros Hx Hs Hij. pose proof (Z.mul_le_mono_nonneg_r (i + 1) j stride). lia. Qed.

(** C20. An accepted configuration is memory safe: for every slot the offset the
    code computes does not wrap, its payload lies inside the payload mapping
    and the address space at an aligned address, payloads of different slots
    do not overlap, the slot controls are aligned and inside the control
    mapping and, when both share a mapping, overlap no payload; with guard
    pages, the guard page behind a slot is page aligned, inside the mapping,
    and ends before the next slot begins. *)
Theorem layout_sound e c pm stride i j :
  config_wf c → accepted e c pm stride →
  0 <= i < pc_slot_count c → 0 <= j < pc_slot_count c →
  let off := slot_offset c stride in
  let cap := pc_slot_capacity c in
  let page := zipc_platform_memory_page_size e pm in
  u64 (pc_payload_offset c + u64 (i * stride)) = off i ∧
  0 <= off i ∧ off i + cap <= zipc_platform_memory_size e pm ∧
  zipc_platform_memory_base e pm + off i + cap <= UINTPTR_MAX ∧
  (pc_payload_alignment c | zipc_platform_memory_base e pm + off i) ∧
  (i ≠ j → off i + cap <= off j ∨ off j + cap <= off i) ∧
  (8 | zipc_platform_memory_base e (pc_control_memory c) + slot_control_offset c i) ∧
  slot_control_offset c i + 344 <= zipc_platform_memory_size e (pc_control_memory c) ∧
  (pc_control_memory c = pm →
     off i + cap <= pc_control_offset c ∨ slot_control_offset c j + 344 <= off i) ∧
  (pool_flag ZIPC_POOL_F_GUARD_PAGES c = true →
     (page | off i + cap) ∧ off i + cap + page = off (i + 1) ∧
     off (i + 1) <= zipc_platform_memory_size e pm).
Proof.
  intros Hwf Hacc Hi Hj off cap page.
  destruct (accepted_ranges e c pm stride Hwf Hacc) as [Hn [Hro1 Hro2 Hro3 Hro4 Hro5]].
  pose proof Hwf as [Hco Hpo Hc _ _ Ha].
  destruct Hn as [_ ?? Hp Hhd Hhdo Hpay _ Hst Hal _ Hg].
  pose proof (slots_apart stride stride 0 i (pc_slot_count c)
    ltac:(lia) ltac:(lia) ltac:(lia)) as Hend.
  pose proof (slots_apart 344 344 0 i (pc_slot_count c)
    ltac:(lia) ltac:(lia) ltac:(lia)) as Hend1.
  pose proof (slots_apart 344 344 0 j (pc_slot_count c)
    ltac:(lia) ltac:(lia) ltac:(lia)) as Hend2.
  pose proof (Z.mul_nonneg_nonneg i stride ltac:(lia) ltac:(lia)).
  destruct (plat_memory_range e pm) as (?&?&_).
  apply memory_address_aligned_spec in Hhd as (_&_&_&Hhd); [|zlia..].
  apply memory_address_aligned_spec in Hpay as (_&_&_&Hpay); [|zlia..].
  unfold slot_control_offset, off, slot_offset, cap in *. split_and!; try lia; try zlia.
  - rewrite Z.add_assoc. by apply Z.divide_add_r; [|apply Z.divide_mul_r].
  - intros Hne. destruct (Z.lt_total i j) as [Hlt|[Heq|Hlt]]; [left|done|right];
      apply slots_apart; lia.
  - replace (_ + _) with (zipc_platform_memory_base e (pc_control_memory c) +
      pc_control_offset c + (781 + i * 43) * 8) by lia.
    apply Z.divide_add_r; [done|]. by exists (781 + i * 43).
  - intros [[Hsz Ho Hcap] ->]%Hg. split; [|split; [unfold page|]; lia].
    apply Z.divide_add_r; [apply Z.divide_add_r; [done|]|done].
    apply Z.divide_mul_r, Z.divide_add_r; [done|]. by exists 1; lia.
Qed.
End geometry.
