(* ===== verification/PoolSpec.v ===== *)
(** * Formatting and attaching a pool: theorems *)
From S2P Require Import Prelude Types Packing Visited Prog Store Identity Slot SlotRun.
From S2P Require Import SlotSpec Alloc Demo Layout LayoutSpec.

Section pool.
Context {E : Type} `{PlatformLaws E}.
Implicit Types (e : E) (w : world E).

#[export] Instance same_memory_refl : Reflexive (same_memory (E:=E)).
Proof. by intros e. Qed.
#[export] Instance same_memory_trans : Transitive (same_memory (E:=E)).
Proof. intros e1 e2 e3 H1 H2. unfold same_memory in *. intuition congruence. Qed.

(** The checks read the memory objects only. *)
Lemma normalize_same e e' c : same_memory e e' → normalize_config e' c = normalize_config e c.
Proof.
  intros (H1&H2&H3&H4&H5&H6). unfold normalize_config, normalize_stride, page_layout_bad,
    memory_address_aligned. by rewrite <- H1, <- H4, <- H5.
Qed.
Lemma ranges_same e e' c pm x y :
  same_memory e e' → pool_ranges_valid e' c pm x y = pool_ranges_valid e c pm x y.
Proof.
  intros (H1&H2&_). unfold pool_ranges_valid, memory_range_fits. by rewrite <- H1, <- H2.
Qed.
Lemma aligned_same e e' m o a :
  same_memory e e' → memory_address_aligned e' m o a = memory_address_aligned e m o a.
Proof. intros (H1&_). unfold memory_address_aligned. by rewrite <- H1. Qed.
Lemma control_base_same e e' c : same_memory e e' → control_base e' c = control_base e c.
Proof. intros (H1&_). unfold control_base. by rewrite <- H1. Qed.

(** ** Revoking a series of ranges *)

(** Byte [x] lies in one of the [n] ranges of length [l] at [f 0], [f 1], ... *)
Definition in_ranges (f : Z → Z) (l n x : Z) : Prop :=
  ∃ i, 0 <= i < n ∧ f i <= x < f i + l.

Record revoked (m : Z) (f : Z → Z) (l n : Z) e e' : Prop := {
  rv_memory : same_memory e e';
  rv_inside x : in_ranges f l n x → plat_accessible e' m x = false;
  rv_outside m' x : m' ≠ m ∨ ¬ in_ranges f l n x → plat_accessible e' m' x = plat_accessible e m' x }.

(** The platform can revoke each of the ranges. *)
Definition can_revoke (m : Z) (f : Z → Z) (l n : Z) e : Prop :=
  ∀ i e1, 0 <= i < n → same_memory e e1 →
    (zipc_platform_memory_protect_none m (f i) l e1).1 = ZIPC_OK.

Lemma revoked_start m f l e : revoked m f l 0 e e.
Proof. split; [done|by intros x (i&Hi&_); lia|done]. Qed.

Lemma revoked_step m f l n e e1 :
  0 <= n → 0 <= f n → 0 <= l → revoked m f l n e e1 →
  (zipc_platform_memory_protect_none m (f n) l e1).1 = ZIPC_OK →
  revoked m f l (n + 1) e (zipc_platform_memory_protect_none m (f n) l e1).2.
Proof.
  intros Hn Hf Hl [Hm Hi Ho] Hok. split.
  - transitivity e1; [done|]. apply plat_protect_none_frame.
  - intros x (i&Hr&Hx). rewrite plat_protect_none_spec, Z.eqb_refl by done. cbn [andb].
    destruct (decide (i = n)) as [->|Hne].
    + rewrite (proj2 (Z.leb_le _ _)), (proj2 (Z.ltb_lt _ _)) by lia. done.
    + rewrite Hi by (exists i; lia). by case_match.
  - intros m' x Hout. rewrite plat_protect_none_spec by done.
    rewrite Ho by (destruct Hout as [|Hout]; [by left|right; intros (i&?&?); apply Hout;
      exists i; lia]).
    destruct (Z.eqb_spec m' m) as [->|]; [|done]. destruct Hout as [|Hout]; [done|].
    destruct (Z.leb_spec (f n) x), (Z.ltb_spec x (f n + l)); try done.
    destruct Hout. exists n. lia.
Qed.

(** The loops of [apply_guard_pages] and [zipc_pool_attach]: [body] revokes the
    [i]-th range and leaves on an error. *)
Lemma wp_revoke_loop m f l n (body : Z → prog (world E) (option zipc_status_t)) Q w :
  0 <= n → (∀ i, 0 <= f i) → 0 <= l →
  (∀ i w1 R, 0 <= i < n → w_headers w1 = w_headers w →
     let r := zipc_platform_memory_protect_none m (f i) l (w_env w1) in
     R (if negb (status_is r.1 ZIPC_OK) then Some r.1 else None) (put_env r.2 w1) →
     wp (body i) R w1) →
  (∀ e', revoked m f l n (w_env w) e' → Q None (put_env e' w)) →
  (∀ st e', st ≠ ZIPC_OK → ¬ can_revoke m f l n (w_env w) → same_memory (w_env w) e' →
     Q (Some st) (put_env e' w)) →
  wp (for_range (Z.to_nat n) 0 body) Q w.
Proof.
  intros Hn Hpos Hl Hbody HQ1 HQ2.
  apply (wp_for_range (λ i w1, ∃ e1, w1 = put_env e1 w ∧ revoked m f l i (w_env w) e1)).
  - exists (w_env w). split; [by destruct w|apply revoked_start].
  - intros i w1 Hi (e1&->&Hr). apply Hbody; [lia|by destruct w|]. cbv zeta.
    replace (w_env (put_env e1 w)) with e1 by (by destruct w).
    destruct (status_is _ ZIPC_OK) eqn:Hok; cbn [negb].
    + eexists. split; [by destruct w|]. apply revoked_step; [lia|done..|].
      by apply bool_decide_eq_true in Hok.
    + apply bool_decide_eq_false in Hok. replace (put_env _ (put_env e1 w)) with
        (put_env (zipc_platform_memory_protect_none m (f i) l e1).2 w) by (by destruct w).
      apply HQ2; [done| |].
      * intros Hcan. apply Hok, Hcan; [lia|]. apply (rv_memory _ _ _ _ _ _ Hr).
      * transitivity e1; [apply (rv_memory _ _ _ _ _ _ Hr)|apply plat_protect_none_frame].
  - intros w1 (e1&->&Hr). apply HQ1. by rewrite Z.add_0_l, Z2Nat.id in Hr by done.
Qed.

(** The guard page behind each slot, at the offset the code computes. *)
Definition guard_offset (c : zipc_pool_config_t) (stride i : Z) : Z :=
  u64 (u64 (pc_payload_offset c + u64 (i * stride)) + pc_slot_capacity c).

Definition guards_armed (c : zipc_pool_config_t) (pm stride : Z) e e' : Prop :=
  if pool_flag ZIPC_POOL_F_GUARD_PAGES c
  then revoked pm (guard_offset c stride) (zipc_platform_memory_page_size e pm)
         (pc_slot_count c) e e'
  else e' = e.
Definition can_guard (c : zipc_pool_config_t) (pm stride : Z) e : Prop :=
  pool_flag ZIPC_POOL_F_GUARD_PAGES c = true →
  can_revoke pm (guard_offset c stride) (zipc_platform_memory_page_size e pm)
    (pc_slot_count c) e.

Lemma wp_apply_guard_pages c pm stride Q w :
  config_wf c → normalized (w_env w) c pm stride →
  (∀ e', guards_armed c pm stride (w_env w) e' → Q ZIPC_OK (put_env e' w)) →
  (∀ st e', st ≠ ZIPC_OK → ¬ can_guard c pm stride (w_env w) → same_memory (w_env w) e' →
     Q st (put_env e' w)) →
  wp (apply_guard_pages c pm stride) Q w.
Proof.
  intros Hwf Hn HQ1 HQ2. unfold apply_guard_pages, guards_armed, can_guard in *.
  destruct (pool_flag ZIPC_POOL_F_GUARD_PAGES c) eqn:Hg; cbn [negb].
  2: { apply wp_ret. replace w with (put_env (w_env w) w) by (by destruct w). by apply HQ1. }
  destruct (no_guard _ _ _ _ Hn Hg) as [[Hsz _ _] _].
  apply wp_bind, wp_env_get. rewrite (proj2 (Z.eqb_neq _ 0)) by lia. apply wp_bind.
  destruct (cw_count _ Hwf).
  eapply (wp_revoke_loop pm (guard_offset c stride) (zipc_platform_memory_page_size (w_env w) pm));
    [done|intros i; apply u64_range|apply (plat_memory_range (w_env w) pm)| | |].
  - intros i w1 R Hi _ r HR. apply wp_bind, wp_env_call, wp_ret. exact HR.
  - intros e' Hr. apply wp_ret. by apply HQ1.
  - intros st e' Hst Hcan Hm. apply wp_ret. apply HQ2; auto.
Qed.

(** ** Formatting *)

(** [m'] is [m] with the first [n] cells of the table at [h] set to [a]. *)
Definition cells_set {A} (h n : Z) (a : A) (m m' : gmap (Z * Z) A) : Prop :=
  ∀ k, m' !! k = if decide (k.1 = h ∧ 0 <= k.2 < n) then Some a else m !! k.

Lemma cells_union {A} h n (a : A) m :
  cells_set h n a m (list_to_map (map (λ i, ((h, i), a)) (seqZ 0 n)) ∪ m).
Proof.
  intros k. case_decide as Hk.
  - apply lookup_union_Some_l, elem_of_list_to_map_1.
    + rewrite map_map. change (map _ _) with (pair h <$> seqZ 0 n).
      apply NoDup_fmap_2; [by intros x y [=]|apply NoDup_seqZ].
    + apply list_elem_of_fmap. destruct k as [h' i]. simpl in Hk. destruct Hk as [-> Hi].
      exists i. split; [done|]. apply elem_of_seqZ. lia.
  - rewrite lookup_union_r; [done|]. apply not_elem_of_list_to_map_1.
    intros (x&->&(y&->&Hy%elem_of_seqZ)%list_elem_of_fmap)%list_elem_of_fmap.
    apply Hk. simpl. lia.
Qed.
Lemma cells_set_step {A} h n (a : A) m m' :
  0 <= n → cells_set h n a m m' → cells_set h (n + 1) a m (<[(h, n) := a]> m').
Proof.
  intros Hn Hm k. destruct (decide (k = (h, n))) as [->|Hne].
  - rewrite lookup_insert_eq, decide_True by (simpl; lia). done.
  - rewrite lookup_insert_ne, Hm by done. destruct k as [k1 k2]. simpl.
    assert (k1 ≠ h ∨ k2 ≠ n) by (destruct (decide (k1 = h)), (decide (k2 = n)); naive_solver).
    repeat case_decide; try done; lia.
Qed.
Lemma cells_set_again {A} h n (a b : A) m m1 m2 :
  cells_set h n a m m1 → cells_set h n b m1 m2 → cells_set h n b m m2.
Proof. intros H1 H2 k. rewrite H2. case_decide; [done|]. rewrite H1. by rewrite decide_False. Qed.

Definition formatted_header (c : zipc_pool_config_t) (stride : Z) : zipc_pool_header_t :=
  ZipcHeader ZIPC_POOL_MAGIC ZIPC_POOL_ABI_VERSION 6248 (pc_slot_count c)
    (pc_slot_capacity c) stride 6248 (pc_payload_alignment c) 0 0 0 0 0 0.
Definition free_slot : zipc_slot_control_t := init_control zero_slot.

(** What a successful format leaves in shared memory. *)
Record formatted (c : zipc_pool_config_t) (stride h : Z) w w' : Prop := {
  fm_header : w_headers w' = <[h := formatted_header c stride]> (w_headers w);
  fm_slots : cells_set h (pc_slot_count c) free_slot (w_controls w) (w_controls w');
  fm_components : cells_set h 256 zero_component (w_components w) (w_components w');
  fm_buffers : w_buffers w' = w_buffers w;
  fm_payload : w_payload w' = w_payload w }.

(** The two initialisation loops. *)
Lemma wp_init_controls h n m0 Q w :
  0 <= n → cells_set h n zero_slot m0 (w_controls w) →
  (∀ m, cells_set h n free_slot m0 m → Q None {| w with w_controls := m |}) →
  wp (for_range (A:=()) (Z.to_nat n) 0 (λ i, slot_write (h, i) init_control;; mret None)) Q w.
Proof.
  intros Hn Hz HQ.
  apply (wp_for_range (λ i w1, ∃ m, w1 = {| w with w_controls := m |} ∧
    cells_set h i free_slot (w_controls w) m)).
  - exists (w_controls w). split; [by destruct w|]. intros k. rewrite decide_False; [done|lia].
  - intros i w1 Hi (m&->&Hm). apply wp_bind. eapply wp_slot_write.
    { simpl. rewrite Hm, decide_False by (simpl; lia). rewrite Hz, decide_True by (simpl; lia).
      done. }
    intros s' ->. apply wp_ret. eexists. split; [reflexivity|]. simpl.
    apply cells_set_step; [lia|done].
  - intros w1 (m&->&Hm). apply HQ. rewrite Z.add_0_l, Z2Nat.id in Hm by done.
    by eapply cells_set_again.
Qed.
Lemma wp_init_components h m0 Q w :
  cells_set h 256 zero_component m0 (w_components w) →
  (∀ m, cells_set h 256 zero_component m0 m → Q None {| w with w_components := m |}) →
  wp (for_range (A:=()) (Z.to_nat 256) 0
        (λ i, component_write (h, i) init_component;; mret None)) Q w.
Proof.
  intros Hz HQ.
  apply (wp_for_range (λ i w1, ∃ m, w1 = {| w with w_components := m |} ∧
    cells_set h i zero_component (w_components w) m)).
  - exists (w_components w). split; [by destruct w|]. intros k. rewrite decide_False; [done|lia].
  - intros i w1 Hi (m&->&Hm). apply wp_bind. eapply wp_component_write.
    { simpl. rewrite Hm, decide_False by (simpl; lia). rewrite Hz, decide_True by (simpl; lia).
      done. }
    apply wp_ret. eexists. split; [reflexivity|]. simpl. apply cells_set_step; [lia|done].
  - intros w1 (m&->&Hm). apply HQ. by eapply cells_set_again.
Qed.

(** The alignment test on the control array follows from the accepted layout. *)
Lemma controls_aligned e c pm stride :
  config_wf c → accepted e c pm stride →
  memory_address_aligned e (pc_control_memory c) (u64 (pc_control_offset c + 6248)) 8 = true.
Proof.
  intros Hwf Hacc. destruct (accepted_ranges _ _ _ _ Hwf Hacc) as [Hn Hr].
  pose proof (no_count _ _ _ _ Hn). destruct Hr as [Hr1 Hr2 _ _ _].
  destruct (plat_memory_range e (pc_control_memory c)) as (?&?&_).
  destruct (cw_control_offset _ Hwf). pose proof (no_header _ _ _ _ Hn) as Hh.
  apply memory_address_aligned_spec in Hh as (?&?&?&Hd); [|zlia..].
  rewrite u64_small by zlia. apply memory_address_aligned_spec; [zlia..|].
  split_and!; [done|done|lia|]. rewrite Z.add_assoc. apply Z.divide_add_r; [done|]. by exists 781.
Qed.

(** The outcome [r] and the world [w'] of a format from [w]. *)
Definition format_outcome (c : zipc_pool_config_t) w (r : zipc_status_t) w' : Prop :=
  same_memory (w_env w) (w_env w') ∧
  match normalize_config (w_env w) (Some c) with
  | inl status => r = status ∧ w' = w
  | inr (pm, stride) =>
      if pool_ranges_valid (w_env w) c pm (zipc_pool_required_control_size (pc_slot_count c))
           (zipc_pool_required_payload_size (pc_slot_count c) (pc_slot_capacity c) stride
              (pc_payload_alignment c))
      then if status_is r ZIPC_OK
           then formatted c stride (control_base (w_env w) c) w w' ∧
                guards_armed c pm stride (w_env w) (w_env w')
           else ¬ can_guard c pm stride (w_env w) ∧ w' = put_env (w_env w') w
      else r = ZIPC_ERR_INVALID_ARGUMENT ∧ w' = w
  end.

Lemma wp_pool_format c w :
  config_wf c → wp (zipc_pool_format (Some c)) (format_outcome c w) w.
Proof.
  intros Hwf. unfold zipc_pool_format, format_outcome. apply wp_bind, wp_env_get.
  destruct (normalize_config (w_env w) (Some c)) as [st|[pm stride]] eqn:Hnorm.
  { by apply wp_ret. }
  pose proof (normalize_ok _ _ _ _ Hwf Hnorm) as Hn. apply wp_bind, wp_env_get.
  destruct (pool_ranges_valid _ _ _ _ _) eqn:Hr.
  2: { rewrite orb_true_r. by apply wp_ret. }
  assert (Hacc : accepted (w_env w) c pm stride) by done.
  pose proof Hwf as [Hco Hpo Hc _ _ Ha]. pose proof Hn as [_ ?? Hp _ _ _ _ ? Hal _ _].
  rewrite (required_control_size_exact (pc_slot_count c)) by zlia.
  rewrite (required_payload_size_exact (pc_slot_count c)) by (done || zlia).
  rewrite (proj2 (Z.eqb_neq (_ + _) 0)), (proj2 (Z.eqb_neq (_ * _) 0)) by nia.
  cbn [orb negb]. apply wp_bind. apply wp_apply_guard_pages; [done|done| |].
  2: { intros st e' Hst Hcan Hm. unfold status_is. rewrite (bool_decide_eq_false_2 (st = _)) by done.
       apply wp_ret. rewrite bool_decide_eq_false_2 by done. by destruct w. }
  intros e' Harm.
  assert (Hm : same_memory (w_env w) e').
  { unfold guards_armed in Harm. case_match; [by destruct Harm|by subst]. }
  status_eval. apply wp_bind, wp_env_get. change (w_env (put_env e' w)) with e'.
  rewrite (control_base_same _ _ _ Hm). set (h := control_base (w_env w) c).
  apply wp_bind. eapply wp_act; [reflexivity|]. apply wp_bind.
  eapply wp_header_write; [apply lookup_insert_eq|].
  change (align_up_checked _ _) with (Some 6248). cbv iota.
  apply wp_bind, wp_env_get. change (w_env (put_header _ _ _)) with e'.
  unfold alignof_zipc_slot_control_t. rewrite (aligned_same _ _ _ _ _ Hm), (controls_aligned _ _ _ _ Hwf Hacc).
  destruct (accepted_ranges _ _ _ _ Hwf Hacc) as [_ [Hro1 Hro2 _ _ _]].
  destruct (plat_memory_range (w_env w) (pc_control_memory c)) as (?&?&_).
  change (UINT32_MAX <? 6248) with false. rewrite u64_small, (proj2 (Z.ltb_ge _ _)) by zlia.
  psimpl. apply wp_bind. eapply wp_header_write; [apply lookup_insert_eq|]. apply wp_bind.
  eapply (wp_init_controls h _ (w_controls w)); [zlia|apply cells_union|]. intros mc Hmc.
  apply wp_bind. eapply wp_header_write; [apply lookup_insert_eq|]. apply wp_bind.
  eapply (wp_init_components h (w_components w)); [apply cells_union|]. intros mk Hmk.
  apply wp_ret. destruct w. split; [done|]. status_eval. split; [|done].
  split; cbn; try done. by rewrite !insert_insert_eq.
Qed.

(** [zipc_pool_format] either refuses, changing nothing in shared memory,
    or leaves a well-formed pool.  It refuses with the error of
    [normalize_config], with INVALID_ARGUMENT when the pool does not fit, and
    otherwise only when the platform cannot revoke a guard page.  On success the
    header describes exactly the configuration, every slot is the initial free
    slot, all 256 component entries are inactive at epoch 0, no other header,
    slot or component entry of any other pool has changed, and the guard pages
    (and nothing else) have been revoked. *)
Theorem format_correct c w :
  config_wf c → wp (zipc_pool_format (Some c)) (format_outcome c w) w.
Proof. apply wp_pool_format. Qed.

(** ** Attaching *)

(** The payload offset of a slot as the code computes it. *)
Definition payload_offset (c : zipc_pool_config_t) (stride i : Z) : Z :=
  u64 (pc_payload_offset c + u64 (i * stride)).
Definition strict (c : zipc_pool_config_t) : bool :=
  pool_flag ZIPC_POOL_F_STRICT_OWNERSHIP c.

(** Every payload is revoked in a strict pool, every guard page in a guarded
    one, and nothing else changes. *)
Definition protections (c : zipc_pool_config_t) (pm stride : Z) e e' : Prop :=
  ∃ e1, guards_armed c pm stride e e1 ∧
    if strict c
    then revoked pm (payload_offset c stride) (pc_slot_capacity c) (pc_slot_count c) e1 e'
    else e' = e1.
Definition can_protect (c : zipc_pool_config_t) (pm stride : Z) e : Prop :=
  can_guard c pm stride e ∧
  (strict c = true →
   can_revoke pm (payload_offset c stride) (pc_slot_capacity c) (pc_slot_count c) e).

Definition pool_of (self : Z) e (c : zipc_pool_config_t) (pm : Z) : zipc_pool_t :=
  ZipcPool self (pc_control_memory c) pm (pc_control_offset c) (pc_payload_offset c)
    (control_base e c) (zipc_platform_memory_base e pm + pc_payload_offset c)
    (pc_flags c) (pc_pool_id c).

(** The shared memory is the formatted pool the configuration describes. *)
Definition attachable e (c : zipc_pool_config_t) (pm stride : Z) (hd : zipc_pool_header_t)
    : bool :=
  let size := zipc_platform_memory_size e (pc_control_memory c) in
  negb (size <? pc_control_offset c)
  && negb (u64 (size - pc_control_offset c) <? sizeof_zipc_pool_header_t)
  && negb (header_mismatch c stride hd) && negb (controls_misplaced e c hd)
  && negb (ranges_bad e c pm hd).

Lemma guards_same c pm stride e e' : guards_armed c pm stride e e' → same_memory e e'.
Proof. unfold guards_armed. case_match; [by intros []|by intros ->]. Qed.

Lemma header_matches c stride hd :
  header_mismatch c stride hd = false →
  h_slot_count hd = pc_slot_count c ∧ h_slot_capacity hd = pc_slot_capacity c ∧
  h_slot_stride hd = stride ∧ h_payload_alignment hd = pc_payload_alignment c.
Proof. unfold header_mismatch. intros Hm. bool_to_prop. auto. Qed.

Lemma attachable_accepted e c pm stride hd :
  normalize_config e (Some c) = inr (pm, stride) → attachable e c pm stride hd = true →
  header_mismatch c stride hd = false ∧ accepted e c pm stride.
Proof.
  intros Hn. unfold attachable. rewrite !andb_true_iff, !negb_true_iff.
  intros ((((_&_)&Hm)&_)&Hr). split; [done|]. split; [done|].
  destruct (header_matches _ _ _ Hm) as (Hm1&Hm2&Hm3&Hm4). unfold ranges_bad in Hr.
  rewrite Hm1, Hm2, Hm3, Hm4 in Hr. cbv zeta in Hr. bool_to_prop. done.
Qed.

(** The outcome [r] and the world [w'] of an attach from [w], where [hd] is the
    header found at the control address. *)
Definition attach_outcome (self : Z) (c : zipc_pool_config_t) (hd : zipc_pool_header_t) w
    (r : zipc_status_t * option zipc_pool_t) w' : Prop :=
  w' = put_env (w_env w') w ∧ same_memory (w_env w) (w_env w') ∧
  match normalize_config (w_env w) (Some c) with
  | inl status => r = (status, None)
  | inr (pm, stride) =>
      if attachable (w_env w) c pm stride hd
      then accepted (w_env w) c pm stride ∧
           if status_is r.1 ZIPC_OK
           then r.2 = Some (pool_of self (w_env w) c pm) ∧
                protections c pm stride (w_env w) (w_env w')
           else ¬ can_protect c pm stride (w_env w)
      else r = (ZIPC_ERR_INVALID_POOL, None)
  end.

Lemma wp_pool_attach self c hd w :
  config_wf c → self ≠ 0 → w_headers w !! control_base (w_env w) c = Some hd →
  wp (zipc_pool_attach self (Some c)) (attach_outcome self c hd w) w.
Proof.
  intros Hwf Hs Hh. unfold zipc_pool_attach, attach_outcome. rewrite (proj2 (Z.eqb_neq self 0)) by done.
  assert (Hself : w = put_env (w_env w) w) by (by destruct w).
  apply wp_bind, wp_env_get.
  destruct (normalize_config (w_env w) (Some c)) as [st|[pm stride]] eqn:Hnorm.
  { by apply wp_ret. }
  pose proof (normalize_ok _ _ _ _ Hwf Hnorm) as Hn.
  pose proof (attachable_accepted _ _ _ _ hd Hnorm) as Hacc.
  unfold attachable in *. apply wp_bind, wp_env_get.
  destruct (zipc_platform_memory_size _ _ <? _); psimpl; [by apply wp_ret|].
  destruct (u64 _ <? _); psimpl; [by apply wp_ret|].
  apply wp_bind, wp_env_get, wp_bind. eapply wp_header_read; [exact Hh|].
  destruct (header_mismatch c stride hd) eqn:Hmis; psimpl; [by apply wp_ret|].
  apply wp_bind, wp_env_get. destruct (controls_misplaced _ _ _); psimpl; [by apply wp_ret|].
  apply wp_bind, wp_env_get. destruct (ranges_bad _ _ _ _); psimpl; [by apply wp_ret|].
  destruct (Hacc eq_refl) as [_ Hok]. destruct (header_matches _ _ _ Hmis) as (Hm1&Hm2&Hm3&_).
  apply wp_bind. apply wp_apply_guard_pages; [done|done| |].
  2: { intros st e' Hst Hcan Hm. unfold status_is. rewrite (bool_decide_eq_false_2 (st = _)) by done.
       apply wp_ret. cbn [fst]. rewrite bool_decide_eq_false_2 by done.
       split; [by destruct w|]. split; [done|]. split; [done|]. by intros [? _]. }
  intros e1 Harm. pose proof (guards_same _ _ _ _ _ Harm) as Hmem. status_eval.
  apply wp_bind, wp_env_get. change (w_env (put_env e1 w)) with e1.
  replace (zipc_platform_memory_base e1) with (zipc_platform_memory_base (w_env w))
    by apply Hmem. cbn [p_flags]. cbv zeta.
  change (negb (Z.land (pc_flags c) ZIPC_POOL_F_STRICT_OWNERSHIP =? 0)) with (strict c).
  destruct (strict c) eqn:Hstr.
  2: { apply wp_ret. status_eval. split; [by destruct w|]. split; [done|]. split; [done|].
       split; [done|]. exists e1. by rewrite Hstr. }
  apply wp_bind. rewrite Hm1. destruct (cw_count _ Hwf).
  eapply (wp_revoke_loop pm (payload_offset c stride) (pc_slot_capacity c));
    [done|intros i; apply u64_range|apply Hwf| | |].
  - intros i w1 R Hi Hw1 r HR. apply wp_bind. eapply wp_header_read.
    { rewrite Hw1. exact Hh. }
    psimpl. apply wp_bind, wp_env_call, wp_ret. rewrite Hm2, Hm3. exact HR.
  - intros e' Hrev. apply wp_ret. cbn [default fst snd]. status_eval.
    pose proof (rv_memory _ _ _ _ _ _ Hrev).
    split; [by destruct w|]. split; [by transitivity e1|]. split; [done|]. split; [done|].
    exists e1. by rewrite Hstr.
  - intros st e' Hst Hcan Hm. apply wp_ret. cbn [default fst]. unfold status_is.
    rewrite bool_decide_eq_false_2 by done.
    split; [by destruct w|]. split; [by transitivity e1|]. split; [done|]. intros [_ Hcan'].
    apply Hcan. intros i e2 Hi He2. apply Hcan'; [done|done|by transitivity e1].
Qed.

(** [zipc_pool_attach] never writes shared memory and only accepts the pool it was
    asked for: it returns the error of [normalize_config], INVALID_POOL when the
    header at the control address is not that of a pool with the requested
    geometry or the pool does not fit the mappings, or a platform error when a
    range cannot be revoked; otherwise OK with the pool object for the
    configuration, in a layout that [layout_sound] covers, every payload of a
    strict pool and every guard page revoked and no other byte. *)
Theorem attach_correct self c hd w :
  config_wf c → self ≠ 0 → w_headers w !! control_base (w_env w) c = Some hd →
  wp (zipc_pool_attach self (Some c)) (attach_outcome self c hd w) w.
Proof. apply wp_pool_attach. Qed.

(** A freshly formatted slot satisfies the invariant of the slot protocol. *)
Lemma free_slot_ok cap : slot_ok cap free_slot ∧ allocatable free_slot = true.
Proof. split; [split; [split; simpl; auto with zipc; zlia|done]|done]. Qed.

(** A formatted pool passes every check of attach. *)
Lemma formatted_attachable e c pm stride :
  config_wf c → accepted e c pm stride →
  attachable e c pm stride (formatted_header c stride) = true.
Proof.
  intros Hwf Hacc. pose proof (accepted_ranges _ _ _ _ Hwf Hacc) as [Hn Hr].
  pose proof Hwf as [Hco Hpo Hc _ _ Ha]. pose proof Hn as [_ ?? Hp _ _ _ _ ? Hal _ _].
  pose proof Hr as [Hro1 Hro2 _ _ _].
  destruct (plat_memory_range e (pc_control_memory c)) as (?&?&_).
  unfold attachable, header_mismatch, controls_misplaced, ranges_bad, formatted_header.
  cbn [h_magic h_abi_version h_header_size h_slot_count h_slot_capacity h_slot_stride
    h_controls_offset h_payload_alignment]. cbv zeta.
  change (align_up_checked _ _) with (Some 6248). cbv iota.
  unfold alignof_zipc_slot_control_t, sizeof_zipc_pool_header_t, sizeof_zipc_slot_control_t.
  rewrite (controls_aligned _ _ _ _ Hwf Hacc). destruct Hacc as [_ Hrange]. rewrite Hrange.
  rewrite (required_control_size_exact (pc_slot_count c)) by zlia.
  rewrite (required_payload_size_exact (pc_slot_count c)) by (done || zlia).
  rewrite !Z.eqb_refl. change (6248 `mod` 8 =? 0) with true.
  change (UINT32_MAX <? 6248) with false. cbn [negb orb].
  rewrite (u64_small (_ - pc_control_offset c)), (u64_small (SIZE_MAX - 6248)) by zlia.
  replace (u64 (6248 + pc_slot_count c * 344 - 6248)) with (pc_slot_count c * 344) by zlia.
  rewrite Z.div_mul by done.
  rewrite (proj2 (Z.eqb_neq (6248 + _) 0)), (proj2 (Z.eqb_neq (pc_slot_count c * _) 0)) by nia.
  repeat rewrite (proj2 (Z.ltb_ge _ _)) by zlia. done.
Qed.

(** The offsets the code computes do not wrap. *)
Lemma payload_offset_exact e c pm stride i :
  config_wf c → accepted e c pm stride → 0 <= i < pc_slot_count c →
  payload_offset c stride i = slot_offset c stride i.
Proof.
  intros Hwf Hacc Hi. destruct (accepted_ranges _ _ _ _ Hwf Hacc) as [Hn [_ _ Hr _ _]].
  destruct (no_stride _ _ _ _ Hn), (cw_payload_offset _ Hwf), (cw_count _ Hwf).
  pose proof (no_capacity _ _ _ _ Hn).
  pose proof (slots_apart stride stride 0 i (pc_slot_count c) ltac:(lia) ltac:(lia) ltac:(lia)).
  pose proof (Z.mul_nonneg_nonneg i stride ltac:(lia) ltac:(lia)).
  destruct (plat_memory_range e pm) as (_&?&_). unfold payload_offset, slot_offset.
  rewrite !u64_small by zlia. done.
Qed.

Lemma can_protect_same c pm stride e e' :
  same_memory e e' → can_protect c pm stride e → can_protect c pm stride e'.
Proof.
  intros Hm [Hg Hs]. pose proof Hm as (_&_&_&_&Hp&_). split; unfold can_guard in *;
    [rewrite <- Hp|]; intros Hf i e1 Hi He1; [apply Hg|apply Hs]; try done;
    by transitivity e'.
Qed.

(** C19. Format and attach fit together: for an accepted configuration whose
    ranges the platform can revoke, formatting and then attaching returns OK
    with a pool object that is attached to the formatted memory; every slot
    satisfies the slot invariant and can be allocated, every component is
    unregistered, and in a strict pool no payload byte of any slot is
    accessible. *)
Theorem format_attach_roundtrip self c pm stride w :
  config_wf c → self ≠ 0 → accepted (w_env w) c pm stride →
  can_protect c pm stride (w_env w) →
  wp (status ← zipc_pool_format (Some c);
      if negb (status_is status ZIPC_OK) then mret (status, None)
      else zipc_pool_attach self (Some c))
    (λ r w', ∃ pool, r = (ZIPC_OK, Some pool) ∧
       attached pool (formatted_header c stride) w' ∧
       (∀ i, 0 <= i < pc_slot_count c → ∃ s, w_controls w' !! slot_key pool i = Some s ∧
          slot_ok (pc_slot_capacity c) s ∧ allocatable s = true) ∧
       (∀ k, zipc_component_id_valid k = true →
          w_components w' !! (p_header pool, k) = Some zero_component) ∧
       (strict c = true → ∀ i x, 0 <= i < pc_slot_count c →
          slot_offset c stride i <= x < slot_offset c stride i + pc_slot_capacity c →
          plat_accessible (w_env w') pm x = false)) w.
Proof.
  intros Hwf Hself Hacc Hcan. apply wp_bind.
  eapply wp_mono; [by apply wp_pool_format|]. intros r w1 [Hm1 Hr].
  pose proof Hacc as [Hnorm Hrange]. rewrite Hnorm, Hrange in Hr.
  destruct (status_is r ZIPC_OK) eqn:Hst; cbn [negb].
  2: { destruct Hr as [Hno _]. destruct Hno. apply Hcan. }
  destruct Hr as [[Hhd Hsl Hco _ _] _].
  assert (Hb : control_base (w_env w1) c = control_base (w_env w) c)
    by (by apply control_base_same).
  assert (Hacc1 : accepted (w_env w1) c pm stride).
  { split; [by rewrite (normalize_same _ _ _ Hm1)|by rewrite (ranges_same _ _ _ _ _ _ Hm1)]. }
  eapply wp_mono; [apply (wp_pool_attach self c (formatted_header c stride)); [done|done|];
    rewrite Hb, Hhd; apply lookup_insert_eq|].
  intros [st p] w2 (Hw2&Hm2&Ha). rewrite (proj1 Hacc1) in Ha.
  rewrite (formatted_attachable _ _ _ _ Hwf Hacc1) in Ha. destruct Ha as [_ Ha].
  cbn [fst snd] in Ha. destruct (status_is st ZIPC_OK) eqn:Hok.
  2: { destruct Ha. by apply (can_protect_same _ _ _ _ _ Hm1). }
  apply bool_decide_eq_true in Hok as ->. destruct Ha as [-> Hprot].
  destruct (accepted_ranges _ _ _ _ Hwf Hacc) as [Hn _].
  assert (Hcnt : 1 <= pc_slot_count c <= UINT32_MAX)
    by (pose proof (no_count _ _ _ _ Hn); destruct (cw_count _ Hwf); lia).
  assert (Hslot : ∀ i, 0 <= i < pc_slot_count c →
    w_controls w2 !! slot_key (pool_of self (w_env w1) c pm) i = Some free_slot).
  { intros i Hi. rewrite Hw2. unfold slot_key, pool_of. cbn [put_env w_controls p_header].
    rewrite Hb, Hsl, decide_True; [done|]. simpl. lia. }
  assert (Hcomp : ∀ k, zipc_component_id_valid k = true →
    w_components w2 !! (p_header (pool_of self (w_env w1) c pm), k) = Some zero_component).
  { intros k Hk%zipc_component_id_valid_spec. rewrite Hw2.
    unfold pool_of. cbn [put_env w_components p_header]. rewrite Hb, Hco, decide_True; [done|].
    simpl. lia. }
  eexists. split; [reflexivity|]. split_and!; [split|..]; try (by eauto).
  - rewrite Hw2. unfold pool_of. cbn [put_env w_headers p_header]. rewrite Hb, Hhd.
    apply lookup_insert_eq.
  - intros i Hi. exists free_slot. split; [by apply Hslot|apply free_slot_ok].
  - intros Hstr i x Hi Hx. destruct Hprot as (e1&_&Hrev). rewrite Hstr in Hrev.
    apply (rv_inside _ _ _ _ _ _ Hrev). exists i. split; [done|].
    by rewrite (payload_offset_exact _ _ _ _ _ Hwf Hacc).
Qed.
End pool.

(** ** A guarded strict pool of two slots *)
Definition demo_config : zipc_pool_config_t := ZipcPoolConfig 1 0 3 0 2 64 0 64 3 42.
Lemma demo_config_wf : config_wf demo_config.
Proof. split; cbn; zlia. Qed.
Lemma demo_accepted : accepted demo_env demo_config 3 128.
Proof. split; vm_compute; reflexivity. Qed.
Lemma demo_can_protect : can_protect demo_config 3 128 demo_env.
Proof. split; [intros _ i e1 _ _|intros _ i e1 _ _]; reflexivity. Qed.
Definition demo_formatted : world demo :=
  put_header 1048576 (formatted_header demo_config 128) demo_world.

Lemma layout_sound_witness :
  slot_offset demo_config 128 0 + 64 <= slot_offset demo_config 128 1 ∨
  slot_offset demo_config 128 1 + 64 <= slot_offset demo_config 128 0.
Proof.
  pose proof (layout_sound demo_env demo_config 3 128 0 1 demo_config_wf demo_accepted
    ltac:(cbn; lia) ltac:(cbn; lia)) as Hw.
  cbv zeta in Hw. destruct Hw as (_&_&_&_&_&Hd&_). apply Hd. lia.
Defined.

Lemma format_correct_witness :
  wp (zipc_pool_format (Some demo_config)) (format_outcome demo_config demo_world) demo_world.
Proof. exact (format_correct demo_config demo_world demo_config_wf). Defined.

Lemma attach_correct_witness :
  wp (zipc_pool_attach 5 (Some demo_config))
    (attach_outcome 5 demo_config (formatted_header demo_config 128) demo_formatted)
    demo_formatted.
Proof.
  refine (attach_correct 5 demo_config (formatted_header demo_config 128) demo_formatted
    demo_config_wf _ _); [lia|apply lookup_insert_eq].
Defined.

Lemma format_attach_roundtrip_witness :
  wp (status ← zipc_pool_format (Some demo_config);
      if negb (status_is status ZIPC_OK) then mret (status, None)
      else zipc_pool_attach 5 (Some demo_config))
    (λ r w', r.1 = ZIPC_OK ∧ plat_accessible (w_env w') 3 130 = false) demo_world.
Proof.
  pose proof (format_attach_roundtrip 5 demo_config 3 128 demo_world demo_config_wf
    ltac:(lia) demo_accepted demo_can_protect) as Hw.
  eapply wp_mono; [exact Hw|]. cbn beta. intros r w' (pool&->&_&_&_&Hs). split; [done|].
  apply (Hs eq_refl 1); [cbn; lia|unfold slot_offset; cbn; lia].
Defined.
