(* ===== verification/Ring.v ===== *)
(** * The single-producer single-consumer descriptor ring

    [zipc_transport_spsc_ring_initialize] of src/core/zipc.c and the ring
    operations of platform/linux/common/platform-linux-common.c, shown to
    implement a bounded FIFO queue that drops an announcement it already
    holds. *)
From S2P Require Import Prelude Types Prog Store Layout.

Section ring.
Context {E : Type}.
Implicit Type w : world E.

(** ** Atomic actions on a shared ring *)
Definition ring_read {A} (a : Z) (f : zipc_transport_spsc_ring_t → A) : prog (world E) A :=
  act (λ w, r ← w_rings w !! a; Some (f r, w)).
Definition ring_write (a : Z) (f : zipc_transport_spsc_ring_t → zipc_transport_spsc_ring_t)
    : prog (world E) () :=
  act (λ w, r ← w_rings w !! a; Some (tt, put_ring a (f r) w)).

(** [ring->entries[position % ring->depth]] *)
Definition ring_entry (position : Z) (r : zipc_transport_spsc_ring_t) : zipc_message_t :=
  nth (Z.to_nat (position `mod` ring_depth r)) (ring_entries r) zero_message.
Definition set_entry (position : Z) (m : zipc_message_t) (r : zipc_transport_spsc_ring_t)
    : zipc_transport_spsc_ring_t :=
  {| r with ring_entries := <[Z.to_nat (position `mod` ring_depth r) := m]> (ring_entries r) |}.
Definition set_producer (x : Z) (r : zipc_transport_spsc_ring_t)
    : zipc_transport_spsc_ring_t := {| r with ring_producer := x |}.
Definition set_consumer (x : Z) (r : zipc_transport_spsc_ring_t)
    : zipc_transport_spsc_ring_t := {| r with ring_consumer := x |}.
Definition reset_ring (depth : Z) (r : zipc_transport_spsc_ring_t)
    : zipc_transport_spsc_ring_t :=
  ZipcRing 0 0 depth (ring_entries r).

(** ** Operations; [0] is NULL *)
Definition zipc_transport_spsc_ring_initialize (ring depth : Z)
    : prog (world E) zipc_status_t :=
  if (ring =? 0) || (depth <? 2) then mret ZIPC_ERR_INVALID_ARGUMENT
  else ring_write ring (reset_ring depth);; mret ZIPC_OK.

(** The five fields that identify an announcement. *)
Definition same_message (queued message : zipc_message_t) : bool :=
  (m_handle queued =? m_handle message) && (m_pool_id queued =? m_pool_id message) &&
  (m_source_component queued =? m_source_component message) &&
  (m_destination_component queued =? m_destination_component message) &&
  (m_transfer_sequence queued =? m_transfer_sequence message).

(** The scan for a queued copy, [None] when the fuel runs out. *)
Fixpoint ring_scan (fuel : nat) (ring position producer : Z) (message : zipc_message_t)
    : prog (world E) (option bool) :=
  match fuel with
  | O => mret None
  | S fuel' =>
      if position =? producer then mret (Some false)
      else
      queued ← ring_read ring (ring_entry position);
      if same_message queued message then mret (Some true)
      else ring_scan fuel' ring (u32 (position + 1)) producer message
  end.

Definition zipc_linux_common_ring_push (fuel : nat) (ring : Z) (message : option zipc_message_t)
    : prog (world E) zipc_status_t :=
  match message with
  | None => mret ZIPC_ERR_INVALID_ARGUMENT
  | Some message =>
  if ring =? 0 then mret ZIPC_ERR_INVALID_ARGUMENT
  else
  depth ← ring_read ring ring_depth;
  if depth <? 2 then mret ZIPC_ERR_INVALID_ARGUMENT
  else
  producer ← ring_read ring ring_producer;
  consumer ← ring_read ring ring_consumer;
  if depth <=? u32 (producer - consumer) then mret ZIPC_ERR_TRANSPORT
  else
  found ← ring_scan fuel ring consumer producer message;
  queued ← returned found;
  if queued : bool then mret ZIPC_OK
  else
  ring_write ring (set_entry producer message);;
  ring_write ring (set_producer (u32 (producer + 1)));;
  mret ZIPC_OK
  end.

(** On OK the message and its position. *)
Definition zipc_linux_common_ring_peek (ring : Z)
    : prog (world E) (zipc_status_t * option (zipc_message_t * Z)) :=
  if ring =? 0 then mret (ZIPC_ERR_INVALID_ARGUMENT, None)
  else
  depth ← ring_read ring ring_depth;
  if depth <? 2 then mret (ZIPC_ERR_INVALID_ARGUMENT, None)
  else
  consumer ← ring_read ring ring_consumer;
  producer ← ring_read ring ring_producer;
  if consumer =? producer then mret (ZIPC_ERR_NO_BUFFER, None)
  else
  message ← ring_read ring (ring_entry consumer);
  mret (ZIPC_OK, Some (message, consumer)).

Definition zipc_linux_common_ring_commit (ring position : Z) : prog (world E) zipc_status_t :=
  if ring =? 0 then mret ZIPC_ERR_INVALID_ARGUMENT
  else
  depth ← ring_read ring ring_depth;
  if depth <? 2 then mret ZIPC_ERR_INVALID_ARGUMENT
  else
  consumer ← ring_read ring ring_consumer;
  if negb (consumer =? position) then mret ZIPC_ERR_RECOVERY_REQUIRED
  else
  ring_write ring (set_consumer (u32 (consumer + 1)));;
  mret ZIPC_OK.

Definition zipc_linux_common_ring_pop (ring : Z)
    : prog (world E) (zipc_status_t * option zipc_message_t) :=
  if ring =? 0 then mret (ZIPC_ERR_INVALID_ARGUMENT, None)
  else
  depth ← ring_read ring ring_depth;
  if depth <? 2 then mret (ZIPC_ERR_INVALID_ARGUMENT, None)
  else
  consumer ← ring_read ring ring_consumer;
  producer ← ring_read ring ring_producer;
  if consumer =? producer then mret (ZIPC_ERR_NO_BUFFER, None)
  else
  message ← ring_read ring (ring_entry consumer);
  ring_write ring (set_consumer (u32 (consumer + 1)));;
  mret (ZIPC_OK, Some message).

(** ** The queue a ring stands for *)
Definition ring_used (r : zipc_transport_spsc_ring_t) : Z :=
  u32 (ring_producer r - ring_consumer r).
Definition ring_contents (r : zipc_transport_spsc_ring_t) : list zipc_message_t :=
  map (λ i, ring_entry (u32 (ring_consumer r + i)) r) (seqZ 0 (ring_used r)).

(** A ring whose indices can wrap: the depth divides 2^32. *)
Record ring_wf (r : zipc_transport_spsc_ring_t) : Prop := {
  rw_depth : 2 <= ring_depth r <= UINT32_MAX;
  rw_divides : (ring_depth r | 4294967296);
  rw_entries : length (ring_entries r) = Z.to_nat (ring_depth r);
  rw_producer : in_u32 (ring_producer r);
  rw_consumer : in_u32 (ring_consumer r);
  rw_used : ring_used r <= ring_depth r }.

Lemma ring_used_range r : in_u32 (ring_used r).
Proof. apply u32_range. Qed.
Lemma length_ring_contents r : Z.of_nat (length (ring_contents r)) = ring_used r.
Proof.
  unfold ring_contents. rewrite length_map, length_seqZ.
  destruct (ring_used_range r). lia.
Qed.

(** Positions wrap modulo 2^32 and therefore modulo the depth. *)
Lemma ring_entry_wrap r z : ring_wf r → ring_entry (u32 z) r = ring_entry z r.
Proof.
  intros [[Hd _] [q Hq] _ _ _ _]. unfold ring_entry, u32. do 2 f_equal.
  rewrite Hq, Z.mul_comm, Z.rem_mul_r by nia.
  by rewrite Z.mul_comm, Z.mod_add, Z.mod_mod by lia.
Qed.

Lemma ring_contents_lookup r (i : nat) :
  ring_wf r → Z.of_nat i < ring_used r →
  ring_contents r !! i = Some (ring_entry (ring_consumer r + Z.of_nat i) r).
Proof.
  intros Hwf Hi. unfold ring_contents.
  rewrite list_lookup_fmap, lookup_seqZ_lt by lia. simpl. by rewrite ring_entry_wrap.
Qed.

(** Two lists with the same elements in the same places. *)
Lemma ring_contents_eq r l :
  ring_wf r → Z.of_nat (length l) = ring_used r →
  (∀ i : nat, Z.of_nat i < ring_used r →
     Some (ring_entry (ring_consumer r + Z.of_nat i) r) = l !! i) →
  ring_contents r = l.
Proof.
  intros Hwf Hlen Hel. apply list_eq. intros i.
  destruct (decide (Z.of_nat i < ring_used r)) as [Hi|Hi].
  - by rewrite ring_contents_lookup, Hel.
  - pose proof (length_ring_contents r). rewrite !lookup_ge_None_2 by lia. done.
Qed.

Lemma mod_ne d x i : 0 < i < d → (x + i) `mod` d ≠ x `mod` d.
Proof.
  intros Hi Heq. assert (Hz : i `mod` d = 0).
  { replace i with ((x + i) - x) by lia.
    by rewrite Zminus_mod, Heq, Z.sub_diag, Z.mod_0_l by lia. }
  rewrite Z.mod_small in Hz by lia. lia.
Qed.

(** ** The effect of the writes *)
Lemma ring_push_contents r m :
  ring_wf r → ring_used r < ring_depth r →
  let r' := set_producer (u32 (ring_producer r + 1)) (set_entry (ring_producer r) m r) in
  ring_wf r' ∧ ring_contents r' = ring_contents r ++ [m].
Proof.
  intros Hwf Hfree r'. pose proof Hwf as [Hd Hdiv He Hp Hc Hu].
  assert (Hu' : ring_used r' = ring_used r + 1) by (unfold ring_used in *; cbn; zlia).
  assert (Hwf' : ring_wf r').
  { split; cbn; try done; [by rewrite length_insert|zlia|]. change (ring_depth r) with (ring_depth r') in *.
    lia. }
  split; [done|]. destruct (ring_used_range r).
  apply ring_contents_eq; [done|rewrite length_app, Hu'; pose proof (length_ring_contents r);
    simpl; lia|].
  intros i Hi. rewrite Hu' in Hi. change (ring_consumer r') with (ring_consumer r).
  assert (Hbase : ring_entry (ring_producer r) r' = m).
  { unfold ring_entry. cbn. rewrite nth_lookup, list_lookup_insert_eq; [done|].
    rewrite He. apply Z2Nat.inj_lt; [|lia|]; apply Z.mod_pos_bound; lia. }
  assert (Hprod : ring_producer r = u32 (ring_consumer r + ring_used r))
    by (unfold ring_used; zlia).
  destruct (decide (Z.of_nat i = ring_used r)) as [Hil|Hil].
  - rewrite Hil, lookup_app_r by (pose proof (length_ring_contents r); lia).
    replace (i - length (ring_contents r))%nat with 0%nat
      by (pose proof (length_ring_contents r); lia).
    rewrite <- ring_entry_wrap, <- Hprod, Hbase by done. done.
  - rewrite lookup_app_l by (pose proof (length_ring_contents r); lia).
    rewrite ring_contents_lookup by (done || lia). f_equal. unfold ring_entry. cbn.
    rewrite !nth_lookup, list_lookup_insert_ne; [done|].
    intros Heq%Z2Nat.inj; [|apply Z.mod_pos_bound; lia..]. revert Heq.
    rewrite Hprod. unfold u32. destruct Hdiv as [q Hq].
    rewrite Hq, (Z.mul_comm q), Z.rem_mul_r, (Z.mul_comm (ring_depth r)), Z.mod_add, Z.mod_mod
      by (lia || nia).
    replace (ring_consumer r + ring_used r)
      with (ring_consumer r + Z.of_nat i + (ring_used r - Z.of_nat i)) by lia.
    apply mod_ne. lia.
Qed.

Lemma ring_pop_contents r :
  ring_wf r → 0 < ring_used r →
  let r' := set_consumer (u32 (ring_consumer r + 1)) r in
  ring_wf r' ∧ ring_contents r = ring_entry (ring_consumer r) r :: ring_contents r'.
Proof.
  intros Hwf Hne r'. pose proof Hwf as [Hd Hdiv He Hp Hc Hu].
  assert (Hu' : ring_used r' = ring_used r - 1) by (unfold ring_used in *; cbn; zlia).
  assert (Hwf' : ring_wf r') by (split; cbn; try done; [zlia|change (ring_depth r) with (ring_depth r') in *; lia]).
  split; [done|].
  apply ring_contents_eq; [done|cbn [length]; pose proof (length_ring_contents r'); lia|].
  intros [|i] Hi; [by rewrite Z.add_0_r|]. cbn [lookup list_lookup].
  change (list_lookup i (ring_contents r')) with (ring_contents r' !! i).
  rewrite ring_contents_lookup by (done || lia). f_equal.
  change (ring_consumer r') with (u32 (ring_consumer r + 1)).
  rewrite <- (ring_entry_wrap r), <- (ring_entry_wrap r') by done.
  unfold ring_entry. cbn. do 2 f_equal. f_equal. zlia.
Qed.
End ring.
