(* ===== verification/RingSpec.v ===== *)
(** * The descriptor ring: theorems *)
From S2P Require Import Prelude Types Prog Store Layout Ring Demo.

Section spec.
Context {E : Type}.
Implicit Type w : world E.

Lemma wp_ring_read {A} a (f : zipc_transport_spsc_ring_t → A) Q w r :
  w_rings w !! a = Some r → Q (f r) w → wp (ring_read a f) Q w.
Proof. intros Hr HQ. eapply wp_act; [by rewrite Hr|done]. Qed.
Lemma wp_ring_write a f Q w r :
  w_rings w !! a = Some r → Q tt (put_ring a (f r) w) → wp (ring_write a f) Q w.
Proof. intros Hr HQ. eapply wp_act; [by rewrite Hr|done]. Qed.

Lemma put_ring_twice a r r' w : put_ring a r' (put_ring a r w) = put_ring a r' w.
Proof. unfold put_ring. simpl. f_equal. apply insert_insert_eq. Qed.
Lemma put_ring_id a r w : w_rings w !! a = Some r → put_ring a r w = w.
Proof. intros Hr. destruct w. unfold put_ring. simpl in *. f_equal. by apply insert_id. Qed.

(** ** The abstract queue *)
Definition holds (m : zipc_message_t) (q : list zipc_message_t) : bool :=
  existsb (λ x, same_message x m) q.

(** At most [depth] messages; a message the queue holds is not added again. *)
Definition queue_push (depth : Z) (q : list zipc_message_t) (m : zipc_message_t)
    : zipc_status_t * list zipc_message_t :=
  if depth <=? Z.of_nat (length q) then (ZIPC_ERR_TRANSPORT, q)
  else if holds m q then (ZIPC_OK, q) else (ZIPC_OK, q ++ [m]).

(** The scan from the [k]-th queued message on. *)
Lemma wp_ring_scan fuel a r m (k : nat) (Q : option bool → world E → Prop) w :
  w_rings w !! a = Some r → ring_wf r → Z.of_nat k <= ring_used r →
  (length (ring_contents r) - k < fuel)%nat →
  Q (Some (holds m (drop k (ring_contents r)))) w →
  wp (ring_scan fuel a (u32 (ring_consumer r + Z.of_nat k)) (ring_producer r) m) Q w.
Proof.
  intros Hr Hwf. pose proof (length_ring_contents r) as Hlen.
  pose proof Hwf as [Hd Hdiv He Hp Hc Hu]. revert k.
  induction fuel as [|fuel IH]; intros k Hk Hf HQ; [lia|]. cbn [ring_scan].
  destruct (decide (Z.of_nat k = ring_used r)) as [Heq|Hne].
  - rewrite (proj2 (Z.eqb_eq _ _)) by (unfold ring_used in *; zlia).
    rewrite drop_ge in HQ by lia. by apply wp_ret.
  - assert (Hlt : Z.of_nat k < ring_used r) by lia.
    rewrite (proj2 (Z.eqb_neq _ _)) by (unfold ring_used in *; zlia).
    apply wp_bind. eapply wp_ring_read; [exact Hr|]. rewrite ring_entry_wrap by done.
    assert (Hdrop : drop k (ring_contents r) =
      ring_entry (ring_consumer r + Z.of_nat k) r :: drop (S k) (ring_contents r))
      by (by apply drop_S, ring_contents_lookup).
    rewrite Hdrop in HQ. unfold holds in HQ. cbn [existsb] in HQ.
    destruct (same_message _ m); [by apply wp_ret|].
    replace (u32 (u32 (ring_consumer r + Z.of_nat k) + 1))
      with (u32 (ring_consumer r + Z.of_nat (S k))) by zlia.
    apply IH; [lia|lia|done].
Qed.

(** The ring at [a] is [r]. *)
Definition ring_at (a : Z) (r : zipc_transport_spsc_ring_t) w : Prop :=
  a ≠ 0 ∧ w_rings w !! a = Some r ∧ ring_wf r.

Lemma wp_ring_push fuel a r m w :
  ring_at a r w → (Z.to_nat (ring_depth r) < fuel)%nat →
  wp (zipc_linux_common_ring_push fuel a (Some m)) (λ st w', ∃ r',
    w' = put_ring a r' w ∧ ring_wf r' ∧ ring_depth r' = ring_depth r ∧
    (st, ring_contents r') = queue_push (ring_depth r) (ring_contents r) m) w.
Proof.
  intros (Ha&Hr&Hwf) Hf. unfold zipc_linux_common_ring_push, queue_push.
  pose proof (length_ring_contents r) as Hlen. pose proof Hwf as [Hd _ _ Hp Hc Hu].
  rewrite (proj2 (Z.eqb_neq a 0)) by done.
  do 3 (apply wp_bind; eapply wp_ring_read; [exact Hr|];
    rewrite ?(proj2 (Z.ltb_ge (ring_depth r) 2)) by lia).
  rewrite Hlen. unfold ring_used at 1. pose proof (put_ring_id a r w Hr) as Hid.
  destruct (Z.leb_spec (ring_depth r) (u32 (ring_producer r - ring_consumer r))) as [Hfull|Hfree].
  { apply wp_ret. by exists r. }
  apply wp_bind. replace (ring_consumer r) with (u32 (ring_consumer r + Z.of_nat 0)) at 1 by zlia.
  eapply wp_ring_scan; [done|done|unfold ring_used; zlia|lia|]. rewrite drop_0.
  apply wp_bind, wp_returned. destruct (holds m (ring_contents r)).
  { apply wp_ret. by exists r. }
  apply wp_bind. eapply wp_ring_write; [exact Hr|]. apply wp_bind.
  eapply wp_ring_write; [apply lookup_insert_eq|]. apply wp_ret. rewrite put_ring_twice.
  destruct (ring_push_contents r m Hwf Hfree) as [Hwf' Hc'].
  eexists. split; [reflexivity|]. split; [exact Hwf'|]. split; [done|]. by rewrite Hc'.
Qed.

Lemma ring_nonempty r :
  ring_wf r → ring_producer r ≠ ring_consumer r ↔ 0 < ring_used r.
Proof. intros [_ _ _ Hp Hc _]. unfold ring_used. split; zlia. Qed.

Lemma wp_ring_peek a r w :
  ring_at a r w →
  wp (zipc_linux_common_ring_peek a) (λ res w', w' = w ∧
    res = match ring_contents r with
          | [] => (ZIPC_ERR_NO_BUFFER, None)
          | m :: _ => (ZIPC_OK, Some (m, ring_consumer r))
          end) w.
Proof.
  intros (Ha&Hr&Hwf). unfold zipc_linux_common_ring_peek. pose proof Hwf as [Hd _ _ _ _ _].
  rewrite (proj2 (Z.eqb_neq a 0)) by done.
  do 3 (apply wp_bind; eapply wp_ring_read; [exact Hr|];
    rewrite ?(proj2 (Z.ltb_ge (ring_depth r) 2)) by lia).
  pose proof (ring_nonempty r Hwf). pose proof (length_ring_contents r).
  destruct (Z.eqb_spec (ring_consumer r) (ring_producer r)) as [Heq|Hne].
  - apply wp_ret. split; [done|]. destruct (ring_contents r); [done|simpl in *; lia].
  - apply wp_bind. eapply wp_ring_read; [exact Hr|]. apply wp_ret. split; [done|].
    destruct (ring_pop_contents r Hwf) as [_ ->]; [lia|done].
Qed.

Lemma wp_ring_commit a r position w :
  ring_at a r w → ring_contents r ≠ [] →
  wp (zipc_linux_common_ring_commit a position) (λ st w', ∃ r',
    w' = put_ring a r' w ∧ ring_wf r' ∧
    if ring_consumer r =? position
    then st = ZIPC_OK ∧ r' = set_consumer (u32 (position + 1)) r ∧
         ring_contents r' = tail (ring_contents r)
    else st = ZIPC_ERR_RECOVERY_REQUIRED ∧ r' = r) w.
Proof.
  intros (Ha&Hr&Hwf) Hne. unfold zipc_linux_common_ring_commit. pose proof Hwf as [Hd _ _ _ _ _].
  rewrite (proj2 (Z.eqb_neq a 0)) by done.
  do 2 (apply wp_bind; eapply wp_ring_read; [exact Hr|];
    rewrite ?(proj2 (Z.ltb_ge (ring_depth r) 2)) by lia).
  destruct (Z.eqb_spec (ring_consumer r) position) as [<-|Hn]; cbn [negb].
  - apply wp_bind. eapply wp_ring_write; [exact Hr|]. apply wp_ret.
    pose proof (length_ring_contents r).
    destruct (ring_pop_contents r Hwf) as [Hwf' Hc].
    { destruct (ring_contents r); [done|simpl in *; lia]. }
    eexists. split; [reflexivity|]. split; [exact Hwf'|]. split; [done|]. split; [done|].
    by rewrite Hc.
  - apply wp_ret. exists r. by rewrite put_ring_id.
Qed.

Lemma wp_ring_pop a r w :
  ring_at a r w →
  wp (zipc_linux_common_ring_pop a) (λ res w', ∃ r',
    w' = put_ring a r' w ∧ ring_wf r' ∧ ring_depth r' = ring_depth r ∧
    match ring_contents r with
    | [] => res = (ZIPC_ERR_NO_BUFFER, None) ∧ r' = r
    | m :: q => res = (ZIPC_OK, Some m) ∧ ring_contents r' = q
    end) w.
Proof.
  intros (Ha&Hr&Hwf). unfold zipc_linux_common_ring_pop. pose proof Hwf as [Hd _ _ _ _ _].
  rewrite (proj2 (Z.eqb_neq a 0)) by done.
  do 3 (apply wp_bind; eapply wp_ring_read; [exact Hr|];
    rewrite ?(proj2 (Z.ltb_ge (ring_depth r) 2)) by lia).
  pose proof (ring_nonempty r Hwf). pose proof (length_ring_contents r).
  destruct (Z.eqb_spec (ring_consumer r) (ring_producer r)) as [Heq|Hne].
  - apply wp_ret. exists r. rewrite put_ring_id by done. split_and!; try done.
    destruct (ring_contents r); [done|simpl in *; lia].
  - apply wp_bind. eapply wp_ring_read; [exact Hr|]. apply wp_bind.
    eapply wp_ring_write; [exact Hr|]. apply wp_ret.
    destruct (ring_pop_contents r Hwf) as [Hwf' ->]; [lia|]. eexists.
    split; [reflexivity|]. by split_and!.
Qed.

(** C28. The shared ring is a bounded FIFO queue: when the depth divides 2^32,
    for every fill level and every position of the wrapping indices, push adds
    the message at the end (or refuses when the ring is full, or succeeds
    without adding when the same announcement is already queued), peek returns
    the oldest message and its position without consuming it, commit consumes
    the oldest message exactly once (a second commit of the same position is
    refused with RECOVERY_REQUIRED), and pop returns and consumes the oldest
    message; each leaves a ring in the same condition. *)
Theorem ring_refines_queue fuel a r m position w :
  ring_at a r w → (Z.to_nat (ring_depth r) < fuel)%nat →
  let q := ring_contents r in
  let next r' w' := w' = put_ring a r' w ∧ ring_wf r' ∧ ring_depth r' = ring_depth r in
  wp (zipc_linux_common_ring_push fuel a (Some m)) (λ st w', ∃ r', next r' w' ∧
    (st, ring_contents r') = queue_push (ring_depth r) q m) w ∧
  wp (zipc_linux_common_ring_peek a) (λ res w', w' = w ∧
    res = match q with
          | [] => (ZIPC_ERR_NO_BUFFER, None)
          | x :: _ => (ZIPC_OK, Some (x, ring_consumer r))
          end) w ∧
  (q ≠ [] → wp (zipc_linux_common_ring_commit a position) (λ st w', ∃ r', next r' w' ∧
    (if ring_consumer r =? position
     then st = ZIPC_OK ∧ ring_contents r' = tail q ∧ ring_consumer r' ≠ position
     else st = ZIPC_ERR_RECOVERY_REQUIRED ∧ r' = r)) w) ∧
  wp (zipc_linux_common_ring_pop a) (λ res w', ∃ r', next r' w' ∧
    match q with
    | [] => res = (ZIPC_ERR_NO_BUFFER, None) ∧ r' = r
    | x :: q' => res = (ZIPC_OK, Some x) ∧ ring_contents r' = q'
    end) w.
Proof.
  intros Hat Hf q next. split_and!.
  - eapply wp_mono; [by eapply wp_ring_push|]. intros st w' (r'&?&?&?&?). by exists r'.
  - by apply wp_ring_peek.
  - intros Hne. eapply wp_mono; [by eapply (wp_ring_commit a r position)|].
    intros st w' (r'&Hw&Hwf&Hres). destruct Hat as (_&_&[_ _ _ _ Hc _]). exists r'.
    destruct (Z.eqb_spec (ring_consumer r) position) as [<-|].
    + destruct Hres as (->&->&Htl). split; [done|]. split; [done|]. split; [done|].
      cbn [set_consumer ring_consumer]. zlia.
    + by destruct Hres as [-> ->].
  - eapply wp_mono; [by eapply wp_ring_pop|]. intros res w' (r'&?&?&?&?). by exists r'.
Qed.

(** A freshly initialised ring is an empty queue; the size helper accounts
    for the header and every entry and cannot overflow. *)
Theorem ring_initialize_empty a r depth w :
  a ≠ 0 → w_rings w !! a = Some r → 2 <= depth <= UINT32_MAX → (depth | 4294967296) →
  length (ring_entries r) = Z.to_nat depth →
  wp (zipc_transport_spsc_ring_initialize a depth) (λ st w', st = ZIPC_OK ∧
    ∃ r', w' = put_ring a r' w ∧ ring_at a r' w' ∧ ring_depth r' = depth ∧
          ring_contents r' = []) w ∧
  zipc_transport_spsc_ring_size depth = 16 + depth * 24.
Proof.
  intros Ha Hr Hd Hdiv He. split.
  - unfold zipc_transport_spsc_ring_initialize.
    rewrite (proj2 (Z.eqb_neq a 0)), (proj2 (Z.ltb_ge depth 2)) by lia. cbn [orb].
    apply wp_bind. eapply wp_ring_write; [exact Hr|]. apply wp_ret. split; [done|].
    eexists. split; [reflexivity|]. split; [|done]. split; [done|].
    split; [apply lookup_insert_eq|]. unfold reset_ring.
    split; cbn; try done; try zlia. unfold ring_used. cbn. zlia.
  - unfold zipc_transport_spsc_ring_size. rewrite (proj2 (Z.ltb_ge depth 2)) by lia.
    unfold sizeof_zipc_transport_spsc_ring_t, sizeof_zipc_message_t. zlia.
Qed.

(** The depth must divide 2^32: in a ring of depth 3, which
    initialisation accepts, a push across the wrap-around of the indices
    overwrites the oldest unread message, which is then lost. *)
Theorem ring_wrap_overwrites (m1 m2 : zipc_message_t) w :
  same_message m1 m2 = false →
  w_rings w !! 1 = Some (ZipcRing 0 4294967295 3 [m1; zero_message; zero_message]) →
  wp (zipc_transport_spsc_ring_initialize 1 3) (λ st _, st = ZIPC_OK) w ∧
  wp (zipc_linux_common_ring_push 4 1 (Some m2);;
      zipc_linux_common_ring_pop 1) (λ res _, res = (ZIPC_OK, Some m2)) w.
Proof.
  intros Hne Hr. split.
  { apply wp_bind. eapply wp_ring_write; [exact Hr|]. by apply wp_ret. }
  apply wp_bind. unfold zipc_linux_common_ring_push.
  do 3 (apply wp_bind; eapply wp_ring_read; [exact Hr|]; cbn [ring_depth]).
  change (3 <=? _) with false. cbv iota. apply wp_bind. cbn [ring_scan ring_producer ring_consumer].
  change (4294967295 =? 0) with false. cbv iota. apply wp_bind.
  eapply wp_ring_read; [exact Hr|]. change (ring_entry _ _) with m1. rewrite Hne.
  apply wp_ret, wp_bind, wp_returned, wp_bind. eapply wp_ring_write; [exact Hr|].
  apply wp_bind. eapply wp_ring_write; [apply lookup_insert_eq|]. apply wp_ret.
  rewrite put_ring_twice. unfold zipc_linux_common_ring_pop.
  do 3 (apply wp_bind; eapply wp_ring_read; [apply lookup_insert_eq|]; cbn [ring_depth]).
  apply wp_bind. eapply wp_ring_read; [apply lookup_insert_eq|]. apply wp_bind.
  eapply wp_ring_write; [apply lookup_insert_eq|]. by apply wp_ret.
Qed.
End spec.

(** ** A ring whose indices are about to wrap *)
Definition demo_ring : zipc_transport_spsc_ring_t :=
  ZipcRing 0 4294967295 4 [zero_message; zero_message; zero_message; demo_message].
Definition demo_ring_world : world demo := put_ring 77 demo_ring demo_world.
Lemma demo_ring_wf : ring_wf demo_ring.
Proof. split; cbn; try done; try zlia. exists 1073741824. done. Qed.
Lemma demo_ring_at : ring_at 77 demo_ring demo_ring_world.
Proof. split; [lia|]. split; [apply lookup_insert_eq|apply demo_ring_wf]. Qed.

Lemma ring_refines_queue_witness :
  wp (zipc_linux_common_ring_pop 77) (λ res _, res = (ZIPC_OK, Some demo_message))
    demo_ring_world.
Proof.
  pose proof (ring_refines_queue 5 77 demo_ring zero_message 0 demo_ring_world demo_ring_at
    ltac:(cbn; lia)) as Hw.
  cbv zeta in Hw. destruct Hw as (_&_&_&Hpop). eapply wp_mono; [exact Hpop|].
  change (ring_contents demo_ring) with [demo_message].
  intros res w' (r'&_&->&_). reflexivity.
Defined.

Lemma ring_wrap_overwrites_witness :
  wp (zipc_linux_common_ring_push 4 1 (Some zero_message);;
      zipc_linux_common_ring_pop 1) (λ res _, res = (ZIPC_OK, Some zero_message))
    (put_ring 1 (ZipcRing 0 4294967295 3 [demo_message; zero_message; zero_message]) demo_world).
Proof.
  refine (proj2 (ring_wrap_overwrites demo_message zero_message _ _ _));
    [vm_compute; reflexivity|apply lookup_insert_eq].
Defined.
