(* ===== verification/Buffer.v ===== *)
(** * Application buffers

    The buffer objects of the high-level API of src/core/zipc.c: the checks
    behind every call ([buffer_valid], [buffer_owned]), the window operations
    that move the payload region inside a slot, and the accessors. *)
From S2P Require Import Prelude Types Packing Visited Prog Store Identity Slot Recovery.

Section buffer.
Context {E : Type} `{Platform E}.
Implicit Type w : world E.

(** [BI(buffer)->control->...]: dereferencing a NULL control faults. *)
Definition control_read {A} (b : zipc_buffer_impl_t) (f : zipc_slot_control_t → A)
    : prog (world E) A :=
  match b_control b with Some k => slot_read k f | None => fault end.
Definition control_write (b : zipc_buffer_impl_t)
    (f : zipc_slot_control_t → zipc_slot_control_t) : prog (world E) () :=
  match b_control b with Some k => slot_write k f | None => fault end.

(** ** Validity *)
Definition view_valid (b : zipc_buffer_impl_t) : bool :=
  (b_local_state b =? ZIPC_BUFFER_LOCAL_OWNED) && bool_decide (is_Some (b_control b))
  && bool_decide (is_Some (b_pool b)).

Definition buffer_valid (buffer : Z) : prog (world E) bool :=
  if buffer =? 0 then mret false
  else b ← buffer_read buffer; mret (view_valid b).

Definition buffer_owned (buffer : Z) : prog (world E) bool :=
  valid ← buffer_valid buffer;
  if negb valid then mret false
  else
  b ← buffer_read buffer;
  generation ← control_read b s_generation;
  if negb (generation =? zipc_handle_generation (b_handle b)) then mret false
  else
  state ← control_read b s_state;
  if negb (state_is state ZIPC_SLOT_OWNED) then mret false
  else
  owner ← control_read b s_owner_id;
  if negb (owner =? b_owner b) then mret false
  else
  epoch ← control_read b s_owner_epoch;
  if negb (epoch =? b_owner_epoch b) then mret false
  else
  match b_pool b with
  | None => fault
  | Some pool =>
      current ← registered_epoch pool (b_owner b);
      mret (current =? b_owner_epoch b)
  end.

(** ** Window operations *)
Definition set_window (offset length : Z) (s : zipc_slot_control_t) : zipc_slot_control_t :=
  {| s with s_region := ZipcRegion offset length |}.
Definition set_view_window (offset length : Z) (b : zipc_buffer_impl_t) : zipc_buffer_impl_t :=
  {| b with b_data := b_slot_base b + offset; b_length := length |}.

Definition zipc_buffer_set_region (buffer offset length : Z) : prog (world E) zipc_status_t :=
  if buffer =? 0 then mret ZIPC_ERR_INVALID_ARGUMENT
  else
  owned ← buffer_owned buffer;
  if negb owned then mret ZIPC_ERR_INVALID_BUFFER
  else
  b ← buffer_read buffer;
  if (b_capacity b <? offset) || (b_capacity b - offset <? length)
  then mret ZIPC_ERR_REGION_OVERFLOW
  else
  control_write b (set_window offset length);;
  buffer_write buffer (set_view_window offset length b);;
  mret ZIPC_OK.

Definition zipc_buffer_headroom (buffer : Z) : prog (world E) Z :=
  owned ← buffer_owned buffer;
  if negb owned then mret 0
  else b ← buffer_read buffer; control_read b (λ s, r_offset (s_region s)).

Definition zipc_buffer_tailroom (buffer : Z) : prog (world E) Z :=
  owned ← buffer_owned buffer;
  if negb owned then mret 0
  else
  b ← buffer_read buffer;
  offset ← control_read b (λ s, r_offset (s_region s));
  if (b_capacity b <? offset) || (b_capacity b - offset <? b_length b) then mret 0
  else mret (b_capacity b - offset - b_length b).

Definition zipc_buffer_set_limits (buffer hop_limit absolute_deadline_ns : Z)
    : prog (world E) zipc_status_t :=
  owned ← buffer_owned buffer;
  if negb owned then mret ZIPC_ERR_INVALID_BUFFER
  else
  b ← buffer_read buffer;
  control_write b (λ s, {| s with
    s_hop_limit := (if negb (hop_limit =? 0) then hop_limit else ZIPC_HOP_LIMIT_UNLIMITED) |});;
  control_write b (λ s, {| s with
    s_deadline_ns := (if negb (absolute_deadline_ns =? 0) then absolute_deadline_ns
                      else ZIPC_DEADLINE_NONE) |});;
  mret ZIPC_OK.

(** [headroom + tailroom + length] is a [uint32_t] sum. *)
Definition zipc_buffer_resize (buffer size : Z) : prog (world E) zipc_status_t :=
  owned ← buffer_owned buffer;
  if negb owned then mret ZIPC_ERR_INVALID_BUFFER
  else
  if UINT32_MAX <? size then mret ZIPC_ERR_REGION_OVERFLOW
  else
  headroom ← zipc_buffer_headroom buffer;
  tailroom ← zipc_buffer_tailroom buffer;
  b ← buffer_read buffer;
  if u32 (u32 (headroom + tailroom) + b_length b) <? size then mret ZIPC_ERR_REGION_OVERFLOW
  else
  offset ← control_read b (λ s, r_offset (s_region s));
  if u32 (b_capacity b - offset) <? size then mret ZIPC_ERR_REGION_OVERFLOW
  else zipc_buffer_set_region buffer offset (u32 size).

(** [memcpy(destination, data, length)] from an object that holds [data]. *)
Definition memcpy_in (destination : Z) (data : list Z) (length : Z) : prog (world E) () :=
  if Z.of_nat (List.length data) <? length then fault
  else payload_write destination (take (Z.to_nat length) data).

(** [data = None] is NULL. *)
Definition zipc_buffer_append (buffer : Z) (data : option (list Z)) (length : Z)
    : prog (world E) zipc_status_t :=
  owned ← buffer_owned buffer;
  if negb owned then mret ZIPC_ERR_INVALID_BUFFER
  else
  if negb (length =? 0) && bool_decide (data = None) then mret ZIPC_ERR_INVALID_ARGUMENT
  else
  tailroom ← zipc_buffer_tailroom buffer;
  if tailroom <? length then mret ZIPC_ERR_REGION_OVERFLOW
  else
  b ← buffer_read buffer;
  (if negb (length =? 0) then memcpy_in (b_data b + b_length b) (default [] data) length
   else mret ());;
  offset ← control_read b (λ s, r_offset (s_region s));
  zipc_buffer_set_region buffer offset (u32 (b_length b + length)).

Definition zipc_buffer_prepend (buffer : Z) (data : option (list Z)) (length : Z)
    : prog (world E) zipc_status_t :=
  owned ← buffer_owned buffer;
  if negb owned then mret ZIPC_ERR_INVALID_BUFFER
  else
  if negb (length =? 0) && bool_decide (data = None) then mret ZIPC_ERR_INVALID_ARGUMENT
  else
  headroom ← zipc_buffer_headroom buffer;
  if headroom <? length then mret ZIPC_ERR_REGION_OVERFLOW
  else
  b ← buffer_read buffer;
  current ← control_read b (λ s, r_offset (s_region s));
  let offset := u32 (current - length) in
  (if negb (length =? 0) then memcpy_in (b_slot_base b + offset) (default [] data) length
   else mret ());;
  zipc_buffer_set_region buffer offset (u32 (b_length b + length)).

Definition zipc_buffer_trim_front (buffer length : Z) : prog (world E) zipc_status_t :=
  owned ← buffer_owned buffer;
  if negb owned then mret ZIPC_ERR_INVALID_BUFFER
  else
  b ← buffer_read buffer;
  if b_length b <? length then mret ZIPC_ERR_REGION_OVERFLOW
  else
  offset ← control_read b (λ s, r_offset (s_region s));
  zipc_buffer_set_region buffer (u32 (offset + length)) (u32 (b_length b - length)).

Definition zipc_buffer_trim_back (buffer length : Z) : prog (world E) zipc_status_t :=
  owned ← buffer_owned buffer;
  if negb owned then mret ZIPC_ERR_INVALID_BUFFER
  else
  b ← buffer_read buffer;
  if b_length b <? length then mret ZIPC_ERR_REGION_OVERFLOW
  else
  offset ← control_read b (λ s, r_offset (s_region s));
  zipc_buffer_set_region buffer offset (u32 (b_length b - length)).

(** ** Accessors *)

(** [buffer_owned(buffer) ? BI(buffer)->field : dflt] *)
Definition if_owned {A} (buffer : Z) (dflt : A) (f : zipc_buffer_impl_t → prog (world E) A)
    : prog (world E) A :=
  owned ← buffer_owned buffer;
  if negb owned then mret dflt else b ← buffer_read buffer; f b.
Definition if_valid {A} (buffer : Z) (dflt : A) (f : zipc_buffer_impl_t → prog (world E) A)
    : prog (world E) A :=
  valid ← buffer_valid buffer;
  if negb valid then mret dflt else b ← buffer_read buffer; f b.

Definition zipc_buffer_data (buffer : Z) : prog (world E) Z :=
  if_owned buffer 0 (λ b, mret (b_data b)).
Definition zipc_buffer_const_data (buffer : Z) : prog (world E) Z :=
  if_owned buffer 0 (λ b, mret (b_data b)).
Definition zipc_buffer_size (buffer : Z) : prog (world E) Z :=
  if_owned buffer 0 (λ b, mret (b_length b)).
Definition zipc_buffer_at (buffer offset length : Z) : prog (world E) Z :=
  if_owned buffer 0 (λ b,
    if (b_capacity b <? offset) || (u64 (b_capacity b - offset) <? length) then mret 0
    else mret (b_slot_base b + offset)).
Definition zipc_buffer_capacity (buffer : Z) : prog (world E) Z :=
  if_owned buffer 0 (λ b, mret (b_capacity b)).
Definition zipc_buffer_length (buffer : Z) : prog (world E) Z :=
  size ← zipc_buffer_size buffer; mret (u32 size).
Definition zipc_buffer_is_valid (buffer : Z) : prog (world E) bool := buffer_owned buffer.
Definition zipc_buffer_handle (buffer : Z) : prog (world E) Z :=
  if_valid buffer ZIPC_INVALID_HANDLE (λ b, mret (b_handle b)).
Definition zipc_buffer_pool_id (buffer : Z) : prog (world E) Z :=
  if_valid buffer UINT32_MAX (λ b, mret (b_pool_id b)).
Definition zipc_buffer_hop_count (buffer : Z) : prog (world E) Z :=
  if_valid buffer 0 (λ b, control_read b s_hop_count).
Definition zipc_buffer_id (buffer : Z) : prog (world E) Z :=
  if_valid buffer 0 (λ b, control_read b (λ s, id_id (s_identity s))).
Definition zipc_buffer_parent_id (buffer : Z) : prog (world E) Z :=
  if_valid buffer 0 (λ b, control_read b (λ s, id_parent_id (s_identity s))).
Definition zipc_buffer_visited (buffer : Z) : prog (world E) zipc_visited_set_t :=
  if_valid buffer zero_visited (λ b, control_read b s_visited).
Definition zipc_buffer_owner_epoch (buffer : Z) : prog (world E) Z :=
  if_valid buffer 0 (λ b, control_read b s_owner_epoch).
Definition zipc_buffer_slot_state (buffer : Z) : prog (world E) zipc_slot_state_t :=
  if_valid buffer ZIPC_SLOT_ERROR (λ b, control_read b s_state).
Definition zipc_buffer_trace_copy (buffer : Z) (out : bool) (capacity : Z)
    : prog (world E) (list zipc_trace_entry_t * Z) :=
  if_valid buffer ([], 0) (λ b,
    control_read b (λ s, zipc_slot_trace_copy (Some s) out capacity)).

(** ** Release *)
Definition zipc_buffer_release (buffer : Z) : prog (world E) zipc_status_t :=
  if buffer =? 0 then mret ZIPC_ERR_INVALID_ARGUMENT
  else
  owned ← buffer_owned buffer;
  if negb owned then mret ZIPC_ERR_INVALID_BUFFER
  else
  b ← buffer_read buffer;
  status ← zipc_pool_buffer_release (b_pool b) (b_handle b) (b_owner b);
  if status_is status ZIPC_OK then buffer_invalidate buffer;; mret status
  else mret status.
End buffer.
