(* ===== verification/BufferSpec.v ===== *)
(** * Application buffers: theorems *)
From S2P Require Import Prelude Types Packing Visited Prog Store Identity Slot SlotRun.
From S2P Require Import SlotSpec Demo Recovery Buffer.

(** ** Windows of bytes *)

(** The [n] bytes of payload memory from address [a]. *)
Definition bytes (f : Z → Z) (a n : Z) : list Z := map f (seqZ a n).

Lemma bytes_app f a m n : 0 <= m → 0 <= n → bytes f a (m + n) = bytes f a m ++ bytes f (a + m) n.
Proof. intros Hm Hn. unfold bytes. rewrite seqZ_app by done. apply map_app. Qed.
Lemma length_bytes f a n : length (bytes f a n) = Z.to_nat n.
Proof. unfold bytes. by rewrite length_map, length_seqZ. Qed.
Lemma bytes_ext f g a n : (∀ x, a <= x < a + n → f x = g x) → bytes f a n = bytes g a n.
Proof.
  intros Hfg. apply map_ext_in. intros x Hx%list_elem_of_In%elem_of_seqZ. apply Hfg. lia.
Qed.
Lemma copy_in_outside a d f x :
  x < a ∨ a + Z.of_nat (length d) <= x → copy_in a d f x = f x.
Proof.
  intros Hx. unfold copy_in. destruct (Z.leb_spec a x); [|done].
  rewrite lookup_ge_None_2 by lia. done.
Qed.
Lemma bytes_copy_in a d f : bytes (copy_in a d f) a (Z.of_nat (length d)) = d.
Proof.
  apply list_eq. intros i. unfold bytes. destruct (decide (i < length d)%nat) as [Hi|Hi].
  - rewrite list_lookup_fmap, lookup_seqZ_lt by lia. simpl. unfold copy_in.
    rewrite (proj2 (Z.leb_le _ _)) by lia. replace (a + Z.of_nat i - a) with (Z.of_nat i) by lia.
    rewrite Nat2Z.id. destruct (lookup_lt_is_Some_2 d i Hi) as [x ->]. done.
  - rewrite !lookup_ge_None_2; [done|lia|]. rewrite length_map, length_seqZ. lia.
Qed.

Section spec.
Context {E : Type} `{Platform E}.
Implicit Type w : world E.

(** ** Owned views *)

(** The object at [a] is a live view [b] of slot [s]: the caller owns the slot in
    its current incarnation and the view agrees with the slot's region. *)
Record owned_view (a : Z) (b : zipc_buffer_impl_t) (k : Z * Z) (s : zipc_slot_control_t)
    (pool : zipc_pool_t) w : Prop := {
  ov_address : a ≠ 0;
  ov_object : w_buffers w !! a = Some b;
  ov_local : b_local_state b = ZIPC_BUFFER_LOCAL_OWNED;
  ov_control : b_control b = Some k;
  ov_pool : b_pool b = Some pool;
  ov_slot : w_controls w !! k = Some s;
  ov_state : s_state s = ZIPC_SLOT_OWNED;
  ov_generation : s_generation s = zipc_handle_generation (b_handle b);
  ov_owner : s_owner_id s = b_owner b;
  ov_owner_valid : zipc_component_id_valid (b_owner b) = true;
  ov_epoch : s_owner_epoch s = b_owner_epoch b;
  ov_component : ∃ cs, w_components w !! (p_header pool, b_owner b) = Some cs ∧
    live_epoch (c_lifecycle cs) = b_owner_epoch b;
  ov_data : b_data b = b_slot_base b + r_offset (s_region s);
  ov_length : b_length b = r_length (s_region s);
  ov_region : region_in (b_capacity b) (s_region s);
  ov_capacity : in_u32 (b_capacity b) }.

Lemma wp_buffer_owned a b k s pool Q w :
  owned_view a b k s pool w → Q true w → wp (buffer_owned a) Q w.
Proof.
  intros [Ha Hb Hl Hk Hp Hs Hst Hg Ho Hv He (cs&Hc&Hlive) _ _ _ _] HQ.
  unfold buffer_owned, buffer_valid, control_read.
  rewrite (proj2 (Z.eqb_neq a 0)) by done. apply wp_bind, wp_bind.
  eapply wp_buffer_read; [exact Hb|]. apply wp_ret.
  assert (view_valid b = true) as ->.
  { unfold view_valid. rewrite Hl, Hk, Hp. done. }
  cbn [negb]. apply wp_bind. eapply wp_buffer_read; [exact Hb|]. rewrite Hk, Hp.
  apply wp_bind. eapply wp_slot_read; [exact Hs|]. rewrite Hg, Z.eqb_refl. cbn [negb].
  apply wp_bind. eapply wp_slot_read; [exact Hs|]. rewrite Hst. status_eval.
  apply wp_bind. eapply wp_slot_read; [exact Hs|]. rewrite Ho, Z.eqb_refl. cbn [negb].
  apply wp_bind. eapply wp_slot_read; [exact Hs|]. rewrite He, Z.eqb_refl. cbn [negb].
  apply wp_bind. eapply wp_registered_epoch; [exact Hv|exact Hc|]. apply wp_ret.
  by rewrite Hlive, Z.eqb_refl.
Qed.

(** The bytes the application sees. *)
Definition content (b : zipc_buffer_impl_t) w : list Z :=
  bytes (w_payload w) (b_data b) (b_length b).

(** The view and the slot with another window, over other payload bytes. *)
Definition rewindow (a : Z) (b : zipc_buffer_impl_t) (k : Z * Z) (s : zipc_slot_control_t)
    (offset length : Z) (f : Z → Z) w : world E :=
  put_payload f (put_buffer a (set_view_window offset length b)
    (put_slot k (set_window offset length s) w)).

Lemma owned_view_payload a b k s pool f w :
  owned_view a b k s pool w → owned_view a b k s pool (put_payload f w).
Proof. intros []. by split. Qed.

Lemma rewindow_owned a b k s pool offset length f w :
  owned_view a b k s pool w → 0 <= offset → 0 <= length → offset + length <= b_capacity b →
  owned_view a (set_view_window offset length b) k (set_window offset length s) pool
    (rewindow a b k s offset length f w).
Proof.
  intros [] Ho Hl Hc. unfold rewindow. split; cbn; try done.
  - apply lookup_insert_eq.
  - apply lookup_insert_eq.
Qed.

Lemma put_payload_id w : put_payload (w_payload w) w = w.
Proof. by destruct w. Qed.

Lemma wp_set_region a b k s pool offset length f Q w :
  owned_view a b k s pool w → 0 <= offset → 0 <= length → offset + length <= b_capacity b →
  Q ZIPC_OK (rewindow a b k s offset length f w) →
  wp (zipc_buffer_set_region a offset length) Q (put_payload f w).
Proof.
  intros Hov Ho Hl Hc HQ. apply (owned_view_payload _ _ _ _ _ f) in Hov.
  unfold zipc_buffer_set_region. rewrite (proj2 (Z.eqb_neq a 0)) by apply Hov.
  apply wp_bind. eapply wp_buffer_owned; [exact Hov|]. cbn [negb].
  apply wp_bind. eapply wp_buffer_read; [apply Hov|].
  rewrite (proj2 (Z.ltb_ge _ _)), (proj2 (Z.ltb_ge _ _)) by lia. cbn [orb].
  apply wp_bind. unfold control_write. rewrite (ov_control _ _ _ _ _ _ Hov).
  eapply wp_slot_write; [apply Hov|]. intros s' ->.
  apply wp_bind. eapply wp_buffer_write.
  { exists b. apply (ov_object _ _ _ _ _ _ Hov). }
  apply wp_ret. unfold rewindow in HQ. by destruct w.
Qed.

Lemma wp_set_region_only a b k s pool offset length Q w :
  owned_view a b k s pool w → 0 <= offset → 0 <= length → offset + length <= b_capacity b →
  Q ZIPC_OK (rewindow a b k s offset length (w_payload w) w) →
  wp (zipc_buffer_set_region a offset length) Q w.
Proof.
  intros Hov Ho Hl Hc HQ. pose proof (wp_set_region a b k s pool offset length
    (w_payload w) Q w Hov Ho Hl Hc HQ) as Hw. by rewrite put_payload_id in Hw.
Qed.

Lemma wp_headroom a b k s pool Q w :
  owned_view a b k s pool w → Q (r_offset (s_region s)) w → wp (zipc_buffer_headroom a) Q w.
Proof.
  intros Hov HQ. unfold zipc_buffer_headroom. apply wp_bind.
  eapply wp_buffer_owned; [exact Hov|]. cbn [negb]. apply wp_bind.
  eapply wp_buffer_read; [apply Hov|]. unfold control_read.
  rewrite (ov_control _ _ _ _ _ _ Hov). by eapply wp_slot_read; [apply Hov|].
Qed.
Lemma wp_tailroom a b k s pool Q w :
  owned_view a b k s pool w →
  Q (b_capacity b - r_offset (s_region s) - b_length b) w → wp (zipc_buffer_tailroom a) Q w.
Proof.
  intros Hov HQ. unfold zipc_buffer_tailroom. apply wp_bind.
  eapply wp_buffer_owned; [exact Hov|]. cbn [negb]. apply wp_bind.
  eapply wp_buffer_read; [apply Hov|]. unfold control_read.
  rewrite (ov_control _ _ _ _ _ _ Hov). apply wp_bind. eapply wp_slot_read; [apply Hov|].
  destruct (ov_region _ _ _ _ _ _ Hov) as (?&?&?). rewrite (ov_length _ _ _ _ _ _ Hov) in *.
  rewrite (proj2 (Z.ltb_ge _ _)), (proj2 (Z.ltb_ge _ _)) by lia. by apply wp_ret.
Qed.

(** ** The window operations against their meaning on bytes *)

(** The operation succeeded and left an owned view with these bytes; nothing
    outside the slot's payload changed. *)
Definition window_done (a : Z) (k : Z * Z) (pool : zipc_pool_t) (base capacity : Z)
    (bs : list Z) w (st : zipc_status_t) w' : Prop :=
  st = ZIPC_OK ∧ ∃ b' s', owned_view a b' k s' pool w' ∧ content b' w' = bs ∧
    b_slot_base b' = base ∧ b_capacity b' = capacity ∧
    ∀ x, x < base ∨ base + capacity <= x → w_payload w' x = w_payload w x.
Definition window_refused w (st : zipc_status_t) w' : Prop :=
  st = ZIPC_ERR_REGION_OVERFLOW ∧ w' = w.

Lemma window_done_intro a b k s pool offset length f bs w :
  owned_view a b k s pool w → 0 <= offset → 0 <= length → offset + length <= b_capacity b →
  bytes f (b_slot_base b + offset) length = bs →
  (∀ x, x < b_slot_base b ∨ b_slot_base b + b_capacity b <= x → f x = w_payload w x) →
  window_done a k pool (b_slot_base b) (b_capacity b) bs w ZIPC_OK
    (rewindow a b k s offset length f w).
Proof.
  intros Hov Ho Hl Hc Hbs Hout. split; [done|]. eexists _, _.
  split; [by apply rewindow_owned|]. by split_and!.
Qed.

Lemma wp_memcpy_in addr d Q w :
  Q tt (put_payload (copy_in addr d (w_payload w)) w) →
  wp (memcpy_in addr d (Z.of_nat (length d))) Q w.
Proof.
  intros HQ. unfold memcpy_in. rewrite Z.ltb_irrefl, Nat2Z.id, firstn_all.
  by eapply wp_act.
Qed.

(** The copy of a possibly empty block. *)
Lemma wp_copy_block addr d Q w :
  (∀ f, (∀ x, f x = copy_in addr d (w_payload w) x) → Q tt (put_payload f w)) →
  wp (if negb (Z.of_nat (length d) =? 0)
      then memcpy_in addr d (Z.of_nat (length d)) else mret ()) Q w.
Proof.
  intros HQ. destruct (Z.eqb_spec (Z.of_nat (length d)) 0) as [Hz|Hz]; cbn [negb].
  - destruct d; [|done]. apply wp_ret. rewrite <- put_payload_id. apply HQ. intros x.
    by rewrite copy_in_outside by (simpl; lia).
  - by apply wp_memcpy_in, HQ.
Qed.

(** One step through the checks of a window operation on an owned view. *)
Ltac view_step Hov :=
  lazymatch goal with
  | |- wp (mbind _ _) _ _ => apply wp_bind
  | |- wp (buffer_owned _) _ _ => eapply wp_buffer_owned; [exact Hov|]; cbn [negb]
  | |- wp (buffer_read _) _ _ => eapply wp_buffer_read; [apply Hov|]
  | |- wp (zipc_buffer_headroom _) _ _ => eapply wp_headroom; [exact Hov|]
  | |- wp (zipc_buffer_tailroom _) _ _ => eapply wp_tailroom; [exact Hov|]
  | |- wp (control_read _ _) _ _ =>
      unfold control_read; rewrite (ov_control _ _ _ _ _ _ Hov);
      eapply wp_slot_read; [apply Hov|]
  end.

(** The facts about an owned view that the arithmetic needs. *)
Lemma owned_view_bounds a b k s pool w :
  owned_view a b k s pool w →
  0 <= r_offset (s_region s) ∧ 0 <= b_length b ∧
  r_offset (s_region s) + b_length b <= b_capacity b ∧ b_capacity b <= UINT32_MAX ∧
  b_data b = b_slot_base b + r_offset (s_region s).
Proof.
  intros Hov. destruct (ov_region _ _ _ _ _ _ Hov) as (?&?&?), (ov_capacity _ _ _ _ _ _ Hov).
  rewrite (ov_length _ _ _ _ _ _ Hov), (ov_data _ _ _ _ _ _ Hov). lia.
Qed.

Section windows.
Context (a : Z) (b : zipc_buffer_impl_t) (k : Z * Z) (s : zipc_slot_control_t)
  (pool : zipc_pool_t) (w : world E).
Hypothesis Hov : owned_view a b k s pool w.
Let h := r_offset (s_region s).
Let finished bs := window_done a k pool (b_slot_base b) (b_capacity b) bs w.

(** An append that fits; an absent block is an empty one. *)
Lemma wp_append_fits data d :
  default [] data = d → (data = None → d = []) →
  Z.of_nat (length d) <= b_capacity b - h - b_length b →
  wp (zipc_buffer_append a data (Z.of_nat (length d))) (λ st w', st = ZIPC_OK ∧
    ∃ f, (∀ x, f x = copy_in (b_data b + b_length b) d (w_payload w) x) ∧
      w' = rewindow a b k s h (b_length b + Z.of_nat (length d)) f w) w.
Proof.
  intros Hd Hnone Hfit. destruct (owned_view_bounds _ _ _ _ _ _ Hov) as (?&?&?&?&Hdata).
  unfold zipc_buffer_append. repeat view_step Hov. rewrite Hd.
  assert (negb (Z.of_nat (length d) =? 0) && bool_decide (data = None) = false) as ->.
  { destruct data; [by rewrite bool_decide_eq_false_2, andb_false_r|]. by rewrite Hnone. }
  repeat view_step Hov. fold h. rewrite (proj2 (Z.ltb_ge _ _)) by done. repeat view_step Hov.
  apply wp_copy_block. intros f Hf.
  pose proof (owned_view_payload _ _ _ _ _ f _ Hov) as Hov'. repeat view_step Hov'. fold h.
  eapply wp_set_region; [exact Hov|lia|zlia|zlia|].
  rewrite u32_small by zlia. split; [done|]. by exists f.
Qed.

Lemma wp_append d :
  Z.of_nat (length d) <= UINT32_MAX →
  wp (zipc_buffer_append a (Some d) (Z.of_nat (length d))) (λ st w',
    if Z.of_nat (length d) <=? b_capacity b - h - b_length b
    then finished (content b w ++ d) st w' else window_refused w st w') w.
Proof.
  intros Hd. destruct (owned_view_bounds _ _ _ _ _ _ Hov) as (?&?&?&?&Hdata).
  destruct (Z.leb_spec (Z.of_nat (length d)) (b_capacity b - h - b_length b)) as [Hge|Hlt].
  - eapply wp_mono; [by apply wp_append_fits|]. intros st w' (-> & f & Hf & ->).
    apply window_done_intro; try done; try lia.
    + rewrite bytes_app by lia. unfold content. f_equal.
      * rewrite Hdata. apply bytes_ext. intros x Hx. rewrite Hf. apply copy_in_outside. lia.
      * rewrite (bytes_ext _ _ _ _ (λ x _, Hf x)), Hdata. apply bytes_copy_in.
    + intros x Hx. rewrite Hf. apply copy_in_outside. lia.
  - unfold zipc_buffer_append. repeat view_step Hov. rewrite bool_decide_eq_false_2 by done.
    rewrite andb_false_r. repeat view_step Hov. fold h.
    rewrite (proj2 (Z.ltb_lt _ _)) by done. by apply wp_ret.
Qed.

Lemma wp_prepend d :
  Z.of_nat (length d) <= UINT32_MAX →
  wp (zipc_buffer_prepend a (Some d) (Z.of_nat (length d))) (λ st w',
    if Z.of_nat (length d) <=? h then finished (d ++ content b w) st w'
    else window_refused w st w') w.
Proof.
  intros Hd. destruct (owned_view_bounds _ _ _ _ _ _ Hov) as (?&?&?&?&Hdata).
  unfold zipc_buffer_prepend. repeat view_step Hov. rewrite bool_decide_eq_false_2 by done.
  rewrite andb_false_r. repeat view_step Hov. fold h.
  destruct (Z.ltb_spec h (Z.of_nat (length d))) as [Hlt|Hge].
  { apply wp_ret. by rewrite (proj2 (Z.leb_gt _ _)). }
  rewrite (proj2 (Z.leb_le _ _)) by done. repeat view_step Hov. fold h.
  rewrite (u32_small (h - _)) by zlia. apply wp_copy_block. intros f Hf.
  eapply wp_set_region; [exact Hov|lia|zlia|zlia|].
  rewrite u32_small by zlia. apply window_done_intro; try done; try lia.
  - rewrite (Z.add_comm (b_length b)), bytes_app by lia. unfold content. f_equal.
    + rewrite (bytes_ext _ _ _ _ (λ x _, Hf x)). apply bytes_copy_in.
    + rewrite Hdata. fold h.
      replace (b_slot_base b + (h - Z.of_nat (length d)) + Z.of_nat (length d))
        with (b_slot_base b + h) by lia.
      apply bytes_ext. intros x Hx. rewrite Hf. apply copy_in_outside. lia.
  - intros x Hx. rewrite Hf. apply copy_in_outside. lia.
Qed.

Lemma wp_trim_front n :
  0 <= n →
  wp (zipc_buffer_trim_front a n) (λ st w',
    if n <=? b_length b then finished (drop (Z.to_nat n) (content b w)) st w'
    else window_refused w st w') w.
Proof.
  intros Hn. destruct (owned_view_bounds _ _ _ _ _ _ Hov) as (?&?&?&?&Hdata).
  unfold zipc_buffer_trim_front. repeat view_step Hov.
  destruct (Z.ltb_spec (b_length b) n) as [Hlt|Hge].
  { apply wp_ret. by rewrite (proj2 (Z.leb_gt _ _)). }
  rewrite (proj2 (Z.leb_le _ _)) by done. repeat view_step Hov. fold h.
  rewrite !u32_small by zlia.
  eapply wp_set_region_only; [exact Hov|lia|lia|lia|].
  apply window_done_intro; try done; try lia. unfold content.
  replace (b_length b) with (n + (b_length b - n)) at 2 by lia.
  rewrite bytes_app, drop_app_length' by (rewrite ?length_bytes; lia).
  f_equal. lia.
Qed.

Lemma wp_trim_back n :
  0 <= n →
  wp (zipc_buffer_trim_back a n) (λ st w',
    if n <=? b_length b
    then finished (take (Z.to_nat (b_length b - n)) (content b w)) st w'
    else window_refused w st w') w.
Proof.
  intros Hn. destruct (owned_view_bounds _ _ _ _ _ _ Hov) as (?&?&?&?&Hdata).
  unfold zipc_buffer_trim_back. repeat view_step Hov.
  destruct (Z.ltb_spec (b_length b) n) as [Hlt|Hge].
  { apply wp_ret. by rewrite (proj2 (Z.leb_gt _ _)). }
  rewrite (proj2 (Z.leb_le _ _)) by done. repeat view_step Hov. fold h.
  rewrite !u32_small by zlia.
  eapply wp_set_region_only; [exact Hov|lia|lia|lia|].
  apply window_done_intro; try done; try lia. unfold content.
  replace (b_length b) with ((b_length b - n) + n) at 3 by lia.
  rewrite bytes_app, take_app_length' by (rewrite ?length_bytes; lia).
  by rewrite Hdata.
Qed.

Lemma wp_resize n :
  0 <= n →
  wp (zipc_buffer_resize a n) (λ st w',
    if n <=? b_capacity b - h then finished (bytes (w_payload w) (b_data b) n) st w'
    else window_refused w st w') w.
Proof.
  intros Hn. destruct (owned_view_bounds _ _ _ _ _ _ Hov) as (?&?&?&?&Hdata).
  unfold zipc_buffer_resize. repeat view_step Hov.
  assert (Hno : b_capacity b - h < n → wp (mret ZIPC_ERR_REGION_OVERFLOW) (λ st w',
    if n <=? b_capacity b - h then finished (bytes (w_payload w) (b_data b) n) st w'
    else window_refused w st w') w).
  { intros Hlt. apply wp_ret. by rewrite (proj2 (Z.leb_gt _ _)). }
  destruct (Z.ltb_spec UINT32_MAX n) as [Hbig|_]; [apply Hno; lia|].
  repeat view_step Hov. fold h.
  replace (u32 (u32 (h + _) + b_length b)) with (b_capacity b) by zlia.
  destruct (Z.ltb_spec (b_capacity b) n) as [Hbig|_]; [apply Hno; lia|].
  repeat view_step Hov. fold h. rewrite (u32_small (_ - h)) by zlia.
  destruct (Z.ltb_spec (b_capacity b - h) n) as [Hbig|Hfit]; [by apply Hno|].
  rewrite (proj2 (Z.leb_le _ _)), u32_small by zlia.
  eapply wp_set_region_only; [exact Hov|lia|lia|lia|].
  apply window_done_intro; try done; try lia. by rewrite Hdata.
Qed.
End windows.

(** C36. The window operations are the operations on byte strings their names
    promise.  On an owned view with headroom [h], content [c] and tailroom [t],
    append of [d] makes the content [c ++ d] if [d] fits the tailroom, prepend
    makes it [d ++ c] if [d] fits the headroom, trimming drops the first or the
    last [n] bytes if there are that many, resizing to [n] bytes keeps the start
    of the content if [n] bytes fit behind the headroom, and every call that does not fit is
    refused with REGION_OVERFLOW and changes nothing.  The view stays owned and
    inside its slot, and no byte outside the slot's payload is written. *)
Theorem window_operations a b k s pool d n w :
  owned_view a b k s pool w → 0 <= n →
  Z.of_nat (length d) <= UINT32_MAX →
  let h := r_offset (s_region s) in
  let t := b_capacity b - h - b_length b in
  let len := Z.of_nat (length d) in
  let finished bs := window_done a k pool (b_slot_base b) (b_capacity b) bs w in
  wp (zipc_buffer_append a (Some d) len) (λ st w',
    if len <=? t then finished (content b w ++ d) st w' else window_refused w st w') w ∧
  wp (zipc_buffer_prepend a (Some d) len) (λ st w',
    if len <=? h then finished (d ++ content b w) st w' else window_refused w st w') w ∧
  wp (zipc_buffer_trim_front a n) (λ st w',
    if n <=? b_length b then finished (drop (Z.to_nat n) (content b w)) st w'
    else window_refused w st w') w ∧
  wp (zipc_buffer_trim_back a n) (λ st w',
    if n <=? b_length b then finished (take (Z.to_nat (b_length b - n)) (content b w)) st w'
    else window_refused w st w') w ∧
  wp (zipc_buffer_resize a n) (λ st w',
    if n <=? b_capacity b - h then finished (bytes (w_payload w) (b_data b) n) st w'
    else window_refused w st w') w.
Proof.
  intros Hov Hn Hd h t len finished. split_and!.
  - by apply (wp_append a b k s pool w Hov).
  - by apply (wp_prepend a b k s pool w Hov).
  - by apply (wp_trim_front a b k s pool w Hov).
  - by apply (wp_trim_back a b k s pool w Hov).
  - by apply (wp_resize a b k s pool w Hov).
Qed.

(** ** Lost views *)

(** The object still says it is owned, but the slot or the component has moved
    on: the slot was released and reallocated, sent, or reclaimed, or the
    component was superseded. *)
Record lost_view (a : Z) (b : zipc_buffer_impl_t) (pool : zipc_pool_t)
    (s : zipc_slot_control_t) (cs : zipc_component_status_t) w : Prop := {
  lv_object : w_buffers w !! a = Some b;
  lv_pool : b_pool b = Some pool;
  lv_control : ∃ k, b_control b = Some k ∧ w_controls w !! k = Some s;
  lv_owner_valid : zipc_component_id_valid (b_owner b) = true;
  lv_component : w_components w !! (p_header pool, b_owner b) = Some cs;
  lv_lost : s_generation s ≠ zipc_handle_generation (b_handle b) ∨
    s_state s ≠ ZIPC_SLOT_OWNED ∨ s_owner_id s ≠ b_owner b ∨
    s_owner_epoch s ≠ b_owner_epoch b ∨ live_epoch (c_lifecycle cs) ≠ b_owner_epoch b }.

Lemma wp_buffer_lost a b pool s cs Q w :
  lost_view a b pool s cs w → Q false w → wp (buffer_owned a) Q w.
Proof.
  intros [Hb Hp (k&Hk&Hs) Hv Hc Hlost] HQ. unfold buffer_owned, buffer_valid, control_read.
  apply wp_bind. destruct (Z.eqb_spec a 0) as [Ha|Ha]; [apply wp_ret; by apply wp_ret|].
  apply wp_bind. eapply wp_buffer_read; [exact Hb|]. apply wp_ret.
  destruct (view_valid b); [|by apply wp_ret]. cbn [negb].
  apply wp_bind. eapply wp_buffer_read; [exact Hb|]. rewrite Hk, Hp.
  apply wp_bind. eapply wp_slot_read; [exact Hs|].
  destruct (Z.eqb_spec (s_generation s) (zipc_handle_generation (b_handle b)));
    cbn [negb]; [|by apply wp_ret].
  apply wp_bind. eapply wp_slot_read; [exact Hs|].
  destruct (state_is (s_state s) ZIPC_SLOT_OWNED) eqn:Hst; cbn [negb]; [|by apply wp_ret].
  apply bool_decide_eq_true in Hst.
  apply wp_bind. eapply wp_slot_read; [exact Hs|].
  destruct (Z.eqb_spec (s_owner_id s) (b_owner b)); cbn [negb]; [|by apply wp_ret].
  apply wp_bind. eapply wp_slot_read; [exact Hs|].
  destruct (Z.eqb_spec (s_owner_epoch s) (b_owner_epoch b)); cbn [negb]; [|by apply wp_ret].
  apply wp_bind. eapply wp_registered_epoch; [exact Hv|exact Hc|]. apply wp_ret.
  rewrite (proj2 (Z.eqb_neq _ _)) by (intros ?; intuition congruence). done.
Qed.

End spec.

(** ** The buffer of component 7 in the demonstration pool *)
Definition demo_view : zipc_buffer_impl_t :=
  view_of demo_pool demo_header 0 (zipc_handle_make 0 1) demo_owned.
Definition demo_view_world : world demo := put_buffer 1 demo_view demo_world.

Lemma demo_owned_view : owned_view 1 demo_view (1000, 0) demo_owned demo_pool demo_view_world.
Proof.
  split; try reflexivity; try done.
  - exists demo_component. split; [apply demo_component_7|vm_compute; reflexivity].
Qed.

Lemma window_operations_witness :
  wp (zipc_buffer_append 1 (Some [1; 2; 3]) 3) (λ st w',
    window_done 1 (1000, 0) demo_pool 3145728 64 (replicate 16 0 ++ [1; 2; 3])
      demo_view_world st w') demo_view_world.
Proof.
  pose proof (window_operations 1 demo_view (1000, 0) demo_owned demo_pool [1; 2; 3] 0
    demo_view_world demo_owned_view ltac:(lia) ltac:(cbn; lia)) as Hw.
  cbv zeta in Hw. destruct Hw as [Hw _]. exact Hw.
Defined.

(** The same object after the slot went into transfer. *)
Definition demo_lost_world : world demo := put_buffer 1 demo_view demo_world_sent.
Lemma demo_lost_view :
  lost_view 1 demo_view demo_pool demo_transfer demo_component demo_lost_world.
Proof.
  split; try reflexivity.
  - exists (1000, 0). split; reflexivity.
  - right; left. vm_compute. discriminate.
Qed.
