(* ===== verification/Link.v ===== *)
(** * Links

    The high-level link API of src/core/zipc.c: creating a link, allocating on
    it, sending with rollback, receiving, copying.  The descriptor transport
    under a link is an interface, [Transport], with the functions of "Transport
    API" in zipc.h; LinuxTransport.v implements it. *)
From Stdlib Require String.
From S2P Require Import Prelude Types Packing Visited Prog Store Identity Slot Recovery Ring.
From S2P Require Import Buffer.

(** ** Data *)

(** Pointers to objects and callbacks are addresses ([0] is NULL).  The fields
    only the FreeRTOS and Xen platforms read are left out. *)
Record zipc_platform_transport_config_t := ZipcTransportConfig {
  tc_type : zipc_platform_transport_type_t;
  tc_endpoint_name : option String.string;
  tc_create_endpoint : bool;
  tc_device_path : option String.string;
  tc_platform_handle : Z;
  tc_receive_handle : Z;
  tc_queue_length : Z;
  tc_ring_depth : Z;
  tc_poll_timeout_ns : Z;
  tc_timeout_ticks : Z;
  tc_shared_mailbox : Z;
  tc_notification_index : Z;
  tc_signal_send : Z;
  tc_signal_wait : Z;
  tc_signal_context : Z;
  tc_secure_call : Z;
  tc_secure_context : Z;
  tc_secure_service_id : Z;
  tc_xen_remote_domid : Z;
  tc_xen_remote_port : Z;
  tc_xen_static_port : Z }.

Record zipc_transport_receive_token_t := ZipcToken {
  rt_position : Z;
  rt_transport_cookie : Z;
  rt_transactional : bool;
  rt_pending : bool }.
Definition zero_receive_token : zipc_transport_receive_token_t := ZipcToken 0 0 false false.

Record zipc_link_config_t := ZipcLinkConfig {
  lc_pool : option zipc_pool_t;
  lc_local_component : Z;
  lc_remote_component : Z;
  lc_link_id : Z;
  lc_local_epoch : Z;
  lc_role : zipc_link_role_t;
  lc_hop_limit : Z;
  lc_default_deadline_ns : Z;
  lc_timeout_ticks : Z;
  lc_transport : zipc_platform_transport_config_t }.

(** [T] is what a [zipc_platform_transport_t *] points to: a transport object
    does not change after it was opened, so the pointer is its value. *)
Record zipc_link_t (T : Type) := ZipcLink {
  l_pool : zipc_pool_t;
  l_transport : T;
  l_local_component : Z;
  l_remote_component : Z;
  l_link_id : Z;
  l_local_epoch : Z;
  l_role : zipc_link_role_t;
  l_transport_type : zipc_platform_transport_type_t;
  l_recovery_ring : Z;
  l_hop_limit : Z;
  l_default_deadline_ns : Z;
  l_timeout_ticks : Z }.
Arguments l_pool {T} _.
Arguments l_transport {T} _.
Arguments l_local_component {T} _.
Arguments l_remote_component {T} _.
Arguments l_link_id {T} _.
Arguments l_local_epoch {T} _.
Arguments l_role {T} _.
Arguments l_transport_type {T} _.
Arguments l_recovery_ring {T} _.
Arguments l_hop_limit {T} _.
Arguments l_default_deadline_ns {T} _.
Arguments l_timeout_ticks {T} _.

(** [pool == pool'] compares addresses. *)
Definition same_pool (p q : zipc_pool_t) : bool := p_self p =? p_self q.
(** [t == ZIPC_TRANSPORT_SHM_RING_EVENTFD || t == ZIPC_TRANSPORT_SHM_RING_POLLING] *)
Definition ring_transport (t : zipc_platform_transport_type_t) : bool :=
  bool_decide (t = ZIPC_TRANSPORT_SHM_RING_EVENTFD)
  || bool_decide (t = ZIPC_TRANSPORT_SHM_RING_POLLING).
Definition role_is (r r' : zipc_link_role_t) : bool := bool_decide (r = r').

(** ** The platform heap and the transport interface *)
Class Heap (E : Type) := {
  (** Whether the allocation succeeds. *)
  zipc_platform_alloc : prog (world E) bool;
  zipc_platform_free : prog (world E) () }.
Class Transport (E T : Type) := {
  (** The opened transport on OK. *)
  zipc_platform_transport_open : zipc_platform_transport_config_t →
    prog (world E) (zipc_status_t + T);
  zipc_platform_transport_close : T → prog (world E) ();
  zipc_platform_transport_send : T → zipc_message_t → prog (world E) zipc_status_t;
  zipc_platform_transport_receive_begin : T →
    prog (world E) (zipc_status_t * zipc_message_t * zipc_transport_receive_token_t);
  zipc_platform_transport_receive_commit : T → zipc_transport_receive_token_t →
    prog (world E) (zipc_status_t * zipc_transport_receive_token_t) }.

Section link.
Context {E T : Type} `{Platform E} `{Heap E} `{Transport E T}.

(** ** Creating and destroying *)
Definition zipc_link_create (config : option zipc_link_config_t)
    : prog (world E) (zipc_status_t * option (zipc_link_t T)) :=
  match config with
  | Some ({| lc_pool := Some pool |} as config) =>
  if negb (zipc_component_id_valid (lc_local_component config))
     || negb (zipc_component_id_valid (lc_remote_component config))
  then mret (ZIPC_ERR_INVALID_ARGUMENT, None)
  else
  current ← (if lc_local_epoch config =? 0 then mret true
             else component_epoch_current pool (lc_local_component config)
                    (lc_local_epoch config));
  if negb current then mret (ZIPC_ERR_COMPONENT_STALE, None)
  else
  allocated ← zipc_platform_alloc;
  if negb allocated then mret (ZIPC_ERR_PLATFORM, None)
  else
  local_epoch ← (if negb (lc_local_epoch config =? 0) then mret (lc_local_epoch config)
                 else registered_epoch pool (lc_local_component config));
  opened ← zipc_platform_transport_open (lc_transport config);
  match opened with
  | inl status => zipc_platform_free;; mret (status, None)
  | inr transport =>
  let type := tc_type (lc_transport config) in
  mret (ZIPC_OK, Some {|
    l_pool := pool;
    l_transport := transport;
    l_local_component := lc_local_component config;
    l_remote_component := lc_remote_component config;
    l_link_id := lc_link_id config;
    l_local_epoch := local_epoch;
    l_role := lc_role config;
    l_transport_type := type;
    l_recovery_ring := (if ring_transport type then tc_platform_handle (lc_transport config)
                        else 0);
    l_hop_limit := (if negb (lc_hop_limit config =? 0) then lc_hop_limit config
                    else ZIPC_HOP_LIMIT_UNLIMITED);
    l_default_deadline_ns := lc_default_deadline_ns config;
    l_timeout_ticks := lc_timeout_ticks config |})
  end
  | _ => mret (ZIPC_ERR_INVALID_ARGUMENT, None)
  end.

Definition zipc_link_destroy (link : option (zipc_link_t T)) : prog (world E) () :=
  match link with
  | None => mret ()
  | Some link => zipc_platform_transport_close (l_transport link);; zipc_platform_free
  end.

(** [link->local_epoch != 0U && !component_epoch_current(...)] *)
Definition link_stale (link : zipc_link_t T) : prog (world E) bool :=
  if l_local_epoch link =? 0 then mret false
  else
  current ← component_epoch_current (l_pool link) (l_local_component link) (l_local_epoch link);
  mret (negb current).

(** ** Allocation *)
Definition zipc_buffer_alloc_ex (fuel : nat) (link : option (zipc_link_t T))
    (size headroom tailroom buffer parent : Z) : prog (world E) zipc_status_t :=
  match link with
  | None => mret ZIPC_ERR_INVALID_ARGUMENT
  | Some link =>
  if (buffer =? 0) || (UINT32_MAX <? size) || (UINT32_MAX <? headroom)
     || (UINT32_MAX <? tailroom) then mret ZIPC_ERR_INVALID_ARGUMENT
  else
  stale ← link_stale link;
  if stale : bool then mret ZIPC_ERR_COMPONENT_STALE
  else
  capacity ← header_read (p_header (l_pool link)) h_slot_capacity;
  if (u64 (headroom + size) <? headroom) || (u64 (u64 (headroom + size) + tailroom) <? size)
     || (capacity <? u64 (u64 (headroom + size) + tailroom))
  then mret ZIPC_ERR_REGION_OVERFLOW
  else
  if parent =? buffer then mret ZIPC_ERR_INVALID_ARGUMENT
  else
  parent_owned ← (if parent =? 0 then mret true else buffer_owned parent);
  if negb parent_owned then mret ZIPC_ERR_INVALID_BUFFER
  else
  parent_id ← (if parent =? 0 then mret 0
               else b ← buffer_read parent; control_read b (λ s, id_id (s_identity s)));
  buffer_invalidate buffer;;
  buffer_allocate_internal fuel (Some (l_pool link)) (l_local_component link) parent_id
    (u32 headroom) (u32 size) (l_local_epoch link) (l_hop_limit link)
    (l_default_deadline_ns link) true buffer
  end.

Definition zipc_buffer_alloc (fuel : nat) (link : option (zipc_link_t T)) (size buffer parent : Z)
    : prog (world E) zipc_status_t :=
  zipc_buffer_alloc_ex fuel link size 0 0 buffer parent.
Definition zipc_buffer_get (fuel : nat) (link : option (zipc_link_t T)) (headroom buffer : Z)
    : prog (world E) zipc_status_t :=
  zipc_buffer_alloc_ex fuel link 0 headroom 0 buffer 0.

(** ** Sending *)

(** [slot->claim_previous_sequence = message->transfer_sequence - 1U] *)
Definition remember_previous (sequence : Z) (s : zipc_slot_control_t) : zipc_slot_control_t :=
  {| s with s_claim_previous_sequence := u32 (sequence - 1) |}.
Definition undo_transfer (component sequence : Z) (s : zipc_slot_control_t)
    : zipc_slot_control_t :=
  {| s with
     s_next_owner_id := ZIPC_INVALID_COMPONENT_ID;
     s_transfer_sequence := u32 (sequence - 1);
     s_owner_id := component |}.

Definition rollback_transfer (link : zipc_link_t T) (buffer : Z) (message : zipc_message_t)
    : prog (world E) zipc_status_t :=
  b ← buffer_read buffer;
  match b_control b with
  | None => mret ZIPC_ERR_RECOVERY_REQUIRED
  | Some k =>
  state ← slot_read k s_state;
  if negb (state_is state ZIPC_SLOT_TRANSFER) then mret ZIPC_ERR_RECOVERY_REQUIRED
  else
  let claim := claim_token_make ZIPC_CLAIM_ROLLBACK (l_local_component link)
                 (l_local_epoch link) in
  slot_write k (remember_previous (m_transfer_sequence message));;
  '(token_ok, _) ← cas_token k 0 claim;
  if negb token_ok then mret ZIPC_ERR_RECOVERY_REQUIRED
  else
  state_ok ← cas_state k ZIPC_SLOT_TRANSFER ZIPC_SLOT_CLAIMING;
  if negb state_ok then cas_token k claim 0;; mret ZIPC_ERR_RECOVERY_REQUIRED
  else
  generation ← slot_read k s_generation;
  matching ← slot_read k (λ s,
    (generation =? zipc_handle_generation (m_handle message))
    && (s_owner_id s =? l_local_component link)
    && (s_next_owner_id s =? l_remote_component link)
    && (s_transfer_sequence s =? m_transfer_sequence message));
  if negb matching then
    publish_state k ZIPC_SLOT_TRANSFER claim;; mret ZIPC_ERR_RECOVERY_REQUIRED
  else
  slot_write k (undo_transfer (l_local_component link) (m_transfer_sequence message));;
  status ← protect_slot (l_pool link) (b_slot_id b) true;
  if negb (status_is status ZIPC_OK) then mret status
  else
  publish_state k ZIPC_SLOT_OWNED claim;;
  mret ZIPC_OK
  end.

(** [BI(buffer)->pool != link->pool || BI(buffer)->owner != link->local_component] *)
Definition foreign_buffer (link : zipc_link_t T) (b : zipc_buffer_impl_t) : bool :=
  negb (match b_pool b with Some p => same_pool p (l_pool link) | None => false end)
  || negb (b_owner b =? l_local_component link).

(** From the prepared announcement on. *)
Definition send_announced (link : zipc_link_t T) (buffer : Z) (message : zipc_message_t)
    : prog (world E) zipc_status_t :=
  status ← zipc_platform_transport_send (l_transport link) message;
  let abandon status :=
    trace_external_event (l_pool link) (m_handle message) (m_transfer_sequence message)
      (l_local_component link) ZIPC_TRACE_ERROR;;
    buffer_invalidate buffer;;
    mret status in
  if status_is status ZIPC_ERR_TRANSPORT_PUBLISHED then abandon status
  else if negb (status_is status ZIPC_OK) then
    rollback_status ← rollback_transfer link buffer message;
    if negb (status_is rollback_status ZIPC_OK) then abandon rollback_status
    else mret status
  else
  buffer_invalidate buffer;;
  mret ZIPC_OK.

Definition zipc_send (link : option (zipc_link_t T)) (buffer : Z) : prog (world E) zipc_status_t :=
  match link with
  | None => mret ZIPC_ERR_INVALID_ARGUMENT
  | Some link =>
  if buffer =? 0 then mret ZIPC_ERR_INVALID_ARGUMENT
  else
  owned ← buffer_owned buffer;
  if negb owned then mret ZIPC_ERR_INVALID_BUFFER
  else
  stale ← link_stale link;
  b ← buffer_read buffer;
  if stale || negb (b_owner_epoch b =? l_local_epoch link) then mret ZIPC_ERR_COMPONENT_STALE
  else
  if foreign_buffer link b then mret ZIPC_ERR_NOT_OWNER
  else
  '(status, message) ← buffer_prepare_transfer_internal (Some (l_pool link)) (b_handle b)
      (l_local_component link) (l_remote_component link) (l_link_id link) (Some zero_message);
  if negb (status_is status ZIPC_OK) then mret status
  else
  send_announced link buffer message
  end.

Definition zipc_send_timeout (link : option (zipc_link_t T)) (buffer timeout_ticks : Z)
    : prog (world E) zipc_status_t := zipc_send link buffer.

(** ** Receiving *)

(** What follows the claim of the message; [None] goes round again. *)
Definition recv_claimed (link : zipc_link_t T) (buffer : Z) (token : zipc_transport_receive_token_t)
    (status : zipc_status_t) : prog (world E) (option zipc_status_t) :=
  if status_is status ZIPC_OK then
    '(commit_status, _) ← zipc_platform_transport_receive_commit (l_transport link) token;
    if negb (status_is commit_status ZIPC_OK) then
      buffer_invalidate buffer;; mret (Some ZIPC_ERR_RECOVERY_REQUIRED)
    else
    b ← buffer_read buffer;
    buffer_write buffer {| b with b_owner := l_local_component link |};;
    mret (Some ZIPC_OK)
  else
  zipc_platform_transport_receive_commit (l_transport link) token;;
  if status_is status ZIPC_ERR_INVALID_STATE || status_is status ZIPC_ERR_STALE_HANDLE
     || status_is status ZIPC_ERR_SEQUENCE_MISMATCH
  then buffer_invalidate buffer;; mret None
  else mret (Some status).

(** One turn of the loop. *)
Definition recv_turn (link : zipc_link_t T) (buffer : Z)
    : prog (world E) (option zipc_status_t) :=
  '(status, message, token) ← zipc_platform_transport_receive_begin (l_transport link);
  if negb (status_is status ZIPC_OK) then mret (Some status)
  else
  if negb (m_source_component message =? l_remote_component link) then
    record_protocol_error (l_pool link) None (l_local_component link);;
    zipc_platform_transport_receive_commit (l_transport link) token;;
    mret (Some ZIPC_ERR_INVALID_RECEIVER)
  else
  status ← zipc_buffer_claim (Some (l_pool link)) (Some message) (l_local_component link) buffer;
  recv_claimed link buffer token status.

Definition zipc_recv (fuel : nat) (link : option (zipc_link_t T)) (buffer : Z)
    : prog (world E) zipc_status_t :=
  match link with
  | None => mret ZIPC_ERR_INVALID_ARGUMENT
  | Some link =>
  if buffer =? 0 then mret ZIPC_ERR_INVALID_ARGUMENT
  else
  stale ← link_stale link;
  if stale : bool then mret ZIPC_ERR_COMPONENT_STALE
  else
  buffer_invalidate buffer;;
  r ← loop fuel (recv_turn link buffer);
  returned r
  end.

Definition zipc_recv_timeout (fuel : nat) (link : option (zipc_link_t T)) (buffer timeout_ticks : Z)
    : prog (world E) zipc_status_t := zipc_recv fuel link buffer.
Definition zipc_receive (fuel : nat) (link : option (zipc_link_t T)) (buffer : Z)
    : prog (world E) zipc_status_t := zipc_recv fuel link buffer.
Definition zipc_receive_timeout (fuel : nat) (link : option (zipc_link_t T))
    (buffer timeout_ticks : Z) : prog (world E) zipc_status_t :=
  zipc_recv_timeout fuel link buffer timeout_ticks.

(** ** Giving a buffer back *)
Definition zipc_buffer_put (link : option (zipc_link_t T)) (buffer : Z)
    : prog (world E) zipc_status_t :=
  match link with
  | None => mret ZIPC_ERR_INVALID_ARGUMENT
  | Some link =>
  if buffer =? 0 then mret ZIPC_ERR_INVALID_ARGUMENT
  else
  owned ← buffer_owned buffer;
  if negb owned then mret ZIPC_ERR_INVALID_BUFFER
  else
  b ← buffer_read buffer;
  if foreign_buffer link b then mret ZIPC_ERR_NOT_OWNER
  else zipc_buffer_release buffer
  end.

(** ** Copying interfaces

    [buffer] is the address of the function's local [zipc_buffer_t]. *)
Definition zipc_send_copy (fuel : nat) (link : option (zipc_link_t T)) (data : option (list Z))
    (size buffer : Z) : prog (world E) zipc_status_t :=
  if negb (size =? 0) && bool_decide (data = None) then mret ZIPC_ERR_INVALID_ARGUMENT
  else
  status ← zipc_buffer_alloc fuel link size buffer 0;
  if negb (status_is status ZIPC_OK) then mret status
  else
  (if negb (size =? 0) then
     destination ← zipc_buffer_data buffer;
     memcpy_in destination (default [] data) size
   else mret ());;
  status ← zipc_send link buffer;
  if negb (status_is status ZIPC_OK) then
    valid ← zipc_buffer_is_valid buffer;
    if valid : bool then zipc_buffer_release buffer;; mret status else mret status
  else mret status.

(** [data = false] is NULL; the result holds [*actual_size] and the bytes
    copied out, [None] when they are not written. *)
Definition zipc_recv_copy (fuel : nat) (link : option (zipc_link_t T)) (data : bool)
    (capacity : Z) (actual_size : bool) (buffer : Z)
    : prog (world E) (zipc_status_t * option Z * option (list Z)) :=
  if negb actual_size || (negb (capacity =? 0) && negb data)
  then mret (ZIPC_ERR_INVALID_ARGUMENT, None, None)
  else
  status ← zipc_recv fuel link buffer;
  if negb (status_is status ZIPC_OK) then mret (status, None, None)
  else
  size ← zipc_buffer_size buffer;
  if capacity <? size then
    zipc_buffer_release buffer;; mret (ZIPC_ERR_BUFFER_TOO_SMALL, Some size, None)
  else
  copied ← (if negb (size =? 0) then
              source ← zipc_buffer_data buffer;
              bs ← payload_read source (Z.to_nat size);
              mret (Some bs)
            else mret None);
  status ← zipc_buffer_release buffer;
  mret (status, Some size, copied).
End link.
