(* ===== verification/Reconcile.v ===== *)
(** * Reconciling a link after a restart (src/core/zipc.c)

    [zipc_link_reconcile]: the new incarnation of a component repairs one
    shared-ring endpoint.  A producer undoes abandoned sends and announces its
    pending transfers again; a consumer gives abandoned claims back to their
    senders and drops announcements that no longer refer to a transfer. *)
From S2P Require Import Prelude Types Packing Visited Prog Store Identity Slot SlotRun.
From S2P Require Import Recovery Ring Buffer Link.

Section reconcile.
Context {E T : Type} `{Platform E} `{Transport E T}.

(** [slot->transfer_sequence = slot->claim_previous_sequence;
    slot->next_owner_id = ZIPC_INVALID_COMPONENT_ID] *)
Definition undo_send (s : zipc_slot_control_t) : zipc_slot_control_t :=
  {| s with s_transfer_sequence := s_claim_previous_sequence s;
            s_next_owner_id := ZIPC_INVALID_COMPONENT_ID |}.

(** The kinds of claim a role repairs. *)
Definition matching_kind (role : zipc_link_role_t) (kind : Z) : bool :=
  if role_is role ZIPC_LINK_ROLE_PRODUCER
  then (kind =? ZIPC_CLAIM_SEND) || (kind =? ZIPC_CLAIM_ROLLBACK)
  else kind =? ZIPC_CLAIM_RECEIVE.

(** The [state == ZIPC_SLOT_CLAIMING] block: [Some] status leaves the function. *)
Definition reconcile_claiming (link : zipc_link_t T) (component dead_epoch i token : Z)
    : prog (world E) (option zipc_status_t) :=
  let k := slot_key (l_pool link) i in
  if negb (matching_kind (l_role link) (claim_token_kind token))
     || negb (token_of component dead_epoch token) then mret None
  else
  claimed ← cas_state k ZIPC_SLOT_CLAIMING ZIPC_SLOT_ERROR;
  if negb claimed then mret None
  else
  if role_is (l_role link) ZIPC_LINK_ROLE_PRODUCER then
    slot_write k undo_send;;
    store_token k 0;;
    store_state k ZIPC_SLOT_OWNED;;
    mret None
  else
    protect_status ← protect_slot (l_pool link) i false;
    if negb (status_is protect_status ZIPC_OK) then
      store_state k ZIPC_SLOT_CLAIMING;; mret (Some protect_status)
    else
    slot_write k (undo_receive component);;
    store_token k 0;;
    store_state k ZIPC_SLOT_TRANSFER;;
    mret None.

(** [slot->owner_id == component && slot->owner_epoch == dead_epoch &&
    slot->next_owner_id == remote && slot->transfer_link_id == link_id] *)
Definition pending_on (link : zipc_link_t T) (component dead_epoch : Z)
    (s : zipc_slot_control_t) : bool :=
  (s_owner_id s =? component) && (s_owner_epoch s =? dead_epoch)
  && (s_next_owner_id s =? l_remote_component link)
  && (s_transfer_link_id s =? l_link_id link).

(** The producer's part for a slot in TRANSFER: [inl] the announcement was
    (not) sent again, [inr] the transport refused it. *)
Definition reconcile_transfer (link : zipc_link_t T) (component dead_epoch i : Z)
    : prog (world E) (bool + zipc_status_t) :=
  let k := slot_key (l_pool link) i in
  transfer_token ← slot_read k s_claim_token;
  (if (claim_token_kind transfer_token =? ZIPC_CLAIM_ROLLBACK)
      && token_of component dead_epoch transfer_token
   then cas_token k transfer_token 0;; mret () else mret ());;
  claimed ← cas_state k ZIPC_SLOT_TRANSFER ZIPC_SLOT_ERROR;
  if negb claimed then mret (inl false)
  else
  pending ← slot_read k (pending_on link component dead_epoch);
  if negb pending then store_state k ZIPC_SLOT_TRANSFER;; mret (inl false)
  else
  generation ← slot_read k s_generation;
  sequence ← slot_read k s_transfer_sequence;
  let message :=
    {| m_handle := zipc_handle_make i generation;
       m_pool_id := p_pool_id (l_pool link);
       m_source_component := component;
       m_destination_component := l_remote_component link;
       m_transfer_sequence := sequence;
       m_flags := 0 |} in
  store_state k ZIPC_SLOT_TRANSFER;;
  status ← zipc_platform_transport_send (l_transport link) message;
  if negb (status_is status ZIPC_OK) && negb (status_is status ZIPC_ERR_TRANSPORT_PUBLISHED)
  then mret (inr status)
  else mret (inl true).

(** The body of the scan; [recovered] counts the announcements sent again. *)
Definition reconcile_slot (link : zipc_link_t T) (component dead_epoch i recovered : Z)
    : prog (world E) (Z + zipc_status_t * Z) :=
  let k := slot_key (l_pool link) i in
  state ← slot_read k s_state;
  observed_token ← slot_read k s_claim_token;
  if role_is (l_role link) ZIPC_LINK_ROLE_CONSUMER && state_is state ZIPC_SLOT_TRANSFER
     && (claim_token_kind observed_token =? ZIPC_CLAIM_RECEIVE)
     && token_of component dead_epoch observed_token then
    clear_claim_token k observed_token;; mret (inl recovered)
  else if state_is state ZIPC_SLOT_CLAIMING then
    failed ← reconcile_claiming link component dead_epoch i observed_token;
    mret (match failed with Some status => inr (status, recovered) | None => inl recovered end)
  else if negb (role_is (l_role link) ZIPC_LINK_ROLE_PRODUCER)
          || negb (state_is state ZIPC_SLOT_TRANSFER) then mret (inl recovered)
  else
  r ← reconcile_transfer link component dead_epoch i;
  mret (match r with
        | inr status => inr (status, recovered)
        | inl sent => inl (if sent : bool then u32 (recovered + 1) else recovered)
        end).

(** One turn of the consumer's loop over the ring: [Some] breaks. *)
Definition drain_turn (link : zipc_link_t T) : prog (world E) (option ()) :=
  let ring := l_recovery_ring link in
  consumer ← ring_read ring ring_consumer;
  producer ← ring_read ring ring_producer;
  if consumer =? producer then mret (Some ())
  else
  depth ← ring_read ring ring_depth;
  if depth =? 0 then fault (* consumer % 0 *)
  else
  message ← ring_read ring (ring_entry consumer);
  let slot_id := zipc_handle_slot_id (m_handle message) in
  let drop := ring_write ring (set_consumer (u32 (consumer + 1)));; mret None in
  count ← header_read (p_header (l_pool link)) h_slot_count;
  if count <=? slot_id then drop
  else
  let k := slot_key (l_pool link) slot_id in
  state ← slot_read k s_state;
  generation ← slot_read k s_generation;
  if state_is state ZIPC_SLOT_TRANSFER
     && (generation =? zipc_handle_generation (m_handle message)) then mret (Some ())
  else drop.

(** The second component is [*recovered_transfers], [None] when the call
    returns before writing it. *)
Definition zipc_link_reconcile (fuel : nat) (link : option (zipc_link_t T))
    (restart : option zipc_restart_t) : prog (world E) (zipc_status_t * option Z) :=
  match link, restart with
  | Some link, Some ({| rs_pool := Some pool |} as restart) =>
  if negb (same_pool (l_pool link) pool)
     || negb (l_local_component link =? rs_component restart)
     || negb (l_local_epoch link =? rs_epoch restart) || (l_link_id link =? 0)
     || negb (rs_epoch restart =? u32 (rs_dead_epoch restart + 1))
  then mret (ZIPC_ERR_INVALID_ARGUMENT, None)
  else
  recovering ← component_epoch_recovering pool (rs_component restart) (rs_epoch restart);
  if negb recovering then mret (ZIPC_ERR_INVALID_ARGUMENT, None)
  else
  if negb (ring_transport (l_transport_type link))
  then mret (ZIPC_ERR_RECOVERY_UNSUPPORTED, None)
  else
  if negb (role_is (l_role link) ZIPC_LINK_ROLE_PRODUCER)
     && negb (role_is (l_role link) ZIPC_LINK_ROLE_CONSUMER)
  then mret (ZIPC_ERR_INVALID_ARGUMENT, None)
  else
  if l_recovery_ring link =? 0 then mret (ZIPC_ERR_RECOVERY_UNSUPPORTED, None)
  else
  scanned ← scan_slots fuel (l_pool link) 0 0
              (reconcile_slot link (rs_component restart) (rs_dead_epoch restart));
  match scanned with
  | inr (status, recovered) => mret (status, Some recovered)
  | inl (_, recovered) =>
      (if role_is (l_role link) ZIPC_LINK_ROLE_CONSUMER
       then r ← loop fuel (drain_turn link); returned r else mret ());;
      mret (ZIPC_OK, Some recovered)
  end
  | _, _ => mret (ZIPC_ERR_INVALID_ARGUMENT, None)
  end.
End reconcile.
