(* ===== verification/LinuxTransport.v ===== *)
(** * Linux transports (platform/linux/user/platform-linux-user.c)

    Opening, sending, receiving and closing over every transport the Linux
    platform offers.  System calls and the callbacks of a configuration are
    the interface [LinuxOs]; the shared rings are those of Ring.v. *)
From Stdlib Require Import String.
From S2P Require Import Prelude Types Packing Prog Store Layout Ring Link.

(** ** The operating system *)

(** What a [read] of an eventfd answers: interrupted, failed or short, or the
    counter. *)
Inductive eventfd_answer := EventInterrupted | EventFailed | EventCounter (counter : Z).

Class LinuxOs (E : Type) := {
  (** [calloc] of a transport object: its address. *)
  os_calloc : E → option Z * E;
  os_free : Z → E → E;
  (** A negative descriptor means failure. *)
  os_mq_open : option string → bool → E → Z * E;
  os_mq_close : Z → E → E;
  os_mq_unlink : option string → E → E;
  os_socket : E → Z * E;
  (** [unlink] and [bind] of a Unix-domain address. *)
  os_bind : Z → option string → E → bool * E;
  (** [false] when [mkfifo] fails with another error than EEXIST. *)
  os_mkfifo : option string → E → bool * E;
  os_open : option string → E → Z * E;
  os_close : Z → E → E;
  os_unlink : option string → E → E;
  os_eventfd : E → Z * E;
  (** Anonymous shared memory of that size. *)
  os_mmap : Z → E → option Z * E;
  os_munmap : Z → Z → E → E;
  (** Bytes transferred, negative on error; a receive also gives the message. *)
  os_mq_send : Z → zipc_message_t → E → bool * E;
  os_mq_receive : Z → E → (Z * zipc_message_t) * E;
  os_write : Z → zipc_message_t → E → Z * E;
  os_read : Z → E → (Z * zipc_message_t) * E;
  os_sendto : Z → option string → zipc_message_t → E → Z * E;
  os_recv : Z → E → (Z * zipc_message_t) * E;
  (** [true] when the eight bytes were written. *)
  os_eventfd_write : Z → E → bool * E;
  os_eventfd_read : Z → E → eventfd_answer * E;
  (** The callbacks of a configuration and the objects they share. *)
  os_signal_send : Z → Z → E → zipc_status_t * E;
  os_signal_wait : Z → Z → Z → E → zipc_status_t * E;
  os_secure_call : Z → Z → Z → zipc_message_t → E → (zipc_status_t * zipc_message_t) * E;
  os_mailbox_store : Z → zipc_message_t → E → E;
  os_mailbox_load : Z → E → zipc_message_t;
  (** The pending response of a secure transport, by its address. *)
  os_response_store : Z → option zipc_message_t → E → E;
  os_response_load : Z → E → option zipc_message_t }.

(** ** Transport objects *)
Inductive transport_handle :=
| HandleMq (mq : Z)
| HandleFd (fd : Z)
| HandleRingEventfd (ring mapping_size event_fd : Z)
| HandleRingPolling (ring mapping_size timeout_ns : Z)
| HandleIpi (mailbox send wait context timeout_ticks : Z)
| HandlePlRing (ring send wait context timeout_ticks : Z)
| HandleSecure (call context service_id : Z).

Record zipc_platform_transport_t := ZipcTransport {
  pt_self : Z;
  pt_type : zipc_platform_transport_type_t;
  pt_created : bool;
  pt_endpoint_name : option string;
  pt_owns_ring : bool;
  pt_owns_eventfd : bool;
  pt_handle : transport_handle }.

Definition set_handle (h : transport_handle) (t : zipc_platform_transport_t) :=
  {| t with pt_handle := h |}.
Definition own_ring (t : zipc_platform_transport_t) := {| t with pt_owns_ring := true |}.
Definition disown_ring (t : zipc_platform_transport_t) := {| t with pt_owns_ring := false |}.
Definition own_eventfd (t : zipc_platform_transport_t) := {| t with pt_owns_eventfd := true |}.

Section transport.
Context {E : Type} `{Platform E} `{LinuxOs E}.

Definition os_do (f : E → E) : prog (world E) () := env_call (λ e, (tt, f e)).
(** [mmap] and [memset] of a ring for [depth] messages. *)
Definition ring_create (ring depth : Z) : prog (world E) () :=
  act (λ w, Some (tt, put_ring ring
    (ZipcRing 0 0 0 (repeat zero_message (Z.to_nat depth))) w)).

(** ** Opening

    Each function gives the status and the object as it leaves it. *)
Definition ring_mapping_size (depth : Z) : Z := zipc_transport_spsc_ring_size depth.
Definition default_depth (config : zipc_platform_transport_config_t) : Z :=
  if negb (tc_ring_depth config =? 0) then tc_ring_depth config else 64.

Definition open_mqueue (t : zipc_platform_transport_t) (config : zipc_platform_transport_config_t)
    : prog (world E) (zipc_status_t * zipc_platform_transport_t) :=
  mq ← env_call (os_mq_open (tc_endpoint_name config) (tc_create_endpoint config));
  mret (if mq =? -1 then ZIPC_ERR_PLATFORM else ZIPC_OK, set_handle (HandleMq mq) t).

Definition open_unix_dgram (t : zipc_platform_transport_t)
    (config : zipc_platform_transport_config_t)
    : prog (world E) (zipc_status_t * zipc_platform_transport_t) :=
  fd ← env_call os_socket;
  let t := set_handle (HandleFd fd) t in
  if fd <? 0 then mret (ZIPC_ERR_PLATFORM, t)
  else
  if tc_create_endpoint config then
    bound ← env_call (os_bind fd (tc_endpoint_name config));
    mret (if bound : bool then ZIPC_OK else ZIPC_ERR_PLATFORM, t)
  else mret (ZIPC_OK, t).

Definition open_fifo (t : zipc_platform_transport_t) (config : zipc_platform_transport_config_t)
    : prog (world E) (zipc_status_t * zipc_platform_transport_t) :=
  made ← (if tc_create_endpoint config then env_call (os_mkfifo (tc_endpoint_name config))
          else mret true);
  if negb made then mret (ZIPC_ERR_PLATFORM, t)
  else
  fd ← env_call (os_open (tc_endpoint_name config));
  mret (if fd <? 0 then ZIPC_ERR_PLATFORM else ZIPC_OK, set_handle (HandleFd fd) t).

(** The part the two ring variants share: a caller's ring must be initialised,
    a missing one is created.  [Some] ring, its mapping size and the object. *)
Definition open_ring (t : zipc_platform_transport_t) (config : zipc_platform_transport_config_t)
    : prog (world E) (zipc_status_t * option (Z * Z) * zipc_platform_transport_t) :=
  let depth := default_depth config in
  if depth <? 2 then mret (ZIPC_ERR_INVALID_ARGUMENT, None, t)
  else
  if tc_platform_handle config =? 0 then
    let size := ring_mapping_size depth in
    mapped ← env_call (os_mmap size);
    match mapped with
    | None => mret (ZIPC_ERR_PLATFORM, None, t)
    | Some ring =>
        ring_create ring depth;;
        zipc_transport_spsc_ring_initialize ring depth;;
        mret (ZIPC_OK, Some (ring, size), own_ring t)
    end
  else
  found ← ring_read (tc_platform_handle config) ring_depth;
  if found <? 2 then mret (ZIPC_ERR_INVALID_ARGUMENT, None, t)
  else mret (ZIPC_OK, Some (tc_platform_handle config, 0), t).

Definition open_ring_eventfd (t : zipc_platform_transport_t)
    (config : zipc_platform_transport_config_t)
    : prog (world E) (zipc_status_t * zipc_platform_transport_t) :=
  '(status, ring, t) ← open_ring t config;
  match ring with
  | None => mret (status, t)
  | Some (ring, size) =>
  if negb (tc_receive_handle config =? 0)
  then mret (ZIPC_OK, set_handle (HandleRingEventfd ring size (tc_receive_handle config)) t)
  else
  event_fd ← env_call os_eventfd;
  if event_fd <? 0 then
    (if pt_owns_ring t then os_do (os_munmap ring size) else mret ());;
    mret (ZIPC_ERR_PLATFORM, disown_ring t)
  else
  mret (ZIPC_OK, set_handle (HandleRingEventfd ring size event_fd) (own_eventfd t))
  end.

Definition open_ring_polling (t : zipc_platform_transport_t)
    (config : zipc_platform_transport_config_t)
    : prog (world E) (zipc_status_t * zipc_platform_transport_t) :=
  '(status, ring, t) ← open_ring t config;
  match ring with
  | None => mret (status, t)
  | Some (ring, size) =>
      mret (ZIPC_OK, set_handle (HandleRingPolling ring size (tc_poll_timeout_ns config)) t)
  end.

Definition open_ipi (t : zipc_platform_transport_t) (config : zipc_platform_transport_config_t)
    : prog (world E) (zipc_status_t * zipc_platform_transport_t) :=
  if (tc_shared_mailbox config =? 0) || (tc_signal_send config =? 0)
     || (tc_signal_wait config =? 0) then mret (ZIPC_ERR_INVALID_ARGUMENT, t)
  else
  mret (ZIPC_OK, set_handle (HandleIpi (tc_shared_mailbox config) (tc_signal_send config)
    (tc_signal_wait config) (tc_signal_context config) (tc_timeout_ticks config)) t).

Definition open_pl_ring_irq (t : zipc_platform_transport_t)
    (config : zipc_platform_transport_config_t)
    : prog (world E) (zipc_status_t * zipc_platform_transport_t) :=
  let ring := tc_platform_handle config in
  if (ring =? 0) || (tc_signal_send config =? 0) || (tc_signal_wait config =? 0)
  then mret (ZIPC_ERR_INVALID_ARGUMENT, t)
  else
  status ←
    (if tc_create_endpoint config
     then zipc_transport_spsc_ring_initialize ring (tc_ring_depth config)
     else
       found ← ring_read ring ring_depth;
       mret (if (found <? 2) || (negb (tc_ring_depth config =? 0)
                                 && negb (found =? tc_ring_depth config))
             then ZIPC_ERR_INVALID_ARGUMENT else ZIPC_OK));
  if negb (status_is status ZIPC_OK) then mret (status, t)
  else
  mret (ZIPC_OK, set_handle (HandlePlRing ring (tc_signal_send config) (tc_signal_wait config)
    (tc_signal_context config) (tc_timeout_ticks config)) t).

Definition path_missing (path : option string) : bool :=
  match path with None => true | Some s => String.eqb s "" end.
Definition open_rpmsg (t : zipc_platform_transport_t) (config : zipc_platform_transport_config_t)
    : prog (world E) (zipc_status_t * zipc_platform_transport_t) :=
  if path_missing (tc_device_path config) then mret (ZIPC_ERR_INVALID_ARGUMENT, t)
  else
  fd ← env_call (os_open (tc_device_path config));
  mret (if fd <? 0 then ZIPC_ERR_PLATFORM else ZIPC_OK, set_handle (HandleFd fd) t).

Definition open_secure (t : zipc_platform_transport_t) (config : zipc_platform_transport_config_t)
    : prog (world E) (zipc_status_t * zipc_platform_transport_t) :=
  if tc_secure_call config =? 0 then mret (ZIPC_ERR_INVALID_ARGUMENT, t)
  else
  os_do (os_response_store (pt_self t) None);;
  mret (ZIPC_OK, set_handle (HandleSecure (tc_secure_call config) (tc_secure_context config)
    (tc_secure_service_id config)) t).

(** ** Closing *)
Definition zipc_platform_transport_close (t : zipc_platform_transport_t) : prog (world E) () :=
  (match pt_type t, pt_handle t with
   | ZIPC_TRANSPORT_MESSAGE_QUEUE, HandleMq mq =>
       (if negb (mq =? -1) then os_do (os_mq_close mq) else mret ());;
       if pt_created t then os_do (os_mq_unlink (pt_endpoint_name t)) else mret ()
   | ZIPC_TRANSPORT_UNIX_DGRAM, HandleFd fd | ZIPC_TRANSPORT_FIFO, HandleFd fd =>
       (if 0 <=? fd then os_do (os_close fd) else mret ());;
       if pt_created t then os_do (os_unlink (pt_endpoint_name t)) else mret ()
   | ZIPC_TRANSPORT_SHM_RING_EVENTFD, HandleRingEventfd ring size event_fd =>
       (if pt_owns_eventfd t && (0 <=? event_fd) then os_do (os_close event_fd) else mret ());;
       if pt_owns_ring t && negb (ring =? 0) then os_do (os_munmap ring size) else mret ()
   | ZIPC_TRANSPORT_SHM_RING_POLLING, HandleRingPolling ring size _ =>
       if pt_owns_ring t && negb (ring =? 0) then os_do (os_munmap ring size) else mret ()
   | ZIPC_TRANSPORT_RPMSG, HandleFd fd =>
       if 0 <=? fd then os_do (os_close fd) else mret ()
   | _, _ => mret ()
   end);;
  os_do (os_free (pt_self t)).

(** ** Opening a transport *)

(** The checks before the object is allocated. *)
Definition config_rejected (config : zipc_platform_transport_config_t) : bool :=
  match tc_type config with
  | ZIPC_TRANSPORT_MESSAGE_QUEUE | ZIPC_TRANSPORT_UNIX_DGRAM | ZIPC_TRANSPORT_FIFO =>
      bool_decide (tc_endpoint_name config = None)
  | ZIPC_TRANSPORT_RPMSG => bool_decide (tc_device_path config = None)
  | ZIPC_TRANSPORT_IPI =>
      (tc_shared_mailbox config =? 0) || (tc_signal_send config =? 0)
      || (tc_signal_wait config =? 0)
  | ZIPC_TRANSPORT_PL_RING_IRQ =>
      (tc_platform_handle config =? 0) || (tc_signal_send config =? 0)
      || (tc_signal_wait config =? 0)
  | _ => false
  end.
(** The [switch] over the types. *)
Definition open_by_type (t : zipc_platform_transport_t) (config : zipc_platform_transport_config_t)
    : prog (world E) (zipc_status_t * zipc_platform_transport_t) :=
  match tc_type config with
  | ZIPC_TRANSPORT_MESSAGE_QUEUE => open_mqueue t config
  | ZIPC_TRANSPORT_UNIX_DGRAM => open_unix_dgram t config
  | ZIPC_TRANSPORT_FIFO => open_fifo t config
  | ZIPC_TRANSPORT_SHM_RING_EVENTFD => open_ring_eventfd t config
  | ZIPC_TRANSPORT_SHM_RING_POLLING => open_ring_polling t config
  | ZIPC_TRANSPORT_RPMSG => open_rpmsg t config
  | ZIPC_TRANSPORT_IPI => open_ipi t config
  | ZIPC_TRANSPORT_PL_RING_IRQ => open_pl_ring_irq t config
  | ZIPC_TRANSPORT_SMC | ZIPC_TRANSPORT_FFA => open_secure t config
  | _ => mret (ZIPC_ERR_INVALID_ARGUMENT, t)
  end.
Definition zipc_platform_transport_open (config : zipc_platform_transport_config_t)
    : prog (world E) (zipc_status_t + zipc_platform_transport_t) :=
  if config_rejected config then mret (inl ZIPC_ERR_INVALID_ARGUMENT)
  else
  object ← env_call os_calloc;
  match object with
  | None => mret (inl ZIPC_ERR_PLATFORM)
  | Some self =>
  let t :=
    {| pt_self := self;
       pt_type := tc_type config;
       pt_created := tc_create_endpoint config;
       pt_endpoint_name := String.substring 0 107 <$> tc_endpoint_name config;
       pt_owns_ring := false;
       pt_owns_eventfd := false;
       pt_handle := HandleFd (-1) |} in
  '(status, t) ← open_by_type t config;
  if negb (status_is status ZIPC_OK) then zipc_platform_transport_close t;; mret (inl status)
  else mret (inr t)
  end.

(** ** Sending *)

(** A failed secure call has written to the response too; it is read only while
    an earlier one is pending. *)
Definition overwrite_response (self : Z) (response : zipc_message_t) (e : E) : E :=
  match os_response_load self e with
  | Some _ => os_response_store self (Some response) e
  | None => e
  end.

Definition zipc_platform_transport_send (fuel : nat) (t : zipc_platform_transport_t)
    (message : zipc_message_t) : prog (world E) zipc_status_t :=
  (** [write] of a whole descriptor; part of one may have been seen. *)
  let write_message fd :=
    sent ← env_call (os_write fd message);
    mret (if sent =? sizeof_zipc_message_t then ZIPC_OK
          else if 0 <? sent then ZIPC_ERR_TRANSPORT_PUBLISHED else ZIPC_ERR_TRANSPORT) in
  match pt_type t, pt_handle t with
  | ZIPC_TRANSPORT_MESSAGE_QUEUE, HandleMq mq =>
      sent ← env_call (os_mq_send mq message);
      mret (if sent : bool then ZIPC_OK else ZIPC_ERR_TRANSPORT)
  | ZIPC_TRANSPORT_FIFO, HandleFd fd => write_message fd
  | ZIPC_TRANSPORT_SHM_RING_EVENTFD, HandleRingEventfd ring _ event_fd =>
      status ← zipc_linux_common_ring_push fuel ring (Some message);
      if negb (status_is status ZIPC_OK) then mret status
      else
      written ← env_call (os_eventfd_write event_fd);
      mret (if written : bool then ZIPC_OK else ZIPC_ERR_TRANSPORT_PUBLISHED)
  | ZIPC_TRANSPORT_SHM_RING_POLLING, HandleRingPolling ring _ _ =>
      status ← zipc_linux_common_ring_push fuel ring (Some message);
      if negb (status_is status ZIPC_OK) then mret status else mret ZIPC_OK
  | ZIPC_TRANSPORT_RPMSG, HandleFd fd => write_message fd
  | ZIPC_TRANSPORT_IPI, HandleIpi mailbox send _ context _ =>
      os_do (os_mailbox_store mailbox message);;
      status ← env_call (os_signal_send send context);
      mret (if status_is status ZIPC_OK then ZIPC_OK else ZIPC_ERR_TRANSPORT_PUBLISHED)
  | ZIPC_TRANSPORT_PL_RING_IRQ, HandlePlRing ring send _ context _ =>
      status ← zipc_linux_common_ring_push fuel ring (Some message);
      if negb (status_is status ZIPC_OK) then mret status
      else
      status ← env_call (os_signal_send send context);
      mret (if status_is status ZIPC_OK then ZIPC_OK else ZIPC_ERR_TRANSPORT_PUBLISHED)
  | ZIPC_TRANSPORT_SMC, HandleSecure call context service_id
  | ZIPC_TRANSPORT_FFA, HandleSecure call context service_id =>
      '(status, response) ← env_call (os_secure_call call context service_id message);
      if status_is status ZIPC_OK
      then os_do (os_response_store (pt_self t) (Some response));; mret ZIPC_OK
      else
      os_do (overwrite_response (pt_self t) response);;
      mret ZIPC_ERR_TRANSPORT_PUBLISHED
  | ZIPC_TRANSPORT_UNIX_DGRAM, HandleFd fd =>
      sent ← env_call (os_sendto fd (pt_endpoint_name t) message);
      mret (if sent =? sizeof_zipc_message_t then ZIPC_OK else ZIPC_ERR_TRANSPORT)
  | _, _ => mret ZIPC_ERR_INVALID_ARGUMENT
  end.

(** ** Receiving *)

(** Read the eventfd, again when interrupted; [false] on failure. *)
Definition eventfd_wait (fuel : nat) (event_fd : Z) : prog (world E) bool :=
  r ← loop fuel (
    answer ← env_call (os_eventfd_read event_fd);
    mret (match answer with
          | EventInterrupted => None
          | EventFailed => Some false
          | EventCounter counter => Some (negb (counter =? 0))
          end));
  returned r.

(** The loop of the eventfd variant around [attempt] (a peek or a pop): wait
    for a signal while the ring is empty. *)
Definition eventfd_loop {A} (fuel : nat) (event_fd : Z)
    (attempt : prog (world E) (zipc_status_t * option A))
    : prog (world E) (zipc_status_t * option A) :=
  r ← loop fuel (
    '(status, result) ← attempt;
    if negb (status_is status ZIPC_ERR_NO_BUFFER) then mret (Some (status, result))
    else
    signalled ← eventfd_wait fuel event_fd;
    mret (if signalled : bool then None else Some (ZIPC_ERR_TRANSPORT, None)));
  returned r.

(** [UINT64_MAX - now < timeout ? UINT64_MAX : now + timeout] *)
Definition poll_deadline (now timeout_ns : Z) : Z :=
  if UINT64_MAX - now <? timeout_ns then UINT64_MAX else now + timeout_ns.
(** The loop of the polling variant; [timeout_ns = 0] spins until there is a
    message. *)
Definition polling_loop {A} (fuel : nat) (timeout_ns : Z)
    (attempt : prog (world E) (zipc_status_t * option A))
    : prog (world E) (zipc_status_t * option A) :=
  deadline_ns ←
    (if negb (timeout_ns =? 0)
     then now_ns ← env_call zipc_platform_time_ns; mret (poll_deadline now_ns timeout_ns)
     else mret 0);
  r ← loop fuel (
    '(status, result) ← attempt;
    if negb (status_is status ZIPC_ERR_NO_BUFFER) then mret (Some (status, result))
    else
    if negb (timeout_ns =? 0) then
      now_ns ← env_call zipc_platform_time_ns;
      mret (if deadline_ns <=? now_ns then Some (ZIPC_ERR_TIMEOUT, None) else None)
    else mret None);
  returned r.

(** A message of [received] bytes. *)
Definition whole_message (r : Z * zipc_message_t) : zipc_status_t * option zipc_message_t :=
  if r.1 =? sizeof_zipc_message_t then (ZIPC_OK, Some r.2) else (ZIPC_ERR_TRANSPORT, None).

(** [*message] on OK. *)
Definition zipc_platform_transport_receive (fuel : nat) (t : zipc_platform_transport_t)
    : prog (world E) (zipc_status_t * option zipc_message_t) :=
  match pt_type t, pt_handle t with
  | ZIPC_TRANSPORT_MESSAGE_QUEUE, HandleMq mq =>
      r ← env_call (os_mq_receive mq); mret (whole_message r)
  | ZIPC_TRANSPORT_FIFO, HandleFd fd | ZIPC_TRANSPORT_RPMSG, HandleFd fd =>
      r ← env_call (os_read fd); mret (whole_message r)
  | ZIPC_TRANSPORT_SHM_RING_EVENTFD, HandleRingEventfd ring _ event_fd =>
      eventfd_loop fuel event_fd (zipc_linux_common_ring_pop ring)
  | ZIPC_TRANSPORT_SHM_RING_POLLING, HandleRingPolling ring _ timeout_ns =>
      polling_loop fuel timeout_ns (zipc_linux_common_ring_pop ring)
  | ZIPC_TRANSPORT_IPI, HandleIpi mailbox _ wait context timeout_ticks =>
      status ← env_call (os_signal_wait wait context timeout_ticks);
      if negb (status_is status ZIPC_OK) then mret (status, None)
      else
      message ← env_get (os_mailbox_load mailbox);
      mret (ZIPC_OK, Some message)
  | ZIPC_TRANSPORT_PL_RING_IRQ, HandlePlRing ring _ wait context timeout_ticks =>
      status ← env_call (os_signal_wait wait context timeout_ticks);
      if negb (status_is status ZIPC_OK) then mret (status, None)
      else zipc_linux_common_ring_pop ring
  | ZIPC_TRANSPORT_SMC, HandleSecure _ _ _ | ZIPC_TRANSPORT_FFA, HandleSecure _ _ _ =>
      response ← env_get (os_response_load (pt_self t));
      match response with
      | None => mret (ZIPC_ERR_TRANSPORT, None)
      | Some message =>
          os_do (os_response_store (pt_self t) None);; mret (ZIPC_OK, Some message)
      end
  | ZIPC_TRANSPORT_UNIX_DGRAM, HandleFd fd =>
      r ← env_call (os_recv fd); mret (whole_message r)
  | _, _ => mret (ZIPC_ERR_INVALID_ARGUMENT, None)
  end.

(** ** Claim before commit *)
Definition set_pending (x : bool) (token : zipc_transport_receive_token_t) :=
  {| token with rt_pending := x |}.
Definition token_for (t : zipc_platform_transport_t) : zipc_transport_receive_token_t :=
  {| zero_receive_token with rt_transport_cookie := pt_self t |}.
(** The token of a peeked position. *)
Definition peeked (t : zipc_platform_transport_t)
    (r : zipc_status_t * option (zipc_message_t * Z))
    : zipc_status_t * zipc_message_t * zipc_transport_receive_token_t :=
  match r with
  | (status, Some (message, position)) =>
      (status, message, ZipcToken position (pt_self t) true true)
  | (status, None) => (status, zero_message, token_for t)
  end.
Definition zipc_platform_transport_receive_begin (fuel : nat) (t : zipc_platform_transport_t)
    : prog (world E) (zipc_status_t * zipc_message_t * zipc_transport_receive_token_t) :=
  match pt_type t, pt_handle t with
  | ZIPC_TRANSPORT_SHM_RING_EVENTFD, HandleRingEventfd ring _ event_fd =>
      r ← eventfd_loop fuel event_fd (zipc_linux_common_ring_peek ring); mret (peeked t r)
  | ZIPC_TRANSPORT_SHM_RING_POLLING, HandleRingPolling ring _ timeout_ns =>
      r ← polling_loop fuel timeout_ns (zipc_linux_common_ring_peek ring); mret (peeked t r)
  | _, _ =>
      '(status, message) ← zipc_platform_transport_receive fuel t;
      mret (status, default zero_message message,
            set_pending (status_is status ZIPC_OK) (token_for t))
  end.

(** The result holds the token as the call leaves it. *)
Definition zipc_platform_transport_receive_commit (t : zipc_platform_transport_t)
    (token : zipc_transport_receive_token_t)
    : prog (world E) (zipc_status_t * zipc_transport_receive_token_t) :=
  if negb (rt_pending token) || negb (rt_transport_cookie token =? pt_self t)
  then mret (ZIPC_ERR_INVALID_ARGUMENT, token)
  else
  status ←
    (if rt_transactional token then
       match pt_type t, pt_handle t with
       | ZIPC_TRANSPORT_SHM_RING_EVENTFD, HandleRingEventfd ring _ _
       | ZIPC_TRANSPORT_SHM_RING_POLLING, HandleRingPolling ring _ _ =>
           zipc_linux_common_ring_commit ring (u32 (rt_position token))
       | _, _ => mret ZIPC_ERR_INVALID_ARGUMENT
       end
     else mret ZIPC_OK);
  mret (status, if status_is status ZIPC_OK then set_pending false token else token).

Definition zipc_platform_transport_receive_abort (t : zipc_platform_transport_t)
    (token : zipc_transport_receive_token_t) : zipc_transport_receive_token_t :=
  if rt_transport_cookie token =? pt_self t then set_pending false token else token.
End transport.

(** ** The interface of Link.v *)
#[export] Instance linux_transport (fuel : nat) {E} `{Platform E} `{LinuxOs E}
    : Transport E zipc_platform_transport_t := {|
  Link.zipc_platform_transport_open := zipc_platform_transport_open;
  Link.zipc_platform_transport_close := zipc_platform_transport_close;
  Link.zipc_platform_transport_send := zipc_platform_transport_send fuel;
  Link.zipc_platform_transport_receive_begin := zipc_platform_transport_receive_begin fuel;
  Link.zipc_platform_transport_receive_commit := zipc_platform_transport_receive_commit |}.
