(* ===== verification/LinkSpec.v ===== *)
(** * Links: theorems

    What a link promises over a transport that keeps a queue of messages:
    a send moves the buffer into transfer and announces it, or leaves the
    sender its buffer; a receive delivers the oldest announcement that is
    still valid.  The transport is an interface, [TransportLaws], that the
    shared-ring transports of LinuxTransport.v satisfy. *)
From S2P Require Import Prelude Types Packing Visited Prog Store Identity Slot SlotRun.
From S2P Require Import SlotSpec Recovery Ring RingSpec Buffer BufferSpec Link.

(** ** The transport contract *)

(** A transport call touches only its own queue and the platform. *)
Record io_only {E} (w w' : world E) : Prop := {
  io_headers : w_headers w' = w_headers w;
  io_components : w_components w' = w_components w;
  io_controls : w_controls w' = w_controls w;
  io_buffers : w_buffers w' = w_buffers w;
  io_generators : w_generators w' = w_generators w;
  io_hook : w_trace_hook w' = w_trace_hook w;
  io_payload : w_payload w' = w_payload w;
  io_spurious : w_spurious w' = w_spurious w }.

(** An announcement already queued is not queued twice. *)
Definition enqueue (m : zipc_message_t) (q : list zipc_message_t) : list zipc_message_t :=
  if holds m q then q else q ++ [m].

Definition published (status : zipc_status_t) : bool :=
  status_is status ZIPC_OK || status_is status ZIPC_ERR_TRANSPORT_PUBLISHED.

Class TransportLaws (E T : Type) `{Transport E T} := {
  (** The messages transport [t] holds, oldest first. *)
  transport_queue : T → world E → list zipc_message_t → Prop;
  (** [token] stands for the oldest message. *)
  transport_token : T → zipc_transport_receive_token_t → world E → Prop;
  transport_queue_frame t w w' q :
    w_rings w' = w_rings w → transport_queue t w q → transport_queue t w' q;
  transport_token_frame t token w w' :
    w_rings w' = w_rings w → transport_token t token w → transport_token t token w';
  (** OK and PUBLISHED mean that the message is queued, any other status that
      it is not. *)
  transport_send_law t m q w :
    transport_queue t w q →
    wp (zipc_platform_transport_send t m)
      (λ r w', io_only w w' ∧
         transport_queue t w' (if published r then enqueue m q else q)) w;
  (** Peeking shows the oldest message and keeps it. *)
  transport_begin_law t m q w :
    transport_queue t w (m :: q) →
    wp (zipc_platform_transport_receive_begin t)
      (λ r w', io_only w w' ∧ transport_queue t w' (m :: q) ∧
         r.1 = (ZIPC_OK, m) ∧ transport_token t r.2 w') w;
  (** Committing consumes it. *)
  transport_commit_law t token m q w :
    transport_queue t w (m :: q) → transport_token t token w →
    wp (zipc_platform_transport_receive_commit t token)
      (λ r w', io_only w w' ∧ transport_queue t w' q ∧ r.1 = ZIPC_OK) w }.

Section spec.
Context {E T : Type} `{Platform E} `{TransportLaws E T}.
Implicit Type w : world E.
Implicit Type link : zipc_link_t T.

(** ** Slots in transfer *)
Lemma abs_transfer s o e d l b token :
  abs_slot s = SlotView (InTransfer o e d l b) token →
  s_state s = ZIPC_SLOT_TRANSFER ∧ s_owner_id s = o ∧ s_owner_epoch s = e ∧
  s_next_owner_id s = d ∧ s_transfer_link_id s = l ∧ info_of s = b ∧ s_claim_token s = token.
Proof. unfold abs_slot. intros Ha. destruct (s_state s); by simplify_eq/=. Qed.
Lemma abs_owned s o e b token :
  abs_slot s = SlotView (Owned o e b) token →
  s_state s = ZIPC_SLOT_OWNED ∧ s_owner_id s = o ∧ s_owner_epoch s = e ∧
  info_of s = b ∧ s_claim_token s = token.
Proof. unfold abs_slot. intros Ha. destruct (s_state s); by simplify_eq/=. Qed.

(** ** Rolling a transfer back *)

(** The slot after the rollback of transfer [seq]; re-enabling the mapping
    returned [prot]. *)
Definition rolled_back (link : zipc_link_t T) (seq : Z) (prot : zipc_status_t)
    (s : zipc_slot_control_t) : zipc_slot_control_t :=
  let claimed :=
    undo_transfer (l_local_component link) seq
      (set_state ZIPC_SLOT_CLAIMING
        (set_token (claim_token_make ZIPC_CLAIM_ROLLBACK (l_local_component link)
                      (l_local_epoch link)) (remember_previous seq s))) in
  if status_is prot ZIPC_OK then set_token 0 (set_state ZIPC_SLOT_OWNED claimed) else claimed.

Lemma wp_rollback_transfer link pool hd a b i s m Q w :
  l_pool link = pool → w_headers w !! p_header pool = Some hd →
  w_buffers w !! a = Some b → b_control b = Some (slot_key pool i) → b_slot_id b = i →
  w_controls w !! slot_key pool i = Some s →
  s_state s = ZIPC_SLOT_TRANSFER → s_claim_token s = 0 →
  s_generation s = zipc_handle_generation (m_handle m) →
  s_owner_id s = l_local_component link → s_next_owner_id s = l_remote_component link →
  s_transfer_sequence s = m_transfer_sequence m →
  let prot := protect_result pool hd i true (w_env w) in
  Q prot.1 (put_slot (slot_key pool i) (rolled_back link (m_transfer_sequence m) prot.1 s)
             (put_env prot.2 w)) →
  wp (rollback_transfer link a m) Q w.
Proof.
  intros Hpool Hh Hb Hk Hi Hs Hst Htok Hg Ho Hn Hseq prot HQ. unfold rollback_transfer.
  apply wp_bind. eapply wp_buffer_read; [exact Hb|]. rewrite Hk, Hpool, Hi.
  apply wp_bind. eapply wp_slot_read; [exact Hs|]. rewrite Hst. status_eval.
  apply wp_bind. eapply wp_slot_write; [exact Hs|]. intros s1 Hs1.
  apply wp_bind. eapply wp_cas_token; [apply lookup_insert_eq| |intros Hne; by subst s1].
  intros s2 Hs2 _. rewrite put_slot_twice. psimpl.
  apply wp_bind. eapply wp_cas_state; [apply lookup_insert_eq| |intros Hne; by subst s1 s2].
  intros s3 Hs3 _. rewrite put_slot_twice. psimpl.
  apply wp_bind. eapply wp_slot_read; [apply lookup_insert_eq|].
  apply wp_bind. eapply wp_slot_read; [apply lookup_insert_eq|].
  assert ((s_generation s3 =? zipc_handle_generation (m_handle m))
          && (s_owner_id s3 =? l_local_component link)
          && (s_next_owner_id s3 =? l_remote_component link)
          && (s_transfer_sequence s3 =? m_transfer_sequence m) = true) as ->.
  { subst s3 s2 s1. cbn. by rewrite Hg, Ho, Hn, Hseq, !Z.eqb_refl. }
  psimpl. apply wp_bind. eapply wp_slot_write; [apply lookup_insert_eq|]. intros s4 Hs4.
  rewrite put_slot_twice. apply wp_bind. eapply wp_protect_slot; [exact Hh|reflexivity|].
  change (w_env (put_slot _ _ w)) with (w_env w). fold prot.
  unfold rolled_back in HQ. subst s1 s2 s3. destruct (status_is prot.1 ZIPC_OK) eqn:Hp; psimpl.
  - apply bool_decide_eq_true in Hp. apply wp_bind.
    eapply wp_publish_state; [apply lookup_insert_eq|by subst s4|]. intros s5 ->. apply wp_ret.
    rewrite Hp in HQ. unfold put_slot, put_env in *. simpl in *. rewrite insert_insert_eq.
    by subst s4.
  - apply wp_ret. by subst s4.
Qed.

(** ** Sending *)
Lemma wp_link_fresh link cs Q w :
  zipc_component_id_valid (l_local_component link) = true →
  w_components w !! (p_header (l_pool link), l_local_component link) = Some cs →
  l_local_epoch link = live_epoch (c_lifecycle cs) →
  Q false w → wp (link_stale link) Q w.
Proof.
  intros Hv Hc He HQ. unfold link_stale. destruct (Z.eqb_spec (l_local_epoch link) 0) as [|Hne].
  { by apply wp_ret. }
  unfold component_epoch_current. rewrite Hv, (proj2 (Z.eqb_neq _ _) Hne). psimpl.
  apply wp_bind, wp_bind. eapply wp_component_read; [exact Hc|]. apply wp_ret.
  unfold live_epoch in He. destruct (_ =? ZIPC_COMPONENT_INACTIVE) eqn:Hi; [done|].
  rewrite He, Z.eqb_refl. by apply wp_ret.
Qed.

(** A send of the contract succeeds or leaves the slot as it was. *)
Lemma spec_send_cases now prot g c epoch next l v o e b :
  sv_owner v = Owned o e b →
  let oc := spec_send now prot g c epoch next l v in
  (o_status oc = ZIPC_OK ∧ o_error oc = false ∧
   o_view oc = SlotView (InTransfer o e next l (next_sequence b)) 0 ∧
   o = c ∧ e = epoch ∧ bi_generation b = g ∧ sv_token v = 0) ∨
  (o_status oc ≠ ZIPC_OK ∧ o_view oc = v).
Proof.
  intros Hv. unfold spec_send. rewrite Hv.
  repeat case_match; bool_to_prop; simpl; auto.
  - right. split; [|done]. intros ->. done.
  - left. split_and!; done.
Qed.

(** The parts of a world a link operation on slot [i] leaves alone. *)
Definition link_effect (pool : zipc_pool_t) (hd : zipc_pool_header_t) (i : Z)
    (s' : zipc_slot_control_t) w w' : Prop :=
  w_controls w' = <[slot_key pool i := s']> (w_controls w) ∧
  (∃ error, w_headers w' = <[p_header pool := counted error hd]> (w_headers w)) ∧
  w_components w' = w_components w ∧ w_generators w' = w_generators w ∧
  w_payload w' = w_payload w ∧ w_trace_hook w' = w_trace_hook w ∧
  w_spurious w' = w_spurious w.

(** What a sender of buffer [a] over [link] must hold. *)
Record can_send link (a : Z) (b : zipc_buffer_impl_t) (s : zipc_slot_control_t)
    (pool : zipc_pool_t) (hd : zipc_pool_header_t) w : Prop := {
  cs_view : owned_view a b (slot_key pool (b_slot_id b)) s pool w;
  cs_attached : attached pool hd w;
  cs_slot : b_slot_id b = zipc_handle_slot_id (b_handle b);
  cs_range : b_slot_id b < h_slot_count hd;
  cs_ok : slot_ok (h_slot_capacity hd) s;
  cs_pool : l_pool link = pool;
  cs_owner : b_owner b = l_local_component link;
  cs_epoch : b_owner_epoch b = l_local_epoch link;
  cs_remote : zipc_component_id_valid (l_remote_component link) = true }.

(** The announcement of the next transfer of a slot. *)
Definition announcement link (b : zipc_buffer_impl_t) (s : zipc_slot_control_t) : zipc_message_t :=
  ZipcMessage (b_handle b) (p_pool_id (l_pool link)) (l_local_component link)
    (l_remote_component link) (u32 (s_transfer_sequence s + 1)) 0.

(** What the transport may answer to [m] with the rings of [w]. *)
Definition transport_answers link (m : zipc_message_t) w (r : zipc_status_t) : Prop :=
  ∃ w1 w2, w_rings w1 = w_rings w ∧
    run (zipc_platform_transport_send (l_transport link) m) w1 = Some (r, w2).
(** The slot contract refuses the transfer: stale, late, out of hops, or a
    mapping that cannot be revoked. *)
Definition transfer_refused link (b : zipc_buffer_impl_t) (s : zipc_slot_control_t)
    (hd : zipc_pool_header_t) (r : zipc_status_t) : Prop :=
  ∃ now e, r = o_status (spec_send now (protect_result (l_pool link) hd (b_slot_id b) false e).1
    (zipc_handle_generation (b_handle b)) (l_local_component link) (l_local_epoch link)
    (l_remote_component link) (l_link_id link) (abs_slot s)).

Inductive send_outcome link (a : Z) (b : zipc_buffer_impl_t) (s : zipc_slot_control_t)
    (hd : zipc_pool_header_t) (q : list zipc_message_t) w
    (s' : zipc_slot_control_t) : zipc_status_t → world E → Prop :=
| send_done r w' :
    r = ZIPC_OK ∨ r = ZIPC_ERR_TRANSPORT_PUBLISHED →
    transport_answers link (announcement link b s) w r →
    abs_slot s' = SlotView (InTransfer (l_local_component link) (l_local_epoch link)
      (l_remote_component link) (l_link_id link) (next_sequence (info_of s))) 0 →
    w_buffers w' = <[a := zero_buffer]> (w_buffers w) →
    transport_queue (l_transport link) w' (enqueue (announcement link b s) q) →
    send_outcome link a b s hd q w s' r w'
| send_kept r w' :
    r ≠ ZIPC_OK →
    transport_answers link (announcement link b s) w r ∨ transfer_refused link b s hd r →
    abs_slot s' = abs_slot s → w_buffers w' = w_buffers w →
    transport_queue (l_transport link) w' q →
    send_outcome link a b s hd q w s' r w'
| send_stuck r w' e answer :
    transport_answers link (announcement link b s) w answer → published answer = false →
    r ≠ ZIPC_OK → r = (protect_result (l_pool link) hd (b_slot_id b) true e).1 →
    abs_slot s' = SlotView (Busy (s_generation s))
      (claim_token_make ZIPC_CLAIM_ROLLBACK (l_local_component link) (l_local_epoch link)) →
    w_buffers w' = <[a := zero_buffer]> (w_buffers w) →
    transport_queue (l_transport link) w' q →
    send_outcome link a b s hd q w s' r w'.

(** A send that returned OK announced the buffer. *)
Lemma send_ok_queue link a b s hd q w s' w' :
  send_outcome link a b s hd q w s' ZIPC_OK w' →
  transport_queue (l_transport link) w' (enqueue (announcement link b s) q).
Proof. by inversion 1. Qed.

Lemma u32_pred_succ x : in_u32 x → u32 (u32 (x + 1) - 1) = x.
Proof. intros Hx. unfold in_u32 in Hx. zlia. Qed.

(** A transfer rolled back leaves the sender's slot as before the send; when
    the mapping cannot be enabled again the slot stays claimed. *)
Lemma rolled_back_view link s s1 prot :
  abs_slot s = SlotView (Owned (l_local_component link) (l_local_epoch link) (info_of s)) 0 →
  abs_slot s1 = SlotView (InTransfer (l_local_component link) (l_local_epoch link)
    (l_remote_component link) (l_link_id link) (next_sequence (info_of s))) 0 →
  in_u32 (s_transfer_sequence s) →
  let s2 := rolled_back link (u32 (s_transfer_sequence s + 1)) prot s1 in
  abs_slot s2 = (if status_is prot ZIPC_OK then abs_slot s
                 else SlotView (Busy (s_generation s))
                        (claim_token_make ZIPC_CLAIM_ROLLBACK (l_local_component link)
                           (l_local_epoch link))) ∧
  (∀ capacity, slot_ok capacity s1 → slot_ok capacity s2).
Proof.
  intros Hs (Hst & Ho & He & Hd & Hl & Hi & Htok)%abs_transfer Hseq s2. split.
  - rewrite Hs. unfold s2, rolled_back, undo_transfer, remember_previous. injection Hi as ????????.
    destruct (status_is prot ZIPC_OK); unfold abs_slot, info_of in *; simpl; [|congruence].
    rewrite u32_pred_succ by done. congruence.
  - intros capacity [[] Has]. rewrite Hst in Has. destruct Has as [[] _].
    unfold s2, rolled_back, undo_transfer, remember_previous.
    destruct (status_is prot ZIPC_OK); (split; [split|]); simpl; auto with zipc.
    split; simpl; rewrite <- ?Ho; done.
Qed.

(** The parts of an [io_only] step after a slot step. *)
Lemma link_effect_io pool hd i s' hd' w w1 w2 :
  slot_effect pool i s' hd' w w1 → (∃ error, hd' = counted error hd) → io_only w1 w2 →
  link_effect pool hd i s' w w2.
Proof.
  intros (Hc & Hh & Hrest) [error ->] Hio. destruct Hrest, Hio. unfold link_effect.
  split_and!; try congruence. exists error. congruence.
Qed.

(** The slot of a prepared announcement. *)
Record prepared link (b : zipc_buffer_impl_t) (i : Z) (s s1 : zipc_slot_control_t)
    (pool : zipc_pool_t) (hd : zipc_pool_header_t) : Prop := {
  pre_pool : l_pool link = pool;
  pre_control : b_control b = Some (slot_key pool i);
  pre_slot : b_slot_id b = i;
  pre_before : abs_slot s = SlotView (Owned (l_local_component link) (l_local_epoch link) (info_of s)) 0;
  pre_after : abs_slot s1 = SlotView (InTransfer (l_local_component link) (l_local_epoch link)
    (l_remote_component link) (l_link_id link) (next_sequence (info_of s))) 0;
  pre_generation : s_generation s = zipc_handle_generation (b_handle b);
  pre_sequence : in_u32 (s_transfer_sequence s);
  pre_ok : slot_ok (h_slot_capacity hd) s1 }.

(** The record of a failed call reads only the clock. *)
Lemma wp_abandon pool h sq c a (r : zipc_status_t) (Q : zipc_status_t → world E → Prop) w :
  a ≠ 0 → is_Some (w_buffers w !! a) →
  (∀ w', w_controls w' = w_controls w → w_headers w' = w_headers w →
     w_components w' = w_components w → w_generators w' = w_generators w →
     w_payload w' = w_payload w → w_trace_hook w' = w_trace_hook w → w_rings w' = w_rings w →
     w_spurious w' = w_spurious w → w_buffers w' = <[a := zero_buffer]> (w_buffers w) → Q r w') →
  wp (trace_external_event pool h sq c ZIPC_TRACE_ERROR;; buffer_invalidate a;; mret r) Q w.
Proof.
  intros Ha Hb HQ. apply wp_bind, wp_trace_external_event. apply wp_bind.
  apply wp_buffer_invalidate; [done|done|]. apply wp_ret, HQ; done.
Qed.

Lemma wp_send_announced link a b i s s1 pool hd q w w1 :
  prepared link b i s s1 pool hd → a ≠ 0 → w_buffers w !! a = Some b →
  w_headers w !! p_header pool = Some hd → slot_effect pool i s1 hd w w1 →
  w_buffers w1 = w_buffers w → transport_queue (l_transport link) w1 q →
  wp (send_announced link a (announcement link b s))
    (λ r w', ∃ s', link_effect pool hd i s' w w' ∧
       slot_ok (h_slot_capacity hd) s' ∧ send_outcome link a b s hd q w s' r w') w1.
Proof.
  intros [Hpool Hk Hi Hs Hs1 Hg Hseq Hok] Ha Hb Hh Heff Hbuf Hq.
  pose proof Heff as (Hctl & Hhdr & Hrest). unfold send_announced. apply wp_bind.
  eapply wp_mono; [by apply wp_run_eq, transport_send_law|]. intros r w2 [[Hio Hq2] Hrun].
  assert (Hans : transport_answers link (announcement link b s) w r)
    by (exists w1, w2; split; [apply Hrest|done]).
  assert (Hle := λ w', link_effect_io pool hd i s1 hd w w1 w' Heff (ex_intro _ false eq_refl)).
  pose proof (Hle _ Hio) as (Hc2 & Hh2 & Hcomp2 & Hg2 & Hp2 & Hk2 & Hsp2).
  assert (Hb2 : w_buffers w2 = w_buffers w) by (rewrite (io_buffers _ _ Hio); done).
  unfold published in Hq2. destruct (status_is r ZIPC_ERR_TRANSPORT_PUBLISHED) eqn:Hr1.
  { rewrite orb_true_r in Hq2. apply bool_decide_eq_true in Hr1. subst r.
    apply wp_abandon; [done|rewrite Hb2; by eexists|]. intros w' E1 E2 E3 E4 E5 E6 E7 E9 E8.
    exists s1. split; [|split; [done|]].
    - unfold link_effect. rewrite E1, E2, E3, E4, E5, E6, E9. done.
    - eapply send_done; [by right|done|done|by rewrite E8, Hb2|].
      by eapply transport_queue_frame, Hq2. }
  rewrite orb_false_r in Hq2. destruct (status_is r ZIPC_OK) eqn:Hr2; psimpl.
  { apply bool_decide_eq_true in Hr2. subst r. apply wp_bind, wp_buffer_invalidate;
      [done|rewrite Hb2; by eexists|]. apply wp_ret. exists s1. split; [done|split; [done|]].
    eapply send_done; [by left|done|done|by rewrite <- Hb2|by eapply transport_queue_frame, Hq2]. }
  assert (Hpub : published r = false) by (unfold published; by rewrite Hr1, Hr2).
  apply bool_decide_eq_false in Hr2.
  pose proof Hs1 as (S1 & S2 & S3 & S4 & S5 & S6 & S7)%abs_transfer.
  assert (Hh1 : w_headers w2 !! p_header pool = Some hd).
  { rewrite (io_headers _ _ Hio), Hhdr. apply lookup_insert_eq. }
  apply wp_bind. eapply (wp_rollback_transfer link pool hd a b i s1); try done.
  { by rewrite Hb2. }
  { rewrite (io_controls _ _ Hio), Hctl. apply lookup_insert_eq. }
  { injection S6 as ????????. cbn. congruence. }
  { injection S6 as ????????. done. }
  set (prot := protect_result pool hd i true (w_env w2)).
  destruct (rolled_back_view link s s1 prot.1 Hs Hs1 Hseq) as [Hview Hok2].
  change (m_transfer_sequence (announcement link b s)) with (u32 (s_transfer_sequence s + 1)).
  set (s2 := rolled_back link (u32 (s_transfer_sequence s + 1)) prot.1 s1) in *.
  assert (Hle2 : link_effect pool hd i s2 w (put_slot (slot_key pool i) s2 (put_env prot.2 w2))).
  { unfold link_effect. split_and!; try done. cbn. by rewrite Hc2, insert_insert_eq. }
  destruct (status_is prot.1 ZIPC_OK) eqn:Hprot; psimpl.
  - apply wp_ret. exists s2. split; [done|split; [by apply Hok2|]].
    eapply send_kept; [done|by left|done|done|by eapply transport_queue_frame, Hq2].
  - rewrite Hpool. apply bool_decide_eq_false in Hprot.
    apply wp_abandon; [done|cbn; rewrite Hb2; by eexists|]. intros w' E1 E2 E3 E4 E5 E6 E7 E9 E8.
    exists s2. split; [|split; [by apply Hok2|]].
    + unfold link_effect in *. by rewrite E1, E2, E3, E4, E5, E6, E9.
    + eapply (send_stuck _ _ _ _ _ _ _ _ _ _ (w_env w2) r); [done|done|done|by rewrite Hpool, Hi|done|..].
      * rewrite E8. cbn. by rewrite Hb2.
      * by eapply transport_queue_frame, Hq2.
Qed.

Lemma wp_send link a b s pool hd q w :
  can_send link a b s pool hd w → transport_queue (l_transport link) w q →
  wp (zipc_send (Some link) a)
    (λ r w', ∃ s', link_effect pool hd (b_slot_id b) s' w w' ∧
       slot_ok (h_slot_capacity hd) s' ∧ send_outcome link a b s hd q w s' r w') w.
Proof.
  intros [Hov Hat Hi Hrange Hok Hpool Howner Hepoch Hremote] Hq.
  pose proof Hov as [Ha Hb Hl Hk Hp Hs Hst Hg Ho Hv He (cs & Hc & Hlive) _ _ _ _].
  assert (Hfresh : l_local_epoch link = live_epoch (c_lifecycle cs)) by congruence.
  rewrite Howner in *. unfold zipc_send. rewrite (proj2 (Z.eqb_neq a 0) Ha).
  apply wp_bind. eapply wp_buffer_owned; [exact Hov|]. psimpl.
  apply wp_bind. eapply wp_link_fresh; [done|by rewrite Hpool|done|].
  apply wp_bind. eapply wp_buffer_read; [exact Hb|]. rewrite Hepoch, Z.eqb_refl. psimpl.
  assert (foreign_buffer link b = false) as ->.
  { unfold foreign_buffer, same_pool. by rewrite Hp, Hpool, Howner, !Z.eqb_refl. }
  apply wp_bind. rewrite Hpool, Hi in *.
  eapply wp_mono; [by eapply (wp_prepare_transfer pool hd s cs)|]. cbv zeta.
  assert (Hsv : sv_owner (abs_slot s) = Owned (l_local_component link) (l_local_epoch link) (info_of s)).
  { unfold abs_slot. rewrite Hst. simpl. congruence. }
  match goal with |- context [spec_send ?n ?p ?g ?c ?e ?nx ?l ?v] =>
    pose proof (spec_send_cases n p g c e nx l v _ _ _ Hsv) as Hcases;
    assert (Hwhy : transfer_refused link b s hd (o_status (spec_send n p g c e nx l v)));
    [|set (oc := spec_send n p g c e nx l v) in *; clearbody oc]
  end.
  { unfold transfer_refused. eexists _, _. rewrite Hpool, Hi, Hfresh. reflexivity. }
  intros [st m] w1 ((s1 & Heff & Hst1 & Habs & Hok1) & Hbuf & Hm & _). cbn [fst snd] in *.
  pose proof Heff as (Hctl & Hhdr & Hrest).
  assert (Hq1 : transport_queue (l_transport link) w1 q).
  { eapply transport_queue_frame, Hq. apply Hrest. }
  assert (Hcap : h_slot_capacity (counted (o_error oc) hd) = h_slot_capacity hd)
    by by destruct (o_error oc).
  rewrite Hcap in Hok1.
  destruct Hcases as [(HoS & HoE & HoV & _ & _ & HoG & HoT)|(HoS & HoV)].
  - rewrite Hst1, HoS in *. rewrite HoE in *. status_eval. rewrite Hm, <- Hpool.
    eapply (wp_send_announced link a b); try done; [|by rewrite Hpool; apply Hat|by rewrite Hpool].
    split; try done; try congruence; [|apply Hok|by apply Hok1].
    destruct (abs_slot s) as [o t]. simpl in *. congruence.
  - rewrite Hst1. assert (status_is (o_status oc) ZIPC_OK = false) as ->
      by by apply bool_decide_eq_false. psimpl. apply wp_ret.
    exists s1. split; [|split; [by apply Hok1|]].
    + eapply link_effect_io; [done|by eexists|]. done.
    + eapply send_kept; [done|by right|congruence|done|done].
Qed.

(** ** Receiving *)

(** Every slot of the pool is well formed and seen as [views] says. *)
Record pool_views (pool : zipc_pool_t) (hd : zipc_pool_header_t) (views : Z → slot_view) w
    : Prop := {
  pv_attached : attached pool hd w;
  pv_capacity : in_u32 (h_slot_capacity hd);
  pv_slots i : 0 <= i < h_slot_count hd → ∃ s, w_controls w !! slot_key pool i = Some s ∧
    abs_slot s = views i ∧ slot_ok (h_slot_capacity hd) s }.

(** The receiver's end of a link that is not stale. *)
Record receiver_ready link (pool : zipc_pool_t) (cs : zipc_component_status_t) w : Prop := {
  rr_pool : l_pool link = pool;
  rr_local : zipc_component_id_valid (l_local_component link) = true;
  rr_component : w_components w !! (p_header pool, l_local_component link) = Some cs;
  rr_epoch : l_local_epoch link = live_epoch (c_lifecycle cs) }.

(** A message addressed to this end of the link, for a slot of the pool. *)
Record for_link link (hd : zipc_pool_header_t) (m : zipc_message_t) : Prop := {
  fl_source : m_source_component m = l_remote_component link;
  fl_destination : m_destination_component m = l_local_component link;
  fl_pool : m_pool_id m = p_pool_id (l_pool link);
  fl_range : zipc_handle_slot_id (m_handle m) < h_slot_count hd }.

Definition claim_slot (m : zipc_message_t) : Z := zipc_handle_slot_id (m_handle m).

(** The outcomes of a claim that the receive loop skips. *)
Definition skipped (status : zipc_status_t) : bool :=
  status_is status ZIPC_ERR_INVALID_STATE || status_is status ZIPC_ERR_STALE_HANDLE
  || status_is status ZIPC_ERR_SEQUENCE_MISMATCH.

(** The state of a receive in which slot [i] became [s']. *)
Definition received (pool : zipc_pool_t) (hd : zipc_pool_header_t) (i : Z)
    (s' : zipc_slot_control_t) link (q : list zipc_message_t) w w' : Prop :=
  link_effect pool hd i s' w w' ∧ slot_ok (h_slot_capacity hd) s' ∧
  transport_queue (l_transport link) w' q.

Lemma slot_id_nonneg handle : 0 <= zipc_handle_slot_id handle.
Proof. rewrite zipc_handle_slot_id_mod. by apply Z.mod_pos_bound. Qed.
Lemma counted_geometry error hd :
  h_slot_count (counted error hd) = h_slot_count hd ∧
  h_slot_capacity (counted error hd) = h_slot_capacity hd ∧
  h_slot_stride (counted error hd) = h_slot_stride hd.
Proof. by destruct error. Qed.

(** The commit after a claim: only the queue and the caller's view change. *)
Lemma wp_recv_claimed link a token m q status Q w :
  transport_queue (l_transport link) w (m :: q) → transport_token (l_transport link) token w →
  a ≠ 0 → (∃ b, w_buffers w !! a = Some b ∧
             (status = ZIPC_OK → b_owner b = l_local_component link)) →
  (∀ w', w_controls w' = w_controls w → w_headers w' = w_headers w →
     w_components w' = w_components w → w_generators w' = w_generators w →
     w_payload w' = w_payload w → w_trace_hook w' = w_trace_hook w →
     w_spurious w' = w_spurious w → transport_queue (l_transport link) w' q →
     (if status_is status ZIPC_OK then w_buffers w' = w_buffers w
      else is_Some (w_buffers w' !! a)) →
     Q (if status_is status ZIPC_OK then Some ZIPC_OK
        else if skipped status then None else Some status) w') →
  wp (recv_claimed link a token status) Q w.
Proof.
  intros Hq Htok Ha (b & Hb & Hown) HQ. unfold recv_claimed.
  destruct (status_is status ZIPC_OK) eqn:Hst.
  - apply bool_decide_eq_true in Hst. apply wp_bind.
    eapply wp_mono; [by eapply transport_commit_law|].
    intros [r tok] w1 ([] & Hq1 & Hr). simpl in Hr. subst r. status_eval.
    apply wp_bind. eapply wp_buffer_read; [by rewrite io_buffers0|].
    apply wp_bind, wp_buffer_write; [by rewrite io_buffers0; eexists|]. apply wp_ret, HQ; try done.
    + by eapply transport_queue_frame, Hq1.
    + cbn. rewrite io_buffers0. apply insert_id. rewrite Hb. f_equal. destruct b. simpl in *.
      by rewrite Hown.
  - apply wp_bind. eapply wp_mono; [by eapply transport_commit_law|].
    intros [r tok] w1 ([] & Hq1 & Hr). fold (skipped status). destruct (skipped status).
    + apply wp_bind, wp_buffer_invalidate; [done|by rewrite io_buffers0; eexists|].
      apply wp_ret, HQ; try done; [by eapply transport_queue_frame, Hq1|].
      cbn. rewrite lookup_insert_eq. by eexists.
    + apply wp_ret, HQ; try done. by rewrite io_buffers0; eexists.
Qed.

Lemma attached_io pool hd w w' : io_only w w' → attached pool hd w → attached pool hd w'.
Proof.
  intros [I1 I2 I3 _ _ _ _ _] [A1 A2 A3 A4]. split.
  - by rewrite I1.
  - done.
  - intros i Hi. rewrite I3. by apply A3.
  - intros c Hc. rewrite I2. by apply A4.
Qed.

Lemma wp_recv_turn link pool hd cs a m s q w :
  receiver_ready link pool cs w → attached pool hd w → for_link link hd m →
  w_controls w !! slot_key pool (claim_slot m) = Some s → slot_ok (h_slot_capacity hd) s →
  a ≠ 0 → is_Some (w_buffers w !! a) → transport_queue (l_transport link) w (m :: q) →
  wp (recv_turn link a)
    (λ r w', ∃ s' now e,
       let prot := (protect_result pool hd (claim_slot m) true e).1 in
       let o := spec_claim now prot (h_slot_capacity hd) m (l_local_component link)
                  (l_local_epoch link) (abs_slot s) in
       received pool hd (claim_slot m) s' link q w w' ∧ abs_slot s' = o_view o ∧
       if status_is (o_status o) ZIPC_OK
       then r = Some ZIPC_OK ∧
            w_buffers w' = <[a := view_of pool hd (claim_slot m) (m_handle m)
              (take_ownership (l_local_component link) (l_local_epoch link) now s)]> (w_buffers w)
       else (r = if skipped (o_status o) then None else Some (o_status o)) ∧
            is_Some (w_buffers w' !! a)) w.
Proof.
  intros [Hpool Hv Hc He] Hat [Hsrc Hdst Hpid Hrange] Hs Hok Ha Hb Hq. subst pool.
  unfold recv_turn. apply wp_bind. eapply wp_mono; [by apply transport_begin_law|].
  intros [[st x] tok] w1 (Hio & Hq1 & Hr & Htok). simpl in Hr, Htok. simplify_eq/=. status_eval.
  rewrite Hsrc, Z.eqb_refl. psimpl. apply wp_bind.
  pose proof (attached_io _ _ _ _ Hio Hat) as Hat1. pose proof Hio as [I1 I2 I3 I4 I5 I6 I7 I8].
  rewrite <- I2 in Hc. rewrite <- I3 in Hs. rewrite <- I4 in Hb.
  eapply wp_mono; [exact (wp_claim _ hd s cs m _ a w1 Hat1 Hrange Hs Hc Hv Ha Hb Hok Hpid Hdst)|].
  cbv zeta. rewrite <- He. set (now := (zipc_platform_time_ns (w_env w1)).1).
  set (e := (zipc_platform_time_ns (w_env w1)).2). fold (claim_slot m).
  set (prot := (protect_result (l_pool link) hd (claim_slot m) true e).1).
  set (o := spec_claim now prot (h_slot_capacity hd) m (l_local_component link)
              (l_local_epoch link) (abs_slot s)).
  intros r w2 ((s' & Heff & -> & Habs & Hok') & _ & Hbuf).
  rewrite (proj1 (proj2 (counted_geometry _ hd))) in Hok'.
  pose proof Heff as (Hctl2 & Hhdr2 & Hrest2). pose proof (sr_rings _ _ Hrest2) as Hrings.
  eapply (wp_recv_claimed _ _ _ m q).
  - by eapply transport_queue_frame, Hq1.
  - by eapply transport_token_frame, Htok.
  - done.
  - destruct (status_is (o_status o) ZIPC_OK) eqn:Hst; rewrite ?Hbuf.
    + eexists. split; [apply lookup_insert_eq|done].
    + destruct Hb as [b Hb].
      apply bool_decide_eq_false in Hst.
      destruct Hbuf as [->| ->]; [exists b|rewrite lookup_insert_eq; eexists]; (split; [done|by intros]).
  - intros w3 E1 E2 E3 E4 E5 E6 E7 Hq3 Hbuf3. exists s', now, e. cbv zeta. fold prot o.
    split; [|split; [done|]].
    + split; [|split; [by apply Hok'|done]]. destruct Hrest2. unfold link_effect.
      split_and!; [congruence|exists (o_error o)|congruence..]. by rewrite E2, Hhdr2, I1.
    + destruct (status_is (o_status o) ZIPC_OK); [|done]. split; [done|]. by rewrite Hbuf3, Hbuf, I4.
Qed.

(** ** Skipping announcements that no longer stand *)

(** [m] announces a transfer that is over: the slot is not in transfer, or
    carries another buffer or a later transfer. *)
Definition stale_message (v : slot_view) (receiver : Z) (m : zipc_message_t) : Prop :=
  sv_token v = 0 ∧
  match sv_owner v with
  | InTransfer o _ d _ b =>
      bi_generation b ≠ zipc_handle_generation (m_handle m) ∨
      (o = m_source_component m ∧ d = receiver ∧ bi_sequence b ≠ m_transfer_sequence m)
  | _ => True
  end.
Lemma stale_claim now prot capacity m receiver epoch v :
  stale_message v receiver m →
  let o := spec_claim now prot capacity m receiver epoch v in
  skipped (o_status o) = true ∧ status_is (o_status o) ZIPC_OK = false ∧ o_view o = v.
Proof.
  intros [Ht Hv]. destruct v as [ow t]. simpl in *. subst t. unfold spec_claim. simpl.
  destruct ow as [g|c e b|o e d l b|g]; try done. simpl.
  destruct (Z.eqb_spec (bi_generation b) (zipc_handle_generation (m_handle m))); simpl; [|done].
  destruct Hv as [|(-> & -> & Hne)]; [done|]. rewrite !Z.eqb_refl. simpl.
  by rewrite (proj2 (Z.eqb_neq _ _) Hne).
Qed.

(** Headers that differ in their counters only lay the pool out alike. *)
Definition same_geometry (hd hd' : zipc_pool_header_t) : Prop :=
  h_slot_count hd' = h_slot_count hd ∧ h_slot_capacity hd' = h_slot_capacity hd ∧
  h_slot_stride hd' = h_slot_stride hd.

Lemma attached_link_effect pool hd i s' w w' :
  attached pool hd w → link_effect pool hd i s' w w' →
  ∃ error, attached pool (counted error hd) w' ∧
    w_headers w' = <[p_header pool := counted error hd]> (w_headers w).
Proof.
  intros [A1 A2 A3 A4] (Hctl & [error Hhdr] & Hcomp & _). exists error. split; [|done].
  destruct (counted_geometry error hd) as (Gn & Gc & Gs). split; rewrite ?Gn; [|done| |].
  - rewrite Hhdr. apply lookup_insert_eq.
  - intros j Hj. rewrite Hctl. apply lookup_insert_is_Some'. right. by apply A3.
  - intros c Hc. rewrite Hcomp. by apply A4.
Qed.

(** A skipped message leaves all views as they were. *)
Lemma pool_views_keep pool hd views i s' w w' :
  pool_views pool hd views w → 0 <= i < h_slot_count hd →
  abs_slot s' = views i → slot_ok (h_slot_capacity hd) s' → link_effect pool hd i s' w w' →
  ∃ error, pool_views pool (counted error hd) views w'.
Proof.
  intros [Hat Hcap Hslots] Hi Habs Hok Heff.
  destruct (attached_link_effect _ _ _ _ _ _ Hat Heff) as (error & Hat' & _).
  pose proof Heff as (Hctl & _).
  destruct (counted_geometry error hd) as (Gn & Gc & Gs). exists error.
  split; rewrite ?Gc, ?Gn; [done|done|].
  - intros j Hj. rewrite Hctl. destruct (decide (j = i)) as [->|Hne].
    + rewrite lookup_insert_eq. eauto.
    + rewrite lookup_insert_ne by (unfold slot_key; congruence). by apply Hslots.
Qed.

(** The state after a receive decided by the announcement [m]: the claim
    happened at time [now]. *)
Definition recv_result link (pool : zipc_pool_t) (hd : zipc_pool_header_t) (views : Z → slot_view)
    (a : Z) (m : zipc_message_t) (q : list zipc_message_t) (b : buffer_info) w
    (r : zipc_status_t) w' : Prop :=
  ∃ now s', transport_queue (l_transport link) w' q ∧
    w_components w' = w_components w ∧ w_payload w' = w_payload w ∧
    (∃ hd', same_geometry hd hd' ∧ attached pool hd' w') ∧
    w_controls w' !! slot_key pool (claim_slot m) = Some s' ∧
    slot_ok (h_slot_capacity hd) s' ∧
    (∀ j, 0 <= j < h_slot_count hd → j ≠ claim_slot m →
       ∃ s, w_controls w' !! slot_key pool j = Some s ∧ abs_slot s = views j ∧
         slot_ok (h_slot_capacity hd) s) ∧
    if info_late now b
    then r = ZIPC_ERR_DEADLINE ∧ abs_slot s' = views (claim_slot m)
    else if info_exhausted b
    then r = ZIPC_ERR_HOP_LIMIT ∧ abs_slot s' = views (claim_slot m)
    else r = ZIPC_OK ∧
         abs_slot s' = SlotView (Owned (l_local_component link) (l_local_epoch link)
                                   (one_more_hop (l_local_component link) b)) 0 ∧
         ∃ v, owned_view a v (slot_key pool (claim_slot m)) s' pool w' ∧
           b_slot_id v = claim_slot m ∧ b_handle v = m_handle m ∧
           b_slot_base v = p_payload_base pool + claim_slot m * h_slot_stride hd.

(** [m] announces a transfer that stands. *)
Record announced link (hd : zipc_pool_header_t) (v : slot_view) (m : zipc_message_t)
    (b : buffer_info) : Prop := {
  an_link : for_link link hd m;
  an_view : ∃ e l, v = SlotView (InTransfer (m_source_component m) e (l_local_component link) l b) 0;
  an_generation : bi_generation b = zipc_handle_generation (m_handle m);
  an_sequence : bi_sequence b = m_transfer_sequence m }.

Lemma announced_claim link hd s m b now :
  announced link hd (abs_slot s) m b → slot_ok (h_slot_capacity hd) s →
  let o := spec_claim now ZIPC_OK (h_slot_capacity hd) m (l_local_component link)
             (l_local_epoch link) (abs_slot s) in
  o = if info_late now b then Outcome ZIPC_ERR_DEADLINE true (abs_slot s)
      else if info_exhausted b then Outcome ZIPC_ERR_HOP_LIMIT true (abs_slot s)
      else Outcome ZIPC_OK false (SlotView (Owned (l_local_component link) (l_local_epoch link)
                                  (one_more_hop (l_local_component link) b)) 0).
Proof.
  intros [_ (e & l & Hv) Hg Hq] Hok. cbv zeta. rewrite Hv. unfold spec_claim. cbn [sv_owner sv_token].
  rewrite Hg, Hq, !Z.eqb_refl. psimpl. destruct (info_late now b); [done|].
  destruct (info_exhausted b); [done|]. status_eval.
  apply abs_transfer in Hv as (Hst & _ & _ & _ & _ & <- & _).
  destruct (slot_ok_transfer _ _ Hok Hst) as [[_ _ _ (? & ? & ?)] _].
  unfold region_fits. cbn [bi_region info_of].
  rewrite (proj2 (Z.ltb_ge _ _)), (proj2 (Z.ltb_ge _ _)) by lia. done.
Qed.

(** The view written by a successful claim is a live view of the slot. *)
Lemma claimed_view link pool hd cs a m s s' b now w w' :
  receiver_ready link pool cs w → announced link hd (abs_slot s) m b →
  slot_ok (h_slot_capacity hd) s' → in_u32 (h_slot_capacity hd) → a ≠ 0 →
  abs_slot s' = SlotView (Owned (l_local_component link) (l_local_epoch link)
                  (one_more_hop (l_local_component link) b)) 0 →
  w_components w' = w_components w →
  w_controls w' !! slot_key pool (claim_slot m) = Some s' →
  w_buffers w' = <[a := view_of pool hd (claim_slot m) (m_handle m)
    (take_ownership (l_local_component link) (l_local_epoch link) now s)]> (w_buffers w) →
  owned_view a (view_of pool hd (claim_slot m) (m_handle m)
      (take_ownership (l_local_component link) (l_local_epoch link) now s))
    (slot_key pool (claim_slot m)) s' pool w'.
Proof.
  intros [Hpool Hv Hc He] [_ (e & l & Hview) Hg _] Hok Hcap Ha Habs Hcomp Hctl Hbuf.
  apply abs_transfer in Hview as (_ & _ & _ & _ & _ & Hi & _).
  apply abs_owned in Habs as (Hst & Ho & Hep & Hi' & _).
  pose proof (slot_ok_owned _ _ Hok Hst) as [_ _ _ Hreg].
  assert (Hregion : s_region s' = s_region s).
  { change (s_region s') with (bi_region (info_of s')). rewrite Hi'. by subst b. }
  assert (Hgen : s_generation s' = bi_generation b).
  { change (s_generation s') with (bi_generation (info_of s')). by rewrite Hi'. }
  split; cbn; try done; try congruence.
  - rewrite Hbuf. apply lookup_insert_eq.
  - exists cs. split; [by rewrite Hcomp|done].
Qed.

Lemma protect_counted pool error hd i rw (e : E) :
  protect_result pool (counted error hd) i rw e = protect_result pool hd i rw e.
Proof. by destruct error. Qed.
Lemma for_link_counted link error hd m : for_link link (counted error hd) m ↔ for_link link hd m.
Proof. by destruct error; split; intros []. Qed.
Lemma announced_counted link error hd v m b :
  announced link (counted error hd) v m b ↔ announced link hd v m b.
Proof.
  split; intros [Hl ? ? ?]; (split; [|done..]).
  - exact (proj1 (for_link_counted _ _ _ _) Hl).
  - exact (proj2 (for_link_counted _ _ _ _) Hl).
Qed.

(** The turn that finds the announcement that stands. *)
Lemma wp_recv_announced link pool hd cs views a m q b w :
  receiver_ready link pool cs w → pool_views pool hd views w →
  a ≠ 0 → is_Some (w_buffers w !! a) → transport_queue (l_transport link) w (m :: q) →
  announced link hd (views (claim_slot m)) m b →
  (∀ e, (protect_result pool hd (claim_slot m) true e).1 = ZIPC_OK) →
  wp (recv_turn link a)
    (λ r w', ∃ st, r = Some st ∧ recv_result link pool hd views a m q b w st w') w.
Proof.
  intros Hready [Hat Hcap Hslots] Ha Hb Hq Hann Hprot. pose proof (an_link _ _ _ _ _ Hann) as Hfor.
  assert (Hrange : 0 <= claim_slot m < h_slot_count hd)
    by (split; [apply slot_id_nonneg|apply Hfor]).
  destruct (Hslots _ Hrange) as (s & Hs & Hv & Hok).
  eapply wp_mono; [by eapply (wp_recv_turn link pool hd cs)|]. cbv zeta.
  intros r w' (s' & now & e & (Heff & Hok' & Hq') & Habs & Hr). rewrite Hprot in *.
  rewrite <- Hv in Hann. rewrite (announced_claim _ _ _ _ _ _ Hann Hok) in Habs, Hr.
  pose proof Heff as (Hctl & _ & Hcomp & _ & Hpay & _).
  assert (Hs' : w_controls w' !! slot_key pool (claim_slot m) = Some s')
    by (rewrite Hctl; apply lookup_insert_eq).
  assert (Hothers : ∀ j, 0 <= j < h_slot_count hd → j ≠ claim_slot m →
            ∃ s0, w_controls w' !! slot_key pool j = Some s0 ∧ abs_slot s0 = views j ∧
              slot_ok (h_slot_capacity hd) s0).
  { intros j Hj Hne. destruct (Hslots j Hj) as (s0 & Hs0 & Hv0 & Hok0). exists s0. split; [|done].
    rewrite Hctl, lookup_insert_ne; [done|]. unfold slot_key. congruence. }
  assert (Hat' : ∃ hd', same_geometry hd hd' ∧ attached pool hd' w').
  { destruct (attached_link_effect _ _ _ _ _ _ Hat Heff) as (error & Hat' & _).
    exists (counted error hd). split; [apply counted_geometry|done]. }
  unfold recv_result. rewrite <- Hv.
  destruct (info_late now b) eqn:Hlate; [|destruct (info_exhausted b) eqn:Hex];
    cbn [o_status o_view] in Habs, Hr.
  - destruct Hr as [-> _]. eexists. split; [done|]. exists now, s'. rewrite Hlate. by split_and!.
  - destruct Hr as [-> _]. eexists. split; [done|]. exists now, s'. rewrite Hlate. by split_and!.
  - destruct Hr as [-> Hbuf]. eexists. split; [done|]. exists now, s'. rewrite Hlate.
    split_and!; try done. eexists. split; [by eapply claimed_view|done].
Qed.

(** The state in which the loop looks at the next message. *)
Record recv_ready link (pool : zipc_pool_t) (hd : zipc_pool_header_t)
    (cs : zipc_component_status_t) (views : Z → slot_view) (a : Z) w : Prop := {
  rv_ready : receiver_ready link pool cs w;
  rv_views : pool_views pool hd views w;
  rv_address : a ≠ 0;
  rv_buffer : is_Some (w_buffers w !! a) }.

Lemma wp_recv_stale link pool hd cs views a x q w :
  recv_ready link pool hd cs views a w → transport_queue (l_transport link) w (x :: q) →
  for_link link hd x → stale_message (views (claim_slot x)) (l_local_component link) x →
  wp (recv_turn link a)
    (λ r w', r = None ∧ transport_queue (l_transport link) w' q ∧
       w_components w' = w_components w ∧ w_payload w' = w_payload w ∧
       ∃ error, recv_ready link pool (counted error hd) cs views a w') w.
Proof.
  intros [[Hpool Hloc Hc He] Hviews Ha Hb] Hq Hfor Hstale. pose proof Hviews as [Hat Hcap Hslots].
  assert (Hrange : 0 <= claim_slot x < h_slot_count hd)
    by (split; [apply slot_id_nonneg|apply Hfor]).
  destruct (Hslots _ Hrange) as (s & Hs & Hv & Hok). rewrite <- Hv in Hstale.
  eapply wp_mono; [eapply (wp_recv_turn link pool hd cs); eauto; by split|]. cbv zeta.
  intros r w' (s' & now & e & (Heff & Hok' & Hq') & Habs & Hr).
  destruct (stale_claim now (protect_result pool hd (claim_slot x) true e).1
    (h_slot_capacity hd) x _ (l_local_epoch link) _ Hstale) as (Hskip & Hst & Hview).
  rewrite Hst, Hskip in Hr. destruct Hr as [-> Hb']. rewrite Hview in Habs.
  pose proof Heff as (_ & _ & Hcomp & _ & Hpay & _). split_and!; try done.
  destruct (pool_views_keep pool hd views (claim_slot x) s' w w') as [error Hviews'];
    [done|done|congruence|done|done|].
  exists error. split; try done. split; try done. by rewrite Hcomp.
Qed.

Lemma wp_recv_loop fuel link pool hd cs views a stale m q b w :
  recv_ready link pool hd cs views a w →
  transport_queue (l_transport link) w (stale ++ m :: q) →
  Forall (λ x, for_link link hd x ∧
               stale_message (views (claim_slot x)) (l_local_component link) x) stale →
  announced link hd (views (claim_slot m)) m b →
  (∀ e, (protect_result pool hd (claim_slot m) true e).1 = ZIPC_OK) →
  (length stale < fuel)%nat →
  wp (loop fuel (recv_turn link a))
    (λ r w', ∃ st, r = Some st ∧ recv_result link pool hd views a m q b w st w') w.
Proof.
  revert hd w stale. induction fuel as [|fuel IH]; intros hd w stale Hready Hq Hstale Hann Hprot Hf;
    [lia|]. cbn [loop]. apply wp_bind. destruct stale as [|x stale].
  - destruct Hready. eapply wp_mono; [by eapply wp_recv_announced|].
    intros r w' (st & -> & Hres). apply wp_ret. eauto.
  - apply Forall_cons in Hstale as [[Hfor Hx] Hstale].
    eapply wp_mono; [by eapply wp_recv_stale|].
    intros r w' (-> & Hq' & Hcomp & Hpay & error & Hready').
    eapply wp_mono; [apply (IH (counted error hd) w' stale); try done|].
    + eapply Forall_impl; [done|]. intros y [Hy ?]. split; [by apply for_link_counted|done].
    + by apply announced_counted.
    + intros e. rewrite protect_counted. apply Hprot.
    + simpl in Hf. lia.
    + intros r w'' (st & -> & now & s' & Hres). exists st. split; [done|].
      exists now, s'. destruct (counted_geometry error hd) as (Gn & Gc & Gs).
      unfold same_geometry in *. rewrite Gn, Gc, Gs in Hres. by rewrite <- Hcomp, <- Hpay.
Qed.

Lemma wp_recv fuel link pool hd cs views a stale m q b w :
  recv_ready link pool hd cs views a w →
  transport_queue (l_transport link) w (stale ++ m :: q) →
  Forall (λ x, for_link link hd x ∧
               stale_message (views (claim_slot x)) (l_local_component link) x) stale →
  announced link hd (views (claim_slot m)) m b →
  (∀ e, (protect_result pool hd (claim_slot m) true e).1 = ZIPC_OK) →
  (length stale < fuel)%nat →
  wp (zipc_recv fuel (Some link) a) (recv_result link pool hd views a m q b w) w.
Proof.
  intros Hready Hq Hstale Hann Hprot Hf. pose proof Hready as [[Hpool Hloc Hc He] Hviews Ha Hb].
  unfold zipc_recv. rewrite (proj2 (Z.eqb_neq a 0) Ha).
  apply wp_bind. eapply wp_link_fresh; [done|by rewrite Hpool|done|].
  apply wp_bind, wp_buffer_invalidate; [done|done|]. apply wp_bind.
  eapply wp_mono; [eapply (wp_recv_loop fuel link pool hd cs views a stale m q b); try done|].
  - destruct Hviews as [[] ? ?]. split; [by split| |done|].
    + by split; [split|..].
    + cbn. rewrite lookup_insert_eq. by eexists.
  - by eapply transport_queue_frame, Hq.
  - intros r w' (st & -> & Hres). by apply wp_returned.
Qed.
End spec.
