(* ===== verification/LinuxTransportSpec.v ===== *)
(** * Linux transports: theorems

    The shared-ring transports keep the contract of LinkSpec.v: a message is
    queued exactly if the send says so, peeking does not consume, committing
    consumes once; a polling receive on an empty ring ends by its timeout. *)
From Stdlib Require Import String.
From S2P Require Import Prelude Types Packing Prog Store Layout Ring RingSpec Link LinkSpec.
From S2P Require Import SlotRun LinuxTransport.

Section spec.
Context {E : Type} `{Platform E} `{LinuxOs E}.
Implicit Type w : world E.
Implicit Type t : zipc_platform_transport_t.

(** ** Frames *)
Lemma io_refl w : io_only w w.
Proof. done. Qed.
Lemma io_trans w1 w2 w3 : io_only w1 w2 → io_only w2 w3 → io_only w1 w3.
Proof. intros [] []. split; congruence. Qed.
Lemma io_ring a r w : io_only w (put_ring a r w).
Proof. done. Qed.
Lemma put_env_id w : put_env (w_env w) w = w.
Proof. by destruct w. Qed.
Lemma io_env e w : io_only w (put_env e w).
Proof. done. Qed.

Lemma wp_loop_first {A} fuel (body : prog (world E) (option A)) (Q : option A → world E → Prop) w :
  (0 < fuel)%nat → wp body (λ r w', ∃ a, r = Some a ∧ Q (Some a) w') w → wp (loop fuel body) Q w.
Proof.
  intros Hf Hb. destruct fuel as [|fuel]; [lia|]. cbn [loop]. apply wp_bind.
  eapply wp_mono; [exact Hb|]. intros r w' (a & -> & HQ). by apply wp_ret.
Qed.

(** An attempt that succeeds at once ends both loops. *)
Lemma wp_eventfd_ready {A} fuel fd (attempt : prog (world E) (zipc_status_t * option A)) Q w :
  (0 < fuel)%nat →
  wp attempt (λ r w', r.1 ≠ ZIPC_ERR_NO_BUFFER ∧ Q r w') w →
  wp (eventfd_loop fuel fd attempt) Q w.
Proof.
  intros Hf Ha. unfold eventfd_loop. apply wp_bind, wp_loop_first; [done|]. apply wp_bind.
  eapply wp_mono; [exact Ha|]. intros [st x] w' [Hne HQ]. simpl in Hne.
  assert (status_is st ZIPC_ERR_NO_BUFFER = false) as -> by by apply bool_decide_eq_false.
  apply wp_ret. eexists. split; [done|]. by apply wp_returned.
Qed.
Lemma wp_polling_ready {A} fuel timeout (attempt : prog (world E) (zipc_status_t * option A)) Q w :
  (0 < fuel)%nat →
  (∀ e, wp attempt (λ r w', r.1 ≠ ZIPC_ERR_NO_BUFFER ∧ Q r w') (put_env e w)) →
  wp (polling_loop fuel timeout attempt) Q w.
Proof.
  intros Hf Ha. unfold polling_loop. apply wp_bind.
  assert (Hloop : ∀ deadline e, wp (loop fuel ('(status, result) ← attempt;
      if negb (status_is status ZIPC_ERR_NO_BUFFER) then mret (Some (status, result))
      else if negb (timeout =? 0) then
        now_ns ← env_call zipc_platform_time_ns;
        mret (if deadline <=? now_ns then Some (ZIPC_ERR_TIMEOUT, None) else None)
      else mret None)) (λ r w', wp (returned r) Q w') (put_env e w)).
  { intros deadline e. apply wp_loop_first; [done|]. apply wp_bind.
    eapply wp_mono; [apply Ha|]. intros [st x] w' [Hne HQ]. simpl in Hne.
    assert (status_is st ZIPC_ERR_NO_BUFFER = false) as -> by by apply bool_decide_eq_false.
    apply wp_ret. eexists. split; [done|]. by apply wp_returned. }
  destruct (negb (timeout =? 0)).
  - apply wp_bind, wp_env_call, wp_ret, wp_bind, Hloop.
  - apply wp_ret, wp_bind. specialize (Hloop 0 (w_env w)). by rewrite put_env_id in Hloop.
Qed.

(** ** The queue of a ring transport *)
Definition ring_of t : option Z :=
  match pt_type t, pt_handle t with
  | ZIPC_TRANSPORT_SHM_RING_EVENTFD, HandleRingEventfd ring _ _
  | ZIPC_TRANSPORT_SHM_RING_POLLING, HandleRingPolling ring _ _ => Some ring
  | _, _ => None
  end.
(** [fuel] bounds the scan for duplicates. *)
Definition linux_queue (fuel : nat) t w (q : list zipc_message_t) : Prop :=
  ∃ a r, ring_of t = Some a ∧ ring_at a r w ∧ ring_contents r = q ∧
    (Z.to_nat (ring_depth r) < fuel)%nat.
Definition linux_token t (token : zipc_transport_receive_token_t) w : Prop :=
  rt_pending token = true ∧ rt_transport_cookie token = pt_self t ∧
  rt_transactional token = true ∧
  ∃ a r, ring_of t = Some a ∧ w_rings w !! a = Some r ∧ rt_position token = ring_consumer r.

Lemma linux_queue_frame fuel t w w' q :
  w_rings w' = w_rings w → linux_queue fuel t w q → linux_queue fuel t w' q.
Proof.
  intros Hr (a & r & Ha & (? & ? & ?) & ?). exists a, r. split; [done|]. split; [|done].
  by split_and!; [|rewrite Hr|].
Qed.
Lemma linux_token_frame t token w w' :
  w_rings w' = w_rings w → linux_token t token w → linux_token t token w'.
Proof. unfold linux_token. by intros ->. Qed.

(** The queue after a push, and the status it gives. *)
Lemma wp_push fuel t a r m w :
  ring_of t = Some a → ring_at a r w → (Z.to_nat (ring_depth r) < fuel)%nat →
  wp (zipc_linux_common_ring_push fuel a (Some m)) (λ st w', io_only w w' ∧
    ((st = ZIPC_OK ∧ linux_queue fuel t w' (enqueue m (ring_contents r))) ∨
     (st = ZIPC_ERR_TRANSPORT ∧ linux_queue fuel t w' (ring_contents r) ∧
      Z.of_nat (length (ring_contents r)) = ring_depth r))) w.
Proof.
  intros Ha Hr Hf. pose proof Hr as (Ha0 & Hr0 & Hwf).
  eapply wp_mono; [by apply wp_ring_push|]. intros st w' (r' & -> & Hwf' & Hd & Hq).
  split; [apply io_ring|].
  assert (Hat' : ring_at a r' (put_ring a r' w)) by (split_and!; [done|apply lookup_insert_eq|done]).
  unfold queue_push in Hq. destruct (ring_depth r <=? _) eqn:Hfull.
  - right. simplify_eq/=. split_and!; [done| |].
    + exists a, r'. rewrite Hd. by split_and!.
    + bool_to_prop. pose proof (length_ring_contents r). pose proof (rw_used _ Hwf). lia.
  - left. unfold enqueue. destruct (holds m (ring_contents r)); simplify_eq/=;
      (split; [done|]); exists a, r'; rewrite Hd; by split_and!.
Qed.

Lemma wp_linux_send fuel t m q w :
  linux_queue fuel t w q →
  wp (zipc_platform_transport_send fuel t m)
    (λ r w', io_only w w' ∧ linux_queue fuel t w' (if published r then enqueue m q else q) ∧
       (published r = true ∨ r = ZIPC_ERR_TRANSPORT)) w.
Proof.
  intros (a & r & Ha & Hr & Hq & Hf). subst q. pose proof Ha as Ha'. unfold ring_of in Ha'.
  unfold zipc_platform_transport_send.
  destruct (pt_type t), (pt_handle t) as [| |ring size fd|ring size timeout| | |]; simplify_eq;
    apply wp_bind; (eapply wp_mono; [by eapply wp_push|]);
    intros st w' [Hio [[-> Hq]|(-> & Hq & _)]]; status_eval.
  - apply wp_bind, wp_env_call, wp_ret. split; [by eapply io_trans, io_env|].
    destruct (os_eventfd_write fd (w_env w')) as [[] e]; (split; [|by left]);
      by eapply linux_queue_frame, Hq.
  - apply wp_ret. by split_and!; [| |right].
  - apply wp_ret. by split_and!; [| |left].
  - apply wp_ret. by split_and!; [| |right].
Qed.

Lemma wp_linux_begin fuel t m q w :
  linux_queue fuel t w (m :: q) →
  wp (zipc_platform_transport_receive_begin fuel t)
    (λ r w', io_only w w' ∧ linux_queue fuel t w' (m :: q) ∧
       r.1 = (ZIPC_OK, m) ∧ linux_token t r.2 w') w.
Proof.
  intros Hq. pose proof Hq as (a & r & Ha & (Ha0 & Hr0 & Hwf) & Hc & Hf).
  assert (Hf0 : (0 < fuel)%nat) by lia.
  assert (Hpeek : ∀ e, wp (zipc_linux_common_ring_peek a) (λ res w',
    res.1 ≠ ZIPC_ERR_NO_BUFFER ∧ wp (mret (peeked t res)) (λ r w', io_only w w' ∧
      linux_queue fuel t w' (m :: q) ∧ r.1 = (ZIPC_OK, m) ∧ linux_token t r.2 w') w')
    (put_env e w)).
  { intros e. eapply wp_mono; [by apply (wp_ring_peek a r)|]. intros res w' [-> ->].
    rewrite Hc. split; [done|]. apply wp_ret. split_and!; [apply io_env| |done|].
    - by eapply linux_queue_frame, Hq.
    - split_and!; try done. by exists a, r. }
  unfold zipc_platform_transport_receive_begin. pose proof Ha as Ha'. unfold ring_of in Ha'.
  destruct (pt_type t), (pt_handle t) as [| |ring size fd|ring size timeout| | |]; simplify_eq;
    apply wp_bind.
  - apply wp_eventfd_ready; [done|]. specialize (Hpeek (w_env w)). by rewrite put_env_id in Hpeek.
  - by apply wp_polling_ready.
Qed.

Lemma wp_linux_commit fuel t token m q w :
  linux_queue fuel t w (m :: q) → linux_token t token w →
  wp (zipc_platform_transport_receive_commit t token)
    (λ r w', io_only w w' ∧ linux_queue fuel t w' q ∧ r.1 = ZIPC_OK) w.
Proof.
  intros (a & r & Ha & Hat & Hc & Hf) (Hpend & Hcookie & Htrans & a' & r' & Ha' & Hr' & Hpos).
  pose proof Hat as (Ha0 & Hr0 & Hwf). rewrite Ha in Ha'. injection Ha' as <-.
  rewrite Hr0 in Hr'. injection Hr' as <-.
  unfold zipc_platform_transport_receive_commit. rewrite Hpend, Hcookie, Htrans, Z.eqb_refl. psimpl.
  assert (Hcommit : wp (zipc_linux_common_ring_commit a (u32 (rt_position token)))
    (λ st w', st = ZIPC_OK ∧ io_only w w' ∧ linux_queue fuel t w' q) w).
  { rewrite Hpos, u32_small by apply (rw_consumer _ Hwf).
    eapply wp_mono; [apply (wp_ring_commit a r); [done|by rewrite Hc]|].
    intros st w' (r1 & -> & Hwf' & Hres). rewrite Z.eqb_refl in Hres.
    destruct Hres as (-> & Hr1 & Hc1). split_and!; [done|apply io_ring|].
    exists a, r1. rewrite Hc1, Hc. split_and!; [done| |done|by subst r1].
    by split_and!; [|apply lookup_insert_eq|]. }
  apply wp_bind. unfold ring_of in Ha.
  destruct (pt_type t), (pt_handle t) as [| |ring size fd|ring size timeout| | |]; simplify_eq;
    (eapply wp_mono; [exact Hcommit|]; intros st w' (-> & ? & ?); by apply wp_ret).
Qed.

#[export] Instance linux_transport_laws (fuel : nat) :
  @TransportLaws E zipc_platform_transport_t (linux_transport fuel).
Proof.
  refine {| transport_queue := linux_queue fuel; transport_token := linux_token |}.
  - apply linux_queue_frame.
  - apply linux_token_frame.
  - intros t m q w Hq. eapply wp_mono; [by apply wp_linux_send|]. by intros r w' (? & ? & _).
  - intros t m q w Hq. by apply wp_linux_begin.
  - intros t token m q w. apply wp_linux_commit.
Defined.

(** C30. The shared-ring transports of Linux (eventfd and polling) are FIFO
    channels with an honest status: a send that returns OK or
    TRANSPORT_PUBLISHED has queued the message (once, if the same announcement
    was already queued) and any other status is TRANSPORT and means it is not
    queued; with a message waiting, [receive_begin] returns the oldest one
    without consuming it and [receive_commit] of its token consumes exactly
    that one; nothing but the ring and the platform state changes. *)
Theorem ring_transport_contract fuel t (m : zipc_message_t) (q : list zipc_message_t) w :
  linux_queue fuel t w q →
  wp (zipc_platform_transport_send fuel t m)
    (λ r w', io_only w w' ∧ linux_queue fuel t w' (if published r then enqueue m q else q) ∧
       (published r = true ∨ r = ZIPC_ERR_TRANSPORT)) w ∧
  ∀ x q', q = x :: q' →
    wp (zipc_platform_transport_receive_begin fuel t)
      (λ r w1, io_only w w1 ∧ r.1 = (ZIPC_OK, x) ∧ linux_queue fuel t w1 q ∧
         wp (zipc_platform_transport_receive_commit t r.2)
           (λ r' w2, io_only w w2 ∧ r'.1 = ZIPC_OK ∧ linux_queue fuel t w2 q') w1) w.
Proof.
  intros Hq. split; [by apply wp_linux_send|]. intros x q' ->.
  eapply wp_mono; [by apply wp_linux_begin|]. intros r w1 (Hio & Hq1 & Hr & Htok).
  split_and!; [done|done|done|]. eapply wp_mono; [by eapply wp_linux_commit|].
  intros r' w2 (Hio2 & Hq2 & Hr'). split_and!; [by eapply io_trans|done|done].
Qed.

(** ** Timeouts *)

(** The clock advances between readings until it reaches its maximum. *)
Definition clock_advances : Prop :=
  ∀ e, (zipc_platform_time_ns e).1 < UINT64_MAX →
    (zipc_platform_time_ns e).1 < (zipc_platform_time_ns (zipc_platform_time_ns e).2).1.

Lemma wp_polling_empty {A} fuel deadline
    (attempt : prog (world E) (zipc_status_t * option A)) w e :
  clock_advances → deadline <= UINT64_MAX →
  (∀ e, wp attempt (λ r w', r = (ZIPC_ERR_NO_BUFFER, None) ∧ w' = put_env e w) (put_env e w)) →
  (Z.to_nat (deadline - (zipc_platform_time_ns e).1) < fuel)%nat →
  wp (loop fuel ('(status, result) ← attempt;
      if negb (status_is status ZIPC_ERR_NO_BUFFER) then mret (Some (status, result))
      else
        now_ns ← env_call zipc_platform_time_ns;
        mret (if deadline <=? now_ns then Some (ZIPC_ERR_TIMEOUT, None) else None)))
    (λ r w', r = Some (ZIPC_ERR_TIMEOUT, None) ∧ ∃ e', w' = put_env e' w) (put_env e w).
Proof.
  intros Hclock Hd Hattempt. revert e. induction fuel as [|fuel IH]; intros e Hf; [lia|].
  cbn [loop]. apply wp_bind, wp_bind. eapply wp_mono; [apply Hattempt|].
  intros r w' [-> ->]. status_eval. apply wp_bind, wp_env_call, wp_ret. cbn [put_env w_env].
  destruct (Z.leb_spec deadline (zipc_platform_time_ns e).1) as [Hlate|Hearly].
  - apply wp_ret. split; [done|]. by eexists.
  - apply (IH (zipc_platform_time_ns e).2). specialize (Hclock e). lia.
Qed.

(** A polling receive with a timeout terminates: on an empty ring, with a
    clock that advances between readings, it returns TIMEOUT within as many
    readings as the timeout has nanoseconds, leaves the ring as it was and no
    pending token. *)
Theorem polling_receive_times_out fuel t ring size timeout r w :
  pt_type t = ZIPC_TRANSPORT_SHM_RING_POLLING → pt_handle t = HandleRingPolling ring size timeout →
  ring_at ring r w → ring_contents r = [] → clock_advances →
  0 < timeout → 0 <= (zipc_platform_time_ns (w_env w)).1 →
  (zipc_platform_time_ns (w_env w)).1 + timeout <= UINT64_MAX →
  (Z.to_nat timeout < fuel)%nat →
  wp (zipc_platform_transport_receive_begin fuel t)
    (λ res w', res.1.1 = ZIPC_ERR_TIMEOUT ∧ rt_pending res.2 = false ∧
       ∃ e', w' = put_env e' w) w.
Proof.
  intros Htype Hhandle (Ha & Hr & Hwf) Hempty Hclock Ht Hnow Hdead Hf.
  unfold zipc_platform_transport_receive_begin. rewrite Htype, Hhandle. apply wp_bind.
  unfold polling_loop. rewrite (proj2 (Z.eqb_neq timeout 0)) by lia. psimpl.
  apply wp_bind, wp_bind, wp_env_call, wp_ret. unfold poll_deadline.
  rewrite (proj2 (Z.ltb_ge _ _)) by lia. apply wp_bind.
  pose proof (Hclock (w_env w) ltac:(lia)) as Hnext.
  eapply wp_mono; [apply wp_polling_empty; [done|lia| |lia]|].
  - intros e. eapply wp_mono; [by apply (wp_ring_peek ring r)|]. rewrite Hempty. by intros res w' [-> ->].
  - intros res w' (-> & e' & ->). apply wp_returned, wp_ret. split_and!; [done|done|].
    by exists e'.
Qed.

(** ** Opening a ring *)
Lemma fresh_ring_wf depth :
  2 <= depth <= UINT32_MAX → (depth | 4294967296) →
  ring_wf (ZipcRing 0 0 depth (repeat zero_message (Z.to_nat depth))) ∧
  ring_contents (ZipcRing 0 0 depth (repeat zero_message (Z.to_nat depth))) = [].
Proof.
  intros Hd Hdiv. split; [|done]. split; [done|done|apply repeat_length|done|done|].
  change (0 <= depth). lia.
Qed.
Lemma wp_open_ring t config a e w (Q : _ → world E → Prop) :
  let depth := default_depth config in
  2 <= depth → tc_platform_handle config = 0 → a ≠ 0 →
  os_mmap (ring_mapping_size depth) (w_env w) = (Some a, e) →
  Q (ZIPC_OK, Some (a, ring_mapping_size depth), own_ring t)
    (put_ring a (ZipcRing 0 0 depth (repeat zero_message (Z.to_nat depth))) (put_env e w)) →
  wp (open_ring t config) Q w.
Proof.
  intros depth Hd Hh Ha Hmap HQ. unfold open_ring. fold depth.
  rewrite (proj2 (Z.ltb_ge _ _)), Hh by done. cbn [Z.eqb]. apply wp_bind, wp_env_call.
  rewrite Hmap. cbn [fst snd]. apply wp_bind. eapply wp_act; [done|]. apply wp_bind.
  unfold zipc_transport_spsc_ring_initialize.
  rewrite (proj2 (Z.eqb_neq a 0)), (proj2 (Z.ltb_ge _ _)) by done. cbn [orb].
  apply wp_bind. eapply wp_ring_write; [apply lookup_insert_eq|]. apply wp_ret, wp_ret.
  by rewrite put_ring_twice.
Qed.

(** Opening a shared-ring transport without a ring of the caller's gives
    an empty queue: the backend maps a ring of the configured depth (64 when it
    is 0), initialises it and owns it; depth 1 is refused.  For depths that
    divide 2^32 the result is a transport of the FIFO contract. *)
Theorem open_ring_transport fuel config self a e1 e2 w :
  tc_type config = ZIPC_TRANSPORT_SHM_RING_POLLING → tc_platform_handle config = 0 →
  os_calloc (w_env w) = (Some self, e1) →
  os_mmap (ring_mapping_size (default_depth config)) e1 = (Some a, e2) → a ≠ 0 →
  default_depth config <= UINT32_MAX → (default_depth config | 4294967296) →
  (Z.to_nat (default_depth config) < fuel)%nat →
  wp (zipc_platform_transport_open config)
    (λ res w', io_only w w' ∧
       if default_depth config <? 2 then res = inl ZIPC_ERR_INVALID_ARGUMENT
       else ∃ t, res = inr t ∧ pt_owns_ring t = true ∧ pt_self t = self ∧
              linux_queue fuel t w' []) w.
Proof.
  intros Htype Hh Hcalloc Hmap Ha Hmax Hdiv Hf. unfold zipc_platform_transport_open, config_rejected.
  rewrite Htype. apply wp_bind, wp_env_call. rewrite Hcalloc. cbn [fst snd].
  apply wp_bind. unfold open_by_type. rewrite Htype. unfold open_ring_polling.
  destruct (Z.ltb_spec (default_depth config) 2) as [Hsmall|Hbig].
  - apply wp_bind. unfold open_ring. rewrite (proj2 (Z.ltb_lt _ _)) by done. apply wp_ret, wp_ret.
    status_eval. apply wp_bind. unfold zipc_platform_transport_close. cbn [pt_type pt_handle].
    apply wp_bind, wp_ret. eapply wp_act; [done|]. by apply wp_ret.
  - apply wp_bind. eapply wp_open_ring; [done|done|done|exact Hmap|]. apply wp_ret. status_eval.
    apply wp_ret. split; [done|]. eexists. split_and!; [done..|].
    destruct (fresh_ring_wf (default_depth config)) as [Hwf Hc]; [lia|done|].
    exists a, (ZipcRing 0 0 (default_depth config) (repeat zero_message (Z.to_nat (default_depth config)))).
    split_and!; [done| |done|done]. split_and!; [done|apply lookup_insert_eq|done].
Qed.
End spec.
