(* ===== verification/Apart.v ===== *)
(** * Several transports side by side

    A component at the middle of a pipeline receives over one transport and
    sends over another.  [keeps] says what a program leaves alone on every run;
    [TransportApart] that the calls on one transport do not disturb the queue of
    another, [TransportRoom] when a transport cannot refuse a message.  [carrying]
    turns a property the calls on a transport keep into a transport contract
    that carries it along, so that every theorem of LinkSpec.v also says that it
    still holds.  The shared rings of Linux are apart when their addresses are,
    and a polling ring accepts until it is full. *)
From S2P Require Import Prelude Types Packing Prog Store Layout Ring RingSpec Link LinkSpec.
From S2P Require Import LinuxTransport LinuxTransportSpec.

(** ** What every run of a program keeps *)
Section keeps.
Context {W : Type} (R : W → W → Prop) `{!PreOrder R}.

Definition keeps {A} (p : prog W A) : Prop := ∀ w a w', run p w = Some (a, w') → R w w'.

Lemma keeps_ret {A} (a : A) : keeps (mret a).
Proof. intros w b w' [= _ <-]. reflexivity. Qed.
Lemma keeps_bind {A B} (p : prog W A) (g : A → prog W B) :
  keeps p → (∀ a, keeps (g a)) → keeps (p ≫= g).
Proof.
  intros Hp Hg w b w'. rewrite run_bind. destruct (run p w) as [[a w1]|] eqn:Hr; [|done].
  intros Hb. etrans; [by eapply Hp|by eapply Hg].
Qed.
Lemma keeps_act {B} (f : W → option (B * W)) :
  (∀ w b w', f w = Some (b, w') → R w w') → keeps (act f).
Proof.
  intros Hf w b w'. simpl. destruct (f w) as [[b1 w1]|] eqn:Hr; [|done].
  intros [= _ <-]. by eapply Hf.
Qed.
Lemma keeps_loop {A} fuel (body : prog W (option A)) : keeps body → keeps (loop fuel body).
Proof.
  intros Hb. induction fuel as [|fuel IH]; [apply keeps_ret|]. apply keeps_bind; [done|].
  intros [a|]; [apply keeps_ret|done].
Qed.
End keeps.

(** ** Independent transports *)
Section apart.
Context {E T : Type} `{TransportLaws E T}.

Definition undisturbed (t : T) (w w' : world E) : Prop :=
  ∀ q, transport_queue t w q → transport_queue t w' q.
#[export] Instance undisturbed_preorder t : PreOrder (undisturbed t).
Proof. split; [by intros w q|]. intros w1 w2 w3 H1 H2 q Hq. by apply H2, H1. Qed.
End apart.

Class TransportApart (E T : Type) `{TransportLaws E T} := {
  apart : T → T → Prop;
  apart_send t t' m : apart t t' →
    keeps (undisturbed t') (Link.zipc_platform_transport_send t m);
  apart_begin t t' : apart t t' →
    keeps (undisturbed t') (Link.zipc_platform_transport_receive_begin t);
  apart_commit t t' token : apart t t' →
    keeps (undisturbed t') (Link.zipc_platform_transport_receive_commit t token) }.

(** [depth] messages fit; a transport that [accepts] refuses none of them and
    has no wake-up that could fail. *)
Class TransportRoom (E T : Type) `{TransportApart E T} := {
  transport_depth : T → Z → world E → Prop;
  accepts : T → Prop;
  depth_rings t d w w' : w_rings w' = w_rings w → transport_depth t d w → transport_depth t d w';
  depth_send t t' d m : apart t t' ∨ t = t' →
    keeps (λ w w', transport_depth t' d w → transport_depth t' d w')
      (Link.zipc_platform_transport_send t m);
  depth_begin t t' d : apart t t' ∨ t = t' →
    keeps (λ w w', transport_depth t' d w → transport_depth t' d w')
      (Link.zipc_platform_transport_receive_begin t);
  depth_commit t t' d token : apart t t' ∨ t = t' →
    keeps (λ w w', transport_depth t' d w → transport_depth t' d w')
      (Link.zipc_platform_transport_receive_commit t token);
  accepts_send t d m q w : accepts t → transport_depth t d w → transport_queue t w q →
    Z.of_nat (length q) < d → wp (Link.zipc_platform_transport_send t m) (λ r _, r = ZIPC_OK) w }.

Section carrying.
Context {E T : Type} `{TransportRoom E T}.
Implicit Type I J : world E → Prop.

(** The calls on [t] keep [I]. *)
Record carried (t : T) I : Prop := {
  carried_rings w w' : w_rings w' = w_rings w → I w → I w';
  carried_send m : keeps (λ w w', I w → I w') (Link.zipc_platform_transport_send t m);
  carried_begin : keeps (λ w w', I w → I w') (Link.zipc_platform_transport_receive_begin t);
  carried_commit token :
    keeps (λ w w', I w → I w') (Link.zipc_platform_transport_receive_commit t token) }.

Lemma carried_queue t t' q : apart t t' → carried t (λ w, transport_queue t' w q).
Proof.
  intros Ha. split.
  - intros w w'. apply transport_queue_frame.
  - intros m w r w' Hr. by eapply (apart_send t t' m Ha w r w').
  - intros w r w' Hr. by eapply (apart_begin t t' Ha w r w').
  - intros token w r w' Hr. by eapply (apart_commit t t' token Ha w r w').
Qed.
Lemma carried_depth t t' d : apart t t' ∨ t = t' → carried t (transport_depth t' d).
Proof.
  intros Ha. split; [apply depth_rings|intros; by apply depth_send|by apply depth_begin|].
  intros. by apply depth_commit.
Qed.
Lemma carried_and t I J : carried t I → carried t J → carried t (λ w, I w ∧ J w).
Proof.
  intros [I1 I2 I3 I4] [J1 J2 J3 J4]. split; [naive_solver|..]; repeat intro; naive_solver.
Qed.

(** The contract of [t] alone, which says that [I] holds throughout. *)
Program Definition carrying (t : T) I (C : carried t I) : TransportLaws E T := {|
  transport_queue t' w q := t' = t ∧ transport_queue t w q ∧ I w;
  transport_token := transport_token |}.
Next Obligation.
  intros t I C t' w w' q Hr (-> & Hq & HI). split_and!; [done|by eapply transport_queue_frame|].
  by eapply carried_rings.
Qed.
Next Obligation. intros t I C t' token w w'. apply transport_token_frame. Qed.
Next Obligation.
  intros t I C t' m q w (-> & Hq & HI).
  eapply wp_mono; [apply wp_run_eq, transport_send_law, Hq|].
  intros r w' [[Hio Hq'] Hr]. split_and!; [done..|by eapply (carried_send t I C m w r w')].
Qed.
Next Obligation.
  intros t I C t' m q w (-> & Hq & HI).
  eapply wp_mono; [apply wp_run_eq, transport_begin_law, Hq|].
  intros r w' [(Hio & Hq' & Hx & Ht) Hr]. split_and!; [done..| |done|done].
  by eapply (carried_begin t I C w r w').
Qed.
Next Obligation.
  intros t I C t' token m q w (-> & Hq & HI) Ht.
  eapply wp_mono; [by eapply wp_run_eq, transport_commit_law|].
  intros r w' [(Hio & Hq' & Hx) Hr]. split_and!; [done..| |done].
  by eapply (carried_commit t I C token w r w').
Qed.
End carrying.

(** ** The shared rings of Linux *)

(** Every ring but the one at [a]. *)
Definition other_rings {E} (a : Z) (w w' : world E) : Prop :=
  ∀ a', a' ≠ a → w_rings w' !! a' = w_rings w !! a'.
#[export] Instance other_rings_preorder {E} a : PreOrder (@other_rings E a).
Proof. split; [done|]. intros w1 w2 w3 H1 H2 a' Ha. by rewrite H2, H1. Qed.

(** Every ring keeps its depth. *)
Definition same_depths {E} (w w' : world E) : Prop :=
  ∀ a d, ring_depth <$> w_rings w !! a = Some d → ring_depth <$> w_rings w' !! a = Some d.
#[export] Instance same_depths_preorder {E} : PreOrder (@same_depths E).
Proof. split; [by intros w a d|]. intros w1 w2 w3 H1 H2 a d Ha. by apply H2, H1. Qed.

Section linux.
Context {E : Type} `{Platform E} `{LinuxOs E}.
Implicit Type a : Z.

Lemma keeps_ring_read {A} a b (f : zipc_transport_spsc_ring_t → A) :
  keeps (other_rings a) (ring_read (E := E) b f).
Proof.
  apply keeps_act. intros w x w'. destruct (w_rings w !! b); [|done]. by intros [= _ <-].
Qed.
Lemma keeps_ring_write a f : keeps (other_rings a) (ring_write (E := E) a f).
Proof.
  apply keeps_act. intros w x w'. destruct (w_rings w !! a); [|done]. intros [= _ <-] a' Ha.
  apply lookup_insert_ne. congruence.
Qed.
Lemma keeps_env_call {A} a (f : E → A * E) : keeps (other_rings a) (env_call f).
Proof. apply keeps_act. intros w x w'. destruct (f (w_env w)). by intros [= _ <-]. Qed.
Lemma depths_ring_read {A} b (f : zipc_transport_spsc_ring_t → A) :
  keeps same_depths (ring_read (E := E) b f).
Proof.
  apply keeps_act. intros w x w'. destruct (w_rings w !! b); [|done]. by intros [= _ <-] c d.
Qed.
Lemma depths_ring_write a f :
  (∀ r, ring_depth (f r) = ring_depth r) → keeps same_depths (ring_write (E := E) a f).
Proof.
  intros Hf. apply keeps_act. intros w x w'. destruct (w_rings w !! a) as [r|] eqn:Hr; [|done].
  intros [= _ <-] a' d. cbn. destruct (decide (a' = a)) as [->|Hne].
  - by rewrite Hr, lookup_insert_eq; cbn; rewrite Hf.
  - by rewrite lookup_insert_ne.
Qed.
Lemma depths_env_call {A} (f : E → A * E) : keeps same_depths (env_call f).
Proof. apply keeps_act. intros w x w'. destruct (f (w_env w)). by intros [= _ <-] b d. Qed.
Lemma depths_returned {A} (r : option A) : keeps same_depths (returned (E := E) r).
Proof. destruct r; [apply keeps_ret, _|]. by intros w x w'. Qed.
Lemma depths_ring_scan fuel b position producer m :
  keeps same_depths (ring_scan (E := E) fuel b position producer m).
Proof.
  revert position. induction fuel as [|fuel IH]; intros position; cbn [ring_scan]; [apply keeps_ret, _|].
  destruct (_ =? _); [apply keeps_ret, _|]. apply keeps_bind; [apply _|apply depths_ring_read|].
  intros x. destruct (same_message x m); [apply keeps_ret, _|apply IH].
Qed.
Lemma keeps_returned {A} a (r : option A) : keeps (other_rings a) (returned (E := E) r).
Proof. destruct r; [apply keeps_ret, _|]. by intros w x w'. Qed.
Lemma keeps_ring_scan a fuel b position producer m :
  keeps (other_rings a) (ring_scan (E := E) fuel b position producer m).
Proof.
  revert position. induction fuel as [|fuel IH]; intros position; cbn [ring_scan]; [apply keeps_ret, _|].
  destruct (_ =? _); [apply keeps_ret, _|]. apply keeps_bind; [apply _|apply keeps_ring_read|].
  intros x. destruct (same_message x m); [apply keeps_ret, _|apply IH].
Qed.
End linux.
Create HintDb keeps.
#[export] Hint Resolve keeps_ring_read keeps_ring_write keeps_env_call keeps_returned
  keeps_ring_scan depths_ring_read depths_ring_write depths_env_call depths_returned
  depths_ring_scan : keeps.

(** Walk through a program that touches one ring. *)
Ltac keep :=
  repeat first
    [ progress auto with keeps
    | apply keeps_ret, _ | apply keeps_loop; [apply _|] | apply keeps_bind; [apply _| |intros]
    | case_match | progress intros ].

Section linux_apart.
Context {E : Type} `{Platform E} `{LinuxOs E}.

Lemma keeps_push a fuel m :
  keeps (other_rings a) (zipc_linux_common_ring_push (E := E) fuel a m).
Proof. unfold zipc_linux_common_ring_push. keep. Qed.
Lemma keeps_peek a : keeps (other_rings a) (zipc_linux_common_ring_peek (E := E) a).
Proof. unfold zipc_linux_common_ring_peek. keep. Qed.
Lemma keeps_commit a position :
  keeps (other_rings a) (zipc_linux_common_ring_commit (E := E) a position).
Proof. unfold zipc_linux_common_ring_commit. keep. Qed.

Lemma keeps_linux_send fuel t a m :
  ring_of t = Some a → keeps (other_rings a) (LinuxTransport.zipc_platform_transport_send fuel t m).
Proof.
  intros Ht. unfold ring_of in Ht. unfold LinuxTransport.zipc_platform_transport_send.
  destruct (pt_type t), (pt_handle t); simplify_eq; keep; apply keeps_push.
Qed.
Lemma keeps_linux_begin fuel t a :
  ring_of t = Some a →
  keeps (other_rings a) (LinuxTransport.zipc_platform_transport_receive_begin fuel t).
Proof.
  intros Ht. unfold ring_of in Ht. unfold LinuxTransport.zipc_platform_transport_receive_begin.
  destruct (pt_type t), (pt_handle t); simplify_eq; unfold eventfd_loop, polling_loop, eventfd_wait;
    keep; apply keeps_peek.
Qed.
Lemma keeps_linux_commit t a token :
  ring_of t = Some a →
  keeps (@other_rings E a) (LinuxTransport.zipc_platform_transport_receive_commit t token).
Proof.
  intros Ht. unfold ring_of in Ht. unfold LinuxTransport.zipc_platform_transport_receive_commit.
  destruct (pt_type t), (pt_handle t); simplify_eq; keep; apply keeps_commit.
Qed.

Lemma other_rings_undisturbed fuel t a a' w w' :
  ring_of t = Some a' → a' ≠ a → other_rings a w w' →
  @undisturbed _ _ _ (linux_transport_laws fuel) t w w'.
Proof.
  intros Ht Hne Ho q (b & r & Hb & (Hb0 & Hr & Hwf) & Hq & Hf).
  rewrite Ht in Hb. injection Hb as <-. exists a', r. split; [done|]. split; [|done].
  split_and!; [done| |done]. by rewrite Ho.
Qed.

#[export] Instance linux_apart (fuel : nat) :
  @TransportApart E zipc_platform_transport_t _ (linux_transport_laws fuel).
Proof.
  refine {| apart t t' := ∃ a a', ring_of t = Some a ∧ ring_of t' = Some a' ∧ a' ≠ a |}.
  - intros t t' m (a & a' & Ha & Ha' & Hne) w x w' Hrun.
    eapply other_rings_undisturbed; [done..|]. exact (keeps_linux_send fuel t a m Ha w x w' Hrun).
  - intros t t' (a & a' & Ha & Ha' & Hne) w x w' Hrun.
    eapply other_rings_undisturbed; [done..|]. exact (keeps_linux_begin fuel t a Ha w x w' Hrun).
  - intros t t' token (a & a' & Ha & Ha' & Hne) w x w' Hrun.
    eapply other_rings_undisturbed; [done..|]. exact (keeps_linux_commit t a token Ha w x w' Hrun).
Defined.

Lemma depths_push a fuel m :
  keeps same_depths (zipc_linux_common_ring_push (E := E) fuel a m).
Proof. unfold zipc_linux_common_ring_push. keep. Qed.
Lemma depths_peek a : keeps same_depths (zipc_linux_common_ring_peek (E := E) a).
Proof. unfold zipc_linux_common_ring_peek. keep. Qed.
Lemma depths_commit a position :
  keeps same_depths (zipc_linux_common_ring_commit (E := E) a position).
Proof. unfold zipc_linux_common_ring_commit. keep. Qed.
Lemma depths_linux_send fuel t a m :
  ring_of t = Some a → keeps same_depths (LinuxTransport.zipc_platform_transport_send (E := E) fuel t m).
Proof.
  intros Ht. unfold ring_of in Ht. unfold LinuxTransport.zipc_platform_transport_send.
  destruct (pt_type t), (pt_handle t); simplify_eq; keep; apply depths_push.
Qed.
Lemma depths_linux_begin fuel t a :
  ring_of t = Some a →
  keeps same_depths (LinuxTransport.zipc_platform_transport_receive_begin (E := E) fuel t).
Proof.
  intros Ht. unfold ring_of in Ht. unfold LinuxTransport.zipc_platform_transport_receive_begin.
  destruct (pt_type t), (pt_handle t); simplify_eq; unfold eventfd_loop, polling_loop, eventfd_wait;
    keep; apply depths_peek.
Qed.
Lemma depths_linux_commit t a token :
  ring_of t = Some a →
  keeps (@same_depths E) (LinuxTransport.zipc_platform_transport_receive_commit t token).
Proof.
  intros Ht. unfold ring_of in Ht. unfold LinuxTransport.zipc_platform_transport_receive_commit.
  destruct (pt_type t), (pt_handle t); simplify_eq; keep; apply depths_commit.
Qed.

Definition linux_depth (t : zipc_platform_transport_t) (d : Z) (w : world E) : Prop :=
  ∃ a, ring_of t = Some a ∧ ring_depth <$> w_rings w !! a = Some d.

Lemma linux_depth_kept {A} t t' d (p : prog (world E) A) :
  (∃ a a', ring_of t = Some a ∧ ring_of t' = Some a' ∧ a' ≠ a) ∨ t = t' →
  (∀ a, ring_of t = Some a → keeps (other_rings a) p ∧ keeps same_depths p) →
  keeps (λ w w', linux_depth t' d w → linux_depth t' d w') p.
Proof.
  intros Ht Hp w r w' Hrun (b & Hb & Hd). exists b. split; [done|].
  destruct Ht as [(a & a' & Ha & Ha' & Hne)| ->].
  - rewrite Hb in Ha'. injection Ha' as <-. rewrite (proj1 (Hp _ Ha) _ _ _ Hrun b); done.
  - exact (proj2 (Hp _ Hb) _ _ _ Hrun _ _ Hd).
Qed.

Lemma linux_accepts_send fuel t d m q w :
  pt_type t = ZIPC_TRANSPORT_SHM_RING_POLLING → linux_depth t d w → linux_queue fuel t w q →
  Z.of_nat (length q) < d →
  wp (LinuxTransport.zipc_platform_transport_send fuel t m) (λ r _, r = ZIPC_OK) w.
Proof.
  intros Ht (b & Hb & Hd) (a & r & Ha & Hr & <- & Hf) Hlen. rewrite Hb in Ha. injection Ha as ->.
  pose proof Hr as (_ & Hw & _). rewrite Hw in Hd. injection Hd as <-.
  unfold LinuxTransport.zipc_platform_transport_send. rewrite Ht. unfold ring_of in Hb.
  rewrite Ht in Hb. destruct (pt_handle t); simplify_eq.
  apply wp_bind. eapply wp_mono; [by eapply wp_ring_push|]. intros st w' (r' & _ & _ & _ & Hq).
  unfold queue_push in Hq. destruct (_ <=? _) eqn:Hfull; [lia|].
  by destruct (holds _ _); injection Hq as -> _; apply wp_ret.
Qed.

#[export] Instance linux_room (fuel : nat) :
  @TransportRoom E zipc_platform_transport_t _ (linux_transport_laws fuel) (linux_apart fuel).
Proof.
  refine {| transport_depth := linux_depth;
            accepts t := pt_type t = ZIPC_TRANSPORT_SHM_RING_POLLING |}.
  - intros t d w w' Hr (a & Ha & Hd). exists a. by rewrite Hr.
  - intros t t' d m Ht. eapply linux_depth_kept; [exact Ht|]. intros a Ha.
    split; [by apply keeps_linux_send|by eapply depths_linux_send].
  - intros t t' d Ht. eapply linux_depth_kept; [exact Ht|]. intros a Ha.
    split; [by apply keeps_linux_begin|by eapply depths_linux_begin].
  - intros t t' d token Ht. eapply linux_depth_kept; [exact Ht|]. intros a Ha.
    split; [by apply keeps_linux_commit|by eapply depths_linux_commit].
  - intros t d m q w. apply linux_accepts_send.
Defined.
End linux_apart.
