(* ===== verification/Delivery.v ===== *)
(** * End to end over a link

    The theorems of a link for its applications: the atomicity of a send, the
    delivery of a receive, and the byte-for-byte round trip of the copying
    interface through allocation, transfer, claim and release. *)
From S2P Require Import Prelude Types Packing Visited Prog Store Identity Slot SlotRun.
From S2P Require Import IdentitySpec SlotSpec Alloc Recovery Ring RingSpec Buffer BufferSpec Link LinkSpec.

Section delivery.
Context {E T : Type} `{Platform E} `{TransportLaws E T}.
Implicit Type w : world E.
Implicit Type link : zipc_link_t T.

(** C13. A send is all or nothing: from an owned buffer and a current link,
    [zipc_send] either (OK, or TRANSPORT_PUBLISHED when only the wake-up
    failed) moves the slot into transfer to the peer, queues its announcement
    and invalidates the caller's buffer; or, for a reason the transport or the
    slot contract gives, leaves the slot as it was, the buffer valid and the
    queue unchanged; or, when re-enabling the payload
    mapping fails during the rollback, leaves the slot claimed for recovery and
    the buffer invalid.  No other slot, component, generator or payload byte
    changes, and the slot stays well formed. *)
Theorem send_all_or_nothing link a b s pool hd q w :
  can_send link a b s pool hd w → transport_queue (l_transport link) w q →
  wp (zipc_send (Some link) a)
    (λ r w', ∃ s', link_effect pool hd (b_slot_id b) s' w w' ∧
       slot_ok (h_slot_capacity hd) s' ∧ send_outcome link a b s hd q w s' r w') w.
Proof. apply wp_send. Qed.

(** C14. A receive delivers the oldest announcement that still stands: stale
    announcements (of a slot that is no longer in transfer, of an earlier
    generation or of an earlier transfer) are consumed and skipped, then the
    standing one is claimed.  On OK the receiver owns the slot, with the same
    buffer and one more hop, through a live view; an expired deadline or an
    exhausted hop limit is reported and leaves the transfer in place.  Every slot
    stays well formed, nothing else changes, and the loop ends within one turn per stale message. *)
Theorem recv_delivers fuel link pool hd cs views a stale m q b w :
  recv_ready link pool hd cs views a w →
  transport_queue (l_transport link) w (stale ++ m :: q) →
  Forall (λ x, for_link link hd x ∧
               stale_message (views (claim_slot x)) (l_local_component link) x) stale →
  announced link hd (views (claim_slot m)) m b →
  (∀ e, (protect_result pool hd (claim_slot m) true e).1 = ZIPC_OK) →
  (length stale < fuel)%nat →
  wp (zipc_recv fuel (Some link) a) (recv_result link pool hd views a m q b w) w.
Proof. apply wp_recv. Qed.

(** ** The copying interface *)

(** Two ends of one channel: the sender's and the receiver's link over the same
    pool and queue, without limits, in a pool whose payload mappings can be
    changed. *)
Record channel (ls lr : zipc_link_t T) (pool : zipc_pool_t) (hd : zipc_pool_header_t)
    (cs cr : zipc_component_status_t) w : Prop := {
  ch_sender : receiver_ready ls pool cs w;
  ch_receiver : receiver_ready lr pool cr w;
  ch_there : l_remote_component ls = l_local_component lr;
  ch_back : l_remote_component lr = l_local_component ls;
  ch_queue w' q : transport_queue (l_transport ls) w' q → transport_queue (l_transport lr) w' q;
  ch_deadline : l_default_deadline_ns ls = 0;
  ch_hops : l_hop_limit ls = ZIPC_HOP_LIMIT_UNLIMITED;
  ch_protect i rw e : i < h_slot_count hd → (protect_result pool hd i rw e).1 = ZIPC_OK }.

Lemma same_geometry_protect pool hd hd' i rw (e : E) :
  same_geometry hd hd' → protect_result pool hd' i rw e = protect_result pool hd i rw e.
Proof. unfold protect_result. by intros (-> & -> & ->). Qed.
Lemma channel_frame ls lr pool hd hd' cs cr w w' :
  channel ls lr pool hd cs cr w → same_geometry hd hd' → w_components w' = w_components w →
  channel ls lr pool hd' cs cr w'.
Proof.
  intros [[] [] ? ? ? ? ? Hp] Hg Hc. split; try done; [split; rewrite ?Hc; done..|].
  intros i rw e. rewrite (same_geometry_protect _ _ _ _ _ _ Hg), (proj1 Hg). apply Hp.
Qed.

(** A slot changed by an operation with a frame. *)
Lemma pool_views_set pool hd hd' views i s' w w' :
  pool_views pool hd views w → 0 <= i < h_slot_count hd →
  h_slot_count hd' = h_slot_count hd → h_slot_capacity hd' = h_slot_capacity hd →
  slot_ok (h_slot_capacity hd) s' →
  w_controls w' = <[slot_key pool i := s']> (w_controls w) →
  w_headers w' = <[p_header pool := hd']> (w_headers w) →
  w_components w' = w_components w →
  pool_views pool hd' (λ j, if j =? i then abs_slot s' else views j) w'.
Proof.
  intros [[A1 A2 A3 A4] Hcap Hslots] Hi Gn Gc Hok Hctl Hhdr Hcomp.
  split; rewrite ?Gc, ?Gn; [|done|].
  - split; rewrite ?Gn; [|done| |].
    + rewrite Hhdr. apply lookup_insert_eq.
    + intros j Hj. rewrite Hctl. apply lookup_insert_is_Some'. right. by apply A3.
    + intros c Hc. rewrite Hcomp. by apply A4.
  - intros j Hj. rewrite Hctl. destruct (Z.eqb_spec j i) as [->|Hne].
    + rewrite lookup_insert_eq. eauto.
    + rewrite lookup_insert_ne by (unfold slot_key; congruence). by apply Hslots.
Qed.

(** The buffer a fresh allocation of [size] bytes on [link] leaves. *)
Record fresh_buffer link (pool : zipc_pool_t) (hd' : zipc_pool_header_t) (views : Z → slot_view)
    (a size : Z) (b : zipc_buffer_impl_t) (s : zipc_slot_control_t) w : Prop := {
  fb_send : can_send link a b s pool hd' w;
  fb_views : pool_views pool hd' views w;
  fb_view : views (b_slot_id b) = abs_slot s;
  fb_slot : 0 <= b_slot_id b < h_slot_count hd';
  fb_token : s_claim_token s = 0;
  fb_region : s_region s = ZipcRegion 0 size;
  fb_limits : s_hop_limit s = ZIPC_HOP_LIMIT_UNLIMITED;
  fb_deadline : s_deadline_ns s = ZIPC_DEADLINE_NONE;
  fb_base : b_slot_base b = p_payload_base pool + b_slot_id b * h_slot_stride hd';
  fb_capacity : b_capacity b = h_slot_capacity hd';
  fb_hops : s_hop_count s = 1 }.

(** A slot taken by an allocation, with its view, is a fresh buffer. *)
Lemma alloc_fresh link pool hd hd' cs views a size i g session sequence now s' w w' :
  receiver_ready link pool cs w → pool_views pool hd views w →
  zipc_component_id_valid (l_remote_component link) = true → a ≠ 0 →
  0 <= i < h_slot_count hd → in_u32 g →
  h_slot_count hd' = h_slot_count hd → h_slot_capacity hd' = h_slot_capacity hd →
  h_slot_stride hd' = h_slot_stride hd →
  abs_slot s' = SlotView (Owned (l_local_component link) (l_local_epoch link)
    (fresh_info (l_local_component link) 0 0 size ZIPC_HOP_LIMIT_UNLIMITED 0 g session sequence now)) 0 →
  slot_ok (h_slot_capacity hd) s' →
  w_controls w' = <[slot_key pool i := s']> (w_controls w) →
  w_headers w' = <[p_header pool := hd']> (w_headers w) →
  w_components w' = w_components w →
  w_buffers w' = <[a := view_of pool hd i (zipc_handle_make i g) s']> (w_buffers w) →
  fresh_buffer link pool hd' (λ j, if j =? i then abs_slot s' else views j) a size
    (view_of pool hd i (zipc_handle_make i g) s') s' w'.
Proof.
  intros [Hpool Hloc Hc He] Hviews Hrem Ha Hi Hg Gn Gc Gs Habs Hok Hctl Hhdr Hcomp Hbuf.
  pose proof (pool_views_set pool hd hd' views i s' w w' Hviews Hi Gn Gc Hok Hctl Hhdr Hcomp) as Hv'.
  assert (Hiu : in_u32 i).
  { pose proof (at_count _ _ _ (pv_attached _ _ _ _ Hviews)). unfold in_u32. lia. }
  pose proof Habs as (Hst & Ho & Hep & Hinfo & Htok)%abs_owned.
  injection Hinfo as I1 I2 I3 I4 I5 I6 I7 I8.
  pose proof (slot_ok_owned _ _ Hok Hst) as [_ _ _ Hreg].
  split; cbn; try done; rewrite ?Gn, ?Gs, ?Gc, ?Z.eqb_refl; try done.
  split; cbn; try done; rewrite ?Gn, ?Gc; try done.
  - split; cbn; try done.
    + rewrite Hbuf. apply lookup_insert_eq.
    + rewrite Hctl. apply lookup_insert_eq.
    + by rewrite handle_generation_make.
    + by rewrite Ho.
    + exists cs. rewrite Hcomp, Ho, Hep. by split.
    + apply (pv_capacity _ _ _ _ Hviews).
  - apply Hv'.
  - by rewrite handle_slot_id_make.
  - apply Hi.
Qed.

(** A slot an allocation can take. *)
Definition free_view (v : slot_view) : Prop := ∃ g, v = SlotView (Free g) 0.
Lemma free_view_allocatable s : free_view (abs_slot s) ↔ allocatable s = true.
Proof.
  unfold allocatable, abs_slot, free_view. destruct (s_state s); cbn; try naive_solver.
  change (state_is _ _) with true. rewrite andb_true_l, Z.eqb_eq.
  split; [by intros [g [=]]|intros ->; by eexists].
Qed.
(** An allocation cannot fail: a slot is free and the scan reaches it, the
    identifiers of the session are not used up, and mappings can be enabled. *)
Record can_allocate (pool : zipc_pool_t) (hd : zipc_pool_header_t) (views : Z → slot_view)
    (g : zipc_buffer_id_generator_t) : Prop := {
  ca_scan : h_slot_count hd <= 2147483648;
  ca_free : ∃ i, 0 <= i < h_slot_count hd ∧ free_view (views i);
  ca_identifiers : ¬ exhausted g;
  ca_protect i (e : E) : i < h_slot_count hd → (protect_result pool hd i true e).1 = ZIPC_OK }.

Lemma wp_alloc_fresh fuel link pool hd cs g views a size w :
  receiver_ready link pool cs w → pool_views pool hd views w →
  zipc_component_id_valid (l_remote_component link) = true →
  l_default_deadline_ns link = 0 → l_hop_limit link = ZIPC_HOP_LIMIT_UNLIMITED →
  a ≠ 0 → is_Some (w_buffers w !! a) → 0 <= size <= h_slot_capacity hd →
  (List.length (w_spurious w) + 1 < fuel)%nat → generator_ok g →
  w_generators w !! l_local_component link = Some g →
  wp (zipc_buffer_alloc fuel (Some link) size a 0)
    (λ r w', (can_allocate pool hd views g → r = ZIPC_OK) ∧
       (r = ZIPC_OK → ∃ hd' b s session sequence,
       fresh_buffer link pool hd' (λ j, if j =? b_slot_id b then abs_slot s else views j)
         a size b s w' ∧
       same_geometry hd hd' ∧ w_components w' = w_components w ∧ w_rings w' = w_rings w ∧
       w_buffers w' = <[a := b]> (w_buffers w) ∧ w_payload w' = w_payload w ∧
       (length (w_spurious w') <= length (w_spurious w))%nat ∧ free_view (views (b_slot_id b)) ∧
       issues g session sequence ∧
       w_generators w' = <[l_local_component link := ZipcGenerator session (sequence + 1) 0]>
                           (w_generators w))) w.
Proof.
  intros [Hpool Hloc Hc He] Hviews Hrem Hdl Hhop Ha Hb Hsize Hf Hgok Hg.
  pose proof Hviews as [Hat Hcap Hslots]. unfold in_u32 in Hcap.
  unfold zipc_buffer_alloc, zipc_buffer_alloc_ex.
  rewrite (proj2 (Z.eqb_neq a 0) Ha), (proj2 (Z.ltb_ge _ _)) by lia. psimpl.
  apply wp_bind. eapply wp_link_fresh; [done|by rewrite Hpool|done|].
  apply wp_bind. eapply wp_header_read; [rewrite Hpool; apply Hat|]. rewrite Hpool.
  assert ((u64 (0 + size) <? 0) || (u64 (u64 (0 + size) + 0) <? size)
          || (h_slot_capacity hd <? u64 (u64 (0 + size) + 0)) = false) as ->.
  { rewrite Z.add_0_l, Z.add_0_r, !u64_small by (unfold in_u64; lia). lia. }
  rewrite (proj2 (Z.eqb_neq 0 a)) by done. psimpl.
  apply wp_bind, wp_ret, wp_bind, wp_ret, wp_bind, wp_buffer_invalidate; [done|done|].
  rewrite (u32_small 0), (u32_small size) by (unfold in_u32; lia). rewrite Hdl, Hhop.
  eapply wp_mono; [eapply (wp_buffer_allocate pool hd (l_local_component link) 0 0 size
    (l_local_epoch link) ZIPC_HOP_LIMIT_UNLIMITED 0 a fuel true (l_local_epoch link) cs g)|].
  1-12: try done.
  - destruct Hat. by split.
  - cbn. rewrite lookup_insert_eq. by eexists.
  - by left.
  - unfold region_fits. cbn. lia.
  - lia.
  - rewrite He. by destruct (negb _).
  - intros r w' (Hout & Hcomp & Hrings & Hpay & _ & Hsp).
    destruct Hout as [(n & s & Hn & Hs & Hal & _ & Halloc)|(Hnone & -> & _)].
    2: { split; [|done]. intros [Hmax (i & Hi & Hfree) _ _]. exfalso.
      destruct (scan_covers hd i ltac:(lia) Hi) as (n & Hn & <-).
      destruct (Hslots _ Hi) as (s & Hs & Hv & _). specialize (Hnone n Hn).
      unfold allocatable_at in Hnone. cbn in Hnone. rewrite Hs in Hnone. rewrite <- Hv in Hfree.
      apply free_view_allocatable in Hfree. congruence. }
    cbn in Hs. destruct (Hslots (scan_slot hd n)) as (s0 & Hs0 & Hv0 & Hok0).
    { apply scan_slot_range. lia. }
    rewrite Hs0 in Hs. injection Hs as <-. pose proof (scan_slot_range hd n ltac:(lia)) as Hscan.
    inversion Halloc as [s' session sequence now w2 Hctl Hiss Habs Hhdr Hgen Hbuf Hok'
                        |s' g' st w2 Hctl Hwhy]; subst.
    2: { split; [|destruct Hwhy as [(->&_)|(_&?&_)]; done].
      intros [_ _ Hid Hprot]. destruct Hwhy as [(_&?&_)|(_&Hne&e&_&_&->&_)]; [done|].
      apply Hprot. lia. }
    split; [done|]. intros _. destruct Hok0 as [Hbase _]. eexists (bump_allocation
      (set_cursor (u32 (scan_slot hd n + 1) `mod` h_slot_count hd) hd)),
      (view_of (l_pool link) hd (scan_slot hd n)
         (zipc_handle_make (scan_slot hd n) (next_generation (s_generation s0))) s'),
      s', session, sequence.
    split_and!; try done.
    + eapply (alloc_fresh link (l_pool link) hd _ cs views a size (scan_slot hd n)
        (next_generation (s_generation s0)) session sequence now); try done.
      * apply next_generation_u32, Hbase.
      * by apply Hok'.
      * rewrite Hbuf. cbn. by rewrite insert_insert_eq.
    + rewrite Hbuf. cbn. by rewrite insert_insert_eq.
    + cbn. rewrite <- Hv0. by apply free_view_allocatable.
Qed.

(** Handing a live view back. *)
Lemma wp_release_view a b s pool hd w :
  let i := zipc_handle_slot_id (b_handle b) in
  owned_view a b (slot_key pool i) s pool w → attached pool hd w →
  i < h_slot_count hd → s_claim_token s = 0 →
  wp (zipc_buffer_release a)
    (λ r w', (∀ e, (protect_result pool hd i false e).1 = ZIPC_OK) → r = ZIPC_OK ∧
       ∃ s', slot_effect pool i s' (bump_release hd) w w' ∧
         abs_slot s' = SlotView (Free (s_generation s)) 0 ∧
         (slot_ok (h_slot_capacity hd) s → slot_ok (h_slot_capacity hd) s') ∧
         w_buffers w' = <[a := zero_buffer]> (w_buffers w)) w.
Proof.
  intros i Hov Hat Hrange Htok. subst i.
  pose proof Hov as [Ha Hb Hl Hk Hp Hs Hst Hg Ho Hv He (cs & Hc & Hlive) _ _ _ _].
  unfold zipc_buffer_release. rewrite (proj2 (Z.eqb_neq a 0) Ha).
  apply wp_bind. eapply wp_buffer_owned; [exact Hov|]. psimpl.
  apply wp_bind. eapply wp_buffer_read; [exact Hb|]. rewrite Hp in *. apply wp_bind.
  eapply wp_mono; [by eapply (wp_release pool hd s cs)|]. cbv zeta.
  intros r w' ((s' & Heff & Hr & Habs & Hok') & Hbuf & _).
  assert (Hsv : spec_release (protect_result pool hd (zipc_handle_slot_id (b_handle b)) false
                  (w_env w)).1 (zipc_handle_generation (b_handle b)) (b_owner b)
                  (live_epoch (c_lifecycle cs)) (abs_slot s) =
          if status_is (protect_result pool hd (zipc_handle_slot_id (b_handle b)) false
                  (w_env w)).1 ZIPC_OK
          then Outcome ZIPC_OK false (SlotView (Free (s_generation s)) 0)
          else Outcome (protect_result pool hd (zipc_handle_slot_id (b_handle b)) false
                  (w_env w)).1 false (abs_slot s)).
  { unfold spec_release, abs_slot. rewrite Hst, Htok, Ho, He, Hlive. cbn.
    rewrite Hg, !Z.eqb_refl. psimpl. by destruct (status_is (protect_result _ _ _ _ _).1 _). }
  rewrite Hsv in Hr, Habs. destruct (status_is r ZIPC_OK) eqn:Hok.
  - apply bool_decide_eq_true in Hok. apply wp_bind, wp_buffer_invalidate; [done|by rewrite Hbuf; eexists|].
    apply wp_ret. intros Hprot. rewrite Hprot in Habs. split; [done|]. exists s'.
    destruct Heff as (Hctl & Hhdr & []).
    split_and!; [split_and!; [done|done|by split]|done|done|].
    cbn. by rewrite Hbuf.
  - apply wp_ret. intros Hprot. rewrite Hprot in Hr. by subst r.
Qed.

(** A view depends on its slot only through the slot's abstract state. *)
Lemma owned_view_same a b k s s' pool w w' :
  owned_view a b k s pool w → abs_slot s' = abs_slot s →
  w_controls w' !! k = Some s' → w_buffers w' = w_buffers w → w_components w' = w_components w →
  owned_view a b k s' pool w'.
Proof.
  intros [? ? ? ? ? ? Hstate] Habs Hs Hbuf Hcomp. unfold abs_slot in Habs. rewrite Hstate in Habs.
  destruct (s_state s') eqn:Hst; try discriminate. injection Habs as ??????????.
  split; try done; try congruence. by rewrite Hcomp.
Qed.

Lemma can_send_payload link a b s pool hd f w :
  can_send link a b s pool hd w → can_send link a b s pool hd (put_payload f w).
Proof.
  intros [Hov [] ? ? ? ? ? ? ?]. split; try done. by apply owned_view_payload.
Qed.

(** Reading the view of an owned buffer. *)
Lemma wp_if_owned {A} a b k s pool (default : A) (f : zipc_buffer_impl_t → prog (world E) A) Q w :
  owned_view a b k s pool w → wp (f b) Q w → wp (if_owned a default f) Q w.
Proof.
  intros Hov HQ. unfold if_owned. apply wp_bind. eapply wp_buffer_owned; [exact Hov|]. psimpl.
  apply wp_bind. eapply wp_buffer_read; [apply Hov|done].
Qed.

(** The copy of the caller's bytes into a fresh buffer. *)
Lemma wp_fill a b k s pool d Q w :
  owned_view a b k s pool w →
  (∀ f, bytes f (b_data b) (Z.of_nat (length d)) = d → Q tt (put_payload f w)) →
  wp (if negb (Z.of_nat (length d) =? 0) then
        destination ← zipc_buffer_data a; memcpy_in destination d (Z.of_nat (length d))
      else mret ()) Q w.
Proof.
  intros Hov HQ. destruct (Z.eqb_spec (Z.of_nat (length d)) 0) as [Hz|Hz]; psimpl.
  - destruct d; [|done]. apply wp_ret. rewrite <- put_payload_id. by apply HQ.
  - apply wp_bind, (wp_if_owned a b k s pool); [done|]. apply wp_ret, wp_memcpy_in, HQ, bytes_copy_in.
Qed.

(** A message in flight to [lr] for a buffer without limits that holds [d]. *)
Record in_flight (lr : zipc_link_t T) (pool : zipc_pool_t) (hd : zipc_pool_header_t)
    (views : Z → slot_view) (m : zipc_message_t) (d : list Z) w : Prop := {
  if_views : pool_views pool hd views w;
  if_queue : transport_queue (l_transport lr) w [m];
  if_announced : ∃ b, announced lr hd (views (claim_slot m)) m b ∧
    bi_region b = ZipcRegion 0 (Z.of_nat (length d)) ∧
    bi_deadline b = ZIPC_DEADLINE_NONE ∧ bi_hop_limit b = ZIPC_HOP_LIMIT_UNLIMITED;
  if_bytes : bytes (w_payload w) (p_payload_base pool + claim_slot m * h_slot_stride hd)
               (Z.of_nat (length d)) = d }.

(** The send of a filled fresh buffer. *)
Lemma wp_send_filled ls lr pool hd views cs cr a b s d w :
  channel ls lr pool hd cs cr w → fresh_buffer ls pool hd views a (Z.of_nat (length d)) b s w →
  transport_queue (l_transport ls) w [] → bytes (w_payload w) (b_data b) (Z.of_nat (length d)) = d →
  wp (zipc_send (Some ls) a)
    (λ r w', w_components w' = w_components w ∧
       ∃ hd', same_geometry hd hd' ∧ attached pool hd' w' ∧
       if status_is r ZIPC_OK
       then w_buffers w' = <[a := zero_buffer]> (w_buffers w) ∧
            ∃ views' m, in_flight lr pool hd' views' m d w'
       else (w_buffers w' = <[a := zero_buffer]> (w_buffers w) ∨
             ∃ s', owned_view a b (slot_key pool (b_slot_id b)) s' pool w' ∧
                   s_claim_token s' = 0)) w.
Proof.
  intros Hch [Hsend Hviews Hview Hrange Htok Hreg Hlim Hdl Hbase _] Hq Hbytes.
  eapply wp_mono; [by eapply wp_send|]. intros r w' (s' & Heff & Hok' & Hout).
  pose proof Heff as (Hctl & _ & Hcomp & _ & Hpay & _). split; [done|].
  destruct (attached_link_effect _ _ _ _ _ _ (pv_attached _ _ _ _ Hviews) Heff) as (error & Hat' & Hhdr).
  exists (counted error hd). split; [apply counted_geometry|split; [done|]].
  destruct Hout as [r w' Hr _ Habs Hbuf Hq'|r w' Hr _ Habs Hbuf Hq'|r w' e ? _ _ Hr _ Habs Hbuf Hq'].
  - destruct (status_is r ZIPC_OK) eqn:Hst; [|by left]. split; [done|].
    destruct (counted_geometry error hd) as (Gn & Gc & Gs).
    exists (λ j, if j =? b_slot_id b then abs_slot s' else views j), (announcement ls b s).
    pose proof Hsend as [Hov _ Hid _ _ Hpool _ _ _].
    assert (Hclaim : claim_slot (announcement ls b s) = b_slot_id b) by done.
    split; rewrite ?Hclaim, ?Gs, ?Z.eqb_refl.
    + by eapply (pool_views_set pool hd _ views _ s' w w').
    + by apply Hch.
    + exists (next_sequence (info_of s)). split_and!; [|done..]. destruct Hch as [? Hr2 C1 C2].
      split; [split| |exact (ov_generation _ _ _ _ _ _ Hov)|done].
      * done.
      * done.
      * cbn. rewrite Hpool. by rewrite (rr_pool _ _ _ _ Hr2).
      * cbn. rewrite <- Hid, Gn. lia.
      * cbn. eexists _, _. rewrite Habs, C1. done.
    + rewrite Hpay, <- Hbase. rewrite (ov_data _ _ _ _ _ _ Hov), Hreg, Z.add_0_r in Hbytes. done.
  - assert (status_is r ZIPC_OK = false) as -> by by apply bool_decide_eq_false. right. exists s'. split.
    + eapply owned_view_same; [apply Hsend|done| |done|done]. rewrite Hctl. apply lookup_insert_eq.
    + by injection Habs as _ Htok'; rewrite Htok'.
  - assert (status_is r ZIPC_OK = false) as -> by by apply bool_decide_eq_false. by left.
Qed.
Lemma same_geometry_trans h1 h2 h3 : same_geometry h1 h2 → same_geometry h2 h3 → same_geometry h1 h3.
Proof. unfold same_geometry. intuition congruence. Qed.
Lemma fresh_buffer_payload link pool hd views a size b s f w :
  fresh_buffer link pool hd views a size b s w →
  fresh_buffer link pool hd views a size b s (put_payload f w).
Proof.
  intros [Hs [[] ? ?]]. split; try done; [by apply can_send_payload].
Qed.
Lemma wp_zeroed_not_owned a Q w :
  a ≠ 0 → w_buffers w !! a = Some zero_buffer → Q false w → wp (buffer_owned a) Q w.
Proof.
  intros Ha Hb HQ. unfold buffer_owned, buffer_valid. rewrite (proj2 (Z.eqb_neq a 0) Ha).
  apply wp_bind, wp_bind. eapply wp_buffer_read; [done|]. by apply wp_ret, wp_ret.
Qed.

Lemma wp_send_copy fuel ls lr pool hd views cs cr g a d w :
  channel ls lr pool hd cs cr w → pool_views pool hd views w →
  zipc_component_id_valid (l_remote_component ls) = true → a ≠ 0 → is_Some (w_buffers w !! a) →
  Z.of_nat (length d) <= h_slot_capacity hd →
  (length (w_spurious w) + 1 < fuel)%nat → generator_ok g →
  w_generators w !! l_local_component ls = Some g → transport_queue (l_transport ls) w [] →
  wp (zipc_send_copy fuel (Some ls) (Some d) (Z.of_nat (length d)) a)
    (λ r w', r = ZIPC_OK → ∃ hd' views' m, channel ls lr pool hd' cs cr w' ∧
       same_geometry hd hd' ∧ in_flight lr pool hd' views' m d w' ∧
       ∀ x, is_Some (w_buffers w !! x) → is_Some (w_buffers w' !! x)) w.
Proof.
  intros Hch Hviews Hrem Ha Hb Hd Hf Hgok Hg Hq. unfold zipc_send_copy.
  rewrite (bool_decide_eq_false_2 (Some d = None)), andb_false_r by done. apply wp_bind.
  eapply wp_mono; [eapply (wp_alloc_fresh fuel ls pool hd cs g views a); try done; try apply Hch; lia|].
  intros r w1 Hr. destruct (status_is r ZIPC_OK) eqn:Hst; psimpl;
    [|apply wp_ret; by apply bool_decide_eq_false in Hst].
  destruct Hr as [_ (hd1 & b & s & _ & _ & Hfresh & Hg1 & Hc1 & Hrings1 & Hb1 & _)];
    [by apply bool_decide_eq_true in Hst|]. set (views1 := λ j, if j =? b_slot_id b then _ else _) in *. apply wp_bind.
  pose proof (cs_view _ _ _ _ _ _ _ (fb_send _ _ _ _ _ _ _ _ _ Hfresh)) as Hov.
  eapply (wp_fill a b); [exact Hov|]. intros f Hfill. apply wp_bind.
  eapply wp_mono; [eapply (wp_send_filled ls lr pool hd1 views1 cs cr a b s d)|].
  - by eapply channel_frame.
  - by apply fresh_buffer_payload.
  - by eapply transport_queue_frame, Hq.
  - done.
  - intros r2 w2 (Hc2 & hd2 & Hg2 & Hat2 & Hr2). destruct (status_is r2 ZIPC_OK) eqn:Hst2; psimpl.
    + apply wp_ret. intros _. destruct Hr2 as (Hb2 & views2 & m & Hin). exists hd2, views2, m.
      split_and!; [|by eapply same_geometry_trans|done|].
      * eapply channel_frame; [exact Hch|by eapply same_geometry_trans|by rewrite Hc2].
      * intros x Hx. rewrite Hb2. cbn. rewrite Hb1. by do 2 (apply lookup_insert_is_Some'; right).
    + apply bool_decide_eq_false in Hst2. apply wp_bind.
      destruct Hr2 as [Hz|(s2 & Hov2 & Htok2)].
      * eapply wp_zeroed_not_owned; [done|rewrite Hz; apply lookup_insert_eq|]. by apply wp_ret.
      * eapply wp_buffer_owned; [exact Hov2|]. apply wp_bind.
        eapply wp_mono; [eapply (wp_release_view a b s2 pool hd2); try done|].
        -- by rewrite <- (cs_slot _ _ _ _ _ _ _ (fb_send _ _ _ _ _ _ _ _ _ Hfresh)).
        -- rewrite (proj1 Hg2), <- (cs_slot _ _ _ _ _ _ _ (fb_send _ _ _ _ _ _ _ _ _ Hfresh)).
           apply Hfresh.
        -- intros r3 w3 _. by apply wp_ret.
Qed.
Lemma bytes_seq f x n : map (λ i, f (x + Z.of_nat i)) (seq 0 n) = bytes f x (Z.of_nat n).
Proof.
  unfold bytes, seqZ. rewrite Nat2Z.id, map_map. apply map_ext. intros i. f_equal. lia.
Qed.

Lemma wp_recv_copy fuel ls lr pool hd cs cr views m d a capacity w :
  channel ls lr pool hd cs cr w → in_flight lr pool hd views m d w →
  a ≠ 0 → is_Some (w_buffers w !! a) → Z.of_nat (length d) <= capacity → (0 < fuel)%nat →
  wp (zipc_recv_copy fuel (Some lr) true capacity true a)
    (λ r w', r = (ZIPC_OK, Some (Z.of_nat (length d)), if decide (d = []) then None else Some d)) w.
Proof.
  intros Hch [Hviews Hq (b & Hann & Hreg & Hdl & Hlim) Hbytes] Ha Hb Hcap Hf.
  unfold zipc_recv_copy. rewrite andb_false_r. psimpl. apply wp_bind.
  eapply wp_mono; [eapply (wp_recv fuel lr pool hd cr views a [] m [] b); try done|].
  - split; try done. apply Hch.
  - intros e. by apply (ch_protect _ _ _ _ _ _ _ Hch), Hann.
  - intros r w1 (now & s1 & _ & Hc1 & Hpay & (hd1 & Hg1 & Hat1) & Hs1 & _ & _ & Hres).
    assert (info_late now b = false) as Hlate by (unfold info_late; by rewrite Hdl).
    assert (info_exhausted b = false) as Hex by (unfold info_exhausted; by rewrite Hlim).
    rewrite Hlate, Hex in Hres. destruct Hres as (-> & Habs & v & Hov & _ & Hh & Hbase). status_eval.
    apply abs_owned in Habs as (_ & _ & _ & Hi & Htok).
    assert (Hr1 : s_region s1 = ZipcRegion 0 (Z.of_nat (length d))).
    { change (s_region s1) with (bi_region (info_of s1)). by rewrite Hi. }
    assert (Hlen : b_length v = Z.of_nat (length d)) by by rewrite (ov_length _ _ _ _ _ _ Hov), Hr1.
    assert (Hread : bytes (w_payload w1) (b_data v) (Z.of_nat (length d)) = d).
    { by rewrite (ov_data _ _ _ _ _ _ Hov), Hr1, Hbase, Hpay, Z.add_0_r. }
    apply wp_bind. eapply wp_if_owned; [exact Hov|]. apply wp_ret. rewrite Hlen.
    rewrite (proj2 (Z.ltb_ge _ _)) by done. apply wp_bind.
    apply (wp_mono _ (λ r w', w' = w1 ∧ r = if decide (d = []) then None else Some d)).
    { destruct d; [by apply wp_ret|]. psimpl. apply wp_bind. eapply wp_if_owned; [exact Hov|].
      apply wp_ret, wp_bind. eapply wp_act; [done|]. apply wp_ret. split; [done|].
      cbn [decide]. rewrite bytes_seq, Nat2Z.id. by rewrite Hread. }
    intros r ? [-> ->]. apply wp_bind. unfold claim_slot in *. rewrite <- Hh in *.
    eapply wp_mono; [eapply (wp_release_view a v s1 pool hd1); try done|].
    + rewrite (proj1 Hg1), Hh. apply Hann.
    + intros r w2 Hr. apply wp_ret. destruct Hr as [-> _]; [|done]. intros e.
      rewrite (same_geometry_protect _ _ _ _ _ _ Hg1). apply Hch. rewrite Hh. apply Hann.
Qed.

(** C12. The copying interface carries bytes end to end: over a channel whose
    queue is empty, once [zipc_send_copy] of the bytes [d] has returned OK, a
    [zipc_recv_copy] at the other end into a large enough array returns OK with
    the size and exactly the bytes sent (none are written when [d] is empty),
    and the status is that of giving the receiver's buffer back to the pool. *)
Theorem copy_roundtrip fuel fuel' ls lr pool hd views cs cr g a a' d capacity w :
  channel ls lr pool hd cs cr w → pool_views pool hd views w →
  zipc_component_id_valid (l_remote_component ls) = true →
  a ≠ 0 → is_Some (w_buffers w !! a) → a' ≠ 0 → is_Some (w_buffers w !! a') →
  Z.of_nat (length d) <= h_slot_capacity hd → Z.of_nat (length d) <= capacity →
  (length (w_spurious w) + 1 < fuel)%nat → (0 < fuel')%nat → generator_ok g →
  w_generators w !! l_local_component ls = Some g → transport_queue (l_transport ls) w [] →
  wp (zipc_send_copy fuel (Some ls) (Some d) (Z.of_nat (length d)) a)
    (λ st w1, st = ZIPC_OK →
       wp (zipc_recv_copy fuel' (Some lr) true capacity true a')
         (λ r w2, r = (ZIPC_OK, Some (Z.of_nat (length d)),
                       if decide (d = []) then None else Some d)) w1) w.
Proof.
  intros Hch Hviews Hrem Ha Hb Ha' Hb' Hd Hcap Hf Hf' Hgok Hg Hq.
  eapply wp_mono; [by eapply wp_send_copy|]. intros st w1 Hst ->.
  destruct (Hst eq_refl) as (hd' & views' & m & Hch' & _ & Hin & Hbufs).
  eapply wp_recv_copy; eauto.
Qed.
End delivery.
