(* ===== verification/LinuxDemo.v ===== *)
(** * Two components over a shared ring

    The pool of Demo.v with a ring between components 7 and 9 and an operating
    system that offers memory and nothing else, on which the theorems of
    LinuxTransportSpec.v and Delivery.v are evaluated. *)
From Stdlib Require Import String.
From S2P Require Import Prelude Types Packing Visited Prog Store Identity Slot SlotRun.
From S2P Require Import IdentitySpec SlotSpec Alloc Demo Recovery Layout Ring RingSpec Buffer BufferSpec.
From S2P Require Import Link LinkSpec LinuxTransport LinuxTransportSpec Delivery.

#[export] Instance demo_linux : LinuxOs demo := {
  os_calloc e := (Some 500, e);
  os_free _ e := e;
  os_mq_open _ _ e := (-1, e);
  os_mq_close _ e := e;
  os_mq_unlink _ e := e;
  os_socket e := (-1, e);
  os_bind _ _ e := (false, e);
  os_mkfifo _ e := (false, e);
  os_open _ e := (-1, e);
  os_close _ e := e;
  os_unlink _ e := e;
  os_eventfd e := (-1, e);
  os_mmap _ e := (Some 600, e);
  os_munmap _ _ e := e;
  os_mq_send _ _ e := (false, e);
  os_mq_receive _ e := ((-1, zero_message), e);
  os_write _ _ e := (-1, e);
  os_read _ e := ((-1, zero_message), e);
  os_sendto _ _ _ e := (-1, e);
  os_recv _ e := ((-1, zero_message), e);
  os_eventfd_write _ e := (false, e);
  os_eventfd_read _ e := (EventFailed, e);
  os_signal_send _ _ e := (ZIPC_ERR_PLATFORM, e);
  os_signal_wait _ _ _ e := (ZIPC_ERR_PLATFORM, e);
  os_secure_call _ _ _ _ e := ((ZIPC_ERR_PLATFORM, zero_message), e);
  os_mailbox_store _ _ e := e;
  os_mailbox_load _ _ := zero_message;
  os_response_store _ _ e := e;
  os_response_load _ _ := None }.

Lemma demo_clock_advances : clock_advances (E := demo).
Proof. intros e Hn. simpl in *. zlia. Qed.

Definition demo_transport : zipc_platform_transport_t :=
  ZipcTransport 501 ZIPC_TRANSPORT_SHM_RING_POLLING false None false false
    (HandleRingPolling 77 112 10).
Definition demo_link (local remote : Z) : zipc_link_t zipc_platform_transport_t :=
  {| l_pool := demo_pool; l_transport := demo_transport;
     l_local_component := local; l_remote_component := remote; l_link_id := 5;
     l_local_epoch := 1; l_role := ZIPC_LINK_ROLE_UNSPECIFIED;
     l_transport_type := ZIPC_TRANSPORT_SHM_RING_POLLING; l_recovery_ring := 77;
     l_hop_limit := ZIPC_HOP_LIMIT_UNLIMITED; l_default_deadline_ns := 0; l_timeout_ticks := 10 |}.
Definition empty_ring : zipc_transport_spsc_ring_t :=
  ZipcRing 0 0 4 (repeat zero_message 4).
(** Slot 0 is free or in transfer, the ring is empty or announces it. *)
Definition demo_idle : world demo := put_ring 77 empty_ring (demo_world_with demo_free demo_free).
Definition demo_sent : world demo := put_ring 77 demo_ring (demo_world_with demo_transfer demo_free).

Lemma empty_ring_at (w : world demo) : ring_at 77 empty_ring (put_ring 77 empty_ring w).
Proof.
  split; [done|]. split; [apply lookup_insert_eq|].
  by destruct (fresh_ring_wf 4 ltac:(done) (ex_intro _ 1073741824 eq_refl)).
Qed.
Lemma demo_queue w : linux_queue (E := demo) 5 demo_transport (put_ring 77 demo_ring w) [demo_message].
Proof.
  exists 77, demo_ring. split_and!; [done| |done|cbn; lia].
  split; [done|]. split; [apply lookup_insert_eq|apply demo_ring_wf].
Qed.
Lemma empty_queue w : linux_queue (E := demo) 5 demo_transport (put_ring 77 empty_ring w) [].
Proof. exists 77, empty_ring. split_and!; [done|apply empty_ring_at|done|cbn; lia]. Qed.

Lemma ring_transport_contract_witness :
  wp (zipc_platform_transport_receive_begin 5 demo_transport)
    (λ r _, r.1 = (ZIPC_OK, demo_message)) demo_ring_world.
Proof.
  destruct (ring_transport_contract 5 demo_transport zero_message [demo_message] demo_ring_world)
    as [_ Hrecv]; [by apply demo_queue|].
  eapply wp_mono; [exact (Hrecv _ _ eq_refl)|]. by intros r w' (_ & Hr & _).
Defined.

Lemma polling_receive_times_out_witness :
  wp (zipc_platform_transport_receive_begin 11 demo_transport)
    (λ r _, r.1.1 = ZIPC_ERR_TIMEOUT) demo_idle.
Proof.
  eapply wp_mono; [apply (polling_receive_times_out 11 demo_transport 77 112 10 empty_ring)|].
  - reflexivity.
  - reflexivity.
  - apply empty_ring_at.
  - reflexivity.
  - apply demo_clock_advances.
  - lia.
  - done.
  - done.
  - lia.
  - by intros r w' [Hr _].
Defined.

Definition demo_polling_config : zipc_platform_transport_config_t :=
  ZipcTransportConfig ZIPC_TRANSPORT_SHM_RING_POLLING None false None 0 0 0 4 0 0 0 0 0 0 0 0 0 0 0 0 0.
Lemma open_ring_transport_witness :
  wp (zipc_platform_transport_open demo_polling_config)
    (λ res w', ∃ t, res = inr t ∧ linux_queue 5 t w' []) demo_idle.
Proof.
  eapply wp_mono; [apply (open_ring_transport 5 demo_polling_config 500 600 demo_env demo_env)|].
  - reflexivity.
  - reflexivity.
  - reflexivity.
  - reflexivity.
  - done.
  - done.
  - by exists 1073741824.
  - cbn. lia.
  - intros res w' (_ & t & -> & _ & _ & Hq). eauto.
Defined.

(** ** The link *)
#[export] Instance demo_transport_ops : Transport demo zipc_platform_transport_t := linux_transport 5.
#[export] Instance demo_transport_laws : TransportLaws demo zipc_platform_transport_t :=
  linux_transport_laws 5.

Lemma demo_receiver local remote (w : world demo) :
  local = 7 ∨ local = 9 → w_components w = demo_components →
  receiver_ready (demo_link local remote) demo_pool demo_component w.
Proof.
  intros Hl Hc. split; [done|by destruct Hl as [->| ->]| |vm_compute; reflexivity].
  rewrite Hc. destruct Hl as [->| ->]; vm_compute; reflexivity.
Qed.
Definition demo_views (s0 s1 : zipc_slot_control_t) (i : Z) : slot_view :=
  if i =? 0 then abs_slot s0 else abs_slot s1.
Lemma demo_pool_views s0 s1 (ring : zipc_transport_spsc_ring_t) :
  slot_ok 64 s0 → slot_ok 64 s1 →
  pool_views demo_pool demo_header (demo_views s0 s1) (put_ring 77 ring (demo_world_with s0 s1)).
Proof.
  intros H0 H1. split; [|done|].
  - destruct (demo_attached s0 s1). by split.
  - change (h_slot_count demo_header) with 2. intros i Hi.
    assert (i = 0 ∨ i = 1) as [-> | ->] by lia; eexists; by split_and!.
Qed.

Lemma demo_can_send : can_send (demo_link 7 9) 1 demo_view demo_owned demo_pool demo_header
  (put_ring 77 empty_ring demo_view_world).
Proof.
  split; try done.
  - destruct demo_owned_view. by split.
  - destruct (demo_attached demo_owned demo_free). by split.
  - apply demo_owned_ok.
Qed.
Lemma send_all_or_nothing_witness :
  wp (zipc_send (Some (demo_link 7 9)) 1)
    (λ r w', r = ZIPC_OK ∧ linux_queue 5 demo_transport w' [demo_message])
    (put_ring 77 empty_ring demo_view_world).
Proof.
  pose proof (send_all_or_nothing (demo_link 7 9) 1 demo_view demo_owned demo_pool demo_header []
    (put_ring 77 empty_ring demo_view_world) demo_can_send (empty_queue _)) as Hw.
  eapply wp_mono; [eapply (wp_and _ (λ r _, r = ZIPC_OK)); [vm_compute; reflexivity|exact Hw]|].
  intros r w' (-> & s' & _ & _ & Hout). split; [done|]. exact (send_ok_queue _ _ _ _ _ _ _ _ _ Hout).
Defined.

Lemma demo_announced :
  announced (demo_link 9 7) demo_header (demo_views demo_transfer demo_free 0) demo_message
    (info_of demo_transfer).
Proof. split; [by split| |done|done]. by eexists _, _. Qed.
Lemma demo_protects i rw e :
  i < h_slot_count demo_header → (protect_result demo_pool demo_header i rw e).1 = ZIPC_OK.
Proof.
  intros Hi. unfold protect_result. rewrite (proj2 (Z.leb_gt _ _)) by done. by destruct rw.
Qed.
Lemma demo_recv_ready :
  recv_ready (demo_link 9 7) demo_pool demo_header demo_component
    (demo_views demo_transfer demo_free) 2 demo_sent.
Proof.
  split; [by apply demo_receiver; [right|]| |done|apply demo_buffer_2].
  apply demo_pool_views; [apply demo_transfer_ok|apply demo_free_ok].
Qed.
Lemma recv_delivers_witness :
  wp (zipc_recv 2 (Some (demo_link 9 7)) 2)
    (λ r w', r = ZIPC_OK ∧ linux_queue 5 demo_transport w' []) demo_sent.
Proof.
  pose proof (recv_delivers 2 (demo_link 9 7) demo_pool demo_header demo_component
    (demo_views demo_transfer demo_free) 2 [] demo_message [] (info_of demo_transfer) demo_sent
    demo_recv_ready
    (demo_queue _) ltac:(constructor) demo_announced
    (λ e, demo_protects 0 true e eq_refl) ltac:(cbn; lia)) as Hw.
  eapply wp_mono; [eapply (wp_and _ (λ r _, r = ZIPC_OK)); [vm_compute; reflexivity|exact Hw]|].
  intros r w' (-> & now & s' & Hq & _). by split.
Defined.

Lemma demo_channel :
  channel (demo_link 7 9) (demo_link 9 7) demo_pool demo_header demo_component demo_component
    demo_idle.
Proof.
  split; try done. apply demo_protects.
Qed.
Lemma copy_roundtrip_witness :
  wp (zipc_send_copy 5 (Some (demo_link 7 9)) (Some [10; 20; 30]) 3 1)
    (λ st w1, st = ZIPC_OK ∧
       wp (zipc_recv_copy 1 (Some (demo_link 9 7)) true 16 true 2)
         (λ r _, r = (ZIPC_OK, Some 3, Some [10; 20; 30])) w1) demo_idle.
Proof.
  pose proof (copy_roundtrip 5 1 (demo_link 7 9) (demo_link 9 7) demo_pool demo_header
    (demo_views demo_free demo_free) demo_component demo_component (ZipcGenerator 3 12 0) 1 2
    [10; 20; 30] 16 demo_idle demo_channel (demo_pool_views _ _ _ demo_free_ok demo_free_ok)
    ltac:(done) ltac:(done) (demo_buffer_1 _ _) ltac:(done) (demo_buffer_2 _ _) ltac:(done)
    ltac:(done) ltac:(cbn; lia) ltac:(lia) ltac:(by split) ltac:(done) (empty_queue _)) as Hw.
  eapply wp_mono; [eapply (wp_and _ (λ r _, r = ZIPC_OK)); [vm_compute; reflexivity|exact Hw]|].
  intros st w1 [-> Hr]. split; [done|]. exact (Hr eq_refl).
Defined.
