(* ===== verification/LinuxMemory.v ===== *)
(** * Linux memory, clock and entropy (platform/linux/user/platform-linux-user.c)

    Opening and closing POSIX, huge-page, reserved and caller-owned memory,
    its attributes and page protection, the clock and the random source.  The
    system calls are the class [LinuxMm]; memory objects are kept by address. *)
From Stdlib Require Import String.
From S2P Require Import Prelude Types Packing Prog Store Backends.

(** ** The operating system *)

(** [getrandom]: interrupted, another error, or the bytes it wrote. *)
Inductive random_answer := RandomInterrupted | RandomFailed | RandomBytes (bytes : list Z).

Class LinuxMm (O : Type) := {
  mm_calloc : O → option Z * O;
  mm_free : Z → O → O;
  (** [sysconf(_SC_PAGESIZE)] *)
  mm_pagesize : O → Z;
  (** A negative descriptor means failure. *)
  mm_shm_open : string → bool → O → Z * O;
  mm_open : string → bool → O → Z * O;
  mm_open_device : string → bool → O → Z * O;
  mm_ftruncate : Z → Z → O → bool * O;
  (** Shared and readable and writable: descriptor, size, offset. *)
  mm_mmap : Z → Z → Z → O → option Z * O;
  mm_munmap : Z → Z → O → O;
  mm_close : Z → O → O;
  mm_shm_unlink : string → O → O;
  mm_unlink : string → O → O;
  (** Address, length, and whether to allow access. *)
  mm_mprotect : Z → Z → bool → O → bool * O;
  (** Seconds and nanoseconds. *)
  mm_clock_gettime : O → option (Z * Z) * O;
  mm_getrandom : Z → O → random_answer * O }.

(** ** Configurations and objects *)

(** The arms of the union are separate fields; the code reads the arm of the
    type. *)
Record zipc_platform_memory_config_t := ZipcMemoryConfig {
  mc_type : zipc_platform_memory_type_t;
  mc_size : Z;
  mc_posix_name : option string;
  mc_posix_create : bool;
  mc_posix_unlink_on_close : bool;
  mc_hugepages_path : option string;
  mc_hugepages_create : bool;
  mc_hugepages_unlink_on_close : bool;
  mc_dtrevmem_device_path : option string;
  mc_dtrevmem_physical_address : Z;
  mc_dtrevmem_supports_cpu_atomics : bool;
  mc_dtrevmem_remote_accessible : bool;
  mc_dtrevmem_device_memory : bool;
  mc_xen_device_path : option string;
  mc_xen_guest_physical_address : Z;
  mc_xen_supports_cpu_atomics : bool;
  mc_xen_cacheable : bool;
  mc_preallocated_address : Z;
  mc_preallocated_physical_address : Z;
  mc_preallocated_capabilities : Z }.

Record zipc_platform_memory := ZipcMemory {
  pm_type : zipc_platform_memory_type_t;
  pm_fd : Z;
  pm_mapping_base : Z;
  pm_mapping_size : Z;
  pm_base : Z;
  pm_size : Z;
  pm_physical_base : Z;
  pm_capabilities : Z;
  pm_unlink_on_close : bool;
  pm_object_name : string }.

(** The memory objects of the process, by address, and the system. *)
Record linux_memory (O : Type) := LinuxMemory {
  lm_objects : gmap Z zipc_platform_memory;
  lm_os : O }.
Arguments LinuxMemory {O} _ _.
Arguments lm_objects {O} _.
Arguments lm_os {O} _.

(** [snprintf(memory->object_name, 256, "%s", name)] *)
Definition object_name (name : string) : string := String.substring 0 255 name.

Section memory.
Context {O : Type} `{LinuxMm O}.

Definition os_call {A} (f : O → A * O) : prog (linux_memory O) A :=
  act (λ m, let '(a, o) := f (lm_os m) in Some (a, LinuxMemory (lm_objects m) o)).
Definition os_run (f : O → O) : prog (linux_memory O) () := os_call (λ o, (tt, f o)).

(** ** Opening

    Each function gives the status and the object as it leaves it. *)
Definition map_fd (memory : zipc_platform_memory) (mapping_size offset page_offset : Z)
    : prog (linux_memory O) (zipc_status_t * zipc_platform_memory) :=
  mapped ← os_call (mm_mmap (pm_fd memory) mapping_size offset);
  mret (match mapped with
        | None => (ZIPC_ERR_PLATFORM, {| memory with pm_mapping_base := 0 |})
        | Some address =>
            (ZIPC_OK, {| memory with pm_mapping_base := address; pm_mapping_size := mapping_size;
                                     pm_base := address + page_offset |})
        end).

Definition CAP_SHARED : Z :=
  Z.lor (Z.lor (Z.lor (Z.lor ZIPC_MEM_CAP_CPU_READ ZIPC_MEM_CAP_CPU_WRITE)
    ZIPC_MEM_CAP_ATOMIC32) ZIPC_MEM_CAP_ATOMIC64) ZIPC_MEM_CAP_CACHEABLE.

(** From the open descriptor on, which POSIX and huge-page memory share. *)
Definition map_object (memory : zipc_platform_memory) (create : bool) (size capabilities : Z)
    : prog (linux_memory O) (zipc_status_t * zipc_platform_memory) :=
  if pm_fd memory <? 0 then mret (ZIPC_ERR_PLATFORM, memory)
  else
  sized ← (if create then os_call (mm_ftruncate (pm_fd memory) size) else mret true);
  if negb sized then mret (ZIPC_ERR_PLATFORM, memory)
  else
  '(status, memory) ← map_fd memory size 0 0;
  if negb (status_is status ZIPC_OK) then mret (status, memory)
  else
  mret (ZIPC_OK, {| memory with pm_size := size; pm_physical_base := ZIPC_PHYS_ADDR_INVALID;
                                pm_capabilities := capabilities |}).

Definition open_posix (memory : zipc_platform_memory) (config : zipc_platform_memory_config_t)
    : prog (linux_memory O) (zipc_status_t * zipc_platform_memory) :=
  match mc_posix_name config with
  | None | Some EmptyString => mret (ZIPC_ERR_INVALID_ARGUMENT, memory)
  | Some name =>
  let create := mc_posix_create config in
  fd ← os_call (mm_shm_open name create);
  map_object {| memory with pm_unlink_on_close := mc_posix_unlink_on_close config;
                            pm_object_name := object_name name; pm_fd := fd |}
    create (mc_size config) (Z.lor CAP_SHARED ZIPC_MEM_CAP_PAGE_PROTECT)
  end.

Definition open_hugepages (memory : zipc_platform_memory)
    (config : zipc_platform_memory_config_t)
    : prog (linux_memory O) (zipc_status_t * zipc_platform_memory) :=
  match mc_hugepages_path config with
  | None | Some EmptyString => mret (ZIPC_ERR_INVALID_ARGUMENT, memory)
  | Some path =>
  let create := mc_hugepages_create config in
  fd ← os_call (mm_open path create);
  map_object {| memory with pm_unlink_on_close := mc_hugepages_unlink_on_close config;
                            pm_object_name := object_name path; pm_fd := fd |}
    create (mc_size config) CAP_SHARED
  end.

(** [capabilities |= cap] under a condition. *)
Definition with_cap (b : bool) (cap capabilities : Z) : Z :=
  if b then Z.lor capabilities cap else capabilities.

Definition open_dtrevmem (memory : zipc_platform_memory) (config : zipc_platform_memory_config_t)
    (cached : bool) : prog (linux_memory O) (zipc_status_t * zipc_platform_memory) :=
  match mc_dtrevmem_device_path config with
  | None | Some EmptyString => mret (ZIPC_ERR_INVALID_ARGUMENT, memory)
  | Some path =>
  page_size ← os_call (λ o, (mm_pagesize o, o));
  if page_size <=? 0 then mret (ZIPC_ERR_PLATFORM, memory)
  else
  let physical := mc_dtrevmem_physical_address config in
  let aligned := Z.land physical (u64 (Z.lnot (page_size - 1))) in
  let page_offset := physical - aligned in
  if SIZE_MAX - page_offset <? mc_size config then mret (ZIPC_ERR_INVALID_ARGUMENT, memory)
  else
  fd ← os_call (mm_open_device path (negb cached));
  let memory := {| memory with pm_fd := fd |} in
  if fd <? 0 then mret (ZIPC_ERR_PLATFORM, memory)
  else
  '(status, memory) ← map_fd memory (mc_size config + page_offset) aligned page_offset;
  if negb (status_is status ZIPC_OK) then mret (status, memory)
  else
  let capabilities :=
    with_cap (mc_dtrevmem_device_memory config) ZIPC_MEM_CAP_DEVICE_MEMORY
      (with_cap (mc_dtrevmem_remote_accessible config) ZIPC_MEM_CAP_REMOTE_ACCESS
        (with_cap (mc_dtrevmem_supports_cpu_atomics config)
           (Z.lor ZIPC_MEM_CAP_ATOMIC32 ZIPC_MEM_CAP_ATOMIC64)
          (with_cap cached ZIPC_MEM_CAP_CACHEABLE
            (Z.lor (Z.lor ZIPC_MEM_CAP_CPU_READ ZIPC_MEM_CAP_CPU_WRITE)
               ZIPC_MEM_CAP_FIXED_PHYS)))) in
  mret (ZIPC_OK, {| memory with pm_size := mc_size config; pm_physical_base := physical;
                                pm_capabilities := capabilities |})
  end.

(** ** Closing *)

(** What closing the object [memory] releases. *)
Definition release_memory (memory : zipc_platform_memory) : prog (linux_memory O) () :=
  (if negb (pm_mapping_base memory =? 0)
   then os_run (mm_munmap (pm_mapping_base memory) (pm_mapping_size memory)) else mret ());;
  (if 0 <=? pm_fd memory then os_run (mm_close (pm_fd memory)) else mret ());;
  if pm_unlink_on_close memory && negb (String.eqb (pm_object_name memory) "") then
    match pm_type memory with
    | ZIPC_SHM_POSIX => os_run (mm_shm_unlink (pm_object_name memory))
    | ZIPC_SHM_HUGEPAGES => os_run (mm_unlink (pm_object_name memory))
    | _ => mret ()
    end
  else mret ().
(** [0] is NULL; an address that is no object is undefined behaviour. *)
Definition zipc_platform_memory_close (memory : Z) : prog (linux_memory O) () :=
  if memory =? 0 then mret ()
  else
  object ← act (λ m, o ← lm_objects m !! memory; Some (o, m));
  release_memory object;;
  os_run (mm_free memory);;
  act (λ m, Some (tt, LinuxMemory (delete memory (lm_objects m)) (lm_os m))).

(** ** Opening a memory *)
Definition preallocated (memory : zipc_platform_memory) (config : zipc_platform_memory_config_t)
    : zipc_status_t * zipc_platform_memory :=
  if mc_preallocated_address config =? 0 then (ZIPC_ERR_INVALID_ARGUMENT, memory)
  else
  (ZIPC_OK, {| memory with pm_base := mc_preallocated_address config;
                           pm_size := mc_size config;
                           pm_physical_base := mc_preallocated_physical_address config;
                           pm_capabilities := mc_preallocated_capabilities config |}).
(** The [switch] over the types. *)
Definition open_by_type (memory : zipc_platform_memory) (config : zipc_platform_memory_config_t)
    : prog (linux_memory O) (zipc_status_t * zipc_platform_memory) :=
  match mc_type config with
  | ZIPC_SHM_POSIX => open_posix memory config
  | ZIPC_SHM_HUGEPAGES => open_hugepages memory config
  | ZIPC_SHM_DTREVMEM_CACHED => open_dtrevmem memory config true
  | ZIPC_SHM_DTREVMEM_UNCACHED => open_dtrevmem memory config false
  | ZIPC_SHM_PREALLOCATED => mret (preallocated memory config)
  | ZIPC_SHM_XEN_STATIC => mret (ZIPC_ERR_INVALID_ARGUMENT, memory)
  end.
(** The address of the object on OK. *)
Definition zipc_platform_memory_open (config : zipc_platform_memory_config_t)
    : prog (linux_memory O) (zipc_status_t + Z) :=
  if mc_size config =? 0 then mret (inl ZIPC_ERR_INVALID_ARGUMENT)
  else
  object ← os_call mm_calloc;
  match object with
  | None => mret (inl ZIPC_ERR_PLATFORM)
  | Some self =>
  '(status, memory) ← open_by_type
      {| pm_type := mc_type config; pm_fd := -1; pm_mapping_base := 0; pm_mapping_size := 0;
         pm_base := 0; pm_size := 0; pm_physical_base := ZIPC_PHYS_ADDR_INVALID;
         pm_capabilities := 0; pm_unlink_on_close := false; pm_object_name := "" |} config;
  act (λ m, Some (tt, LinuxMemory (<[self := memory]> (lm_objects m)) (lm_os m)));;
  if negb (status_is status ZIPC_OK) then zipc_platform_memory_close self;; mret (inl status)
  else mret (inr self)
  end.

(** ** Attributes *)
Definition attribute {A} (f : zipc_platform_memory → A) (null : A) (m : linux_memory O)
    (memory : Z) : A :=
  match lm_objects m !! memory with Some o => f o | None => null end.
Definition memory_base : linux_memory O → Z → Z := attribute pm_base 0.
Definition memory_size : linux_memory O → Z → Z := attribute pm_size 0.
Definition memory_physical_base : linux_memory O → Z → Z :=
  attribute pm_physical_base ZIPC_PHYS_ADDR_INVALID.
Definition memory_capabilities : linux_memory O → Z → Z := attribute pm_capabilities 0.
Definition page_size (m : linux_memory O) : Z :=
  if 0 <? mm_pagesize (lm_os m) then mm_pagesize (lm_os m) else 0.
(** Whether the memory is NULL or its pages cannot be protected. *)
Definition unprotectable (m : linux_memory O) (memory : Z) : bool :=
  attribute (λ o, Z.land (pm_capabilities o) ZIPC_MEM_CAP_PAGE_PROTECT =? 0) true m memory.
Definition memory_page_size (m : linux_memory O) (memory : Z) : Z :=
  if unprotectable m memory then 0 else page_size m.

(** ** Protection *)
Definition set_os (o : O) (m : linux_memory O) : linux_memory O := LinuxMemory (lm_objects m) o.
Definition memory_protect (read_write : bool) (memory offset length : Z) (m : linux_memory O)
    : zipc_status_t * linux_memory O :=
  if unprotectable m memory || (length =? 0) then (ZIPC_ERR_UNSUPPORTED_MEMORY, m)
  else
  let page := memory_page_size m memory in
  if (page =? 0) || negb (offset `mod` page =? 0) || negb (length `mod` page =? 0)
     || (memory_size m memory <? offset) || (u64 (memory_size m memory - offset) <? length)
  then (ZIPC_ERR_INVALID_ARGUMENT, m)
  else
  let '(ok, o) := mm_mprotect (memory_base m memory + offset) length read_write (lm_os m) in
  (if ok : bool then ZIPC_OK else ZIPC_ERR_PLATFORM, set_os o m).
Definition memory_protect_none : Z → Z → Z → linux_memory O → zipc_status_t * linux_memory O :=
  memory_protect false.
Definition memory_protect_rw : Z → Z → Z → linux_memory O → zipc_status_t * linux_memory O :=
  memory_protect true.

(** ** Clock and entropy *)
Definition time_ns (m : linux_memory O) : Z * linux_memory O :=
  let '(t, o) := mm_clock_gettime (lm_os m) in
  (match t with
   | None => 0
   | Some (seconds, nanoseconds) => u64 (u64 (u64 seconds * 1000000000) + u64 nanoseconds)
   end, set_os o m).

(** The loop that fills [length] more bytes after [filled]. *)
Fixpoint random_bytes (fuel : nat) (length : Z) (filled : list Z) (o : O)
    : option (zipc_status_t * list Z * O) :=
  if length =? 0 then Some (ZIPC_OK, filled, o)
  else
  match fuel with
  | 0%nat => None
  | S fuel =>
      let '(answer, o) := mm_getrandom length o in
      match answer with
      | RandomInterrupted => random_bytes fuel length filled o
      | RandomFailed | RandomBytes [] => Some (ZIPC_ERR_ENTROPY_UNAVAILABLE, filled, o)
      | RandomBytes bytes =>
          random_bytes fuel (length - Z.of_nat (List.length bytes)) (filled ++ bytes) o
      end
  end.
(** [buffer = false] is NULL; [None] when the fuel is too small. *)
Definition platform_random (fuel : nat) (buffer : bool) (length : Z) (m : linux_memory O)
    : option (zipc_status_t * list Z * linux_memory O) :=
  if negb buffer && negb (length =? 0) then Some (ZIPC_ERR_INVALID_ARGUMENT, [], m)
  else
  match random_bytes fuel length [] (lm_os m) with
  | Some (status, bytes, o) => Some (status, bytes, set_os o m)
  | None => None
  end.
End memory.

(** ** Memory objects as the programs above the library use them

    Status or address of the object on opening, as [zipc_platform_memory_open] and
    [zipc_platform_memory_close] give it; a platform state that is no
    [linux_memory] can have them too. *)
Class MemoryObjects (E : Type) := {
  platform_memory_open : zipc_platform_memory_config_t → E → (zipc_status_t + Z) * E;
  platform_memory_close : Z → E → E }.

(** A compound literal for a POSIX object: the rest is zero. *)
Definition posix_config (name : string) (size : Z) (create unlink_on_close : bool)
    : zipc_platform_memory_config_t :=
  {| mc_type := ZIPC_SHM_POSIX;
     mc_size := size;
     mc_posix_name := Some name;
     mc_posix_create := create;
     mc_posix_unlink_on_close := unlink_on_close;
     mc_hugepages_path := None;
     mc_hugepages_create := false;
     mc_hugepages_unlink_on_close := false;
     mc_dtrevmem_device_path := None;
     mc_dtrevmem_physical_address := 0;
     mc_dtrevmem_supports_cpu_atomics := false;
     mc_dtrevmem_remote_accessible := false;
     mc_dtrevmem_device_memory := false;
     mc_xen_device_path := None;
     mc_xen_guest_physical_address := 0;
     mc_xen_supports_cpu_atomics := false;
     mc_xen_cacheable := false;
     mc_preallocated_address := 0;
     mc_preallocated_physical_address := 0;
     mc_preallocated_capabilities := 0 |}.
