(* ===== verification/LinuxMemorySpec.v ===== *)
(** * The Linux platform keeps the platform contract

    [PlatformLaws], which the core relies on, proved for the memory objects,
    page protection, clock and random source of LinuxMemory.v over a system
    that behaves as documented ([LinuxMmLaws]). *)
From S2P Require Import Prelude Types Packing Prog Store Backends LinuxMemory.

(** The documented behaviour of the system calls. *)
Class LinuxMmLaws (O : Type) `{LinuxMm O} := {
  (** The byte at an address can be read and written. *)
  mm_accessible : O → Z → bool;
  (** A bound on how often [getrandom] is still interrupted. *)
  mm_interrupts : O → nat;
  (** A successful [mprotect] had an aligned address and changed the protection
      of the pages in its range and of no other. *)
  mm_mprotect_page a l rw o : mm_pagesize (mm_mprotect a l rw o).2 = mm_pagesize o;
  mm_mprotect_law a l rw o x :
    0 <= l → l `mod` mm_pagesize o = 0 → (mm_mprotect a l rw o).1 = true →
    mm_accessible (mm_mprotect a l rw o).2 x =
      if (a <=? x) && (x <? a + l) then rw else mm_accessible o x;
  mm_clock_law o :
    mm_pagesize (mm_clock_gettime o).2 = mm_pagesize o ∧
    mm_accessible (mm_clock_gettime o).2 = mm_accessible o;
  (** [getrandom] writes at most the bytes asked for. *)
  mm_getrandom_law n o : 0 <= n →
    let r := mm_getrandom n o in
    mm_pagesize r.2 = mm_pagesize o ∧ mm_accessible r.2 = mm_accessible o ∧
    match r.1 with
    | RandomInterrupted => (mm_interrupts r.2 < mm_interrupts o)%nat
    | RandomFailed => True
    | RandomBytes bytes => (mm_interrupts r.2 ≤ mm_interrupts o)%nat ∧
        Z.of_nat (length bytes) <= n ∧ Forall in_u8 bytes
    end }.

Section spec.
Context {O : Type} `{LinuxMmLaws O}.

(** ** Entropy *)
Lemma random_bytes_spec fuel n filled o :
  0 <= n → (mm_interrupts o + Z.to_nat n < fuel)%nat → Forall in_u8 filled →
  ∃ status bytes o', random_bytes fuel n filled o = Some (status, bytes, o') ∧
    mm_pagesize o' = mm_pagesize o ∧ mm_accessible o' = mm_accessible o ∧ Forall in_u8 bytes ∧
    ((status = ZIPC_OK ∧ Z.of_nat (length bytes) = Z.of_nat (length filled) + n) ∨
     status = ZIPC_ERR_ENTROPY_UNAVAILABLE).
Proof.
  revert n filled o. induction fuel as [|fuel IH]; intros n filled o Hn Hf Hb; [lia|].
  cbn [random_bytes]. destruct (Z.eqb_spec n 0) as [->|Hne].
  { eexists _, _, _. split_and!; try done. left. split; [done|lia]. }
  pose proof (mm_getrandom_law n o Hn) as Hlaw. cbv zeta in Hlaw.
  destruct (mm_getrandom n o) as [answer o1]. simpl in Hlaw.
  destruct Hlaw as (Hp & Ha & Hans). destruct answer as [| |bytes].
  - destruct (IH n filled o1) as (st & bs & o' & -> & Hp' & Ha' & Hrest); [lia|lia|done|].
    eexists _, _, _. split; [done|]. by rewrite Hp', Ha'.
  - eexists _, _, _. split_and!; try done. by right.
  - destruct Hans as (Hi & Hlen & Hby). destruct bytes as [|b bytes].
    { eexists _, _, _. split_and!; try done. by right. }
    cbn [length] in *.
    destruct (IH (n - Z.of_nat (S (length bytes))) (filled ++ b :: bytes) o1)
      as (st & bs & o' & Heq & Hp' & Ha' & Hbs & Hres); [lia|lia|by apply Forall_app|].
    exists st, bs, o'. split; [exact Heq|]. split_and!; [congruence|congruence|done|].
    destruct Hres as [[-> Hl]| ->]; [left|by right]. split; [done|].
    rewrite Hl, length_app. cbn [length]. lia.
Qed.

(** Filling a buffer with entropy ends and fills it: however often
    [getrandom] is interrupted or returns fewer bytes than asked for, the loop
    returns within one round per interruption and byte, either OK with exactly
    [length] bytes or ENTROPY_UNAVAILABLE; a NULL buffer is refused; memory and
    its protection are untouched. *)
Theorem random_fills fuel buffer n (m : linux_memory O) :
  0 <= n → (mm_interrupts (lm_os m) + Z.to_nat n < fuel)%nat →
  ∃ status bytes m', platform_random fuel buffer n m = Some (status, bytes, m') ∧
    lm_objects m' = lm_objects m ∧ mm_accessible (lm_os m') = mm_accessible (lm_os m) ∧
    Forall in_u8 bytes ∧
    if negb buffer && negb (n =? 0) then status = ZIPC_ERR_INVALID_ARGUMENT
    else (status = ZIPC_OK ∧ Z.of_nat (length bytes) = n) ∨
         status = ZIPC_ERR_ENTROPY_UNAVAILABLE.
Proof.
  intros Hn Hf. unfold platform_random. destruct (negb buffer && negb (n =? 0)).
  { eexists _, _, _. by split_and!. }
  destruct (random_bytes_spec fuel n [] (lm_os m) Hn Hf) as (st & bs & o' & -> & _ & Ha & Hbs & Hr);
    [done|].
  eexists _, _, _. by split_and!.
Qed.

(** ** The platform of a process *)

(** Memory objects occupy disjoint ranges of the address space. *)
Record memory_wf (m : linux_memory O) : Prop := {
  mw_page : mm_pagesize (lm_os m) <= UINT64_MAX;
  mw_range a o : lm_objects m !! a = Some o → 0 <= pm_base o ∧ 0 <= pm_size o ∧
    pm_base o + pm_size o <= UINT64_MAX;
  mw_disjoint a b o o' : a ≠ b → lm_objects m !! a = Some o → lm_objects m !! b = Some o' →
    pm_base o + pm_size o <= pm_base o' ∨ pm_base o' + pm_size o' <= pm_base o }.

Record process := Process { ps_memory : linux_memory O; ps_wf : memory_wf ps_memory }.

(** The same objects over a system with the same page size. *)
Definition same_objects (m m' : linux_memory O) : Prop :=
  lm_objects m' = lm_objects m ∧ mm_pagesize (lm_os m') = mm_pagesize (lm_os m).
Lemma same_objects_wf m m' : same_objects m m' → memory_wf m → memory_wf m'.
Proof. intros [Ho Hp] []. by split; rewrite ?Ho, ?Hp. Qed.

(** A platform call that keeps the objects, on a process. *)
Definition on_process {A} (f : linux_memory O → A * linux_memory O)
    (Hf : ∀ m, same_objects m (f m).2) (p : process) : A * process :=
  let m := ps_memory p in
  ((f m).1, Process (f m).2 (same_objects_wf _ _ (Hf m) (ps_wf p))).

Lemma protect_same rw a o l m : same_objects m (memory_protect rw a o l m).2.
Proof.
  unfold memory_protect. destruct (unprotectable m a || (l =? 0)); [done|].
  destruct (_ || (u64 _ <? l)); [done|].
  pose proof (mm_mprotect_page (memory_base m a + o) l rw (lm_os m)) as Hp.
  destruct (mm_mprotect _ _ _ _) as [ok os]. by split.
Qed.
Lemma time_same m : same_objects m (time_ns m).2.
Proof.
  unfold time_ns. destruct (mm_clock_law (lm_os m)) as [Hp _].
  destruct (mm_clock_gettime (lm_os m)) as [t o]. by split.
Qed.

(** The four bytes of a [uint32_t], least significant first. *)
Definition word_of (bytes : list Z) : Z := u32 (foldr (λ b acc, b + 256 * acc) 0 bytes).
(** The fuel that [random_fills] asks for. *)
Definition random_word (m : linux_memory O) : (zipc_status_t * Z) * linux_memory O :=
  match platform_random (5 + mm_interrupts (lm_os m)) true 4 m with
  | Some (status, bytes, m') => ((status, word_of bytes), m')
  | None => ((ZIPC_ERR_ENTROPY_UNAVAILABLE, 0), m)
  end.
Lemma random_word_frame m :
  same_objects m (random_word m).2 ∧
  mm_accessible (lm_os (random_word m).2) = mm_accessible (lm_os m).
Proof.
  unfold random_word, platform_random. cbn [negb andb].
  destruct (random_bytes_spec (5 + mm_interrupts (lm_os m)) 4 [] (lm_os m))
    as (st & bs & o' & -> & Hp & Ha & _); [lia|lia|done|]. by split; [split|].
Qed.
Lemma random_same m : same_objects m (random_word m).2.
Proof. apply random_word_frame. Qed.

#[export] Instance linux_platform : Platform process := {
  zipc_platform_memory_base p := memory_base (ps_memory p);
  zipc_platform_memory_size p := memory_size (ps_memory p);
  zipc_platform_memory_physical_base p := memory_physical_base (ps_memory p);
  zipc_platform_memory_capabilities p := memory_capabilities (ps_memory p);
  zipc_platform_memory_page_size p := memory_page_size (ps_memory p);
  zipc_platform_page_size p := page_size (ps_memory p);
  zipc_platform_memory_protect_none m o l := on_process (memory_protect_none m o l) (protect_same false m o l);
  zipc_platform_memory_protect_rw m o l := on_process (memory_protect_rw m o l) (protect_same true m o l);
  zipc_platform_time_ns := on_process time_ns time_same;
  zipc_platform_random p :=
    let '(r, p) := on_process random_word random_same p in (r, p) }.

(** ** The laws *)
Definition accessible_in (m : linux_memory O) (a x : Z) : bool :=
  match lm_objects m !! a with
  | Some o => if (0 <=? x) && (x <? pm_size o) then mm_accessible (lm_os m) (pm_base o + x) else true
  | None => true
  end.

Lemma same_objects_memory (p p' : process) :
  same_objects (ps_memory p) (ps_memory p') → same_memory p p'.
Proof.
  intros [Ho Hp]. unfold same_memory. cbn. unfold memory_base, memory_size, memory_physical_base,
    memory_capabilities, memory_page_size, unprotectable, page_size, attribute. by rewrite Ho, Hp.
Qed.
Lemma accessible_frame m m' :
  same_objects m m' → mm_accessible (lm_os m') = mm_accessible (lm_os m) →
  accessible_in m' = accessible_in m.
Proof. intros [Ho _] Ha. unfold accessible_in. by rewrite Ho, Ha. Qed.

(** When protection succeeds, and where it then acts. *)
Lemma protect_ok rw a o l m :
  memory_wf m → 0 <= o → 0 <= l → (memory_protect rw a o l m).1 = ZIPC_OK →
  ∃ obj, lm_objects m !! a = Some obj ∧ o + l <= pm_size obj ∧
    (∀ x, mm_accessible (lm_os (memory_protect rw a o l m).2) x =
       if (pm_base obj + o <=? x) && (x <? pm_base obj + o + l) then rw
       else mm_accessible (lm_os m) x).
Proof.
  intros Hwf Ho Hl. unfold memory_protect, memory_page_size, memory_size, memory_base.
  destruct (unprotectable m a) eqn:Hu; [done|]. destruct (l =? 0); [done|]. cbn [orb].
  unfold unprotectable, attribute in Hu. unfold attribute.
  destruct (lm_objects m !! a) as [obj|] eqn:Ha; [|done].
  destruct (_ || (u64 _ <? l)) eqn:Hc; [done|]. unfold page_size in Hc. bool_to_prop.
  destruct (mw_range _ Hwf a obj Ha) as (Hb & Hs & Hmax).
  rewrite (u64_small (pm_size obj - o)) in * by (unfold in_u64; lia).
  destruct (Z.ltb_spec 0 (mm_pagesize (lm_os m))) as [Hp|Hp]; [|done].
  pose proof (λ x, mm_mprotect_law (pm_base obj + o) l rw (lm_os m) x Hl ltac:(done)) as Hlaw.
  destruct (mm_mprotect (pm_base obj + o) l rw (lm_os m)) as [ok os]. cbn in *.
  destruct ok; [|done]. intros _. exists obj. split_and!; [done|lia|]. intros x. by apply Hlaw.
Qed.

(** A successful call changes the protection of its range and of no byte of
    any other object. *)
Lemma protect_exact rw a o l m a' x :
  memory_wf m → 0 <= o → 0 <= l → (memory_protect rw a o l m).1 = ZIPC_OK →
  accessible_in (memory_protect rw a o l m).2 a' x =
    if (a' =? a) && (o <=? x) && (x <? o + l) then rw else accessible_in m a' x.
Proof.
  intros Hwf Ho Hl Hok. destruct (protect_ok rw a o l m Hwf Ho Hl Hok) as (obj & Ha & Hfit & Hacc).
  destruct (protect_same rw a o l m) as [Hobj _]. unfold accessible_in. rewrite Hobj.
  destruct (mw_range _ Hwf a obj Ha) as (Hb & Hs & Hmax).
  destruct (Z.eqb_spec a' a) as [->|Hne]; cbn [andb].
  - rewrite Ha, Hacc. destruct (Z.leb_spec 0 x), (Z.ltb_spec x (pm_size obj)); cbn [andb].
    + replace (pm_base obj + o <=? pm_base obj + x) with (o <=? x) by lia.
      by replace (pm_base obj + x <? pm_base obj + o + l) with (x <? o + l) by lia.
    + rewrite (proj2 (Z.ltb_ge x (o + l))), andb_false_r by lia. done.
    + rewrite (proj2 (Z.leb_gt o x)) by lia. done.
    + rewrite (proj2 (Z.leb_gt o x)) by lia. done.
  - destruct (lm_objects m !! a') as [obj'|] eqn:Ha'; [|done].
    destruct ((0 <=? x) && (x <? pm_size obj')) eqn:Hx; [|done]. bool_to_prop.
    rewrite Hacc. destruct (mw_disjoint _ Hwf a a' obj obj' ltac:(done) Ha Ha').
    + rewrite (proj2 (Z.ltb_ge (pm_base obj' + x) _)), andb_false_r by lia. done.
    + rewrite (proj2 (Z.leb_gt _ (pm_base obj' + x))) by lia. done.
Qed.

#[export] Instance linux_platform_laws : PlatformLaws process.
Proof.
  refine {| plat_accessible p := accessible_in (ps_memory p) |}.
  - intros p a. cbn. unfold memory_base, memory_size, memory_page_size, page_size, attribute.
    pose proof (mw_page _ (ps_wf p)). destruct (lm_objects (ps_memory p) !! a) as [o|] eqn:Ha.
    all: try pose proof (mw_range _ (ps_wf p) a o Ha).
    all: unfold in_u64; repeat case_match; bool_to_prop; lia.
  - intros p. cbn. unfold time_ns. destruct (mm_clock_gettime _) as [[[s n]|] o]; cbn;
      [apply u64_range|done].
  - intros p. split; [apply same_objects_memory, time_same|]. apply accessible_frame; [apply time_same|].
    cbn. unfold time_ns. destruct (mm_clock_law (lm_os (ps_memory p))) as [_ Ha].
    by destruct (mm_clock_gettime _).
  - intros p. cbn. unfold random_word. destruct (platform_random _ _ _ _) as [[[st bs] m']|]; cbn;
      [apply u32_range|done].
  - intros p. cbn. split; [apply same_objects_memory, random_same|].
    apply accessible_frame; [apply random_same|]. apply random_word_frame.
  - intros m o l p. apply same_objects_memory, protect_same.
  - intros m o l p. apply same_objects_memory, protect_same.
  - intros m o l p m' x Ho Hl Hok. by apply protect_exact; [apply ps_wf|..].
  - intros m o l p m' x Ho Hl Hok. by apply protect_exact; [apply ps_wf|..].
Defined.

(** C32. Page protection is exact: on memory that cannot be protected, or for
    an empty range, the call is refused as UNSUPPORTED_MEMORY; a range that is
    not made of whole pages inside the memory is refused as INVALID_ARGUMENT; in
    both cases nothing changes.  Otherwise the call is OK or PLATFORM, and on OK
    the bytes of the range, and no other byte of this or any other memory, have
    become accessible or inaccessible as asked. *)
Theorem protection_exact rw a o l m :
  memory_wf m → 0 <= o → 0 <= l →
  let r := memory_protect rw a o l m in
  let page := memory_page_size m a in
  if unprotectable m a || (l =? 0) then r = (ZIPC_ERR_UNSUPPORTED_MEMORY, m)
  else if (page =? 0) || negb (o `mod` page =? 0) || negb (l `mod` page =? 0)
          || (memory_size m a <? o + l)
  then r = (ZIPC_ERR_INVALID_ARGUMENT, m)
  else (r.1 = ZIPC_OK ∨ r.1 = ZIPC_ERR_PLATFORM) ∧ same_objects m r.2 ∧
       (r.1 = ZIPC_OK → ∀ a' x, accessible_in r.2 a' x =
          if (a' =? a) && (o <=? x) && (x <? o + l) then rw else accessible_in m a' x).
Proof.
  intros Hwf Ho Hl r page. pose proof (λ Hok a' x, protect_exact rw a o l m a' x Hwf Ho Hl Hok) as Hex.
  pose proof (protect_same rw a o l m) as Hsame. fold r in Hex, Hsame.
  assert (Hr : r = memory_protect rw a o l m) by done. unfold memory_protect in Hr. fold page in Hr.
  destruct (unprotectable m a || (l =? 0)); [done|].
  assert (Hsize : in_u64 (memory_size m a)).
  { unfold memory_size, attribute. destruct (lm_objects m !! a) eqn:Ha; [|done].
    pose proof (mw_range _ Hwf a _ Ha). unfold in_u64. lia. }
  destruct ((page =? 0) || negb (o `mod` page =? 0) || negb (l `mod` page =? 0)); [done|].
  cbn [orb] in *. destruct (Z.ltb_spec (memory_size m a) o) as [Hout|Hin]; cbn [orb] in Hr.
  { by rewrite (proj2 (Z.ltb_lt _ _)) by lia. }
  rewrite u64_small in Hr by (unfold in_u64 in *; lia).
  replace (memory_size m a <? o + l) with (memory_size m a - o <? l) by lia.
  destruct (memory_size m a - o <? l); [done|]. split; [|done].
  rewrite Hr. destruct (mm_mprotect _ _ _ _) as [[] os]; [by left|by right].
Qed.
End spec.
Arguments process O {_}.

(** ** A system with one page size, an access map and some interruptions *)
Record demo_mm := DemoMm { dm_access : Z → bool; dm_interrupts : nat }.
#[export] Instance demo_mm_calls : LinuxMm demo_mm := {
  mm_calloc o := (Some 1, o);
  mm_free _ o := o;
  mm_pagesize _ := 4096;
  mm_shm_open _ _ o := (3, o);
  mm_open _ _ o := (4, o);
  mm_open_device _ _ o := (5, o);
  mm_ftruncate _ _ o := (true, o);
  mm_mmap _ _ _ o := (Some 1048576, o);
  mm_munmap _ _ o := o;
  mm_close _ o := o;
  mm_shm_unlink _ o := o;
  mm_unlink _ o := o;
  mm_mprotect a l rw o :=
    (true, DemoMm (λ x, if (a <=? x) && (x <? a + l) then rw else dm_access o x) (dm_interrupts o));
  mm_clock_gettime o := (Some (12, 345), o);
  mm_getrandom n o :=
    match dm_interrupts o with
    | 0%nat => (RandomBytes (if 0 <? n then [42] else []), o)
    | S k => (RandomInterrupted, DemoMm (dm_access o) k)
    end }.
#[export] Instance demo_mm_laws : LinuxMmLaws demo_mm.
Proof.
  refine {| mm_accessible := dm_access; mm_interrupts := dm_interrupts |}; try done.
  intros n [access [|k]] Hn; cbn; split_and!; try done; try lia.
  - destruct (Z.ltb_spec 0 n); cbn; lia.
  - destruct (Z.ltb_spec 0 n); repeat constructor; zlia.
Defined.

Definition demo_object : zipc_platform_memory :=
  ZipcMemory ZIPC_SHM_POSIX 3 1048576 16384 1048576 16384 ZIPC_PHYS_ADDR_INVALID 287 false Stdlib.Strings.String.EmptyString.
Definition demo_memory : linux_memory demo_mm :=
  LinuxMemory {[1 := demo_object]} (DemoMm (λ _, true) 3).
Lemma demo_memory_wf : memory_wf demo_memory.
Proof.
  split; [done| |].
  - cbn [demo_memory lm_objects]. intros a o [_ <-]%lookup_singleton_Some. cbn. lia.
  - cbn [demo_memory lm_objects].
    intros a b o o' Hne [<- _]%lookup_singleton_Some [<- _]%lookup_singleton_Some. done.
Qed.

(** Three interruptions and four one-byte answers. *)
Lemma random_fills_witness :
  ∃ status bytes m', platform_random 8 true 4 demo_memory = Some (status, bytes, m') ∧
    (status = ZIPC_OK ∧ Z.of_nat (length bytes) = 4 ∨ status = ZIPC_ERR_ENTROPY_UNAVAILABLE).
Proof.
  assert (Hf : (mm_interrupts (lm_os demo_memory) + Z.to_nat 4 < 8)%nat) by (vm_compute; lia).
  destruct (random_fills 8 true 4 demo_memory ltac:(lia) Hf)
    as (st & bs & m' & Heq & _ & _ & _ & Hr).
  exists st, bs, m'. split; [exact Heq|exact Hr].
Defined.

Lemma protection_exact_witness :
  let r := memory_protect false 1 4096 4096 demo_memory in
  r.1 = ZIPC_OK ∧ accessible_in r.2 1 5000 = false ∧ accessible_in r.2 1 4095 = true.
Proof.
  intros r. assert (Hok : r.1 = ZIPC_OK) by reflexivity. split; [exact Hok|].
  destruct (protection_exact false 1 4096 4096 demo_memory demo_memory_wf ltac:(lia) ltac:(lia))
    as (_ & _ & Hacc).
  split; exact (Hacc Hok 1 _).
Defined.
