(* ===== verification/ReconcileSpec.v ===== *)
(** * Reconciling a link: theorems

    What the repair of one endpoint guarantees: every pending transfer of the
    dead producer is announced and every abandoned send undone; every abandoned
    claim of the dead consumer is given back to its sender and its queue starts
    with an announcement that stands. *)
From S2P Require Import Prelude Types Packing Visited Prog Store Identity Slot SlotRun.
From S2P Require Import SlotSpec Demo Recovery RecoverySpec Ring RingSpec Buffer Link LinkSpec Reconcile.
From S2P Require Import LinuxTransport LinuxTransportSpec LinuxDemo.

(** ** The repair of one slot *)

(** A dead producer's slot: an abandoned send or rollback is undone, and the
    token of an abandoned rollback of a transfer is dropped. *)
Definition producer_repair (c dead : Z) (s : zipc_slot_control_t) : zipc_slot_control_t :=
  if negb (token_of c dead (s_claim_token s)) then s
  else match s_state s with
  | ZIPC_SLOT_CLAIMING =>
      if matching_kind ZIPC_LINK_ROLE_PRODUCER (claim_token_kind (s_claim_token s))
      then {| s with s_state := ZIPC_SLOT_OWNED; s_claim_token := 0;
                     s_next_owner_id := ZIPC_INVALID_COMPONENT_ID;
                     s_transfer_sequence := s_claim_previous_sequence s |}
      else s
  | ZIPC_SLOT_TRANSFER =>
      if claim_token_kind (s_claim_token s) =? ZIPC_CLAIM_ROLLBACK then set_token 0 s else s
  | _ => s
  end.
(** A dead consumer's slot: an abandoned claim is given back. *)
Definition consumer_repair (c dead : Z) (s : zipc_slot_control_t) : zipc_slot_control_t :=
  if negb (token_of c dead (s_claim_token s)
           && (claim_token_kind (s_claim_token s) =? ZIPC_CLAIM_RECEIVE)) then s
  else match s_state s with
  | ZIPC_SLOT_CLAIMING =>
      {| s with s_state := ZIPC_SLOT_TRANSFER; s_claim_token := 0;
                s_owner_id := s_transfer_source_id s;
                s_owner_epoch := s_transfer_source_epoch s;
                s_next_owner_id := c;
                s_hop_count := s_transfer_hop_count s;
                s_acquired_ns := s_transfer_acquired_ns s;
                s_visited := s_transfer_visited s |}
  | ZIPC_SLOT_TRANSFER => set_token 0 s
  | _ => s
  end.

(** A token made for [c] and [dead] is one of that incarnation. *)
Lemma token_of_make kind c dead :
  in_u8 kind → zipc_component_id_valid c = true → in_u32 dead →
  token_of c dead (claim_token_make kind c dead) = true ∧
  claim_token_kind (claim_token_make kind c dead) = kind.
Proof.
  intros Hk Hc%zipc_component_id_valid_spec Hd.
  unfold token_of. by rewrite token_component_make, token_epoch_make, token_kind_make, !Z.eqb_refl
    by zlia.
Qed.

(** A send that died after its claim, or after the transfer was written, is
    undone to the buffer it started from. *)
Lemma interrupted_send_undone c dead next link s :
  zipc_component_id_valid c = true → in_u32 dead →
  s_state s = ZIPC_SLOT_OWNED → s_claim_token s = 0 →
  let claimed := set_state ZIPC_SLOT_CLAIMING
    (set_token (claim_token_make ZIPC_CLAIM_SEND c dead) (remember_sequence s)) in
  abs_slot (producer_repair c dead claimed) = abs_slot s ∧
  abs_slot (producer_repair c dead (mark_transfer next link c claimed)) = abs_slot s.
Proof.
  intros Hc Hd Hst Ht claimed. unfold producer_repair.
  destruct (token_of_make ZIPC_CLAIM_SEND c dead) as [Hof Hkind]; [done..|].
  unfold claimed. slot_simpl. cbn [mark_transfer s_claim_token s_state]. slot_simpl.
  rewrite Hof, Hkind. unfold abs_slot, info_of. cbn. by rewrite Hst, Ht.
Qed.
(** A claim that died after its token, or after the receiver was written over
    the sender, is undone to the transfer it took. *)
Lemma interrupted_claim_undone c dead epoch now s :
  zipc_component_id_valid c = true → in_u32 dead →
  s_state s = ZIPC_SLOT_TRANSFER → s_claim_token s = 0 → s_next_owner_id s = c →
  s_owner_id s = s_transfer_source_id s → s_owner_epoch s = s_transfer_source_epoch s →
  s_hop_count s = s_transfer_hop_count s → s_visited s = s_transfer_visited s →
  let claimed := set_state ZIPC_SLOT_CLAIMING
    (set_token (claim_token_make ZIPC_CLAIM_RECEIVE c dead) s) in
  abs_slot (consumer_repair c dead claimed) = abs_slot s ∧
  abs_slot (consumer_repair c dead (take_ownership c epoch now claimed)) = abs_slot s.
Proof.
  intros Hc Hd Hst Ht Hn Ho He Hh Hv claimed. unfold consumer_repair.
  destruct (token_of_make ZIPC_CLAIM_RECEIVE c dead) as [Hof Hkind]; [done..|].
  unfold claimed. slot_simpl. cbn [take_ownership s_claim_token s_state]. slot_simpl.
  rewrite Hof, Hkind. unfold abs_slot, info_of. cbn. by rewrite Hst, Ht, Hn, Ho, He, Hh, Hv.
Qed.

Section spec.
Context {E T : Type} `{Platform E} `{TransportLaws E T}.
Implicit Type w : world E.
Implicit Type link : zipc_link_t T.

(** The announcement of a transfer of the dead producer that is pending on
    [link]. *)
Definition pending_message link (c dead i : Z) (s : zipc_slot_control_t) : option zipc_message_t :=
  if state_is (s_state s) ZIPC_SLOT_TRANSFER && pending_on link c dead s
  then Some (ZipcMessage (zipc_handle_make i (s_generation s)) (p_pool_id (l_pool link)) c
               (l_remote_component link) (s_transfer_sequence s) 0)
  else None.

(** Evaluate the tests of a known role. *)
Ltac role_eval :=
  try change (role_is ZIPC_LINK_ROLE_CONSUMER ZIPC_LINK_ROLE_CONSUMER) with true;
  try change (role_is ZIPC_LINK_ROLE_CONSUMER ZIPC_LINK_ROLE_PRODUCER) with false;
  try change (role_is ZIPC_LINK_ROLE_PRODUCER ZIPC_LINK_ROLE_CONSUMER) with false;
  try change (role_is ZIPC_LINK_ROLE_PRODUCER ZIPC_LINK_ROLE_PRODUCER) with true.

(** What the repair of a slot leaves alone. *)
Definition repair_effect (pool : zipc_pool_t) (i : Z) (s' : zipc_slot_control_t) w w' : Prop :=
  w_controls w' = <[slot_key pool i := s']> (w_controls w) ∧
  w_headers w' = w_headers w ∧ w_components w' = w_components w ∧ w_buffers w' = w_buffers w ∧
  w_generators w' = w_generators w ∧ w_payload w' = w_payload w.

Lemma repair_nothing pool i s w :
  w_controls w !! slot_key pool i = Some s → repair_effect pool i s w w.
Proof. intros Hs. split_and!; try done. symmetry. by apply insert_id. Qed.

Lemma state_restored (s s' : zipc_slot_control_t) x y :
  s_state s = x → s' = set_state x (set_state y s) → s' = s.
Proof. intros <- ->. by destruct s. Qed.

Lemma wp_reconcile_transfer link c dead i s q w :
  w_controls w !! slot_key (l_pool link) i = Some s → s_state s = ZIPC_SLOT_TRANSFER →
  transport_queue (l_transport link) w q →
  wp (reconcile_transfer link c dead i)
    (λ r w', repair_effect (l_pool link) i (producer_repair c dead s) w w' ∧
       match pending_message link c dead i s with
       | None => r = inl false ∧ transport_queue (l_transport link) w' q
       | Some m => ∃ st, r = (if published st then inl true else inr st) ∧
           transport_queue (l_transport link) w' (if published st then enqueue m q else q)
       end) w.
Proof.
  intros Hs Hst Hq. unfold reconcile_transfer, producer_repair, pending_message. rewrite Hst.
  set (k := slot_key (l_pool link) i) in *. set (t := s_claim_token s).
  apply wp_bind. eapply wp_slot_read; [exact Hs|]. fold t.
  set (s1 := if negb (token_of c dead t) then s
             else if claim_token_kind t =? ZIPC_CLAIM_ROLLBACK then set_token 0 s else s).
  assert (Hs1 : s_state s1 = ZIPC_SLOT_TRANSFER ∧ pending_on link c dead s1 = pending_on link c dead s ∧
                s_generation s1 = s_generation s ∧ s_transfer_sequence s1 = s_transfer_sequence s).
  { subst s1. by repeat case_match. }
  destruct Hs1 as (Hst1 & Hp1 & Hg1 & Hq1).
  apply wp_bind, (wp_mono _ (λ _ w', w' = put_slot k s1 w)).
  { subst s1. destruct (token_of c dead t) eqn:Hmine, (claim_token_kind t =? ZIPC_CLAIM_ROLLBACK);
      psimpl; try (apply wp_ret; symmetry; by apply put_slot_id).
    apply wp_bind. eapply wp_cas_token; [exact Hs|intros ? -> _; by apply wp_ret|done]. }
  intros _ ? ->. apply wp_bind.
  eapply wp_cas_state; [apply lookup_insert_eq| |by intros Hne; destruct Hne].
  intros s2 -> _. rewrite put_slot_twice. psimpl.
  apply wp_bind. eapply wp_slot_read; [apply lookup_insert_eq|].
  change (pending_on link c dead (set_state ZIPC_SLOT_ERROR s1)) with (pending_on link c dead s1).
  rewrite Hp1. status_eval. destruct (pending_on link c dead s); psimpl.
  - apply wp_bind. eapply wp_slot_read; [apply lookup_insert_eq|].
    apply wp_bind. eapply wp_slot_read; [apply lookup_insert_eq|].
    apply wp_bind. eapply wp_slot_write; [apply lookup_insert_eq|]. intros s3 Hs3.
    apply (state_restored s1) in Hs3 as ->; [|done]. rewrite put_slot_twice.
    apply wp_bind. eapply wp_mono; [by eapply transport_send_law, transport_queue_frame, Hq|].
    intros st w' [Hio Hq']. change (s_generation (set_state ZIPC_SLOT_ERROR s1)) with (s_generation s1) in Hq'.
    change (s_transfer_sequence (set_state ZIPC_SLOT_ERROR s1)) with (s_transfer_sequence s1) in Hq'.
    rewrite Hg1, Hq1 in Hq'.
    assert (Heff : repair_effect (l_pool link) i s1 w w').
    { destruct Hio. by split_and!. }
    unfold published in *.
    destruct (status_is st ZIPC_OK) eqn:Hok, (status_is st ZIPC_ERR_TRANSPORT_PUBLISHED) eqn:Hpub;
      psimpl; apply wp_ret; (split; [done|]); exists st; by rewrite Hok, Hpub.
  - apply wp_bind. eapply wp_slot_write; [apply lookup_insert_eq|]. intros s3 Hs3.
    apply (state_restored s1) in Hs3 as ->; [|done]. rewrite put_slot_twice. apply wp_ret.
    split; [by split_and!|]. split; [done|]. by eapply transport_queue_frame, Hq.
Qed.

(** The scan of a producer at one slot. *)
Lemma wp_reconcile_producer link c dead i s q n w :
  l_role link = ZIPC_LINK_ROLE_PRODUCER →
  w_controls w !! slot_key (l_pool link) i = Some s →
  transport_queue (l_transport link) w q →
  wp (reconcile_slot link c dead i n)
    (λ r w', repair_effect (l_pool link) i (producer_repair c dead s) w w' ∧
       match pending_message link c dead i s with
       | None => r = inl n ∧ transport_queue (l_transport link) w' q
       | Some m => ∃ st, r = (if published st then inl (u32 (n + 1)) else inr (st, n)) ∧
           transport_queue (l_transport link) w' (if published st then enqueue m q else q)
       end) w.
Proof.
  intros Hrole Hs Hq. unfold reconcile_slot. rewrite Hrole.
  apply wp_bind. eapply wp_slot_read; [exact Hs|]. apply wp_bind. eapply wp_slot_read; [exact Hs|].
  role_eval. psimpl.
  destruct (decide (s_state s = ZIPC_SLOT_TRANSFER)) as [Hst|Hst].
  { rewrite Hst. status_eval. psimpl. apply wp_bind.
    eapply wp_mono; [by eapply wp_reconcile_transfer|]. intros r w' [Heff Hr]. apply wp_ret.
    split; [done|]. destruct (pending_message link c dead i s).
    - destruct Hr as (st & -> & Hq'). exists st. by destruct (published st).
    - by destruct Hr as [-> ?]. }
  assert (state_is (s_state s) ZIPC_SLOT_TRANSFER = false) as Hn by by apply bool_decide_eq_false.
  assert (pending_message link c dead i s = None) as -> by (unfold pending_message; by rewrite Hn).
  assert (Hkeep : repair_effect (l_pool link) i s w w) by by apply repair_nothing.
  rewrite Hn. psimpl. unfold producer_repair.
  destruct (decide (s_state s = ZIPC_SLOT_CLAIMING)) as [Hc|Hc].
  - rewrite Hc. status_eval. unfold reconcile_claiming. rewrite Hrole.
    apply wp_bind.
    destruct (token_of c dead (s_claim_token s)), (matching_kind ZIPC_LINK_ROLE_PRODUCER _); psimpl;
      try (apply wp_ret, wp_ret; by split).
    apply wp_bind. eapply wp_cas_state; [exact Hs| |done]. intros s1 -> _. psimpl.
    role_eval.
    do 3 (apply wp_bind; eapply wp_slot_write; [apply lookup_insert_eq|]; intros ? ->;
      rewrite put_slot_twice). apply wp_ret, wp_ret. split; [|split; [done|]].
    + by split_and!.
    + by eapply transport_queue_frame, Hq.
  - assert (state_is (s_state s) ZIPC_SLOT_CLAIMING = false) as -> by by apply bool_decide_eq_false.
    apply wp_ret. split; [|done]. destruct (negb _); [done|].
    by destruct (s_state s).
Qed.

(** ** The scan *)

(** [w] is [w0] with the slots below [j] repaired by [f]. *)
Record repaired (pool : zipc_pool_t) (count : Z) (slots : Z → zipc_slot_control_t)
    (f : zipc_slot_control_t → zipc_slot_control_t) (j : Z) w0 w : Prop := {
  rp_slots i : 0 <= i < count →
    w_controls w !! slot_key pool i = Some (if i <? j then f (slots i) else slots i);
  rp_others k : (∀ i, 0 <= i < count → k ≠ slot_key pool i) →
    w_controls w !! k = w_controls w0 !! k;
  rp_headers : w_headers w = w_headers w0;
  rp_components : w_components w = w_components w0;
  rp_buffers : w_buffers w = w_buffers w0;
  rp_generators : w_generators w = w_generators w0;
  rp_payload : w_payload w = w_payload w0 }.

Lemma repaired_step pool count slots f j w0 w w' :
  repaired pool count slots f j w0 w → 0 <= j < count →
  repair_effect pool j (f (slots j)) w w' → repaired pool count slots f (j + 1) w0 w'.
Proof.
  intros [Hs Ho] Hj (Hc & ? & ? & ? & ? & ?). split; try congruence.
  - intros i Hi. rewrite Hc. destruct (decide (i = j)) as [->|Hne].
    + rewrite lookup_insert_eq, (proj2 (Z.ltb_lt _ _)) by lia. done.
    + rewrite lookup_insert_ne by (unfold slot_key; congruence). rewrite Hs by done.
      destruct (Z.ltb_spec i j), (Z.ltb_spec i (j + 1)); try done; lia.
  - intros k Hk. rewrite Hc, lookup_insert_ne; [by apply Ho|]. intros Heq. by apply (Hk j Hj).
Qed.
Lemma repaired_slot pool count slots f j w0 w :
  repaired pool count slots f j w0 w → 0 <= j < count →
  w_controls w !! slot_key pool j = Some (slots j).
Proof. intros [Hs] Hj. by rewrite Hs, Z.ltb_irrefl. Qed.

(** An endpoint that the incarnation [r] of its component may repair. *)
Record reconcilable link (r : zipc_restart_t) (pool : zipc_pool_t) (hd : zipc_pool_header_t)
    (slots : Z → zipc_slot_control_t) w : Prop := {
  rc_restart : rs_pool r = Some pool;
  rc_pool : l_pool link = pool;
  rc_component : l_local_component link = rs_component r;
  rc_epoch : l_local_epoch link = rs_epoch r;
  rc_link : l_link_id link ≠ 0;
  rc_next : rs_epoch r = u32 (rs_dead_epoch r + 1);
  rc_valid : zipc_component_id_valid (rs_component r) = true;
  rc_nonzero : rs_epoch r ≠ 0;
  rc_lifecycle : ∃ cs, w_components w !! (p_header pool, rs_component r) = Some cs ∧
    c_lifecycle cs = component_lifecycle_make (rs_epoch r) ZIPC_COMPONENT_RECOVERING;
  rc_transport : ring_transport (l_transport_type link) = true;
  rc_ring : l_recovery_ring link ≠ 0;
  rc_header : w_headers w !! p_header pool = Some hd;
  rc_count : 1 <= h_slot_count hd <= UINT32_MAX;
  rc_slots i : 0 <= i < h_slot_count hd → w_controls w !! slot_key pool i = Some (slots i) }.

Lemma repaired_start pool hd slots f w :
  (∀ i, 0 <= i < h_slot_count hd → w_controls w !! slot_key pool i = Some (slots i)) →
  repaired pool (h_slot_count hd) slots f 0 w w.
Proof. intros Hs. split; try done. intros i Hi. by rewrite (proj2 (Z.ltb_ge _ _)), Hs by lia. Qed.

(** The checks that let a repair begin. *)
Lemma wp_reconcile_checks link r pool hd slots fuel Q w :
  reconcilable link r pool hd slots w →
  l_role link = ZIPC_LINK_ROLE_PRODUCER ∨ l_role link = ZIPC_LINK_ROLE_CONSUMER →
  wp (scanned ← scan_slots fuel pool 0 0 (reconcile_slot link (rs_component r) (rs_dead_epoch r));
      match scanned with
      | inr (status, recovered) => mret (status, Some recovered)
      | inl (_, recovered) =>
          (if role_is (l_role link) ZIPC_LINK_ROLE_CONSUMER
           then r ← loop fuel (drain_turn link); returned r else mret ());;
          mret (ZIPC_OK, Some recovered)
      end) Q w →
  wp (zipc_link_reconcile fuel (Some link) (Some r)) Q w.
Proof.
  intros [R1 R2 R3 R4 R5 R6 R7 R8 (cs & R9 & R10) R11 R12 _ _ _] Hrole HQ.
  unfold zipc_link_reconcile. destruct r as [rp rc re rd]. cbn in *. subst rp pool.
  unfold same_pool. rewrite R3, R4, <- R6, !Z.eqb_refl, (proj2 (Z.eqb_neq _ _) R5). psimpl.
  apply wp_bind. unfold component_epoch_recovering. rewrite R7, (proj2 (Z.eqb_neq _ _) R8). psimpl.
  apply wp_bind. eapply wp_component_read; [exact R9|]. rewrite R10, Z.eqb_refl. apply wp_ret.
  psimpl. rewrite R11, (proj2 (Z.eqb_neq _ _) R12). psimpl.
  by destruct Hrole as [Hr|Hr]; rewrite Hr in *.
Qed.

(** ** The producer *)

(** The announcements of the pending transfers in the slots below [j]. *)
Definition pending_below link (c dead : Z) (slots : Z → zipc_slot_control_t) (j : Z)
    : list zipc_message_t :=
  omap (λ i, pending_message link c dead i (slots i)) (seqZ 0 j).
Definition announce_all (ms q : list zipc_message_t) : list zipc_message_t :=
  foldl (λ q m, enqueue m q) q ms.

Lemma pending_below_step link c dead slots j :
  0 <= j → pending_below link c dead slots (j + 1) =
  pending_below link c dead slots j ++
    match pending_message link c dead j (slots j) with Some m => [m] | None => [] end.
Proof.
  intros Hj. unfold pending_below. by rewrite seqZ_app, omap_app by lia.
Qed.
Lemma pending_below_length link c dead slots j :
  0 <= j → Z.of_nat (length (pending_below link c dead slots j)) <= j.
Proof.
  intros Hj. unfold pending_below.
  assert (Hlen : ∀ l, (length (omap (λ i, pending_message link c dead i (slots i)) l) ≤ length l)%nat).
  { induction l as [|x l IH]; cbn; [done|]. case_match; cbn; lia. }
  specialize (Hlen (seqZ 0 j)). rewrite length_seqZ in Hlen. lia.
Qed.
Lemma announce_all_app ms m q : announce_all (ms ++ [m]) q = enqueue m (announce_all ms q).
Proof. unfold announce_all. by rewrite foldl_app. Qed.

(** The state of a producer's repair before slot [j]. *)
Definition producer_state link (r : zipc_restart_t) (pool : zipc_pool_t) (count : Z)
    (slots : Z → zipc_slot_control_t) (q : list zipc_message_t) w0 (j n : Z) w : Prop :=
  let ms := pending_below link (rs_component r) (rs_dead_epoch r) slots j in
  n = Z.of_nat (length ms) ∧
  repaired pool count slots (producer_repair (rs_component r) (rs_dead_epoch r)) j w0 w ∧
  transport_queue (l_transport link) w (announce_all ms q).

Lemma producer_slot link r pool hd slots q w0 j n w :
  reconcilable link r pool hd slots w0 → l_role link = ZIPC_LINK_ROLE_PRODUCER →
  0 <= j < h_slot_count hd → producer_state link r pool (h_slot_count hd) slots q w0 j n w →
  wp (reconcile_slot link (rs_component r) (rs_dead_epoch r) j n)
    (λ res w', match res with
     | inl n' => producer_state link r pool (h_slot_count hd) slots q w0 (j + 1) n' w'
     | inr (st, n') => published st = false ∧ n' = n ∧
         repaired pool (h_slot_count hd) slots
           (producer_repair (rs_component r) (rs_dead_epoch r)) (j + 1) w0 w' ∧
         transport_queue (l_transport link) w'
           (announce_all (pending_below link (rs_component r) (rs_dead_epoch r) slots j) q)
     end) w.
Proof.
  intros Hrc Hrole Hj (Hn & Hrep & Hq). pose proof (rc_pool _ _ _ _ _ _ Hrc) as <-.
  pose proof (rc_count _ _ _ _ _ _ Hrc) as Hcount.
  eapply wp_mono; [eapply wp_reconcile_producer; [done|by eapply repaired_slot|exact Hq]|].
  intros res w' [Heff Hres]. pose proof (repaired_step _ _ _ _ _ _ _ _ Hrep Hj Heff) as Hrep'.
  assert (Hlen := pending_below_length link (rs_component r) (rs_dead_epoch r) slots j).
  unfold producer_state. rewrite pending_below_step by lia.
  destruct (pending_message link _ _ j (slots j)) as [m|].
  - destruct Hres as (st & -> & Hq'). destruct (published st) eqn:Hp; [|by split_and!].
    rewrite announce_all_app, length_app, u32_small by zlia. cbn. split_and!; [lia|done|done].
  - destruct Hres as [-> Hq']. by rewrite app_nil_r.
Qed.

(** C26. The repair of a dead producer's endpoint announces again exactly its
    pending transfers: on OK every slot is repaired (an abandoned send or
    rollback is undone to the owned buffer it started from, the token of an
    abandoned rollback of a transfer is dropped, any other slot is as it was),
    the queue holds in addition the announcement of every transfer of the dead
    incarnation that is pending on this link (each once, in slot order), and
    their number is reported.  A transport error stops the scan: the slots up
    to the one that was refused are repaired, the announcements before it
    queued, and their number is reported.  Nothing else changes. *)
Theorem reconcile_producer fuel link r pool hd slots q w :
  reconcilable link r pool hd slots w → l_role link = ZIPC_LINK_ROLE_PRODUCER →
  transport_queue (l_transport link) w q → (Z.to_nat (h_slot_count hd) < fuel)%nat →
  wp (zipc_link_reconcile fuel (Some link) (Some r))
    (λ res w', ∃ j,
       let c := rs_component r in let dead := rs_dead_epoch r in
       let ms := pending_below link c dead slots j in
       res.2 = Some (Z.of_nat (length ms)) ∧
       transport_queue (l_transport link) w' (announce_all ms q) ∧
       if status_is res.1 ZIPC_OK
       then j = h_slot_count hd ∧
            repaired pool (h_slot_count hd) slots (producer_repair c dead) j w w'
       else 0 <= j < h_slot_count hd ∧ published res.1 = false ∧
            repaired pool (h_slot_count hd) slots (producer_repair c dead) (j + 1) w w') w.
Proof.
  intros Hrc Hrole Hq Hf. pose proof (rc_count _ _ _ _ _ _ Hrc) as Hcount.
  eapply wp_reconcile_checks; [exact Hrc|by left|]. rewrite Hrole. apply wp_bind.
  eapply (wp_scan_slots (producer_state link r pool (h_slot_count hd) slots q w) fuel pool 0 0 _ _
            (h_slot_count hd)); try lia.
  - intros j n w' (_ & Hrep & _). exists hd. split; [|done].
    rewrite (rp_headers _ _ _ _ _ _ _ Hrep). apply Hrc.
  - split_and!; [done| |done]. apply repaired_start, Hrc.
  - intros j n w' Hj Hst. eapply wp_mono; [by eapply producer_slot|].
    intros [n'|[st n']] w'' Hres; [done|]. destruct Hres as (Hp & -> & Hrep & Hq').
    apply wp_ret. exists j. destruct Hst as (-> & _). split_and!; try done.
    pose proof Hp as [Hno _]%orb_false_iff. cbn [fst]. rewrite Hno.
    split_and!; [lia|lia|done|done].
  - intros n w' (-> & Hrep & Hq'). apply wp_bind. role_eval.
    apply wp_ret, wp_ret. exists (h_slot_count hd). by split_and!.
Qed.

(** ** The consumer *)
Lemma wp_reconcile_consumer link hd c dead i s n w :
  l_role link = ZIPC_LINK_ROLE_CONSUMER →
  w_headers w !! p_header (l_pool link) = Some hd →
  w_controls w !! slot_key (l_pool link) i = Some s →
  (∀ e, (protect_result (l_pool link) hd i false e).1 = ZIPC_OK) →
  wp (reconcile_slot link c dead i n)
    (λ r w', r = inl n ∧ repair_effect (l_pool link) i (consumer_repair c dead s) w w' ∧
       w_rings w' = w_rings w) w.
Proof.
  intros Hrole Hh Hs Hprot. unfold reconcile_slot. rewrite Hrole.
  apply wp_bind. eapply wp_slot_read; [exact Hs|]. apply wp_bind. eapply wp_slot_read; [exact Hs|].
  role_eval. psimpl. unfold consumer_repair.
  pose proof (repair_nothing _ _ _ _ Hs) as Hkeep. set (t := s_claim_token s).
  destruct (decide (s_state s = ZIPC_SLOT_TRANSFER)) as [Hst|Hst].
  { rewrite Hst. status_eval. psimpl. rewrite (andb_comm (token_of _ _ _)).
    destruct ((claim_token_kind t =? ZIPC_CLAIM_RECEIVE) && token_of c dead t); psimpl.
    - apply wp_bind. eapply wp_clear_claim_token; [exact Hs| |done]. intros s1 -> _.
      apply wp_ret. by split_and!.
    - by apply wp_ret. }
  assert (state_is (s_state s) ZIPC_SLOT_TRANSFER = false) as -> by by apply bool_decide_eq_false.
  psimpl. destruct (decide (s_state s = ZIPC_SLOT_CLAIMING)) as [Hc|Hc].
  - rewrite Hc. status_eval. unfold reconcile_claiming. rewrite Hrole. apply wp_bind.
    change (matching_kind ZIPC_LINK_ROLE_CONSUMER (claim_token_kind t))
      with (claim_token_kind t =? ZIPC_CLAIM_RECEIVE).
    destruct (token_of c dead t), (claim_token_kind t =? ZIPC_CLAIM_RECEIVE); psimpl;
      try (by apply wp_ret, wp_ret).
    apply wp_bind. eapply wp_cas_state; [exact Hs| |done]. intros s1 -> _. psimpl.
    role_eval.
    apply wp_bind. eapply wp_protect_slot; [exact Hh|reflexivity|]. rewrite Hprot. status_eval.
    do 3 (apply wp_bind; eapply wp_slot_write; [cbn; apply lookup_insert_eq|]; intros ? ->).
    apply wp_ret, wp_ret. split_and!; try done. split_and!; try done.
    cbn. by rewrite !insert_insert_eq.
  - assert (state_is (s_state s) ZIPC_SLOT_CLAIMING = false) as -> by by apply bool_decide_eq_false.
    apply wp_ret. split_and!; try done. destruct (negb _); [done|]. by destruct (s_state s).
Qed.

(** [m] refers to a slot that is in transfer with the buffer it announces. *)
Definition standing (count : Z) (slots : Z → zipc_slot_control_t) (m : zipc_message_t) : bool :=
  (claim_slot m <? count) &&
  (state_is (s_state (slots (claim_slot m))) ZIPC_SLOT_TRANSFER
   && (s_generation (slots (claim_slot m)) =? zipc_handle_generation (m_handle m))).
(** The queue without the announcements before the first that stands. *)
Fixpoint drop_stale (stands : zipc_message_t → bool) (q : list zipc_message_t)
    : list zipc_message_t :=
  match q with
  | [] => []
  | m :: q' => if stands m then q else drop_stale stands q'
  end.

Lemma wp_drain_turn link pool hd count slots ring r w :
  l_pool link = pool → l_recovery_ring link = ring → ring_at ring r w →
  w_headers w !! p_header pool = Some hd → h_slot_count hd = count →
  (∀ i, 0 <= i < count → w_controls w !! slot_key pool i = Some (slots i)) →
  wp (drain_turn link)
    (λ res w', match ring_contents r with
     | [] => res = Some tt ∧ w' = w
     | m :: q =>
         if standing count slots m then res = Some tt ∧ w' = w
         else res = None ∧ ∃ r', w' = put_ring ring r' w ∧ ring_wf r' ∧ ring_contents r' = q
     end) w.
Proof.
  intros <- <- (Ha & Hr & Hwf) Hh Hcount Hs. unfold drain_turn.
  apply wp_bind. eapply wp_ring_read; [exact Hr|]. apply wp_bind. eapply wp_ring_read; [exact Hr|].
  pose proof (ring_nonempty r Hwf) as Hne. pose proof (length_ring_contents r) as Hlen.
  pose proof (rw_depth _ Hwf) as Hd.
  destruct (Z.eqb_spec (ring_consumer r) (ring_producer r)) as [Heq|Hneq].
  { apply wp_ret. destruct (ring_contents r); [done|simpl in *; lia]. }
  apply wp_bind. eapply wp_ring_read; [exact Hr|]. rewrite (proj2 (Z.eqb_neq _ 0)) by lia.
  apply wp_bind. eapply wp_ring_read; [exact Hr|].
  destruct (ring_pop_contents r Hwf) as [Hwf' Hc]; [lia|]. rewrite Hc. cbv iota.
  set (m := ring_entry (ring_consumer r) r). set (r' := set_consumer _ r) in *.
  assert (Hdrop : ∀ Q : option () → world E → Prop, Q None (put_ring (l_recovery_ring link) r' w) →
    wp (ring_write (l_recovery_ring link) (set_consumer (u32 (ring_consumer r + 1)));; mret None) Q w).
  { intros Q HQ. apply wp_bind. eapply wp_ring_write; [exact Hr|]. by apply wp_ret. }
  apply wp_bind. eapply wp_header_read; [exact Hh|]. rewrite Hcount. unfold standing, claim_slot.
  destruct (Z.leb_spec count (zipc_handle_slot_id (m_handle m))) as [Hout|Hin].
  { rewrite (proj2 (Z.ltb_ge _ _)) by done. apply Hdrop. psimpl. split; [done|]. by exists r'. }
  rewrite (proj2 (Z.ltb_lt _ _)) by done. psimpl.
  assert (Hslot := Hs (zipc_handle_slot_id (m_handle m)) (conj (slot_id_nonneg _) Hin)).
  apply wp_bind. eapply wp_slot_read; [exact Hslot|]. apply wp_bind.
  eapply wp_slot_read; [exact Hslot|]. destruct (_ && _).
  - by apply wp_ret.
  - apply Hdrop. split; [done|]. by exists r'.
Qed.

Lemma wp_drain fuel link pool hd count slots ring r w :
  l_pool link = pool → l_recovery_ring link = ring → ring_at ring r w →
  w_headers w !! p_header pool = Some hd → h_slot_count hd = count →
  (∀ i, 0 <= i < count → w_controls w !! slot_key pool i = Some (slots i)) →
  (length (ring_contents r) < fuel)%nat →
  wp (loop fuel (drain_turn link))
    (λ res w', res = Some tt ∧ ∃ r', w' = put_ring ring r' w ∧ ring_wf r' ∧
       ring_contents r' = drop_stale (standing count slots) (ring_contents r)) w.
Proof.
  intros Hp Hring. revert r w. induction fuel as [|fuel IH]; intros r w Hat Hh Hc Hs Hf; [lia|].
  cbn [loop]. apply wp_bind. eapply wp_mono; [by eapply (wp_drain_turn link pool hd count slots)|].
  intros res w' Hres. pose proof Hat as (Ha & Hr & Hwf).
  assert (Hdone : w = put_ring ring r w) by (symmetry; by apply put_ring_id).
  destruct (ring_contents r) as [|m q] eqn:Hq; cbn [drop_stale].
  { destruct Hres as [-> ->]. apply wp_ret. split; [done|]. exists r. by split_and!. }
  destruct (standing count slots m).
  { destruct Hres as [-> ->]. apply wp_ret. split; [done|]. exists r. by split_and!. }
  destruct Hres as (-> & r' & -> & Hwf' & Hq').
  assert (Hat' : ring_at ring r' (put_ring ring r' w)) by (split_and!; [done|apply lookup_insert_eq|done]).
  eapply wp_mono; [apply (IH r' _ Hat'); try done; rewrite Hq'; simpl in Hf; lia|].
  intros res w'' (-> & r'' & -> & ? & Hq''). split; [done|]. exists r''.
  rewrite put_ring_twice. by rewrite <- Hq'.
Qed.

(** C27. The repair of a dead consumer's endpoint gives its claims back and
    leaves a queue that starts with a standing announcement: every claim the
    dead incarnation abandoned is back in transfer from its sender (with the
    sender, hop count, visited set and time the claim had overwritten), tokens
    it left on transfers are dropped, any other slot is as it was; the ring
    has lost exactly the announcements before the first one whose slot is in
    transfer with the announced generation.  The call returns OK and reports
    no announcement; the loop over the ring ends within one turn per message. *)
Theorem reconcile_consumer fuel link r pool hd slots ring w :
  reconcilable link r pool hd slots w → l_role link = ZIPC_LINK_ROLE_CONSUMER →
  ring_at (l_recovery_ring link) ring w →
  (∀ i e, 0 <= i < h_slot_count hd → (protect_result pool hd i false e).1 = ZIPC_OK) →
  (Z.to_nat (h_slot_count hd) < fuel)%nat → (length (ring_contents ring) < fuel)%nat →
  wp (zipc_link_reconcile fuel (Some link) (Some r))
    (λ res w',
       let f := consumer_repair (rs_component r) (rs_dead_epoch r) in
       res = (ZIPC_OK, Some 0) ∧
       repaired pool (h_slot_count hd) slots f (h_slot_count hd) w w' ∧
       ∃ ring', w_rings w' = <[l_recovery_ring link := ring']> (w_rings w) ∧ ring_wf ring' ∧
         ring_contents ring' =
           drop_stale (standing (h_slot_count hd) (λ i, f (slots i))) (ring_contents ring)) w.
Proof.
  intros Hrc Hrole (Ha & Hr & Hwf) Hprot Hf Hf'. pose proof (rc_count _ _ _ _ _ _ Hrc) as Hcount.
  pose proof (rc_pool _ _ _ _ _ _ Hrc) as Hpool. pose proof (rc_header _ _ _ _ _ _ Hrc) as Hh.
  set (f := consumer_repair (rs_component r) (rs_dead_epoch r)).
  eapply wp_reconcile_checks; [exact Hrc|by right|]. rewrite Hrole. role_eval. apply wp_bind.
  eapply (wp_scan_slots (λ j n w', n = 0 ∧ repaired pool (h_slot_count hd) slots f j w w' ∧
            w_rings w' = w_rings w) fuel pool 0 0 _ _ (h_slot_count hd)); try lia.
  - intros j n w' (_ & Hrep & _). exists hd. by rewrite (rp_headers _ _ _ _ _ _ _ Hrep).
  - split_and!; try done. apply repaired_start, Hrc.
  - intros j n w' Hj (-> & Hrep & Hrings). subst pool.
    eapply wp_mono; [eapply wp_reconcile_consumer; [done| |by eapply repaired_slot|]|].
    + by rewrite (rp_headers _ _ _ _ _ _ _ Hrep).
    + intros e. by apply Hprot.
    + intros res w'' (-> & Heff & Hrings'). split_and!; [done| |congruence].
      by eapply repaired_step.
  - intros n w' (-> & Hrep & Hrings). apply wp_bind, wp_bind.
    eapply wp_mono; [eapply (wp_drain fuel link pool hd (h_slot_count hd) (λ i, f (slots i)));
      try done|].
    + split_and!; [done|by rewrite Hrings|done].
    + by rewrite (rp_headers _ _ _ _ _ _ _ Hrep).
    + intros i Hi. rewrite (rp_slots _ _ _ _ _ _ _ Hrep i Hi).
      by rewrite (proj2 (Z.ltb_lt _ _)) by lia.
    + intros res w'' (-> & ring' & -> & Hwf' & Hc). apply wp_returned, wp_ret.
      split_and!; [done|by destruct Hrep|]. exists ring'. cbn. by rewrite Hrings.
Qed.
End spec.

(** ** The demo pool after a crash

    Component [c] came back as incarnation 2 of which incarnation 1 is dead. *)
Definition demo_recovering (c : Z) (w : world demo) : world demo :=
  {| w with w_components := <[(1000, c) := ZipcComponentStatus
       (component_lifecycle_make 2 ZIPC_COMPONENT_RECOVERING) 0 0]> (w_components w) |}.
Definition demo_restart (c : Z) : zipc_restart_t := ZipcRestart (Some demo_pool) c 1 2 0 false.
Definition demo_endpoint (role : zipc_link_role_t) (local remote : Z)
    : zipc_link_t zipc_platform_transport_t :=
  let link := demo_link local remote in {| link with l_local_epoch := 2; l_role := role |}.
(** Slot 0 is in transfer over link 5, slot 1 was being claimed by component 9. *)
Definition demo_pending : zipc_slot_control_t := {| demo_transfer with s_transfer_link_id := 5 |}.
Definition demo_claimed : zipc_slot_control_t :=
  {| demo_transfer with
     s_state := ZIPC_SLOT_CLAIMING;
     s_claim_token := claim_token_make ZIPC_CLAIM_RECEIVE 9 1 |}.
Definition demo_slots (i : Z) : zipc_slot_control_t := if i =? 0 then demo_pending else demo_claimed.
Definition demo_crashed (c : Z) (ring : zipc_transport_spsc_ring_t) : world demo :=
  demo_recovering c (put_ring 77 ring (demo_world_with demo_pending demo_claimed)).

Lemma demo_reconcilable role c d ring :
  zipc_component_id_valid c = true →
  reconcilable (demo_endpoint role c d) (demo_restart c) demo_pool demo_header demo_slots
    (demo_crashed c ring).
Proof.
  intros Hc. split; try done.
  - eexists. split; [apply lookup_insert_eq|done].
  - change (h_slot_count demo_header) with 2. intros i Hi.
    assert (i = 0 ∨ i = 1) as [-> | ->] by lia; reflexivity.
Qed.

(** The producer restarts: its transfer is announced again. *)
Lemma reconcile_producer_witness :
  wp (zipc_link_reconcile 3 (Some (demo_endpoint ZIPC_LINK_ROLE_PRODUCER 7 9))
        (Some (demo_restart 7)))
    (λ res w', res = (ZIPC_OK, Some 1) ∧ linux_queue 5 demo_transport w' [demo_message])
    (demo_crashed 7 empty_ring).
Proof.
  pose proof (reconcile_producer 3 (demo_endpoint ZIPC_LINK_ROLE_PRODUCER 7 9) (demo_restart 7)
    demo_pool demo_header demo_slots [] (demo_crashed 7 empty_ring)
    (demo_reconcilable _ 7 9 _ eq_refl) eq_refl) as Hw.
  cbv zeta in Hw. eapply wp_mono; [eapply (wp_and _ (λ res _, res = (ZIPC_OK, Some 1)));
    [vm_compute; reflexivity|apply Hw; [|cbn; lia]]|].
  - eapply linux_queue_frame, (empty_queue (demo_world_with demo_pending demo_claimed)).
    reflexivity.
  - intros res w' (-> & j & _ & Hq & -> & _). split; [done|]. exact Hq.
Defined.

(** The consumer restarts: its claim goes back to the sender. *)
Lemma reconcile_consumer_witness :
  wp (zipc_link_reconcile 3 (Some (demo_endpoint ZIPC_LINK_ROLE_CONSUMER 9 7))
        (Some (demo_restart 9)))
    (λ res w', res = (ZIPC_OK, Some 0) ∧
       w_controls w' !! (1000, 1) = Some (consumer_repair 9 1 demo_claimed))
    (demo_crashed 9 demo_ring).
Proof.
  eapply wp_mono; [apply (reconcile_consumer 3 (demo_endpoint ZIPC_LINK_ROLE_CONSUMER 9 7)
    (demo_restart 9) demo_pool demo_header demo_slots demo_ring)|].
  - apply demo_reconcilable. reflexivity.
  - reflexivity.
  - split; [done|]. split; [apply lookup_insert_eq|apply demo_ring_wf].
  - intros i e Hi. apply demo_protects. lia.
  - cbn. lia.
  - change (ring_contents demo_ring) with [demo_message]. cbn. lia.
  - intros res w' (-> & Hrep & _). split; [done|].
    exact (rp_slots _ _ _ _ _ _ _ Hrep 1 ltac:(cbn; lia)).
Defined.
