(* ===== verification/Topology.v ===== *)
(** * The link registry (src/core/zipc.c, platform/linux/user/zipc-topology-file.c)

    The process-local topology: named pools and transports, declarative links
    with their merge policies, the INI-style parser, and opening a link by
    name.  The global arrays are fields of [topology], passed explicitly; a
    result of [None] stands for undefined behaviour of the C code. *)
From Stdlib Require Import Ascii String.
From stdpp Require Import strings.
From S2P Require Import Prelude Types Packing Visited Prog Store Identity Slot Recovery Ring Buffer Link.

Abbreviation ZIPC_TOPOLOGY_NAME_MAX := 63 (only parsing).
Abbreviation ZIPC_TOPOLOGY_MAX_LINKS := 64 (only parsing).
Abbreviation ZIPC_TOPOLOGY_MAX_POOLS := 32 (only parsing).
Abbreviation ZIPC_TOPOLOGY_MAX_TRANSPORTS := 64 (only parsing).

(** Values of [zipc_topology_policy_t]; a caller may pass any integer. *)
Definition ZIPC_TOPOLOGY_REJECT_DUPLICATES : Z := 0.
Definition ZIPC_TOPOLOGY_EXTEND : Z := 1.
Definition ZIPC_TOPOLOGY_OVERRIDE : Z := 2.

(** ** Data *)

(** A string pointer is [None] for NULL; [tl_role] is the integer the enum
    field holds. *)
Record zipc_topology_link_config_t := ZipcTopologyLink {
  tl_name : option string;
  tl_link_id : Z;
  tl_pool_name : option string;
  tl_transport_name : option string;
  tl_local_component : Z;
  tl_remote_component : Z;
  tl_local_epoch : Z;
  tl_role : Z;
  tl_hop_limit : Z;
  tl_default_deadline_ns : Z;
  tl_timeout_ticks : Z }.

Record zipc_topology_link_entry_t := ZipcTopologyEntry {
  te_name : string;
  te_link_id : Z;
  te_pool_name : string;
  te_transport_name : string;
  te_local_component : Z;
  te_remote_component : Z;
  te_local_epoch : Z;
  te_role : Z;
  te_hop_limit : Z;
  te_default_deadline_ns : Z;
  te_timeout_ticks : Z }.

Record zipc_pool_binding_t := ZipcPoolBinding {
  pb_name : string;
  pb_pool : zipc_pool_t }.
Record zipc_transport_binding_t := ZipcTransportBinding {
  tb_name : string;
  tb_config : zipc_platform_transport_config_t }.
Record zipc_link_definition_t := ZipcLinkDefinition {
  ld_name : option string;
  ld_config : zipc_link_config_t }.

(** The used prefixes of the global arrays. *)
Record topology := Topology {
  g_legacy_topology_definitions : list zipc_link_definition_t;
  g_pool_bindings : list zipc_pool_binding_t;
  g_transport_bindings : list zipc_transport_binding_t;
  g_topology_links : list zipc_topology_link_entry_t }.

(** ** Lookups *)
Definition topology_name_valid (name : option string) : bool :=
  match name with
  | None => false
  | Some s => negb (String.eqb s "") && (Z.of_nat (String.length s) <=? ZIPC_TOPOLOGY_NAME_MAX)
  end.

Definition topology_find_pool (t : topology) (name : string) : option zipc_pool_t :=
  b ← list_find (λ b, pb_name b = name) (g_pool_bindings t); Some (pb_pool b.2).
Definition topology_find_transport (t : topology) (name : string)
    : option zipc_platform_transport_config_t :=
  b ← list_find (λ b, tb_name b = name) (g_transport_bindings t); Some (tb_config b.2).
(** [-1] is [None]. *)
Definition topology_find_link_index (t : topology) (name : string) : option nat :=
  fst <$> list_find (λ e, te_name e = name) (g_topology_links t).

(** ** Bindings *)
Definition zipc_topology_reset : topology := Topology [] [] [] [].

(** [snprintf(field, sizeof(field), "%s", s)] into a field of 64 bytes *)
Definition snprintf_name (s : string) : string :=
  String.substring 0 (Z.to_nat ZIPC_TOPOLOGY_NAME_MAX) s.

Definition zipc_topology_bind_pool (name : option string) (pool : option zipc_pool_t)
    (t : topology) : zipc_status_t * topology :=
  match name, pool with
  | Some s, Some pool =>
  if negb (topology_name_valid name) then (ZIPC_ERR_INVALID_ARGUMENT, t)
  else
  match list_find (λ b, pb_name b = s) (g_pool_bindings t) with
  | Some (i, b) =>
      (ZIPC_OK, {| t with g_pool_bindings :=
                     <[i := ZipcPoolBinding (pb_name b) pool]> (g_pool_bindings t) |})
  | None =>
      if ZIPC_TOPOLOGY_MAX_POOLS <=? Z.of_nat (length (g_pool_bindings t))
      then (ZIPC_ERR_NO_BUFFER, t)
      else (ZIPC_OK, {| t with g_pool_bindings :=
                          g_pool_bindings t ++ [ZipcPoolBinding (snprintf_name s) pool] |})
  end
  | _, _ => (ZIPC_ERR_INVALID_ARGUMENT, t)
  end.

Definition zipc_topology_bind_transport (name : option string)
    (transport : option zipc_platform_transport_config_t)
    (t : topology) : zipc_status_t * topology :=
  match name, transport with
  | Some s, Some transport =>
  if negb (topology_name_valid name) then (ZIPC_ERR_INVALID_ARGUMENT, t)
  else
  match list_find (λ b, tb_name b = s) (g_transport_bindings t) with
  | Some (i, b) =>
      (ZIPC_OK, {| t with g_transport_bindings :=
                     <[i := ZipcTransportBinding (tb_name b) transport]>
                       (g_transport_bindings t) |})
  | None =>
      if ZIPC_TOPOLOGY_MAX_TRANSPORTS <=? Z.of_nat (length (g_transport_bindings t))
      then (ZIPC_ERR_NO_BUFFER, t)
      else (ZIPC_OK, {| t with g_transport_bindings :=
                          g_transport_bindings t
                            ++ [ZipcTransportBinding (snprintf_name s) transport] |})
  end
  | _, _ => (ZIPC_ERR_INVALID_ARGUMENT, t)
  end.

(** ** Validation *)

(** The first test of the loop body. *)
Definition link_malformed (l : zipc_topology_link_config_t) : bool :=
  negb (topology_name_valid (tl_name l)) || negb (topology_name_valid (tl_pool_name l))
  || negb (topology_name_valid (tl_transport_name l)) || (tl_link_id l =? 0)
  || negb (zipc_component_id_valid (tl_local_component l))
  || negb (zipc_component_id_valid (tl_remote_component l))
  || (2 (* ZIPC_LINK_ROLE_CONSUMER *) <? tl_role l)
  || (tl_local_component l =? tl_remote_component l).
(** The second test. *)
Definition link_unbound (t : topology) (l : zipc_topology_link_config_t) : bool :=
  bool_decide (topology_find_pool t (default "" (tl_pool_name l)) = None)
  || bool_decide (topology_find_transport t (default "" (tl_transport_name l)) = None).
(** The inner loop: [strcmp] of a NULL name is undefined. *)
Fixpoint link_duplicated (l : zipc_topology_link_config_t)
    (later : list zipc_topology_link_config_t) : option bool :=
  match later with
  | [] => Some false
  | l' :: later' =>
      match tl_name l, tl_name l' with
      | Some n, Some n' =>
          if String.eqb n n'
             || (negb (tl_link_id l =? 0) && (tl_link_id l =? tl_link_id l'))
          then Some true else link_duplicated l later'
      | _, _ => None
      end
  end.
Fixpoint validate_links (t : topology) (links : list zipc_topology_link_config_t)
    : option zipc_status_t :=
  match links with
  | [] => Some ZIPC_OK
  | l :: later =>
      if link_malformed l then Some ZIPC_ERR_INVALID_ARGUMENT
      else if link_unbound t l then Some ZIPC_ERR_INVALID_ARGUMENT
      else
      duplicated ← link_duplicated l later;
      if duplicated : bool then Some ZIPC_ERR_INVALID_ARGUMENT
      else validate_links t later
  end.
(** [config] is [config->links], [link_count] its length; [None] for NULL. *)
Definition zipc_topology_validate (config : option (list zipc_topology_link_config_t))
    (t : topology) : option zipc_status_t :=
  match config with
  | None => Some ZIPC_ERR_INVALID_ARGUMENT
  | Some links =>
  if (Z.of_nat (length links) =? 0) || (ZIPC_TOPOLOGY_MAX_LINKS <? Z.of_nat (length links))
  then Some ZIPC_ERR_INVALID_ARGUMENT
  else validate_links t links
  end.

(** ** Registration *)
Definition topology_copy_link (src : zipc_topology_link_config_t) : zipc_topology_link_entry_t :=
  {| te_name := snprintf_name (default "" (tl_name src));
     te_link_id := tl_link_id src;
     te_pool_name := snprintf_name (default "" (tl_pool_name src));
     te_transport_name := snprintf_name (default "" (tl_transport_name src));
     te_local_component := tl_local_component src;
     te_remote_component := tl_remote_component src;
     te_local_epoch := tl_local_epoch src;
     te_role := tl_role src;
     te_hop_limit := tl_hop_limit src;
     te_default_deadline_ns := tl_default_deadline_ns src;
     te_timeout_ticks := tl_timeout_ticks src |}.

Definition set_link (i : nat) (e : zipc_topology_link_entry_t) (t : topology) : topology :=
  {| t with g_topology_links := <[i := e]> (g_topology_links t) |}.
Definition add_link (e : zipc_topology_link_entry_t) (t : topology) : topology :=
  {| t with g_topology_links := g_topology_links t ++ [e] |}.

(** One turn of the registration loop; [inr] goes on. *)
Definition register_link (policy : Z) (src : zipc_topology_link_config_t) (t : topology)
    : zipc_status_t + topology :=
  match topology_find_link_index t (default "" (tl_name src)) with
  | Some existing =>
      if negb (policy =? ZIPC_TOPOLOGY_OVERRIDE) then inl ZIPC_ERR_INVALID_ARGUMENT
      else inr (set_link existing (topology_copy_link src) t)
  | None =>
      match (if tl_link_id src =? 0 then None
             else list_find (λ e, te_link_id e = tl_link_id src) (g_topology_links t)) with
      | Some (j, _) =>
          if negb (policy =? ZIPC_TOPOLOGY_OVERRIDE) then inl ZIPC_ERR_INVALID_ARGUMENT
          else inr (set_link j (topology_copy_link src) t)
      | None =>
          if ZIPC_TOPOLOGY_MAX_LINKS <=? Z.of_nat (length (g_topology_links t))
          then inl ZIPC_ERR_NO_BUFFER
          else inr (add_link (topology_copy_link src) t)
      end
  end.
Fixpoint register_links (policy : Z) (links : list zipc_topology_link_config_t) (t : topology)
    : zipc_status_t * topology :=
  match links with
  | [] => (ZIPC_OK, t)
  | src :: later =>
      match register_link policy src t with
      | inl status => (status, t)
      | inr t' => register_links policy later t'
      end
  end.
Definition zipc_topology_register_config (config : option (list zipc_topology_link_config_t))
    (policy : Z) (t : topology) : option (zipc_status_t * topology) :=
  status ← zipc_topology_validate config t;
  if negb (status_is status ZIPC_OK) then Some (status, t)
  else
  if negb (policy =? ZIPC_TOPOLOGY_REJECT_DUPLICATES)
     && negb (policy =? ZIPC_TOPOLOGY_EXTEND) && negb (policy =? ZIPC_TOPOLOGY_OVERRIDE)
  then Some (ZIPC_ERR_INVALID_ARGUMENT, t)
  else Some (register_links policy (default [] config) t).

(** ** Legacy definitions *)
Definition definition_malformed (d : zipc_link_definition_t) : bool :=
  bool_decide (ld_name d = None) || bool_decide (lc_pool (ld_config d) = None)
  || negb (zipc_component_id_valid (lc_local_component (ld_config d)))
  || negb (zipc_component_id_valid (lc_remote_component (ld_config d)))
  || (lc_local_component (ld_config d) =? lc_remote_component (ld_config d)).
Fixpoint definitions_rejected (ds : list zipc_link_definition_t) : bool :=
  match ds with
  | [] => false
  | d :: later =>
      definition_malformed d
      || existsb (λ d', bool_decide (is_Some (ld_name d')) &&
                        bool_decide (ld_name d = ld_name d')) later
      || definitions_rejected later
  end.
Definition zipc_topology_register (definitions : option (list zipc_link_definition_t))
    (t : topology) : zipc_status_t * topology :=
  match definitions with
  | None | Some [] => (ZIPC_ERR_INVALID_ARGUMENT, t)
  | Some ds =>
      if definitions_rejected ds then (ZIPC_ERR_INVALID_ARGUMENT, t)
      else (ZIPC_OK, {| t with g_legacy_topology_definitions := ds |})
  end.
