(* ===== verification/TopologyText.v ===== *)
(** * Loading a topology from text (src/core/zipc.c, zipc-topology-file.c)

    The INI-style parser behind [zipc_topology_load_string], loading a file,
    and opening a link by its registered name. *)
From Stdlib Require Import Ascii String.
From stdpp Require Import strings.
From S2P Require Import Prelude Types Packing Visited Prog Store Identity Slot Recovery Ring Buffer Link Topology.

(** ** Characters *)
Definition code (c : ascii) : Z := Z.of_N (N_of_ascii c).
Definition newline : ascii := ascii_of_N 10.
Definition nul : ascii := ascii_of_N 0.
Definition empty (s : string) : bool := String.eqb s "".

(** [' '], ['\t'], ['\r'], ['\n'] *)
Definition trim_space (c : ascii) : bool :=
  (code c =? 32) || (code c =? 9) || (code c =? 13) || (code c =? 10).
Fixpoint ltrim (s : string) : string :=
  match s with
  | EmptyString => EmptyString
  | String c s' => if trim_space c then ltrim s' else s
  end.
Fixpoint rtrim (s : string) : string :=
  match s with
  | EmptyString => EmptyString
  | String c s' =>
      let s'' := rtrim s' in
      if empty s'' && trim_space c then EmptyString else String c s''
  end.
Definition topology_trim (s : string) : string := rtrim (ltrim s).

(** ** The C library functions the parser calls *)

(** The C string that starts a byte buffer. *)
Fixpoint c_string (s : string) : string :=
  match s with
  | EmptyString => EmptyString
  | String c s' => if code c =? 0 then EmptyString else String c (c_string s')
  end.
(** [strchr(s, c)]: what precedes and what follows the first [c]. *)
Fixpoint strchr (s : string) (c : ascii) : option (string * string) :=
  match s with
  | EmptyString => None
  | String d s' =>
      if code d =? code c then Some (EmptyString, s')
      else '(before, after) ← strchr s' c; Some (String d before, after)
  end.
(** The tokens of repeated [strtok(copy, "\n")]; [token] is the one being read. *)
Fixpoint strtok_go (token s : string) : list string :=
  let finish := if empty token then [] else [token] in
  match s with
  | EmptyString => finish
  | String c s' =>
      if code c =? 10 then finish ++ strtok_go EmptyString s'
      else strtok_go (token +:+ String c EmptyString) s'
  end.
Definition strtok_lines (s : string) : list string := strtok_go EmptyString s.

(** [isspace] in the C locale. *)
Definition isspace (c : ascii) : bool := (code c =? 32) || ((9 <=? code c) && (code c <=? 13)).
Fixpoint skip_space (s : string) : string :=
  match s with
  | EmptyString => EmptyString
  | String c s' => if isspace c then skip_space s' else s
  end.
Definition digit_value (c : ascii) : option Z :=
  let n := code c in
  if (48 <=? n) && (n <=? 57) then Some (n - 48)
  else if (97 <=? n) && (n <=? 122) then Some (n - 97 + 10)
  else if (65 <=? n) && (n <=? 90) then Some (n - 65 + 10)
  else None.
Definition starts_with_digit (base : Z) (s : string) : bool :=
  match s with
  | EmptyString => false
  | String c _ => match digit_value c with Some d => d <? base | None => false end
  end.
Fixpoint read_digits (base acc : Z) (s : string) : Z * string :=
  match s with
  | EmptyString => (acc, s)
  | String c s' =>
      match digit_value c with
      | Some d => if d <? base then read_digits base (acc * base + d) s' else (acc, s)
      | None => (acc, s)
      end
  end.
(** The base a literal selects ([base == 0]) and where its digits start. *)
Definition strtoull_base (s : string) : Z * string :=
  match s with
  | String z (String x s') =>
      if code z =? 48 then
        if ((code x =? 120) || (code x =? 88)) && starts_with_digit 16 s' then (16, s')
        else (8, s)
      else (10, s)
  | String z EmptyString => (if code z =? 48 then 8 else 10, s)
  | EmptyString => (10, s)
  end.
Definition strtoull_sign (s : string) : bool * string :=
  match s with
  | String c s' => if code c =? 45 then (true, s') else if code c =? 43 then (false, s') else (false, s)
  | EmptyString => (false, s)
  end.
(** [strtoull(s, &end, 0)]: the value and [end], [None] when nothing is
    converted.  Out of range gives ULLONG_MAX; a minus sign negates modulo 2^64. *)
Definition strtoull (s : string) : option (Z * string) :=
  let '(negative, s) := strtoull_sign (skip_space s) in
  let '(base, s) := strtoull_base s in
  if negb (starts_with_digit base s) then None
  else
  let '(v, rest) := read_digits base 0 s in
  Some (if UINT64_MAX <? v then UINT64_MAX else if negative : bool then u64 (- v) else v, rest).

Definition topology_parse_u64 (s : string) : option Z :=
  if empty s then None
  else
  '(v, rest) ← strtoull s;
  if negb (empty (topology_trim rest)) then None else Some v.

(** ** The parser *)
Definition zero_topology_link : zipc_topology_link_config_t :=
  ZipcTopologyLink None 0 None None 0 0 0 0 0 0 0.

(** [parsed[0..count)] and the index [current] points to, [None] for NULL. *)
Record load_state := LoadState {
  ls_parsed : list zipc_topology_link_config_t;
  ls_current : option nat }.

Definition is_key (key k : string) : bool := String.eqb key k.
(** A value that must fit a field: [!topology_parse_u64(value, &n) || n > max]. *)
Definition parse_max (max : Z) (value : string) : option Z :=
  n ← topology_parse_u64 value; if max <? n then None else Some n.

(** The [strcmp] chain over the keys, [None] for [goto parse_error]. *)
Definition load_key (key value : string) (l : zipc_topology_link_config_t)
    : option zipc_topology_link_config_t :=
  if is_key key "id" || is_key key "link_id" then
    n ← topology_parse_u64 value; Some {| l with tl_link_id := n |}
  else if is_key key "pool" then
    if negb (topology_name_valid (Some value)) then None
    else Some {| l with tl_pool_name := Some (snprintf_name value) |}
  else if is_key key "transport" then
    if negb (topology_name_valid (Some value)) then None
    else Some {| l with tl_transport_name := Some (snprintf_name value) |}
  else if is_key key "local" || is_key key "local_component" then
    n ← parse_max UINT16_MAX value; Some {| l with tl_local_component := n |}
  else if is_key key "remote" || is_key key "remote_component" then
    n ← parse_max UINT16_MAX value; Some {| l with tl_remote_component := n |}
  else if is_key key "local_epoch" then
    n ← parse_max UINT32_MAX value; Some {| l with tl_local_epoch := n |}
  else if is_key key "role" then
    if is_key value "producer" then Some {| l with tl_role := 1 |}
    else if is_key value "consumer" then Some {| l with tl_role := 2 |}
    else None
  else if is_key key "hop_limit" then
    n ← parse_max UINT32_MAX value; Some {| l with tl_hop_limit := n |}
  else if is_key key "default_deadline_ns" then
    n ← topology_parse_u64 value; Some {| l with tl_default_deadline_ns := n |}
  else if is_key key "timeout_ticks" then
    n ← parse_max UINT32_MAX value; Some {| l with tl_timeout_ticks := n |}
  else None.

(** A [\[section\]] line; [p] starts with the bracket. *)
Definition load_section (p : string) (st : load_state) : option load_state :=
  '(before, _) ← strchr p "]";
  let section := topology_trim (String.substring 1 (String.length before) before) in
  if String.prefix "link." section || String.prefix "link " section then
    let name := topology_trim (String.substring 5 (String.length section) section) in
    if negb (topology_name_valid (Some name))
       || (ZIPC_TOPOLOGY_MAX_LINKS <=? Z.of_nat (length (ls_parsed st))) then None
    else
    Some (LoadState (ls_parsed st ++ [{| zero_topology_link with tl_name := Some (snprintf_name name) |}])
                    (Some (length (ls_parsed st))))
  else Some (LoadState (ls_parsed st) None).

(** A [key = value] line of the current link. *)
Definition load_assignment (p : string) (i : nat) (st : load_state) : option load_state :=
  '(before, after) ← strchr p "=";
  l ← ls_parsed st !! i;
  l' ← load_key (topology_trim before) (topology_trim after) l;
  Some (LoadState (<[i := l']> (ls_parsed st)) (ls_current st)).

Definition load_line (line : string) (st : load_state) : option load_state :=
  let p := topology_trim line in
  match p with
  | EmptyString => Some st
  | String c _ =>
      if (code c =? 35) || (code c =? 59) then Some st
      else if code c =? 91 then load_section p st
      else
      match ls_current st with
      | None => Some st
      | Some i => load_assignment p i st
      end
  end.
Fixpoint load_lines (lines : list string) (st : load_state) : option load_state :=
  match lines with
  | [] => Some st
  | line :: lines' => st' ← load_line line st; load_lines lines' st'
  end.
(** The links of a text, [None] on a parse error. *)
Definition parse_topology (text : string) : option (list zipc_topology_link_config_t) :=
  ls_parsed <$> load_lines (strtok_lines (c_string text)) (LoadState [] None).

(** ** Loading *)
Section load.
Context {E T : Type} `{Platform E} `{Heap E} `{Transport E T}.

(** [None] is a NULL [text]; [length] is the string's length. *)
Definition zipc_topology_load_string (text : option string) (policy : Z) (t : topology)
    : prog (world E) (zipc_status_t * topology) :=
  match text with
  | None | Some EmptyString => mret (ZIPC_ERR_INVALID_ARGUMENT, t)
  | Some text =>
  allocated ← zipc_platform_alloc;
  if negb allocated then mret (ZIPC_ERR_PLATFORM, t)
  else
  match parse_topology text with
  | None | Some [] => zipc_platform_free;; mret (ZIPC_ERR_INVALID_ARGUMENT, t)
  | Some links =>
      match zipc_topology_register_config (Some links) policy t with
      | None => fault
      | Some r => zipc_platform_free;; mret r
      end
  end
  end.

(** What the file system answers: the file is missing or cannot be read, is
    empty, memory is short, a read is short, or the bytes. *)
Inductive file_contents :=
| FileUnreadable
| FileEmpty
| FileNoMemory
| FileShortRead
| FileBytes (bytes : string).
Definition zipc_topology_load_file (filename : option string) (read : string → file_contents)
    (policy : Z) (t : topology) : prog (world E) (zipc_status_t * topology) :=
  match filename with
  | None | Some EmptyString => mret (ZIPC_ERR_INVALID_ARGUMENT, t)
  | Some filename =>
  match read filename with
  | FileUnreadable | FileNoMemory | FileShortRead => mret (ZIPC_ERR_PLATFORM, t)
  | FileEmpty => mret (ZIPC_ERR_INVALID_ARGUMENT, t)
  | FileBytes text => zipc_topology_load_string (Some text) policy t
  end
  end.

(** ** Opening a link by name *)
Definition link_role (role : Z) : zipc_link_role_t :=
  if role =? 1 then ZIPC_LINK_ROLE_PRODUCER
  else if role =? 2 then ZIPC_LINK_ROLE_CONSUMER else ZIPC_LINK_ROLE_UNSPECIFIED.
Definition entry_config (e : zipc_topology_link_entry_t) (pool : zipc_pool_t)
    (transport : zipc_platform_transport_config_t) : zipc_link_config_t :=
  {| lc_pool := Some pool;
     lc_local_component := te_local_component e;
     lc_remote_component := te_remote_component e;
     lc_link_id := te_link_id e;
     lc_local_epoch := te_local_epoch e;
     lc_role := link_role (te_role e);
     lc_hop_limit := te_hop_limit e;
     lc_default_deadline_ns := te_default_deadline_ns e;
     lc_timeout_ticks := te_timeout_ticks e;
     lc_transport := transport |}.
(** The configuration a name resolves to. *)
Definition resolve_link (t : topology) (name : string) : option zipc_link_config_t :=
  match topology_find_link_index t name with
  | Some index =>
      entry ← g_topology_links t !! index;
      pool ← topology_find_pool t (te_pool_name entry);
      transport ← topology_find_transport t (te_transport_name entry);
      Some (entry_config entry pool transport)
  | None =>
      d ← list_find (λ d, ld_name d = Some name) (g_legacy_topology_definitions t);
      Some (ld_config d.2)
  end.
Definition zipc_link_open (t : topology) (name : option string)
    : prog (world E) (zipc_status_t * option (zipc_link_t T)) :=
  match name with
  | None => mret (ZIPC_ERR_INVALID_ARGUMENT, None)
  | Some name =>
      match resolve_link t name with
      | Some config => zipc_link_create (Some config)
      | None => mret (ZIPC_ERR_INVALID_ARGUMENT, None)
      end
  end.
End load.
