(* ===== verification/TopologySpec.v ===== *)
(** * The link registry is consistent

    Whatever sequence of binding and registration calls a process makes, the
    registry stays well formed; the merge policies do what the documentation
    says of them. *)
From Stdlib Require Import Ascii String.
From stdpp Require Import strings relations.
From S2P Require Import Prelude Types Packing Visited Prog Store Identity Slot Recovery Ring Buffer Link Topology TopologyText Demo.

(** ** Lists with distinct keys *)
Lemma NoDup_insert {A} (l : list A) i x :
  NoDup l → (∀ j, l !! j = Some x → j = i) → NoDup (<[i := x]> l).
Proof.
  rewrite !NoDup_alt. intros Hl Hx j k y Hj Hk.
  apply list_lookup_insert_Some in Hj, Hk. naive_solver.
Qed.
Lemma NoDup_snoc {A} (l : list A) x : NoDup l → x ∉ l → NoDup (l ++ [x]).
Proof.
  intros Hl Hx. apply NoDup_app. split_and!; [done| |apply NoDup_singleton].
  intros y Hy ->%list_elem_of_singleton. done.
Qed.
Lemma find_key_None {A K} `{EqDecision K} (key : A → K) (k : K) (l : list A) :
  list_find (λ a, key a = k) l = None ↔ k ∉ (key <$> l).
Proof.
  rewrite list_find_None, Forall_forall, list_elem_of_fmap. naive_solver.
Qed.
Lemma find_key_Some {A K} `{EqDecision K} (key : A → K) (k : K) (l : list A) i x :
  NoDup (key <$> l) → list_find (λ a, key a = k) l = Some (i, x) ↔ l !! i = Some x ∧ key x = k.
Proof.
  intros Hl. rewrite list_find_Some. split; [naive_solver|]. intros [Hi <-]. split_and!; [done..|].
  intros j y Hj Hlt Hy. assert (j = i); [|lia].
  apply (proj1 (NoDup_alt _) Hl _ _ (key x)); rewrite list_lookup_fmap.
  - by rewrite Hj; simpl; rewrite Hy.
  - by rewrite Hi.
Qed.
Lemma find_key_is_Some {A K} `{EqDecision K} (key : A → K) (k : K) (l : list A) :
  is_Some (list_find (λ a, key a = k) l) ↔ k ∈ (key <$> l).
Proof.
  destruct (list_find _ l) as [p|] eqn:Hf.
  - split; [|by eauto]. intros _. destruct p as [i x].
    apply list_find_Some in Hf as (Hi & <- & _). apply list_elem_of_fmap.
    eauto using list_elem_of_lookup_2.
  - apply find_key_None in Hf. split; [by intros []|done].
Qed.

(** ** Names *)
Lemma substring_full n s : (String.length s <= n)%nat → String.substring 0 n s = s.
Proof.
  revert s; induction n as [|n IH]; intros [|c s]; simpl; intros ?; [done|lia|done|].
  by rewrite IH by lia.
Qed.
Lemma snprintf_valid s : topology_name_valid (Some s) = true → snprintf_name s = s.
Proof.
  unfold topology_name_valid. intros H. bool_to_prop.
  apply substring_full. lia.
Qed.

Definition pool_names (t : topology) : list string := pb_name <$> g_pool_bindings t.
Definition transport_names (t : topology) : list string := tb_name <$> g_transport_bindings t.
Definition link_names (t : topology) : list string := te_name <$> g_topology_links t.
Definition link_ids (t : topology) : list Z := te_link_id <$> g_topology_links t.

Lemma pool_bound t name : is_Some (topology_find_pool t name) ↔ name ∈ pool_names t.
Proof.
  unfold topology_find_pool, pool_names. rewrite <- find_key_is_Some.
  by destruct (list_find _ _); simpl; split; intros [? ?]; eauto.
Qed.
Lemma transport_bound t name : is_Some (topology_find_transport t name) ↔ name ∈ transport_names t.
Proof.
  unfold topology_find_transport, transport_names. rewrite <- find_key_is_Some.
  by destruct (list_find _ _); simpl; split; intros [? ?]; eauto.
Qed.

(** ** Well-formed registries *)
Record entry_ok (t : topology) (e : zipc_topology_link_entry_t) : Prop := {
  entry_name : topology_name_valid (Some (te_name e)) = true;
  entry_id : te_link_id e ≠ 0;
  entry_local : zipc_component_id_valid (te_local_component e) = true;
  entry_remote : zipc_component_id_valid (te_remote_component e) = true;
  entry_distinct : te_local_component e ≠ te_remote_component e;
  entry_role : te_role e <= 2;
  entry_pool : te_pool_name e ∈ pool_names t;
  entry_transport : te_transport_name e ∈ transport_names t }.

Record topology_wf (t : topology) : Prop := {
  wf_pools : NoDup (pool_names t);
  wf_transports : NoDup (transport_names t);
  wf_links : NoDup (link_names t);
  wf_pool_count : Z.of_nat (length (g_pool_bindings t)) <= ZIPC_TOPOLOGY_MAX_POOLS;
  wf_transport_count :
    Z.of_nat (length (g_transport_bindings t)) <= ZIPC_TOPOLOGY_MAX_TRANSPORTS;
  wf_link_count : Z.of_nat (length (g_topology_links t)) <= ZIPC_TOPOLOGY_MAX_LINKS;
  wf_entries : Forall (entry_ok t) (g_topology_links t) }.

(** One call of the topology interface. *)
Inductive topology_step : relation topology :=
| step_reset t : topology_step t zipc_topology_reset
| step_bind_pool name pool t :
    topology_step t (zipc_topology_bind_pool name pool t).2
| step_bind_transport name transport t :
    topology_step t (zipc_topology_bind_transport name transport t).2
| step_register definitions t :
    topology_step t (zipc_topology_register definitions t).2
| step_register_config config policy t r :
    zipc_topology_register_config config policy t = Some r → topology_step t r.2.

(** Entries stay resolvable when bindings are only added. *)
Lemma entry_ok_grow t t' e :
  pool_names t ⊆ pool_names t' → transport_names t ⊆ transport_names t' →
  entry_ok t e → entry_ok t' e.
Proof. intros Hp Ht []. split; auto. Qed.

Lemma reset_wf : topology_wf zipc_topology_reset.
Proof. split; simpl; try lia; constructor. Qed.

(** The names after a table update: kept by a replacement, extended by an
    addition. *)
Lemma names_replaced {A} (key : A → string) (l : list A) i x y :
  l !! i = Some x → key y = key x → key <$> <[i := y]> l = key <$> l.
Proof.
  intros Hi Hk. rewrite list_fmap_insert, Hk. apply list_insert_id.
  by rewrite list_lookup_fmap, Hi.
Qed.

Lemma bind_pool_wf name pool t :
  topology_wf t → topology_wf (zipc_topology_bind_pool name pool t).2.
Proof.
  intros Hwf. unfold zipc_topology_bind_pool.
  destruct name as [s|], pool as [pool|]; try done.
  destruct (negb _) eqn:Hs; [done|]. apply negb_false_iff, snprintf_valid in Hs.
  destruct (list_find _ _) as [[i b]|] eqn:Hf.
  - assert (Hi := Hf). apply list_find_Some in Hi as (Hi & _ & _).
    assert (Hn : pool_names {| t with g_pool_bindings :=
        <[i := ZipcPoolBinding (pb_name b) pool]> (g_pool_bindings t) |} = pool_names t)
      by by apply (names_replaced pb_name _ _ b).
    destruct Hwf; split; simpl; auto; rewrite ?Hn, ?length_insert; auto.
    eapply Forall_impl; [done|]. intros e He. eapply entry_ok_grow, He; [|done].
    by rewrite Hn.
  - apply (find_key_None pb_name) in Hf. destruct (_ <=? _) eqn:Hc; [done|]. bool_to_prop.
    assert (Hn : pool_names {| t with g_pool_bindings :=
        g_pool_bindings t ++ [ZipcPoolBinding (snprintf_name s) pool] |}
        = pool_names t ++ [s]) by (unfold pool_names; simpl; rewrite fmap_app; simpl; congruence).
    destruct Hwf; split; simpl; auto; rewrite ?Hn, ?length_app; simpl; try lia.
    + by apply NoDup_snoc.
    + eapply Forall_impl; [done|]. intros e He. eapply entry_ok_grow, He; [|done].
      rewrite Hn. set_solver.
Qed.
Lemma bind_transport_wf name transport t :
  topology_wf t → topology_wf (zipc_topology_bind_transport name transport t).2.
Proof.
  intros Hwf. unfold zipc_topology_bind_transport.
  destruct name as [s|], transport as [transport|]; try done.
  destruct (negb _) eqn:Hs; [done|]. apply negb_false_iff, snprintf_valid in Hs.
  destruct (list_find _ _) as [[i b]|] eqn:Hf.
  - assert (Hi := Hf). apply list_find_Some in Hi as (Hi & _ & _).
    assert (Hn : transport_names {| t with g_transport_bindings :=
        <[i := ZipcTransportBinding (tb_name b) transport]> (g_transport_bindings t) |}
        = transport_names t) by by apply (names_replaced tb_name _ _ b).
    destruct Hwf; split; simpl; auto; rewrite ?Hn, ?length_insert; auto.
    eapply Forall_impl; [done|]. intros e He. eapply entry_ok_grow, He; [done|].
    by rewrite Hn.
  - apply (find_key_None tb_name) in Hf. destruct (_ <=? _) eqn:Hc; [done|]. bool_to_prop.
    assert (Hn : transport_names {| t with g_transport_bindings :=
        g_transport_bindings t ++ [ZipcTransportBinding (snprintf_name s) transport] |}
        = transport_names t ++ [s])
      by (unfold transport_names; simpl; rewrite fmap_app; simpl; congruence).
    destruct Hwf; split; simpl; auto; rewrite ?Hn, ?length_app; simpl; try lia.
    + by apply NoDup_snoc.
    + eapply Forall_impl; [done|]. intros e He. eapply entry_ok_grow, He; [done|].
      rewrite Hn. set_solver.
Qed.

(** ** Validation *)
Definition link_valid (t : topology) (l : zipc_topology_link_config_t) : Prop :=
  link_malformed l = false ∧ link_unbound t l = false.
(** What a NULL-terminated name field holds after [snprintf]. *)
Definition link_name (l : zipc_topology_link_config_t) : string := default "" (tl_name l).

Lemma copy_entry_ok t l :
  link_valid t l → entry_ok t (topology_copy_link l) ∧ te_name (topology_copy_link l) = link_name l.
Proof.
  intros [Hm Hu]. unfold link_malformed, link_unbound in *. bool_to_prop.
  destruct (tl_name l) as [n|] eqn:Hn, (tl_pool_name l) as [p|] eqn:Hp,
    (tl_transport_name l) as [q|] eqn:Hq; try done.
  unfold topology_copy_link, link_name. rewrite Hn, Hp, Hq. simpl in *.
  rewrite !snprintf_valid by done. split; [|done].
  split; simpl; auto.
  - apply pool_bound. by apply not_eq_None_Some.
  - apply transport_bound. by apply not_eq_None_Some.
Qed.

Lemma link_duplicated_false l later :
  link_duplicated l later = Some false →
  is_Some (tl_name l) → tl_link_id l ≠ 0 →
  (tl_name l ∉ tl_name <$> later) ∧ (tl_link_id l ∉ tl_link_id <$> later).
Proof.
  intros H [n Hn] Hid. induction later as [|l' later IH]; simpl in *.
  - split; apply not_elem_of_nil.
  - rewrite Hn in *. destruct (tl_name l') as [n'|] eqn:Hn'; [|done].
    destruct (String.eqb_spec n n') as [|Hne]; [done|].
    replace (tl_link_id l =? 0) with false in H by lia. simpl in H.
    destruct (tl_link_id l =? tl_link_id l') eqn:Hi; [done|].
    destruct (IH H) as [H1 H2]. rewrite !not_elem_of_cons. bool_to_prop. split; (split; [congruence|done]).
Qed.

Lemma validate_links_ok t links :
  validate_links t links = Some ZIPC_OK →
  Forall (link_valid t) links ∧ NoDup (tl_name <$> links) ∧ NoDup (tl_link_id <$> links).
Proof.
  induction links as [|l later IH]; simpl; intros H.
  { split_and!; constructor. }
  destruct (link_malformed l) eqn:Hm; [done|]. destruct (link_unbound t l) eqn:Hu; [done|].
  destruct (link_duplicated l later) as [[]|] eqn:Hd; [done| |done]. simpl in H.
  destruct (IH H) as (Hv & Hn & Hi).
  assert (Hm' := Hm). unfold link_malformed in Hm'. bool_to_prop.
  apply link_duplicated_false in Hd as [Hd1 Hd2]; [| |done].
  - split_and!; by constructor.
  - destruct (tl_name l); [by eauto|done].
Qed.
Lemma validate_ok t config :
  zipc_topology_validate config t = Some ZIPC_OK →
  ∃ links, config = Some links ∧ Forall (link_valid t) links ∧
    NoDup (tl_name <$> links) ∧ NoDup (tl_link_id <$> links).
Proof.
  unfold zipc_topology_validate. destruct config as [links|]; [|done].
  destruct (_ || _); [done|]. intros H%validate_links_ok. eauto.
Qed.

(** ** Registration keeps the registry well formed *)
Definition same_bindings (t t' : topology) : Prop :=
  g_pool_bindings t' = g_pool_bindings t ∧ g_transport_bindings t' = g_transport_bindings t.
Lemma link_valid_bindings t t' l : same_bindings t t' → link_valid t l → link_valid t' l.
Proof.
  intros [Hp Ht] [Hm Hu]. split; [done|]. unfold link_unbound, topology_find_pool,
    topology_find_transport in *. by rewrite Hp, Ht.
Qed.
Lemma entries_bindings t t' (es : list zipc_topology_link_entry_t) :
  same_bindings t t' → Forall (entry_ok t) es → Forall (entry_ok t') es.
Proof.
  intros [Hp Ht] Hes. eapply Forall_impl; [done|]. intros e. apply entry_ok_grow.
  - unfold pool_names. by rewrite Hp.
  - unfold transport_names. by rewrite Ht.
Qed.

(** The outcomes of one turn: an entry is replaced, by name or by link id, or
    added at the end. *)
Inductive registered (l : zipc_topology_link_config_t) (t : topology) : topology → Prop :=
| registered_name i e :
    list_find (λ e, te_name e = link_name l) (g_topology_links t) = Some (i, e) →
    registered l t (set_link i (topology_copy_link l) t)
| registered_id i e :
    link_name l ∉ link_names t →
    list_find (λ e, te_link_id e = tl_link_id l) (g_topology_links t) = Some (i, e) →
    registered l t (set_link i (topology_copy_link l) t)
| registered_new :
    link_name l ∉ link_names t → tl_link_id l ∉ link_ids t →
    Z.of_nat (length (g_topology_links t)) < ZIPC_TOPOLOGY_MAX_LINKS →
    registered l t (add_link (topology_copy_link l) t).

Lemma register_link_inv policy l t t' :
  link_valid t l → register_link policy l t = inr t' → registered l t t'.
Proof.
  intros [Hm _] H. unfold register_link, topology_find_link_index in H.
  fold (link_name l) in H. unfold link_malformed in Hm. bool_to_prop.
  replace (tl_link_id l =? 0) with false in H by lia.
  destruct (list_find (λ e, te_name e = link_name l) _) as [[i e]|] eqn:Hn; simpl in H.
  { destruct (negb _); simplify_eq. by econstructor. }
  apply (find_key_None te_name) in Hn.
  destruct (list_find (λ e, te_link_id e = tl_link_id l) _) as [[i e]|] eqn:Hi.
  { destruct (negb _); simplify_eq. by eapply registered_id. }
  apply (find_key_None te_link_id) in Hi.
  destruct (_ <=? _) eqn:Hc; simplify_eq. bool_to_prop. by apply registered_new.
Qed.

Lemma registered_wf l t t' :
  topology_wf t → link_valid t l → registered l t t' → topology_wf t' ∧ same_bindings t t'.
Proof.
  intros Hwf Hl H. destruct (copy_entry_ok t l Hl) as [Hok Hname].
  destruct H as [i e Hf|i e Hn Hf|Hn Hi Hc].
  - split; [|done]. apply list_find_Some in Hf as (Hi & He & _).
    destruct Hwf; split; simpl; auto; rewrite ?length_insert; auto.
    + unfold link_names. simpl. rewrite (names_replaced te_name _ _ e) by congruence. done.
    + by apply (entries_bindings t); [|apply Forall_insert].
  - split; [|done]. apply list_find_Some in Hf as (Hi & He & _).
    destruct Hwf; split; simpl; auto; rewrite ?length_insert; auto.
    + unfold link_names. simpl. rewrite list_fmap_insert, Hname. apply NoDup_insert; [done|].
      intros j Hj%list_elem_of_lookup_2. done.
    + by apply (entries_bindings t); [|apply Forall_insert].
  - split; [|done]. destruct Hwf; split; simpl; auto; rewrite ?length_app; simpl; try lia.
    + unfold link_names, add_link; cbn [g_topology_links]. rewrite fmap_app.
      change (te_name <$> [topology_copy_link l]) with [te_name (topology_copy_link l)].
      rewrite Hname. by apply NoDup_snoc.
    + apply (entries_bindings t); [done|]. apply Forall_app. by split; [|constructor].
Qed.

Lemma register_links_wf policy links t :
  topology_wf t → Forall (link_valid t) links → topology_wf (register_links policy links t).2.
Proof.
  revert t. induction links as [|l later IH]; simpl; intros t Hwf Hl; [done|].
  apply Forall_cons in Hl as [Hl Hlater].
  destruct (register_link policy l t) as [|t'] eqn:Hr; [done|].
  apply register_link_inv in Hr; [|done].
  destruct (registered_wf _ _ _ Hwf Hl Hr) as [Hwf' Hsame].
  apply IH; [done|]. eapply Forall_impl; [done|]. intros. by eapply link_valid_bindings.
Qed.

Lemma register_config_wf config policy t r :
  topology_wf t → zipc_topology_register_config config policy t = Some r → topology_wf r.2.
Proof.
  intros Hwf H. unfold zipc_topology_register_config in H.
  destruct (zipc_topology_validate config t) as [s|] eqn:Hv; [|done]. simpl in H.
  destruct (status_is s ZIPC_OK) eqn:Hs; simpl in H; [|by simplify_eq].
  unfold status_is in Hs. bool_to_prop. subst s.
  apply validate_ok in Hv as (links & -> & Hl & _). destruct (_ && _); simplify_eq; [done|].
  by apply register_links_wf.
Qed.

Lemma topology_step_wf t t' : topology_wf t → topology_step t t' → topology_wf t'.
Proof.
  intros Hwf Hs. revert Hwf. destruct Hs as [t|name pool t|name tr t|definitions t|config policy t r Hr];
    intros Hwf.
  - apply reset_wf.
  - by apply bind_pool_wf.
  - by apply bind_transport_wf.
  - unfold zipc_topology_register. destruct definitions as [[|d ds]|]; try done.
    destruct (definitions_rejected _); [done|].
    destruct Hwf; split; try done. by apply (entries_bindings t).
  - by eapply register_config_wf.
Qed.

Lemma topology_steps_wf t t' : rtc topology_step t t' → topology_wf t → topology_wf t'.
Proof. induction 1; eauto using topology_step_wf. Qed.

(** C33. Whatever binding, registration and reset calls a process has made, in
    any order and with any arguments, the registry is well formed (distinct
    names, tables within their bounds, entries whose components, role, pool
    and transport are valid) and opening any registered link by its name
    resolves to that entry and to the pool and transport bound to it. *)
Theorem topology_reachable_wf (t : topology) :
  rtc topology_step zipc_topology_reset t →
  topology_wf t ∧
  ∀ e, e ∈ g_topology_links t →
    ∃ pool transport,
      topology_find_pool t (te_pool_name e) = Some pool ∧
      topology_find_transport t (te_transport_name e) = Some transport ∧
      resolve_link t (te_name e) = Some (entry_config e pool transport).
Proof.
  intros Hr.
  assert (Hwf : topology_wf t) by eauto using topology_steps_wf, reset_wf.
  split; [done|]. intros e He.
  destruct (proj1 (Forall_forall _ _) (wf_entries _ Hwf) e He) as [_ _ _ _ _ _ Hp Ht].
  apply pool_bound in Hp as [pool Hp]. apply transport_bound in Ht as [transport Ht].
  exists pool, transport. split_and!; [done..|].
  apply list_elem_of_lookup in He as [i Hi].
  unfold resolve_link, topology_find_link_index.
  rewrite (proj2 (find_key_Some te_name (te_name e) _ i e (wf_links _ Hwf))) by done.
  simpl. rewrite Hi. simpl. by rewrite Hp; simpl; rewrite Ht.
Qed.

(** ** The merge policies *)
Definition add_links (ls : list zipc_topology_link_config_t) (t : topology) : topology :=
  {| t with g_topology_links := g_topology_links t ++ (topology_copy_link <$> ls) |}.

(** Why the link at position [k] of a configuration is refused: it collides
    with an entry that was there before, or the table is full. *)
Definition link_refused (t : topology) (k : nat) (l : zipc_topology_link_config_t)
    (status : zipc_status_t) : Prop :=
  (status = ZIPC_ERR_INVALID_ARGUMENT ∧
   (link_name l ∈ link_names t ∨ tl_link_id l ∈ link_ids t)) ∨
  (status = ZIPC_ERR_NO_BUFFER ∧
   ZIPC_TOPOLOGY_MAX_LINKS <= Z.of_nat (length (g_topology_links t)) + Z.of_nat k).

Lemma link_names_distinct t links :
  Forall (link_valid t) links → NoDup (tl_name <$> links) → NoDup (link_name <$> links).
Proof.
  intros Hv Hn. apply (NoDup_fmap_1 Some). rewrite <- list_fmap_compose.
  erewrite list_fmap_ext; [exact Hn|]. intros i l Hi. simpl.
  apply (Forall_lookup_1 _ _ _ _ Hv) in Hi as [Hm _].
  unfold link_malformed in Hm. bool_to_prop. unfold link_name. by destruct (tl_name l).
Qed.

Lemma register_link_keep policy l t :
  policy ≠ ZIPC_TOPOLOGY_OVERRIDE → link_valid t l →
  (∃ status, register_link policy l t = inl status ∧ link_refused t 0 l status) ∨
  register_link policy l t = inr (add_link (topology_copy_link l) t).
Proof.
  intros Hp Hl. destruct (register_link policy l t) as [status|t'] eqn:H.
  - left. exists status. split; [done|]. unfold register_link, topology_find_link_index in H.
    apply Z.eqb_neq in Hp. rewrite Hp in H. simpl in H. unfold link_refused.
    destruct (list_find (λ e, te_name e = _) _) as [[i e]|] eqn:Hn; simpl in H.
    { simplify_eq. left. split; [done|left]. apply (find_key_is_Some te_name). by eauto. }
    destruct (tl_link_id l =? 0).
    { destruct (_ <=? _) eqn:Hc; simplify_eq. bool_to_prop. right. split; [done|lia]. }
    destruct (list_find (λ e, te_link_id e = _) _) as [[i e]|] eqn:Hi.
    { simplify_eq. left. split; [done|right]. apply (find_key_is_Some te_link_id). by eauto. }
    destruct (_ <=? _) eqn:Hc; simplify_eq. bool_to_prop. right. split; [done|lia].
  - right. f_equal. unfold register_link in H. apply Z.eqb_neq in Hp. rewrite Hp in H.
    repeat case_match; by simplify_eq.
Qed.

Lemma link_refused_add t l k l' status :
  link_valid t l → link_name l' ≠ link_name l → tl_link_id l' ≠ tl_link_id l →
  link_refused (add_link (topology_copy_link l) t) k l' status → link_refused t (S k) l' status.
Proof.
  intros Hl Hn Hi. destruct (copy_entry_ok t l Hl) as [_ Hname].
  unfold link_refused, link_names, link_ids, add_link; cbn [g_topology_links].
  rewrite !fmap_app, !elem_of_app, length_app. cbn [fmap list_fmap length].
  rewrite Hname, !list_elem_of_singleton. intros [[-> [[|]|[|]]]|[-> ?]]; try done; auto with lia.
Qed.

Lemma register_links_keep policy links t :
  policy ≠ ZIPC_TOPOLOGY_OVERRIDE → Forall (link_valid t) links →
  NoDup (link_name <$> links) → NoDup (tl_link_id <$> links) →
  ∃ k status, register_links policy links t = (status, add_links (take k links) t) ∧
    ((status = ZIPC_OK ∧ k = length links) ∨
     ∃ l, links !! k = Some l ∧ link_refused t k l status).
Proof.
  intros Hp. revert t. induction links as [|l later IH]; intros t Hv Hn Hi.
  { exists 0%nat, ZIPC_OK. simpl. split; [|by left].
    unfold add_links. simpl. rewrite app_nil_r. by destruct t. }
  apply Forall_cons in Hv as [Hl Hv]. rewrite !fmap_cons, !NoDup_cons in *.
  destruct Hn as [Hnl Hn], Hi as [Hil Hi]. cbn [register_links].
  destruct (register_link_keep policy l t Hp Hl) as [(status & -> & Href)| ->].
  { exists 0%nat, status. split; [|right; by exists l].
    unfold add_links. simpl. rewrite app_nil_r. by destruct t. }
  destruct (IH (add_link (topology_copy_link l) t)) as (k & status & -> & Hk); [|done..|].
  { eapply Forall_impl; [done|]. intros x. by apply link_valid_bindings. }
  exists (S k), status. split.
  { unfold add_links, add_link. cbn. by rewrite <- app_assoc. }
  destruct Hk as [[-> ->]|(l' & Hl' & Href)]; [by left|]. right. exists l'. split; [done|].
  apply (link_refused_add _ l); try done.
  - intros Heq. apply Hnl. rewrite <- Heq. by eapply list_elem_of_fmap_2, list_elem_of_lookup_2.
  - intros Heq. apply Hil. rewrite <- Heq. by eapply list_elem_of_fmap_2, list_elem_of_lookup_2.
Qed.

(** Overriding only touches entries that match by name or link id. *)
Lemma registered_kept l t t' e :
  registered l t t' → e ∈ g_topology_links t →
  te_name e ≠ link_name l → te_link_id e ≠ tl_link_id l → e ∈ g_topology_links t'.
Proof.
  intros H [j Hj]%list_elem_of_lookup Hn Hi.
  destruct H as [i x Hf|i x _ Hf|]; simpl; apply list_elem_of_lookup;
    try (exists j; apply list_find_Some in Hf as (Hx & Hk & _);
         rewrite list_lookup_insert_ne; [done|]; intros ->; simplify_eq; congruence).
  exists j. by apply lookup_app_l_Some.
Qed.
Lemma registered_present l t t' : registered l t t' → topology_copy_link l ∈ g_topology_links t'.
Proof.
  destruct 1 as [i x Hf|i x _ Hf|]; simpl; apply list_elem_of_lookup;
    try (exists i; apply list_find_Some in Hf as (Hx & _); apply list_lookup_insert_eq;
         by eapply lookup_lt_Some).
  exists (length (g_topology_links t)). by rewrite list_lookup_middle.
Qed.
Lemma register_link_override l t :
  link_valid t l →
  register_link ZIPC_TOPOLOGY_OVERRIDE l t = inl ZIPC_ERR_NO_BUFFER ∨
  ∃ t', register_link ZIPC_TOPOLOGY_OVERRIDE l t = inr t' ∧ registered l t t'.
Proof.
  intros Hl. destruct (register_link ZIPC_TOPOLOGY_OVERRIDE l t) as [s|t'] eqn:H.
  - left. f_equal. unfold register_link in H. simpl in H. repeat case_match; by simplify_eq.
  - right. eauto using register_link_inv.
Qed.
Lemma register_links_override links t status t' :
  register_links ZIPC_TOPOLOGY_OVERRIDE links t = (status, t') →
  Forall (link_valid t) links → NoDup (link_name <$> links) → NoDup (tl_link_id <$> links) →
  (status = ZIPC_OK ∨ status = ZIPC_ERR_NO_BUFFER) ∧
  (∀ e, e ∈ g_topology_links t → te_name e ∉ link_name <$> links →
     te_link_id e ∉ tl_link_id <$> links → e ∈ g_topology_links t') ∧
  (status = ZIPC_OK → ∀ l, l ∈ links → topology_copy_link l ∈ g_topology_links t').
Proof.
  revert t. induction links as [|l later IH]; simpl; intros t H Hv Hn Hi.
  { simplify_eq. split_and!; [by left|done|]. intros _ l []%not_elem_of_nil. }
  apply Forall_cons in Hv as [Hl Hv]. apply NoDup_cons in Hn as [Hnl Hn], Hi as [Hil Hi].
  destruct (copy_entry_ok t l Hl) as [_ Hname].
  destruct (register_link_override l t Hl) as [Hr|(t1 & Hr & Hreg)]; rewrite Hr in H.
  { simplify_eq. split_and!; [by right|done..]. }
  assert (Hv1 : Forall (link_valid t1) later).
  { eapply Forall_impl; [done|]. intros x. apply link_valid_bindings. by destruct Hreg. }
  destruct (IH t1 H Hv1 Hn Hi) as (Hs & Hkeep & Hpres). split_and!; [done| |].
  - intros e He [Hne Hne']%not_elem_of_cons [Hie Hie']%not_elem_of_cons.
    apply Hkeep; [by eapply registered_kept|done..].
  - intros Hok x [->|Hx]%elem_of_cons; [|by apply Hpres].
    apply Hkeep; [by eapply registered_present|by rewrite Hname|done].
Qed.


(** [zipc_topology_validate] compares the name of each link with the
    names of all later ones before those have been validated: a NULL name
    anywhere after a first, well-formed link is dereferenced instead of being
    reported as an invalid argument; a NULL name of the first link is reported. *)
Theorem validate_null_name (t : topology) (l l' : zipc_topology_link_config_t)
    (later : list zipc_topology_link_config_t) :
  link_malformed l = false → link_unbound t l = false → tl_name l' = None →
  Z.of_nat (length later) < ZIPC_TOPOLOGY_MAX_LINKS - 1 →
  zipc_topology_validate (Some (l :: l' :: later)) t = None ∧
  zipc_topology_validate (Some (l' :: l :: later)) t = Some ZIPC_ERR_INVALID_ARGUMENT.
Proof.
  intros Hm Hu Hn Hlen. unfold zipc_topology_validate. cbn [length].
  assert (Hc : (Z.of_nat (S (S (length later))) =? 0)
               || (64 <? Z.of_nat (S (S (length later)))) = false).
  { apply orb_false_iff. split; [apply Z.eqb_neq|apply Z.ltb_ge]; lia. }
  rewrite Hc. cbn [orb validate_links link_duplicated].
  rewrite Hm, Hu, Hn. split; [by destruct (tl_name l)|].
  unfold link_malformed. by rewrite Hn.
Qed.

(** ** A registry with one pool, one transport and a link *)
Definition demo_ring_config : zipc_platform_transport_config_t :=
  ZipcTransportConfig ZIPC_TRANSPORT_SHM_RING_POLLING None false None 77 0 0 4 0 0 0 0 0 0 0 0 0 0 0 0 0.
Definition demo_link_ab : zipc_topology_link_config_t :=
  ZipcTopologyLink (Some "ab") 4097 (Some "main") (Some "ring") 7 9 0 1 0 0 0.
Definition demo_link_cd : zipc_topology_link_config_t :=
  ZipcTopologyLink (Some "cd") 4098 (Some "main") (Some "ring") 7 9 0 1 0 0 0.
Definition demo_bound : topology :=
  (zipc_topology_bind_transport (Some "ring") (Some demo_ring_config)
     (zipc_topology_bind_pool (Some "main") (Some demo_pool) zipc_topology_reset).2).2.
Definition demo_registered : topology := add_links [demo_link_ab; demo_link_cd] demo_bound.
Lemma demo_bound_reachable : rtc topology_step zipc_topology_reset demo_bound.
Proof.
  eapply rtc_l; [apply step_bind_pool|]. eapply rtc_l; [apply step_bind_transport|].
  apply rtc_refl.
Qed.
Lemma demo_registered_reachable : rtc topology_step zipc_topology_reset demo_registered.
Proof.
  eapply rtc_r; [apply demo_bound_reachable|].
  apply (step_register_config (Some [demo_link_ab; demo_link_cd])
           ZIPC_TOPOLOGY_REJECT_DUPLICATES _ (ZIPC_OK, demo_registered)). reflexivity.
Qed.

(** Overriding an entry by its name does not look at the link ids of the other
    entries: two entries can end up with one link id. *)
Lemma override_shares_link_id :
  ∃ t, rtc topology_step zipc_topology_reset t ∧ ¬ NoDup (link_ids t).
Proof.
  exists (set_link 0 (topology_copy_link {| demo_link_ab with tl_link_id := 4098 |})
            demo_registered).
  split.
  - eapply rtc_r; [apply demo_registered_reachable|].
    apply (step_register_config (Some [{| demo_link_ab with tl_link_id := 4098 |}])
             ZIPC_TOPOLOGY_OVERRIDE _ (ZIPC_OK, _)). reflexivity.
  - rewrite NoDup_alt. intros H. specialize (H 0%nat 1%nat 4098 eq_refl eq_refl). discriminate.
Qed.

Lemma topology_reachable_wf_witness :
  resolve_link demo_registered "cd"
  = Some (entry_config (topology_copy_link demo_link_cd) demo_pool demo_ring_config).
Proof.
  destruct (topology_reachable_wf demo_registered demo_registered_reachable) as [_ H].
  destruct (H (topology_copy_link demo_link_cd)) as (pool & transport & Hp & Ht & Hr).
  - right. left.
  - etransitivity; [exact Hr|]. vm_compute in Hp, Ht. by simplify_eq.
Defined.


Lemma validate_null_name_witness :
  zipc_topology_validate (Some [demo_link_ab; zero_topology_link]) demo_bound = None ∧
  zipc_topology_validate (Some [zero_topology_link; demo_link_ab]) demo_bound
  = Some ZIPC_ERR_INVALID_ARGUMENT.
Proof.
  apply (validate_null_name demo_bound demo_link_ab zero_topology_link []);
    [reflexivity|reflexivity|reflexivity|simpl; lia].
Defined.
