(* ===== verification/TopologyRoundtrip.v ===== *)
(** * A printed topology loads back

    A printer for the INI format of docs/TOPOLOGY.md, and the proof that the
    parser of the core reads back exactly what it prints. *)
From Stdlib Require Import Ascii String.
From stdpp Require Import strings.
From S2P Require Import Prelude Types Packing Visited Prog Store Demo Link Topology TopologyText TopologySpec.

(** ** The printer *)
Definition digit_char (d : Z) : ascii := ascii_of_N (Z.to_N (48 + d)).
Fixpoint print_digits (fuel : nat) (n : Z) (tail : string) : string :=
  match fuel with
  | O => tail
  | S fuel' =>
      let s := String (digit_char (n `mod` 10)) tail in
      if n <? 10 then s else print_digits fuel' (n / 10) s
  end.
(** Twenty digits hold every 64-bit number. *)
Definition print_u64 (n : Z) : string := print_digits 20 n "".

Definition print_role (role : Z) : list (string * string) :=
  if role =? 1 then [("role", "producer")]
  else if role =? 2 then [("role", "consumer")] else [].
Definition print_keys (l : zipc_topology_link_config_t) : list (string * string) :=
  [("id", print_u64 (tl_link_id l));
   ("pool", default "" (tl_pool_name l));
   ("transport", default "" (tl_transport_name l));
   ("local", print_u64 (tl_local_component l));
   ("remote", print_u64 (tl_remote_component l));
   ("local_epoch", print_u64 (tl_local_epoch l))]
  ++ print_role (tl_role l) ++
  [("hop_limit", print_u64 (tl_hop_limit l));
   ("default_deadline_ns", print_u64 (tl_default_deadline_ns l));
   ("timeout_ticks", print_u64 (tl_timeout_ticks l))].
Definition print_key (kv : string * string) : string := kv.1 +:+ " = " +:+ kv.2.
Definition print_link (l : zipc_topology_link_config_t) : list string :=
  ("[link." +:+ link_name l +:+ "]") :: (print_key <$> print_keys l).
Fixpoint print_lines (lines : list string) : string :=
  match lines with
  | [] => EmptyString
  | line :: lines' => line +:+ String newline (print_lines lines')
  end.
Definition print_topology (links : list zipc_topology_link_config_t) : string :=
  print_lines (links ≫= print_link).

(** ** What can be printed *)
Fixpoint all_chars (f : ascii → bool) (s : string) : bool :=
  match s with EmptyString => true | String c s' => f c && all_chars f s' end.
Definition plain (c : ascii) : bool := negb (code c =? 0) && negb (code c =? 10).
(** A name without surrounding blanks, line breaks or NUL. *)
Definition clean_name (s : string) : Prop :=
  topology_name_valid (Some s) = true ∧ ltrim s = s ∧ rtrim s = s ∧ all_chars plain s = true.

Record printable (l : zipc_topology_link_config_t) : Prop := {
  pr_name : ∃ s, tl_name l = Some s ∧ clean_name s ∧
                 all_chars (λ c, negb (code c =? code "]")) s = true;
  pr_pool : ∃ s, tl_pool_name l = Some s ∧ clean_name s;
  pr_transport : ∃ s, tl_transport_name l = Some s ∧ clean_name s;
  pr_link_id : in_u64 (tl_link_id l);
  pr_local : in_u16 (tl_local_component l);
  pr_remote : in_u16 (tl_remote_component l);
  pr_epoch : in_u32 (tl_local_epoch l);
  pr_role : 0 <= tl_role l <= 2;
  pr_hops : in_u32 (tl_hop_limit l);
  pr_deadline : in_u64 (tl_default_deadline_ns l);
  pr_ticks : in_u32 (tl_timeout_ticks l) }.

(** ** Strings *)
#[local] Arguments String.append : simpl nomatch.
Lemma append_assoc (a b c : string) : a +:+ (b +:+ c) = (a +:+ b) +:+ c.
Proof. induction a as [|x a IH]; simpl; congruence. Qed.
Lemma append_empty (a : string) : a +:+ "" = a.
Proof. induction a as [|x a IH]; simpl; congruence. Qed.
Lemma all_chars_app f a b : all_chars f (a +:+ b) = all_chars f a && all_chars f b.
Proof. induction a as [|x a IH]; simpl; [done|]. by rewrite IH, andb_assoc. Qed.
Lemma all_chars_impl (f g : ascii → bool) s :
  (∀ c, f c = true → g c = true) → all_chars f s = true → all_chars g s = true.
Proof.
  intros H. induction s as [|c s IH]; simpl; [done|]. intros [??]%andb_true_iff.
  apply andb_true_iff. auto.
Qed.

Lemma rtrim_app a b : rtrim b = b → b ≠ "" → rtrim (a +:+ b) = a +:+ b.
Proof.
  intros Hb Hne. induction a as [|c a IH]; simpl; [done|]. rewrite IH.
  by destruct (a +:+ b) eqn:He; [destruct a|].
Qed.
Lemma rtrim_blank a : rtrim (a +:+ " ") = rtrim a.
Proof. by induction a as [|c a IH]; simpl; [|rewrite IH]. Qed.
Lemma trim_no_space s :
  all_chars (λ c, negb (trim_space c)) s = true → ltrim s = s ∧ rtrim s = s.
Proof.
  induction s as [|c s IH]; simpl; [done|]. intros [Hc Hs]%andb_true_iff.
  apply negb_true_iff in Hc. rewrite Hc. destruct (IH Hs) as [_ ->].
  by rewrite andb_false_r.
Qed.
Lemma strchr_app a b c :
  all_chars (λ d, negb (code d =? code c)) a = true →
  strchr (a +:+ String c b) c = Some (a, b).
Proof.
  induction a as [|d a IH]; simpl.
  - by rewrite Z.eqb_refl.
  - intros [Hd Ha]%andb_true_iff. apply negb_true_iff in Hd. by rewrite Hd, IH.
Qed.

Lemma substring_skip a b m :
  (String.length b <= m)%nat → String.substring (String.length a) m (a +:+ b) = b.
Proof.
  intros Hm. induction a as [|c a IH]; simpl; [by apply substring_full|done].
Qed.

Lemma c_string_plain s : all_chars (λ c, negb (code c =? 0)) s = true → c_string s = s.
Proof.
  induction s as [|c s IH]; simpl; [done|]. intros [Hc Hs]%andb_true_iff.
  apply negb_true_iff in Hc. by rewrite Hc, IH.
Qed.
Lemma strtok_go_line token line rest :
  all_chars (λ c, negb (code c =? 10)) line = true → token +:+ line ≠ "" →
  strtok_go token (line +:+ String newline rest) = (token +:+ line) :: strtok_go "" rest.
Proof.
  revert token. induction line as [|c line IH]; intros token; cbn [String.append strtok_go].
  - intros _ Hne. rewrite append_empty in *. change (code newline =? 10) with true. cbn [app].
    unfold empty. by destruct (String.eqb_spec token "").
  - intros [Hc Hl]%andb_true_iff Hne. apply negb_true_iff in Hc. rewrite Hc.
    rewrite IH; [|done|]; rewrite <- append_assoc; [done|]. exact Hne.
Qed.
Lemma strtok_print lines :
  Forall (λ line, line ≠ "" ∧ all_chars plain line = true) lines →
  strtok_lines (c_string (print_lines lines)) = lines.
Proof.
  intros H. rewrite c_string_plain.
  - unfold strtok_lines. induction H as [|line lines [Hne Hp] _ IH]; simpl; [done|].
    rewrite strtok_go_line; [by rewrite IH| |done].
    eapply all_chars_impl, Hp. intros c ?. unfold plain in *. bool_to_prop. lia.
  - induction H as [|line lines [Hne Hp] _ IH]; simpl; [done|].
    rewrite all_chars_app. cbn [all_chars]. rewrite IH. apply andb_true_iff. split; [|done].
    eapply all_chars_impl, Hp. intros c ?. unfold plain in *. bool_to_prop. lia.
Qed.

(** ** Numbers *)
Lemma code_ascii n : (n < 256)%N → code (ascii_of_N n) = Z.of_N n.
Proof. intros. unfold code. by rewrite N_ascii_embedding. Qed.
Lemma digit_char_code d : 0 <= d < 10 → code (digit_char d) = 48 + d.
Proof. intros. unfold digit_char. rewrite code_ascii by lia. lia. Qed.
Lemma digit_char_value d : 0 <= d < 10 → digit_value (digit_char d) = Some d.
Proof.
  intros. unfold digit_value. rewrite digit_char_code by done.
  replace ((48 <=? 48 + d) && (48 + d <=? 57)) with true by lia. f_equal. lia.
Qed.

Lemma print_digits_chars (f : ascii → bool) fuel n tail :
  (∀ d, 0 <= d < 10 → f (digit_char d) = true) → all_chars f tail = true → 0 <= n →
  all_chars f (print_digits fuel n tail) = true.
Proof.
  intros Hf. revert n tail. induction fuel as [|fuel IH]; intros n tail Ht Hn; simpl; [done|].
  assert (all_chars f (String (digit_char (n `mod` 10)) tail) = true).
  { simpl. rewrite Hf by (apply Z.mod_pos_bound; lia). done. }
  case_match; [done|]. apply IH; [done|]. apply Z.div_pos; lia.
Qed.
Lemma read_print_digits fuel n tail :
  0 <= n < 10 ^ Z.of_nat fuel →
  ∃ k, 0 <= k ∧ ∀ acc, read_digits 10 acc (print_digits fuel n tail)
                      = read_digits 10 (acc * 10 ^ k + n) tail.
Proof.
  revert n tail. induction fuel as [|fuel IH]; intros n tail Hn.
  { exists 0. simpl in *. split; [done|]. intros. f_equal. lia. }
  cbn [print_digits]. assert (Hd : 0 <= n `mod` 10 < 10) by (apply Z.mod_pos_bound; lia).
  assert (Hread : ∀ acc, read_digits 10 acc (String (digit_char (n `mod` 10)) tail)
                         = read_digits 10 (acc * 10 + n `mod` 10) tail).
  { intros acc. simpl. rewrite digit_char_value by done.
    by replace (n `mod` 10 <? 10) with true by lia. }
  destruct (n <? 10) eqn:Hlt; bool_to_prop.
  - exists 1. split; [done|]. intros acc. rewrite Hread, Z.mod_small by lia. f_equal; lia.
  - rewrite Nat2Z.inj_succ, Z.pow_succ_r in Hn by lia.
    destruct (IH (n / 10) (String (digit_char (n `mod` 10)) tail)) as (k & Hk & Heq).
    { split; [apply Z.div_pos; lia|]. apply Z.div_lt_upper_bound; lia. }
    exists (k + 1). split; [lia|]. intros acc. rewrite Heq, Hread. f_equal.
    rewrite Z.pow_add_r by lia. pose proof (Z.div_mod n 10). lia.
Qed.
(** The first digit of a number above nine, printed, is not a zero. *)
Lemma print_digits_head fuel n tail :
  0 < n < 10 ^ Z.of_nat fuel →
  ∃ d s, print_digits fuel n tail = String (digit_char d) s ∧ 0 < d < 10.
Proof.
  revert n tail. induction fuel as [|fuel IH]; intros n tail Hn; [simpl in Hn; lia|].
  cbn [print_digits]. destruct (n <? 10) eqn:Hlt; bool_to_prop.
  - rewrite Z.mod_small by lia. eauto with lia.
  - apply IH. rewrite Nat2Z.inj_succ, Z.pow_succ_r in Hn by lia.
    split; [apply Z.div_str_pos; lia|apply Z.div_lt_upper_bound; lia].
Qed.
Lemma parse_print_u64 n : in_u64 n → topology_parse_u64 (print_u64 n) = Some n.
Proof.
  intros Hn. unfold in_u64 in Hn. destruct (decide (n = 0)) as [->|Hne]; [reflexivity|].
  destruct (print_digits_head 20 n "") as (d & s & Hp & Hd); [simpl; lia|].
  destruct (read_print_digits 20 n "") as (k & _ & Hr); [simpl; lia|]. specialize (Hr 0).
  unfold print_u64, topology_parse_u64. rewrite Hp in *. cbn [empty String.eqb].
  assert (Hc := digit_char_code d ltac:(lia)).
  unfold strtoull. cbn [skip_space strtoull_sign].
  unfold isspace. rewrite Hc. replace ((48 + d =? 32) || _) with false by lia. cbn [strtoull_sign].
  rewrite Hc. replace (48 + d =? 45) with false by lia. replace (48 + d =? 43) with false by lia.
  assert (Hb : strtoull_base (String (digit_char d) s) = (10, String (digit_char d) s)).
  { unfold strtoull_base. rewrite Hc. replace (48 + d =? 48) with false by lia. by destruct s. }
  rewrite Hb. unfold starts_with_digit. rewrite digit_char_value by lia.
  replace (d <? 10) with true by lia. cbn [negb]. rewrite Hr. cbn [read_digits mbind option_bind].
  replace (UINT64_MAX <? _) with false by lia. simpl. f_equal; lia.
Qed.
Lemma print_u64_clean n :
  0 <= n → ltrim (print_u64 n) = print_u64 n ∧ rtrim (print_u64 n) = print_u64 n ∧
           print_u64 n ≠ "" ∧ all_chars plain (print_u64 n) = true.
Proof.
  intros Hn. apply and_assoc. split; [|split].
  - apply trim_no_space, print_digits_chars; [|done..]. intros d Hd. unfold trim_space.
    rewrite digit_char_code by done. lia.
  - unfold print_u64. cbn [print_digits]. repeat case_match; done.
  - apply print_digits_chars; [|done..]. intros d Hd. unfold plain.
    rewrite digit_char_code by done. lia.
Qed.

(** ** Lines *)

(** A key of the format: no blanks at its ends, no [=], and not the start of a
    comment or section. *)
Definition key_ok (key : string) : bool :=
  match key with
  | EmptyString => false
  | String c _ => negb (trim_space c) && negb (code c =? 35) && negb (code c =? 59)
                  && negb (code c =? 91)
  end && String.eqb (rtrim key) key
  && all_chars (λ c, negb (code c =? code "=") && plain c) key.
Definition value_ok (v : string) : Prop :=
  ltrim v = v ∧ rtrim v = v ∧ v ≠ "" ∧ all_chars plain v = true.

Lemma load_line_key key v pre l :
  key_ok key = true → value_ok v →
  load_line (print_key (key, v)) (LoadState (pre ++ [l]) (Some (length pre)))
  = l' ← load_key key v l; Some (LoadState (pre ++ [l']) (Some (length pre))).
Proof.
  intros Hk (Hl & Hr & Hne & _). unfold key_ok in Hk. destruct key as [|c key]; [done|].
  apply andb_true_iff in Hk as [Hk Heq].
  apply andb_true_iff in Hk as [Hk Hrk]. apply String.eqb_eq in Hrk. bool_to_prop.
  assert (Htrim : topology_trim (print_key (String c key, v)) = print_key (String c key, v)).
  { unfold topology_trim, print_key; cbn [fst snd].
    assert (ltrim (String c key +:+ " = " +:+ v) = String c key +:+ " = " +:+ v) as ->.
    { cbn [String.append ltrim]. by replace (trim_space c) with false by congruence. }
    apply rtrim_app; [|done]. by apply rtrim_app. }
  unfold load_line. rewrite Htrim.
  change (print_key (String c key, v)) with (String c (key +:+ " = " +:+ v)) at 1. cbv iota beta.
  replace ((code c =? 35) || (code c =? 59)) with false by lia.
  replace (code c =? 91) with false by lia. cbn [ls_current]. unfold load_assignment.
  assert (Hsplit : print_key (String c key, v) = (String c key +:+ " ") +:+ String "=" (" " +:+ v)).
  { unfold print_key. cbn [fst snd]. by rewrite <- append_assoc. }
  rewrite Hsplit, strchr_app.
  - cbn [mbind option_bind ls_parsed]. rewrite list_lookup_middle by done. cbn [mbind option_bind].
    assert (topology_trim (String c key +:+ " ") = String c key) as ->.
    { unfold topology_trim. cbn [String.append ltrim].
      replace (trim_space c) with false by congruence.
      transitivity (rtrim (String c key)); [apply (rtrim_blank (String c key))|done]. }
    assert (topology_trim (" " +:+ v) = v) as ->.
    { unfold topology_trim. change (ltrim (" " +:+ v)) with (ltrim v). congruence. }
    destruct (load_key _ _ _) as [l'|]; [|done]. cbn [mbind option_bind].
    rewrite insert_app_r_alt, Nat.sub_diag by lia. done.
  - rewrite all_chars_app. apply andb_true_iff. split; [|done].
    eapply all_chars_impl, Heq. by intros ? [? _]%andb_true_iff.
Qed.

(** The effect of a list of assignments on a link. *)
Fixpoint load_keys (kvs : list (string * string)) (l : zipc_topology_link_config_t)
    : option zipc_topology_link_config_t :=
  match kvs with
  | [] => Some l
  | (k, v) :: kvs' => l' ← load_key k v l; load_keys kvs' l'
  end.
Definition keys_ok (kvs : list (string * string)) : Prop :=
  Forall (λ kv, key_ok kv.1 = true ∧ value_ok kv.2) kvs.

Lemma load_lines_keys kvs pre l l' lines :
  keys_ok kvs → load_keys kvs l = Some l' →
  load_lines ((print_key <$> kvs) ++ lines) (LoadState (pre ++ [l]) (Some (length pre)))
  = load_lines lines (LoadState (pre ++ [l']) (Some (length pre))).
Proof.
  intros Hok. revert l. induction Hok as [|[k v] kvs [Hk Hv] _ IH]; intros l Hl.
  - by simplify_eq/=.
  - cbn [load_keys] in Hl. destruct (load_key k v l) as [l1|] eqn:H1; [|done].
    cbn [fmap list_fmap app load_lines]. rewrite load_line_key, H1 by done.
    cbn [mbind option_bind]. by apply IH.
Qed.

Lemma load_line_section n st :
  clean_name n → all_chars (λ c, negb (code c =? code "]")) n = true →
  Z.of_nat (length (ls_parsed st)) < ZIPC_TOPOLOGY_MAX_LINKS →
  load_line ("[link." +:+ n +:+ "]") st
  = Some (LoadState (ls_parsed st ++ [{| zero_topology_link with tl_name := Some n |}])
                    (Some (length (ls_parsed st)))).
Proof.
  intros (Hv & Hl & Hr & _) Hb Hc. unfold load_line.
  assert (Hne : n ≠ "") by (intros ->; done).
  assert (topology_trim ("[link." +:+ n +:+ "]") = "[link." +:+ n +:+ "]") as ->.
  { unfold topology_trim. change (ltrim ("[link." +:+ n +:+ "]")) with ("[link." +:+ n +:+ "]").
    apply rtrim_app; [by apply rtrim_app|by destruct n]. }
  change ("[link." +:+ n +:+ "]") with (String "[" ("link." +:+ n +:+ "]")) at 1. cbv iota beta.
  change (load_section ("[link." +:+ n +:+ "]") st = Some
    (LoadState (ls_parsed st ++ [{| zero_topology_link with tl_name := Some n |}])
       (Some (length (ls_parsed st))))).
  unfold load_section. rewrite append_assoc, strchr_app.
  2:{ rewrite all_chars_app. by rewrite Hb. }
  cbn [mbind option_bind].
  assert (String.substring 1 (String.length ("[link." +:+ n)) ("[link." +:+ n) = "link." +:+ n) as ->.
  { apply (substring_skip "[" ("link." +:+ n)). simpl. lia. }
  assert (topology_trim ("link." +:+ n) = "link." +:+ n) as ->.
  { unfold topology_trim. change (ltrim ("link." +:+ n)) with ("link." +:+ n). by apply rtrim_app. }
  assert (String.prefix "link." ("link." +:+ n) = true) as -> by by destruct n. cbn [orb].
  assert (String.substring 5 (String.length ("link." +:+ n)) ("link." +:+ n) = n) as ->.
  { apply (substring_skip "link." n). simpl. lia. }
  assert (topology_trim n = n) as -> by (unfold topology_trim; congruence).
  rewrite Hv. replace (ZIPC_TOPOLOGY_MAX_LINKS <=? _) with false by lia. cbn [negb orb].
  by rewrite snprintf_valid.
Qed.

(** ** Links *)
Lemma value_name s : clean_name s → value_ok s.
Proof. intros (Hv & ? & ? & ?). split_and!; try done. by intros ->. Qed.
Lemma value_u64 n : in_u64 n → value_ok (print_u64 n).
Proof. intros [? _]. by apply print_u64_clean. Qed.
Lemma parse_max_print max n : 0 <= n <= max → max <= UINT64_MAX → parse_max max (print_u64 n) = Some n.
Proof.
  intros ? ?. unfold parse_max. rewrite parse_print_u64 by (unfold in_u64; lia). simpl.
  by replace (max <? n) with false by lia.
Qed.

Lemma print_keys_ok l : printable l → keys_ok (print_keys l).
Proof.
  intros [_ (p & Hp & Hpc) (q & Hq & Hqc)]. unfold print_keys, print_role, keys_ok.
  rewrite Hp, Hq. simpl.
  repeat (apply Forall_cons; split; [split; [reflexivity|]; simpl|]);
    auto using value_name, value_u64; try (apply value_u64; unfold in_u64, in_u16, in_u32 in *; lia).
  apply Forall_app. split.
  - repeat case_match; repeat constructor; done.
  - repeat (apply Forall_cons; split; [split; [reflexivity|]; simpl|]); try constructor;
      apply value_u64; unfold in_u64, in_u32 in *; lia.
Qed.
Lemma load_print_keys l :
  printable l → load_keys (print_keys l) {| zero_topology_link with tl_name := tl_name l |} = Some l.
Proof.
  intros [_ (p & Hp & Hpc & _) (q & Hq & Hqc & _) ? ? ? ? Hrole ? ? ?].
  unfold print_keys, print_role. rewrite Hp, Hq. unfold in_u64, in_u32, in_u16 in *.
  assert (tl_role l = 0 ∨ tl_role l = 1 ∨ tl_role l = 2) as [Hr|[Hr|Hr]] by lia; rewrite Hr;
    cbn -[topology_name_valid print_u64 parse_max topology_parse_u64 snprintf_name];
    repeat (rewrite ?parse_print_u64, ?parse_max_print, ?Hpc, ?Hqc, ?snprintf_valid
              by (done || (unfold in_u64; lia));
            cbn -[topology_name_valid print_u64 parse_max topology_parse_u64 snprintf_name]);
    destruct l; simpl in *; congruence.
Qed.

Lemma load_print_links links pre cur :
  Forall printable links → Z.of_nat (length pre) + Z.of_nat (length links) <= ZIPC_TOPOLOGY_MAX_LINKS →
  ∃ cur', load_lines (links ≫= print_link) (LoadState pre cur)
          = Some (LoadState (pre ++ links) cur').
Proof.
  intros Hp. revert pre cur. induction Hp as [|l links Hl _ IH]; intros pre cur Hlen.
  { exists cur. simpl. by rewrite app_nil_r. }
  cbn [mbind list_bind]. unfold print_link at 1.
  assert (Hn := Hl). destruct Hn as [(n & Hn & Hc & Hb)].
  unfold link_name. rewrite Hn. cbn [default from_option app load_lines]. unfold id.
  rewrite load_line_section; [|done..|simpl in *; lia]. cbn [mbind option_bind ls_parsed].
  rewrite (load_lines_keys _ _ _ l); [|by apply print_keys_ok|].
  - destruct (IH (pre ++ [l]) (Some (length pre))) as [cur' H].
    { rewrite length_app. simpl in *. lia. }
    exists cur'. by rewrite H, <- app_assoc.
  - unfold id. rewrite <- Hn. by apply load_print_keys.
Qed.

Lemma print_key_plain k v :
  key_ok k = true → value_ok v → print_key (k, v) ≠ "" ∧ all_chars plain (print_key (k, v)) = true.
Proof.
  intros Hk (_ & _ & _ & Hv). unfold key_ok in Hk. unfold print_key. cbn [fst snd].
  destruct k as [|c k]; [done|]. split; [done|].
  rewrite !all_chars_app, Hv. rewrite andb_true_r.
  apply andb_true_iff in Hk as [_ Hk]. eapply all_chars_impl, Hk. by intros ? [_ ?]%andb_true_iff.
Qed.
Lemma print_lines_plain links :
  Forall printable links →
  Forall (λ line, line ≠ "" ∧ all_chars plain line = true) (links ≫= print_link).
Proof.
  induction 1 as [|l links Hl _ IH]; cbn [mbind list_bind]; [constructor|].
  apply Forall_app. split; [|done]. unfold print_link. apply Forall_cons. split.
  - destruct Hl as [(n & Hn & (_ & _ & _ & Hc) & _)]. unfold link_name. rewrite Hn. split; [done|].
    cbn [default from_option]. unfold id. rewrite !all_chars_app. by rewrite Hc.
  - apply Forall_fmap. eapply Forall_impl; [by apply print_keys_ok|].
    intros [k v] [Hk Hv]. by apply print_key_plain.
Qed.
Lemma parse_print_topology links :
  Forall printable links → Z.of_nat (length links) <= ZIPC_TOPOLOGY_MAX_LINKS →
  parse_topology (print_topology links) = Some links.
Proof.
  intros Hp Hlen. unfold parse_topology, print_topology.
  rewrite strtok_print by by apply print_lines_plain.
  destruct (load_print_links links [] None Hp) as [cur' ->]; [simpl; lia|]. done.
Qed.

Section load.
Context {E : Type} `{Heap E}.

(** C35. Text and static configurations are the same thing: for every
    configuration of at most 64 links with printable names and fields of their
    C widths, parsing the printed INI text gives back exactly those links, and
    loading the text is registering them (between the allocation and release
    of the working copy). *)
Theorem topology_text_roundtrip (links : list zipc_topology_link_config_t) (policy : Z)
    (t : topology) :
  Forall printable links → links ≠ [] → Z.of_nat (length links) <= ZIPC_TOPOLOGY_MAX_LINKS →
  parse_topology (print_topology links) = Some links ∧
  zipc_topology_load_string (Some (print_topology links)) policy t
  = (allocated ← zipc_platform_alloc;
     if negb allocated then mret (ZIPC_ERR_PLATFORM, t)
     else match zipc_topology_register_config (Some links) policy t with
          | Some r => zipc_platform_free;; mret r
          | None => fault
          end : prog (world E) _).
Proof.
  intros Hp Hne Hlen. assert (Hparse := parse_print_topology links Hp Hlen). split; [done|].
  unfold zipc_topology_load_string. rewrite Hparse. destruct links as [|l links]; [done|].
  by destruct (print_topology (l :: links)) eqn:Htext.
Qed.
End load.

(** ** Parsed links always have names *)
Lemma load_key_name k v l l' : load_key k v l = Some l' → tl_name l' = tl_name l.
Proof.
  unfold load_key. intros H.
  repeat (case_match; simplify_option_eq; try done).
Qed.
Definition all_named (links : list zipc_topology_link_config_t) : Prop :=
  Forall (λ l, is_Some (tl_name l)) links.
Lemma load_line_named line st st' :
  load_line line st = Some st' → all_named (ls_parsed st) → all_named (ls_parsed st').
Proof.
  unfold load_line, load_section, load_assignment. intros H Hn.
  repeat (case_match; simplify_option_eq; try done).
  all: first [apply Forall_app; split; [done|]; by repeat constructor
             |apply Forall_insert; [done|]].
  all: match goal with Hk : load_key _ _ ?x = Some _, Hx : _ !! _ = Some ?x |- _ =>
         rewrite (load_key_name _ _ _ _ Hk); by eapply (Forall_lookup_1 _ _ _ _ Hn Hx) end.
Qed.
Lemma load_lines_named lines st st' :
  load_lines lines st = Some st' → all_named (ls_parsed st) → all_named (ls_parsed st').
Proof.
  revert st. induction lines as [|line lines IH]; intros st; simpl.
  - by intros [= <-].
  - destruct (load_line line st) as [st1|] eqn:H1; [|done]. simpl. eauto using load_line_named.
Qed.
Lemma link_duplicated_named l later :
  is_Some (tl_name l) → all_named later → is_Some (link_duplicated l later).
Proof.
  intros [n Hn]. induction 1 as [|l' later [n' Hn'] _ IH]; simpl; [by eauto|].
  rewrite Hn, Hn'. by case_match; eauto.
Qed.
Lemma validate_links_named t links : all_named links → is_Some (validate_links t links).
Proof.
  induction 1 as [|l later Hl Hlater IH]; simpl; [by eauto|].
  destruct (link_malformed l); [by eauto|]. destruct (link_unbound t l); [by eauto|].
  destruct (link_duplicated_named l later Hl Hlater) as [[] ->]; simpl; eauto.
Qed.

(** No text, however malformed, makes loading dereference a NULL name:
    whatever links the parser accepts, registering them returns a status. *)
Theorem parsed_text_safe (text : string) (links : list zipc_topology_link_config_t)
    (policy : Z) (t : topology) :
  parse_topology text = Some links →
  is_Some (zipc_topology_register_config (Some links) policy t).
Proof.
  intros Hp. unfold parse_topology in Hp.
  destruct (load_lines _ _) as [st|] eqn:Hl; simplify_eq/=.
  apply load_lines_named in Hl; [|by constructor].
  unfold zipc_topology_register_config, zipc_topology_validate.
  destruct (validate_links_named t _ Hl) as [s ->].
  destruct (_ || _); simpl; repeat case_match; eauto.
Qed.

Lemma demo_printable : printable demo_link_ab.
Proof.
  split; try (unfold in_u64, in_u32, in_u16; simpl; lia);
    eexists; (repeat split; try reflexivity).
Qed.
Lemma topology_text_roundtrip_witness :
  parse_topology (print_topology [demo_link_ab]) = Some [demo_link_ab].
Proof.
  destruct (@topology_text_roundtrip demo (Build_Heap demo (mret true) (mret ()))
              [demo_link_ab] 0 demo_bound) as [H _];
    [constructor; [exact demo_printable|constructor]|discriminate|simpl; lia|exact H].
Defined.
