(* ===== verification/Packetrate.v ===== *)
(** * The packet-rate utility (utilities/zipc-packetrate.c)

    A pipeline over the library: a sender, relays and a final receiver pass
    buffers along a chain of links.  Modelled are the command line, the sizing of
    the pool, the configuration and clean-up of an edge and the loops of the
    processes; a process is a program that ends in an exit code.  Starting and
    reaping the processes, the measurement and what is printed are left out.
    The pipes are the class [Pipes]. *)
From Stdlib Require Import String Ascii.
From S2P Require Import Prelude Types Packing Prog Store Layout Slot Ring Buffer Link.
From S2P Require Import LinuxTransport Topology TopologyText.

(** ** Numbers on the command line *)
Definition isdigit (c : ascii) : bool := (48 <=? code c) && (code c <=? 57).

(** [strtoull(s, &end, base)] for the bases 0 and 10: the value, whether [errno]
    is ERANGE, and [end]; [None] when nothing is converted. *)
Definition strtoull_at (base : Z) (s : string) : option (Z * bool * string) :=
  let '(negative, s) := strtoull_sign (skip_space s) in
  let '(base, s) := if base =? 0 then strtoull_base s else (base, s) in
  if negb (starts_with_digit base s) then None
  else
  let '(v, rest) := read_digits base 0 s in
  Some (if UINT64_MAX <? v then UINT64_MAX else if negative : bool then u64 (- v) else v,
        UINT64_MAX <? v, rest).

Definition parse_u64 (text : string) (maximum : Z) : option Z :=
  match text with
  | String c _ =>
      if negb (isdigit c) then None
      else
      '(parsed, erange, rest) ← strtoull_at 0 text;
      if (erange : bool) || negb (empty rest) || (maximum <? parsed) then None else Some parsed
  | EmptyString => None
  end.
Definition parse_u32 (text : string) (maximum : Z) : option Z :=
  v ← parse_u64 text maximum; Some (u32 v).

(** The factor a suffix stands for. *)
Definition size_multiplier (rest : string) : option Z :=
  match rest with
  | EmptyString => Some 1
  | String c EmptyString =>
      if (code c =? 75) || (code c =? 107) then Some 1024
      else if (code c =? 77) || (code c =? 109) then Some (1024 * 1024)
      else if (code c =? 71) || (code c =? 103) then Some (1024 * 1024 * 1024)
      else None
  | _ => None
  end.
Definition parse_size_u32 (text : string) : option Z :=
  match text with
  | String c _ =>
      if negb (isdigit c) then None
      else
      '(parsed, erange, rest) ← strtoull_at 10 text;
      if erange : bool then None
      else
      multiplier ← size_multiplier rest;
      if UINT32_MAX / multiplier <? parsed then None else Some (u32 (u64 (parsed * multiplier)))
  | EmptyString => None
  end.

(** ** Options *)
Definition MAX_RELAYS : Z := ZIPC_COMPONENT_ID_MAX - 2.
Record options := Options {
  o_transport_name : string;
  o_packet_count : Z;
  o_payload_size : Z;
  o_relay_count : Z;
  o_slot_count : Z;
  o_slots_set : bool }.
Definition default_options : options := Options "ring-eventfd" 1000000 8 0 0 false.

(** The loop over [argv[1..argc)]; [None] is the usage message and EXIT_FAILURE. *)
Fixpoint parse_arguments (args : list string) (o : options) : option options :=
  match args with
  | [] => Some o
  | [_] => None
  | name :: value :: args =>
      if is_key name "--transport" then
        parse_arguments args {| o with o_transport_name := value |}
      else if is_key name "--packets" then
        v ← parse_u64 value UINT64_MAX; parse_arguments args {| o with o_packet_count := v |}
      else if is_key name "--payload" then
        v ← parse_size_u32 value; parse_arguments args {| o with o_payload_size := v |}
      else if is_key name "--relays" then
        v ← parse_u32 value MAX_RELAYS; parse_arguments args {| o with o_relay_count := v |}
      else if is_key name "--slots" then
        v ← parse_u32 value UINT32_MAX;
        parse_arguments args {| o with o_slot_count := v; o_slots_set := true |}
      else None
  end.

(** ** Sizes *)
Definition PAYLOAD_ALIGNMENT : Z := 64.
Definition DEFAULT_SLOT_COUNT : Z := 256.
Definition AUTO_POOL_BUDGET : Z := 32 * 1024 * 1024.
Definition WARMUP_BYTE_BUDGET : Z := 64 * 1024 * 1024.
Definition MAX_WARMUP_PACKETS : Z := 1000.

Definition automatic_slot_count (slot_stride : Z) : Z :=
  let count := AUTO_POOL_BUDGET / slot_stride in
  let count := if DEFAULT_SLOT_COUNT <? count then DEFAULT_SLOT_COUNT else count in
  let count := if count <? 2 then 2 else count in
  u32 count.
Definition warmup_packet_count (payload_size : Z) : Z :=
  let count := if payload_size =? 0 then MAX_WARMUP_PACKETS
               else WARMUP_BYTE_BUDGET / payload_size in
  let count := if count =? 0 then 1 else count in
  if MAX_WARMUP_PACKETS <? count then MAX_WARMUP_PACKETS else count.

(** What the first part of [main] computes. *)
Record bench := Bench {
  be_slot_capacity : Z;
  be_slot_count : Z;
  be_component_count : Z;
  be_edge_count : Z;
  be_warmup_count : Z;
  be_payload_offset : Z;
  be_shm_size : Z }.

Definition known_transport (name : string) : bool :=
  is_key name "ring-eventfd" || is_key name "fifo" || is_key name "unix-dgram"
  || is_key name "mqueue".

(** [None] is EXIT_FAILURE. *)
Definition bench_plan (o : options) : option bench :=
  if (o_packet_count o =? 0) || (o_slots_set o && (o_slot_count o <? 2)) then None
  else
  let slot_capacity := if negb (o_payload_size o =? 0) then o_payload_size o else 1 in
  let slot_stride := zipc_pool_required_payload_size 1 slot_capacity 0 PAYLOAD_ALIGNMENT in
  if slot_stride =? 0 then None
  else
  let slot_count := if negb (o_slots_set o) then automatic_slot_count slot_stride
                    else o_slot_count o in
  let component_count := u32 (o_relay_count o + 2) in
  let edge_count := u32 (component_count - 1) in
  if negb (known_transport (o_transport_name o)) then None
  else
  let control_size := zipc_pool_required_control_size slot_count in
  if (control_size =? 0) || (SIZE_MAX - 63 <? control_size) then None
  else
  let payload_offset := Z.land (u64 (control_size + 63)) (u64 (Z.lnot 63)) in
  let payload_bytes :=
    zipc_pool_required_payload_size slot_count slot_capacity 0 PAYLOAD_ALIGNMENT in
  if (payload_bytes =? 0) || (SIZE_MAX - payload_offset <? payload_bytes) then None
  else
  Some {| be_slot_capacity := slot_capacity;
          be_slot_count := slot_count;
          be_component_count := component_count;
          be_edge_count := edge_count;
          be_warmup_count := warmup_packet_count (o_payload_size o);
          be_payload_offset := payload_offset;
          be_shm_size := u64 (payload_offset + payload_bytes) |}.

(** [pool_cfg] over the mapping at [memory]. *)
Definition bench_pool (memory : Z) (b : bench) : zipc_pool_config_t :=
  {| pc_control_memory := memory;
     pc_control_offset := 0;
     pc_payload_memory := 0;
     pc_payload_offset := be_payload_offset b;
     pc_slot_count := be_slot_count b;
     pc_slot_capacity := be_slot_capacity b;
     pc_slot_stride := 0;
     pc_payload_alignment := PAYLOAD_ALIGNMENT;
     pc_flags := 0;
     pc_pool_id := 0 |}.

(** ** Edges *)

(** [source] and [destination] of an edge of the chain. *)
Definition edge_source (edge : Z) : Z := u16 (edge + ZIPC_COMPONENT_ID_MIN).
Definition edge_destination (edge : Z) : Z := u16 (edge_source edge + 1).

Definition zero_transport_config (type : zipc_platform_transport_type_t)
    : zipc_platform_transport_config_t :=
  ZipcTransportConfig type None false None 0 0 0 0 0 0 0 0 0 0 0 0 0 0 0 0 0.
Definition ring_transport_config (ring event_fd depth : Z) : zipc_platform_transport_config_t :=
  let zero := zero_transport_config ZIPC_TRANSPORT_SHM_RING_EVENTFD in
  {| zero with
     tc_platform_handle := ring; tc_receive_handle := event_fd; tc_ring_depth := depth |}.
(** The type a name stands for, when it is not the ring. *)
Definition named_transport (name : string) : zipc_platform_transport_type_t :=
  if is_key name "fifo" then ZIPC_TRANSPORT_FIFO
  else if is_key name "unix-dgram" then ZIPC_TRANSPORT_UNIX_DGRAM
  else ZIPC_TRANSPORT_MESSAGE_QUEUE.
Definition named_config (name endpoint : string) (create : bool)
    : zipc_platform_transport_config_t :=
  let zero := zero_transport_config (named_transport name) in
  {| zero with
     tc_endpoint_name := Some endpoint; tc_create_endpoint := create |}.

(** [local] and [remote] of one end; the other fields are zero. *)
Definition end_config (pool : zipc_pool_t) (local remote : Z)
    (transport : zipc_platform_transport_config_t) : zipc_link_config_t :=
  ZipcLinkConfig (Some pool) local remote 0 0 ZIPC_LINK_ROLE_UNSPECIFIED 0 0 0 transport.
Definition receiver_cfg (pool : zipc_pool_t) (edge : Z)
    (transport : zipc_platform_transport_config_t) : zipc_link_config_t :=
  end_config pool (edge_destination edge) (edge_source edge) transport.
Definition sender_cfg (pool : zipc_pool_t) (edge : Z)
    (transport : zipc_platform_transport_config_t) : zipc_link_config_t :=
  end_config pool (edge_source edge) (edge_destination edge) transport.

(** [edge_link_t]; a ring at 0 is NULL. *)
Record edge_link_t (T : Type) := EdgeLink {
  e_ring : Z;
  e_ring_size : Z;
  e_event_fd : Z;
  e_sender : option (zipc_link_t T);
  e_receiver : option (zipc_link_t T) }.
Arguments EdgeLink {T} _ _ _ _ _.
Arguments e_ring {T} _.
Arguments e_ring_size {T} _.
Arguments e_event_fd {T} _.
Arguments e_sender {T} _.
Arguments e_receiver {T} _.
Definition zero_edge {T} : edge_link_t T := EdgeLink 0 0 (-1) None None.

Section edges.
Context {E : Type} `{Platform E} `{Heap E} `{LinuxOs E} (fuel : nat).
Abbreviation edge := (edge_link_t zipc_platform_transport_t).
#[local] Instance bench_transport : Transport E zipc_platform_transport_t := linux_transport fuel.

Definition edge_link_cleanup (e : edge) : prog (world E) () :=
  zipc_link_destroy (e_sender e);;
  zipc_link_destroy (e_receiver e);;
  (if 0 <=? e_event_fd e then os_do (os_close (e_event_fd e)) else mret ());;
  (if negb (e_ring e =? 0) then os_do (os_munmap (e_ring e) (e_ring_size e)) else mret ()).

(** The two links of an edge over given transports. *)
Definition edge_links (pool : zipc_pool_t) (index : Z)
    (sender_transport receiver_transport : zipc_platform_transport_config_t) (e : edge)
    : prog (world E) (bool * edge) :=
  '(status, receiver) ← zipc_link_create (Some (receiver_cfg pool index receiver_transport));
  if negb (status_is status ZIPC_OK) then mret (false, e)
  else
  let e := {| e with e_receiver := receiver |} in
  '(status, sender) ← zipc_link_create (Some (sender_cfg pool index sender_transport));
  if negb (status_is status ZIPC_OK) then mret (false, e)
  else mret (true, {| e with e_sender := sender |}).

(** The body of the loop that opens the edges: [false] is [goto cleanup], and the
    edge is as the code leaves it.  [endpoint] is the name printed for the edge. *)
Definition open_edge (pool : zipc_pool_t) (name endpoint : string) (slot_count index : Z)
    : prog (world E) (bool * edge) :=
  if is_key name "ring-eventfd" then
    let size := zipc_transport_spsc_ring_size slot_count in
    mapped ← env_call (os_mmap size);
    match mapped with
    | None => mret (false, EdgeLink 0 size (-1) None None)
    | Some ring =>
    let e : edge := EdgeLink ring size (-1) None None in
    ring_create ring slot_count;;
    status ← zipc_transport_spsc_ring_initialize ring slot_count;
    if negb (status_is status ZIPC_OK) then mret (false, e)
    else
    event_fd ← env_call os_eventfd;
    let e := {| e with e_event_fd := event_fd |} in
    if event_fd <? 0 then mret (false, e)
    else
    let transport := ring_transport_config ring event_fd slot_count in
    edge_links pool index transport transport e
    end
  else
    edge_links pool index (named_config name endpoint false) (named_config name endpoint true)
      zero_edge.
End edges.

(** ** The processes *)
Inductive exit_code := EXIT_SUCCESS | EXIT_FAILURE.

Class Pipes (E : Type) := {
  (** One byte written to or read from a pipe: whether it was. *)
  pipe_write : Z → E → bool * E;
  pipe_read : Z → E → bool * E;
  (** [malloc] of the payload. *)
  payload_alloc : Z → E → bool * E }.

Section processes.
Context {E T : Type} `{Platform E} `{Transport E T} `{Pipes E}.
Context (fuel : nat) (edges : list (edge_link_t T)).

(** [CHECK(expr)] inside a loop: [Some] leaves the process. *)
Definition check (status : zipc_status_t) : option exit_code :=
  if status_is status ZIPC_OK then None else Some EXIT_FAILURE.
(** [edges[index]]; outside the array is undefined. *)
Definition edge_at (index : Z) : prog (world E) (edge_link_t T) :=
  match (if 0 <=? index then edges !! Z.to_nat index else None) with
  | Some e => mret e
  | None => fault
  end.

(** One buffer through a relay, or into the final receiver, with the buffer
    object at [buffer]. *)
Definition receiver_turn (index component_count buffer : Z) : prog (world E) (option exit_code) :=
  incoming ← edge_at (index - 1);
  status ← zipc_recv fuel (e_receiver incoming) buffer;
  if negb (status_is status ZIPC_OK) then mret (Some EXIT_FAILURE)
  else
  status ←
    (if u32 (index + 1) =? component_count then zipc_buffer_release buffer
     else outgoing ← edge_at index; zipc_send (e_sender outgoing) buffer);
  mret (check status).

(** The marker the final receiver writes after a batch. *)
Definition report (final : bool) (fd : Z) : prog (world E) (option exit_code) :=
  if final then written ← env_call (pipe_write fd); mret (if written : bool then None else Some EXIT_FAILURE)
  else mret None.

Definition run_receiver (index component_count warmup_count packet_count ready_fd done_fd buffer : Z)
    : prog (world E) exit_code :=
  let final := u32 (index + 1) =? component_count in
  let batch count fd :=
    r ← for_range (Z.to_nat count) 0 (λ _, receiver_turn index component_count buffer);
    match r with
    | Some code => mret (Some code)
    | None => report final fd
    end in
  r ← batch warmup_count ready_fd;
  match r with
  | Some code => mret code
  | None => r ← batch packet_count done_fd; mret (default EXIT_SUCCESS r)
  end.

(** Retry while the pool is empty; [None] when the fuel runs out. *)
Definition buffer_get_wait (sender : option (zipc_link_t T)) (buffer : Z)
    : prog (world E) (option exit_code) :=
  r ← loop fuel (
    status ← zipc_buffer_alloc_ex fuel sender 0 0 0 buffer 0;
    mret (if status_is status ZIPC_OK then Some None
          else if negb (status_is status ZIPC_ERR_NO_BUFFER) then Some (Some EXIT_FAILURE)
          else None));
  returned r.

Definition sender_turn (payload : option (list Z)) (payload_size buffer : Z)
    : prog (world E) (option exit_code) :=
  outgoing ← edge_at 0;
  r ← buffer_get_wait (e_sender outgoing) buffer;
  match r with
  | Some code => mret (Some code)
  | None =>
  status ← zipc_buffer_append buffer payload payload_size;
  if negb (status_is status ZIPC_OK) then mret (Some EXIT_FAILURE)
  else
  status ← zipc_send (e_sender outgoing) buffer;
  mret (check status)
  end.

(** [memset(payload, 0xA5, payload_size)], [None] for an empty payload. *)
Definition run_sender (packet_count payload_size warmup_count ready_fd done_fd buffer : Z)
    : prog (world E) exit_code :=
  allocated ← (if negb (payload_size =? 0) then env_call (payload_alloc payload_size) else mret true);
  if negb allocated then mret EXIT_FAILURE
  else
  let payload := if negb (payload_size =? 0)
                 then Some (repeat 165 (Z.to_nat payload_size)) else None in
  let batch count fd :=
    r ← for_range (Z.to_nat count) 0 (λ _, sender_turn payload payload_size buffer);
    match r with
    | Some code => mret (Some code)
    | None =>
        marked ← env_call (pipe_read fd);
        mret (if marked : bool then None else Some EXIT_FAILURE)
    end in
  r ← batch warmup_count ready_fd;
  match r with
  | Some code => mret code
  | None => r ← batch packet_count done_fd; mret (default EXIT_SUCCESS r)
  end.
End processes.
