(* ===== verification/PacketrateSpec.v ===== *)
(** * The packet-rate utility: theorems

    The command line yields options of the widths the code declares; the sizes
    [main] computes from them are the ideal ones, and the pool they describe is
    one the library accepts. *)
From Stdlib Require Import String Ascii.
From S2P Require Import Prelude Types Packing Prog Store Layout Slot SlotSpec Ring Buffer Link.
From S2P Require Import LayoutSpec PoolSpec Demo LinuxTransport Topology TopologyText Packetrate.

(** ** The command line *)
Lemma code_range c : 0 <= code c <= 255.
Proof. unfold code. pose proof (N_ascii_bounded c). lia. Qed.

Lemma digit_value_range c d : digit_value c = Some d → 0 <= d.
Proof. pose proof (code_range c). unfold digit_value. repeat case_match; naive_solver lia. Qed.

Lemma read_digits_nonneg base s : 0 <= base → ∀ acc, 0 <= acc → 0 <= (read_digits base acc s).1.
Proof.
  intros Hb. induction s as [|c s IH]; intros acc Hacc; cbn [read_digits]; [done|].
  destruct (digit_value c) as [d|] eqn:Hd; [|done]. destruct (d <? base); [|done].
  apply IH. pose proof (digit_value_range _ _ Hd). nia.
Qed.

Lemma strtoull_base_nonneg s : 0 <= (strtoull_base s).1.
Proof. unfold strtoull_base. repeat case_match; simpl; lia. Qed.

Lemma strtoull_at_range base s v erange rest :
  0 <= base → strtoull_at base s = Some (v, erange, rest) → in_u64 v.
Proof.
  intros Hb. unfold strtoull_at. destruct (strtoull_sign _) as [negative t].
  destruct (if base =? 0 then _ else _) as [b u] eqn:Hbase.
  assert (0 <= b).
  { destruct (base =? 0); [|naive_solver].
    pose proof (strtoull_base_nonneg t) as Hp. by rewrite Hbase in Hp. }
  destruct (negb _); [done|]. pose proof (read_digits_nonneg b u ltac:(done) 0 ltac:(lia)) as Hr.
  destruct (read_digits b 0 u) as [n r]. cbn in Hr. intros [= <- _ _].
  destruct (Z.ltb_spec UINT64_MAX n); [zlia|]. destruct negative; zlia.
Qed.

Lemma parse_u64_range s m v : parse_u64 s m = Some v → 0 <= v <= m.
Proof.
  destruct s as [|c s]; cbn [parse_u64]; [done|]. destruct (negb _); [done|].
  intros (((p&er)&rest)&Hs&H)%bind_Some.
  apply strtoull_at_range in Hs; [|done].
  destruct (_ || _) eqn:Hc; [done|]. injection H as <-. bool_to_prop. zlia.
Qed.
Lemma parse_u32_range s m v : m <= UINT32_MAX → parse_u32 s m = Some v → 0 <= v <= m.
Proof.
  intros Hm (x&Hx%parse_u64_range&[= <-])%bind_Some. rewrite u32_small; zlia.
Qed.
Lemma parse_size_u32_range s v : parse_size_u32 s = Some v → in_u32 v.
Proof.
  destruct s as [|c s]; cbn [parse_size_u32]; [done|]. destruct (negb _); [done|].
  intros (((p&er)&rest)&Hs&H)%bind_Some. destruct er; [done|].
  apply bind_Some in H as (m&_&H). destruct (_ <? p); [done|]. injection H as <-. zlia.
Qed.

(** The widths of the variables of [main]. *)
Record options_wf (o : options) : Prop := {
  ow_packets : in_u64 (o_packet_count o);
  ow_payload : in_u32 (o_payload_size o);
  ow_relays : 0 <= o_relay_count o <= MAX_RELAYS;
  ow_slots : in_u32 (o_slot_count o) }.

Lemma parse_arguments_wf n : ∀ args o o', (length args < n)%nat →
  options_wf o → parse_arguments args o = Some o' → options_wf o'.
Proof.
  induction n as [|n IH]; [lia|]. intros [|k [|v args]] o o' Hn Hwf; cbn [parse_arguments];
    [by intros [= <-]|done|].
  assert (length args < n)%nat by (cbn in Hn; lia). destruct Hwf as [H1 H2 H3 H4].
  repeat case_match; intros Hp; try done;
    try (apply bind_Some in Hp as (x&Hx&Hp)); (eapply IH; [done| |done]); split; cbn; try done.
  - apply parse_u64_range in Hx. zlia.
  - by eapply parse_size_u32_range.
  - apply parse_u32_range in Hx; [done|unfold MAX_RELAYS; lia].
  - apply parse_u32_range in Hx; zlia.
Qed.

(** ** The sizes without wrap-around *)
Definition up64 (n : Z) : Z := (n + 63) / 64 * 64.
Definition capacity (o : options) : Z := Z.max 1 (o_payload_size o).
Definition stride (o : options) : Z := up64 (capacity o).
(** 32 MiB worth of slots, but at least 2 and at most 256. *)
Definition slots (o : options) : Z :=
  if o_slots_set o then o_slot_count o else Z.max 2 (Z.min 256 (33554432 / stride o)).
Definition controls (n : Z) : Z := up64 (6248 + 344 * n).

Definition ideal (o : options) : bench :=
  {| be_slot_capacity := capacity o;
     be_slot_count := slots o;
     be_component_count := o_relay_count o + 2;
     be_edge_count := o_relay_count o + 1;
     be_warmup_count := Z.max 1 (Z.min 1000 (67108864 / capacity o));
     be_payload_offset := controls (slots o);
     be_shm_size := controls (slots o) + slots o * stride o |}.

(** Why [main] gives up before it opens anything. *)
Definition refused (o : options) : Prop :=
  o_packet_count o = 0 ∨ (o_slots_set o = true ∧ o_slot_count o < 2) ∨
  known_transport (o_transport_name o) = false ∨ UINT32_MAX - 63 < o_payload_size o ∨
  SIZE_MAX < controls (slots o) + slots o * stride o.

Lemma up64_spec n : (64 | up64 n) ∧ n <= up64 n < n + 64.
Proof. unfold up64. split; [eexists; done|]. zlia. Qed.

Lemma align_up_64 n :
  0 <= n → n + 63 <= SIZE_MAX → align_up_checked n PAYLOAD_ALIGNMENT = Some (up64 n).
Proof.
  intros H0 Hn. pose proof (align_up_exact n 64 ltac:(zlia) ltac:(zlia)) as He.
  unfold PAYLOAD_ALIGNMENT. destruct (up64_spec n) as (Hd&Hlo).
  destruct (align_up_checked n 64) as [r|].
  - destruct He as (_&[q ->]&Hr&Hleast). specialize (Hleast _ Hd ltac:(lia)).
    f_equal. unfold up64 in *. zlia.
  - destruct He as [He|He]; [done|]. specialize (He _ Hd ltac:(lia)). lia.
Qed.

(** The required payload size with the stride left to the library. *)
Lemma payload_size_64 n cap :
  1 <= n <= UINT32_MAX → in_u32 cap → cap ≠ 0 →
  zipc_pool_required_payload_size n cap 0 PAYLOAD_ALIGNMENT
  = if UINT32_MAX - 63 <? cap then 0 else n * up64 cap.
Proof.
  intros Hn Hc H0. unfold zipc_pool_required_payload_size.
  rewrite (proj2 (Z.eqb_neq n 0)), (proj2 (Z.eqb_neq cap 0)) by lia.
  change (is_power_of_two _) with true. cbn [orb negb]. cbv zeta. rewrite !Z.eqb_refl.
  rewrite align_up_64 by zlia. cbn [andb negb]. destruct (up64_spec cap) as (Hd&Hb).
  destruct (Z.ltb_spec (UINT32_MAX - 63) cap) as [Hlt|Hge].
  - destruct (Z.ltb_spec UINT32_MAX (up64 cap)) as [|Hle]; [done|].
    unfold up64 in *. zlia.
  - rewrite (proj2 (Z.ltb_ge UINT32_MAX (up64 cap))) by lia. rewrite u32_small by zlia.
    rewrite (proj2 (Z.ltb_ge (up64 cap) cap)) by lia.
    replace (up64 cap `mod` PAYLOAD_ALIGNMENT) with 0
      by (symmetry; by apply Z.mod_divide).
    pose proof (mul_u32_bound n (up64 cap) ltac:(lia) ltac:(zlia)).
    rewrite (proj2 (Z.ltb_ge (SIZE_MAX / _) _)) by (apply Z.div_le_lower_bound; zlia).
    cbn [orb negb Z.eqb]. apply u64_small. zlia.
Qed.

Lemma automatic_slot_count_exact s :
  1 <= s → automatic_slot_count s = Z.max 2 (Z.min 256 (33554432 / s)).
Proof.
  intros Hs. unfold automatic_slot_count, AUTO_POOL_BUDGET, DEFAULT_SLOT_COUNT.
  change (32 * 1024 * 1024) with 33554432. pose proof (Z.div_pos 33554432 s ltac:(lia) ltac:(lia)).
  generalize dependent (33554432 / s). intros q Hq.
  cbv zeta. repeat case_match; bool_to_prop; rewrite u32_small; zlia.
Qed.

Lemma warmup_exact p :
  0 <= p → warmup_packet_count p = Z.max 1 (Z.min 1000 (67108864 / Z.max 1 p)).
Proof.
  intros Hp. unfold warmup_packet_count, WARMUP_BYTE_BUDGET, MAX_WARMUP_PACKETS.
  change (64 * 1024 * 1024) with 67108864.
  destruct (Z.eqb_spec p 0) as [->|H0]; [done|]. rewrite (Z.max_r 1 p) by lia.
  pose proof (Z.div_pos 67108864 p ltac:(lia) ltac:(lia)).
  cbv zeta. repeat case_match; bool_to_prop; lia.
Qed.

Lemma slots_range o : options_wf o → ¬ (o_slots_set o = true ∧ o_slot_count o < 2) →
  2 <= slots o <= UINT32_MAX.
Proof. intros [_ _ _ Hs] Hn. unfold slots. destruct (o_slots_set o); [zlia|lia]. Qed.

Lemma stride_range o : options_wf o → o_payload_size o <= UINT32_MAX - 63 →
  (64 | stride o) ∧ capacity o <= stride o <= UINT32_MAX ∧ 64 <= stride o.
Proof.
  intros [_ Hp _ _] Hle. unfold stride. destruct (up64_spec (capacity o)) as ((q&Hq)&Hb).
  unfold capacity in *. split; [by exists q|]. zlia.
Qed.

(** [(n + 63) & ~63]. *)
Lemma round_64 n :
  0 <= n → n + 63 <= SIZE_MAX → Z.land (u64 (n + 63)) (u64 (Z.lnot 63)) = up64 n.
Proof.
  intros H0 Hn. rewrite u64_small by zlia. change 63 with (2 ^ 6 - 1) at 2.
  rewrite land_not_mask by zlia. unfold up64. zlia.
Qed.

(** What is left of [bench_plan] once stride and slot count are known. *)
Lemma plan_tail n cap : 2 <= n <= UINT32_MAX → 1 <= cap <= UINT32_MAX - 63 →
  let control_size := zipc_pool_required_control_size n in
  let payload_bytes := zipc_pool_required_payload_size n cap 0 PAYLOAD_ALIGNMENT in
  let payload_offset := Z.land (u64 (control_size + 63)) (u64 (Z.lnot 63)) in
  (control_size =? 0) || (SIZE_MAX - 63 <? control_size) = false ∧
  payload_offset = controls n ∧ 0 <= controls n ∧ payload_bytes = n * up64 cap ∧
  (payload_bytes =? 0) = false.
Proof.
  intros Hn Hc. cbv zeta. rewrite required_control_size_exact by lia.
  rewrite payload_size_64, (proj2 (Z.ltb_ge _ cap)) by zlia.
  rewrite round_64 by lia. destruct (up64_spec cap) as [_ Hb].
  unfold controls. replace (344 * n) with (n * 344) by lia.
  destruct (up64_spec (6248 + n * 344)) as [_ Hb']. repeat split; try lia.
  apply Z.eqb_neq. nia.
Qed.

Lemma bench_plan_exact o : options_wf o →
  match bench_plan o with Some b => ¬ refused o ∧ b = ideal o | None => refused o end.
Proof.
  intros Hwf. pose proof Hwf as [Hk Hp Hr Hs]. unfold bench_plan, MAX_RELAYS in *.
  destruct (_ || _) eqn:Hc; [unfold refused; apply orb_true_iff in Hc;
    rewrite andb_true_iff, Z.eqb_eq, Z.ltb_lt in Hc; naive_solver|].
  apply orb_false_iff in Hc as [Hc1%Z.eqb_neq Hc2%andb_false_iff].
  assert (Hn : ¬ (o_slots_set o = true ∧ o_slot_count o < 2)).
  { intros [Ha Hb%Z.ltb_lt]. naive_solver congruence. }
  pose proof (slots_range o Hwf Hn) as Hsl. clear Hc2.
  replace (if negb (o_payload_size o =? 0) then _ else _) with (capacity o)
    by (unfold capacity; destruct (Z.eqb_spec (o_payload_size o) 0); cbn; zlia).
  assert (Hcap : capacity o = Z.max 1 (o_payload_size o)) by done.
  rewrite (payload_size_64 1) by zlia.
  destruct (Z.ltb_spec (UINT32_MAX - 63) (capacity o)) as [Hbig|Hfit].
  { cbv zeta. rewrite Z.eqb_refl. unfold refused. do 3 right; left. lia. }
  destruct (stride_range o Hwf ltac:(lia)) as (Hd&Hst&H64).
  rewrite Z.mul_1_l. change (up64 (capacity o)) with (stride o). cbv zeta.
  rewrite (proj2 (Z.eqb_neq (stride o) 0)) by lia.
  replace (if negb (o_slots_set o) then _ else _) with (slots o)
    by (unfold slots; rewrite automatic_slot_count_exact by lia; by destruct (o_slots_set o)).
  destruct (known_transport _) eqn:Hkn; cbn [negb]; [|unfold refused; tauto].
  destruct (plan_tail (slots o) (capacity o) ltac:(lia) ltac:(lia)) as (Ht1&Ht2&Hpos&Ht3&Ht4).
  cbv zeta in Ht1, Ht2. rewrite Ht1, Ht2, Ht4, Ht3. cbn [orb].
  change (up64 (capacity o)) with (stride o).
  destruct (Z.ltb_spec (SIZE_MAX - controls (slots o)) (slots o * stride o)) as [Ho|Ho].
  { unfold refused. do 4 right. lia. }
  split; [unfold refused; rewrite Hkn; intros [|[|[|[|]]]]; (lia || done || tauto)|].
  unfold ideal. rewrite warmup_exact by zlia. rewrite !u32_small by zlia.
  rewrite u64_small; [f_equal; lia|]. split; [|lia]. nia.
Qed.

(** ** The pool and the chain *)
Section plan.
Context {E : Type} `{PlatformLaws E}.

(** A mapping that can hold the pool, as [zipc_platform_memory_open] returns it. *)
Record mapped (e : E) (memory size : Z) : Prop := {
  mp_object : memory ≠ 0;
  mp_base : zipc_platform_memory_base e memory ≠ 0;
  mp_aligned : (64 | zipc_platform_memory_base e memory);
  mp_size : size <= zipc_platform_memory_size e memory;
  mp_address : zipc_platform_memory_base e memory + size <= UINTPTR_MAX;
  mp_capabilities : Z.land (zipc_platform_memory_capabilities e memory) 15 = 15 }.

Lemma aligned_at e memory o a : mapped e memory o → is_power_of_two a = true → in_u64 o →
  in_u64 a → (a | 64) → (a | o) → memory_address_aligned e memory o a = true.
Proof.
  intros [] Hp Ho Ha H64 Hd. apply memory_address_aligned_spec; [done..|]. split_and!; try done.
  apply Z.divide_add_r; [|done]. by apply (Z.divide_trans _ 64).
Qed.

Lemma mapped_mono e memory n m : mapped e memory n → m <= n → mapped e memory m.
Proof. intros [] Hle. split; try done; lia. Qed.

(** The bounds of the ideal plan. *)
Record plan_ok (b : bench) (stride : Z) : Prop := {
  pk_count : 2 <= be_slot_count b <= UINT32_MAX;
  pk_capacity : 1 <= be_slot_capacity b <= stride;
  pk_stride : stride <= UINT32_MAX;
  pk_up : up64 (be_slot_capacity b) = stride;
  pk_fit : be_slot_capacity b <= UINT32_MAX - 63;
  pk_offset : be_payload_offset b = controls (be_slot_count b);
  pk_size : be_shm_size b = be_payload_offset b + be_slot_count b * stride;
  pk_max : be_shm_size b <= SIZE_MAX }.

Lemma ideal_ok o : options_wf o → ¬ refused o → plan_ok (ideal o) (stride o).
Proof.
  intros Hwf Hr. unfold refused in Hr.
  pose proof (slots_range o Hwf ltac:(naive_solver)).
  assert (o_payload_size o <= UINT32_MAX - 63) by (apply Z.nlt_ge; naive_solver).
  destruct (stride_range o Hwf ltac:(lia)) as (_&?&_).
  split; cbn; try done; unfold capacity in *; try lia; tauto.
Qed.

Lemma bench_pool_accepted e memory b stride :
  plan_ok b stride → mapped e memory (be_shm_size b) →
  config_wf (bench_pool memory b) ∧ accepted e (bench_pool memory b) memory stride.
Proof.
  intros [Hn Hc _ Hup Hfit Ho Hs Hm] Hmap.
  destruct (up64_spec (be_slot_capacity b)) as (Hd&Hb). rewrite Hup in Hd, Hb.
  destruct (up64_spec (6248 + 344 * be_slot_count b)) as (Hdo&Hbo).
  change (up64 _) with (controls (be_slot_count b)) in Hdo, Hbo. rewrite <- Ho in Hdo, Hbo.
  assert (Hmul : 0 <= be_slot_count b * stride) by nia.
  assert (Hwf : config_wf (bench_pool memory b))
    by (split; cbn; unfold PAYLOAD_ALIGNMENT; zlia).
  split; [done|]. pose proof Hmap as [Hne Hbase Hal Hsz Had Hcap]. split.
  - unfold normalize_config, normalize_stride, pool_flag, bench_pool. cbn -[Z.land Z.modulo].
    rewrite (proj2 (Z.eqb_neq memory 0)), (proj2 (Z.eqb_neq (be_slot_count b) 0)),
      (proj2 (Z.eqb_neq (be_slot_capacity b) 0)) by lia.
    rewrite (proj2 (Z.mod_divide _ PAYLOAD_ALIGNMENT ltac:(done)) Hdo).
    rewrite !aligned_at; try done; [|by eapply mapped_mono; [done|lia]|zlia
      |by eapply mapped_mono; [done|lia]|by exists 8|by exists 0].
    change (Z.land 0 _) with 0. change (0 `mod` _) with 0. cbn [negb orb Z.eqb andb].
    rewrite align_up_64, Hup by lia.
    rewrite (proj2 (Z.ltb_ge UINT32_MAX stride)), u32_small by zlia.
    rewrite (proj2 (Z.ltb_ge stride _)) by lia.
    rewrite (proj2 (Z.mod_divide _ PAYLOAD_ALIGNMENT ltac:(done)) Hd). rewrite Hcap.
    change 3 with (Z.land 15 3) at 1. rewrite Z.land_assoc, Hcap. done.
  - unfold pool_ranges_valid, bench_pool.
    cbn [pc_control_memory pc_control_offset pc_payload_offset pc_slot_count pc_slot_capacity
      pc_payload_alignment].
    rewrite required_control_size_exact by lia.
    rewrite (required_payload_size_exact (be_slot_count b) (be_slot_capacity b) stride
      PAYLOAD_ALIGNMENT ltac:(lia) Hc ltac:(lia) eq_refl ltac:(unfold PAYLOAD_ALIGNMENT; zlia) Hd).
    assert (Hfits : ∀ o l, 0 <= o → 0 <= l → o + l <= be_shm_size b →
      memory_range_fits e memory o l = true).
    { intros o l Hlo Hl Hle. apply memory_range_fits_spec; [split; lia..|].
      split_and!; [done|lia..]. }
    rewrite !Hfits by lia.
    cbn [negb orb]. rewrite Z.eqb_refl, !u64_small by (split; lia).
    apply negb_true_iff, andb_false_iff. right. lia.
Qed.

(** C38. The set-up of the packet-rate utility computes without wrap-around and
    asks the library for a pool it accepts.  For every command line that parses,
    [main] gives up exactly when there is nothing to send, the slot count given
    is below two, the transport is unknown, the payload does not fit a slot
    stride or the pool does not fit [size_t]; otherwise all its sizes are the
    ideal ones (at least two slots, each as large as the payload, one to a
    thousand packets of warm-up), a mapping of the size it requests makes the
    pool configuration well formed and accepted, and the edges form a chain of
    distinct valid components from the sender to the last receiver. *)
Theorem packetrate_setup_exact args o e memory :
  parse_arguments args default_options = Some o →
  match bench_plan o with
  | None => refused o
  | Some b => ¬ refused o ∧ b = ideal o ∧
      (mapped e memory (be_shm_size b) →
         config_wf (bench_pool memory b) ∧ accepted e (bench_pool memory b) memory (stride o)) ∧
      ∀ edge, 0 <= edge < be_edge_count b →
        zipc_component_id_valid (edge_source edge) = true ∧
        zipc_component_id_valid (edge_destination edge) = true ∧
        edge_source edge = edge + 1 ∧ edge_destination edge = edge_source (edge + 1)
  end.
Proof.
  intros Hp. assert (Hwf : options_wf o).
  { eapply parse_arguments_wf; [by apply Nat.lt_succ_diag_r| |done].
    split; cbn; unfold MAX_RELAYS; zlia. }
  pose proof (bench_plan_exact o Hwf) as Hb. destruct (bench_plan o) as [b|]; [|done].
  destruct Hb as [Hr ->]. split_and!; [done..| |].
  - apply bench_pool_accepted. by apply ideal_ok.
  - intros edge He. destruct Hwf as [_ _ Hrel _]. unfold MAX_RELAYS in Hrel. cbn in He.
    unfold edge_destination, edge_source. rewrite !zipc_component_id_valid_spec. zlia.
Qed.
End plan.

(** Two relays over a FIFO with 2 KiB payloads; the pool fits a mapping of 1 MiB. *)
Definition demo_arguments : list string :=
  ["--transport"; "fifo"; "--relays"; "2"; "--payload"; "2K"; "--packets"; "0x10"]%string.
Definition demo_options : options := Options "fifo" 16 2048 2 0 false.
Lemma packetrate_setup_exact_witness :
  parse_arguments demo_arguments default_options = Some demo_options ∧
  be_slot_count (ideal demo_options) = 256 ∧ be_edge_count (ideal demo_options) = 3 ∧
  accepted demo_env (bench_pool 3 (ideal demo_options)) 3 2048.
Proof.
  pose proof (packetrate_setup_exact demo_arguments demo_options demo_env 3
    ltac:(vm_compute; reflexivity)) as Hw.
  destruct (bench_plan demo_options) as [b|] eqn:Hb; [|vm_compute in Hb; discriminate].
  destruct Hw as (_&->&Hacc&_).
  split; [vm_compute; reflexivity|]. split; [vm_compute; reflexivity|].
  split; [vm_compute; reflexivity|]. change 2048 with (stride demo_options).
  apply Hacc. split; [discriminate|discriminate| | | |vm_compute; reflexivity].
  - exists 49152. vm_compute. reflexivity.
  - vm_compute. discriminate.
  - vm_compute. discriminate.
Defined.
