(* ===== verification/Stat.v ===== *)
(** * The pool inspector (utilities/zipc-stat.c)

    The command line, the geometry it derives, the opening and attaching of the
    pool and the report, line by line.  A line that is printed is a value of
    [line]; [main] gives the exit status and the lines in the order they are
    written.  Memory objects are opened and closed through [MemoryObjects], which
    platform/linux/user implements (LinuxMemory.v). *)
From Stdlib Require Import String Ascii.
From S2P Require Import Prelude Types Packing Prog Store Layout Slot SlotRun SlotSpec Recovery Lifecycle.
From S2P Require Import LayoutSpec PoolSpec Backends LinuxMemory TopologyText Packetrate PacketrateSpec Demo.
#[local] Open Scope list_scope.

(** ** Names *)
Definition state_name (state : zipc_slot_state_t) : string :=
  match state with
  | ZIPC_SLOT_FREE => "FREE"
  | ZIPC_SLOT_CLAIMING => "CLAIMING"
  | ZIPC_SLOT_OWNED => "OWNED"
  | ZIPC_SLOT_TRANSFER => "TRANSFER"
  | ZIPC_SLOT_ERROR => "ERROR"
  end.
Definition event_name (event : Z) : string :=
  if event =? ZIPC_TRACE_ALLOCATE then "ALLOC"
  else if event =? ZIPC_TRACE_SEND then "SEND"
  else if event =? ZIPC_TRACE_RECEIVE then "RECV"
  else if event =? ZIPC_TRACE_RELEASE then "FREE"
  else if event =? ZIPC_TRACE_RECOVER then "RECOVER"
  else if event =? ZIPC_TRACE_ERROR then "ERROR"
  else "?".
Definition component_state_name (state : Z) : string :=
  if state =? ZIPC_COMPONENT_INACTIVE then "INACTIVE"
  else if state =? ZIPC_COMPONENT_RECOVERING then "RECOVERING"
  else if state =? ZIPC_COMPONENT_ACTIVE then "ACTIVE"
  else "UNKNOWN".

(** ** The command line *)

(** [None] is the message and [exit(2)]. *)
Definition stat_parse_u32 (s : string) : option Z :=
  match s with
  | String c _ => if (code c =? 45) || isspace c then None else Some tt
  | EmptyString => Some tt
  end;;
  '(value, erange, rest) ← strtoull_at 0 s;
  if (erange : bool) || negb (empty rest) || (value =? 0) || (UINT32_MAX <? value) then None
  else Some (u32 value).

Record stat_options := StatOptions {
  so_name : string;
  so_slots : Z;
  so_capacity : Z;
  so_show_free : bool;
  so_name_set : bool;
  so_slots_set : bool;
  so_capacity_set : bool }.
Definition stat_defaults : stat_options := StatOptions "/zipc_pool" 64 4096 false false false false.

(** How the argument loop ends: the options, the exit status 2 with its message,
    or a [strcmp] on the null pointer behind the last argument. *)
Inductive stat_arguments :=
| Options_ok (o : stat_options)
| Bad_number (s : string)
| Bad_usage
| Null_compared.

(** An option at the end of the list has moved [i] to [argc] when the next
    comparison reads [argv[i]]. *)
Fixpoint stat_parse (args : list string) (o : stat_options) : stat_arguments :=
  match args with
  | [] => Options_ok o
  | arg :: rest =>
      if is_key arg "--name" then
        match rest with
        | [] => Null_compared
        | name :: rest => stat_parse rest {| o with so_name := name; so_name_set := true |}
        end
      else if is_key arg "--slots" then
        match rest with
        | [] => Null_compared
        | s :: rest =>
            match stat_parse_u32 s with
            | None => Bad_number s
            | Some v => stat_parse rest {| o with so_slots := v; so_slots_set := true |}
            end
        end
      else if is_key arg "--capacity" then
        match rest with
        | [] => Null_compared
        | s :: rest =>
            match stat_parse_u32 s with
            | None => Bad_number s
            | Some v => stat_parse rest {| o with so_capacity := v; so_capacity_set := true |}
            end
        end
      else if is_key arg "--all" then stat_parse rest {| o with so_show_free := true |}
      else Bad_usage
  end.

(** ** What is printed *)
Inductive line :=
| Usage
| Invalid_number (s : string)
| Config (o : stat_options)
| Cannot_open (name : string) (status : zipc_status_t)
| Geometry_mismatch (name : string)
| Pool_line (abi slots capacity allocations releases failures recoveries : Z)
| Slot_line (slot : Z) (state : string) (owner epoch gen hops hop_limit len age recoveries : Z)
| Trace_line (ts seq component : Z) (event : string)
| Components
| Component_line (id epoch : Z) (state : string) (active heartbeat recovered : Z).

(** ** The report *)
Section stat.
Context {E : Type} `{Platform E} `{MemoryObjects E}.
Implicit Type w : world E.

(** A [for] loop over [n] indices from [i] that prints. *)
Fixpoint print_range (n : nat) (i : Z) (body : Z → prog (world E) (list line))
    : prog (world E) (list line) :=
  match n with
  | O => mret []
  | S n => first ← body i; rest ← print_range n (i + 1) body; mret (first ++ rest)
  end.

Definition trace_line (t : zipc_trace_entry_t) : line :=
  Trace_line (te_timestamp_ns t) (te_sequence t) (te_component_id t) (event_name (te_event t)).

Definition stat_slot (pool : zipc_pool_t) (now : Z) (show_free : bool) (i : Z)
    : prog (world E) (list line) :=
  let k := slot_key pool i in
  state ← slot_read k s_state;
  if negb show_free && state_is state ZIPC_SLOT_FREE then mret []
  else
  slot ← slot_read k (λ s, s);
  let age := if s_acquired_ns slot <=? now then now - s_acquired_ns slot else 0 in
  generation ← slot_read k s_generation;
  '(trace, count) ← slot_read k (λ s, zipc_slot_trace_copy (Some s) true ZIPC_TRACE_DEPTH);
  mret (Slot_line i (state_name state) (s_owner_id slot) (s_owner_epoch slot) generation
          (s_hop_count slot) (s_hop_limit slot) (r_length (s_region slot)) age
          (s_recovery_count slot) :: map trace_line (take (Z.to_nat count) trace)).

(** A snapshot the call did not write is indeterminate. *)
Definition stat_component (pool : zipc_pool_t) (i : Z) : prog (world E) (list line) :=
  '(_, snapshot) ← zipc_component_snapshot (Some pool) (u16 i) true;
  match snapshot with
  | None => fault
  | Some s =>
      if (sn_epoch s =? 0) && negb (sn_active s) && (sn_recovered_slots s =? 0) then mret []
      else mret [Component_line i (sn_epoch s) (component_state_name (sn_state s))
                   (if sn_active s then 1 else 0) (sn_last_heartbeat_ns s) (sn_recovered_slots s)]
  end.

Definition stat_memory_cfg (o : stat_options) : zipc_platform_memory_config_t :=
  let control_size := zipc_pool_required_control_size (so_slots o) in
  let payload_size := zipc_pool_required_payload_size (so_slots o) (so_capacity o) 0 64 in
  posix_config (so_name o) (u64 (u64 (control_size + payload_size) + 64)) false false.
Definition stat_pool_cfg (memory : Z) (o : stat_options) : zipc_pool_config_t :=
  {| pc_control_memory := memory;
     pc_control_offset := 0;
     pc_payload_memory := memory;
     pc_payload_offset :=
       Z.land (u64 (zipc_pool_required_control_size (so_slots o) + 63)) (u64 (Z.lnot 63));
     pc_slot_count := so_slots o;
     pc_slot_capacity := so_capacity o;
     pc_slot_stride := 0;
     pc_payload_alignment := 64;
     pc_flags := 0;
     pc_pool_id := 0 |}.

(** The part of [main] behind a successful attach. *)
Definition stat_report (pool : zipc_pool_t) (o : stat_options) : prog (world E) (list line) :=
  h ← header_read (p_header pool) (λ h, h);
  let head := Pool_line (h_abi_version h) (h_slot_count h) (h_slot_capacity h)
    (h_allocation_count h) (h_release_count h) (h_allocation_failure_count h)
    (h_recovery_count h) in
  now ← env_call zipc_platform_time_ns;
  slots ← print_range (Z.to_nat (so_slots o)) 0 (stat_slot pool now (so_show_free o));
  components ← print_range (Z.to_nat (ZIPC_COMPONENT_ID_MAX - ZIPC_COMPONENT_ID_MIN + 1))
    ZIPC_COMPONENT_ID_MIN (stat_component pool);
  mret (head :: slots ++ Components :: components).

(** [self] is the address of the local [pool].  The exit status and the lines. *)
Definition stat_main (self : Z) (args : list string) : prog (world E) (Z * list line) :=
  match stat_parse args stat_defaults with
  | Null_compared => fault
  | Bad_number s => mret (2, [Invalid_number s])
  | Bad_usage => mret (2, [Usage])
  | Options_ok o =>
  opened ← env_call (platform_memory_open (stat_memory_cfg o));
  match opened with
  | inl status => mret (1, [Config o; Cannot_open (so_name o) status])
  | inr memory =>
  '(status, pool) ← zipc_pool_attach self (Some (stat_pool_cfg memory o));
  if negb (status_is status ZIPC_OK) then
    env_call (λ e, (tt, platform_memory_close memory e));;
    mret (1, [Config o; Geometry_mismatch (so_name o)])
  else
  pool ← returned pool;
  report ← stat_report pool o;
  env_call (λ e, (tt, platform_memory_close memory e));;
  mret (0, Config o :: report)
  end
  end.
End stat.

(** ** What the report says *)

(** The slots and components the report lists, with what it prints of each. *)
Definition shown_slot (show_free : bool) (s : zipc_slot_control_t) : bool :=
  show_free || negb (state_is (s_state s) ZIPC_SLOT_FREE).
Definition slot_lines (now i : Z) (s : zipc_slot_control_t) : list line :=
  Slot_line i (state_name (s_state s)) (s_owner_id s) (s_owner_epoch s) (s_generation s)
    (s_hop_count s) (s_hop_limit s) (r_length (s_region s)) (Z.max 0 (now - s_acquired_ns s))
    (s_recovery_count s) :: map trace_line (zipc_slot_trace_copy (Some s) true ZIPC_TRACE_DEPTH).1.
Definition component_epoch (c : zipc_component_status_t) : Z := component_lifecycle_epoch (c_lifecycle c).
Definition component_state (c : zipc_component_status_t) : Z := component_lifecycle_state (c_lifecycle c).
Definition shown_component (c : zipc_component_status_t) : bool :=
  negb (component_epoch c =? 0) || negb (component_state c =? ZIPC_COMPONENT_INACTIVE)
  || negb (c_recovered_slots c =? 0).
Definition component_line (i : Z) (c : zipc_component_status_t) : line :=
  Component_line i (component_epoch c) (component_state_name (component_state c))
    (if component_state c =? ZIPC_COMPONENT_INACTIVE then 0 else 1) (c_last_heartbeat_ns c)
    (c_recovered_slots c).

(** The entries of a table at the indices of [l]. *)
Definition entries_at {A} (m : gmap (Z * Z) A) (h : Z) (l : list Z) : list (Z * A) :=
  omap (λ i, pair i <$> m !! (h, i)) l.

Section spec.
Context {E : Type} `{PlatformLaws E} `{!MemoryObjects E}.
Implicit Type w : world E.

(** The report of a pool at [h] in a world, at the time [now]. *)
Definition report_of (h : Z) (hd : zipc_pool_header_t) (now : Z) (o : stat_options) w : list line :=
  Pool_line (h_abi_version hd) (h_slot_count hd) (h_slot_capacity hd) (h_allocation_count hd)
    (h_release_count hd) (h_allocation_failure_count hd) (h_recovery_count hd) ::
  concat (map (λ x, slot_lines now x.1 x.2)
    (filter (λ x, shown_slot (so_show_free o) x.2 = true)
       (entries_at (w_controls w) h (seqZ 0 (so_slots o))))) ++
  Components ::
  map (λ x, component_line x.1 x.2)
    (filter (λ x, shown_component x.2 = true) (entries_at (w_components w) h (seqZ 1 254))).

Lemma wp_print_range w n i body (f : Z → list line) :
  (∀ j, i <= j < i + Z.of_nat n → wp (body j) (λ l w', l = f j ∧ w' = w) w) →
  wp (print_range n i body) (λ l w', l = concat (map f (seqZ i (Z.of_nat n))) ∧ w' = w) w.
Proof.
  revert i. induction n as [|n IH]; intros i Hb; cbn [print_range]; [by apply wp_ret|].
  apply wp_bind. eapply wp_mono; [apply Hb; lia|]. intros l w' [-> ->].
  apply wp_bind. eapply wp_mono; [apply IH; intros; apply Hb; lia|]. intros l w' [-> ->].
  apply wp_ret. split; [|done]. rewrite (seqZ_cons i) by lia. cbn. do 4 f_equal. lia.
Qed.

Lemma wp_stat_slot pool now show_free i s w :
  w_controls w !! slot_key pool i = Some s →
  wp (stat_slot pool now show_free i) (λ l w',
    l = (if shown_slot show_free s then slot_lines now i s else []) ∧ w' = w) w.
Proof.
  intros Hs. unfold stat_slot. apply wp_bind. eapply wp_slot_read; [exact Hs|].
  replace (negb show_free && _) with (negb (shown_slot show_free s))
    by (unfold shown_slot; by rewrite negb_orb, negb_involutive).
  destruct (shown_slot show_free s); cbn [negb]; [|by apply wp_ret].
  do 3 (apply wp_bind; eapply wp_slot_read; [exact Hs|]).
  destruct (zipc_slot_trace_copy (Some s) true ZIPC_TRACE_DEPTH) as [trace count] eqn:Htr.
  apply wp_ret. split; [|done]. unfold slot_lines. rewrite Htr. cbn [fst]. f_equal.
  - f_equal. destruct (Z.leb_spec (s_acquired_ns s) now); lia.
  - rewrite take_ge; [done|]. unfold zipc_slot_trace_copy in Htr. injection Htr as <- <-.
    rewrite length_map, length_seqZ. done.
Qed.

Lemma wp_stat_component pool i c w :
  w_components w !! (p_header pool, i) = Some c → zipc_component_id_valid i = true →
  wp (stat_component pool i) (λ l w',
    l = (if shown_component c then [component_line i c] else []) ∧ w' = w) w.
Proof.
  intros Hc Hi. unfold stat_component. pose proof Hi as Hr%zipc_component_id_valid_spec.
  rewrite (u16_small i) by zlia. unfold zipc_component_snapshot. rewrite Hi. cbn [negb orb].
  apply wp_bind. do 3 (apply wp_bind; eapply wp_component_read; [exact Hc|]). apply wp_ret.
  cbn [sn_epoch sn_active sn_recovered_slots sn_state sn_last_heartbeat_ns].
  fold (component_epoch c) (component_state c).
  unfold shown_component, component_line.
  destruct (component_epoch c =? 0), (component_state c =? ZIPC_COMPONENT_INACTIVE),
    (c_recovered_slots c =? 0); cbn [negb orb andb]; by apply wp_ret.
Qed.

(** Listing with a test is listing what passes it. *)
Lemma concat_shown {A} (m : gmap (Z * Z) A) h (shown : A → bool) (g : Z → A → list line) l :
  concat (map (λ i, match m !! (h, i) with
                    | Some x => if shown x then g i x else []
                    | None => []
                    end) l) =
  concat (map (λ x, g x.1 x.2) (filter (λ x, shown x.2 = true) (entries_at m h l))).
Proof.
  unfold entries_at. induction l as [|i l IH]; [done|]. cbn [map concat omap list_omap]. rewrite IH.
  destruct (m !! (h, i)) as [x|]; cbn [fmap option_fmap option_map]; [|done].
  destruct (shown x) eqn:Hx.
  - rewrite filter_cons_True by done. done.
  - rewrite filter_cons_False by (cbn; congruence). done.
Qed.

Lemma concat_singletons {A} (g : A → line) (l : list A) : concat (map (λ x, [g x]) l) = map g l.
Proof. induction l as [|x l IH]; [done|]. cbn. by rewrite IH. Qed.

(** The mapping at [h] shows a pool of the size asked for. *)
Record mapped_pool (h : Z) (o : stat_options) w : Prop := {
  mp_slots i : 0 <= i < so_slots o → is_Some (w_controls w !! (h, i));
  mp_components c : zipc_component_id_valid c = true → is_Some (w_components w !! (h, c)) }.

Lemma wp_stat_report pool o hd w :
  w_headers w !! p_header pool = Some hd → 0 <= so_slots o → mapped_pool (p_header pool) o w →
  wp (stat_report pool o) (λ l w',
    let '(now, e) := zipc_platform_time_ns (w_env w) in
    w' = put_env e w ∧ l = report_of (p_header pool) hd now o w) w.
Proof.
  intros Hh Hn [Hs Hc]. unfold stat_report. apply wp_bind. eapply wp_header_read; [exact Hh|].
  apply wp_bind, wp_env_call. destruct (zipc_platform_time_ns (w_env w)) as [now e]. cbn [fst snd].
  apply wp_bind. eapply wp_mono.
  { apply (wp_print_range _ _ _ _ (λ i, match w_controls w !! (p_header pool, i) with
      | Some s => if shown_slot (so_show_free o) s then slot_lines now i s else []
      | None => [] end)).
    intros i Hi. destruct (Hs i ltac:(lia)) as [s Hsi].
    eapply wp_mono; [by apply wp_stat_slot|]. intros l w' [-> ->]. by rewrite Hsi. }
  intros l w' [-> ->]. apply wp_bind. eapply wp_mono.
  { apply (wp_print_range _ _ _ _ (λ i, match w_components w !! (p_header pool, i) with
      | Some c => if shown_component c then [component_line i c] else []
      | None => [] end)).
    intros i Hi. assert (Hv : zipc_component_id_valid i = true)
      by (apply zipc_component_id_valid_spec; cbn in Hi; lia).
    destruct (Hc i Hv) as [c Hci].
    eapply wp_mono; [by apply wp_stat_component|]. intros l w' [-> ->]. by rewrite Hci. }
  intros l w' [-> ->]. apply wp_ret. split; [done|]. unfold report_of. rewrite Z2Nat.id by done.
  rewrite (concat_shown _ _ (shown_slot (so_show_free o))).
  rewrite (concat_shown _ _ shown_component (λ i c, [component_line i c])).
  by rewrite (concat_singletons (λ x, component_line x.1 x.2)).
Qed.

(** ** The argument loop *)
Lemma stat_parse_u32_range s v : stat_parse_u32 s = Some v → 1 <= v <= UINT32_MAX.
Proof.
  unfold stat_parse_u32.
  destruct (match s with EmptyString => _ | _ => _ end); [|done]. cbn [mbind option_bind].
  destruct (strtoull_at 0 s) as [[[x er] rest]|] eqn:Hs; [|done]. cbn [mbind option_bind].
  apply strtoull_at_range in Hs; [|done].
  destruct (_ || (x =? 0) || (UINT32_MAX <? x)) eqn:Hg; [done|]. intros [= <-].
  rewrite !orb_false_iff, Z.eqb_neq, Z.ltb_ge in Hg. rewrite u32_small by zlia. zlia.
Qed.

Definition options_wf (o : stat_options) : Prop :=
  1 <= so_slots o <= UINT32_MAX ∧ 1 <= so_capacity o <= UINT32_MAX.
(** Read in two parts, the first of which leaves no option without its value. *)
Lemma stat_parse_app args args' o o' :
  stat_parse args o = Options_ok o' → stat_parse (args ++ args') o = stat_parse args' o'.
Proof.
  revert o. induction args as [args IH] using (induction_ltof1 _ (@length _)). unfold ltof in IH.
  intros o. destruct args as [|arg [|value rest]]; cbn [stat_parse app].
  - by intros [= <-].
  - destruct (is_key arg "--name"); [done|]. destruct (is_key arg "--slots"); [done|].
    destruct (is_key arg "--capacity"); [done|]. destruct (is_key arg "--all"); [|done].
    by intros [= <-].
  - assert (IH2 := IH rest ltac:(cbn; lia)). assert (IH1 := IH (value :: rest) ltac:(cbn; lia)).
    destruct (is_key arg "--name"); [apply IH2|].
    destruct (is_key arg "--slots"); [destruct (stat_parse_u32 value); [apply IH2|done]|].
    destruct (is_key arg "--capacity"); [destruct (stat_parse_u32 value); [apply IH2|done]|].
    destruct (is_key arg "--all"); [apply IH1|done].
Qed.
Lemma stat_parse_wf args o o' : options_wf o → stat_parse args o = Options_ok o' → options_wf o'.
Proof.
  revert o. induction args as [args IH] using (induction_ltof1 _ (@length _)). unfold ltof in IH.
  intros o Ho. destruct args as [|arg rest]; cbn [stat_parse]; [by intros [= <-]|].
  assert (IH1 := IH rest ltac:(cbn; lia)).
  assert (IH2 : ∀ v rest', rest = v :: rest' → ∀ o, options_wf o → stat_parse rest' o = Options_ok o' → options_wf o').
  { intros v rest' -> o1. apply IH. cbn. lia. }
  destruct (is_key arg "--name").
  { destruct rest as [|v rest]; [done|]. by eapply IH2. }
  destruct (is_key arg "--slots").
  { destruct rest as [|v rest]; [done|]. destruct (stat_parse_u32 v) as [x|] eqn:Hx; [|done].
    apply stat_parse_u32_range in Hx. eapply IH2; [done|]. by split; [|apply Ho]. }
  destruct (is_key arg "--capacity").
  { destruct rest as [|v rest]; [done|]. destruct (stat_parse_u32 v) as [x|] eqn:Hx; [|done].
    apply stat_parse_u32_range in Hx. eapply IH2; [done|]. by split; [apply Ho|]. }
  destruct (is_key arg "--all"); [|done]. by apply IH1.
Qed.
Lemma stat_pool_cfg_wf memory o : options_wf o → config_wf (stat_pool_cfg memory o).
Proof.
  intros [Hs Hc]. split; cbn [pc_control_offset pc_payload_offset pc_slot_count pc_slot_capacity
    pc_slot_stride pc_payload_alignment stat_pool_cfg]; try zlia.
  pose proof (u64_range (zipc_pool_required_control_size (so_slots o) + 63)) as Hx.
  set (x := u64 (_ + 63)) in *. change (u64 (Z.lnot 63)) with (u64 (Z.lnot (2 ^ 6 - 1))).
  rewrite land_not_mask by zlia. pose proof (Z.mod_pos_bound x (2 ^ 6) ltac:(lia)).
  pose proof (Z.mod_le x (2 ^ 6) ltac:(zlia) ltac:(lia)). zlia.
Qed.

(** The pool that was opened is the one asked for. *)
Definition stat_attachable (e : E) (c : zipc_pool_config_t) (hd : zipc_pool_header_t) : bool :=
  match normalize_config e (Some c) with
  | inl _ => false
  | inr (pm, stride) => attachable e c pm stride hd
  end.

Lemma normalize_not_ok (e : E) c : normalize_config e c ≠ inl ZIPC_OK.
Proof.
  unfold normalize_config, normalize_stride. repeat case_match; congruence.
Qed.

(** The pool carries no protection flags, so attaching changes nothing at all. *)
Lemma wp_stat_attach self memory o hd w :
  self ≠ 0 → options_wf o → w_headers w !! control_base (w_env w) (stat_pool_cfg memory o) = Some hd →
  wp (zipc_pool_attach self (Some (stat_pool_cfg memory o))) (λ r w',
    if stat_attachable (w_env w) (stat_pool_cfg memory o) hd
    then r.1 = ZIPC_OK ∧ w' = w ∧
         ∃ pool, r.2 = Some pool ∧ p_header pool = control_base (w_env w) (stat_pool_cfg memory o)
    else r.1 ≠ ZIPC_OK ∧ w' = put_env (w_env w') w ∧ same_memory (w_env w) (w_env w')) w.
Proof.
  intros Hself Ho Hh. eapply wp_mono; [by apply wp_pool_attach; [apply stat_pool_cfg_wf| |]|].
  intros [st p] w' (Hw & Hm & Hr). unfold stat_attachable. cbn [fst snd] in *.
  destruct (normalize_config _ _) as [st0|[pm stride]] eqn:Hnorm.
  - injection Hr as -> ->. split; [|done]. intros ->. by eapply normalize_not_ok.
  - destruct (attachable _ _ _ _ _); [|by injection Hr as -> ->].
    destruct Hr as [_ Hr]. destruct (status_is st ZIPC_OK) eqn:Hst.
    2: { destruct Hr. by split. }
    apply bool_decide_eq_true in Hst as ->. destruct Hr as (-> & e1 & Hg & Hs).
    cbn in Hg, Hs. split; [done|]. split; [|by eexists].
    rewrite Hw. unfold guards_armed in Hg. cbn in Hg. rewrite Hs, Hg. by destruct w.
Qed.

(** What one run does after the options [o] were read, when opening the memory
    object gave [opened] and left the platform in [e]. *)
Definition stat_outcome (o : stat_options) (hd : zipc_pool_header_t)
    (opened : zipc_status_t + Z) (e : E) w (res : Z * list line) w' : Prop :=
  w' = put_env (w_env w') w ∧
  match opened with
  | inl status => w_env w' = e ∧ res = (1, [Config o; Cannot_open (so_name o) status])
  | inr memory =>
      let c := stat_pool_cfg memory o in
      if stat_attachable e c hd then
        let '(now, e') := zipc_platform_time_ns e in
        w_env w' = platform_memory_close memory e' ∧
        res = (0, Config o :: report_of (control_base e c) hd now o w)
      else
        (∃ e', same_memory e e' ∧ w_env w' = platform_memory_close memory e') ∧
        res = (1, [Config o; Geometry_mismatch (so_name o)])
  end.

(** C39. The inspector only observes: with a readable command line, whatever
    opening the memory object gives, zipc-stat runs to its end without undefined
    behaviour and leaves every header, slot, component entry, ring, buffer and
    payload byte as it was.  It exits with 1 and says why when the object cannot
    be opened or does not hold a pool of the geometry given (having closed it),
    and otherwise closes it and exits with 0 after printing the counters of the
    header, for every slot that is not free (every slot with --all) in order its
    state, owner, age and last events, and for every component that was ever
    registered or recovered its state. *)
Theorem stat_observes self args o hd opened e w :
  self ≠ 0 → stat_parse args stat_defaults = Options_ok o →
  platform_memory_open (stat_memory_cfg o) (w_env w) = (opened, e) →
  (∀ memory, opened = inr memory →
     w_headers w !! control_base e (stat_pool_cfg memory o) = Some hd ∧
     (stat_attachable e (stat_pool_cfg memory o) hd = true →
      mapped_pool (control_base e (stat_pool_cfg memory o)) o w)) →
  wp (stat_main self args) (stat_outcome o hd opened e w) w.
Proof.
  intros Hself Hargs Hopen Hmap. unfold stat_main. rewrite Hargs.
  assert (Ho : options_wf o) by (eapply stat_parse_wf; [|exact Hargs]; done).
  apply wp_bind, wp_env_call. rewrite Hopen. cbn [fst snd].
  destruct opened as [status|memory]; [by apply wp_ret; split_and!; destruct w|].
  destruct (Hmap memory eq_refl) as [Hh Hpool]. apply wp_bind.
  eapply wp_mono; [by apply (wp_stat_attach self memory o hd)|].
  change (w_env (put_env e w)) with e. intros [st p] w1 Hr. cbn [fst snd] in Hr.
  unfold stat_outcome. set (c := stat_pool_cfg memory o) in *.
  destruct (stat_attachable e c hd).
  - destruct Hr as (-> & -> & pool & -> & Hp). status_eval. apply wp_bind, wp_ret, wp_bind.
    eapply wp_mono; [apply (wp_stat_report pool o hd); [by rewrite Hp|destruct Ho; lia|]|].
    { rewrite Hp. destruct (Hpool eq_refl) as [Hs Hc]. by split. }
    change (w_env (put_env e w)) with e. intros l w1 Hl.
    destruct (zipc_platform_time_ns e) as [now e']. destruct Hl as [-> ->].
    apply wp_bind, wp_env_call, wp_ret. rewrite Hp. split; [by destruct w|]. done.
  - destruct Hr as (Hst & Hw & Hm). unfold status_is. rewrite bool_decide_eq_false_2 by done.
    apply wp_bind, wp_env_call, wp_ret. rewrite Hw. split; [by destruct w|].
    split; [|done]. exists (w_env w1). done.
Qed.

(** An option that needs a value but is the last argument is undefined
    behaviour and not the usage message: the comparison that follows reads the
    null pointer behind the last argument. *)
Theorem stat_missing_value self args o key w :
  stat_parse args stat_defaults = Options_ok o → key ∈ ["--name"; "--slots"; "--capacity"] →
  run (stat_main self (args ++ [key])) w = None.
Proof.
  intros Hargs Hkey. unfold stat_main. rewrite (stat_parse_app _ _ _ _ Hargs).
  set_unfold in Hkey. by destruct Hkey as [->|[->|[->|[]]]].
Qed.
End spec.

(** ** A pool of two slots, one of them in use *)
#[export] Instance demo_objects : MemoryObjects demo := {
  platform_memory_open c d :=
    (if default EmptyString (mc_posix_name c) =? "/demo" then inr 1 else inl ZIPC_ERR_PLATFORM, d)%string;
  platform_memory_close _ d := d }.
Definition demo_arguments : list string := ["--name"; "/demo"; "--slots"; "2"; "--capacity"; "0x40"].
Definition demo_options : stat_options := StatOptions "/demo" 2 64 false true true true.
Definition demo_stat_header : zipc_pool_header_t :=
  formatted_header (stat_pool_cfg 1 demo_options) 64.
Definition demo_stat_world : world demo :=
  let w := demo_world_with demo_owned demo_free in
  {| w with
     w_headers := {[1048576 := demo_stat_header]};
     w_components := list_to_map (map (λ c, ((1048576, c), if c =? 7
       then demo_component else zero_component)) (seqZ 0 256));
     w_controls := <[(1048576, 0) := demo_owned]> {[(1048576, 1) := demo_free]} |}.
Lemma demo_mapped : mapped_pool 1048576 demo_options demo_stat_world.
Proof.
  split.
  - change (so_slots demo_options) with 2. intros i Hi.
    assert (i = 0 ∨ i = 1) as [-> | ->] by lia; eexists; reflexivity.
  - intros c Hc%zipc_component_id_valid_spec.
    assert (Hall : Forall (λ c, is_Some (w_components demo_stat_world !! (1048576, c))) (seqZ 0 256))
      by (apply (bool_decide_eq_true_1 _); vm_compute; reflexivity).
    rewrite Forall_forall in Hall. apply Hall, elem_of_seqZ. lia.
Qed.

Lemma stat_observes_witness :
  wp (stat_main 5 demo_arguments) (λ res w',
    res = (0, [Config demo_options; Pool_line 3 2 64 0 0 0 0;
               Slot_line 0 "OWNED" 7 1 1 1 4294967295 16 1 0; Components;
               Component_line 7 1 "ACTIVE" 1 0 0]) ∧
    w_controls w' = w_controls demo_stat_world) demo_stat_world.
Proof.
  eapply wp_mono.
  - refine (stat_observes 5 demo_arguments demo_options demo_stat_header (inr 1) demo_env
      demo_stat_world _ _ _ _); [lia|vm_compute; reflexivity|reflexivity|].
    intros memory [= <-]. split; [vm_compute; reflexivity|]. intros _.
    change (control_base _ _) with 1048576. exact demo_mapped.
  - intros res w' [Hw Hr]. split; [|by rewrite Hw].
    change (stat_attachable _ _ _) with true in Hr. destruct Hr as [_ ->]. vm_compute. reflexivity.
Defined.

Lemma stat_missing_value_witness :
  run (stat_main 5 ["--all"; "--slots"]) demo_stat_world = None.
Proof.
  apply (stat_missing_value 5 ["--all"] {| stat_defaults with so_show_free := true |} "--slots");
    [reflexivity|set_solver].
Defined.
