(* ===== verification/Spawn.v ===== *)
(** * Starting and reaping processes (utilities/zipc-packetrate.c, zipc-ping.c)

    The parent of the two utilities forks one process per component, waits for all
    of them, and signals the others when one fails.  This file has that part of
    [main], the set-up before and the clean-up after it, for the packet-rate
    utility; the processes themselves are [run_sender] and [run_receiver].  The
    system calls are the class [Processes], with the documented behaviour in
    [ProcessLaws]. *)
From Stdlib Require Import String.
From S2P Require Import Prelude Types Packing Prog Store Layout Ring Link LinuxTransport.
From S2P Require Import Backends LinuxMemory Packetrate Demo.
#[local] Open Scope list_scope.

(** [waitpid(-1, &status, 0)]: EINTR, another error, or the child and whether it
    exited with EXIT_SUCCESS. *)
Inductive wait_answer := WaitInterrupted | WaitFailed | Finished (pid : Z) (success : bool).

Class Processes (E : Type) := {
  (** The children that were not waited for yet. *)
  ps_children : E → list Z;
  (** What the parent gets: the child's pid, negative on failure. *)
  ps_fork : E → Z * E;
  ps_kill : Z → E → E;
  ps_waitpid_any : E → wait_answer * E;
  (** [waitpid(pid, NULL, 0)]: whether it was interrupted. *)
  ps_waitpid : Z → E → bool * E;
  ps_pipe : E → option (Z * Z) * E;
  ps_close : Z → E → E;
  (** [calloc]: whether there was memory. *)
  ps_calloc : Z → E → bool * E }.

Section parent.
Context {E : Type} `{Platform E} `{Processes E}.

(** [kill(pid, SIGTERM)].  A pid that is not one of our unreaped children may
    belong to a stranger by now: such a signal is a fault. *)
Definition kill (pid : Z) : prog (world E) () :=
  act (λ w, if decide (pid ∈ ps_children (w_env w))
            then Some (tt, put_env (ps_kill pid (w_env w)) w) else None).
Fixpoint kill_all (pids : list Z) : prog (world E) () :=
  match pids with [] => mret () | p :: pids => kill p;; kill_all pids end.
Definition close_fd (fd : Z) : prog (world E) () := env_call (λ e, (tt, ps_close fd e)).

(** The loop over the components in the parent: the result, [spawned] and the
    array [children]. *)
Fixpoint spawn (n index : nat) (children : list Z) : prog (world E) (exit_code * nat * list Z) :=
  match n with
  | O => mret (EXIT_SUCCESS, index, children)
  | S n =>
      pid ← env_call ps_fork;
      let children := <[index := pid]> children in
      if pid <? 0 then
        kill_all (take index children);;
        mret (EXIT_FAILURE, index, children)
      else spawn n (S index) children
  end.

(** [children[i] = 0] at the first [i] with [children[i] == finished]. *)
Fixpoint clear_child (finished : Z) (children : list Z) : list Z :=
  match children with
  | [] => []
  | c :: children => if c =? finished then 0 :: children else c :: clear_child finished children
  end.
Definition running (children : list Z) : list Z := filter (λ c, 0 < c) children.

(** The waiting loop over the first [limit] children; [None] when the fuel runs
    out. *)
Definition reap_turn (limit : nat) (s : nat * list Z * exit_code)
    : prog (world E) ((nat * list Z * exit_code) + (list Z * exit_code)) :=
  let '(remaining, children, result) := s in
  match remaining with
  | O => mret (inr (children, result))
  | S remaining' =>
      answer ← env_call ps_waitpid_any;
      match answer with
      | WaitInterrupted => mret (inl s)
      | WaitFailed => mret (inr (children, EXIT_FAILURE))
      | Finished finished success =>
          let children := clear_child finished (take limit children) ++ drop limit children in
          if success : bool then mret (inl (remaining', children, result))
          else
          kill_all (running (take limit children));;
          mret (inl (remaining', children, EXIT_FAILURE))
      end
  end.
Definition reap (fuel limit spawned : nat) (children : list Z) (result : exit_code)
    : prog (world E) (list Z * exit_code) :=
  r ← loop_with fuel (reap_turn limit) (spawned, children, result);
  returned r.

(** The end of the clean-up: whoever is left is signalled and waited for. *)
Definition reap_rest (fuel : nat) (children : list Z) : prog (world E) () :=
  r ← for_range (length children) 0 (λ i,
    let c := nth (Z.to_nat i) children 0 in
    if c <=? 0 then mret None
    else
    kill c;;
    r ← loop fuel (again ← env_call (ps_waitpid c); mret (if again : bool then None else Some tt));
    returned r;; mret (@None ()));
  mret ().

(** From the first fork to the last wait, closing the pipes in between. *)
Definition run_processes (fuel component_count : nat) (pipes : list Z)
    : prog (world E) (nat * list Z * exit_code) :=
  '(result, spawned, children) ← spawn component_count 0 (repeat 0 component_count);
  for_range (length pipes) 0 (λ i, close_fd (nth (Z.to_nat i) pipes 0);; mret (@None ()));;
  '(children, result) ← reap fuel spawned spawned children result;
  mret (spawned, children, result).
End parent.

(** ** The packet-rate utility as a whole *)
Section bench.
Context {E : Type} `{Platform E} `{Heap E} `{LinuxOs E} `{MemoryObjects E} `{Processes E}.
Abbreviation edge := (edge_link_t zipc_platform_transport_t).
(** The names printed from the process identifier, and the address of [pool]. *)
Context (fuel : nat) (shm_name : string) (endpoint : Z → string) (self : Z).

(** The loop over the edges: [false] is [goto cleanup]; [n] edges are left. *)
Fixpoint open_edges (pool : zipc_pool_t) (name : string) (slot_count : Z) (n : nat) (index : Z)
    : prog (world E) (bool * list edge) :=
  match n with
  | O => mret (true, [])
  | S n =>
      '(ok, e) ← open_edge fuel pool name (endpoint index) slot_count index;
      if negb ok then mret (false, e :: repeat zero_edge n)
      else
      '(ok, es) ← open_edges pool name slot_count n (index + 1);
      mret (ok, e :: es)
  end.

(** From the open memory object to the edges: whether all of it worked, and the
    edges as the code leaves them. *)
Definition bench_setup (o : options) (b : bench) (memory : Z) : prog (world E) (bool * list edge) :=
  let cfg := bench_pool memory b in
  status ← zipc_pool_format (Some cfg);
  if negb (status_is status ZIPC_OK) then mret (false, [])
  else
  '(status, pool) ← zipc_pool_attach self (Some cfg);
  if negb (status_is status ZIPC_OK) then mret (false, [])
  else
  pool ← returned pool;
  edges ← env_call (ps_calloc (be_edge_count b));
  if negb edges then mret (false, [])
  else
  children ← env_call (ps_calloc (be_component_count b));
  if negb children then mret (false, repeat zero_edge (Z.to_nat (be_edge_count b)))
  else open_edges pool (o_transport_name o) (be_slot_count b) (Z.to_nat (be_edge_count b)) 0.

(** The label [cleanup]; the pipes are [ready_pipe] and [done_pipe], interleaved. *)
Definition bench_cleanup (memory : Z) (pipes : list Z) (edges : list edge) (children : list Z)
    : prog (world E) () :=
  reap_rest fuel children;;
  for_range (length pipes) 0 (λ i,
    (if 0 <=? nth (Z.to_nat i) pipes (-1) then close_fd (nth (Z.to_nat i) pipes (-1)) else mret ());;
    mret (@None ()));;
  for_range (length edges) 0 (λ i,
    edge_link_cleanup fuel (nth (Z.to_nat i) edges zero_edge);; mret (@None ()));;
  if memory =? 0 then mret () else env_call (λ e, (tt, platform_memory_close memory e)).

Definition bench_main (args : list string) : prog (world E) exit_code :=
  match parse_arguments args default_options with
  | None => mret EXIT_FAILURE
  | Some o =>
  match bench_plan o with
  | None => mret EXIT_FAILURE
  | Some b =>
  opened ← env_call (platform_memory_open (posix_config shm_name (be_shm_size b) true true));
  match opened with
  | inl _ => bench_cleanup 0 [] [] [];; mret EXIT_FAILURE
  | inr memory =>
  '(ok, edges) ← bench_setup o b memory;
  if negb ok then bench_cleanup memory [] edges [];; mret EXIT_FAILURE
  else
  ready_pipe ← env_call ps_pipe;
  match ready_pipe with
  | None => bench_cleanup memory [] edges [];; mret EXIT_FAILURE
  | Some (ready_read, ready_write) =>
  done_pipe ← env_call ps_pipe;
  match done_pipe with
  | None => bench_cleanup memory [ready_read; ready_write] edges [];; mret EXIT_FAILURE
  | Some (done_read, done_write) =>
  '(spawned, children, result) ← run_processes fuel (Z.to_nat (be_component_count b))
      [ready_read; ready_write; done_read; done_write];
  bench_cleanup memory [-1; -1; -1; -1] edges (take spawned children);;
  mret result
  end
  end
  end
  end
  end.
End bench.

(** ** The documented behaviour of the calls *)
Class ProcessLaws (E : Type) `{Processes E} := {
  (** The statuses collected so far, newest first. *)
  ps_exits : E → list bool;
  (** A bound on how often [waitpid] is still interrupted. *)
  ps_interrupts : E → nat;
  ps_fork_law e : let '(pid, e') := ps_fork e in
    ps_exits e' = ps_exits e ∧ (ps_interrupts e' ≤ ps_interrupts e)%nat ∧
    (pid < 0 ∧ ps_children e' = ps_children e ∨ 0 < pid ∧ ps_children e' = pid :: ps_children e);
  ps_kill_law pid e : ps_children (ps_kill pid e) = ps_children e ∧
    ps_exits (ps_kill pid e) = ps_exits e ∧ (ps_interrupts (ps_kill pid e) ≤ ps_interrupts e)%nat;
  ps_close_law fd e : ps_children (ps_close fd e) = ps_children e ∧
    ps_exits (ps_close fd e) = ps_exits e ∧ (ps_interrupts (ps_close fd e) ≤ ps_interrupts e)%nat;
  (** Waiting for any child fails only when there is none; otherwise one of the
      children is collected with its status. *)
  ps_waitpid_law e : let '(answer, e') := ps_waitpid_any e in
    match answer with
    | WaitInterrupted => ps_children e' = ps_children e ∧ ps_exits e' = ps_exits e ∧
        (ps_interrupts e' < ps_interrupts e)%nat
    | WaitFailed => ps_children e = []
    | Finished pid success => 0 < pid ∧ ps_children e ≡ₚ pid :: ps_children e' ∧
        ps_exits e' = success :: ps_exits e ∧ (ps_interrupts e' ≤ ps_interrupts e)%nat
    end }.

Section spec.
Context {E : Type} `{Platform E} `{ProcessLaws E}.
Implicit Type w : world E.
Implicit Type e : E.

(** The same children and statuses. *)
Definition same_table e e' : Prop :=
  ps_children e' = ps_children e ∧ ps_exits e' = ps_exits e ∧ (ps_interrupts e' ≤ ps_interrupts e)%nat.
Lemma same_table_refl e : same_table e e.
Proof. done. Qed.
Lemma same_table_trans e1 e2 e3 : same_table e1 e2 → same_table e2 e3 → same_table e1 e3.
Proof. intros (Ha & Hb & Hc) (Hd & He & Hf). split_and!; [congruence..|lia]. Qed.

Lemma wp_kill_all pids w :
  Forall (λ p, p ∈ ps_children (w_env w)) pids →
  wp (kill_all pids) (λ _ w', ∃ e, w' = put_env e w ∧ same_table (w_env w) e) w.
Proof.
  revert w. induction pids as [|p pids IH]; intros w; cbn [kill_all].
  { intros _. apply wp_ret. exists (w_env w). split; [by destruct w|apply same_table_refl]. }
  intros [Hp Hps]%Forall_cons. apply wp_bind. unfold kill.
  eapply wp_act; [by rewrite decide_True|]. pose proof (ps_kill_law p (w_env w)) as Hk.
  eapply wp_mono.
  { apply IH. eapply Forall_impl; [exact Hps|]. intros q Hq. cbn. by rewrite (proj1 Hk). }
  intros [] w' (e & -> & He). exists e. split; [by destruct w|]. by eapply same_table_trans.
Qed.

(** ** Forking *)

(** [spawned] children run, at the front of the array; the rest of it has none. *)
Record started (spawned : nat) (children : list Z) e : Prop := {
  st_running : Forall (λ c, 0 < c) (take spawned children);
  st_children : take spawned children ≡ₚ ps_children e;
  st_rest : Forall (λ c, c <= 0) (drop spawned children) }.

Lemma started_none n e : ps_children e = [] → started 0 (repeat 0 n) e.
Proof.
  intros Hnone. split; rewrite ?take_0, ?drop_0, ?Hnone; [constructor|done|].
  apply Forall_forall. intros c Hc%list_elem_of_In%repeat_spec. lia.
Qed.
Lemma wp_spawn n index children w :
  length children = (index + n)%nat → started index children (w_env w) →
  wp (spawn n index children) (λ '(result, spawned, children') w', ∃ e,
    w' = put_env e w ∧ started spawned children' e ∧ (spawned ≤ index + n)%nat ∧
    length children' = length children ∧
    (result = EXIT_SUCCESS ↔ spawned = index + n)%nat ∧
    ps_exits e = ps_exits (w_env w) ∧ (ps_interrupts e ≤ ps_interrupts (w_env w))%nat) w.
Proof.
  revert index children w. induction n as [|n IH]; intros index children w Hlen Hst; cbn [spawn].
  { apply wp_ret. exists (w_env w). rewrite Nat.add_0_r. by split_and!; destruct w. }
  apply wp_bind, wp_env_call. pose proof (ps_fork_law (w_env w)) as Hfork.
  destruct (ps_fork (w_env w)) as [pid e1]. cbn [fst snd]. destruct Hfork as (Hx & Hi & Hpid).
  destruct Hst as [Hrun Hch Hrest].
  assert (Htake : take index (<[index := pid]> children) = take index children)
    by (by rewrite take_insert_ge).
  destruct (Z.ltb_spec pid 0) as [Hneg|Hpos].
  - destruct Hpid as [[_ Hsame]|[? _]]; [|lia]. apply wp_bind. rewrite Htake.
    eapply wp_mono; [apply wp_kill_all|].
    { apply Forall_forall. intros c Hc. cbn. rewrite Hsame, <- Hch. done. }
    intros [] w' (e & -> & Hk1 & Hk2 & Hk3). apply wp_ret. cbn in Hk1, Hk2, Hk3. exists e.
    split_and!; [by destruct w| |lia|by rewrite length_insert| |congruence|lia].
    + split; rewrite ?Htake; [done|by rewrite Hk1, Hsame|].
      rewrite drop_insert_ge, Nat.sub_diag by lia.
      destruct (drop index children) as [|c cs]; [done|]. apply Forall_cons in Hrest as [_ Hr].
      cbn. constructor; [lia|done].
    + split; [done|lia].
  - destruct Hpid as [[? _]|[Hp Hnew]]; [lia|].
    assert (Hlook : (<[index := pid]> children) !! index = Some pid)
      by (apply list_lookup_insert_eq; lia).
    eapply wp_mono; [apply IH|].
    + rewrite length_insert. lia.
    + cbn [put_env w_env]. split; rewrite ?(take_S_r _ _ _ Hlook), ?Htake.
      * by apply Forall_app; split; [|apply Forall_singleton].
      * by rewrite Hnew, Hch, Permutation_app_comm.
      * rewrite drop_insert_lt by lia. replace (S index) with (index + 1)%nat by lia.
        rewrite <- drop_drop. by apply Forall_drop.
    + intros [[result spawned] children'] w' (e & -> & Hst' & Hle & Hl & Hres & Hex & Hint).
      exists e. cbn in *. split_and!; [by destruct w|done|lia|by rewrite Hl, length_insert| |congruence|lia].
      rewrite Hres. lia.
Qed.

(** ** Waiting *)
Lemma clear_child_running p l :
  0 < p → p ∈ running l → running l ≡ₚ p :: running (clear_child p l).
Proof.
  intros Hp. unfold running. induction l as [|c l IH]; [by intros ?%elem_of_nil|].
  cbn [clear_child]. destruct (Z.eqb_spec c p) as [->|Hne].
  - intros _. by rewrite filter_cons_True, filter_cons_False by lia.
  - destruct (decide (0 < c)) as [Hc|Hc].
    + rewrite !filter_cons_True by done. intros [?|Hin]%elem_of_cons; [congruence|].
      rewrite (IH Hin). by constructor.
    + rewrite !filter_cons_False by done. exact IH.
Qed.
Lemma length_clear_child p l : length (clear_child p l) = length l.
Proof. induction l as [|c l IH]; cbn; [done|]. destruct (c =? p); cbn; congruence. Qed.

(** The processes that are left are those the array still has. *)
Definition waiting (limit remaining : nat) (children : list Z) e : Prop :=
  running (take limit children) ≡ₚ ps_children e ∧ remaining = length (ps_children e).

Lemma waiting_collect limit children p e e' :
  0 < p → ps_children e ≡ₚ p :: ps_children e' → running (take limit children) ≡ₚ ps_children e →
  let children' := clear_child p (take limit children) ++ drop limit children in
  take limit children' = clear_child p (take limit children) ∧
  running (take limit children') ≡ₚ ps_children e'.
Proof.
  intros Hp Hc Hr children'.
  assert (Htake : take limit children' = clear_child p (take limit children)).
  { unfold children'. destruct (decide (limit <= length children)%nat) as [Hle|Hgt].
    - rewrite take_app_length'; [done|]. rewrite length_clear_child, length_take. lia.
    - rewrite (drop_ge children), app_nil_r by lia.
      apply take_ge. rewrite length_clear_child, length_take. lia. }
  split; [done|]. rewrite Htake. apply (Permutation_cons_inv (a := p)).
  rewrite <- clear_child_running; [by rewrite Hr|done|]. rewrite Hr, Hc. left.
Qed.

Lemma wp_reap_loop fuel limit remaining children result w :
  waiting limit remaining children (w_env w) →
  (remaining + ps_interrupts (w_env w) < fuel)%nat →
  wp (loop_with fuel (reap_turn limit) (remaining, children, result)) (λ r w', ∃ children' result' e exits,
    r = Some (children', result') ∧ w' = put_env e w ∧ ps_children e = [] ∧
    running (take limit children') = [] ∧
    ps_exits e = exits ++ ps_exits (w_env w) ∧ length exits = remaining ∧
    (result' = EXIT_SUCCESS ↔ result = EXIT_SUCCESS ∧ Forall (λ b, b = true) exits)) w.
Proof.
  revert remaining children result w. induction fuel as [|fuel IH];
    intros remaining children result w [Hr Hn] Hf; [lia|]. cbn [loop_with].
  apply wp_bind. unfold reap_turn at 1. destruct remaining as [|remaining].
  { apply wp_ret, wp_ret. symmetry in Hn. apply nil_length_inv in Hn. rewrite Hn in Hr.
    exists children, result, (w_env w), []. split_and!; try done; [by destruct w| |].
    - by apply Permutation_nil_r.
    - split; [|by intros [-> _]]. intros ->. by split. }
  apply wp_bind, wp_env_call. pose proof (ps_waitpid_law (w_env w)) as Hw.
  destruct (ps_waitpid_any (w_env w)) as [answer e1]. cbn [fst snd]. destruct answer as [| |p ok].
  - destruct Hw as (Hc & Hx & Hi). apply wp_ret. eapply wp_mono; [apply IH|].
    + split; cbn; by rewrite Hc.
    + cbn. lia.
    + intros r w' (c' & r' & e & exits & -> & -> & Hrest). exists c', r', e, exits.
      split; [done|]. split; [by destruct w|]. cbn in Hrest. by rewrite Hx in Hrest.
  - rewrite Hw in Hn. done.
  - destruct Hw as (Hp & Hc & Hx & Hi). destruct (waiting_collect limit children p (w_env w) e1 Hp Hc Hr)
      as [Htake Hrun].
    set (children' := clear_child p (take limit children) ++ drop limit children) in *.
    assert (Hlen : remaining = length (ps_children e1))
      by (pose proof (Permutation_length Hc) as Hl; cbn in Hl; lia).
    assert (Hgo : ∀ res e2, same_table e1 e2 →
      wp (loop_with fuel (reap_turn limit) (remaining, children', res)) (λ r w', ∃ c' r' e exits,
        r = Some (c', r') ∧ w' = put_env e w ∧ ps_children e = [] ∧ running (take limit c') = [] ∧
        ps_exits e = exits ++ ok :: ps_exits (w_env w) ∧ length exits = remaining ∧
        (r' = EXIT_SUCCESS ↔ res = EXIT_SUCCESS ∧ Forall (λ b, b = true) exits)) (put_env e2 w)).
    { intros res e2 (Hc2 & Hx2 & Hi2). eapply wp_mono; [apply IH|].
      - split; cbn; by rewrite Hc2.
      - cbn. lia.
      - intros r w' (c' & r' & e & exits & -> & -> & He & Hru & Hex & Hrest).
        exists c', r', e, exits. cbn in Hex. rewrite Hx2, Hx in Hex. split; [done|]. split; [by destruct w|]. done. }
    destruct ok.
    + apply wp_ret. eapply wp_mono; [by apply (Hgo result e1)|].
      intros r w' (c' & r' & e & exits & -> & -> & He & Hru & Hex & Hl & Hres).
      exists c', r', e, (exits ++ [true]). rewrite length_app, Forall_app, Forall_singleton, <- app_assoc.
      do 5 (split; [done|]). split; [cbn; lia|]. rewrite Hres.
      split; [by intros [? ?]|by intros (? & ? & _)].
    + apply wp_bind. eapply wp_mono; [apply wp_kill_all|].
      { apply Forall_forall. intros c Hin. cbn. by rewrite <- Hrun. }
      intros [] w1 (e2 & -> & Ht). apply wp_ret.
      eapply wp_mono; [by apply (Hgo EXIT_FAILURE e2)|].
      intros r w' (c' & r' & e & exits & -> & -> & He & Hru & Hex & Hl & Hres).
      exists c', r', e, (exits ++ [false]). rewrite length_app, Forall_app, Forall_singleton, <- app_assoc.
      split; [done|]. split; [by destruct w|]. do 3 (split; [done|]). split; [cbn; lia|]. rewrite Hres.
      split; [by intros [? _]|by intros (_ & _ & ?)].
Qed.

Lemma wp_close_all pipes w :
  wp (for_range (length pipes) 0 (λ i, close_fd (nth (Z.to_nat i) pipes 0);; mret (@None ())))
    (λ _ w', ∃ e, w' = put_env e w ∧ same_table (w_env w) e) w.
Proof.
  apply (wp_for_range (λ _ w', ∃ e, w' = put_env e w ∧ same_table (w_env w) e)); [|..|done].
  - exists (w_env w). split; [by destruct w|apply same_table_refl].
  - intros i w1 _ (e & -> & He). apply wp_bind, wp_env_call, wp_ret. eexists. split; [by destruct w|].
    cbn. eapply same_table_trans; [exact He|apply ps_close_law].
Qed.

(** Nobody left, nobody signalled. *)
Lemma wp_reap_rest_none fuel children w :
  running children = [] → wp (reap_rest fuel children) (λ _ w', w' = w) w.
Proof.
  intros Hr. unfold reap_rest. apply wp_bind.
  eapply wp_mono; [apply (wp_for_range (λ _ w', w' = w) _ (λ r w', r = None ∧ w' = w))|].
  - done.
  - intros i w1 Hi ->. destruct (Z.leb_spec (nth (Z.to_nat i) children 0) 0) as [_|Hpos]; [by apply wp_ret|].
    assert (Hin : nth (Z.to_nat i) children 0 ∈ running children).
    { apply list_elem_of_filter. split; [done|]. apply list_elem_of_In, nth_In. lia. }
    rewrite Hr in Hin. by apply elem_of_nil in Hin.
  - done.
  - intros r w1 [-> ->]. by apply wp_ret.
Qed.

(** C18. The parent of the packet-rate utility collects every process it starts:
    with no child of its own before, whatever forks fail and however the processes
    end, it never signals anything but a process it has started and not yet
    collected (so never a stranger that got a recycled pid), it finishes with no
    child left, and its result is EXIT_SUCCESS exactly when every fork worked and
    every process exited with success.  The clean-up then finds nobody to signal. *)
Theorem processes_collected fuel n pipes w :
  ps_children (w_env w) = [] → (n + ps_interrupts (w_env w) < fuel)%nat →
  wp (run_processes fuel n pipes) (λ '(spawned, children, result) w',
    ∃ e exits, w' = put_env e w ∧ ps_children e = [] ∧
      ps_exits e = exits ++ ps_exits (w_env w) ∧ length exits = spawned ∧
      (result = EXIT_SUCCESS ↔ exits = repeat true n) ∧
      wp (reap_rest fuel (take spawned children)) (λ _ w'', w'' = w') w') w.
Proof.
  intros Hnone Hfuel. unfold run_processes. apply wp_bind. eapply wp_mono.
  { apply (wp_spawn n 0 (repeat 0 n)); [by rewrite repeat_length|by apply started_none]. }
  intros [[result spawned] children] w1 (e1 & -> & [Hrun Hch Hrest] & Hle & Hlc & Hres & Hex & Hint).
  rewrite repeat_length in Hlc.
  apply wp_bind. eapply wp_mono; [apply wp_close_all|]. intros r w2 (e2 & -> & Hc2 & Hx2 & Hi2).
  cbn in Hc2, Hx2, Hi2. apply wp_bind. unfold reap. apply wp_bind.
  assert (Hall : running (take spawned children) = take spawned children).
  { clear -Hrun. unfold running. induction Hrun as [|c l Hc _ IH]; [done|]. by rewrite filter_cons_True, IH. }
  eapply wp_mono; [apply (wp_reap_loop fuel spawned spawned children result)|].
  - split; cbn; rewrite Hc2.
    + by rewrite Hall.
    + rewrite <- (Permutation_length Hch). rewrite length_take. lia.
  - cbn. lia.
  - intros r0 w3 (c' & r' & e & exits & -> & -> & He & Hru & Hexits & Hlen & Hiff).
    apply wp_ret, wp_ret. cbn in Hexits. exists e, exits. rewrite Hexits, Hx2, Hex.
    split; [by destruct w|]. do 3 (split; [done|]). split; [|by apply wp_reap_rest_none].
    rewrite Hiff, Hres, <- Hlen. split.
    + cbn. intros [<- Ht]. clear -Ht. induction Ht as [|b exits -> _ IH]; cbn; [done|by rewrite <- IH].
    + intros ->. rewrite repeat_length. split; [done|]. apply Forall_forall.
      by intros b Hb%list_elem_of_In%repeat_spec.
Qed.
End spec.

(** ** Three processes, of which the second fails *)
Record demo_os := DemoOs {
  do_next : positive;
  do_running : list positive;
  do_collected : list bool;
  do_interrupts : nat }.
(** The pids count up; the youngest child ends first, and pid 101 fails. *)
#[export] Instance demo_os_calls : Processes demo_os := {
  ps_children o := Z.pos <$> do_running o;
  ps_fork o := (Z.pos (do_next o), DemoOs (Pos.succ (do_next o)) (do_next o :: do_running o)
                  (do_collected o) (do_interrupts o));
  ps_kill _ o := o;
  ps_waitpid_any o :=
    match do_interrupts o, do_running o with
    | S k, _ => (WaitInterrupted, DemoOs (do_next o) (do_running o) (do_collected o) k)
    | O, p :: ps =>
        let ok := negb (Pos.eqb p 101) in
        (Finished (Z.pos p) ok, DemoOs (do_next o) ps (ok :: do_collected o) 0)
    | O, [] => (WaitFailed, o)
    end;
  ps_waitpid _ o := (false, o);
  ps_pipe o := (Some (5, 6), o);
  ps_close _ o := o;
  ps_calloc _ o := (true, o) }.
#[export] Instance demo_os_laws : ProcessLaws demo_os.
Proof.
  refine {| ps_exits := do_collected; ps_interrupts := do_interrupts |}; try done.
  - intros [next run coll int]. cbn. split_and!; [done|lia|]. right. split; [lia|done].
  - intros [next run coll [|k]]; cbn; [|by split_and!; [..|lia]].
    destruct run as [|p run]; cbn; [done|]. split_and!; [lia|done|done|lia].
Defined.
Definition demo_os_world : world demo_os :=
  World ∅ ∅ ∅ ∅ ∅ ∅ false [] (λ _, 0) [] (DemoOs 100 [] [] 2).
Lemma processes_collected_witness :
  option_map fst (run (run_processes 6 3 [5; 6; 7; 8]) demo_os_world)
    = Some (3%nat, [0; 0; 0], EXIT_FAILURE) ∧
  wp (run_processes 6 3 [5; 6; 7; 8]) (λ _ w', ps_children (w_env w') = []) demo_os_world.
Proof.
  split; [vm_compute; reflexivity|]. eapply wp_mono.
  - apply (processes_collected 6 3 [5; 6; 7; 8] demo_os_world); [reflexivity|cbn; lia].
  - intros [[spawned children] result] w' (e & exits & -> & Hc & _). exact Hc.
Defined.
