(* ===== verification/Ping.v ===== *)
(** * The round-trip utility (utilities/zipc-ping.c)

    A chain of components with a link in each direction between neighbours.  The
    first sends a probe, the others stamp it with their arrival and departure
    times and pass it on, the last sends it back, and the first measures the round
    trip.  A duration on the command line is used through what the code derives
    from it: the poll timeout in milliseconds and whether to sleep at all; its
    parsing as a floating-point number is left out.  What is printed of a reply is
    a value of [ping_line]. *)
From Stdlib Require Import String Ascii.
From S2P Require Import Prelude Types Packing Prog Store Layout Slot Ring Buffer Link.
From S2P Require Import LinuxTransport Backends LinuxMemory TopologyText Packetrate Spawn.
#[local] Open Scope list_scope.

(** ** Constants and the payload *)
Definition MAX_COMPONENTS : Z := 16.
Definition RING_DEPTH : Z := 64.
Definition SLOT_COUNT : Z := 32.
Definition SLOT_SIZE : Z := 4096.
Definition SHM_SIZE : Z := 256 * 1024.

(** [ping_payload_t]: the offsets of its fields and its size. *)
Definition sequence_at : Z := 0.
Definition component_count_at : Z := 8.
Definition depart_ns_at (i : Z) : Z := 16 + 8 * i.
Definition arrival_ns_at (i : Z) : Z := 16 + 8 * MAX_COMPONENTS + 8 * i.
Definition sizeof_ping_payload_t : Z := 16 + 8 * MAX_COMPONENTS + 8 * MAX_COMPONENTS.

(** An integer of [n] bytes in memory, least significant byte first. *)
Definition le_bytes (n : nat) (v : Z) : list Z :=
  map (λ i, Z.land (Z.shiftr v (8 * Z.of_nat i)) 255) (seq 0 n).
Definition le_value (bytes : list Z) : Z := foldr (λ b v, b + 256 * v) 0 bytes.

(** A new probe: zeroed, then [sequence], [component_count] and [depart_ns[0]]. *)
Definition probe_payload (it component_count now : Z) : list Z :=
  le_bytes 8 it ++ le_bytes 4 component_count ++ repeat 0 4 ++ le_bytes 8 now ++
  repeat 0 (Z.to_nat (sizeof_ping_payload_t - 24)).

(** ** Edges *)
Record ping_edge_t (T : Type) := PingEdge {
  pe_ring : Z;
  pe_event_fd : Z;
  pe_sender : option (zipc_link_t T);
  pe_receiver : option (zipc_link_t T) }.
Arguments PingEdge {T} _ _ _ _.
Arguments pe_ring {T} _.
Arguments pe_event_fd {T} _.
Arguments pe_sender {T} _.
Arguments pe_receiver {T} _.
Definition zero_ping_edge {T} : ping_edge_t T := PingEdge 0 (-1) None None.

(** ** The command line *)
Definition parse_unsigned (text : string) : option Z :=
  match text with
  | String c _ => if (code c =? 45) || isspace c then None else Some tt
  | EmptyString => Some tt
  end;;
  '(parsed, erange, rest) ← strtoull_at 0 text;
  if (erange : bool) || negb (empty rest) || (UINT32_MAX <? parsed) then None else Some (u32 parsed).

(** The durations are what [parse_seconds] makes of their texts. *)
Record ping_options (D : Type) := PingOptions {
  po_relay_count : Z;
  po_iterations : Z;
  po_interval : D;
  po_timeout : D }.
Arguments PingOptions {D} _ _ _ _.
Arguments po_relay_count {D} _.
Arguments po_iterations {D} _.
Arguments po_interval {D} _.
Arguments po_timeout {D} _.

Section arguments.
Context {D : Type} (parse_interval parse_timeout : string → option D).

(** [None] is the usage message and EXIT_FAILURE. *)
Fixpoint ping_arguments (args : list string) (o : ping_options D) : option (ping_options D) :=
  match args with
  | [] => Some o
  | [_] => None
  | name :: value :: args =>
      if is_key name "--relays" then
        v ← parse_unsigned value; ping_arguments args {| o with po_relay_count := v |}
      else if is_key name "--count" then
        v ← parse_unsigned value; ping_arguments args {| o with po_iterations := v |}
      else if is_key name "--interval" then
        v ← parse_interval value; ping_arguments args {| o with po_interval := v |}
      else if is_key name "--timeout" then
        v ← parse_timeout value; ping_arguments args {| o with po_timeout := v |}
      else None
  end.
Definition ping_accepts (o : ping_options D) : bool :=
  negb ((MAX_COMPONENTS - 2 <? po_relay_count o) || (po_iterations o =? 0)).
Definition ping_component_count (o : ping_options D) : Z := u32 (po_relay_count o + 2).
End arguments.

(** ** The pool and the edges *)
Definition ping_pool (memory : Z) : zipc_pool_config_t :=
  {| pc_control_memory := memory;
     pc_control_offset := 0;
     pc_payload_memory := 0;
     pc_payload_offset :=
       Z.land (u64 (zipc_pool_required_control_size SLOT_COUNT + 63)) (u64 (Z.lnot 63));
     pc_slot_count := SLOT_COUNT;
     pc_slot_capacity := SLOT_SIZE;
     pc_slot_stride := SLOT_SIZE;
     pc_payload_alignment := 64;
     pc_flags := 0;
     pc_pool_id := 0 |}.

(** [src] and [dst] of the direction [d] of an edge. *)
Definition ping_src (forward : bool) (edge : Z) : Z := if forward then u32 (edge + 1) else u32 (edge + 2).
Definition ping_dst (forward : bool) (edge : Z) : Z := if forward then u32 (edge + 2) else u32 (edge + 1).

Section edges.
Context {E : Type} `{Platform E} `{Heap E} `{LinuxOs E} (fuel : nat).
Abbreviation edge := (ping_edge_t zipc_platform_transport_t).
#[local] Instance ping_transport : Transport E zipc_platform_transport_t := linux_transport fuel.

Definition ping_edge_cleanup (e : edge) (ring_size : Z) : prog (world E) () :=
  zipc_link_destroy (pe_receiver e);;
  zipc_link_destroy (pe_sender e);;
  (if 0 <=? pe_event_fd e then os_do (os_close (pe_event_fd e)) else mret ());;
  (if negb (pe_ring e =? 0) then os_do (os_munmap (pe_ring e) ring_size) else mret ()).

(** One direction of an edge: [false] is [goto cleanup]. *)
Definition open_direction (pool : zipc_pool_t) (ring_size index : Z) (forward : bool)
    : prog (world E) (bool * edge) :=
  mapped ← env_call (os_mmap ring_size);
  match mapped with
  | None => mret (false, zero_ping_edge)
  | Some ring =>
  let e : edge := PingEdge ring (-1) None None in
  ring_create ring RING_DEPTH;;
  status ← zipc_transport_spsc_ring_initialize ring RING_DEPTH;
  if negb (status_is status ZIPC_OK) then mret (false, e)
  else
  event_fd ← env_call os_eventfd;
  let e := {| e with pe_event_fd := event_fd |} in
  if event_fd <? 0 then mret (false, e)
  else
  let transport := ring_transport_config ring event_fd RING_DEPTH in
  let src := u16 (ping_src forward index) in
  let dst := u16 (ping_dst forward index) in
  '(status, sender) ← zipc_link_create (Some (end_config pool src dst transport));
  if negb (status_is status ZIPC_OK) then mret (false, e)
  else
  let e := {| e with pe_sender := sender |} in
  '(status, receiver) ← zipc_link_create (Some (end_config pool dst src transport));
  if negb (status_is status ZIPC_OK) then mret (false, e)
  else mret (true, {| e with pe_receiver := receiver |})
  end.

(** Both directions of every edge; [n] edges are left. *)
Fixpoint open_chain (pool : zipc_pool_t) (ring_size : Z) (n : nat) (index : Z)
    : prog (world E) (bool * list edge * list edge) :=
  match n with
  | O => mret (true, [], [])
  | S n =>
      let rest := repeat zero_ping_edge n in
      '(ok, f) ← open_direction pool ring_size index true;
      if negb ok then mret (false, f :: rest, zero_ping_edge :: rest)
      else
      '(ok, r) ← open_direction pool ring_size index false;
      if negb ok then mret (false, f :: rest, r :: rest)
      else
      '(ok, fs, rs) ← open_chain pool ring_size n (index + 1);
      mret (ok, f :: fs, r :: rs)
  end.
End edges.

(** ** The processes *)
Inductive poll_answer := PollInterrupted | PollFailed | PollTimeout | PollEvents (pollin : bool).
Inductive sleep_answer := SleepDone | SleepInterrupted | SleepFailed.

Class PingOs (E : Type) := {
  (** Seconds and nanoseconds of CLOCK_MONOTONIC_RAW. *)
  clock_gettime : E → option (Z * Z) * E;
  (** A descriptor and a timeout in milliseconds. *)
  poll_in : Z → Z → E → poll_answer * E;
  (** For what is left of the interval. *)
  nanosleep : E → sleep_answer * E }.

(** What the initiator keeps, and what it prints of a probe. *)
Record ping_stats := PingStats {
  pg_min_ns : Z;
  pg_max_ns : Z;
  pg_sum_ns : Z;
  pg_transmitted : Z;
  pg_received : Z }.
Definition zero_stats : ping_stats := PingStats UINT64_MAX 0 0 0 0.
Inductive ping_line :=
| Reply_line (sequence rtt_ns one_way_ns : Z) (hops : list Z) (hop_count : Z)
| Timeout_line (it : Z).

Definition count_sent (st : ping_stats) : ping_stats :=
  {| st with pg_transmitted := u32 (pg_transmitted st + 1) |}.
Definition count_reply (rtt_ns : Z) (st : ping_stats) : ping_stats :=
  {| st with
     pg_min_ns := if rtt_ns <? pg_min_ns st then rtt_ns else pg_min_ns st;
     pg_max_ns := if pg_max_ns st <? rtt_ns then rtt_ns else pg_max_ns st;
     pg_sum_ns := u64 (pg_sum_ns st + rtt_ns);
     pg_received := u32 (pg_received st + 1) |}.
(** The last line: minimum, average and maximum, when there was a reply. *)
Definition ping_summary (st : ping_stats) : option (Z * Z * Z) :=
  if 0 <? pg_received st
  then Some (pg_min_ns st, pg_sum_ns st / pg_received st, pg_max_ns st) else None.

Section processes.
Context {E T : Type} `{Platform E} `{Transport E T} `{PingOs E}.
Context (fuel : nat) (forward reverse : list (ping_edge_t T)).
(** The buffer object of the process. *)
Context (buffer component_count : Z).

(** [CHECK(expr)]: [inl] leaves the process. *)
Definition CHECK {A} (p : prog (world E) zipc_status_t) (k : prog (world E) (exit_code + A))
    : prog (world E) (exit_code + A) :=
  status ← p;
  if negb (status_is status ZIPC_OK) then mret (inl EXIT_FAILURE) else k.
(** [now_ns()]; a clock that fails leaves the process too. *)
Definition with_now {A} (k : Z → prog (world E) (exit_code + A)) : prog (world E) (exit_code + A) :=
  t ← env_call clock_gettime;
  match t with
  | None => mret (inl EXIT_FAILURE)
  | Some (sec, nsec) => k (u64 (u64 (u64 sec * 1000000000) + u64 nsec))
  end.
(** [edges[index]]; outside the array is undefined. *)
Definition ping_edge_at (edges : list (ping_edge_t T)) (index : Z) : prog (world E) (ping_edge_t T) :=
  match (if 0 <=? index then edges !! Z.to_nat index else None) with
  | Some e => mret e
  | None => fault
  end.
(** The fields behind the pointer [zipc_buffer_data] returns; 0 is NULL. *)
Definition store_field {n : nat} (data offset v : Z) : prog (world E) () :=
  if data =? 0 then fault else payload_write (data + offset) (le_bytes n v).
Definition load_field {n : nat} (data offset : Z) : prog (world E) Z :=
  if data =? 0 then fault
  else bytes ← payload_read (data + offset) n; mret (le_value bytes).

(** *** Relays and the last component *)
Definition stamp {A} (index data : Z) (k : prog (world E) (exit_code + A))
    : prog (world E) (exit_code + A) :=
  with_now (λ now,
  store_field (n := 8) data (arrival_ns_at index) now;;
  with_now (λ now,
  store_field (n := 8) data (depart_ns_at index) now;;
  k)).
Definition responder_turn (index : Z) : prog (world E) (exit_code + ()) :=
  incoming ← ping_edge_at forward (u32 (index - 1));
  CHECK (zipc_recv fuel (pe_receiver incoming) buffer) (
  data ← zipc_buffer_data buffer;
  stamp index data (
  if u32 (index + 1) =? component_count then
    back ← ping_edge_at reverse (u32 (index - 1));
    CHECK (zipc_send (pe_sender back) buffer) (mret (inr tt))
  else
    onward ← ping_edge_at forward index;
    CHECK (zipc_send (pe_sender onward) buffer) (
    returning ← ping_edge_at reverse index;
    CHECK (zipc_recv fuel (pe_receiver returning) buffer) (
    back ← ping_edge_at reverse (u32 (index - 1));
    CHECK (zipc_send (pe_sender back) buffer) (mret (inr tt)))))).

(** *** The initiator *)
Definition send_probe (it : Z) : prog (world E) (exit_code + ()) :=
  first ← ping_edge_at forward 0;
  CHECK (zipc_buffer_alloc_ex fuel (pe_sender first) 0 0 0 buffer 0) (
  with_now (λ now,
  CHECK (zipc_buffer_append buffer (Some (probe_payload it component_count now))
           sizeof_ping_payload_t) (
  CHECK (zipc_send (pe_sender first) buffer) (mret (inr tt))))).

Inductive reply_state := ReplyError | ReplyNone | ReplyReady.
Definition wait_for_reply (event_fd timeout_ms : Z) : prog (world E) reply_state :=
  r ← loop fuel (
    answer ← env_call (poll_in event_fd timeout_ms);
    mret (match answer with
          | PollInterrupted => None
          | PollFailed => Some ReplyError
          | PollTimeout => Some ReplyNone
          | PollEvents pollin => Some (if pollin then ReplyReady else ReplyError)
          end));
  returned r.

(** The hops of the forward way: arrival at [hop] less departure from the one
    before. *)
Fixpoint read_hops (n : nat) (hop data : Z) : prog (world E) (list Z) :=
  match n with
  | O => mret []
  | S n =>
      arrival ← load_field (n := 8) data (arrival_ns_at hop);
      depart ← load_field (n := 8) data (depart_ns_at (hop - 1));
      rest ← read_hops n (hop + 1) data;
      mret (u64 (arrival - depart) :: rest)
  end.
(** [depart_ns[0]], [sequence], the arrival at the last component and the hops. *)
Definition load_reply (data : Z) : prog (world E) (Z * Z * Z * list Z) :=
  depart ← load_field (n := 8) data (depart_ns_at 0);
  sequence ← load_field (n := 8) data sequence_at;
  last ← load_field (n := 8) data (arrival_ns_at (u32 (component_count - 1)));
  hops ← read_hops (Z.to_nat (component_count - 1)) 1 data;
  mret (depart, sequence, last, hops).
Definition read_reply (st : ping_stats) : prog (world E) (exit_code + (ping_stats * ping_line)) :=
  first ← ping_edge_at reverse 0;
  CHECK (zipc_recv fuel (pe_receiver first) buffer) (
  with_now (λ arrived,
  data ← zipc_buffer_data buffer;
  '(depart, sequence, last, hops) ← load_reply data;
  let rtt_ns := u64 (arrived - depart) in
  let one_way_ns := u64 (last - depart) in
  hop_count ← zipc_buffer_hop_count buffer;
  CHECK (zipc_buffer_release buffer)
    (mret (inr (count_reply rtt_ns st, Reply_line sequence rtt_ns one_way_ns hops hop_count))))).

Definition sleep_seconds : prog (world E) bool :=
  r ← loop fuel (
    answer ← env_call nanosleep;
    mret (match answer with
          | SleepInterrupted => None
          | SleepFailed => Some false
          | SleepDone => Some true
          end));
  returned r.

(** One probe: the statistics, what was printed, and whether to go on; the line of a
    reply whose buffer cannot be released is not kept. *)
Definition initiator_turn (iterations timeout_ms : Z) (pause : bool) (it : Z) (st : ping_stats)
    : prog (world E) (exit_code + (ping_stats * list ping_line * bool)) :=
  r ← send_probe it;
  match r with
  | inl code => mret (inl code)
  | inr _ =>
  let st := count_sent st in
  first ← ping_edge_at reverse 0;
  ready ← wait_for_reply (pe_event_fd first) timeout_ms;
  match ready with
  | ReplyError => mret (inr (st, [], false))
  | ReplyNone => mret (inr (st, [Timeout_line it], false))
  | ReplyReady =>
  r ← read_reply st;
  match r with
  | inl code => mret (inl code)
  | inr (st, reply) =>
  slept ← (if pause && (u32 (it + 1) <? iterations) then sleep_seconds else mret true);
  mret (inr (st, [reply], slept))
  end
  end
  end.
(** All of them: what was printed, and the exit or the statistics and whether the
    loop ran to its end. *)
Fixpoint initiator (iterations timeout_ms : Z) (pause : bool) (n : nat) (it : Z) (st : ping_stats)
    : prog (world E) (list ping_line * (exit_code + ping_stats * bool)) :=
  match n with
  | O => mret ([], inr (st, true))
  | S n =>
      r ← initiator_turn iterations timeout_ms pause it st;
      match r with
      | inl code => mret ([], inl code)
      | inr (st, lines, false) => mret (lines, inr (st, false))
      | inr (st, lines, true) =>
          '(lines', r) ← initiator iterations timeout_ms pause n (it + 1) st;
          mret (lines ++ lines', r)
      end
  end.

(** The whole process: its exit status and, for the first component, what it
    printed of the replies and the summary. *)
Definition run_component (index iterations timeout_ms : Z) (pause : bool)
    : prog (world E) (exit_code * list ping_line * option (Z * Z * Z)) :=
  if index =? 0 then
    '(lines, r) ← initiator iterations timeout_ms pause (Z.to_nat iterations) 0 zero_stats;
    match r with
    | inl code => mret (code, lines, None)
    | inr (st, ok) =>
        mret (if ok : bool then EXIT_SUCCESS else EXIT_FAILURE, lines, ping_summary st)
    end
  else
    r ← for_range (Z.to_nat iterations) 0 (λ _,
          r ← responder_turn index;
          mret (match r with inl code => Some code | inr _ => None end));
    mret (default EXIT_SUCCESS r, [], None).
End processes.

(** ** The parent *)
Section parent.
Context {E D : Type} `{Platform E} `{Heap E} `{LinuxOs E} `{MemoryObjects E} `{Processes E}.
Abbreviation edge := (ping_edge_t zipc_platform_transport_t).
Context (fuel : nat) (shm_name : string) (self : Z).
Context (parse_interval parse_timeout : string → option D) (defaults : ping_options D).

(** The forks and the waiting loop, which looks at all of [children]. *)
Definition ping_processes (component_count : nat) : prog (world E) exit_code :=
  '(result, spawned, children) ← spawn component_count 0 (repeat 0 component_count);
  '(_, result) ← reap fuel component_count spawned children result;
  mret result.

(** From the open memory object to the edges. *)
Definition ping_setup (memory component_count : Z) : prog (world E) (bool * list edge * list edge) :=
  let edge_count := Z.to_nat (component_count - 1) in
  let none : list edge := repeat zero_ping_edge edge_count in
  status ← zipc_pool_format (Some (ping_pool memory));
  if negb (status_is status ZIPC_OK) then mret (false, [] : list edge, [] : list edge)
  else
  '(status, pool) ← zipc_pool_attach self (Some (ping_pool memory));
  if negb (status_is status ZIPC_OK) then mret (false, [] : list edge, [] : list edge)
  else
  pool ← returned pool;
  forward ← env_call (ps_calloc (component_count - 1));
  reverse ← env_call (ps_calloc (component_count - 1));
  children ← env_call (ps_calloc component_count);
  if negb forward || negb reverse || negb children
  then mret (false, if forward : bool then none else [], if reverse : bool then none else [])
  else open_chain fuel pool (zipc_transport_spsc_ring_size RING_DEPTH) edge_count 0.

(** The label [cleanup]: the two directions of every edge in turn. *)
Definition ping_cleanup (memory edge_count : Z) (forward reverse : list edge) : prog (world E) () :=
  let ring_size := zipc_transport_spsc_ring_size RING_DEPTH in
  for_range (Z.to_nat edge_count) 0 (λ i,
    ping_edge_cleanup fuel (nth (Z.to_nat i) forward zero_ping_edge) ring_size;;
    ping_edge_cleanup fuel (nth (Z.to_nat i) reverse zero_ping_edge) ring_size;;
    mret (@None ()));;
  if memory =? 0 then mret () else env_call (λ e, (tt, platform_memory_close memory e)).

Definition ping_main (args : list string) : prog (world E) exit_code :=
  match ping_arguments parse_interval parse_timeout args defaults with
  | None => mret EXIT_FAILURE
  | Some o =>
  if negb (ping_accepts o) then mret EXIT_FAILURE
  else
  let component_count := ping_component_count o in
  opened ← env_call (platform_memory_open (posix_config shm_name SHM_SIZE true true));
  match opened with
  | inl _ => ping_cleanup 0 (component_count - 1) [] [];; mret EXIT_FAILURE
  | inr memory =>
  '(ok, forward, reverse) ← ping_setup memory component_count;
  result ← (if ok : bool then ping_processes (Z.to_nat component_count) else mret EXIT_FAILURE);
  ping_cleanup memory (component_count - 1) forward reverse;;
  mret result
  end
  end.
End parent.
