(* ===== verification/Relay.v ===== *)
(** * The processes of the packet-rate utility: theorems

    A relay forwards what it receives, in order and untouched; the final receiver
    gives every buffer back to the pool.  Both are loops of one turn, proved
    against the link contract of LinkSpec.v and the independence of the two
    transports (Apart.v). *)
From S2P Require Import Prelude Types Packing Visited Prog Store Identity Slot SlotRun.
From S2P Require Import SlotSpec Recovery Ring RingSpec Buffer BufferSpec Link LinkSpec Apart Delivery.
From S2P Require Import Packetrate Demo LinuxTransport LinuxTransportSpec LinuxDemo.

(** A loop that treats one item of a list per turn. *)
Lemma wp_for_items {W A X} (S : list X → list X → W → Prop) (body : Z → prog W (option A))
    xs todo i finished w :
  (∀ i finished x todo w, S finished (x :: todo) w →
     wp (body i) (λ r w', r = None ∧ S (finished ++ [x]) todo w') w) →
  S finished (xs ++ todo) w →
  wp (for_range (length xs) i body) (λ r w', r = None ∧ S (finished ++ xs) todo w') w.
Proof.
  intros Hbody. revert i finished w. induction xs as [|x xs IH]; intros i finished w HS;
    cbn [for_range length].
  - apply wp_ret. by rewrite app_nil_r.
  - apply wp_bind. eapply wp_mono; [by apply Hbody|]. intros r w' [-> HS'].
    eapply wp_mono; [by apply IH|]. intros r w'' [-> HS'']. by rewrite <- app_assoc in HS''.
Qed.

(** ** Packets *)

(** An announcement and the buffer it announces. *)
Record packet := Packet { pk_message : zipc_message_t; pk_info : buffer_info }.
Definition pk_slot (x : packet) : Z := claim_slot (pk_message x).
Definition unlimited (b : buffer_info) : Prop :=
  bi_deadline b = ZIPC_DEADLINE_NONE ∧ bi_hop_limit b = ZIPC_HOP_LIMIT_UNLIMITED.

Lemma unlimited_in_time b now : unlimited b → info_late now b = false ∧ info_exhausted b = false.
Proof. intros [Hd Hh]. unfold info_late, info_exhausted. by rewrite Hd, Hh. Qed.

(** The views of a pool, up to what they say of its slots. *)
Lemma pool_views_ext {E} pool hd views views' (w : world E) :
  pool_views pool hd views w → (∀ j, views' j = views j) → pool_views pool hd views' w.
Proof. intros [? ? Hs] Hv. split; [done..|]. intros i Hi. rewrite Hv. by apply Hs. Qed.

Section processes.
Context {E T : Type} `{Platform E} `{TransportRoom E T} `{Pipes E}.
Context (fuel : nat) (edges : list (edge_link_t T)) (index component_count a : Z).
Context (pool : zipc_pool_t) (cs : zipc_component_status_t) (li lo : zipc_link_t T).
Implicit Type w : world E.
Implicit Type hd : zipc_pool_header_t.
Implicit Type views : Z → slot_view.

(** The payload mappings can be changed. *)
Definition mappable hd : Prop :=
  ∀ i rw (e : E), i < h_slot_count hd → (protect_result pool hd i rw e).1 = ZIPC_OK.
Lemma mappable_geometry hd hd' : same_geometry hd hd' → mappable hd → mappable hd'.
Proof.
  intros Hg Hm i rw e. rewrite (same_geometry_protect _ _ _ _ _ _ Hg), (proj1 Hg). apply Hm.
Qed.
Lemma announced_geometry hd hd' v m b :
  same_geometry hd hd' → announced li hd v m b → announced li hd' v m b.
Proof. intros (Hn & _) [[] ? ? ?]. split; try done. split; try done. by rewrite Hn. Qed.

Definition set_view views (i : Z) (v : slot_view) : Z → slot_view :=
  λ j, if j =? i then v else views j.

(** The state after the receive of packet [x]: this component owns its slot. *)
Record taken hd views (x : packet) (q : list zipc_message_t) (I : world E → Prop) w
    hd' (s : zipc_slot_control_t) (v : zipc_buffer_impl_t) w' : Prop := {
  tk_geometry : same_geometry hd hd';
  tk_views : pool_views pool hd' (set_view views (pk_slot x) (abs_slot s)) w';
  tk_owned : abs_slot s = SlotView (Owned (l_local_component li) (l_local_epoch li)
               (one_more_hop (l_local_component li) (pk_info x))) 0;
  tk_ok : slot_ok (h_slot_capacity hd') s;
  tk_view : owned_view a v (slot_key pool (pk_slot x)) s pool w';
  tk_slot : b_slot_id v = pk_slot x;
  tk_handle : b_handle v = m_handle (pk_message x);
  tk_queue : transport_queue (l_transport li) w' q;
  tk_carried : I w';
  tk_components : w_components w' = w_components w;
  tk_payload : w_payload w' = w_payload w;
  tk_base : b_slot_base v = p_payload_base pool + pk_slot x * h_slot_stride hd }.

Lemma wp_take hd views x q I w :
  carried (l_transport li) I → recv_ready li pool hd cs views a w →
  transport_queue (l_transport li) w (pk_message x :: q) → I w →
  announced li hd (views (pk_slot x)) (pk_message x) (pk_info x) → unlimited (pk_info x) →
  mappable hd → (0 < fuel)%nat →
  wp (zipc_recv fuel (Some li) a)
    (λ r w', r = ZIPC_OK ∧ ∃ hd' s v, taken hd views x q I w hd' s v w') w.
Proof.
  intros C Hready Hq HI Hann Hun Hmap Hf.
  eapply wp_mono; [eapply (@wp_recv E T _ _ (carrying _ I C) fuel li pool hd cs views a []
    (pk_message x) q (pk_info x)); try done|].
  { intros e. apply Hmap, (fl_range _ _ _ (an_link _ _ _ _ _ Hann)). }
  intros r w' (now & s & (_ & Hq' & HI') & Hc & Hp & (hd' & Hg & Hat) & Hs & Hok & Hother & Hres).
  destruct (unlimited_in_time _ now Hun) as [Hl Hx]. rewrite Hl, Hx in Hres.
  destruct Hres as (-> & Habs & v & Hov & Hid & Hh & Hbase). split; [done|].
  exists hd', s, v. pose proof Hg as (Gn & Gc & _). split; try done; [|by rewrite Gc].
  split; [done|rewrite Gc; apply (rv_views _ _ _ _ _ _ _ Hready)|].
  intros j. rewrite Gn, Gc. intros Hj. unfold set_view.
  destruct (Z.eqb_spec j (pk_slot x)) as [->|Hne]; [by eexists|]. by apply Hother.
Qed.

(** ** Progress of a process *)

(** [finished] packets were treated, each leaving its slot as [passed] says, and
    [todo] are still queued; [out] is what the treatment adds. *)
Definition progress hd views0 (passed : packet → slot_view) (out : list packet → world E → Prop)
    (payload : Z → Z) (finished todo : list packet) w : Prop :=
  ∃ hd' views, same_geometry hd hd' ∧ recv_ready li pool hd' cs views a w ∧
    transport_queue (l_transport li) w (pk_message <$> todo) ∧ out finished w ∧
    Forall (λ x, announced li hd' (views (pk_slot x)) (pk_message x) (pk_info x) ∧
                 unlimited (pk_info x)) todo ∧
    Forall (λ x, views (pk_slot x) = passed x) finished ∧
    (∀ j, j ∉ pk_slot <$> finished ++ todo → views j = views0 j) ∧
    NoDup (pk_slot <$> finished ++ todo) ∧ w_payload w = payload.

(** One packet more was treated. *)
Lemma progress_step hd views0 passed out payload finished x todo hd1 hd2 views w w' :
  same_geometry hd hd1 → same_geometry hd1 hd2 →
  recv_ready li pool hd1 cs views a w →
  Forall (λ x, announced li hd1 (views (pk_slot x)) (pk_message x) (pk_info x) ∧
               unlimited (pk_info x)) todo →
  Forall (λ x, views (pk_slot x) = passed x) finished →
  (∀ j, j ∉ pk_slot <$> finished ++ x :: todo → views j = views0 j) →
  NoDup (pk_slot <$> finished ++ x :: todo) → w_payload w' = payload →
  w_components w' = w_components w →
  pool_views pool hd2 (set_view views (pk_slot x) (passed x)) w' →
  w_buffers w' !! a = Some zero_buffer →
  transport_queue (l_transport li) w' (pk_message <$> todo) → out (finished ++ [x]) w' →
  progress hd views0 passed out payload (finished ++ [x]) todo w'.
Proof.
  intros G1 G2 [[] _ Ha _] Htodo Hfin Hrest Hnd Hp Hc Hv Hb Hq Ho.
  assert (Hne : ∀ y, y ∈ finished ∨ y ∈ todo → pk_slot y ≠ pk_slot x).
  { intros y Hy Heq. rewrite fmap_app, fmap_cons in Hnd.
    apply NoDup_app in Hnd as (_ & Hd & (Hx & _)%NoDup_cons). destruct Hy as [Hy|Hy].
    - apply (Hd (pk_slot x)); [rewrite <- Heq; by apply list_elem_of_fmap_2|left].
    - apply Hx. rewrite <- Heq. by apply list_elem_of_fmap_2. }
  exists hd2, (set_view views (pk_slot x) (passed x)).
  rewrite <- app_assoc. cbn [app]. split_and!; try done.
  - by eapply same_geometry_trans.
  - split; [split; rewrite ?Hc; done|done|done|by eexists].
  - apply Forall_forall. intros y Hy. rewrite Forall_forall in Htodo.
    destruct (Htodo y Hy) as [Hann Hun]. split; [|done]. unfold set_view.
    rewrite (proj2 (Z.eqb_neq _ _)) by (apply Hne; by right). by eapply announced_geometry.
  - apply Forall_app. split; [|apply Forall_singleton; unfold set_view; by rewrite Z.eqb_refl].
    apply Forall_forall. intros y Hy. rewrite Forall_forall in Hfin. unfold set_view.
    rewrite (proj2 (Z.eqb_neq _ _)) by (apply Hne; by left). by apply Hfin.
  - intros j Hj. unfold set_view. destruct (Z.eqb_spec j (pk_slot x)) as [->|]; [|by apply Hrest].
    destruct Hj. rewrite fmap_app, fmap_cons. apply elem_of_app. right. left.
Qed.

(** The edges a process uses. *)
Definition incoming : Prop :=
  1 <= index ∧ ∃ e, edges !! Z.to_nat (index - 1) = Some e ∧ e_receiver e = Some li.
Definition outgoing : Prop := ∃ e, edges !! Z.to_nat index = Some e ∧ e_sender e = Some lo.

Lemma wp_edge_at i e Q w :
  0 <= i → edges !! Z.to_nat i = Some e → Q e w → wp (edge_at edges i) Q w.
Proof.
  intros Hi He HQ. unfold edge_at. rewrite (proj2 (Z.leb_le 0 i) Hi), He. by apply wp_ret.
Qed.

(** ** The final receiver *)

(** A packet whose buffer is back in the pool. *)
Definition freed (x : packet) : slot_view := SlotView (Free (bi_generation (pk_info x))) 0.

Lemma wp_final_turn hd views payload finished x todo w :
  incoming → u32 (index + 1) = component_count → mappable hd → (0 < fuel)%nat →
  progress hd views freed (λ _ _, True) payload finished (x :: todo) w →
  wp (receiver_turn fuel edges index component_count a)
    (λ r w', r = None ∧ progress hd views freed (λ _ _, True) payload (finished ++ [x]) todo w') w.
Proof.
  intros (Hi & e & He & Hl) Hfinal Hmap Hf
    (hd1 & v1 & G1 & Hready & Hq & _ & [[Hann Hun] Htodo]%Forall_cons & Hfin & Hrest & Hnd & Hp).
  unfold receiver_turn. apply wp_bind. eapply wp_edge_at; [lia|done|]. rewrite Hl. apply wp_bind.
  assert (C : carried (l_transport li) (λ _ : world E, True)) by (split; repeat intro; done).
  pose proof (mappable_geometry _ _ G1 Hmap) as Hmap1.
  eapply wp_mono; [by apply (wp_take hd1 v1 x (pk_message <$> todo) (λ _, True))|].
  intros r w1 (-> & hd2 & s & v & [G2 Hv Hown Hok Hov Hid Hh Hq1 _ Hc1 Hp1]). status_eval.
  rewrite Hfinal, Z.eqb_refl. apply wp_bind. unfold pk_slot, claim_slot in Hov. rewrite <- Hh in Hov.
  pose proof (fl_range _ _ _ (an_link _ _ _ _ _ Hann)) as Hrange.
  pose proof (mappable_geometry _ _ G2 Hmap1) as Hmap2.
  apply abs_owned in Hown as (_ & _ & _ & Hinfo & Htok).
  eapply wp_mono; [eapply (wp_release_view a v s pool hd2); try done|].
  { apply Hv. }
  { rewrite Hh, (proj1 G2). done. }
  intros r w2 Hr. apply wp_ret. destruct Hr as (-> & s' & (Hctl & Hhdr & Hsr) & Habs & Hok' & Hb).
  { intros e0. apply Hmap2. rewrite Hh, (proj1 G2). done. }
  rewrite Hh in Hctl. split; [done|].
  eapply (progress_step hd views freed _ payload finished x todo hd1 (bump_release hd2) v1 w w2);
    try done.
  - by rewrite (sr_payload _ _ Hsr), Hp1.
  - by rewrite (sr_components _ _ Hsr), Hc1.
  - eapply pool_views_ext.
    + eapply (pool_views_set pool hd2 (bump_release hd2) _ (pk_slot x) s'); try done.
      * split; [apply slot_id_nonneg|]. rewrite (proj1 G2). done.
      * by apply Hok'.
      * apply Hsr.
    + intros j. unfold set_view. destruct (Z.eqb_spec j (pk_slot x)); [|done]. rewrite Habs.
      unfold freed. change (s_generation s) with (bi_generation (info_of s)). by rewrite Hinfo.
  - rewrite Hb. apply lookup_insert_eq.
  - eapply transport_queue_frame, Hq1. apply Hsr.
Qed.

(** ** Handing a buffer over *)

(** The state after the send of the buffer of view [v] and slot [s]. *)
Record handed (I : world E → Prop) hd views (v : zipc_buffer_impl_t) (s : zipc_slot_control_t)
    (qo : list zipc_message_t) (d : Z) w hd' w' : Prop := {
  hn_geometry : same_geometry hd hd';
  hn_views : pool_views pool hd' (set_view views (b_slot_id v)
    (SlotView (InTransfer (l_local_component lo) (l_local_epoch lo) (l_remote_component lo)
       (l_link_id lo) (next_sequence (info_of s))) 0)) w';
  hn_queue : transport_queue (l_transport lo) w' (enqueue (announcement lo v s) qo);
  hn_depth : transport_depth (l_transport lo) d w';
  hn_carried : I w';
  hn_components : w_components w' = w_components w;
  hn_payload : w_payload w' = w_payload w;
  hn_buffers : w_buffers w' = <[a := zero_buffer]> (w_buffers w);
  hn_generators : w_generators w' = w_generators w;
  hn_spurious : w_spurious w' = w_spurious w }.

(** A send that nothing can refuse. *)
Lemma wp_hand_over I hd views v s qo d w :
  carried (l_transport lo) I → accepts (l_transport lo) → can_send lo a v s pool hd w →
  pool_views pool hd (set_view views (b_slot_id v) (abs_slot s)) w → s_claim_token s = 0 →
  unlimited (info_of s) → mappable hd → transport_queue (l_transport lo) w qo →
  transport_depth (l_transport lo) d w → Z.of_nat (length qo) < d → I w →
  wp (zipc_send (Some lo) a)
    (λ r w', r = ZIPC_OK ∧ ∃ hd', handed I hd views v s qo d w hd' w') w.
Proof.
  intros CI Hacc Hcan Hv Htok Hun Hmap Hqo Hd Hroom HI.
  assert (C : carried (l_transport lo) (λ w, transport_depth (l_transport lo) d w ∧ I w))
    by (apply carried_and; [apply carried_depth; by right|done]).
  pose proof Hcan as [Hov _ Hid Hrange _ Hpool Hown Hep _].
  assert (Hok_answer : ∀ r, transport_answers lo (announcement lo v s) w r → r = ZIPC_OK).
  { intros r (w2 & w3 & Hr & Hrun).
    pose proof (accepts_send (l_transport lo) d (announcement lo v s) qo w2 Hacc
      (depth_rings _ _ _ _ Hr Hd) (transport_queue_frame _ _ _ _ Hr Hqo) Hroom) as Hs.
    unfold wp in Hs. by rewrite Hrun in Hs. }
  eapply wp_mono; [eapply (@wp_send E T _ _ (carrying _ _ C)); [exact Hcan|done]|].
  intros r w' (s' & Heff & Hok' & Hout).
  destruct (attached_link_effect _ _ _ _ _ _ (pv_attached _ _ _ _ Hv) Heff) as (error & _ & Hhdr).
  pose proof Heff as (Hctl & _ & Hcomp & Hgen & Hpay & _ & Hsp).
  destruct Hout as [r w' _ Hans Habs Hb Hq'|r w' Hne Hwhy _ _ _|r w' e ans Hans Hpub _ _ _ _ _].
  - split; [by apply Hok_answer|]. exists (counted error hd).
    destruct Hq' as (_ & Hq1 & Hd2 & HI2). split; try done; [apply counted_geometry|].
    eapply pool_views_ext.
    + eapply (pool_views_set pool hd (counted error hd) _ (b_slot_id v) s'); try done;
        [|apply counted_geometry..]. rewrite Hid. split; [apply slot_id_nonneg|by rewrite <- Hid].
    + intros j. unfold set_view. destruct (Z.eqb_spec j (b_slot_id v)); [|done]. by rewrite Habs.
  - destruct Hne. destruct Hwhy as [Hans|(now & e & ->)]; [by apply Hok_answer|].
    unfold spec_send, abs_slot. rewrite (ov_state _ _ _ _ _ _ Hov), Htok. cbn [sv_owner sv_token].
    destruct (unlimited_in_time (info_of s) now Hun) as [-> ->].
    rewrite Hpool, Hmap by done. cbn [bi_generation info_of].
    by rewrite (ov_generation _ _ _ _ _ _ Hov), (ov_owner _ _ _ _ _ _ Hov),
      (ov_epoch _ _ _ _ _ _ Hov), Hown, Hep, !Z.eqb_refl.
  - apply Hok_answer in Hans. by subst ans.
Qed.

(** ** A relay *)

(** Both ends belong to this component; the next one is [l_remote_component lo]. *)
Record relays : Prop := {
  re_pool : l_pool lo = pool;
  re_local : l_local_component lo = l_local_component li;
  re_epoch : l_local_epoch lo = l_local_epoch li;
  re_remote : zipc_component_id_valid (l_remote_component lo) = true;
  re_apart : apart (l_transport li) (l_transport lo);
  re_apart' : apart (l_transport lo) (l_transport li);
  re_accepts : accepts (l_transport lo) }.

(** What a relay sends on for a packet, and how it leaves the slot. *)
Definition forwarded (x : packet) : zipc_message_t :=
  ZipcMessage (m_handle (pk_message x)) (p_pool_id pool) (l_local_component li)
    (l_remote_component lo) (u32 (bi_sequence (pk_info x) + 1)) 0.
Definition passed_on (x : packet) : slot_view :=
  SlotView (InTransfer (l_local_component li) (l_local_epoch li) (l_remote_component lo)
    (l_link_id lo) (next_sequence (one_more_hop (l_local_component li) (pk_info x)))) 0.

(** The send of a packet this component has just taken. *)
Lemma wp_pass hd views x q qo d w1 w hd' s v :
  relays → taken hd views x q
    (λ w, transport_queue (l_transport lo) w qo ∧ transport_depth (l_transport lo) d w) w1 hd' s v w →
  unlimited (pk_info x) → mappable hd' → pk_slot x < h_slot_count hd' →
  Z.of_nat (length qo) < d →
  wp (zipc_send (Some lo) a)
    (λ r w', r = ZIPC_OK ∧ ∃ hd2, same_geometry hd' hd2 ∧
       pool_views pool hd2 (set_view views (pk_slot x) (passed_on x)) w' ∧
       transport_queue (l_transport li) w' q ∧
       transport_queue (l_transport lo) w' (enqueue (forwarded x) qo) ∧
       transport_depth (l_transport lo) d w' ∧ w_components w' = w_components w ∧
       w_payload w' = w_payload w ∧ w_buffers w' = <[a := zero_buffer]> (w_buffers w)) w.
Proof.
  intros [Hpool Hloc Hep Hrem Hap Hap' Hacc] [G Hv Hown Hok Hov Hid Hh Hq [Hqo Hd] Hc Hp] Hun
    Hmap Hrange Hroom.
  pose proof Hown as (_ & Ho & Hepo & Hinfo & Htok)%abs_owned.
  pose proof (f_equal bi_sequence Hinfo) as Hseq. cbn in Hseq.
  assert (Hann : announcement lo v s = forwarded x).
  { unfold announcement, forwarded. by rewrite Hh, Hpool, Hloc, Hseq. }
  eapply wp_mono; [eapply (wp_hand_over (λ w, transport_queue (l_transport li) w q) hd' views v s);
    try done|].
  - by apply carried_queue.
  - split; try done; rewrite ?Hid; try done.
    + apply Hv.
    + by rewrite Hh.
    + rewrite <- (ov_owner _ _ _ _ _ _ Hov). congruence.
    + rewrite <- (ov_epoch _ _ _ _ _ _ Hov). congruence.
  - by rewrite Hid.
  - by rewrite Hinfo.
  - intros r w' (-> & hd2 & [G2 Hv2 Hqo2 Hd2 Hq2 Hc2 Hp2 Hb2 _ _]). split; [done|]. exists hd2.
    rewrite Hann in Hqo2. split_and!; try done. rewrite Hid, Hloc, Hep, Hinfo in Hv2. exact Hv2.
Qed.

(** The state of a relay: [qo] was queued before, at most [d] messages fit. *)
Definition relaying hd views (payload : Z → Z) (qo : list zipc_message_t) (d : Z)
    (finished todo : list packet) w : Prop :=
  progress hd views passed_on (λ finished w,
    transport_queue (l_transport lo) w (qo ++ (forwarded <$> finished)) ∧
    transport_depth (l_transport lo) d w) payload finished todo w ∧
  Z.of_nat (length qo + length (finished ++ todo)) <= d ∧
  Forall (λ m, claim_slot m ∉ pk_slot <$> finished ++ todo) qo.

Lemma not_held x qo finished todo :
  NoDup (pk_slot <$> finished ++ x :: todo) →
  Forall (λ m, claim_slot m ∉ pk_slot <$> finished ++ x :: todo) qo →
  holds (forwarded x) (qo ++ (forwarded <$> finished)) = false.
Proof.
  intros Hnd Hqo. apply not_true_is_false. intros (m & Hm & Hsame)%existsb_exists.
  apply list_elem_of_In in Hm. unfold same_message in Hsame. bool_to_prop.
  assert (Hslot : claim_slot m = pk_slot x) by (unfold pk_slot, claim_slot; by f_equal).
  rewrite fmap_app, fmap_cons in *. apply elem_of_app in Hm as [Hm|Hm].
  - rewrite Forall_forall in Hqo. apply (Hqo m Hm). rewrite Hslot. apply elem_of_app. right. left.
  - apply list_elem_of_fmap in Hm as (y & -> & Hy). change (claim_slot (forwarded y)) with (pk_slot y) in Hslot.
    apply NoDup_app in Hnd as (_ & Hd & _). apply (Hd (pk_slot x)); [|left].
    rewrite <- Hslot. by apply list_elem_of_fmap_2.
Qed.

Lemma wp_relay_turn hd views payload qo d finished x todo w :
  incoming → outgoing → u32 (index + 1) ≠ component_count → relays → mappable hd →
  (0 < fuel)%nat → relaying hd views payload qo d finished (x :: todo) w →
  wp (receiver_turn fuel edges index component_count a)
    (λ r w', r = None ∧ relaying hd views payload qo d (finished ++ [x]) todo w') w.
Proof.
  intros (Hi & e & He & Hl) (e' & He' & Hl') Hmid Hrel Hmap Hf
    [(hd1 & v1 & G1 & Hready & Hq & Hout & [[Hann Hun] Htodo]%Forall_cons & Hfin & Hrest & Hnd & Hp)
     [Hroom Hqo]].
  unfold receiver_turn. apply wp_bind. eapply wp_edge_at; [lia|done|]. rewrite Hl. apply wp_bind.
  assert (C : carried (l_transport li) (λ w, transport_queue (l_transport lo) w
    (qo ++ (forwarded <$> finished)) ∧ transport_depth (l_transport lo) d w)).
  { apply carried_and; [apply carried_queue|apply carried_depth; left]; apply Hrel. }
  pose proof (mappable_geometry _ _ G1 Hmap) as Hmap1.
  eapply wp_mono; [by eapply (wp_take hd1 v1 x (pk_message <$> todo))|].
  intros r w1 (-> & hd2 & s & v & Htaken). status_eval.
  rewrite (proj2 (Z.eqb_neq _ _) Hmid). apply wp_bind, wp_bind. eapply wp_edge_at; [lia|done|].
  rewrite Hl'. pose proof (tk_geometry _ _ _ _ _ _ _ _ _ _ Htaken) as G2.
  pose proof (fl_range _ _ _ (an_link _ _ _ _ _ Hann)) as Hrange.
  rewrite length_app in Hroom. cbn [length] in Hroom.
  eapply wp_mono; [eapply (wp_pass hd1 v1 x); try done|].
  { by eapply mappable_geometry. }
  { by rewrite (proj1 G2). }
  { rewrite length_app, length_fmap. lia. }
  intros r w2 (-> & hd3 & G3 & Hv & Hq1 & Hqo1 & Hd1 & Hc & Hpay & Hb).
  apply wp_ret. split; [done|]. split; [|rewrite !length_app, <- app_assoc; cbn; split; [lia|done]].
  eapply (progress_step hd views passed_on _ payload finished x todo hd1 hd3 v1 w w2); try done.
  - by eapply same_geometry_trans.
  - by rewrite Hpay, (tk_payload _ _ _ _ _ _ _ _ _ _ Htaken).
  - by rewrite Hc, (tk_components _ _ _ _ _ _ _ _ _ _ Htaken).
  - rewrite Hb. apply lookup_insert_eq.
  - split; [|done]. unfold enqueue in Hqo1. rewrite (not_held _ _ _ _ Hnd Hqo) in Hqo1.
    by rewrite fmap_app, app_assoc.
Qed.

(** ** The whole process *)
Lemma wp_run_receiver (S : list packet → list packet → world E → Prop) warmup packets ready_fd
    done_fd xs w :
  (∀ finished x todo w, S finished (x :: todo) w →
     wp (receiver_turn fuel edges index component_count a)
       (λ r w', r = None ∧ S (finished ++ [x]) todo w') w) →
  (∀ finished todo e w, S finished todo w → S finished todo (put_env e w)) →
  (u32 (index + 1) = component_count → ∀ fd (e : E), (pipe_write fd e).1 = true) →
  0 <= warmup → 0 <= packets → warmup + packets = Z.of_nat (length xs) → S [] xs w →
  wp (run_receiver fuel edges index component_count warmup packets ready_fd done_fd a)
    (λ code w', code = EXIT_SUCCESS ∧ S xs [] w') w.
Proof.
  intros Hturn Henv Hpipe Hpos1 Hpos2 Hlen HS.
  assert (Hbatch : ∀ ys todo finished fd w, S finished (ys ++ todo) w →
    wp (r ← for_range (length ys) 0 (λ _, receiver_turn fuel edges index component_count a);
        match r with
        | Some code => mret (Some code)
        | None => report (u32 (index + 1) =? component_count) fd
        end) (λ r w', r = None ∧ S (finished ++ ys) todo w') w).
  { intros ys todo finished fd w1 HS1. apply wp_bind.
    eapply wp_mono; [by apply (wp_for_items S)|]. intros r w2 [-> HS2]. unfold report.
    destruct (Z.eqb_spec (u32 (index + 1)) component_count) as [Hf|Hf]; [|by apply wp_ret].
    apply wp_bind, wp_env_call, wp_ret. rewrite (Hpipe Hf). split; [done|by apply Henv]. }
  set (n := Z.to_nat warmup).
  assert (Hn : (n <= length xs)%nat) by lia.
  pose proof (take_drop n xs) as Hsplit. unfold run_receiver. apply wp_bind.
  replace (Z.to_nat warmup) with (length (take n xs)) by (rewrite length_take; lia).
  replace (Z.to_nat packets) with (length (drop n xs)) by (rewrite length_drop; lia).
  eapply wp_mono; [apply (Hbatch (take n xs) (drop n xs) [] ready_fd); by rewrite Hsplit|].
  intros r w1 [-> HS1]. apply wp_bind.
  eapply wp_mono; [apply (Hbatch (drop n xs) [] (take n xs) done_fd); by rewrite app_nil_r|].
  intros r w2 [-> HS2]. apply wp_ret. split; [done|]. cbn [app] in HS2. by rewrite Hsplit in HS2.
Qed.

Lemma progress_env hd views passed out payload finished todo e w :
  (∀ w', w_rings w' = w_rings w → out finished w → out finished w') →
  progress hd views passed out payload finished todo w →
  progress hd views passed out payload finished todo (put_env e w).
Proof.
  intros Hout (hd' & v & Hg & [[] [[] ? ?] ? ?] & Hq & Ho & ? & ? & Hrest).
  exists hd', v. split_and!; try done; [| |apply Hrest..].
  - by eapply transport_queue_frame, Hq.
  - by apply Hout.
Qed.

(** A process about to receive the packets [xs]. *)
Record receiver_state hd views (xs : list packet) w : Prop := {
  rs_ready : recv_ready li pool hd cs views a w;
  rs_queue : transport_queue (l_transport li) w (pk_message <$> xs);
  rs_packets : Forall (λ x, announced li hd (views (pk_slot x)) (pk_message x) (pk_info x) ∧
                            unlimited (pk_info x)) xs;
  rs_slots : NoDup (pk_slot <$> xs) }.

Lemma start_progress hd views passed out xs w :
  receiver_state hd views xs w → out [] w →
  progress hd views passed out (w_payload w) [] xs w.
Proof.
  intros [Hr Hq Hx Hnd] Ho. exists hd, views. by split_and!.
Qed.

(** The slots of [xs] are as [passed] says, the others and the payload as before. *)
Definition treated hd views (passed : packet → slot_view) (xs : list packet) w w' : Prop :=
  ∃ hd' views', same_geometry hd hd' ∧ pool_views pool hd' views' w' ∧
    transport_queue (l_transport li) w' [] ∧
    (∀ x, x ∈ xs → views' (pk_slot x) = passed x) ∧
    (∀ j, j ∉ pk_slot <$> xs → views' j = views j) ∧ w_payload w' = w_payload w.

Lemma end_progress hd views passed out xs w w' :
  progress hd views passed out (w_payload w) xs [] w' →
  treated hd views passed xs w w' ∧ out xs w'.
Proof.
  intros (hd' & v & Hg & Hr & Hq & Ho & _ & Hfin & Hrest & _ & Hp). rewrite app_nil_r in Hrest.
  split; [|done]. exists hd', v. rewrite Forall_forall in Hfin. split_and!; try done. apply Hr.
Qed.

(** C15. A relay of the packet-rate utility forwards its packets: with the
    announcements of unlimited buffers in distinct slots queued on its incoming
    transport and room for them on the outgoing one, [run_receiver] of a middle
    component ends with EXIT_SUCCESS; the incoming queue is empty, the outgoing
    queue is the old one followed by one announcement per packet, in order, each
    slot is in transfer to the next component with one more hop and the next
    transfer sequence, and neither the payload nor any other slot has
    changed. *)
Theorem relay_forwards hd views qo d warmup packets ready_fd done_fd xs w :
  incoming → outgoing → u32 (index + 1) ≠ component_count → relays → mappable hd →
  (0 < fuel)%nat → receiver_state hd views xs w →
  transport_queue (l_transport lo) w qo → transport_depth (l_transport lo) d w →
  Z.of_nat (length qo + length xs) <= d → Forall (λ m, claim_slot m ∉ pk_slot <$> xs) qo →
  0 <= warmup → 0 <= packets → warmup + packets = Z.of_nat (length xs) →
  wp (run_receiver fuel edges index component_count warmup packets ready_fd done_fd a)
    (λ code w', code = EXIT_SUCCESS ∧ treated hd views passed_on xs w w' ∧
       transport_queue (l_transport lo) w' (qo ++ (forwarded <$> xs))) w.
Proof.
  intros Hin Hout Hmid Hrel Hmap Hf Hstate Hqo Hd Hroom Hfresh Hw Hp Hlen.
  eapply wp_mono; [eapply (wp_run_receiver (relaying hd views (w_payload w) qo d))|].
  - intros finished x todo w1. by apply wp_relay_turn.
  - intros finished todo e w1 [HS HR]. split; [|done]. apply progress_env; [|done].
    intros w2 Hr [Hq1 Hd1]. split; [by eapply transport_queue_frame|by eapply depth_rings].
  - done.
  - done.
  - done.
  - exact Hlen.
  - split; [|done]. apply start_progress; [done|]. by rewrite app_nil_r.
  - intros code w' [-> [[Ht [Hq _]]%end_progress _]]. by split_and!.
Qed.

(** The final receiver of the packet-rate utility gives every buffer back:
    with the announcements of unlimited buffers in distinct slots queued and
    pipes that can be written, [run_receiver] of the last component ends with
    EXIT_SUCCESS, the queue is empty, the slot of every packet is free in its
    generation, and neither the payload nor any other slot has changed. *)
Lemma wp_final_receiver hd views warmup packets ready_fd done_fd xs w :
  incoming → u32 (index + 1) = component_count → mappable hd → (0 < fuel)%nat →
  (∀ fd (e : E), (pipe_write fd e).1 = true) → receiver_state hd views xs w →
  0 <= warmup → 0 <= packets → warmup + packets = Z.of_nat (length xs) →
  wp (run_receiver fuel edges index component_count warmup packets ready_fd done_fd a)
    (λ code w', code = EXIT_SUCCESS ∧ treated hd views freed xs w w') w.
Proof.
  intros Hin Hfinal Hmap Hf Hpipe Hstate Hw Hp Hlen.
  eapply wp_mono; [eapply (wp_run_receiver
    (progress hd views freed (λ _ _, True) (w_payload w)))|].
  - intros finished x todo w1. by apply wp_final_turn.
  - intros finished todo e w1. by apply progress_env.
  - done.
  - done.
  - done.
  - exact Hlen.
  - by apply start_progress.
  - intros code w' [-> [Ht _]%end_progress]. done.
Qed.

End processes.

(** ** Component 9 between 7 and 11, over two polling rings *)
#[export] Instance demo_pipes : Pipes demo := {
  pipe_write _ e := (true, e); pipe_read _ e := (true, e); payload_alloc _ e := (true, e) }.
#[local] Existing Instance linux_apart.
#[local] Existing Instance linux_room.
Definition onward_transport : zipc_platform_transport_t :=
  ZipcTransport 502 ZIPC_TRANSPORT_SHM_RING_POLLING false None false false
    (HandleRingPolling 78 112 10).
Definition onward_link : zipc_link_t zipc_platform_transport_t :=
  let link := demo_link 9 11 in {| link with l_transport := onward_transport |}.
Definition demo_edges : list (edge_link_t zipc_platform_transport_t) :=
  [EdgeLink 77 112 (-1) None (Some (demo_link 9 7)); EdgeLink 78 112 (-1) (Some onward_link) None].
Definition relay_world : world demo := put_ring 78 empty_ring demo_sent.
Definition demo_packet : packet := Packet demo_message (info_of demo_transfer).
Lemma demo_state :
  receiver_state 2 demo_pool demo_component (demo_link 9 7) demo_header
    (demo_views demo_transfer demo_free) [demo_packet] relay_world.
Proof.
  destruct demo_recv_ready as [[] [[] ? ?] ? ?]. split.
  - by split; [split|split; [split|..]|..].
  - exists 77, demo_ring. split_and!; [done| |done|cbn; lia].
    split; [done|]. split; [done|apply demo_ring_wf].
  - apply Forall_singleton. split; [apply demo_announced|]. split; done.
  - apply NoDup_singleton.
Qed.
Lemma relay_forwards_witness :
  wp (run_receiver 2 demo_edges 1 3 0 1 5 6 2)
    (λ code w', code = EXIT_SUCCESS ∧
       linux_queue 5 onward_transport w' [ZipcMessage (m_handle demo_message) 42 9 11 2 0])
    relay_world.
Proof.
  eapply wp_mono; [apply (relay_forwards 2 demo_edges 1 3 2 demo_pool demo_component
    (demo_link 9 7) onward_link demo_header (demo_views demo_transfer demo_free) [] 4 0 1 5 6
    [demo_packet] relay_world)|].
  - split; [lia|]. by eexists.
  - by eexists.
  - done.
  - split; try done; [exists 77, 78|exists 78, 77]; by split_and!.
  - intros i rw e. apply demo_protects.
  - lia.
  - apply demo_state.
  - exists 78, empty_ring. split_and!; [done| |done|cbn; lia].
    split; [done|]. split; [done|apply (empty_ring_at demo_sent)].
  - by exists 78.
  - cbn. lia.
  - constructor.
  - lia.
  - lia.
  - done.
  - intros code w' (-> & _ & Hq). split; [done|]. exact Hq.
Defined.
