(* ===== verification/Sender.v ===== *)
(** * The sender of the packet-rate utility: theorems

    With enough free slots, identifiers and room on its transport the sender
    fills and announces every packet, and what it leaves is the state from which
    the next component of the chain starts. *)
From S2P Require Import Prelude Types Packing Visited Prog Store Identity Slot SlotRun.
From S2P Require Import IdentitySpec SlotSpec Alloc Recovery Ring RingSpec Buffer BufferSpec Link LinkSpec.
From S2P Require Import Apart Delivery Packetrate Demo LinuxTransport LinuxTransportSpec LinuxDemo Relay.

Section sender.
Context {E T : Type} `{Platform E} `{TransportRoom E T} `{Pipes E}.
Context (fuel : nat) (edges : list (edge_link_t T)) (a : Z).
Context (pool : zipc_pool_t) (cs csr : zipc_component_status_t) (lo lr : zipc_link_t T).
Context (data : option (list Z)).
Let d : list Z := default [] data.
Let size : Z := Z.of_nat (length d).
Implicit Type w : world E.
Implicit Type hd : zipc_pool_header_t.
Implicit Type views : Z → slot_view.

Definition slot_address hd (i : Z) : Z := p_payload_base pool + i * h_slot_stride hd.

(** ** Filling a fresh buffer *)
Lemma set_window_ok capacity o n s :
  slot_ok capacity s → s_state s = ZIPC_SLOT_OWNED → region_in capacity (ZipcRegion o n) →
  slot_ok capacity (set_window o n s).
Proof.
  intros [[] Has] Hst Hr. split; [by split|]. cbn. rewrite Hst in *. destruct Has. by split.
Qed.

Lemma wp_fill_fresh hd views b s w :
  fresh_buffer lo pool hd (set_view views (b_slot_id b) (abs_slot s)) a 0 b s w →
  (data = None → d = []) → size <= h_slot_capacity hd →
  wp (zipc_buffer_append a data size)
    (λ st w', st = ZIPC_OK ∧ ∃ f b' s',
       fresh_buffer lo pool hd (set_view views (b_slot_id b') (abs_slot s')) a size b' s' w' ∧
       b_slot_id b' = b_slot_id b ∧ bytes f (slot_address hd (b_slot_id b)) size = d ∧
       (∀ x, x < slot_address hd (b_slot_id b) ∨
             slot_address hd (b_slot_id b) + h_slot_capacity hd <= x → f x = w_payload w x) ∧
       w_payload w' = f ∧ w_components w' = w_components w ∧ w_rings w' = w_rings w ∧
       w_generators w' = w_generators w ∧ w_spurious w' = w_spurious w ∧
       is_Some (w_buffers w' !! a)) w.
Proof.
  intros [Hcan Hviews _ Hrange Htok Hreg Hlim Hdl Hbase Hcap] Hnone Hsize.
  pose proof Hcan as [Hov Hat Hid Hlt Hok Hpool Hown Hep Hrem].
  pose proof (ov_length _ _ _ _ _ _ Hov) as Hlen. pose proof (ov_data _ _ _ _ _ _ Hov) as Hdata.
  pose proof (ov_state _ _ _ _ _ _ Hov) as Hst. rewrite Hreg in Hlen, Hdata. cbn in Hlen, Hdata.
  eapply wp_mono; [apply (wp_append_fits a b _ s pool w Hov data d); [done|done|]|].
  { rewrite Hreg, Hcap, Hlen. cbn. fold size. lia. }
  intros st w' (-> & f & Hf & ->). split; [done|]. rewrite Hreg, Hlen. cbn [r_offset]. fold size.
  rewrite Hlen, Hdata, Hbase, !Z.add_0_r in Hf. fold (slot_address hd (b_slot_id b)) in Hf.
  exists f, (set_view_window 0 (0 + size) b), (set_window 0 (0 + size) s). rewrite Z.add_0_l.
  assert (Hr : region_in (h_slot_capacity hd) (ZipcRegion 0 size))
    by (unfold region_in, size; cbn; lia).
  assert (Hov' : owned_view a (set_view_window 0 size b) (slot_key pool (b_slot_id b))
    (set_window 0 size s) pool (rewindow a b (slot_key pool (b_slot_id b)) s 0 size f w)).
  { apply rewindow_owned; [done|lia|unfold size; lia|lia]. }
  assert (Hok' : slot_ok (h_slot_capacity hd) (set_window 0 size s)) by by apply set_window_ok.
  assert (Hviews' : pool_views pool hd (set_view views (b_slot_id b) (abs_slot (set_window 0 size s)))
    (rewindow a b (slot_key pool (b_slot_id b)) s 0 size f w)).
  { eapply pool_views_ext.
    - eapply (pool_views_set pool hd hd _ (b_slot_id b) (set_window 0 size s) w); try done.
      cbn. symmetry. apply insert_id, Hat.
    - intros j. unfold set_view. by destruct (j =? _). }
  split_and!; try done.
  - split; try done; [|unfold set_view; cbn; by rewrite Z.eqb_refl]. split; try done.
    apply Hviews'.
  - rewrite (bytes_ext _ _ _ _ (λ x _, Hf x)). apply bytes_copy_in.
  - intros x Hx. rewrite Hf. apply copy_in_outside. fold size. lia.
  - cbn. rewrite lookup_insert_eq. by eexists.
Qed.

(** ** The state of the sender *)

(** A packet this component has announced: its buffer is in transfer to the
    peer and holds the payload. *)
Record dispatched hd views (f : Z → Z) (x : packet) : Prop := {
  dp_source : m_source_component (pk_message x) = l_local_component lo;
  dp_destination : m_destination_component (pk_message x) = l_remote_component lo;
  dp_pool : m_pool_id (pk_message x) = p_pool_id pool;
  dp_range : pk_slot x < h_slot_count hd;
  dp_view : views (pk_slot x) = SlotView (InTransfer (l_local_component lo) (l_local_epoch lo)
              (l_remote_component lo) (l_link_id lo) (pk_info x)) 0;
  dp_generation : bi_generation (pk_info x) = zipc_handle_generation (m_handle (pk_message x));
  dp_sequence : bi_sequence (pk_info x) = m_transfer_sequence (pk_message x);
  dp_limits : unlimited (pk_info x);
  dp_region : bi_region (pk_info x) = ZipcRegion 0 size;
  dp_bytes : bytes f (slot_address hd (pk_slot x)) size = d }.

(** [n] slots can still be taken. *)
Definition spare hd views (n : Z) (fs : list Z) : Prop :=
  NoDup fs ∧ n <= Z.of_nat (length fs) ∧
  Forall (λ i, 0 <= i < h_slot_count hd ∧ free_view (views i)) fs.

(** The packets [xs] were sent after [qo], [n] are still to be sent; at most
    [depth] messages fit and [I] holds of the other transports. *)
Record sending hd views0 (I : world E → Prop) (qo : list zipc_message_t) (depth n : Z)
    (xs : list packet) hd' views (g : zipc_buffer_id_generator_t) (fs : list Z) w : Prop := {
  sn_geometry : same_geometry hd hd';
  sn_ready : receiver_ready lo pool cs w;
  sn_peer : receiver_ready lr pool csr w;
  sn_views : pool_views pool hd' views w;
  sn_buffer : is_Some (w_buffers w !! a);
  sn_generator : w_generators w !! l_local_component lo = Some g;
  sn_generator_ok : generator_ok g;
  sn_session : g_session_state g ≠ 0;
  sn_identifiers : g_sequence g + n <= UINT32_MAX;
  sn_spurious : (length (w_spurious w) + 1 < fuel)%nat;
  sn_queue : transport_queue (l_transport lo) w (qo ++ (pk_message <$> xs));
  sn_depth : transport_depth (l_transport lo) depth w;
  sn_room : Z.of_nat (length qo + length xs) + n <= depth;
  sn_carried : I w;
  sn_spare : spare hd' views n fs;
  sn_sent : Forall (λ x, dispatched hd' views (w_payload w) x ∧ free_view (views0 (pk_slot x))) xs;
  sn_slots : NoDup (pk_slot <$> xs);
  sn_others j : j ∉ pk_slot <$> xs → views j = views0 j }.

(** What stays fixed: the link has no limits, the pool is small enough for the
    scan and its slots do not overlap; what was queued before belongs to slots
    that are in use. *)
Record sender_setup hd views0 (qo : list zipc_message_t) : Prop := {
  su_data : data = None → d = [];
  su_remote : zipc_component_id_valid (l_remote_component lo) = true;
  su_deadline : l_default_deadline_ns lo = 0;
  su_hops : l_hop_limit lo = ZIPC_HOP_LIMIT_UNLIMITED;
  su_address : a ≠ 0;
  su_accepts : accepts (l_transport lo);
  su_capacity : size <= h_slot_capacity hd;
  su_stride : h_slot_capacity hd <= h_slot_stride hd;
  su_count : h_slot_count hd <= 2147483648;
  su_mappable : mappable (E := E) pool hd;
  su_queued : Forall (λ m, ¬ free_view (views0 (claim_slot m))) qo }.

Lemma dispatched_set hd hd' views v i f f' x :
  dispatched hd views f x → same_geometry hd hd' → pk_slot x ≠ i →
  (∀ y, slot_address hd (pk_slot x) <= y < slot_address hd (pk_slot x) + size → f' y = f y) →
  dispatched hd' (set_view views i v) f' x.
Proof.
  intros [] (Gn & _ & Gs) Hne Hf. split; try done.
  - by rewrite Gn.
  - unfold set_view. by rewrite (proj2 (Z.eqb_neq _ _) Hne).
  - unfold slot_address in *. rewrite Gs, (bytes_ext f' f); [done|]. exact Hf.
Qed.

Lemma filter_absent (i : Z) (fs : list Z) : i ∉ fs → filter (λ j, j ≠ i) fs = fs.
Proof.
  induction fs as [|j fs IH]; intros Hi; [done|]. apply not_elem_of_cons in Hi as [Hne Hi].
  rewrite filter_cons, decide_True by congruence. by rewrite IH.
Qed.
(** The list of free slots without one. *)
Lemma spare_set hd hd' views v i n fs :
  spare hd views (n + 1) fs → same_geometry hd hd' →
  spare hd' (set_view views i v) n (filter (λ j, j ≠ i) fs).
Proof.
  intros (Hnd & Hlen & Hall) (Gn & _). split_and!; [by apply NoDup_filter| |].
  - enough (length fs <= length (filter (λ j, j ≠ i) fs) + 1)%nat by lia.
    clear Hlen Hall. induction Hnd as [|j fs Hj Hnd IH]; [cbn; lia|].
    rewrite filter_cons. destruct (decide (j ≠ i)) as [Hne|Heq]; cbn [length]; [lia|].
    apply dec_stable in Heq as ->. rewrite filter_absent by done. lia.
  - rewrite Forall_forall in *. intros j [Hne Hj]%list_elem_of_filter. unfold set_view.
    rewrite (proj2 (Z.eqb_neq _ _) Hne), Gn. by apply Hall.
Qed.

(** The announcement of a slot that was free is not queued yet. *)
Lemma not_announced hd hd' views0 I qo depth n xs views g fs w v s0 :
  sender_setup hd views0 qo → sending hd views0 I qo depth n xs hd' views g fs w →
  free_view (views (b_slot_id v)) → b_slot_id v = zipc_handle_slot_id (b_handle v) →
  (b_slot_id v ∉ pk_slot <$> xs) ∧
  holds (announcement lo v s0) (qo ++ (pk_message <$> xs)) = false.
Proof.
  intros Hsu Hsn [gn Hfree] Hid.
  assert (Hnot : b_slot_id v ∉ pk_slot <$> xs).
  { intros (x & Hx & Hin)%list_elem_of_fmap. pose proof (sn_sent _ _ _ _ _ _ _ _ _ _ _ _ Hsn) as Hs.
    rewrite Forall_forall in Hs. destruct (Hs x Hin) as [[] _]. rewrite Hx in Hfree. congruence. }
  split; [done|]. apply not_true_is_false. intros (m & Hm & Hsame)%existsb_exists.
  apply list_elem_of_In in Hm. unfold same_message in Hsame. bool_to_prop.
  assert (Hslot : claim_slot m = b_slot_id v) by (rewrite Hid; unfold claim_slot; by f_equal).
  apply elem_of_app in Hm as [Hm|(x & -> & Hin)%list_elem_of_fmap].
  - pose proof (su_queued _ _ _ Hsu) as Hq. rewrite Forall_forall in Hq. apply (Hq m Hm).
    rewrite Hslot, <- (sn_others _ _ _ _ _ _ _ _ _ _ _ _ Hsn) by done. by exists gn.
  - apply Hnot. change (claim_slot _) with (pk_slot x) in Hslot. rewrite <- Hslot.
    by apply list_elem_of_fmap_2.
Qed.

Lemma slots_disjoint hd i j x :
  size <= h_slot_capacity hd → h_slot_capacity hd <= h_slot_stride hd → i ≠ j →
  slot_address hd i <= x < slot_address hd i + size →
  x < slot_address hd j ∨ slot_address hd j + h_slot_capacity hd <= x.
Proof.
  intros Hc Hs Hne Hx. unfold slot_address in *. unfold size in *.
  destruct (Z.lt_total i j) as [Hlt|[|Hlt]]; [left|done|right]; nia.
Qed.

(** The state of the packets once one more was announced. *)
Lemma sent_step hd hd1 hd3 views0 views v f f' xs x :
  same_geometry hd hd1 → same_geometry hd1 hd3 → size <= h_slot_capacity hd →
  h_slot_capacity hd <= h_slot_stride hd → pk_slot x ∉ pk_slot <$> xs →
  Forall (λ x, dispatched hd views f x ∧ free_view (views0 (pk_slot x))) xs →
  (∀ y, y < slot_address hd1 (pk_slot x) ∨
        slot_address hd1 (pk_slot x) + h_slot_capacity hd1 <= y → f' y = f y) →
  dispatched hd3 (set_view views (pk_slot x) v) f' x → free_view (views0 (pk_slot x)) →
  Forall (λ y, dispatched hd3 (set_view views (pk_slot x) v) f' y ∧ free_view (views0 (pk_slot y)))
    (xs ++ [x]).
Proof.
  intros G1 G3 Hc Hs Hnew Hxs Hf Hx Hfree. apply Forall_app. split; [|by apply Forall_singleton].
  rewrite Forall_forall in *. intros y Hy. destruct (Hxs y Hy) as [Hd Hfv]. split; [|done].
  assert (Hne : pk_slot y ≠ pk_slot x)
    by (intros Heq; apply Hnew; rewrite <- Heq; by apply list_elem_of_fmap_2).
  eapply dispatched_set; [done|by eapply same_geometry_trans|done|]. intros z Hz. apply Hf.
  destruct G1 as (_ & Gc & Gs). rewrite Gc. unfold slot_address at 1 2. rewrite Gs.
  by eapply slots_disjoint.
Qed.

(** ** One packet *)

(** The first attempt to allocate succeeds. *)
Lemma wp_get_wait hd views0 I qo depth n xs hd' views g fs w :
  sender_setup hd views0 qo → 0 <= n →
  sending hd views0 I qo depth (n + 1) xs hd' views g fs w →
  wp (buffer_get_wait fuel (Some lo) a) (λ r w', r = None ∧ ∃ hd1 b s,
    fresh_buffer lo pool hd1 (set_view views (b_slot_id b) (abs_slot s)) a 0 b s w' ∧
    same_geometry hd' hd1 ∧ w_components w' = w_components w ∧ w_rings w' = w_rings w ∧
    w_payload w' = w_payload w ∧ (length (w_spurious w') <= length (w_spurious w))%nat ∧
    free_view (views (b_slot_id b)) ∧
    w_generators w' = <[l_local_component lo :=
      ZipcGenerator (g_session_state g) (g_sequence g + 1) 0]> (w_generators w)) w.
Proof.
  intros Hsu Hn Hsn. pose proof Hsu as [_ Hrem Hdl Hhop Ha _ _ _ Hcount Hmap _].
  pose proof Hsn as [Hg Hready _ Hviews Hb Hgen Hgok Hses Hids Hsp _ _ _ _ (_ & Hlen & Hfree) _ _ _].
  assert (Hnx : ¬ exhausted g) by (intros [|]; [done|lia]).
  assert (Hcan : can_allocate (E := E) pool hd' views g).
  { split; [by rewrite (proj1 Hg)| |done|].
    - destruct fs as [|i fs]; [cbn in Hlen; lia|]. apply Forall_cons in Hfree as [Hi _]. by exists i.
    - intros i e. by apply (mappable_geometry _ hd hd'). }
  assert (Hf : (length (w_spurious w) + 1 < fuel)%nat) by done.
  unfold buffer_get_wait. destruct fuel as [|fu] eqn:Hfu; [lia|]. rewrite <- Hfu in *.
  apply wp_bind. replace (loop fuel) with (@loop (world E) (option exit_code) (S fu)) by by rewrite Hfu.
  cbn [loop]. apply wp_bind, wp_bind.
  change (zipc_buffer_alloc_ex fuel (Some lo) 0 0 0 a 0) with (zipc_buffer_alloc fuel (Some lo) 0 a 0).
  eapply wp_mono; [eapply (wp_alloc_fresh fuel lo pool hd' cs g views a 0); try done|].
  { destruct (pv_capacity _ _ _ _ Hviews). lia. }
  intros r w1 [Hr Hres]. rewrite (Hr Hcan) in *. status_eval. apply wp_ret, wp_ret, wp_returned.
  split; [done|]. destruct Hres as (hd1 & b & s & session & sequence & Hfresh & Hg1 & Hc & Hrg & _ &
    Hp & Hs & Hfv & (_ & _ & Hiss) & Hgens); [done|].
  destruct Hiss as [(_ & -> & ->)|(? & _)]; [|done]. exists hd1, b, s. by split_and!.
Qed.

Definition first_edge : Prop := ∃ e, edges !! 0%nat = Some e ∧ e_sender e = Some lo.

Lemma wp_sender_turn hd views0 I qo depth n xs hd' views g fs w :
  carried (l_transport lo) I → first_edge → sender_setup hd views0 qo → 0 <= n →
  sending hd views0 I qo depth (n + 1) xs hd' views g fs w →
  wp (sender_turn fuel edges data size a) (λ r w', r = None ∧ ∃ x hd2 views2 g2 fs2,
    sending hd views0 I qo depth n (xs ++ [x]) hd2 views2 g2 fs2 w') w.
Proof.
  intros CI (e & He & Hl) Hsu Hn Hsn. unfold sender_turn. apply wp_bind.
  eapply wp_edge_at; [done|exact He|]. rewrite Hl. apply wp_bind.
  eapply wp_mono; [by eapply wp_get_wait|].
  intros r w1 (-> & hd1 & b & s & Hfresh & G1 & Hc1 & Hr1 & Hp1 & Hsp1 & Hfv & Hgen1).
  pose proof Hsu as [Hnone _ _ _ Ha Hacc Hcap Hstride _ Hmap _].
  pose proof Hsn as [G Hready Hpeer Hviews Hb Hgen Hgok Hses Hids Hsp Hq Hd Hroom HI Hspare Hsent Hslots Hothers].
  pose proof (same_geometry_trans _ _ _ G G1) as G01. pose proof G01 as (Gn & Gc & Gs).
  apply wp_bind. eapply wp_mono; [eapply (wp_fill_fresh hd1 views b s); try done; by rewrite Gc|].
  intros st w2 (-> & f & b2 & s2 & Hfresh2 & Hid2 & Hbytes & Hout & Hp2 & Hc2 & Hr2 & Hgen2 & Hsp2 & Hb2).
  status_eval. apply wp_bind.
  pose proof Hfresh2 as [Hcan Hv2 _ Hrange Htok Hreg Hlim Hdl Hbase _].
  pose proof Hcan as [Hov _ Hid _ _ Hpool _ _ _].
  rewrite <- Hid2 in Hfv.
  destruct (not_announced _ _ _ _ _ _ _ _ _ _ _ _ b2 s2 Hsu Hsn Hfv Hid) as [Hnew Hheld].
  eapply wp_mono; [eapply (wp_hand_over a pool lo I hd1 views b2 s2
    (qo ++ (pk_message <$> xs)) depth); try done|].
  - by apply (mappable_geometry _ hd).
  - eapply transport_queue_frame, Hq. by rewrite Hr2.
  - eapply depth_rings, Hd. by rewrite Hr2.
  - rewrite length_app, length_fmap. lia.
  - eapply (carried_rings _ _ CI), HI. by rewrite Hr2.
  - intros r w3 (-> & hd3 & [G3 Hv3 Hq3 Hd3 HI3 Hc3 Hp3 Hb3 Hgen3 Hsp3]). apply wp_ret.
    split; [done|].
    set (x := Packet (announcement lo b2 s2) (next_sequence (info_of s2))).
    assert (Hx : pk_slot x = b_slot_id b2) by (unfold pk_slot; cbn; by rewrite Hid).
    exists x, hd3, (set_view views (b_slot_id b2) (SlotView (InTransfer (l_local_component lo)
      (l_local_epoch lo) (l_remote_component lo) (l_link_id lo) (pk_info x)) 0)),
      (ZipcGenerator (g_session_state g) (g_sequence g + 1) 0), (filter (λ j, j ≠ b_slot_id b2) fs).
    pose proof (same_geometry_trans _ _ _ G1 G3) as G13.
    split; try done.
    + by eapply same_geometry_trans.
    + destruct Hready. split; rewrite ?Hc3, ?Hc2, ?Hc1; done.
    + destruct Hpeer. split; rewrite ?Hc3, ?Hc2, ?Hc1; done.
    + rewrite Hb3, lookup_insert_eq. by eexists.
    + rewrite Hgen3, Hgen2, Hgen1. apply lookup_insert_eq.
    + destruct Hgok. split; cbn; try done. zlia.
    + cbn. lia.
    + rewrite Hsp3, Hsp2. lia.
    + unfold enqueue in Hq3. rewrite Hheld in Hq3. by rewrite fmap_app, app_assoc.
    + rewrite length_app. cbn. lia.
    + eapply spare_set; [exact Hspare|done].
    + rewrite <- Hx. eapply (sent_step hd' hd1 hd3 views0 views _ (w_payload w)); try done.
      * by rewrite (proj1 (proj2 G)).
      * by rewrite (proj1 (proj2 G)), (proj2 (proj2 G)).
      * by rewrite Hx.
      * rewrite Hp3, Hp2, Hx, Hid2, <- Hp1. exact Hout.
      * split; try done; rewrite ?Hx.
        -- cbn. by rewrite Hpool.
        -- rewrite (proj1 G3). apply Hrange.
        -- unfold set_view. by rewrite Z.eqb_refl.
        -- exact (ov_generation _ _ _ _ _ _ Hov).
        -- rewrite Hp3, Hp2, Hid2. unfold slot_address in *. by rewrite (proj2 (proj2 G3)).
      * rewrite Hx, <- Hothers; [done|]. by rewrite Hid2 in *.
    + rewrite fmap_app. apply NoDup_app. split_and!; [done| |apply NoDup_singleton].
      intros j Hj ->%list_elem_of_singleton. by rewrite Hx in Hj.
    + intros j Hj. rewrite fmap_app, not_elem_of_app in Hj. destruct Hj as [Hj1 Hj2].
      unfold set_view. rewrite (proj2 (Z.eqb_neq _ _)); [by apply Hothers|].
      intros ->. apply Hj2. cbn. rewrite Hx. left.
Qed.

Lemma sending_env hd views0 I qo depth n xs hd' views g fs e w :
  carried (l_transport lo) I → sending hd views0 I qo depth n xs hd' views g fs w →
  sending hd views0 I qo depth n xs hd' views g fs (put_env e w).
Proof.
  intros CI [? [] [] [[] ? ?] ? ? ? ? ? ? Hq Hd ? HI ? ? ? ?]. split; try done.
  - by eapply transport_queue_frame, Hq.
  - by eapply depth_rings, Hd.
  - by eapply (carried_rings _ _ CI), HI.
Qed.

(** Any number of packets. *)
Lemma wp_send_all hd views0 I qo depth m n i xs hd' views g fs w :
  carried (l_transport lo) I → first_edge → sender_setup hd views0 qo → 0 <= n →
  sending hd views0 I qo depth (Z.of_nat m + n) xs hd' views g fs w →
  wp (for_range m i (λ _, sender_turn fuel edges data size a)) (λ r w', r = None ∧
    ∃ ys hd2 views2 g2 fs2, length ys = m ∧
      sending hd views0 I qo depth n (xs ++ ys) hd2 views2 g2 fs2 w') w.
Proof.
  intros CI Hedge Hsu Hn. revert i xs hd' views g fs w.
  induction m as [|m IH]; intros i xs hd' views g fs w Hs; cbn [for_range].
  - apply wp_ret. split; [done|]. exists [], hd', views, g, fs. by rewrite app_nil_r.
  - apply wp_bind. eapply wp_mono; [eapply (wp_sender_turn _ _ _ _ _ (Z.of_nat m + n)); try done; [lia|]|].
    { by replace (Z.of_nat m + n + 1) with (Z.of_nat (S m) + n) by lia. }
    intros r w1 (-> & x & hd2 & v2 & g2 & fs2 & Hs2).
    eapply wp_mono; [by eapply IH|]. intros r w2 (-> & ys & hd3 & v3 & g3 & fs3 & Hlen & Hs3).
    split; [done|]. exists (x :: ys), hd3, v3, g3, fs3. split; [by cbn; rewrite Hlen|].
    by rewrite <- app_assoc in Hs3.
Qed.
End sender.

(** ** The whole process *)
Section process.
Context {E T : Type} `{Platform E} `{TransportRoom E T} `{Pipes E}.
Context (fuel : nat) (edges : list (edge_link_t T)) (a : Z).
Context (pool : zipc_pool_t) (cs csr : zipc_component_status_t) (lo lr : zipc_link_t T).
Implicit Type w : world E.

(** The payload of [p] bytes the sender writes. *)
Definition pattern (p : Z) : option (list Z) :=
  if negb (p =? 0) then Some (repeat 165 (Z.to_nat p)) else None.
Lemma pattern_size p : 0 <= p → Z.of_nat (length (default [] (pattern p))) = p.
Proof.
  intros Hp. unfold pattern. destruct (Z.eqb_spec p 0) as [->|]; cbn; [done|].
  rewrite repeat_length. lia.
Qed.

Lemma wp_run_sender p hd views I qo depth warmup packets ready_fd done_fd g fs w :
  carried (l_transport lo) I → first_edge edges lo →
  sender_setup a pool lo (pattern p) hd views qo → 0 <= p → 0 <= warmup → 0 <= packets →
  (∀ n (e : E), (payload_alloc n e).1 = true) → (∀ fd (e : E), (pipe_read fd e).1 = true) →
  sending fuel a pool cs csr lo lr (pattern p) hd views I qo depth (warmup + packets) [] hd views g fs w →
  wp (run_sender fuel edges packets p warmup ready_fd done_fd a)
    (λ code w', code = EXIT_SUCCESS ∧ ∃ xs hd' views' g' fs',
       Z.of_nat (length xs) = warmup + packets ∧
       sending fuel a pool cs csr lo lr (pattern p) hd views I qo depth 0 xs hd' views' g' fs' w') w.
Proof.
  intros CI Hedge Hsu Hp Hw Hk Halloc Hread Hs. unfold run_sender. apply wp_bind.
  apply (wp_mono _ (λ r w', r = true ∧ ∃ e, w' = put_env e w)).
  { destruct (negb (p =? 0)); [apply wp_env_call; rewrite Halloc; eauto|apply wp_ret].
    split; [done|]. exists (w_env w). by destruct w. }
  intros r ? (-> & e & ->). cbn [negb]. fold (pattern p).
  apply (sending_env _ _ _ _ _ _ _ _ _ _ _ _ _ _ _ _ _ _ _ e _ CI) in Hs.
  assert (Hbatch : ∀ m n fd xs hd1 v1 g1 fs1 w1, 0 <= m → 0 <= n →
    sending fuel a pool cs csr lo lr (pattern p) hd views I qo depth (m + n) xs hd1 v1 g1 fs1 w1 →
    wp (r ← for_range (Z.to_nat m) 0 (λ _, sender_turn fuel edges (pattern p) p a);
        match r with
        | Some code => mret (Some code)
        | None => marked ← env_call (pipe_read fd);
                  mret (if marked : bool then None else Some EXIT_FAILURE)
        end)
      (λ r w', r = None ∧ ∃ ys hd2 v2 g2 fs2, Z.of_nat (length ys) = m ∧
         sending fuel a pool cs csr lo lr (pattern p) hd views I qo depth n (xs ++ ys) hd2 v2 g2 fs2 w') w1).
  { intros m n fd xs hd1 v1 g1 fs1 w1 Hm Hn Hs1. apply wp_bind.
    rewrite <- (Z2Nat.id m) in Hs1 by done.
    pose proof (wp_send_all fuel edges a pool cs csr lo lr (pattern p) hd views I qo depth (Z.to_nat m) n 0
      xs hd1 v1 g1 fs1 w1 CI Hedge Hsu Hn Hs1) as Hall.
    rewrite pattern_size in Hall by done. eapply wp_mono; [exact Hall|].
    intros r w2 (-> & ys & hd2 & v2 & g2 & fs2 & Hlen & Hs2). apply wp_bind, wp_env_call, wp_ret.
    rewrite Hread. split; [done|]. exists ys, hd2, v2, g2, fs2. split; [lia|]. by apply sending_env. }
  apply wp_bind. eapply wp_mono; [by eapply (Hbatch warmup packets)|].
  intros r w1 (-> & ys & hd1 & v1 & g1 & fs1 & Hlen1 & Hs1). apply wp_bind.
  eapply wp_mono; [eapply (Hbatch packets 0); [done|done|by rewrite Z.add_0_r]|].
  intros r w2 (-> & zs & hd2 & v2 & g2 & fs2 & Hlen2 & Hs2). apply wp_ret. split; [done|].
  exists (ys ++ zs), hd2, v2, g2, fs2. rewrite length_app. split; [lia|done].
Qed.

(** ** Sender and receiver *)

(** [lr] is the other end of [lo]. *)
Record peers : Prop := {
  pe_there : l_remote_component lo = l_local_component lr;
  pe_back : l_remote_component lr = l_local_component lo;
  pe_queue w q : transport_queue (l_transport lo) w q → transport_queue (l_transport lr) w q }.

(** The sender leaves the receiver the packets it sent. *)
Lemma sending_receiver data hd views I depth xs hd' views' g fs w :
  peers → a ≠ 0 → sending fuel a pool cs csr lo lr data hd views I [] depth 0 xs hd' views' g fs w →
  receiver_state a pool csr lr hd' views' xs w.
Proof.
  intros [Hthere Hback Hqueue] Ha [_ _ Hpeer Hviews Hb _ _ _ _ _ Hq _ _ _ _ Hsent Hslots _].
  split; [by split|by apply Hqueue| |done].
  eapply Forall_impl; [exact Hsent|]. intros x [[] _]. split; [|done].
  split; [split| |done|done].
  - by rewrite Hback.
  - by rewrite <- Hthere.
  - by rewrite (rr_pool _ _ _ _ Hpeer).
  - done.
  - eexists _, _. rewrite dp_view0, dp_source0, Hthere. done.
Qed.

End process.

(** ** Two packets from component 7 to component 9 *)
#[local] Existing Instance linux_apart.
#[local] Existing Instance linux_room.
Definition pair_edges : list (edge_link_t zipc_platform_transport_t) :=
  [EdgeLink 77 112 (-1) (Some (demo_link 7 9)) (Some (demo_link 9 7))].
Lemma demo_setup :
  sender_setup 2 demo_pool (demo_link 7 9) (pattern 16) demo_header (demo_views demo_free demo_free) [].
Proof. split; try done. intros i rw e. apply demo_protects. Qed.
Lemma demo_sending :
  sending 5 2 demo_pool demo_component demo_component (demo_link 7 9) (demo_link 9 7) (pattern 16)
    demo_header (demo_views demo_free demo_free) (λ _, True) [] 4 2 [] demo_header
    (demo_views demo_free demo_free) (ZipcGenerator 3 12 0) [0; 1] demo_idle.
Proof.
  split; try done.
  - by apply demo_pool_views; apply demo_free_ok.
  - cbn. lia.
  - apply empty_queue.
  - by exists 77.
  - split_and!; [by repeat constructor; set_solver|cbn; lia|].
    repeat constructor; cbn; try lia; by eexists.
  - constructor.
Qed.
