(* ===== verification/PingSpec.v ===== *)
(** * The round-trip utility: theorems

    The statistics of a list of round trips; and one probe along a chain of two
    components, from its allocation to the measured reply, over the link contract
    of LinkSpec.v and the independence of the two directions (Apart.v). *)
From S2P Require Import Prelude Types Packing Visited Prog Store Identity Slot SlotRun.
From S2P Require Import IdentitySpec SlotSpec Alloc Recovery Ring RingSpec Buffer BufferSpec Link LinkSpec.
From S2P Require Import Apart Delivery Packetrate Demo LinuxTransport LinuxTransportSpec LinuxDemo Relay.
From S2P Require Import Sender Spawn Ping.

(** ** Statistics *)
Definition sum_list (l : list Z) : Z := foldr Z.add 0 l.

Lemma sum_list_app l l' : sum_list (l ++ l') = sum_list l + sum_list l'.
Proof. induction l as [|x l IH]; cbn; [done|]. unfold sum_list in *. lia. Qed.
Lemma sum_list_bounds lo hi l :
  Forall (λ x, lo <= x <= hi) l →
  lo * Z.of_nat (length l) <= sum_list l <= hi * Z.of_nat (length l).
Proof. induction 1 as [|x l Hx _ IH]; cbn [length sum_list foldr]; [lia|]. fold (sum_list l). lia. Qed.

(** The probes counted one after the other. *)
Definition count_all (rtts : list Z) (st : ping_stats) : ping_stats :=
  foldl (λ st rtt, count_reply rtt (count_sent st)) st rtts.

(** What the statistics say of the round trips [l]. *)
Record stats_of (l : list Z) (st : ping_stats) : Prop := {
  so_min : pg_min_ns st = foldr Z.min UINT64_MAX l;
  so_max : pg_max_ns st = foldr Z.max 0 l;
  so_sum : pg_sum_ns st = u64 (sum_list l);
  so_sent : pg_transmitted st = u32 (Z.of_nat (length l));
  so_received : pg_received st = u32 (Z.of_nat (length l)) }.

Lemma foldr_min_snoc l x b : foldr Z.min b (l ++ [x]) = Z.min x (foldr Z.min b l).
Proof. induction l as [|y l IH]; cbn; [done|]. rewrite IH. lia. Qed.
Lemma foldr_max_snoc l x b : foldr Z.max b (l ++ [x]) = Z.max x (foldr Z.max b l).
Proof. induction l as [|y l IH]; cbn; [done|]. rewrite IH. lia. Qed.
Lemma foldr_min_le l b x : x ∈ l → foldr Z.min b l <= x.
Proof.
  induction l as [|y l IH]; [by intros ?%elem_of_nil|]. intros [->|Hx]%elem_of_cons; cbn; [lia|].
  specialize (IH Hx). lia.
Qed.
Lemma foldr_max_ge l b x : x ∈ l → x <= foldr Z.max b l.
Proof.
  induction l as [|y l IH]; [by intros ?%elem_of_nil|]. intros [->|Hx]%elem_of_cons; cbn; [lia|].
  specialize (IH Hx). lia.
Qed.

Lemma foldr_min_in b l : Forall (λ x, x <= b) l → l ≠ [] → foldr Z.min b l ∈ l.
Proof.
  induction 1 as [|x l Hx Hl IH]; [done|]. intros _. cbn. destruct l as [|y l].
  { cbn. replace (Z.min x b) with x by lia. left. }
  destruct (Z.min_spec x (foldr Z.min b (y :: l))) as [[_ ->]|[_ ->]]; [left|].
  right. by apply IH.
Qed.
Lemma foldr_max_in b l : Forall (λ x, b <= x) l → l ≠ [] → foldr Z.max b l ∈ l.
Proof.
  induction 1 as [|x l Hx Hl IH]; [done|]. intros _. cbn. destruct l as [|y l].
  { cbn. replace (Z.max x b) with x by lia. left. }
  destruct (Z.max_spec x (foldr Z.max b (y :: l))) as [[_ ->]|[_ ->]]; [|left].
  right. by apply IH.
Qed.

Lemma stats_of_snoc l x st : stats_of l st → stats_of (l ++ [x]) (count_reply x (count_sent st)).
Proof.
  intros [Hmin Hmax Hsum Hs Hr]. split; cbn.
  - rewrite foldr_min_snoc, Hmin. destruct (Z.ltb_spec x (foldr Z.min UINT64_MAX l)); lia.
  - rewrite foldr_max_snoc, Hmax. destruct (Z.ltb_spec (foldr Z.max 0 l) x); lia.
  - rewrite sum_list_app, Hsum. cbn. unfold u64. rewrite Zplus_mod_idemp_l. f_equal. lia.
  - rewrite length_app, Hs. cbn. unfold u32. rewrite Zplus_mod_idemp_l. f_equal. lia.
  - rewrite length_app, Hr. cbn. unfold u32. rewrite Zplus_mod_idemp_l. f_equal. lia.
Qed.
Lemma stats_of_all l : stats_of l (count_all l zero_stats).
Proof.
  induction l as [|x l IH] using rev_ind; [done|]. unfold count_all in *. rewrite foldl_app.
  by apply stats_of_snoc.
Qed.

(** The summary of zipc-ping is that of the round trips measured: after any
    list of replies the minimum and maximum are those of the list and the counters
    its length; and when the times add up to less than 2^64 ns (584 years), the
    average printed is their mean rounded down and lies between the two. *)
Theorem ping_statistics l :
  Forall in_u64 l → l ≠ [] → Z.of_nat (length l) <= UINT32_MAX → sum_list l <= UINT64_MAX →
  let st := count_all l zero_stats in
  let least := foldr Z.min UINT64_MAX l in
  let most := foldr Z.max 0 l in
  pg_transmitted st = Z.of_nat (length l) ∧ pg_received st = Z.of_nat (length l) ∧
  (∀ x, x ∈ l → least <= x <= most) ∧ least ∈ l ∧ most ∈ l ∧
  ping_summary st = Some (least, sum_list l / Z.of_nat (length l), most) ∧
  least <= sum_list l / Z.of_nat (length l) <= most.
Proof.
  intros Hl Hne Hlen Hsum st least most.
  destruct (stats_of_all l) as [Hmin Hmax Hs Ht Hr]. fold st in Hmin, Hmax, Hs, Ht, Hr.
  assert (Hpos : 0 < Z.of_nat (length l)) by (destruct l; [done|cbn; lia]).
  rewrite u32_small in Ht, Hr by zlia.
  assert (Hin : ∀ x, x ∈ l → least <= x <= most)
    by (intros x Hx; split; [by apply foldr_min_le|by apply foldr_max_ge]).
  pose proof (sum_list_bounds least most l ltac:(by apply Forall_forall)) as Hb.
  assert (H0 : 0 <= sum_list l).
  { eapply Z.le_trans; [|apply (sum_list_bounds 0 UINT64_MAX)]; [lia|].
    eapply Forall_impl; [exact Hl|]. intros x Hx. zlia. }
  rewrite u64_small in Hs by zlia. split; [done|]. split; [done|]. split; [exact Hin|].
  split_and!.
  - apply foldr_min_in; [|done]. eapply Forall_impl; [exact Hl|]. intros x Hx. zlia.
  - apply foldr_max_in; [|done]. eapply Forall_impl; [exact Hl|]. intros x Hx. zlia.
  - unfold ping_summary. by rewrite Hr, Hs, Hmin, Hmax, (proj2 (Z.ltb_lt _ _) Hpos).
  - apply Z.div_le_lower_bound; lia.
  - apply Z.div_le_upper_bound; lia.
Qed.

(** ** Numbers in memory *)
Lemma length_le_bytes n v : length (le_bytes n v) = n.
Proof. unfold le_bytes. by rewrite length_map, length_seq. Qed.
Lemma le_bytes_S n v : le_bytes (S n) v = Z.land v 255 :: le_bytes n (Z.shiftr v 8).
Proof.
  unfold le_bytes. cbn [seq map]. rewrite Z.mul_0_r, Z.shiftr_0_r, <- seq_shift, map_map. f_equal.
  apply map_ext. intros i. f_equal. rewrite Z.shiftr_shiftr by lia. f_equal. lia.
Qed.
Lemma le_value_bytes n v : le_value (le_bytes n v) = v `mod` 2 ^ (8 * Z.of_nat n).
Proof.
  revert v. induction n as [|n IH]; intros v.
  { cbn. by rewrite Z.mod_1_r. }
  rewrite le_bytes_S. cbn [le_value foldr]. fold (le_value (le_bytes n (Z.shiftr v 8))).
  rewrite IH, (land_mask v 8), Z.shiftr_div_pow2 by lia || done.
  replace (8 * Z.of_nat (S n)) with (8 + 8 * Z.of_nat n) by lia.
  rewrite Z.pow_add_r, Z.rem_mul_r by lia. change (2 ^ 8) with 256. lia.
Qed.
Lemma le_value_u64 v : in_u64 v → le_value (le_bytes 8 v) = v.
Proof. intros Hv. rewrite le_value_bytes. apply Z.mod_small. zlia. Qed.

(** A part of a range of bytes. *)
Lemma bytes_part f x n o k l :
  bytes f x n = l → 0 <= o → 0 <= k → o + k <= n →
  bytes f (x + o) k = take (Z.to_nat k) (drop (Z.to_nat o) l).
Proof.
  intros <- Ho Hk Hle. replace n with (o + (k + (n - o - k))) by lia.
  rewrite !bytes_app by lia. rewrite drop_app_length' by (by rewrite length_bytes).
  by rewrite take_app_length' by (by rewrite length_bytes).
Qed.
Lemma probe_field f x it n now :
  bytes f x sizeof_ping_payload_t = probe_payload it n now → in_u64 it → in_u64 now →
  le_value (bytes f (x + sequence_at) 8) = it ∧ le_value (bytes f (x + depart_ns_at 0) 8) = now.
Proof.
  intros Hb Hit Hnow. split.
  - rewrite (bytes_part _ _ _ _ 8 _ Hb); [by apply le_value_u64|done..].
  - rewrite (bytes_part _ _ _ _ 8 _ Hb); [by apply le_value_u64|done..].
Qed.
Lemma length_probe it n now : Z.of_nat (length (probe_payload it n now)) = sizeof_ping_payload_t.
Proof.
  unfold probe_payload. by rewrite !length_app, !length_le_bytes, !repeat_length.
Qed.

(** ** A probe along two components *)
Section chain.
Context {E T : Type} `{Platform E} `{TransportRoom E T} `{PingOs E}.
Context (fuel : nat) (forward reverse : list (ping_edge_t T)) (a : Z).
Context (pool : zipc_pool_t) (cs csr : zipc_component_status_t) (lo lr ro rr : zipc_link_t T).
Implicit Type w : world E.
Implicit Type hd : zipc_pool_header_t.
Implicit Type views : Z → slot_view.
Abbreviation address := (slot_address pool).

(** [lo] and [lr] are the ends of the forward link, [ro] and [rr] those of the
    reverse link; the first component has [lo] and [rr], the second [lr] and
    [ro]. *)
Record ping_chain : Prop := {
  pc_forward : ∃ fd ring, forward !! 0%nat = Some (PingEdge ring fd (Some lo) (Some lr));
  pc_reverse : ∃ fd ring, reverse !! 0%nat = Some (PingEdge ring fd (Some ro) (Some rr));
  pc_there : peers (E := E) lo lr;
  pc_back : peers (E := E) ro rr;
  pc_second : relays pool lr ro;
  pc_first : l_local_component rr = l_local_component lo;
  pc_remote : zipc_component_id_valid (l_remote_component lo) = true;
  pc_deadline : l_default_deadline_ns lo = 0;
  pc_hops : l_hop_limit lo = ZIPC_HOP_LIMIT_UNLIMITED;
  pc_accepts : accepts (l_transport lo);
  pc_apart : apart (l_transport lo) (l_transport ro);
  pc_apart' : apart (l_transport rr) (l_transport lr);
  pc_base : 0 < p_payload_base pool;
  pc_buffer : a ≠ 0;
  pc_clock (e : E) : is_Some (clock_gettime e).1 }.

(** The store before the probe: the components are registered, the links idle,
    and there is a slot and an identifier for the probe. *)
Record ping_ready hd views (g : zipc_buffer_id_generator_t) (d d' : Z) w : Prop := {
  pr_lo : receiver_ready lo pool cs w;
  pr_lr : receiver_ready lr pool csr w;
  pr_rr : receiver_ready rr pool cs w;
  pr_views : pool_views pool hd views w;
  pr_slot : ∃ i, 0 <= i < h_slot_count hd ∧ free_view (views i);
  pr_object : is_Some (w_buffers w !! a);
  pr_generator : w_generators w !! l_local_component lo = Some g;
  pr_generator_ok : generator_ok g;
  pr_identifiers : ¬ exhausted g;
  pr_fuel : (length (w_spurious w) + 1 < fuel)%nat;
  pr_count : h_slot_count hd <= 2147483648;
  pr_capacity : sizeof_ping_payload_t <= h_slot_capacity hd <= h_slot_stride hd;
  pr_mappable : mappable (E := E) pool hd;
  pr_queue : transport_queue (l_transport lo) w [];
  pr_room : transport_depth (l_transport lo) d w ∧ 0 < d;
  pr_queue' : transport_queue (l_transport ro) w [];
  pr_room' : transport_depth (l_transport ro) d' w ∧ 0 < d' }.

(** A time that the clock showed in some state of the platform. *)
Definition clock_reading (t : Z) : Prop :=
  ∃ (e : E) sec nsec, (clock_gettime e).1 = Some (sec, nsec) ∧
    t = u64 (u64 (u64 sec * 1000000000) + u64 nsec).
Lemma reading_range t : clock_reading t → in_u64 t.
Proof. intros (e & sec & nsec & _ & ->). apply u64_range. Qed.
Lemma wp_with_now {A} (k : Z → prog (world E) (exit_code + A)) Q w :
  ping_chain → (∀ t e, clock_reading t → wp (k t) Q (put_env e w)) → wp (with_now k) Q w.
Proof.
  intros Hch Hk. unfold with_now. apply wp_bind, wp_env_call.
  destruct (pc_clock Hch (w_env w)) as [[sec nsec] Ht]. rewrite Ht. apply Hk.
  by eexists _, _, _.
Qed.
Lemma wp_check {A} p (k : prog (world E) (exit_code + A)) Q w :
  wp p (λ st w', st = ZIPC_OK ∧ wp k Q w') w → wp (CHECK p k) Q w.
Proof.
  intros Hp. unfold CHECK. apply wp_bind. eapply wp_mono; [exact Hp|].
  intros st w' [-> Hk]. by status_eval.
Qed.
Lemma wp_ping_edge (edges : list (ping_edge_t T)) i e Q w :
  0 <= i → edges !! Z.to_nat i = Some e → Q e w → wp (ping_edge_at edges i) Q w.
Proof.
  intros Hi He HQ. unfold ping_edge_at. rewrite (proj2 (Z.leb_le 0 i) Hi), He. by apply wp_ret.
Qed.
Lemma wp_load n x o Q w :
  x ≠ 0 → Q (le_value (bytes (w_payload w) (x + o) (Z.of_nat n))) w → wp (load_field (n := n) x o) Q w.
Proof.
  intros Hx HQ. unfold load_field. rewrite (proj2 (Z.eqb_neq x 0) Hx). apply wp_bind.
  eapply wp_act; [done|]. apply wp_ret. by rewrite bytes_seq.
Qed.
Lemma wp_store n x o v Q w :
  x ≠ 0 → Q tt (put_payload (copy_in (x + o) (le_bytes n v) (w_payload w)) w) →
  wp (store_field (n := n) x o v) Q w.
Proof.
  intros Hx HQ. unfold store_field. rewrite (proj2 (Z.eqb_neq x 0) Hx). by eapply wp_act.
Qed.

(** *** The probe is sent *)

(** A probe that is on its way to the second component. *)
Record probed hd views d' (it now : Z) (x : packet) w hd' w' : Prop := {
  pb_geometry : same_geometry hd hd';
  pb_views : pool_views pool hd' (set_view views (pk_slot x) (SlotView (InTransfer
    (l_local_component lo) (l_local_epoch lo) (l_remote_component lo) (l_link_id lo)
    (pk_info x)) 0)) w';
  pb_free : free_view (views (pk_slot x));
  pb_range : 0 <= pk_slot x < h_slot_count hd;
  pb_message : pk_message x = ZipcMessage (m_handle (pk_message x)) (p_pool_id pool)
    (l_local_component lo) (l_remote_component lo) (bi_sequence (pk_info x)) 0;
  pb_generation : bi_generation (pk_info x) = zipc_handle_generation (m_handle (pk_message x));
  pb_limits : unlimited (pk_info x);
  pb_region : bi_region (pk_info x) = ZipcRegion 0 sizeof_ping_payload_t;
  pb_hops : bi_hop_count (pk_info x) = 1;
  pb_queue : transport_queue (l_transport lo) w' [pk_message x];
  pb_queue' : transport_queue (l_transport ro) w' [] ∧ transport_depth (l_transport ro) d' w';
  pb_components : w_components w' = w_components w;
  pb_object : w_buffers w' !! a = Some zero_buffer;
  pb_payload : bytes (w_payload w') (address hd (pk_slot x)) sizeof_ping_payload_t
    = probe_payload it 2 now }.

Lemma fresh_env (link : zipc_link_t T) hd views size b s e w :
  fresh_buffer link pool hd views a size b s w → fresh_buffer link pool hd views a size b s (put_env e w).
Proof.
  intros [[[] [] ? ? ? ? ? ? ?] [[] ? ?] ? ? ? ? ? ? ? ? ?].
  by split.
Qed.

Lemma wp_send_probe hd views g d d' it w :
  ping_chain → ping_ready hd views g d d' w → in_u64 it →
  wp (send_probe fuel forward a 2 it)
    (λ r w', r = inr tt ∧ ∃ x hd' now, clock_reading now ∧ probed hd views d' it now x w hd' w') w.
Proof.
  intros Hch Hr Hit.
  pose proof Hch as [(fd & ring & Hedge) _ Hthere _ Hrel _ Hrem Hdl Hhop Hacc Hap _ _ Ha _].
  pose proof Hr as [Hlo _ _ Hviews Hslot Hobj Hgen Hgok Hnx Hfuel Hcount [Hcap Hstr] Hmap Hq [Hd Hd0]
    Hq' [Hd' Hd0']].
  unfold send_probe. apply wp_bind. eapply wp_ping_edge; [lia|exact Hedge|]. cbn [pe_sender].
  apply wp_check.
  change (zipc_buffer_alloc_ex fuel (Some lo) 0 0 0 a 0) with (zipc_buffer_alloc fuel (Some lo) 0 a 0).
  eapply wp_mono; [eapply (wp_alloc_fresh fuel lo pool hd cs g views a 0); try done|].
  { destruct (pv_capacity _ _ _ _ Hviews). lia. }
  intros r w1 [Hok Hres].
  assert (Hcan : can_allocate (E := E) pool hd views g)
    by (split; [done|done|done|intros i e; apply Hmap]).
  rewrite (Hok Hcan) in *. split; [done|].
  destruct Hres as (hd1 & b & s & session & sequence & Hfresh & G1 & Hc1 & Hr1 & _ & Hp1 & _ & Hfv & _);
    [done|].
  apply wp_with_now; [done|]. intros now e Hnow. apply wp_check.
  set (data := probe_payload it 2 now).
  replace sizeof_ping_payload_t with (Z.of_nat (length (default [] (Some data)))) by apply length_probe.
  eapply wp_mono; [apply (wp_fill_fresh a pool lo (Some data) hd1 views b s)|].
  { by apply fresh_env. }
  { done. }
  { change (default [] (Some data)) with data. unfold data. by rewrite length_probe, (proj1 (proj2 G1)). }
  intros st w2 (-> & f & b2 & s2 & Hfresh2 & Hid2 & Hbytes & _ & Hp2 & Hc2 & Hr2 & _).
  split; [done|]. apply wp_check.
  pose proof Hfresh2 as [Hcan2 Hv2 _ Hrange Htok Hreg Hlim Hdl2 Hbase _ Hhops].
  assert (C : carried (l_transport lo) (λ w, transport_queue (l_transport ro) w [] ∧
    transport_depth (l_transport ro) d' w)).
  { apply carried_and; [by apply carried_queue|apply carried_depth; by left]. }
  assert (Hrings : w_rings w2 = w_rings w) by (by rewrite Hr2).
  eapply wp_mono; [eapply (wp_hand_over a pool lo _ hd1 views b2 s2 [] d w2 C); try done|].
  - by apply (mappable_geometry _ hd).
  - by eapply transport_queue_frame, Hq.
  - by eapply depth_rings, Hd.
  - by apply (carried_rings _ _ C w).
  - intros st w3 (-> & hd3 & [G3 Hv3 Hq3 _ HI Hc3 Hp3 Hb3 _ _]). split; [done|]. apply wp_ret. split; [done|].
    pose proof Hcan2 as [Hov Hat Hid Hlt Hsok Hpool Hown Hep _].
    set (x := Packet (announcement lo b2 s2) (next_sequence (info_of s2))).
    assert (Hx : pk_slot x = b_slot_id b2) by (unfold pk_slot; cbn; by rewrite Hid).
    exists x, hd3, now. split; [done|]. pose proof (same_geometry_trans _ _ _ G1 G3) as G13.
    split; try done; rewrite ?Hx.
    + done.
    + by rewrite Hid2.
    + rewrite <- (proj1 G1). done.
    + cbn. by rewrite <- (rr_pool _ _ _ _ Hlo).
    + exact (ov_generation _ _ _ _ _ _ Hov).
    + by rewrite Hc3, Hc2, <- Hc1.
    + rewrite Hb3. apply lookup_insert_eq.
    + rewrite Hp3, Hp2, Hid2. change (default [] (Some data)) with data in Hbytes. unfold data in Hbytes at 1.
      rewrite length_probe in Hbytes. unfold slot_address in *. by rewrite <- (proj2 (proj2 G1)).
Qed.

(** *** The probe is reflected *)

(** Clock readings and stores to the payload keep a received buffer. *)
Record only_payload (f : Z → Z) w w' : Prop := {
  op_headers : w_headers w' = w_headers w;
  op_controls : w_controls w' = w_controls w;
  op_components : w_components w' = w_components w;
  op_rings : w_rings w' = w_rings w;
  op_buffers : w_buffers w' = w_buffers w;
  op_payload : w_payload w' = f }.
Lemma owned_view_touch v k s f w w' :
  only_payload f w w' → owned_view a v k s pool w → owned_view a v k s pool w'.
Proof. intros [O1 O2 O3 O4 O5 O6] []. split; rewrite ?O5, ?O2, ?O3; done. Qed.
Lemma pool_views_touch hd views f w w' :
  only_payload f w w' → pool_views pool hd views w → pool_views pool hd views w'.
Proof.
  intros [O1 O2 O3 O4 O5 O6] [[] ? Hs]. split; [split; rewrite ?O1, ?O2, ?O3; done|done|].
  by rewrite O2.
Qed.
Lemma taken_touch li hd views x q I f w hd' s v w1 w2 :
  carried (l_transport li) I → only_payload f w1 w2 →
  taken a pool li hd views x q I w hd' s v w1 →
  taken a pool li hd views x q I (put_payload f w) hd' s v w2.
Proof.
  intros C Ho [G Hv Hown Hok Hov Hid Hh Hq HI Hc Hp Hb]. pose proof Ho as [O1 O2 O3 O4 O5 O6].
  split; try done.
  - by eapply pool_views_touch.
  - by eapply owned_view_touch.
  - by eapply transport_queue_frame, Hq.
  - by eapply (carried_rings _ _ C).
  - by rewrite O3.
Qed.

Lemma wp_data v k s x Q w :
  owned_view a v k s pool w → s_region s = ZipcRegion 0 sizeof_ping_payload_t → b_slot_base v = x →
  Q x w → wp (zipc_buffer_data a) Q w.
Proof.
  intros Hov Hreg Hb HQ. unfold zipc_buffer_data. eapply wp_if_owned; [exact Hov|]. apply wp_ret.
  by rewrite (ov_data _ _ _ _ _ _ Hov), Hreg, Hb, Z.add_0_r.
Qed.

Definition stamped (x arrival depart : Z) (f : Z → Z) : Z → Z :=
  copy_in (x + depart_ns_at 1) (le_bytes 8 depart) (copy_in (x + arrival_ns_at 1) (le_bytes 8 arrival) f).

Lemma wp_stamp {A} x (k : prog (world E) (exit_code + A)) Q w :
  ping_chain → x ≠ 0 →
  (∀ t1 t2 w', clock_reading t1 → clock_reading t2 → only_payload (stamped x t1 t2 (w_payload w)) w w' → wp k Q w') →
  wp (stamp 1 x k) Q w.
Proof.
  intros Hch Hx Hk. unfold stamp. apply wp_with_now; [done|]. intros t1 e1 Ht1. apply wp_bind.
  apply wp_store; [done|]. apply wp_with_now; [done|]. intros t2 e2 Ht2. apply wp_bind.
  apply wp_store; [done|]. by apply (Hk t1 t2).
Qed.

Record reflected hd views (x : packet) (arrival depart : Z) w hd' w' : Prop := {
  rf_geometry : same_geometry hd hd';
  rf_views : pool_views pool hd' (set_view views (pk_slot x) (passed_on lr ro x)) w';
  rf_queue : transport_queue (l_transport ro) w' [forwarded pool lr ro x];
  rf_queue' : transport_queue (l_transport lr) w' [];
  rf_components : w_components w' = w_components w;
  rf_object : w_buffers w' !! a = Some zero_buffer;
  rf_payload : w_payload w' = stamped (address hd (pk_slot x)) arrival depart (w_payload w) }.

Lemma probed_announced hd views d' it now x w hd' w' :
  ping_chain → receiver_ready lr pool csr w → probed hd views d' it now x w hd' w' →
  announced lr hd' (set_view views (pk_slot x) (SlotView (InTransfer
    (l_local_component lo) (l_local_epoch lo) (l_remote_component lo) (l_link_id lo)
    (pk_info x)) 0) (pk_slot x)) (pk_message x) (pk_info x).
Proof.
  intros Hch Hlr [G _ _ Hrange Hm Hg _ _ _ _ _ _ _ _]. destruct (pc_there Hch) as [Hthere Hback _].
  unfold set_view. rewrite Z.eqb_refl. split; [split|..].
  - rewrite Hm, Hback. done.
  - rewrite Hm, <- Hthere. done.
  - rewrite Hm, (rr_pool _ _ _ _ Hlr). done.
  - rewrite (proj1 G). apply Hrange.
  - eexists _, _. rewrite Hm, Hthere. cbn. done.
  - done.
  - by rewrite Hm.
Qed.

Lemma wp_reflect hd views g d d' it now x w0 hd1 w :
  ping_chain → ping_ready hd views g d d' w0 → probed hd views d' it now x w0 hd1 w →
  wp (responder_turn fuel forward reverse a 2 1)
    (λ r w', r = inr tt ∧ ∃ hd2 arrival depart, clock_reading arrival ∧ clock_reading depart ∧
       reflected hd views x arrival depart w hd2 w') w.
Proof.
  intros Hch Hr Hpb. pose proof (probed_announced _ _ _ _ _ _ _ _ _ Hch (pr_lr _ _ _ _ _ _ Hr) Hpb) as Hann.
  pose proof Hpb as [G1 Hv1 Hfree Hrange Hm Hg Hun Hreg Hhops Hq [Hq' Hd'] Hc Hb Hp].
  pose proof Hch as [(fd & ring & Hfe) (fd' & ring' & Hre) Hthere Hbk Hrel _ _ _ _ _ _ _ Hbase Ha _].
  pose proof (pr_mappable _ _ _ _ _ _ Hr) as Hmap. pose proof (pr_room' _ _ _ _ _ _ Hr) as [_ Hd0].
  set (views1 := set_view views (pk_slot x) _) in *.
  unfold responder_turn. apply wp_bind. eapply wp_ping_edge; [done|exact Hfe|]. cbn [pe_receiver].
  apply wp_check.
  assert (C : carried (l_transport lr) (λ w, transport_queue (l_transport ro) w [] ∧
    transport_depth (l_transport ro) d' w)).
  { apply carried_and; [apply carried_queue|apply carried_depth; left]; apply Hrel. }
  eapply wp_mono; [apply (wp_take fuel a pool csr lr hd1 views1 x [] _ w C); try done|].
  { destruct (pr_lr _ _ _ _ _ _ Hr). split; [split; rewrite ?Hc; done|done|done|by eexists]. }
  { by apply (pe_queue _ _ Hthere). }
  { by apply (mappable_geometry _ hd). }
  { pose proof (pr_fuel _ _ _ _ _ _ Hr). lia. }
  intros st w1 (-> & hd2 & s & v & Htk). split; [done|].
  pose proof Htk as [G2 _ Hown _ Hov _ _ _ _ Hc2 Hpay Hvb].
  pose proof Hown as (_ & _ & _ & Hinfo & _)%abs_owned.
  assert (Hsreg : s_region s = ZipcRegion 0 sizeof_ping_payload_t)
    by (pose proof (f_equal bi_region Hinfo) as Hir; cbn in Hir; congruence).
  rewrite (proj2 (proj2 G1)) in Hvb. fold (address hd (pk_slot x)) in Hvb.
  assert (Hx0 : address hd (pk_slot x) ≠ 0).
  { unfold slot_address. pose proof (pr_capacity _ _ _ _ _ _ Hr) as [Hk1 Hk2].
    change sizeof_ping_payload_t with 272 in Hk1. nia. }
  apply wp_bind. eapply wp_data; [exact Hov|exact Hsreg|exact Hvb|].
  apply wp_stamp; [done|done|]. intros t1 t2 w2 Ht1 Ht2 Ho.
  change (u32 (1 + 1) =? 2) with true. cbv iota.
  apply wp_bind. eapply wp_ping_edge; [done|exact Hre|]. cbn [pe_sender]. apply wp_check.
  eapply wp_mono; [eapply (wp_pass a pool lr ro hd1 views1 x [] [] d' _ w2 hd2 s v Hrel)|].
  - eapply taken_touch; [exact C|exact Ho|exact Htk].
  - done.
  - apply (mappable_geometry _ hd); [by eapply same_geometry_trans|done].
  - rewrite (proj1 G2), (proj1 G1). apply Hrange.
  - done.
  - intros st w3 (-> & hd3 & G3 & Hv3 & Hq3 & Hqo3 & _ & Hc3 & Hp3 & Hb3). split; [done|].
    apply wp_ret. split; [done|]. exists hd3, t1, t2. split; [done|]. split; [done|].
    pose proof Ho as [_ _ O3 _ O5 O6].
    split.
    + eapply same_geometry_trans; [exact G1|]. by eapply same_geometry_trans.
    + eapply pool_views_ext; [exact Hv3|]. intros j. unfold views1, set_view. by destruct (j =? pk_slot x).
    + exact Hqo3.
    + exact Hq3.
    + by rewrite Hc3, O3, Hc2.
    + rewrite Hb3. apply lookup_insert_eq.
    + by rewrite Hp3, O6, Hpay.
Qed.

(** *** The reply is measured *)
Lemma wp_hop_count v k s Q w :
  owned_view a v k s pool w → Q (s_hop_count s) w → wp (zipc_buffer_hop_count a) Q w.
Proof.
  intros [Ha Hb Hl Hk Hp Hs _ Hg _ _ _ _ _ _ _ _] HQ.
  unfold zipc_buffer_hop_count, if_valid, buffer_valid, control_read.
  rewrite (proj2 (Z.eqb_neq a 0) Ha). apply wp_bind.
  apply wp_bind. eapply wp_buffer_read; [exact Hb|]. apply wp_ret.
  unfold view_valid. rewrite Hl, Hk, Hp. cbn [negb]. apply wp_bind.
  eapply wp_buffer_read; [exact Hb|]. rewrite Hk. by eapply wp_slot_read.
Qed.

(** The fields of a probe that was stamped. *)
Lemma stamped_fields x t1 t2 f :
  in_u64 t1 →
  bytes (stamped x t1 t2 f) (x + sequence_at) 8 = bytes f (x + sequence_at) 8 ∧
  bytes (stamped x t1 t2 f) (x + depart_ns_at 0) 8 = bytes f (x + depart_ns_at 0) 8 ∧
  le_value (bytes (stamped x t1 t2 f) (x + arrival_ns_at 1) 8) = t1.
Proof.
  intros Ht1. pose proof (length_le_bytes 8 t1) as L1. pose proof (length_le_bytes 8 t2) as L2.
  unfold stamped, sequence_at, depart_ns_at, arrival_ns_at, MAX_COMPONENTS. split_and!.
  - apply bytes_ext. intros y Hy. by rewrite !copy_in_outside by lia.
  - apply bytes_ext. intros y Hy. by rewrite !copy_in_outside by lia.
  - rewrite (bytes_ext _ (copy_in (x + (16 + 8 * 16 + 8 * 1)) (le_bytes 8 t1) f)).
    + replace 8 with (Z.of_nat (length (le_bytes 8 t1))) at 4 by (by rewrite L1).
      rewrite bytes_copy_in. by apply le_value_u64.
    + intros y Hy. by rewrite copy_in_outside by lia.
Qed.

(** What is read of a probe that came back. *)
Lemma reply_fields x it now t1 t2 f :
  bytes f x sizeof_ping_payload_t = probe_payload it 2 now → in_u64 it → in_u64 now → in_u64 t1 →
  let f' := stamped x t1 t2 f in
  le_value (bytes f' (x + sequence_at) 8) = it ∧
  le_value (bytes f' (x + depart_ns_at 0) 8) = now ∧
  le_value (bytes f' (x + arrival_ns_at 1) 8) = t1.
Proof.
  intros Hb Hit Hnow Ht1. cbv zeta. destruct (stamped_fields x t1 t2 f Ht1) as (-> & -> & ->).
  destruct (probe_field _ _ _ _ _ Hb Hit Hnow) as [-> ->]. done.
Qed.

Lemma wp_load_reply x it now t1 Q w :
  x ≠ 0 → le_value (bytes (w_payload w) (x + sequence_at) 8) = it →
  le_value (bytes (w_payload w) (x + depart_ns_at 0) 8) = now →
  le_value (bytes (w_payload w) (x + arrival_ns_at 1) 8) = t1 →
  Q (now, it, t1, [u64 (t1 - now)]) w → wp (load_reply 2 x) Q w.
Proof.
  intros Hx F1 F2 F3 HQ. unfold load_reply. change (u32 (2 - 1)) with 1.
  change (Z.to_nat (2 - 1)) with 1%nat. cbn [read_hops]. change (1 - 1) with 0.
  do 3 (apply wp_bind, wp_load; [done|]; change (Z.of_nat 8) with 8). apply wp_bind.
  do 2 (apply wp_bind, wp_load; [done|]; change (Z.of_nat 8) with 8). apply wp_bind, wp_ret, wp_ret, wp_ret.
  by rewrite F1, F2, F3.
Qed.

(** The packet that comes back. *)
Definition reply_packet (x : packet) : packet :=
  Packet (forwarded pool lr ro x) (next_sequence (one_more_hop (l_local_component lr) (pk_info x))).

Lemma reflected_announced hd views d' it now x w0 hd1 w t1 t2 hd2 w' :
  ping_chain → receiver_ready rr pool cs w0 → probed hd views d' it now x w0 hd1 w →
  reflected hd views x t1 t2 w hd2 w' →
  announced rr hd2 (set_view views (pk_slot x) (passed_on lr ro x) (pk_slot x))
    (pk_message (reply_packet x)) (pk_info (reply_packet x)).
Proof.
  intros Hch Hrr [_ _ _ Hrange _ Hg _ _ _ _ _ _ _ _] [G _ _ _ _ _ _].
  destruct (pc_back Hch) as [Hthere Hback _]. destruct (pc_second Hch) as [_ Hloc Hep _ _ _ _].
  unfold set_view. rewrite Z.eqb_refl. split; [split|..]; cbn.
  - by rewrite Hback, Hloc.
  - done.
  - by rewrite (rr_pool _ _ _ _ Hrr).
  - rewrite (proj1 G). apply Hrange.
  - eexists _, _. unfold passed_on. by rewrite <- Hthere.
  - done.
  - done.
Qed.

(** The probe is over: its slot is free again and nothing else has changed. *)
Record probe_over hd views w hd' w' : Prop := {
  ov_geometry : same_geometry hd hd';
  ov_views : ∃ i views', pool_views pool hd' views' w' ∧ free_view (views i) ∧ free_view (views' i) ∧
    ∀ j, j ≠ i → views' j = views j;
  ov_forward : transport_queue (l_transport lr) w' [];
  ov_reverse : transport_queue (l_transport rr) w' [];
  ov_components : w_components w' = w_components w;
  ov_object' : w_buffers w' !! a = Some zero_buffer }.

Lemma wp_end_probe hd views views2 x hd3 s v w0 w :
  same_geometry hd hd3 → mappable (E := E) pool hd → 0 <= pk_slot x < h_slot_count hd →
  free_view (views (pk_slot x)) → (∀ j, j ≠ pk_slot x → views2 j = views j) →
  pool_views pool hd3 (set_view views2 (pk_slot x) (abs_slot s)) w →
  slot_ok (h_slot_capacity hd3) s → owned_view a v (slot_key pool (pk_slot x)) s pool w →
  b_handle v = m_handle (pk_message x) → s_claim_token s = 0 →
  transport_queue (l_transport lr) w [] → transport_queue (l_transport rr) w [] →
  w_components w = w_components w0 →
  wp (zipc_buffer_release a) (λ st w', st = ZIPC_OK ∧ ∃ hd', probe_over hd views w0 hd' w') w.
Proof.
  intros G Hmap Hrange Hfree Hothers Hv Hok Hov Hh Htok Hq Hq' Hc.
  pose proof (mappable_geometry _ _ _ G Hmap) as Hmap3.
  assert (Hi : zipc_handle_slot_id (b_handle v) = pk_slot x) by (by rewrite Hh).
  eapply wp_mono; [apply (wp_release_view a v s pool hd3); rewrite ?Hi; try done|].
  { apply Hv. }
  { rewrite (proj1 G). apply Hrange. }
  intros st w' Hres. cbv zeta in Hres. rewrite Hi in Hres.
  destruct Hres as (-> & s' & (Hctl & Hhdr & Hsr) & Habs & Hok' & Hb).
  { intros e0. apply Hmap3. rewrite (proj1 G). apply Hrange. }
  split; [done|]. exists (bump_release hd3). split; try done.
  - exists (pk_slot x), (λ j, if j =? pk_slot x then abs_slot s'
      else set_view views2 (pk_slot x) (abs_slot s) j).
    split_and!; [|done|rewrite Z.eqb_refl, Habs; by eexists|].
    + eapply (pool_views_set pool hd3 (bump_release hd3)); try done; [by rewrite (proj1 G)|by apply Hok'|apply Hsr].
    + intros j Hj. unfold set_view. rewrite (proj2 (Z.eqb_neq _ _) Hj). by apply Hothers.
  - eapply transport_queue_frame, Hq. apply Hsr.
  - eapply transport_queue_frame, Hq'. apply Hsr.
  - by rewrite (sr_components _ _ Hsr).
  - rewrite Hb. apply lookup_insert_eq.
Qed.

Lemma wp_read_reply hd views g d d' it now x st w0 hd1 w1 t1 t2 hd2 w :
  ping_chain → ping_ready hd views g d d' w0 → probed hd views d' it now x w0 hd1 w1 →
  reflected hd views x t1 t2 w1 hd2 w → in_u64 it → in_u64 now → in_u64 t1 →
  wp (read_reply fuel reverse a 2 st)
    (λ r w', ∃ arrived, clock_reading arrived ∧
       r = inr (count_reply (u64 (arrived - now)) st,
                Reply_line it (u64 (arrived - now)) (u64 (t1 - now)) [u64 (t1 - now)] 3) ∧
       ∃ hd', probe_over hd views w0 hd' w') w.
Proof.
  intros Hch Hr Hpb Hrf Hit Hnow Ht1.
  pose proof (reflected_announced _ _ _ _ _ _ _ _ _ _ _ _ _ Hch (pr_rr _ _ _ _ _ _ Hr) Hpb Hrf) as Hann.
  pose proof Hpb as [G1 _ Hfree Hrange _ _ Hun Hreg Hhops _ _ Hc1 _ Hp1].
  pose proof Hrf as [G2 Hv2 Hq Hq' Hc2 Hb2 Hp2].
  pose proof Hch as [_ (fd & ring & Hre) _ Hbk Hrel _ _ _ _ _ _ Hap' Hbase Ha _].
  pose proof (pr_mappable _ _ _ _ _ _ Hr) as Hmap.
  set (views2 := set_view views (pk_slot x) (passed_on lr ro x)) in *.
  unfold read_reply. apply wp_bind. eapply wp_ping_edge; [lia|exact Hre|]. cbn [pe_receiver].
  apply wp_check.
  assert (C : carried (l_transport rr) (λ w, transport_queue (l_transport lr) w [])) by (by apply carried_queue).
  eapply wp_mono; [apply (wp_take fuel a pool cs rr hd2 views2 (reply_packet x) [] _ w C); try done|].
  { destruct (pr_rr _ _ _ _ _ _ Hr). split; [split; rewrite ?Hc2, ?Hc1; done|done|done|by eexists]. }
  { by apply (pe_queue _ _ Hbk). }
  { by apply (mappable_geometry _ hd). }
  { pose proof (pr_fuel _ _ _ _ _ _ Hr). lia. }
  intros r w2 (-> & hd3 & s & v & Htk). split; [done|].
  apply wp_with_now; [done|]. intros arrived e Harr.
  assert (Ho : only_payload (w_payload w) w2 (put_env e w2)).
  { split; try done. by destruct Htk. }
  pose proof (taken_touch _ _ _ _ _ _ _ _ _ _ _ _ _ C Ho Htk) as Htk'. clear Htk Ho.
  destruct Htk' as [G3 Hv3 Hown Hok Hov Hid Hh Hq3 HI Hc3 Hp3 Hvb]. generalize dependent (put_env e w2). clear w2.
  intros w2 Hv3 Hov Hq3 HI Hc3 Hp3.
  pose proof Hown as (_ & _ & _ & Hinfo & Htok)%abs_owned.
  pose proof (f_equal bi_region Hinfo) as Hsreg. pose proof (f_equal bi_hop_count Hinfo) as Hshop.
  cbn in Hsreg, Hshop. rewrite Hreg in Hsreg. rewrite Hhops in Hshop.
  change (pk_slot (reply_packet x)) with (pk_slot x) in *.
  rewrite (proj2 (proj2 G2)) in Hvb. fold (address hd (pk_slot x)) in Hvb.
  assert (Hx0 : address hd (pk_slot x) ≠ 0).
  { unfold slot_address. pose proof (pr_capacity _ _ _ _ _ _ Hr) as [Hk1 Hk2].
    change sizeof_ping_payload_t with 272 in Hk1. nia. }
  destruct (reply_fields _ _ _ t1 t2 _ Hp1 Hit Hnow Ht1) as (F1 & F2 & F3).
  rewrite <- Hp2 in F1, F2, F3. cbn [put_payload w_payload] in Hp3. rewrite <- Hp3 in F1, F2, F3.
  apply wp_bind. eapply wp_data; [exact Hov|exact Hsreg|exact Hvb|].
  apply wp_bind. eapply wp_load_reply; [done|exact F1|exact F2|exact F3|].
  apply wp_bind. eapply wp_hop_count; [exact Hov|]. rewrite Hshop. apply wp_check.
  eapply wp_mono; [apply (wp_end_probe hd views views2 x hd3 s v w0 w2); try done|].
  - by eapply same_geometry_trans.
  - intros j Hj. unfold views2, set_view. by rewrite (proj2 (Z.eqb_neq _ _) Hj).
  - cbn in Hc3. by rewrite Hc3, Hc2, Hc1.
  - intros st' w' [-> Hover]. split; [done|]. apply wp_ret. by exists arrived.
Qed.

End chain.

(** ** The parent *)
Section parent.
Context {E : Type} `{Platform E} `{ProcessLaws E}.

Lemma running_started spawned (children : list Z) (e : E) :
  started spawned children e → running (take (length children) children) ≡ₚ ps_children e.
Proof.
  intros [Hrun Hch Hrest]. rewrite take_ge by done. rewrite <- (take_drop spawned children), <- Hch.
  unfold running. rewrite filter_app.
  assert (filter (λ c, 0 < c) (drop spawned children) = []) as ->.
  { induction Hrest as [|c l Hc _ IH]; [done|]. by rewrite filter_cons_False by lia. }
  rewrite app_nil_r. clear Hch. induction Hrun as [|c l Hc _ IH]; [done|].
  rewrite filter_cons_True by done. by rewrite IH.
Qed.

(** The parent of zipc-ping collects its processes too, although its loops look at
    the whole array. *)
Lemma wp_ping_processes fuel n (w : world E) :
  ps_children (w_env w) = [] → (n + ps_interrupts (w_env w) < fuel)%nat →
  wp (ping_processes fuel n) (λ result w', ∃ e exits, w' = put_env e w ∧ ps_children e = [] ∧
    ps_exits e = exits ++ ps_exits (w_env w) ∧
    (result = EXIT_SUCCESS ↔ length exits = n ∧ Forall (λ b, b = true) exits)) w.
Proof.
  intros Hnone Hfuel. unfold ping_processes. apply wp_bind. eapply wp_mono.
  { apply (wp_spawn n 0 (repeat 0 n)); [by rewrite repeat_length|by apply started_none]. }
  intros [[result spawned] children] w1 (e1 & -> & Hst & Hle & Hlc & Hres & Hex & Hint).
  rewrite repeat_length in Hlc. pose proof (running_started _ _ _ Hst) as Hrun. rewrite Hlc in Hrun.
  apply wp_bind. unfold reap. apply wp_bind.
  eapply wp_mono; [apply (wp_reap_loop fuel n spawned children result)|].
  - split; [done|]. cbn. rewrite <- (Permutation_length (st_children _ _ _ Hst)), length_take. lia.
  - cbn. lia.
  - intros r w3 (c' & r' & e & exits & -> & -> & He & _ & Hexits & Hlen & Hiff).
    apply wp_ret, wp_ret. cbn in Hexits. exists e, exits. rewrite Hexits, Hex.
    split; [by destruct w|]. do 2 (split; [done|]). rewrite Hiff, Hres, Hlen. done.
Qed.
End parent.

(** ** Components 7 and 9, over two polling rings *)
#[export] Instance demo_ping_os : PingOs demo := {
  clock_gettime d := (Some (0, d_clock d), {| d with d_clock := d_clock d + 1 |});
  poll_in _ _ d := (PollEvents true, d);
  nanosleep d := (SleepDone, d) }.
#[local] Existing Instance linux_apart.
#[local] Existing Instance linux_room.
Definition ping_back (local remote : Z) : zipc_link_t zipc_platform_transport_t :=
  let link := demo_link local remote in {| link with l_transport := onward_transport |}.
Definition ping_there : list (ping_edge_t zipc_platform_transport_t) :=
  [PingEdge 77 (-1) (Some (demo_link 7 9)) (Some (demo_link 9 7))].
Definition ping_return : list (ping_edge_t zipc_platform_transport_t) :=
  [PingEdge 78 (-1) (Some (ping_back 9 7)) (Some (ping_back 7 9))].
Definition ping_header : zipc_pool_header_t :=
  {| demo_header with h_slot_capacity := 512; h_slot_stride := 512 |}.
Definition ping_world : world demo :=
  put_header 1000 ping_header (put_ring 78 empty_ring demo_idle).

Lemma demo_ping_chain :
  ping_chain ping_there ping_return 2 demo_pool (demo_link 7 9) (demo_link 9 7) (ping_back 9 7)
    (ping_back 7 9).
Proof.
  split; try done.
  - by eexists _, _.
  - by eexists _, _.
  - split; try done; [exists 77, 78|exists 78, 77]; by split_and!.
  - exists 77, 78. by split_and!.
  - exists 78, 77. by split_and!.
Qed.
Lemma ping_free_ok : slot_ok 512 demo_free.
Proof. split; [split; simpl; auto with zipc; zlia|done]. Qed.
Lemma demo_ping_ready :
  ping_ready 5 2 demo_pool demo_component demo_component (demo_link 7 9) (demo_link 9 7) (ping_back 9 7)
    (ping_back 7 9) ping_header (demo_views demo_free demo_free) (ZipcGenerator 3 12 0) 4 4 ping_world.
Proof.
  assert (Hrw : ring_wf empty_ring) by apply (empty_ring_at demo_world).
  split; try done.
  - split; [|done|].
    + destruct (demo_attached demo_free demo_free). by split.
    + change (h_slot_count ping_header) with 2. intros i Hi.
      assert (i = 0 ∨ i = 1) as [-> | ->] by lia; eexists; (split_and!; [reflexivity|done|apply ping_free_ok]).
  - exists 0. split; [cbn; lia|]. by eexists.
  - intros [|]; [done|cbn in *; lia].
  - cbn. lia.
  - intros i rw e Hi. unfold protect_result. rewrite (proj2 (Z.leb_gt _ _)) by done. by destruct rw.
  - exists 77, empty_ring. split_and!; [done| |done|cbn; lia]. split; [done|]. split; [reflexivity|done].
  - split; [by exists 77|lia].
  - exists 78, empty_ring. split_and!; [done| |done|cbn; lia]. split; [done|]. split; [reflexivity|done].
  - split; [by exists 78|lia].
Qed.


Lemma ping_statistics_witness :
  ping_summary (count_all [30; 10; 21] zero_stats) = Some (10, 20, 30).
Proof.
  destruct (ping_statistics [30; 10; 21]) as (_ & _ & _ & _ & _ & Hs & _).
  - repeat constructor; zlia.
  - done.
  - cbn. lia.
  - cbn. lia.
  - exact Hs.
Defined.
