(* ===== verification/Interleave.v ===== *)
(** * Concurrent calls

    Several calls under way at once, in threads of one process or of several:
    a configuration is the programs that are left of the calls, and the store.
    One step is one atomic action of one call, or a change that something else
    makes to the store ([interferes]).  [run_schedule] executes a given
    schedule.  Actions interleave in one global order; the acquire and release
    orderings of the C code are what lets a slot's plain fields be read that
    way once the slot is claimed. *)
From S2P Require Import Prelude Prog.

(** The events of thread [i] in a common history. *)
Definition visits_of {V} (i : nat) (h : list (nat * V)) : list V :=
  omap (λ e, if decide (e.1 = i) then Some e.2 else None) h.

Lemma visits_of_snoc {V} i j (v : V) h :
  visits_of i (h ++ [(j, v)]) =
    if decide (j = i) then visits_of i h ++ [v] else visits_of i h.
Proof.
  unfold visits_of. rewrite omap_app. simpl. destruct (decide (j = i)); [done|].
  by rewrite app_nil_r.
Qed.
Lemma elem_of_visits {V} i (v : V) h : v ∈ visits_of i h ↔ (i, v) ∈ h.
Proof.
  unfold visits_of. rewrite list_elem_of_omap. split.
  - intros ([j v'] & Hin & He). simpl in He. case_decide; naive_solver.
  - intros Hin. exists (i, v). split; [done|]. simpl. by rewrite decide_True.
Qed.

Section interleave.
Context {W A : Type}.

(** What is left of every call, by thread, and the store. *)
Definition config : Type := list (prog W A) * W.

(** The next action of a program; [None] when it has returned or faults. *)
Definition step_prog (p : prog W A) (w : W) : option (prog W A * W) :=
  match p with
  | Ret _ => None
  | Act f k => match f w with Some (b, w') => Some (k b, w') | None => None end
  end.

Definition returned_value (p : prog W A) : option A :=
  match p with Ret a => Some a | Act _ _ => None end.

Inductive step (interferes : W → W → Prop) : config → config → Prop :=
| step_call ts w i p p' w' :
    ts !! i = Some p → step_prog p w = Some (p', w') →
    step interferes (ts, w) (<[i := p']> ts, w')
| step_other ts w w' :
    interferes w w' → step interferes (ts, w) (ts, w').

(** The schedule names the thread of every step. *)
Fixpoint run_schedule (schedule : list nat) (c : config) : option config :=
  match schedule with
  | [] => Some c
  | i :: schedule =>
      p ← c.1 !! i;
      '(p', w') ← step_prog p c.2;
      run_schedule schedule (<[i := p']> c.1, w')
  end.

(** The results of the calls that have returned. *)
Definition results (c : config) : list (option A) := returned_value <$> c.1.

Lemma run_schedule_steps R schedule c c' :
  run_schedule schedule c = Some c' → rtc (step R) c c'.
Proof.
  revert c. induction schedule as [|i schedule IH]; intros [ts w]; simpl.
  - intros [= <-]. done.
  - destruct (ts !! i) as [p|] eqn:Hp; [|done]. simpl.
    destruct (step_prog p w) as [[p' w']|] eqn:Hs; [|done]. simpl. intros Hrun.
    eapply rtc_l; [by eapply step_call|]. by apply IH.
Qed.

(** The configuration a schedule ends in, the start if it gets stuck. *)
Definition after (schedule : list nat) (c : config) : config :=
  default c (run_schedule schedule c).
Lemma after_steps R schedule c : rtc (step R) c (after schedule c).
Proof.
  unfold after. destruct (run_schedule schedule c) eqn:Hrun; [|done].
  by eapply run_schedule_steps.
Qed.
Lemma results_returned c i a :
  results c !! i = Some (Some a) → c.1 !! i = Some (Ret a).
Proof.
  unfold results. rewrite list_lookup_fmap. destruct (c.1 !! i) as [[b|]|]; naive_solver.
Qed.

(** An invariant of the steps holds in every configuration reached. *)
Lemma steps_invariant (R : W → W → Prop) (I : config → Prop) c c' :
  (∀ ts w i p p' w', I (ts, w) → ts !! i = Some p → step_prog p w = Some (p', w') →
     I (<[i := p']> ts, w')) →
  (∀ ts w w', I (ts, w) → R w w' → I (ts, w')) →
  I c → rtc (step R) c c' → I c'.
Proof.
  intros Hcall Hother HI Hsteps. induction Hsteps as [c|c1 c2 c3 Hs _ IH]; [done|].
  apply IH. destruct Hs; eauto.
Qed.

(** ** Bounded programs *)

(** [p] takes at most [n] steps, whatever the store does. *)
Fixpoint steps_within (n : nat) (p : prog W A) {struct p} : Prop :=
  match p with
  | Ret _ => True
  | Act f k => match n with O => False | S n' => ∀ b, steps_within n' (k b) end
  end.

Lemma steps_within_le n m p : steps_within n p → (n <= m)%nat → steps_within m p.
Proof.
  revert n m. induction p as [a|B f k IH]; intros n m; simpl; [done|].
  destruct n as [|n]; [done|]. intros Hn Hle. destruct m as [|m]; [lia|].
  intros b. eapply IH; [apply Hn|lia].
Qed.

(** Every step uses one up. *)
Lemma steps_within_step n p w p' w' :
  steps_within n p → step_prog p w = Some (p', w') → ∃ m, n = S m ∧ steps_within m p'.
Proof.
  destruct p as [a|B f k]; [done|]. destruct n as [|n]; simpl; [done|].
  intros Hn Hs. destruct (f w) as [[b w1]|]; [|done]. injection Hs as <- <-. eauto.
Qed.

(** A schedule gives no thread more steps than its program has. *)
Lemma run_schedule_within n schedule ts w c j p :
  run_schedule schedule (ts, w) = Some c → ts !! j = Some p → steps_within n p →
  (count_occ Nat.eq_dec schedule j <= n)%nat.
Proof.
  revert ts w n p. induction schedule as [|i schedule IH]; intros ts w n p; simpl; [lia|].
  destruct (ts !! i) as [q|] eqn:Hq; [|done]. simpl.
  destruct (step_prog q w) as [[q' w']|] eqn:Hs; [|done]. simpl. intros Hrun Hp Hn.
  assert (Hi : (i < length ts)%nat) by (by eapply lookup_lt_Some).
  destruct (Nat.eq_dec i j) as [->|Hne].
  - simplify_eq. destruct (steps_within_step _ _ _ _ _ Hn Hs) as (m & -> & Hm).
    enough (count_occ Nat.eq_dec schedule j <= m)%nat by lia.
    eapply IH; [done|by apply list_lookup_insert_eq|done].
  - eapply IH; [done|by rewrite list_lookup_insert_ne|done].
Qed.

End interleave.

Arguments config : clear implicits.

(** Spend [n] of the [m] steps on [p]. *)
Lemma steps_within_bind {W A B} n m (p : prog W A) (g : A → prog W B) :
  steps_within n p → (n <= m)%nat → (∀ a, steps_within (m - n) (g a)) →
  steps_within m (p ≫= g).
Proof.
  intros Hp Hle Hg. revert n m Hp Hle Hg. induction p as [a|B' f k IH]; intros n m Hp Hle Hg.
  - eapply steps_within_le; [apply Hg|lia].
  - destruct n as [|n]; [done|]. destruct m as [|m]; [lia|]. simpl. intros b.
    eapply IH; [apply Hp|lia|done].
Qed.

Lemma steps_within_act {W B} n (f : W → option (B * W)) : steps_within (S n) (act f).
Proof. simpl. done. Qed.
Lemma steps_within_ret {W A} n (a : A) : steps_within (W := W) n (mret a).
Proof. done. Qed.
