(* ===== verification/RingConcurrent.v ===== *)
(** * The descriptor ring between two threads

    One producer and one consumer call the operations of Ring.v at the same
    time, interleaved action by action, while the rest of the system leaves the
    ring alone.  [steady] is a rely-guarantee contract for one of the two: what
    it knows of the ring survives the steps of the other, its own steps are those
    of its role, and the events it records follow the queue.  [spsc_linearises]
    composes the two. *)
From S2P Require Import Prelude Types Prog Store Layout Ring RingSpec Demo Interleave.

(** ** Calls and their meaning on a queue *)
Inductive ring_call :=
| Push (m : zipc_message_t)
| Pop
| Peek
| Take.
Inductive ring_result :=
| Sent (status : zipc_status_t)
| Got (status : zipc_status_t) (m : option zipc_message_t).
Definition event : Type := ring_call * ring_result.

Definition consuming (c : ring_call) : bool := match c with Push _ => false | _ => true end.

Definition spec_call (depth : Z) (c : ring_call) (q : list zipc_message_t)
    : ring_result * list zipc_message_t :=
  match c, q with
  | Push m, _ => let '(st, q') := queue_push depth q m in (Sent st, q')
  | _, [] => (Got ZIPC_ERR_NO_BUFFER None, [])
  | Peek, x :: _ => (Got ZIPC_OK (Some x), q)
  | _, x :: q' => (Got ZIPC_OK (Some x), q')
  end.

(** The events, one after the other from the queue [q] to [q']. *)
Inductive replays (depth : Z) : list zipc_message_t → list event → list zipc_message_t → Prop :=
| replays_nil q : replays depth q [] q
| replays_snoc q h q1 c r q2 :
    replays depth q h q1 → spec_call depth c q1 = (r, q2) →
    replays depth q (h ++ [(c, r)]) q2.

(** Thread [i] adds its events to a common history. *)
Definition logs (i : nat) (evs : list event) : list (nat * event) := pair i <$> evs.
Lemma visits_of_logs i evs h : visits_of i (h ++ logs i evs) = visits_of i h ++ evs.
Proof.
  unfold logs. revert h. induction evs as [|e evs IH]; intros h; cbn; [by rewrite !app_nil_r|].
  rewrite cons_middle, app_assoc, IH, visits_of_snoc, decide_True by done.
  by rewrite <- app_assoc.
Qed.
Lemma visits_of_logs_ne i j evs h : i ≠ j → visits_of j (h ++ logs i evs) = visits_of j h.
Proof.
  intros Hne. unfold logs. revert h. induction evs as [|e evs IH]; intros h; cbn; [by rewrite app_nil_r|].
  by rewrite cons_middle, app_assoc, IH, visits_of_snoc, decide_False by done.
Qed.

(** ** The steps of the two roles *)
Inductive producer_step (r : zipc_transport_spsc_ring_t) : zipc_transport_spsc_ring_t → Prop :=
| producer_idle : producer_step r r
| producer_fills m :
    ring_used r < ring_depth r → producer_step r (set_entry (ring_producer r) m r)
| producer_publishes :
    ring_used r < ring_depth r →
    producer_step r (set_producer (u32 (ring_producer r + 1)) r).
Inductive consumer_step (r : zipc_transport_spsc_ring_t) : zipc_transport_spsc_ring_t → Prop :=
| consumer_idle : consumer_step r r
| consumer_advances :
    0 < ring_used r → consumer_step r (set_consumer (u32 (ring_consumer r + 1)) r).

(** Filling a free entry is not visible. *)
Lemma fill_contents r m :
  ring_wf r → ring_used r < ring_depth r →
  let r' := set_entry (ring_producer r) m r in
  ring_wf r' ∧ ring_contents r' = ring_contents r ∧ ring_entry (ring_producer r') r' = m.
Proof.
  intros Hwf Hfree r'. destruct (ring_push_contents r m Hwf Hfree) as [Hwf2 Hc].
  fold r' in Hwf2, Hc. pose proof Hwf as [Hd Hdiv He Hp Hco Hu].
  assert (Hwf' : ring_wf r') by (split; cbn; try done; by rewrite length_insert).
  split; [done|]. split.
  - pose proof (length_ring_contents r). apply ring_contents_eq; [done|done|]. intros i Hi.
    change (ring_used r') with (ring_used r) in Hi.
    assert (Hi2 : Z.of_nat i < ring_used (set_producer (u32 (ring_producer r + 1)) r')).
    { pose proof (length_ring_contents (set_producer (u32 (ring_producer r + 1)) r')) as Hl.
      rewrite Hc, length_app in Hl. cbn [length] in Hl. lia. }
    pose proof (ring_contents_lookup _ _ Hwf2 Hi2) as Hl. rewrite Hc, lookup_app_l in Hl by lia.
    rewrite Hl. done.
  - unfold ring_entry. cbn. rewrite nth_lookup, list_lookup_insert_eq; [done|].
    rewrite He. apply Z2Nat.inj_lt; [|lia|]; apply Z.mod_pos_bound; lia.
Qed.
(** Publishing it appends what was filled in. *)
Lemma publish_contents r :
  ring_wf r → ring_used r < ring_depth r →
  let r' := set_producer (u32 (ring_producer r + 1)) r in
  ring_wf r' ∧ ring_contents r' = ring_contents r ++ [ring_entry (ring_producer r) r].
Proof.
  intros Hwf Hfree r'. pose proof Hwf as [Hd _ He _ _ _].
  assert (Hid : set_entry (ring_producer r) (ring_entry (ring_producer r) r) r = r).
  { unfold set_entry, ring_entry. destruct r as [p c d es]. cbn in *. f_equal.
    apply list_insert_id. rewrite nth_lookup.
    destruct (lookup_lt_is_Some_2 es (Z.to_nat (p `mod` d))) as [x Hx]; [|by rewrite Hx].
    rewrite He. apply Z2Nat.inj_lt; [|lia|]; apply Z.mod_pos_bound; lia. }
  pose proof (ring_push_contents r (ring_entry (ring_producer r) r) Hwf Hfree) as Hc.
  by rewrite Hid in Hc.
Qed.

Lemma advance_contents r :
  ring_wf r → 0 < ring_used r →
  let r' := set_consumer (u32 (ring_consumer r + 1)) r in
  ring_wf r' ∧ ring_contents r = ring_entry (ring_consumer r) r :: ring_contents r' ∧
  ring_used r' = ring_used r - 1.
Proof.
  intros Hwf Hne r'. destruct (ring_pop_contents r Hwf Hne) as [Hwf' Hc]. fold r' in Hwf', Hc.
  split_and!; [done..|].
  pose proof (length_ring_contents r) as H1. pose proof (length_ring_contents r') as H2.
  rewrite Hc in H1. cbn [length] in H1. lia.
Qed.

Lemma producer_step_wf r r' :
  ring_wf r → producer_step r r' → ring_wf r' ∧ ring_depth r' = ring_depth r.
Proof.
  intros Hwf [|m Hf|Hf]; [done| |]; (split; [|done]).
  - by apply fill_contents.
  - by apply publish_contents.
Qed.
Lemma consumer_step_wf r r' :
  ring_wf r → consumer_step r r' → ring_wf r' ∧ ring_depth r' = ring_depth r.
Proof. intros Hwf [|Hf]; [done|]. split; [|done]. by apply advance_contents. Qed.

(** ** The contract of one role *)
Section steady.
Context {E : Type} (a depth : Z).
Context (mine other : zipc_transport_spsc_ring_t → zipc_transport_spsc_ring_t → Prop).
Context (mine_idle : ∀ r, mine r r).
Abbreviation knowledge := (zipc_transport_spsc_ring_t → Prop).
Implicit Type w : world E.

Definition ring_is w (r : zipc_transport_spsc_ring_t) : Prop :=
  w_rings w !! a = Some r ∧ ring_wf r ∧ ring_depth r = depth.

(** The other role cannot take [P] away. *)
Definition stable (P : knowledge) : Prop :=
  ∀ r r', ring_wf r → ring_depth r = depth → other r r' → P r → P r'.

(** No event, or one that accounts for the change. *)
Inductive records : list zipc_message_t → list event → list zipc_message_t → Prop :=
| records_none q : records q [] q
| records_one q c res q' : spec_call depth c q = (res, q') → records q [(c, res)] q'.

Fixpoint steady {A} (p : prog (world E) A) (P : knowledge) (h : list event)
    (Q : A → knowledge → list event → Prop) : Prop :=
  match p with
  | Ret x => Q x P h
  | Act f k => ∀ w r, ring_is w r → P r →
      ∃ b w' r' evs P', f w = Some (b, w') ∧ w_rings w' !! a = Some r' ∧ mine r r' ∧
        records (ring_contents r) evs (ring_contents r') ∧ P' r' ∧ stable P' ∧
        steady (k b) P' (h ++ evs) Q
  end.

Lemma steady_ret {A} (x : A) P h (Q : A → knowledge → list event → Prop) :
  Q x P h → steady (mret x) P h Q.
Proof. done. Qed.
Lemma steady_bind {A B} (p : prog (world E) A) (g : A → prog (world E) B) P h Q :
  steady p P h (λ x P' h', steady (g x) P' h' Q) → steady (p ≫= g) P h Q.
Proof.
  revert P h. induction p as [x|B' f k IH]; intros P h; [done|]. intros Hp w r Hr HP.
  destruct (Hp w r Hr HP) as (b & w' & r' & evs & P' & ? & ? & ? & ? & ? & ? & Hk).
  exists b, w', r', evs, P'. split_and!; try done. by apply IH.
Qed.
Lemma steady_mono {A} (p : prog (world E) A) P h
    (Q Q' : A → knowledge → list event → Prop) :
  steady p P h Q → (∀ x P' h', Q x P' h' → Q' x P' h') → steady p P h Q'.
Proof.
  intros Hp HQ. revert P h Hp. induction p as [x|B' f k IH]; intros P h; [apply HQ|].
  intros Hp w r Hr HP. destruct (Hp w r Hr HP) as (b & w' & r' & evs & P' & ? & ? & ? & ? & ? & ? & Hk).
  exists b, w', r', evs, P'. split_and!; try done. by apply IH.
Qed.

(** A read learns [P'] and may be where an event happens. *)
Lemma steady_read {A} (f : zipc_transport_spsc_ring_t → A) P h Q :
  (∀ r, ring_wf r → ring_depth r = depth → P r →
     ∃ evs P', records (ring_contents r) evs (ring_contents r) ∧ P' r ∧ stable P' ∧
       Q (f r) P' (h ++ evs)) →
  steady (ring_read a f) P h Q.
Proof.
  intros HQ w r (Hw & Hwf & Hd) HP. destruct (HQ r Hwf Hd HP) as (evs & P' & ? & ? & ? & ?).
  exists (f r), w, r, evs, P'. rewrite Hw. by split_and!.
Qed.
(** A read that only learns. *)
Lemma steady_look {A} (f : zipc_transport_spsc_ring_t → A) P h
    (Q : A → knowledge → list event → Prop) :
  (∀ r, ring_wf r → ring_depth r = depth → P r → ∃ P' : knowledge, P' r ∧ stable P' ∧ Q (f r) P' h) →
  steady (ring_read a f) P h Q.
Proof.
  intros HQ. apply steady_read. intros r Hwf Hd HP. destruct (HQ r Hwf Hd HP) as (P' & ? & ? & ?).
  exists [], P'. rewrite app_nil_r. split_and!; try done. constructor.
Qed.
Lemma steady_write f P h Q :
  (∀ r, ring_wf r → ring_depth r = depth → P r →
     ∃ evs P', mine r (f r) ∧ records (ring_contents r) evs (ring_contents (f r)) ∧ P' (f r) ∧
       stable P' ∧ Q tt P' (h ++ evs)) →
  steady (ring_write a f) P h Q.
Proof.
  intros HQ w r (Hw & Hwf & Hd) HP. destruct (HQ r Hwf Hd HP) as (evs & P' & ? & ? & ? & ? & ?).
  exists tt, (put_ring a (f r) w), (f r), evs, P'. rewrite Hw. split_and!; try done.
  apply lookup_insert_eq.
Qed.
Lemma steady_step {A} (p p' : prog (world E) A) P h Q w w' r :
  steady p P h Q → ring_is w r → P r → step_prog p w = Some (p', w') →
  ∃ r' evs P', w_rings w' !! a = Some r' ∧ mine r r' ∧
    records (ring_contents r) evs (ring_contents r') ∧ P' r' ∧ stable P' ∧
    steady p' P' (h ++ evs) Q.
Proof.
  destruct p as [x|B f k]; [done|]. intros Hp Hr HP Hs. cbn [step_prog] in Hs.
  destruct (Hp w r Hr HP) as (b & w1 & r' & evs & P' & Hf & ? & ? & ? & ? & ? & ?).
  rewrite Hf in Hs. injection Hs as <- <-. exists r', evs, P'. by split_and!.
Qed.
Lemma steady_runs {A} (p : prog (world E) A) P h Q w r :
  steady p P h Q → ring_is w r → P r → is_Some (step_prog p w) ∨ ∃ x, p = Ret x ∧ Q x P h.
Proof.
  destruct p as [x|B f k]; [by eauto|]. intros Hp Hr HP. left. cbn [step_prog].
  destruct (Hp w r Hr HP) as (b & w1 & r' & evs & P' & -> & _). eauto.
Qed.
End steady.

(** ** The producer *)
Section producer.
Context {E : Type} (a depth : Z) (fuel : nat).
Context (Ha : a ≠ 0) (Hfuel : (Z.to_nat depth < fuel)%nat).
Abbreviation steady := (steady (E := E) a depth producer_step consumer_step).
Abbreviation stable := (stable depth consumer_step).

(** The consumer's steps, for the proofs of stability. *)
Ltac stable_consumer :=
  intros r0 r1 Hwf0 Hd0 [|Hu0]; [done|];
  pose proof (advance_contents r0 Hwf0 Hu0) as (Hwf1 & Hc1 & Hu1).

Lemma stable_true : stable (λ _, True).
Proof. done. Qed.
Lemma stable_producer p : stable (λ r, ring_producer r = p).
Proof. stable_consumer. done. Qed.

(** The entries the producer saw between the consumer index [c] and its own. *)
Definition seen (c : Z) (q : list zipc_message_t) (r : zipc_transport_spsc_ring_t) : Prop :=
  ring_producer r = u32 (c + Z.of_nat (length q)) ∧ ring_used r <= Z.of_nat (length q) ∧
  ∀ k : nat, (k < length q)%nat → Some (ring_entry (c + Z.of_nat k) r) = q !! k.
Lemma stable_seen c q : stable (seen c q).
Proof. stable_consumer. intros (Hp & Hu & He). split_and!; [done|lia|done]. Qed.
Lemma seen_now r : ring_wf r → seen (ring_consumer r) (ring_contents r) r.
Proof.
  intros Hwf. pose proof (length_ring_contents r) as Hl. pose proof Hwf as [_ _ _ Hp Hc _].
  split_and!; [rewrite Hl; unfold ring_used; zlia|lia|].
  intros k Hk. symmetry. apply ring_contents_lookup; [done|lia].
Qed.
(** What is queued now was seen. *)
Lemma seen_contents c q r :
  ring_wf r → in_u32 c → Z.of_nat (length q) <= UINT32_MAX → seen c q r →
  ring_contents r = drop (length q - Z.to_nat (ring_used r)) q.
Proof.
  intros Hwf Hc Hq (Hp & Hu & He). pose proof (ring_used_range r) as Hr.
  apply ring_contents_eq; [done|rewrite length_drop; zlia|]. intros i Hi.
  rewrite lookup_drop, <- He by lia. f_equal.
  rewrite <- (ring_entry_wrap r), <- (ring_entry_wrap r (c + _)) by done. f_equal.
  pose proof Hwf as [_ _ _ _ Hco _].
  assert (ring_consumer r = u32 (c + (Z.of_nat (length q) - ring_used r))).
  { unfold ring_used in *. rewrite Hp in *. zlia. }
  zlia.
Qed.

Lemma holds_drop m k q : holds m q = false → holds m (drop k q) = false.
Proof.
  unfold holds. revert k. induction q as [|x q IH]; intros [|k]; try done.
  cbn [existsb drop]. intros [_ Hq]%orb_false_iff. by apply IH.
Qed.

(** The message is filled in and can be published. *)
Definition filled (m : zipc_message_t) (p : Z) (r : zipc_transport_spsc_ring_t) : Prop :=
  ring_producer r = p ∧ ring_used r < depth ∧ holds m (ring_contents r) = false ∧
  ring_entry p r = m.
Lemma stable_filled m p : stable (filled m p).
Proof.
  stable_consumer. intros (Hp & Hu & Hh & He). split_and!; [done|lia| |done].
  rewrite Hc1 in Hh. by apply orb_false_iff in Hh as [_ Hh].
Qed.

Lemma steady_scan n m c q k h :
  in_u32 c → Z.of_nat (length q) <= UINT32_MAX → (k <= length q)%nat → (length q - k < n)%nat →
  steady (ring_scan n a (u32 (c + Z.of_nat k)) (u32 (c + Z.of_nat (length q))) m) (seen c q) h
    (λ res P h', res = Some (holds m (drop k q)) ∧ P = seen c q ∧ h' = h).
Proof.
  intros Hc Hq. revert k. induction n as [|n IH]; intros k Hk Hn; [lia|]. cbn [ring_scan].
  destruct (decide (k = length q)) as [->|Hne].
  - rewrite Z.eqb_refl. apply steady_ret. by rewrite drop_ge by lia.
  - rewrite (proj2 (Z.eqb_neq _ _)) by zlia. apply steady_bind, steady_look; [apply producer_idle|].
    intros r Hwf Hd Hs. exists (seen c q). split_and!; [done|apply stable_seen|].
    rewrite ring_entry_wrap by done. pose proof Hs as (_ & _ & He). specialize (He k ltac:(lia)).
    rewrite (drop_S q (ring_entry (c + Z.of_nat k) r) k) by done. cbn [holds existsb].
    unfold holds. cbn [existsb]. destruct (same_message _ m); [by apply steady_ret|].
    replace (u32 (u32 (c + Z.of_nat k) + 1)) with (u32 (c + Z.of_nat (S k))) by zlia.
    apply IH; lia.
Qed.

(** The two writes of a push, at a message that was not queued. *)
Lemma steady_publish m c q h :
  in_u32 c → Z.of_nat (length q) < depth → holds m q = false → depth <= UINT32_MAX →
  steady (ring_write a (set_entry (u32 (c + Z.of_nat (length q))) m);;
      ring_write a (set_producer (u32 (u32 (c + Z.of_nat (length q)) + 1)));; mret ZIPC_OK)
    (seen c q) h (λ st P h', stable P ∧ h' = h ++ [(Push m, Sent st)]).
Proof.
  intros Hc Hfree Hheld Hrange. apply steady_bind, steady_write. intros r1 Hwf1 Hd1 Hs1.
  pose proof Hs1 as (Hp1 & Hu1 & _). rewrite <- Hp1.
  assert (Hf1 : ring_used r1 < ring_depth r1) by lia.
  pose proof (fill_contents r1 m Hwf1 Hf1) as (Hwf2 & Hc2 & He2).
  exists [], (filled m (ring_producer r1)).
  split_and!; [by constructor|rewrite Hc2; constructor| |apply stable_filled|].
  { split_and!; [done|change (ring_used r1 < depth); lia| |done].
    rewrite Hc2, (seen_contents c q r1) by lia || done. by apply holds_drop. }
  rewrite app_nil_r. clear Hwf2 Hc2 He2.
  apply steady_bind, steady_write. intros r2 Hwf2 Hd2 (Hp2 & Hu2 & Hh2 & He2). rewrite <- Hp2 in *.
  assert (Hf2 : ring_used r2 < ring_depth r2) by lia.
  pose proof (publish_contents r2 Hwf2 Hf2) as (_ & Hc3). rewrite He2 in Hc3.
  exists [(Push m, Sent ZIPC_OK)], (λ _, True).
  split_and!; [by constructor| |done|apply stable_true|by apply steady_ret].
  rewrite Hc3. constructor. cbn. unfold queue_push.
  by rewrite length_ring_contents, (proj2 (Z.leb_gt _ _)), Hh2 by done.
Qed.

Lemma steady_push m P h :
  steady (zipc_linux_common_ring_push fuel a (Some m)) P h
    (λ st P' h', stable P' ∧ h' = h ++ [(Push m, Sent st)]).
Proof.
  unfold zipc_linux_common_ring_push. rewrite (proj2 (Z.eqb_neq a 0) Ha).
  apply steady_bind, steady_look; [apply producer_idle|]. intros r Hwf Hd _.
  pose proof (rw_depth _ Hwf) as Hrange. rewrite Hd in *. exists (λ _, True).
  split_and!; [done|apply stable_true|].
  rewrite (proj2 (Z.ltb_ge depth 2)) by lia. clear r Hwf Hd.
  apply steady_bind, steady_look; [apply producer_idle|]. intros r Hwf _ _.
  exists (λ r', ring_producer r' = ring_producer r). split_and!; [done|apply stable_producer|].
  generalize (ring_producer r). intros p. clear r Hwf.
  apply steady_bind, steady_read; [apply producer_idle|]. intros r Hwf Hd <-.
  pose proof (length_ring_contents r) as Hl. pose proof (rw_consumer _ Hwf) as Hc.
  pose proof (rw_used _ Hwf) as Hu. fold (ring_used r).
  destruct (Z.leb_spec depth (ring_used r)) as [Hfull|Hfree].
  { exists [(Push m, Sent ZIPC_ERR_TRANSPORT)], (λ _, True).
    split_and!; [|done|apply stable_true|by apply steady_ret].
    constructor. cbn. unfold queue_push. by rewrite Hl, (proj2 (Z.leb_le _ _)) by done. }
  destruct (holds m (ring_contents r)) eqn:Hheld.
  - exists [(Push m, Sent ZIPC_OK)], (seen (ring_consumer r) (ring_contents r)).
    split_and!; [|by apply seen_now|apply stable_seen|].
    { constructor. cbn. unfold queue_push. rewrite Hl, (proj2 (Z.leb_gt _ _)) by done. by rewrite Hheld. }
    pose proof (seen_now r Hwf) as (-> & _).
    rewrite <- (u32_small (ring_consumer r) Hc) at 1. rewrite <- (Z.add_0_r (ring_consumer r)) at 1.
    apply steady_bind. eapply steady_mono; [apply (steady_scan _ _ _ _ 0); lia || done|].
    intros res P' h' (-> & -> & ->). rewrite drop_0, Hheld. cbn. split; [apply stable_seen|done].
  - exists [], (seen (ring_consumer r) (ring_contents r)).
    split_and!; [constructor|by apply seen_now|apply stable_seen|]. rewrite app_nil_r.
    set (q := ring_contents r) in *. set (c := ring_consumer r) in *.
    pose proof (seen_now r Hwf) as (-> & _). fold q c.
    rewrite <- (u32_small c Hc) at 1. rewrite <- (Z.add_0_r c) at 1.
    apply steady_bind. eapply steady_mono; [apply (steady_scan _ _ _ _ 0); lia || done|].
    intros res P' h' (-> & -> & ->). rewrite drop_0, Hheld. cbn [returned].
    apply steady_bind, steady_ret. apply steady_publish; lia || done.
Qed.
End producer.

(** ** The consumer *)
Section consumer.
Context {E : Type} (a depth : Z).
Context (Ha : a ≠ 0).
Abbreviation steady := (steady (E := E) a depth consumer_step producer_step).
Abbreviation stable := (stable depth producer_step).

Lemma stable_consumer c : stable (λ r, ring_consumer r = c).
Proof. intros r r' _ _ [|m _|_]; done. Qed.

(** The oldest message, at the consumer index [c]. *)
Definition front (c : Z) (x : zipc_message_t) (r : zipc_transport_spsc_ring_t) : Prop :=
  ring_consumer r = c ∧ ∃ q, ring_contents r = x :: q.
Lemma stable_front c x : stable (front c x).
Proof.
  intros r r' Hwf _ [|m Hf|Hf]; [done| |]; intros (Hc & q & Hq); (split; [done|]).
  - pose proof (fill_contents r m Hwf Hf) as (_ & -> & _). eauto.
  - pose proof (publish_contents r Hwf Hf) as (_ & ->). rewrite Hq. eauto.
Qed.
Lemma front_used c x r : ring_wf r → front c x r → 0 < ring_used r ∧ ring_entry c r = x.
Proof.
  intros Hwf (<- & q & Hq). pose proof (length_ring_contents r) as Hl. rewrite Hq in Hl. cbn in Hl.
  split; [lia|]. pose proof (advance_contents r Hwf ltac:(lia)) as (_ & Hc & _). congruence.
Qed.

(** What pop and peek have in common. *)
Definition with_front {A} (failed : zipc_status_t → A)
    (k : zipc_message_t → Z → prog (world E) A) : prog (world E) A :=
  if a =? 0 then mret (failed ZIPC_ERR_INVALID_ARGUMENT)
  else
  depth ← ring_read a ring_depth;
  if depth <? 2 then mret (failed ZIPC_ERR_INVALID_ARGUMENT)
  else
  consumer ← ring_read a ring_consumer;
  producer ← ring_read a ring_producer;
  if consumer =? producer then mret (failed ZIPC_ERR_NO_BUFFER)
  else
  message ← ring_read a (ring_entry consumer);
  k message consumer.

Definition at_once (c : ring_call) (x : zipc_message_t) : list event :=
  match c with Peek => [(Peek, Got ZIPC_OK (Some x))] | _ => [] end.

Lemma steady_front {A} call (failed : zipc_status_t → A) k P h
    (Q : A → (zipc_transport_spsc_ring_t → Prop) → list event → Prop) :
  consuming call = true →
  Q (failed ZIPC_ERR_NO_BUFFER) (λ _, True) (h ++ [(call, Got ZIPC_ERR_NO_BUFFER None)]) →
  (∀ x c, steady (k x c) (front c x) (h ++ at_once call x) Q) →
  steady (with_front failed k) P h Q.
Proof.
  intros Hcall Hnone Hk. unfold with_front. rewrite (proj2 (Z.eqb_neq a 0) Ha).
  apply steady_bind, steady_look; [apply consumer_idle|]. intros r Hwf Hd _.
  pose proof (rw_depth _ Hwf) as Hrange. rewrite Hd in *. exists (λ _, True).
  split_and!; [done..|]. rewrite (proj2 (Z.ltb_ge depth 2)) by lia. clear r Hwf Hd.
  apply steady_bind, steady_look; [apply consumer_idle|]. intros r Hwf _ _.
  exists (λ r', ring_consumer r' = ring_consumer r). split_and!; [done|apply stable_consumer|].
  generalize (ring_consumer r). intros c. clear r Hwf.
  apply steady_bind, steady_read; [apply consumer_idle|]. intros r Hwf Hd <-.
  pose proof (ring_nonempty r Hwf) as Hne. pose proof (length_ring_contents r) as Hl.
  destruct (Z.eqb_spec (ring_consumer r) (ring_producer r)) as [Heq|Hneq].
  - exists [(call, Got ZIPC_ERR_NO_BUFFER None)], (λ _, True).
    split_and!; [|done..|by apply steady_ret]. constructor.
    destruct (ring_contents r); [by destruct call|cbn in *; lia].
  - destruct (ring_contents r) as [|x q] eqn:Hc; [cbn in *; lia|].
    exists (at_once call x), (front (ring_consumer r) x).
    split_and!; [by destruct call; cbn; constructor|split; eauto|apply stable_front|].
    generalize (ring_consumer r). intros c. clear r Hwf Hd Hne Hl Hc Hneq.
    apply steady_bind, steady_look; [apply consumer_idle|]. intros r Hwf _ Hf.
    exists (front c x). split_and!; [done|apply stable_front|].
    destruct (front_used c x r Hwf Hf) as [_ ->]. apply Hk.
Qed.

(** The write that consumes the front. *)
Lemma steady_advance call x c h (Q : unit → (zipc_transport_spsc_ring_t → Prop) → list event → Prop) :
  call = Pop ∨ call = Take →
  Q tt (λ _, True) (h ++ [(call, Got ZIPC_OK (Some x))]) →
  steady (ring_write a (set_consumer (u32 (c + 1)))) (front c x) h Q.
Proof.
  intros Hcall HQ. apply steady_write. intros r Hwf Hd Hf. destruct (front_used c x r Hwf Hf) as [Hu He].
  destruct Hf as (<- & q & Hq). pose proof (advance_contents r Hwf Hu) as (_ & Hc & _).
  exists [(call, Got ZIPC_OK (Some x))], (λ _, True).
  split_and!; [by constructor| |done..]. rewrite Hc, He. constructor. by destruct Hcall as [->| ->].
Qed.

Lemma steady_pop P h :
  steady (zipc_linux_common_ring_pop a) P h
    (λ res P' h', stable P' ∧ h' = h ++ [(Pop, Got res.1 res.2)]).
Proof.
  change (zipc_linux_common_ring_pop a) with (with_front (λ st, (st, None)) (λ x c,
    ring_write a (set_consumer (u32 (c + 1)));; mret (ZIPC_OK, Some x))).
  apply (steady_front Pop); [done|done|]. intros x c. rewrite app_nil_r.
  by apply steady_bind, (steady_advance Pop), steady_ret; [left|].
Qed.
Lemma steady_peek call P h :
  consuming call = true →
  steady (zipc_linux_common_ring_peek a) P h (λ res P' h',
    (res = (ZIPC_ERR_NO_BUFFER, None) ∧ stable P' ∧
     h' = h ++ [(call, Got ZIPC_ERR_NO_BUFFER None)]) ∨
    ∃ x c, res = (ZIPC_OK, Some (x, c)) ∧ P' = front c x ∧ h' = h ++ at_once call x).
Proof.
  intros Hcall. change (zipc_linux_common_ring_peek a) with
    (with_front (λ st, (st, None)) (λ x c, mret (ZIPC_OK, Some (x, c)))).
  apply (steady_front call); [done|by left|]. intros x c. apply steady_ret. right. eauto.
Qed.
(** The commit of a position that is still the front. *)
Lemma steady_commit x c h :
  steady (zipc_linux_common_ring_commit a c) (front c x) h
    (λ st P' h', st = ZIPC_OK ∧ stable P' ∧ h' = h ++ [(Take, Got ZIPC_OK (Some x))]).
Proof.
  unfold zipc_linux_common_ring_commit. rewrite (proj2 (Z.eqb_neq a 0) Ha).
  apply steady_bind, steady_look; [apply consumer_idle|]. intros r Hwf Hd Hf.
  pose proof (rw_depth _ Hwf) as Hrange. exists (front c x). split_and!; [done|apply stable_front|].
  rewrite (proj2 (Z.ltb_ge (ring_depth r) 2)) by lia. clear r Hwf Hd Hf Hrange.
  apply steady_bind, steady_look; [apply consumer_idle|]. intros r Hwf Hd Hf.
  exists (front c x). split_and!; [done|apply stable_front|]. destruct Hf as (-> & _).
  rewrite Z.eqb_refl. by apply steady_bind, (steady_advance Take), steady_ret; [right|].
Qed.
End consumer.

(** ** Both at once *)
Section calls.
Context {E : Type} (a : Z) (fuel : nat).

(** [Take] is what a two-phase receive does: peek, then commit the position. *)
Definition ring_call_prog (c : ring_call) : prog (world E) ring_result :=
  match c with
  | Push m => st ← zipc_linux_common_ring_push fuel a (Some m); mret (Sent st)
  | Pop => res ← zipc_linux_common_ring_pop a; mret (Got res.1 res.2)
  | Peek => res ← zipc_linux_common_ring_peek a; mret (Got res.1 (fst <$> res.2))
  | Take =>
      res ← zipc_linux_common_ring_peek a;
      match res.2 with
      | None => mret (Got res.1 None)
      | Some (m, position) =>
          st ← zipc_linux_common_ring_commit a position; mret (Got st (Some m))
      end
  end.
Fixpoint calls (cs : list ring_call) : prog (world E) (list ring_result) :=
  match cs with
  | [] => mret []
  | c :: cs => r ← ring_call_prog c; rs ← calls cs; mret (r :: rs)
  end.

(** ** Every call is bounded *)
Ltac ring_within :=
  lazymatch goal with
  | |- steps_within _ (mret _) => apply steps_within_ret
  | |- steps_within _ (if ?b then _ else _) => destruct b
  | |- steps_within _ (match ?o with Some _ => _ | None => _ end) => destruct o as [[]|]
  | |- steps_within _ (mbind _ _) => apply (steps_within_bind 1); [apply steps_within_act|lia|intros ?]
  end.

Lemma ring_scan_within n position producer m :
  steps_within n (ring_scan (E := E) n a position producer m).
Proof.
  revert position. induction n as [|n IH]; intros position; cbn [ring_scan]; [done|].
  do 3 ring_within; [ring_within|]. cbn [Nat.sub]. rewrite Nat.sub_0_r. apply IH.
Qed.
Lemma ring_push_within m : steps_within (fuel + 6) (zipc_linux_common_ring_push (E := E) fuel a (Some m)).
Proof.
  unfold zipc_linux_common_ring_push. repeat ring_within.
  apply (steps_within_bind fuel); [apply ring_scan_within|lia|]. intros found.
  apply (steps_within_bind 1); [by destruct found; [done|apply steps_within_act]|lia|].
  intros queued. repeat ring_within.
Qed.
Lemma ring_peek_within : steps_within 4 (zipc_linux_common_ring_peek (E := E) a).
Proof. unfold zipc_linux_common_ring_peek. repeat ring_within. Qed.
Lemma ring_commit_within p : steps_within 3 (zipc_linux_common_ring_commit (E := E) a p).
Proof. unfold zipc_linux_common_ring_commit. repeat ring_within. Qed.
Lemma ring_pop_within : steps_within 5 (zipc_linux_common_ring_pop (E := E) a).
Proof. unfold zipc_linux_common_ring_pop. repeat ring_within. Qed.

Lemma ring_call_within c : steps_within (fuel + 7) (ring_call_prog c).
Proof.
  destruct c as [m| | |]; unfold ring_call_prog.
  - eapply steps_within_bind; [apply ring_push_within|lia|done].
  - eapply steps_within_bind; [apply ring_pop_within|lia|done].
  - eapply steps_within_bind; [apply ring_peek_within|lia|done].
  - eapply steps_within_bind; [apply ring_peek_within|lia|]. intros [st [[m p]|]]; [|done].
    eapply steps_within_bind; [apply ring_commit_within|cbn; lia|done].
Qed.
Lemma calls_within cs : steps_within (length cs * (fuel + 7)) (calls cs).
Proof.
  induction cs as [|c cs IH]; cbn [calls length]; [done|].
  eapply steps_within_bind; [apply ring_call_within|lia|]. intros r.
  eapply steps_within_bind; [apply IH|lia|done].
Qed.

Context (depth : Z) (Ha : a ≠ 0) (Hfuel : (Z.to_nat depth < fuel)%nat).

(** What a role's list of calls leaves: one event for every call, in order. *)
Definition all_recorded (cs : list ring_call) (rs : list ring_result)
    (P : zipc_transport_spsc_ring_t → Prop) (h : list event) : Prop :=
  length rs = length cs ∧ h = zip cs rs.

Section role.
Context (mine other : zipc_transport_spsc_ring_t → zipc_transport_spsc_ring_t → Prop).
Context (role : ring_call → Prop).
Context (Hrole : ∀ c P h, role c → steady a depth mine other (ring_call_prog c) P h
  (λ r P' h', stable depth other P' ∧ h' = h ++ [(c, r)])).

Lemma steady_calls_from cs P h :
  Forall role cs →
  steady a depth mine other (calls cs) P h
    (λ rs _ h', length rs = length cs ∧ h' = h ++ zip cs rs).
Proof.
  revert P h. induction cs as [|c cs IH]; intros P h; cbn [calls].
  { intros _. apply steady_ret. by rewrite app_nil_r. }
  intros [Hc Hcs]%Forall_cons. apply steady_bind. eapply steady_mono; [by apply Hrole|].
  intros r P1 h1 (_ & ->). apply steady_bind. eapply steady_mono; [by apply IH|].
  intros rs P2 h2 (Hl & ->). apply steady_ret. cbn. rewrite <- app_assoc. auto.
Qed.
Lemma steady_calls cs P :
  Forall role cs → steady a depth mine other (calls cs) P [] (all_recorded cs).
Proof. intros Hcs. eapply steady_mono; [by apply steady_calls_from|]. done. Qed.
End role.

Lemma steady_producer_call c P h :
  consuming c = false →
  steady a depth producer_step consumer_step (ring_call_prog c) P h
    (λ r P' h', stable depth consumer_step P' ∧ h' = h ++ [(c, r)]).
Proof.
  destruct c as [m| | |]; try done. intros _. apply steady_bind.
  eapply steady_mono; [by apply steady_push|]. intros st P' h' HQ. by apply steady_ret.
Qed.
Lemma steady_consumer_call c P h :
  consuming c = true →
  steady a depth consumer_step producer_step (ring_call_prog c) P h
    (λ r P' h', stable depth producer_step P' ∧ h' = h ++ [(c, r)]).
Proof.
  destruct c as [m| | |]; try done; intros _; apply steady_bind.
  - eapply steady_mono; [by apply steady_pop|]. intros res P' h' HQ. by apply steady_ret.
  - eapply steady_mono; [by apply (steady_peek a depth Ha Peek)|].
    intros res P' h' [(-> & ? & ->)|(x & c & -> & -> & ->)]; apply steady_ret; [done|].
    split; [apply stable_front|done].
  - eapply steady_mono; [by apply (steady_peek a depth Ha Take)|].
    intros res P' h' [(-> & ? & ->)|(x & c & -> & -> & ->)]; [by apply steady_ret|]. cbn [snd].
    rewrite app_nil_r. apply steady_bind. eapply steady_mono; [by apply steady_commit|].
    intros st P' h' (-> & ? & ->). by apply steady_ret.
Qed.

(** The two roles, by thread. *)
Definition script (pushes takes : list ring_call) (i : nat) : list ring_call :=
  if i is O then pushes else takes.

(** The history [h] explains a configuration: replayed call by call it leads
    from the queue [q0] to what the ring holds; a thread can always take its
    next step, or it has returned the results of all its calls, which are in
    [h] in the order it made them. *)
Definition explains (q0 : list zipc_message_t) (cs : nat → list ring_call)
    (h : list (nat * event)) (c : config (world E) (list ring_result)) : Prop :=
  ∃ r, w_rings c.2 !! a = Some r ∧ ring_wf r ∧ ring_depth r = depth ∧
    replays depth q0 h.*2 (ring_contents r) ∧
    ∀ i p, c.1 !! i = Some p →
      is_Some (step_prog p c.2) ∨
      ∃ rs, p = Ret rs ∧ length rs = length (cs i) ∧ visits_of i h = zip (cs i) rs.

(** The invariant of the two threads. *)
Definition explained (q0 : list zipc_message_t) (pushes takes : list ring_call)
    (h : list (nat * event)) (c : config (world E) (list ring_result)) : Prop :=
  ∃ p0 p1 r P0 P1, c.1 = [p0; p1] ∧ ring_is a depth c.2 r ∧
    replays depth q0 h.*2 (ring_contents r) ∧
    P0 r ∧ stable depth consumer_step P0 ∧
    steady a depth producer_step consumer_step p0 P0 (visits_of 0 h) (all_recorded pushes) ∧
    P1 r ∧ stable depth producer_step P1 ∧
    steady a depth consumer_step producer_step p1 P1 (visits_of 1 h) (all_recorded takes).

Lemma replays_records q0 h i evs q q' :
  replays depth q0 h.*2 q → records depth q evs q' → replays depth q0 (h ++ logs i evs).*2 q'.
Proof.
  intros Hq Hr. rewrite fmap_app. unfold logs. rewrite <- list_fmap_compose.
  destruct Hr; cbn; [by rewrite app_nil_r|]. by econstructor.
Qed.

Lemma explained_start r0 pushes takes w :
  ring_is a depth w r0 →
  Forall (λ c, consuming c = false) pushes → Forall (λ c, consuming c = true) takes →
  explained (ring_contents r0) pushes takes [] ([calls pushes; calls takes], w).
Proof.
  intros Hr Hp Ht. exists (calls pushes), (calls takes), r0, (λ _, True), (λ _, True).
  split_and!; try done; [constructor| |].
  - by eapply steady_calls; [apply steady_producer_call|].
  - by eapply steady_calls; [apply steady_consumer_call|].
Qed.

Lemma explained_call q0 pushes takes h ts w i p p' w' :
  explained q0 pushes takes h (ts, w) → ts !! i = Some p → step_prog p w = Some (p', w') →
  ∃ evs, explained q0 pushes takes (h ++ logs i evs) (<[i := p']> ts, w').
Proof.
  intros (p0 & p1 & r & P0 & P1 & Hts & Hr & Hq & HP0 & Hst0 & Hs0 & HP1 & Hst1 & Hs1) Hi Hs.
  cbn in Hts, Hr. subst ts. pose proof Hr as (_ & Hwf & Hd). destruct i as [|[|i]]; [| |done].
  - injection Hi as <-.
    destruct (steady_step _ _ _ _ _ _ _ _ _ _ _ _ Hs0 Hr HP0 Hs)
      as (r' & evs & P' & Hr' & Hm & Hrec & HP' & Hst' & Hs').
    destruct (producer_step_wf r r' Hwf Hm) as [Hwf' Hd']. exists evs, p', p1, r', P', P1.
    rewrite visits_of_logs, visits_of_logs_ne by done.
    split_and!; try done; [by split_and!; [..|congruence]|by eapply replays_records|exact (Hst1 r r' Hwf Hd Hm HP1)].
  - injection Hi as <-.
    destruct (steady_step _ _ _ _ _ _ _ _ _ _ _ _ Hs1 Hr HP1 Hs)
      as (r' & evs & P' & Hr' & Hm & Hrec & HP' & Hst' & Hs').
    destruct (consumer_step_wf r r' Hwf Hm) as [Hwf' Hd']. exists evs, p0, p', r', P0, P'.
    rewrite visits_of_logs, visits_of_logs_ne by done.
    split_and!; try done; [by split_and!; [..|congruence]|by eapply replays_records|exact (Hst0 r r' Hwf Hd Hm HP0)].
Qed.

(** Anything else may change the store, but not this ring. *)
Definition ring_kept (w w' : world E) : Prop := w_rings w' !! a = w_rings w !! a.

Lemma explained_steps q0 pushes takes h c c' :
  explained q0 pushes takes h c → rtc (step ring_kept) c c' →
  ∃ h', explained q0 pushes takes (h ++ h') c'.
Proof.
  intros Hc Hsteps.
  refine (steps_invariant ring_kept (λ c, ∃ h', explained q0 pushes takes (h ++ h') c) c c' _ _ _ Hsteps).
  - intros ts w i p p' w' (h' & Hex) Hi Hs. destruct (explained_call _ _ _ _ _ _ _ _ _ _ Hex Hi Hs) as (evs & He).
    exists (h' ++ logs i evs). by rewrite app_assoc.
  - intros ts w w' (h' & p0 & p1 & r & P0 & P1 & Hts & (Hw & Hr) & Hex) Hk. exists h', p0, p1, r, P0, P1.
    split; [done|]. split; [|done]. split; [|done]. cbn. by rewrite Hk.
  - exists []. by rewrite app_nil_r.
Qed.

Lemma explained_explains q0 pushes takes h c :
  explained q0 pushes takes h c → explains q0 (script pushes takes) h c.
Proof.
  destruct c as [ts w].
  intros (p0 & p1 & r & P0 & P1 & Hts & Hr & Hq & HP0 & _ & Hs0 & HP1 & _ & Hs1).
  cbn in Hts, Hr. subst ts. pose proof Hr as (Hw & Hwf & Hd). exists r. split_and!; [done..|].
  intros [|[|i]] p; [| |done]; intros [= <-].
  - destruct (steady_runs _ _ _ _ _ _ _ _ _ _ Hs0 Hr HP0) as [?|(rs & -> & Hrec)]; [by left|].
    right. exists rs. by split_and!; try apply Hrec.
  - destruct (steady_runs _ _ _ _ _ _ _ _ _ _ Hs1 Hr HP1) as [?|(rs & -> & Hrec)]; [by left|].
    right. exists rs. by split_and!; try apply Hrec.
Qed.
End calls.

(** C29. The single-producer single-consumer ring is right under concurrency:
    when one thread makes any list of pushes and another any list of pops,
    peeks and two-phase receives (a peek and the commit of the position it
    returned), interleaved action by action in any order and with anything else
    happening to the rest of memory, neither thread ever faults or is blocked,
    and every configuration reached is explained by a sequential history of
    calls on a bounded queue without duplicates: replayed from the initial
    contents it ends in what the ring holds, and the results a thread returns
    are those of the history, in the thread's own order.  The history of a
    later configuration extends that of an earlier one, so a thread that
    finished first comes first.  A list of calls takes a bounded number of
    actions. *)
Theorem spsc_ring_linearises {E} a fuel r0 pushes takes (w : world E) c1 c2 :
  a ≠ 0 → w_rings w !! a = Some r0 → ring_wf r0 → (Z.to_nat (ring_depth r0) < fuel)%nat →
  Forall (λ c, consuming c = false) pushes → Forall (λ c, consuming c = true) takes →
  rtc (step (ring_kept a)) ([calls a fuel pushes; calls a fuel takes], w) c1 →
  rtc (step (ring_kept a)) c1 c2 →
  (∃ h1 h2,
    explains a (ring_depth r0) (ring_contents r0) (script pushes takes) h1 c1 ∧
    explains a (ring_depth r0) (ring_contents r0) (script pushes takes) (h1 ++ h2) c2) ∧
  steps_within (length pushes * (fuel + 7)) (calls (E := E) a fuel pushes) ∧
  steps_within (length takes * (fuel + 7)) (calls (E := E) a fuel takes).
Proof.
  intros Ha Hr Hwf Hf Hp Ht H1 H2. split; [|split; apply calls_within].
  destruct (explained_steps a (ring_depth r0) (ring_contents r0) pushes takes [] _ c1
    (explained_start a fuel _ Ha Hf r0 pushes takes w (conj Hr (conj Hwf eq_refl)) Hp Ht) H1) as (h1 & Hc1).
  destruct (explained_steps _ _ _ _ _ _ _ _ Hc1 H2) as (h2 & Hc2).
  exists h1, h2. split; by apply explained_explains.
Qed.

(** ** A push and two takes around the wrap of the indices *)
Definition demo_calls : config (world demo) (list ring_result) :=
  ([calls 77 5 [Push zero_message]; calls 77 5 [Take; Take]], demo_ring_world).
(** The consumer takes the old message while the producer scans. *)
Definition demo_schedule : list nat :=
  [0; 0; 0; 1; 1; 1; 1; 0; 1; 1; 1; 0; 0; 1; 1; 1; 1; 1; 1; 1]%nat.

Lemma spsc_ring_linearises_witness :
  results (after demo_schedule demo_calls) =
    [Some [Sent ZIPC_OK]; Some [Got ZIPC_OK (Some demo_message); Got ZIPC_OK (Some zero_message)]] ∧
  ∃ h, explains 77 4 [demo_message] (script [Push zero_message] [Take; Take]) h
    (after demo_schedule demo_calls).
Proof.
  split; [vm_compute; reflexivity|].
  destruct (spsc_ring_linearises 77 5 demo_ring [Push zero_message] [Take; Take] demo_ring_world
    demo_calls (after demo_schedule demo_calls)) as ((h1 & h2 & _ & He) & _).
  - lia.
  - apply lookup_insert_eq.
  - apply demo_ring_wf.
  - cbn. lia.
  - by repeat constructor.
  - by repeat constructor.
  - reflexivity.
  - apply after_steps.
  - exists (h1 ++ h2). exact He.
Defined.
