(* ===== verification/Exclusive.v ===== *)
(** * Exclusive access to a slot

    The state word of a slot is its lock: the compare-exchange that takes it to
    CLAIMING enters, the store of another state leaves.  [safe] says that a
    call respects the lock of slot [key], whatever the rest of the world does
    between its actions: outside it changes at most the claim token and the
    [claim_previous] fields, inside it has the slot to itself, and when it
    leaves, the slot is well formed again and the visit is one the call is
    [allowed].  [safe_linearises] then composes any number of such calls: the
    visits of all of them form one sequence, in which each starts from the slot
    the one before left. *)
From S2P Require Import Prelude Types Packing Visited Prog Store Identity Slot SlotRun.
From S2P Require Import IdentitySpec SlotSpec Interleave.

(** The slot without the fields that calls write before they hold it. *)
Definition guarded (s : zipc_slot_control_t) : zipc_slot_control_t :=
  {| s with s_claim_token := 0;
            s_claim_previous_sequence := 0;
            s_claim_previous_region := zero_region;
            s_claim_previous_owner := 0;
            s_claim_previous_owner_epoch := 0 |}.

Lemma guarded_state s : s_state (guarded s) = s_state s.
Proof. done. Qed.
Lemma guarded_idem s : guarded (guarded s) = guarded s.
Proof. done. Qed.
Lemma guarded_ok capacity s : slot_ok capacity s → slot_ok capacity (guarded s).
Proof.
  intros [[] Has]. split; [by split|]. cbn [guarded s_state]. revert Has.
  destruct (s_state s); cbn [slot_as]; try done.
  - intros []. by split.
  - intros [[] []]. split; by split.
Qed.

(** One visit: the slot found on entry and the slot left behind. *)
Definition visit : Type := zipc_slot_control_t * zipc_slot_control_t.

(** Outside, or inside since the slot was [before], with it [now]. *)
Inductive phase :=
| Outside
| Inside (before now : zipc_slot_control_t).

(** What a thread in phase [ph] knows of the slot. *)
Definition knows (ph : phase) (s : zipc_slot_control_t) : Prop :=
  match ph with
  | Outside => True
  | Inside before now => guarded s = now ∧ s_state s = ZIPC_SLOT_CLAIMING
  end.

(** The visits, one after the other from [s] to [s']. *)
Inductive chain : zipc_slot_control_t → list (nat * visit) → zipc_slot_control_t → Prop :=
| chain_nil s : chain s [] s
| chain_snoc s h s1 i s2 : chain s h s1 → chain s (h ++ [(i, (s1, s2))]) s2.

Section exclusive.
Context {E : Type} `{Platform E}.
Implicit Type w : world E.

(** The pool, its header as it was attached, and the buffer objects the callers
    own. *)
Context (pool : zipc_pool_t) (hd : zipc_pool_header_t) (buffers : list Z).

(** The geometry of the pool is in place.  Counters and component entries are
    free to change. *)
Record live w : Prop := {
  lv_header : ∃ h, w_headers w !! p_header pool = Some h ∧
    h_slot_count h = h_slot_count hd ∧ h_slot_capacity h = h_slot_capacity hd ∧
    h_slot_stride h = h_slot_stride hd;
  lv_slots i : 0 <= i < h_slot_count hd → is_Some (w_controls w !! slot_key pool i);
  lv_components c : zipc_component_id_valid c = true →
    is_Some (w_components w !! (p_header pool, c));
  lv_buffers a : a ∈ buffers → is_Some (w_buffers w !! a) }.

Lemma attached_live w :
  attached pool hd w → (∀ a, a ∈ buffers → is_Some (w_buffers w !! a)) → live w.
Proof. intros [Hh _ Hs Hc] Hb. split; eauto. Qed.

(** The slot under observation. *)
Context (key : Z * Z).

(** Another process, or a call on another slot, leaves the guarded part of the
    slot alone; everything else of the world is at its disposal. *)
Definition interferes w w' : Prop :=
  live w' ∧ guarded <$> w_controls w' !! key = guarded <$> w_controls w !! key.

(** [total]: the call may not fault either. *)
Context (total : bool) (allowed : visit → Prop).

Inductive moves : phase → list visit → zipc_slot_control_t → zipc_slot_control_t →
    phase → list visit → Prop :=
| moves_quiet ph h s s' :
    guarded s' = guarded s → moves ph h s s' ph h
| moves_enter h s s' :
    s_state s ≠ ZIPC_SLOT_CLAIMING →
    guarded s' = set_state ZIPC_SLOT_CLAIMING (guarded s) →
    moves Outside h s s' (Inside (guarded s) (guarded s')) h
| moves_work before now h s s' :
    s_state s' = ZIPC_SLOT_CLAIMING →
    moves (Inside before now) h s s' (Inside before (guarded s')) h
| moves_leave before now h s s' :
    s_state s' ≠ ZIPC_SLOT_CLAIMING →
    slot_ok (h_slot_capacity hd) (guarded s') → allowed (before, guarded s') →
    moves (Inside before now) h s s' Outside (h ++ [(before, guarded s')]).

(** [p], in phase [ph] after the visits [h], keeps to the rules and returns
    with a result, a phase and visits that satisfy [Q]. *)
Fixpoint safe {A} (p : prog (world E) A) (ph : phase) (h : list visit)
    (Q : A → phase → list visit → Prop) : Prop :=
  match p with
  | Ret a => Q a ph h
  | Act f k => ∀ w s, live w → w_controls w !! key = Some s → knows ph s →
      (s_state s ≠ ZIPC_SLOT_CLAIMING → slot_ok (h_slot_capacity hd) (guarded s)) →
      match f w with
      | None => total = false
      | Some (b, w') => ∃ s' ph' h', live w' ∧ w_controls w' !! key = Some s' ∧
          moves ph h s s' ph' h' ∧ safe (k b) ph' h' Q
      end
  end.

Lemma safe_ret {A} (a : A) ph h Q : Q a ph h → safe (mret a) ph h Q.
Proof. done. Qed.

Lemma safe_bind {A B} (g : A → prog (world E) B) (p : prog (world E) A) ph h Q :
  safe p ph h (λ a ph' h', safe (g a) ph' h' Q) → safe (p ≫= g) ph h Q.
Proof.
  revert ph h. induction p as [a|B' f k IH]; intros ph h; simpl; [done|].
  intros Hs w s Hl Hk Hph Hok. specialize (Hs w s Hl Hk Hph Hok).
  destruct (f w) as [[b w']|]; [|done].
  destruct Hs as (s' & ph' & h' & Hl' & Hk' & Hm & Hs). eauto 10.
Qed.

Lemma safe_mono {A} (p : prog (world E) A) ph h (Q R : A → phase → list visit → Prop) :
  safe p ph h Q → (∀ a ph' h', Q a ph' h' → R a ph' h') → safe p ph h R.
Proof.
  intros Hs HQ. revert ph h Hs. induction p as [a|B' f k IH]; intros ph h; simpl; [auto|].
  intros Hs w s Hl Hk Hph Hok. specialize (Hs w s Hl Hk Hph Hok).
  destruct (f w) as [[b w']|]; [|done].
  destruct Hs as (s' & ph' & h' & Hl' & Hk' & Hm & Hs). eauto 10.
Qed.

(** ** Rules *)

(** An action that leaves the guarded part of the slot alone. *)
Lemma safe_quiet {B} (f : world E → option (B * world E)) ph h Q :
  (∀ w s, live w → w_controls w !! key = Some s → knows ph s →
     match f w with
     | None => total = false
     | Some (b, w') => live w' ∧
         guarded <$> w_controls w' !! key = Some (guarded s) ∧ Q b ph h
     end) →
  safe (act f) ph h Q.
Proof.
  intros Hf w s Hl Hk Hph _. specialize (Hf w s Hl Hk Hph).
  destruct (f w) as [[b w']|]; [|done]. destruct Hf as (Hl' & Hk' & HQ).
  apply fmap_Some in Hk' as (s' & Hk' & Hg).
  exists s', ph, h. split_and!; [done|done|by apply moves_quiet|done].
Qed.

(** An action that only reads, or writes outside the shared slots. *)
Lemma safe_local {B} (f : world E → option (B * world E)) ph h Q :
  (∀ w, live w →
     match f w with
     | None => total = false
     | Some (b, w') => live w' ∧ w_controls w' = w_controls w ∧ Q b ph h
     end) →
  safe (act f) ph h Q.
Proof.
  intros Hf. apply safe_quiet. intros w s Hl Hk _. specialize (Hf w Hl).
  destruct (f w) as [[b w']|]; [|done]. destruct Hf as (Hl' & Hc & HQ).
  by rewrite Hc, Hk.
Qed.

Lemma live_same w w' :
  w_headers w' = w_headers w → w_controls w' = w_controls w →
  w_components w' = w_components w → w_buffers w' = w_buffers w → live w → live w'.
Proof. intros E1 E2 E3 E4 []. split; by rewrite ?E1, ?E2, ?E3, ?E4. Qed.
Lemma live_put_slot k s w : live w → live (put_slot k s w).
Proof.
  intros []. split; try done. intros i Hi. simpl. rewrite lookup_insert_is_Some'. auto.
Qed.
Lemma live_put_buffer a b w : live w → live (put_buffer a b w).
Proof.
  intros []. split; try done. intros i Hi. simpl. rewrite lookup_insert_is_Some'. auto.
Qed.

(** The header keeps its geometry. *)
Definition same_shape (h : zipc_pool_header_t) : Prop :=
  h_slot_count h = h_slot_count hd ∧ h_slot_capacity h = h_slot_capacity hd ∧
  h_slot_stride h = h_slot_stride hd.
Lemma live_put_header h w : same_shape h → live w → live (put_header (p_header pool) h w).
Proof.
  intros Hh []. split; try done. exists h. split; [|done]. apply lookup_insert_eq.
Qed.

(** A slot of the pool; only a [total] call needs to know. *)
Definition mapped (k : Z * Z) : Prop :=
  total = true → ∃ i, 0 <= i < h_slot_count hd ∧ k = slot_key pool i.
Lemma mapped_slot k w : mapped k → live w → w_controls w !! k = None → total = false.
Proof.
  intros Hk Hl Hn. destruct total eqn:Ht; [|done]. destruct (Hk Ht) as (i & Hi & ->).
  destruct (lv_slots _ Hl i Hi) as [s Hs]. congruence.
Qed.

Lemma safe_slot_read {A} k (f : zipc_slot_control_t → A) ph h Q :
  mapped k → (∀ s, (k = key → knows ph s) → Q (f s) ph h) → safe (slot_read k f) ph h Q.
Proof.
  intros Hk HQ. apply safe_quiet. intros w s Hl Hs Hph.
  destruct (w_controls w !! k) as [s1|] eqn:Hs1; simpl; [|exact (mapped_slot _ _ Hk Hl Hs1)].
  rewrite Hs. split_and!; [done|done|]. apply HQ. intros ->. by simplify_eq.
Qed.

(** Inside, a read of guarded fields is a read of [now]. *)
Lemma safe_slot_read_inside {A} k (f : zipc_slot_control_t → A) before now h Q :
  k = key → mapped k → (∀ s, f (guarded s) = f s) → Q (f now) (Inside before now) h →
  safe (slot_read k f) (Inside before now) h Q.
Proof.
  intros Hk Hm Hf HQ. apply safe_slot_read; [done|]. intros s Hs.
  destruct (Hs Hk) as [Hnow _]. by rewrite <- Hf, Hnow.
Qed.

Lemma safe_slot_write_quiet k f ph h Q :
  mapped k → (k = key → ∀ s, guarded (f s) = guarded s) → Q tt ph h →
  safe (slot_write k f) ph h Q.
Proof.
  intros Hk Hf HQ. apply safe_quiet. intros w s Hl Hs Hph.
  destruct (w_controls w !! k) as [s1|] eqn:Hs1; simpl; [|exact (mapped_slot _ _ Hk Hl Hs1)].
  split_and!; [by apply live_put_slot| |done]. destruct (decide (k = key)) as [->|Hne].
  - rewrite lookup_insert_eq. simpl. rewrite Hf by done. by simplify_eq.
  - by rewrite lookup_insert_ne, Hs.
Qed.

(** [f] computes the guarded fields from the guarded fields. *)
Definition respects (f : zipc_slot_control_t → zipc_slot_control_t) : Prop :=
  ∀ s, guarded (f s) = guarded (f (guarded s)).

Lemma respects_state f s : respects f → s_state (f s) = s_state (f (guarded s)).
Proof. intros Hf. by rewrite <- guarded_state, Hf. Qed.

Lemma safe_slot_write_inside k f before now h Q :
  k = key → respects f → (s_state now = ZIPC_SLOT_CLAIMING → s_state (f now) = ZIPC_SLOT_CLAIMING) →
  Q tt (Inside before (guarded (f now))) h →
  safe (slot_write k f) (Inside before now) h Q.
Proof.
  intros -> Hf Hst HQ w s Hl Hs [Hnow Hc] _. rewrite Hs. simpl.
  exists (f s), (Inside before (guarded (f now))), h. split_and!.
  - by apply live_put_slot.
  - apply lookup_insert_eq.
  - replace (guarded (f now)) with (guarded (f s)) by (by rewrite Hf, Hnow).
    apply moves_work. rewrite (respects_state _ _ Hf), Hnow. apply Hst. by rewrite <- Hnow.
  - done.
Qed.

Lemma safe_store_state k x before now h Q :
  k = key → x ≠ ZIPC_SLOT_CLAIMING → slot_ok (h_slot_capacity hd) (set_state x now) →
  allowed (before, set_state x now) → Q tt Outside (h ++ [(before, set_state x now)]) →
  safe (store_state k x) (Inside before now) h Q.
Proof.
  intros -> Hx Hok Hall HQ w s Hl Hs [Hnow Hc] _. rewrite Hs. simpl.
  assert (Hg : guarded (set_state x s) = set_state x now) by (by rewrite <- Hnow).
  exists (set_state x s), Outside, (h ++ [(before, set_state x now)]). split_and!.
  - by apply live_put_slot.
  - apply lookup_insert_eq.
  - rewrite <- Hg. apply moves_leave; by rewrite ?Hg.
  - done.
Qed.

Lemma safe_cas_state_enter k x h Q :
  k = key → x ≠ ZIPC_SLOT_CLAIMING →
  (∀ s, s_state s = x → guarded s = s → slot_ok (h_slot_capacity hd) s →
     Q true (Inside s (set_state ZIPC_SLOT_CLAIMING s)) h) →
  Q false Outside h →
  safe (cas_state k x ZIPC_SLOT_CLAIMING) Outside h Q.
Proof.
  intros -> Hx Hyes Hno w s Hl Hs _ Hok. rewrite Hs. simpl.
  destruct (state_is (s_state s) x) eqn:Hst.
  - apply bool_decide_eq_true in Hst.
    eexists _, (Inside (guarded s) (set_state ZIPC_SLOT_CLAIMING (guarded s))), h. split_and!.
    + by apply live_put_slot.
    + apply lookup_insert_eq.
    + apply (moves_enter h s (set_state ZIPC_SLOT_CLAIMING s)); [congruence|done].
    + apply Hyes; [done|done|]. apply Hok. congruence.
  - exists s, Outside, h. split_and!; [done|done|by apply moves_quiet|done].
Qed.

(** A compare-exchange on the state of another slot. *)
Lemma safe_cas_state_other k x y ph h Q :
  k ≠ key → mapped k → (∀ b, Q b ph h) → safe (cas_state k x y) ph h Q.
Proof.
  intros Hne Hk HQ. apply safe_quiet. intros w s Hl Hs _.
  destruct (w_controls w !! k) as [s1|] eqn:Hs1; simpl; [|exact (mapped_slot _ _ Hk Hl Hs1)].
  destruct (state_is (s_state s1) x); simpl; rewrite ?lookup_insert_ne, Hs by done;
    eauto using live_put_slot.
Qed.

(** Tokens guard nothing: any phase, any slot. *)
Lemma safe_cas_token k x y ph h Q :
  mapped k → (∀ r, Q r ph h) → safe (cas_token k x y) ph h Q.
Proof.
  intros Hk HQ. apply safe_quiet. intros w s Hl Hs _.
  destruct (w_controls w !! k) as [s1|] eqn:Hs1; simpl; [|exact (mapped_slot _ _ Hk Hl Hs1)].
  destruct (s_claim_token s1 =? x); [|by rewrite Hs].
  split_and!; [by apply live_put_slot| |done]. simpl.
  destruct (decide (k = key)) as [->|Hne].
  - rewrite lookup_insert_eq. by simplify_eq.
  - by rewrite lookup_insert_ne, Hs.
Qed.
Lemma safe_clear_claim_token k t ph h Q :
  mapped k → Q tt ph h → safe (clear_claim_token k t) ph h Q.
Proof. intros Hk HQ. apply safe_bind, safe_cas_token; [done|]. intros r. by apply safe_ret. Qed.

Lemma safe_header_read {A} (f : zipc_pool_header_t → A) ph h Q :
  (∀ x, same_shape x → Q (f x) ph h) → safe (header_read (p_header pool) f) ph h Q.
Proof.
  intros HQ. apply safe_local. intros w Hl.
  destruct (lv_header _ Hl) as (x & Hx & Hsh). rewrite Hx. simpl. split_and!; auto.
Qed.
Lemma safe_header_write f ph h Q :
  (∀ x, same_shape x → same_shape (f x)) → Q tt ph h →
  safe (header_write (p_header pool) f) ph h Q.
Proof.
  intros Hf HQ. apply safe_local. intros w Hl.
  destruct (lv_header _ Hl) as (x & Hx & Hsh). rewrite Hx. simpl.
  split_and!; [by apply live_put_header; [apply Hf|]|done|done].
Qed.
Lemma safe_component_read {A} c (f : zipc_component_status_t → A) ph h Q :
  zipc_component_id_valid c = true → (∀ x, Q (f x) ph h) →
  safe (component_read (p_header pool, c) f) ph h Q.
Proof.
  intros Hc HQ. apply safe_local. intros w Hl.
  destruct (lv_components _ Hl c Hc) as [x Hx]. rewrite Hx. simpl. auto.
Qed.
Lemma safe_buffer_write a b ph h Q :
  a ∈ buffers → Q tt ph h → safe (buffer_write a b) ph h Q.
Proof.
  intros Ha HQ. apply safe_local. intros w Hl.
  destruct (lv_buffers _ Hl a Ha) as [x Hx]. rewrite Hx. simpl.
  eauto using live_put_buffer.
Qed.
Lemma safe_env_call {A} (f : E → A * E) ph h Q :
  (∀ a, Q a ph h) → safe (env_call f) ph h Q.
Proof.
  intros HQ. apply safe_local. intros w Hl. destruct (f (w_env w)) as [a e].
  split_and!; [by apply (live_same w)|done|done].
Qed.
Lemma safe_trace_hook_set ph h Q : (∀ b, Q b ph h) → safe trace_hook_set ph h Q.
Proof. intros HQ. apply safe_local. intros w Hl. auto. Qed.
Lemma safe_trace_hook_call r ph h Q : Q tt ph h → safe (trace_hook_call r) ph h Q.
Proof. intros HQ. apply safe_local. intros w Hl. split_and!; [by apply (live_same w)|done|done]. Qed.

End exclusive.

(** Fewer visits allowed is a stronger statement. *)
Lemma safe_allowed {E A} pool hd buffers key total (P P' : visit → Prop)
    (p : prog (world E) A) ph h Q :
  (∀ v, P v → P' v) → safe pool hd buffers key total P p ph h Q →
  safe pool hd buffers key total P' p ph h Q.
Proof.
  intros HP. revert ph h. induction p as [a|B f k IH]; intros ph h; simpl; [done|].
  intros Hs w s Hl Hk Hph Hok. specialize (Hs w s Hl Hk Hph Hok).
  destruct (f w) as [[b w']|]; [|done].
  destruct Hs as (s' & ph' & h' & Hl' & Hk' & Hm & Hs). exists s', ph', h'.
  split_and!; [done|done| |by apply IH]. destruct Hm; econstructor; auto.
Qed.

(** ** Composition *)
Section composition.
Context {E A : Type} `{Platform E}.
Context (pool : zipc_pool_t) (hd : zipc_pool_header_t) (buffers : list Z) (key : Z * Z).
Context (total : bool) (allowed : nat → visit → Prop) (Q : nat → A → list visit → Prop).

(** Thread [i] returns outside the lock, with visits that explain its result. *)
Definition safe_thread (i : nat) (p : prog (world E) A) (ph : phase) (h : list visit)
    : Prop :=
  safe pool hd buffers key total (allowed i) p ph h
    (λ a ph' h', ph' = Outside ∧ Q i a h').

#[local] Arguments safe_thread : simpl never.

(** The thread inside, if any, and what it knows. *)
Definition phase_of (holder : option (nat * visit)) (i : nat) : phase :=
  match holder with
  | Some (j, (before, now)) => if decide (j = i) then Inside before now else Outside
  | None => Outside
  end.

#[local] Arguments phase_of : simpl never.

(** All visits so far lead from [start] to the slot as it is, or as it was when
    the thread inside entered. *)
Record linear (start : zipc_slot_control_t) (c : config (world E) A)
    (holder : option (nat * visit)) (h : list (nat * visit)) (s : zipc_slot_control_t)
    : Prop := {
  ln_live : live pool hd buffers c.2;
  ln_slot : w_controls c.2 !! key = Some s;
  ln_chain : chain start h (match holder with
                            | Some (_, (before, _)) => before
                            | None => guarded s
                            end);
  ln_holder : match holder with
              | Some (j, (before, now)) => guarded s = now ∧
                  s_state s = ZIPC_SLOT_CLAIMING ∧ (j < length c.1)%nat ∧
                  slot_ok (h_slot_capacity hd) before
              | None => s_state s ≠ ZIPC_SLOT_CLAIMING ∧
                  slot_ok (h_slot_capacity hd) (guarded s)
              end;
  ln_allowed i v : (i, v) ∈ h → allowed i v;
  ln_threads i p : c.1 !! i = Some p →
    safe_thread i p (phase_of holder i) (visits_of i h) }.

Lemma phase_of_knows holder start c h s i :
  linear start c holder h s → knows (phase_of holder i) s.
Proof.
  intros HL. pose proof (ln_holder _ _ _ _ _ HL) as Hh. unfold phase_of.
  destruct holder as [[j [before now]]|]; [|done]. case_decide; [|done]. naive_solver.
Qed.

(** The threads after a step of thread [i], under the new holder and visits. *)
Lemma threads_after ts i q holder h holder' h' ph hi :
  (i < length ts)%nat →
  (∀ j p, ts !! j = Some p → safe_thread j p (phase_of holder j) (visits_of j h)) →
  safe_thread i q ph hi → phase_of holder' i = ph → visits_of i h' = hi →
  (∀ j, j ≠ i → phase_of holder' j = phase_of holder j ∧ visits_of j h' = visits_of j h) →
  ∀ j p, <[i := q]> ts !! j = Some p →
    safe_thread j p (phase_of holder' j) (visits_of j h').
Proof.
  intros Hi Hth Hq E1 E2 Ho j p Hp. destruct (decide (j = i)) as [->|Hne].
  - rewrite list_lookup_insert_eq in Hp by done. injection Hp as <-. by rewrite E1, E2.
  - rewrite list_lookup_insert_ne in Hp by done. destruct (Ho _ Hne) as [-> ->]. eauto.
Qed.

(** One action of thread [i]: its move becomes a move of the lock. *)
Lemma linear_call start ts w holder h s i p p' w' :
  linear start (ts, w) holder h s → ts !! i = Some p → step_prog p w = Some (p', w') →
  ∃ holder' h' s', linear start (<[i := p']> ts, w') holder' h' s'.
Proof.
  intros HL Hp Hstep. pose proof (phase_of_knows _ _ _ _ _ i HL) as Hknows.
  destruct HL as [Hl Hs Hch Hho Hal Hth]. simpl in *.
  assert (Hi : (i < length ts)%nat) by (by eapply lookup_lt_Some).
  pose proof (Hth _ _ Hp) as Hsafe. destruct p as [a|B f k]; [done|]. simpl in Hstep.
  specialize (Hsafe w s Hl Hs Hknows).
  destruct (f w) as [[b w1]|]; [|done]. injection Hstep as <- <-.
  destruct Hsafe as (s' & ph' & hi' & Hl' & Hs' & Hm & Hsafe').
  { destruct holder as [[j [before now]]|]; naive_solver. }
  remember (phase_of holder i) as ph eqn:Hph. remember (visits_of i h) as hi eqn:Hhi.
  assert (Hrest := λ holder' h', threads_after ts i (k b) holder h holder' h' ph' hi' Hi Hth Hsafe').
  destruct Hm as [ph hi s s' Hg|hi s s' Hidle Hg|before now hi s s' Hst
                 |before now hi s s' Hst Hok Hall].
  - exists holder, h, s'. split; simpl; [done|done| | |done|by apply Hrest].
    + by rewrite Hg.
    + rewrite length_insert, Hg, <- (guarded_state s'), Hg. done.
  - destruct holder as [[j [b0 n0]]|]; [naive_solver|].
    exists (Some (i, (guarded s, guarded s'))), h, s'. split; simpl; [done|done|done| |done|].
    + rewrite length_insert. split_and!; [done| |done|apply Hho].
      by rewrite <- guarded_state, Hg.
    + apply Hrest; [unfold phase_of; by rewrite decide_True|done|].
      intros j Hne. unfold phase_of. by rewrite decide_False.
  - unfold phase_of in Hph. destruct holder as [[j [b0 n0]]|]; [|done].
    case_decide as Hj; [|done]. injection Hph as -> ->. subst j.
    exists (Some (i, (b0, guarded s'))), h, s'. split; simpl; [done|done|done| |done|].
    + rewrite length_insert. by destruct Hho as (_ & _ & _ & Hbok).
    + apply Hrest; [unfold phase_of; by rewrite decide_True|done|].
      intros j Hne. unfold phase_of. by rewrite !decide_False.
  - unfold phase_of in Hph. destruct holder as [[j [b0 n0]]|]; [|done].
    case_decide as Hj; [|done]. injection Hph as -> ->. subst j.
    exists None, (h ++ [(i, (b0, guarded s'))]), s'. split; simpl; [done|done| |done| |].
    + by apply chain_snoc.
    + intros j v Hin. apply elem_of_app in Hin as [Hin|Hin]; [eauto|].
      apply list_elem_of_singleton in Hin. by simplify_eq.
    + apply Hrest; [done|by rewrite visits_of_snoc, decide_True, Hhi|].
      intros j Hne. rewrite visits_of_snoc. unfold phase_of. by rewrite !decide_False.
Qed.

(** Interference is invisible to the lock. *)
Lemma linear_other start ts w w' holder h s :
  linear start (ts, w) holder h s → interferes pool hd buffers key w w' →
  ∃ s', linear start (ts, w') holder h s'.
Proof.
  intros [Hl Hs Hch Hho Hal Hth] [Hl' Hg]. simpl in *. rewrite Hs in Hg.
  apply fmap_Some in Hg as (s' & Hs' & Hg). exists s'.
  assert (Hst : s_state s' = s_state s) by (by rewrite <- guarded_state, <- Hg).
  split; simpl; try done; by rewrite <- ?Hg, ?Hst.
Qed.

Lemma safe_linear start ts w s c :
  live pool hd buffers w → w_controls w !! key = Some s → guarded s = start →
  s_state s ≠ ZIPC_SLOT_CLAIMING → slot_ok (h_slot_capacity hd) (guarded s) →
  (∀ i p, ts !! i = Some p → safe_thread i p Outside []) →
  rtc (step (interferes pool hd buffers key)) (ts, w) c →
  length c.1 = length ts ∧ ∃ holder h s', linear start c holder h s'.
Proof.
  intros Hl Hs Hg Hst Hok Hth Hsteps.
  refine (steps_invariant _ (λ c, length c.1 = length ts ∧
    ∃ holder h s', linear start c holder h s') _ _ _ _ _ Hsteps).
  - intros ts' w' i p p' w'' [Hlen (holder & h & s' & HL)] Hp Hstep. simpl in *.
    rewrite length_insert. split; [done|]. by eapply linear_call.
  - intros ts' w' w'' [Hlen (holder & h & s' & HL)] Hi. split; [done|].
    exists holder, h. by eapply linear_other.
  - split; [done|]. exists None, [], s. split; simpl; try done.
    + rewrite Hg. apply chain_nil.
    + intros i v Hin. by apply elem_of_nil in Hin.
Qed.

(** A thread that has returned. *)
Lemma linear_returned start c holder h s i a :
  linear start c holder h s → c.1 !! i = Some (Ret a) → Q i a (visits_of i h).
Proof. intros HL Hi. by apply (ln_threads _ _ _ _ _ HL _ _ Hi). Qed.

(** A claimed slot is claimed by one thread, which is still running. *)
Lemma linear_inside start c j before now h s :
  linear start c (Some (j, (before, now))) h s →
  ∃ p, c.1 !! j = Some p ∧ returned_value p = None.
Proof.
  intros HL. destruct (ln_holder _ _ _ _ _ HL) as (_ & _ & Hj & _).
  destruct (lookup_lt_is_Some_2 _ _ Hj) as [p Hp]. exists p. split; [done|].
  pose proof (ln_threads _ _ _ _ _ HL _ _ Hp) as Hsafe. destruct p; [|done].
  destruct Hsafe as [Hph _]. unfold phase_of in Hph. by rewrite decide_True in Hph.
Qed.

(** A [total] thread never faults. *)
Lemma linear_progress start c holder h s i p :
  total = true → linear start c holder h s → c.1 !! i = Some p →
  is_Some (returned_value p) ∨ is_Some (step_prog p c.2).
Proof.
  intros Ht HL Hp. destruct p as [a|B f k]; [by left; eexists|right].
  pose proof (ln_threads _ _ _ _ _ HL _ _ Hp (c.2) s (ln_live _ _ _ _ _ HL)
    (ln_slot _ _ _ _ _ HL) (phase_of_knows _ _ _ _ _ i HL)) as Hsafe.
  simpl in *. destruct (f c.2) as [[b w']|]; [by eexists|].
  rewrite Hsafe in Ht; [done|]. pose proof (ln_holder _ _ _ _ _ HL) as Hh.
  destruct holder as [[j [b0 n0]]|]; naive_solver.
Qed.

End composition.
