(* ===== verification/SafeCalls.v ===== *)
(** * The slot operations respect the lock of a slot

    Rules of [safe] for the helpers of Slot.v, and the proofs that allocation,
    transfer, claim and release keep to the rules of Exclusive.v for any slot
    of the pool, with the visits they make to it.  A visit is described by the
    ownership contract of SlotSpec.v. *)
From S2P Require Import Prelude Types Packing Visited Prog Store Identity Slot SlotRun.
From S2P Require Import IdentitySpec SlotSpec Alloc Interleave Exclusive.

Section helpers.
Context {E : Type} `{Platform E}.
Context (pool : zipc_pool_t) (hd : zipc_pool_header_t) (buffers : list Z) (key : Z * Z).
Context (total : bool) (allowed : visit → Prop).
#[local] Abbreviation safe := (safe (E:=E) pool hd buffers key total allowed).
#[local] Abbreviation mapped := (mapped pool hd total).

(** The slot of a handle that passed the range check. *)
Lemma handle_mapped handle x :
  same_shape hd x → (h_slot_count x <=? zipc_handle_slot_id handle) = false →
  mapped (slot_key pool (zipc_handle_slot_id handle)).
Proof.
  intros (-> & _) Hi _. apply Z.leb_gt in Hi. eexists. split; [|done]. split; [|done].
  rewrite zipc_handle_slot_id_mod. by apply Z.mod_pos_bound.
Qed.

Lemma safe_registered_epoch c ph h Q :
  (∀ z, Q z ph h) → safe (registered_epoch pool c) ph h Q.
Proof.
  intros HQ. unfold registered_epoch.
  destruct (zipc_component_id_valid c) eqn:Hc; psimpl; [|by apply safe_ret].
  apply safe_bind, safe_component_read; [done|]. intros x. by apply safe_ret.
Qed.

Lemma safe_now ph h Q : (∀ t, Q t ph h) → safe zipc_now_ns ph h Q.
Proof. apply safe_env_call. Qed.

Lemma safe_protect_slot i rw ph h Q :
  (∀ st, Q st ph h) → safe (protect_slot pool i rw) ph h Q.
Proof.
  intros HQ. unfold protect_slot. destruct (_ =? 0); [by apply safe_ret|].
  apply safe_bind, safe_header_read. intros x _. destruct (_ <=? _); [by apply safe_ret|].
  apply safe_bind, safe_header_read. intros y _. destruct rw; by apply safe_env_call.
Qed.

(** The hook sees the slot, the slot sees one more trace entry. *)
Lemma safe_trace_slot i c event ph h Q :
  mapped (slot_key pool i) →
  (slot_key pool i ≠ key → Q tt ph h) →
  (∀ before now t, slot_key pool i = key → ph = Inside before now →
     Q tt (Inside before (guarded (push_trace t c event now))) h) →
  (slot_key pool i = key → ph = Outside → False) →
  safe (trace_slot pool i c event) ph h Q.
Proof.
  intros Hm Hother Hin Hout. unfold trace_slot. apply safe_bind, safe_now. intros t.
  apply safe_bind.
  assert (Hhook : ∀ ph', Q tt ph' h → safe (hook ← trace_hook_set;
    if negb hook then mret ()
    else s ← slot_read (slot_key pool i) (λ s, s);
      trace_hook_call
        {| tr_timestamp_ns := t; tr_buffer_id := id_id (s_identity s);
           tr_parent_id := id_parent_id (s_identity s);
           tr_handle := zipc_handle_make i (s_generation s);
           tr_pool_id := p_pool_id pool; tr_transfer_sequence := s_transfer_sequence s;
           tr_component_id := c; tr_event := event |}) ph' h Q).
  { intros ph' HQ. apply safe_bind, safe_trace_hook_set. intros []; psimpl; [|by apply safe_ret].
    apply safe_bind, safe_slot_read; [done|]. intros s _. by apply safe_trace_hook_call. }
  destruct (decide (slot_key pool i = key)) as [Hk|Hk].
  - destruct ph as [|before now]; [exfalso; by apply Hout|].
    apply safe_slot_write_inside; [done|done|done|]. by apply Hhook, Hin.
  - apply safe_slot_write_quiet; [done|done|]. by apply Hhook, Hother.
Qed.

Lemma safe_count_error ph h Q :
  Q tt ph h → safe (header_write (p_header pool) count_protocol_error) ph h Q.
Proof. by apply safe_header_write. Qed.

Lemma safe_record_error c ph h Q :
  Q tt ph h → safe (record_protocol_error pool None c) ph h Q.
Proof.
  intros HQ. apply safe_bind, safe_count_error.
  apply safe_bind, safe_trace_hook_set. intros []; psimpl; [|by apply safe_ret].
  apply safe_bind, safe_now. intros t. by apply safe_trace_hook_call.
Qed.
Lemma safe_record_error_slot i c ph h Q :
  mapped (slot_key pool i) →
  (slot_key pool i ≠ key → Q tt ph h) →
  (∀ before now t, slot_key pool i = key → ph = Inside before now →
     Q tt (Inside before (guarded (push_trace t c ZIPC_TRACE_ERROR now))) h) →
  (slot_key pool i = key → ph = Outside → False) →
  safe (record_protocol_error pool (Some i) c) ph h Q.
Proof. intros. apply safe_bind, safe_count_error. by apply safe_trace_slot. Qed.

Lemma safe_make_view i handle a ph h Q :
  mapped (slot_key pool i) → a ∈ buffers →
  (slot_key pool i ≠ key → ∀ st, Q st ph h) →
  (∀ before now, slot_key pool i = key → ph = Inside before now →
     region_fits (h_slot_capacity hd) (s_region now) = true → Q ZIPC_OK ph h) →
  (∀ before now, slot_key pool i = key → ph = Inside before now →
     region_fits (h_slot_capacity hd) (s_region now) = false →
     Q ZIPC_ERR_REGION_OVERFLOW ph h) →
  (slot_key pool i = key → ph = Outside → False) →
  safe (make_view pool i handle a) ph h Q.
Proof.
  intros Hm Ha Hother Hin1 Hin2 Hout. unfold make_view.
  apply safe_bind, safe_slot_read; [done|]. intros s Hs.
  apply safe_bind, safe_header_read. intros x (_ & Hcap & _). cbv beta iota. rewrite Hcap.
  assert (HQ : Q (if region_fits (h_slot_capacity hd) (s_region s)
                  then ZIPC_OK else ZIPC_ERR_REGION_OVERFLOW) ph h).
  { destruct (decide (slot_key pool i = key)) as [Hk|Hk]; [|by apply Hother].
    destruct ph as [|before now]; [exfalso; by apply Hout|].
    destruct (Hs Hk) as [Hnow _].
    replace (s_region s) with (s_region now) by (by rewrite <- Hnow).
    destruct (region_fits _ _) eqn:Hr; [by eapply Hin1|by eapply Hin2]. }
  unfold region_fits in HQ. destruct (_ || _); psimpl; [by apply safe_ret|].
  apply safe_bind, safe_slot_read; [done|]. intros s' _. psimpl.
  apply safe_bind, safe_buffer_write; [done|]. by apply safe_ret.
Qed.

Lemma safe_buffer_invalidate a ph h Q :
  a ∈ buffers → Q tt ph h → safe (buffer_invalidate a) ph h Q.
Proof.
  intros Ha HQ. unfold buffer_invalidate. destruct (a =? 0); [by apply safe_ret|].
  by apply safe_buffer_write.
Qed.

(** The end of a visit. *)
Lemma safe_publish_state k x token before now h Q :
  k = key → mapped k → x ≠ ZIPC_SLOT_CLAIMING → slot_ok (h_slot_capacity hd) (set_state x now) →
  allowed (before, set_state x now) → Q tt Outside (h ++ [(before, set_state x now)]) →
  safe (publish_state k x token) (Inside before now) h Q.
Proof.
  intros Hk Hm Hx Hok Hall HQ. apply safe_bind, safe_store_state; try done.
  by apply safe_clear_claim_token.
Qed.
Lemma safe_publish_other k x token ph h Q :
  k ≠ key → mapped k → Q tt ph h → safe (publish_state k x token) ph h Q.
Proof.
  intros Hne Hm HQ. apply safe_bind, safe_slot_write_quiet; [done|done|].
  by apply safe_clear_claim_token.
Qed.

Lemma safe_free_claiming i before now h Q :
  slot_key pool i = key → mapped (slot_key pool i) →
  let s' := set_state ZIPC_SLOT_FREE (guarded (clear_owner now)) in
  slot_ok (h_slot_capacity hd) s' → allowed (before, s') →
  Q tt Outside (h ++ [(before, s')]) →
  safe (free_claiming_slot pool i) (Inside before now) h Q.
Proof.
  intros Hk Hm s' Hok Hall HQ.
  apply safe_bind, safe_slot_read; [done|]. intros s _.
  apply safe_bind, safe_slot_write_inside; [done|done|done|]. by apply safe_publish_state.
Qed.
Lemma safe_free_other i ph h Q :
  slot_key pool i ≠ key → mapped (slot_key pool i) → Q tt ph h →
  safe (free_claiming_slot pool i) ph h Q.
Proof.
  intros Hne Hm HQ. apply safe_bind, safe_slot_read; [done|]. intros s _.
  apply safe_bind, safe_slot_write_quiet; [done|done|]. by apply safe_publish_other.
Qed.

(** ** Loops *)
Lemma safe_for_range {A} n lo (body : Z → prog (world E) (option A)) ph h Q :
  (∀ i, safe (body i) ph h (λ r ph' h',
     match r with Some a => Q (Some a) ph' h' | None => ph' = ph ∧ h' = h end)) →
  Q None ph h → safe (for_range n lo body) ph h Q.
Proof.
  intros Hbody HQ. revert lo. induction n as [|n IH]; intros lo; [by apply safe_ret|].
  apply safe_bind. eapply safe_mono; [apply Hbody|]. intros [a|] ph' h'; [by apply safe_ret|].
  intros [-> ->]. apply IH.
Qed.
Lemma safe_loop {A} n (body : prog (world E) (option A)) ph h Q :
  safe body ph h (λ r ph' h',
     match r with Some a => Q (Some a) ph' h' | None => ph' = ph ∧ h' = h end) →
  Q None ph h → safe (loop n body) ph h Q.
Proof.
  intros Hbody HQ. induction n as [|n IH]; [by apply safe_ret|].
  apply safe_bind. eapply safe_mono; [apply Hbody|]. intros [a|] ph' h'; [by apply safe_ret|].
  intros [-> ->]. apply IH.
Qed.

(** ** Identifier generation

    Under contention its retry loops have no bound, so it is not [total]. *)
Section partial.
Hypothesis Hpartial : total = false.

Lemma safe_fault {A} ph h (Q : A → phase → list visit → Prop) : safe fault ph h Q.
Proof. by apply safe_local. Qed.
Lemma safe_returned {A} (r : option A) ph h Q :
  (∀ a, r = Some a → Q a ph h) → safe (returned r) ph h Q.
Proof. destruct r; intros HQ; [by apply safe_ret, HQ|apply safe_fault]. Qed.
Lemma safe_generator_read {A} c (f : zipc_buffer_id_generator_t → A) ph h Q :
  (∀ a, Q a ph h) → safe (generator_read c f) ph h Q.
Proof.
  intros HQ. apply safe_local. intros w Hl.
  destruct (w_generators w !! c); simpl; [|done]. auto.
Qed.
Lemma safe_generator_write c f ph h Q : Q tt ph h → safe (generator_write c f) ph h Q.
Proof.
  intros HQ. apply safe_local. intros w Hl.
  destruct (w_generators w !! c); simpl; [|done].
  split_and!; [by apply (live_same _ _ _ w)|done|done].
Qed.
Lemma safe_cas_generator_weak c get set x y ph h Q :
  (∀ b, Q b ph h) → safe (cas_generator_weak c get set x y) ph h Q.
Proof.
  intros HQ. apply safe_bind, safe_local. intros w Hl.
  assert (Hcas : ∀ b : bool, safe (if b then mret false else act (λ w,
    x0 ← w_generators w !! c;
    if get x0 =? x then Some (true, put_generator c (set y x0) w) else Some (false, w)))
    ph h Q).
  { intros []; [by apply safe_ret|]. apply safe_local. intros w' Hl'.
    destruct (w_generators w' !! c) as [g|]; simpl; [|done].
    destruct (get g =? x); split_and!; auto.
    by apply (live_same _ _ _ w'). }
  destruct (w_spurious w) as [|b l]; (split_and!; [by apply (live_same _ _ _ w)|done|]).
  - apply (Hcas false).
  - apply Hcas.
Qed.

Lemma safe_random_session old ph h Q :
  (∀ r, Q r ph h) → safe (random_session old) ph h Q.
Proof.
  intros HQ. apply safe_bind, safe_for_range; [|by apply safe_ret]. intros _.
  apply safe_bind, safe_env_call. intros [st se]. psimpl.
  destruct (status_is st ZIPC_OK); psimpl; [|by apply safe_ret, safe_ret].
  destruct (_ && _); apply safe_ret; [by apply safe_ret|done].
Qed.

Lemma safe_rotate_session fuel c old restore ph h Q :
  Q None ph h → (∀ st, st ≠ ZIPC_OK → Q (Some st) ph h) →
  safe (rotate_session fuel c old restore) ph h Q.
Proof.
  intros HN HS. apply safe_bind, safe_bind, safe_loop.
  - apply safe_bind, safe_generator_read. intros z. apply safe_ret.
    destruct (z =? 0); [|done]. apply safe_returned. intros _ _.
    apply safe_bind, safe_random_session. intros [st se]. psimpl.
    destruct (status_is st ZIPC_OK) eqn:Hst; psimpl.
    + do 2 (apply safe_bind, safe_generator_write). by apply safe_ret.
    + apply safe_bind, safe_generator_write, safe_ret, HS.
      by apply bool_decide_eq_false in Hst.
  - by apply safe_returned.
Qed.

(** [id_out] is called once, by the turn that succeeds. *)
Lemma safe_generate_buffer_id fuel c id_out ph h Q :
  (∀ session sequence, safe (id_out (zipc_buffer_id_make c session sequence)) ph h
     (λ _ ph' h', Q ZIPC_OK ph' h')) →
  (∀ st, st ≠ ZIPC_OK → Q st ph h) →
  safe (generate_buffer_id fuel c (Some id_out)) ph h Q.
Proof.
  intros Hid HS. unfold generate_buffer_id.
  destruct (zipc_component_id_valid c); psimpl; [|by apply safe_ret, HS].
  apply safe_bind, safe_loop; [|by apply safe_returned]. unfold generate_turn.
  repeat first
    [ apply safe_ret; by repeat split
    | apply safe_bind, safe_generator_read; intros ?
    | apply safe_bind, safe_cas_generator_weak; intros []; psimpl
    | apply safe_bind, safe_generator_write
    | apply safe_rotate_session; [done|intros st Hst; apply safe_returned; intros ? [= <-]; by apply HS]
    | match goal with |- safe (if ?b then _ else _) _ _ _ => destruct b; psimpl end ].
  apply safe_bind. eapply safe_mono; [apply Hid|]. intros ? ph' h' HQ.
  apply safe_bind, safe_generator_write, safe_ret, safe_returned. by intros ? [= <-].
Qed.

End partial.

End helpers.

(** ** Symbolic execution *)

Lemma status_not_ok st : st ≠ ZIPC_OK → status_is st ZIPC_OK = false.
Proof. apply bool_decide_eq_false_2. Qed.

(** One step: the rule for the head of the program.  The context says whether
    the slot of the call is the one under observation. *)
Ltac safe_slot := first [ done | eassumption | congruence | by eapply handle_mapped
    | solve [intros ?; congruence] ].
Ltac safe_step :=
  lazymatch goal with
  | |- safe _ _ _ _ _ _ (mbind _ _) _ _ _ => apply safe_bind
  | |- safe _ _ _ _ _ _ (mret _) _ _ _ => apply safe_ret; psimpl
  | |- safe _ _ _ _ _ _ (if negb (status_is ?s ZIPC_OK) then _ else _) _ _ _ =>
      first [ progress status_eval
            | match goal with H : status_is s ZIPC_OK = _ |- _ => rewrite H; psimpl end
            | destruct (status_is s ZIPC_OK) eqn:?; psimpl ]
  | |- safe _ _ _ _ _ _ (if ?b then _ else _) _ _ _ => destruct b eqn:?; psimpl
  | |- safe _ _ _ _ _ _ (let '(_, _) := ?p in _) _ _ _ => destruct p eqn:?; psimpl
  | |- safe _ _ _ _ _ _ (slot_read _ _) _ _ _ =>
      first [ apply safe_slot_read_inside; [safe_slot|safe_slot|done|]
            | apply safe_slot_read; [safe_slot|intros ? _] ]; psimpl
  | |- safe _ _ _ _ _ _ (slot_write _ _) _ _ _ =>
      first [ apply safe_slot_write_inside; [safe_slot|done|done|]
            | apply safe_slot_write_quiet; [safe_slot|done|] ]
  | |- safe _ _ _ _ _ _ (cas_state _ _ _) _ _ _ =>
      first [ apply safe_cas_state_enter; [safe_slot|done|intros ? ? ? ?|]
            | apply safe_cas_state_other; [safe_slot|safe_slot|intros ?] ]; psimpl
  | |- safe _ _ _ _ _ _ (cas_token _ _ _) _ _ _ =>
      apply safe_cas_token; [safe_slot|intros [? ?]]; psimpl
  | |- safe _ _ _ _ _ _ (clear_claim_token _ _) _ _ _ =>
      apply safe_clear_claim_token; [safe_slot|]
  | |- safe _ _ _ _ _ _ (publish_state _ _ _) _ _ _ =>
      first [ apply safe_publish_state; [safe_slot|safe_slot|done|..]
            | apply safe_publish_other; [safe_slot|safe_slot|] ]
  | |- safe _ _ _ _ _ _ (free_claiming_slot _ _) _ _ _ =>
      first [ apply safe_free_claiming; [safe_slot|safe_slot|..]
            | apply safe_free_other; [safe_slot|safe_slot|] ]
  | |- safe _ _ _ _ _ _ (trace_slot _ _ _ _) _ _ _ =>
      apply safe_trace_slot; [safe_slot|intros ?|intros ? ? ? ? [= <- <-]|try done];
      try congruence
  | |- safe _ _ _ _ _ _ (record_protocol_error _ None _) _ _ _ => apply safe_record_error
  | |- safe _ _ _ _ _ _ (record_protocol_error _ (Some _) _) _ _ _ =>
      apply safe_record_error_slot; [safe_slot|intros ?|intros ? ? ? ? [= <- <-]|try done];
      try congruence
  | |- safe _ _ _ _ _ _ (make_view _ _ _ _) _ _ _ =>
      apply safe_make_view;
        [safe_slot|done|intros ? ?|intros ? ? ? [= <- <-] ?|intros ? ? ? [= <- <-] ?|try done];
      try congruence
  | |- safe _ _ _ _ _ _ (buffer_invalidate _) _ _ _ => apply safe_buffer_invalidate; [done|]
  | |- safe _ _ _ _ _ _ (registered_epoch _ _) _ _ _ => apply safe_registered_epoch; intros ?
  | |- safe _ _ _ _ _ _ (protect_slot _ _ _) _ _ _ => apply safe_protect_slot; intros ?
  | |- safe _ _ _ _ _ _ zipc_now_ns _ _ _ => apply safe_now; intros ?
  | |- safe _ _ _ _ _ _ (generate_buffer_id _ _ (Some _)) _ _ _ =>
      apply safe_generate_buffer_id; [safe_slot|intros ? ?|intros ? ?%status_not_ok]; psimpl
  | |- safe _ _ _ _ _ _ (header_read _ _) _ _ _ => apply safe_header_read; intros ? ?
  | |- safe _ _ _ _ _ _ (header_write _ _) _ _ _ => apply safe_header_write; [done|]
  | |- safe _ _ _ _ _ _ (env_call _) _ _ _ => apply safe_env_call; intros ?
  | |- safe _ _ _ _ _ _ trace_hook_set _ _ _ => apply safe_trace_hook_set; intros ?
  | |- safe _ _ _ _ _ _ (trace_hook_call _) _ _ _ => apply safe_trace_hook_call
  end.

(** Evaluate the slots of a visit: the evaluation of slots now goes through
    [guarded] as well. *)
Ltac slot_simpl ::=
  unfold owned_by, deadline_passed, hops_exhausted in *;
  cbn [guarded set_state set_token set_generation push_trace clear_owner init_slot
    init_slot_times set_identity_id remember_sequence mark_transfer take_ownership
    remember_owner s_state s_generation s_owner_id s_next_owner_id s_owner_epoch s_hop_count
    s_hop_limit s_visited s_identity s_region s_transfer_sequence s_payload_type s_flags
    s_error_flags s_deadline_ns s_acquired_ns s_claim_token s_claim_previous_sequence
    s_claim_previous_region s_claim_previous_owner s_claim_previous_owner_epoch
    s_transfer_link_id s_transfer_source_id s_transfer_source_epoch s_transfer_hop_count
    s_transfer_acquired_ns s_transfer_visited s_trace_count s_trace s_recovery_count] in *.
Ltac visit_simpl := cbn [app fst snd] in *; view_simpl; test_clean.

(** The receive of the contract on this branch. *)
Ltac claim_done :=
  match goal with H : deadline_passed ?t _ = _ |- _ => exists t | _ => exists 0 end;
  match goal with
  | H : status_is ?p ZIPC_OK = _ |- _ => is_var p; exists p
  | _ => exists ZIPC_OK
  end;
  match goal with |- context [take_ownership _ ?e _ _] => exists e | _ => exists 0 end;
  unfold spec_claim; visit_simpl; use_state; visit_simpl; use_tests; visit_simpl;
  try match goal with H : s_transfer_hop_count _ = _ |- _ => rewrite H end; done.

Ltac send_done :=
  match goal with H : deadline_passed ?t _ = _ |- _ => exists t | _ => exists 0 end;
  match goal with
  | H : status_is ?p ZIPC_OK = _ |- _ => is_var p; exists p
  | _ => exists ZIPC_OK
  end;
  match goal with
  | H : owned_by _ ?e _ = _ |- _ => exists e
  | H : negb (owned_by _ ?e _) = _ |- _ => exists e
  | _ => exists 0
  end;
  unfold spec_send; visit_simpl; use_state; visit_simpl; use_tests; visit_simpl;
  use_tests; done.

Ltac release_done :=
  match goal with
  | H : status_is ?p ZIPC_OK = _ |- _ => is_var p; exists p
  | _ => exists ZIPC_OK
  end;
  match goal with
  | H : owned_by _ ?e _ = _ |- _ => exists e
  | H : negb (owned_by _ ?e _) = _ |- _ => exists e
  | _ => exists 0
  end;
  unfold spec_release; cbn [fst snd]; rewrite view_generation_abs, Z.eqb_refl; visit_simpl;
  use_state; visit_simpl; use_tests; visit_simpl; done.

Ltac allocate_done :=
  split; cbn [fst snd]; [visit_simpl; use_state; done|];
  first [ progress status_eval
        | use_tests ];
  first [ do 4 eexists; visit_simpl; reflexivity | visit_simpl; done ].

Section operations.
Context {E : Type} `{Platform E}.
Context (pool : zipc_pool_t) (hd : zipc_pool_header_t) (buffers : list Z) (key : Z * Z).
Context (total : bool) (allowed : visit → Prop).
#[local] Abbreviation safe := (safe (E:=E) pool hd buffers key total allowed).
#[local] Abbreviation mapped := (mapped pool hd total).

(** How a call that returned [r] visited the slot: once, with the effect [effect
    r] of the contract, or not at all; a call that succeeded on this slot did. *)
Definition visited_by {R} (ok : R → bool) (here : Prop) (effect : R → visit → Prop)
    (r : R) (h : list visit) : Prop :=
  (h = [] ∧ (here → ok r = false)) ∨ (∃ v, h = [v] ∧ here ∧ effect r v).

(** The receive of the contract, with the clock, the platform's answer and the
    receiver's epoch as the call saw them. *)
Definition claim_effect (m : zipc_message_t) (receiver : Z) (r : zipc_status_t)
    (v : visit) : Prop :=
  ∃ now prot epoch,
    let o := spec_claim now prot (h_slot_capacity hd) m receiver epoch (abs_slot v.1) in
    r = o_status o ∧ abs_slot v.2 = o_view o.

(** From the entry on. *)
Lemma safe_receive_claimed m receiver epoch token a s :
  let i := zipc_handle_slot_id (m_handle m) in
  slot_key pool i = key → mapped (slot_key pool i) → a ∈ buffers →
  zipc_component_id_valid receiver = true →
  s_state s = ZIPC_SLOT_TRANSFER → guarded s = s → slot_ok (h_slot_capacity hd) s →
  (∀ r v, claim_effect m receiver r v → allowed v) →
  safe (receive_claimed pool m receiver epoch token a)
    (Inside s (set_state ZIPC_SLOT_CLAIMING s)) []
    (λ r ph h, ph = Outside ∧ ∃ v, h = [v] ∧ claim_effect m receiver r v).
Proof.
  intros i Hk Hm Ha Hv Hst Hg Hok Hall. unfold receive_claimed. fold i.
  assert (Htok : s_claim_token s = 0) by (by rewrite <- Hg).
  destruct (slot_ok_transfer _ _ Hok Hst) as [_ [_ _ _ Hhop _ _]].
  repeat safe_step.
  all: lazymatch goal with
       | |- slot_ok _ _ => revert Hok; slot_ok_done; auto using sb_visited with zipc
       | |- allowed _ => eapply Hall; claim_done
       | |- _ => split; [done|]; eexists; split; [reflexivity|]; claim_done
       end.
Qed.

Lemma safe_claim m receiver a :
  a ∈ buffers → (∀ r v, claim_effect m receiver r v → allowed v) →
  safe (zipc_buffer_claim (Some pool) (Some m) receiver a) Outside []
    (λ r ph h, ph = Outside ∧
       visited_by (λ r, status_is r ZIPC_OK)
         (slot_key pool (zipc_handle_slot_id (m_handle m)) = key)
         (claim_effect m receiver) r h).
Proof.
  intros Ha Hall. unfold zipc_buffer_claim.
  destruct (decide (slot_key pool (zipc_handle_slot_id (m_handle m)) = key)) as [Hk|Hk].
  - repeat safe_step; try (split; [done|by left]).
    all: match goal with H : _ || negb _ = false |- _ =>
           apply orb_false_iff in H as [_ Hv%negb_false_iff] end.
    all: eapply safe_mono; [eapply safe_receive_claimed; safe_slot|].
    all: intros r ph h [-> (v & -> & Hef)]; split; [done|right; eauto].
  - repeat (safe_step; try unfold receive_claimed).
    all: split; [done|by left].
Qed.

(** ** Transfer *)

(** The send of the contract; the message announces the sequence it left. *)
Definition send_effect (handle c next link : Z) (m : zipc_message_t)
    (r : zipc_status_t * zipc_message_t) (v : visit) : Prop :=
  ∃ now prot epoch,
    let o := spec_send now prot (zipc_handle_generation handle) c epoch next link
               (abs_slot v.1) in
    r.1 = o_status o ∧ abs_slot v.2 = o_view o ∧
    r.2 = (if status_is r.1 ZIPC_OK
           then ZipcMessage handle (p_pool_id pool) c next (s_transfer_sequence v.2) 0
           else m).

Lemma safe_transfer_claimed handle c next link epoch token m s :
  let i := zipc_handle_slot_id handle in
  slot_key pool i = key → mapped (slot_key pool i) →
  zipc_component_id_valid next = true →
  s_state s = ZIPC_SLOT_OWNED → guarded s = s → slot_ok (h_slot_capacity hd) s →
  (∀ r v, send_effect handle c next link m r v → allowed v) →
  safe (transfer_claimed pool handle c next link epoch token m)
    (Inside s (set_state ZIPC_SLOT_CLAIMING s)) []
    (λ r ph h, ph = Outside ∧ ∃ v, h = [v] ∧ send_effect handle c next link m r v).
Proof.
  intros i Hk Hm Hv Hst Hg Hok Hall. unfold transfer_claimed. fold i.
  assert (Htok : s_claim_token s = 0) by (by rewrite <- Hg).
  repeat safe_step.
  all: lazymatch goal with
       | |- slot_ok _ _ => revert Hok; slot_ok_done
       | |- allowed _ => eapply (Hall (_, _)); send_done
       | |- _ => split; [done|]; eexists; split; [reflexivity|]; send_done
       end.
Qed.

Lemma safe_send handle c next link m :
  (∀ r v, send_effect handle c next link m r v → allowed v) →
  safe (buffer_prepare_transfer_internal (Some pool) handle c next link (Some m)) Outside []
    (λ r ph h, ph = Outside ∧
       visited_by (λ r, status_is r.1 ZIPC_OK)
         (slot_key pool (zipc_handle_slot_id handle) = key)
         (send_effect handle c next link m) r h).
Proof.
  intros Hall. unfold buffer_prepare_transfer_internal.
  destruct (decide (slot_key pool (zipc_handle_slot_id handle) = key)) as [Hk|Hk].
  - repeat safe_step; try (split; [done|by left]).
    all: match goal with H : negb _ || negb _ = false |- _ =>
           apply orb_false_iff in H as [_ Hv%negb_false_iff] end.
    all: eapply safe_mono; [eapply safe_transfer_claimed; safe_slot|].
    all: intros r ph h [-> (v & -> & Hef)]; split; [done|right; eauto].
  - repeat (safe_step; try unfold transfer_claimed).
    all: split; [done|by left].
Qed.

(** ** Release *)

(** The release of the contract, for the buffer the slot held when the call
    entered.  The generation of the handle was compared before that. *)
Definition release_effect (c : Z) (r : zipc_status_t) (v : visit) : Prop :=
  ∃ prot epoch,
    let o := spec_release prot (s_generation v.1) c epoch (abs_slot v.1) in
    r = o_status o ∧ abs_slot v.2 = o_view o.

Lemma safe_release handle c :
  (∀ r v, release_effect c r v → allowed v) →
  safe (zipc_pool_buffer_release (Some pool) handle c) Outside []
    (λ r ph h, ph = Outside ∧
       visited_by (λ r, status_is r ZIPC_OK)
         (slot_key pool (zipc_handle_slot_id handle) = key) (release_effect c) r h).
Proof.
  intros Hall. unfold zipc_pool_buffer_release.
  destruct (decide (slot_key pool (zipc_handle_slot_id handle) = key)) as [Hk|Hk].
  - repeat safe_step; try (split; [done|by left]).
    all: match goal with H : guarded ?s = ?s |- _ =>
           assert (s_claim_token s = 0) by (by rewrite <- H) end.
    all: lazymatch goal with
         | Hok : slot_ok _ ?s |- slot_ok _ _ => revert Hok; slot_ok_done
         | |- allowed _ => eapply Hall; release_done
         | |- _ => split; [done|right]; eexists; split_and!; [reflexivity|done|release_done]
         end.
  - repeat safe_step. all: split; [done|by left].
Qed.

(** ** Allocation *)

(** A free slot becomes a fresh buffer of the next generation, or is free again
    under it. *)
Definition allocate_effect (allocator parent offset length hop_limit duration : Z)
    (r : zipc_status_t) (v : visit) : Prop :=
  abs_slot v.1 = SlotView (Free (s_generation v.1)) 0 ∧
  if status_is r ZIPC_OK
  then ∃ epoch session sequence now,
    abs_slot v.2 = SlotView (Owned allocator epoch
      (fresh_info allocator parent offset length hop_limit duration
         (next_generation (s_generation v.1)) session sequence now)) 0
  else abs_slot v.2 = SlotView (Free (next_generation (s_generation v.1))) 0.

Lemma safe_allocate_claimed fuel i count allocator parent offset length epoch hop_limit
    duration token enable a s :
  total = false → slot_key pool i = key → a ∈ buffers →
  zipc_component_id_valid allocator = true →
  region_fits (h_slot_capacity hd) (ZipcRegion offset length) = true →
  0 <= offset → 0 <= length →
  s_state s = ZIPC_SLOT_FREE → guarded s = s → slot_ok (h_slot_capacity hd) s →
  (∀ r v, allocate_effect allocator parent offset length hop_limit duration r v →
     allowed v) →
  safe (allocate_claimed fuel pool i count allocator parent offset length epoch hop_limit
          duration token enable a)
    (Inside s (set_state ZIPC_SLOT_CLAIMING s)) []
    (λ r ph h, ph = Outside ∧ ∃ v, h = [v] ∧
       allocate_effect allocator parent offset length hop_limit duration r v).
Proof.
  intros Ht Hk Ha Hv Hfits Ho Hl Hst Hg Hok Hall. unfold allocate_claimed.
  assert (Htok : s_claim_token s = 0) by (by rewrite <- Hg).
  repeat (safe_step; try unfold abandon_allocation, count_allocation_failure).
  all: lazymatch goal with
       | |- slot_ok _ _ => destruct Hok as [Hbase _]; revert Hbase; alloc_slot_ok
       | |- allowed _ =>
           match goal with
           | |- context [set_state ZIPC_SLOT_OWNED] => apply (Hall ZIPC_OK)
           | _ => apply (Hall ZIPC_ERR_NO_BUFFER)
           end; allocate_done
       | |- _ => split; [done|]; eexists; split; [reflexivity|]; allocate_done
       end.
Qed.

Lemma safe_allocate_other fuel i count allocator parent offset length epoch hop_limit
    duration token enable a :
  total = false → slot_key pool i ≠ key → a ∈ buffers →
  safe (allocate_claimed fuel pool i count allocator parent offset length epoch hop_limit
          duration token enable a) Outside [] (λ r ph h, ph = Outside ∧ h = []).
Proof.
  intros Ht Hk Ha. unfold allocate_claimed.
  repeat (safe_step; try unfold abandon_allocation, count_allocation_failure). all: done.
Qed.

Lemma safe_allocate fuel allocator parent offset length epoch hop_limit duration enable a :
  total = false → a ∈ buffers → 0 <= offset → 0 <= length →
  (∀ r v, allocate_effect allocator parent offset length hop_limit duration r v →
     allowed v) →
  safe (buffer_allocate_internal fuel (Some pool) allocator parent offset length epoch
          hop_limit duration enable a) Outside []
    (λ r ph h, ph = Outside ∧
       visited_by (λ _, false) True
         (allocate_effect allocator parent offset length hop_limit duration) r h).
Proof.
  intros Ht Ha Ho Hl Hall. unfold buffer_allocate_internal.
  repeat safe_step; try (split; [done|by left]).
  all: try by apply safe_fault.
  all: assert (zipc_component_id_valid allocator = true)
    by (bool_to_prop; done).
  all: assert (region_fits (h_slot_capacity hd) (ZipcRegion offset length) = true)
    by (unfold region_fits; simpl; apply negb_true_iff;
        by match goal with H : same_shape hd ?x, H' : (h_slot_capacity ?x <? _) || _ = _ |- _ =>
             destruct H as (_ & <- & _) end).
  all: apply safe_for_range;
    [|apply safe_bind, safe_header_write; [done|]; apply safe_ret; split; [done|by left]].
  all: intros n.
  all: match goal with |- context [slot_key pool ?i] =>
         destruct (decide (slot_key pool i = key)) as [Hk|Hk] end.
  all: repeat safe_step; try done.
  all: eapply safe_mono;
    [first [eapply safe_allocate_claimed; safe_slot | by apply safe_allocate_other]|].
  1, 3: intros r ph h [-> (v & -> & Hef)]; split; [done|right; eauto].
  all: intros r ph h [-> ->]; split; [done|by left].
Qed.

End operations.
