(* ===== verification/Concurrent.v ===== *)
(** * Concurrent slot operations: theorems

    Any number of calls of the slot operations on one pool, interleaved at
    their atomic actions and disturbed by other processes: the visits they make
    to a slot can be put in one order in which every call has the effect the
    ownership contract gives it, of several rival calls one succeeds, and a
    transfer, claim or release finishes whatever the others do.  The last
    theorem is a schedule in which a release frees a younger buffer. *)
From S2P Require Import Prelude Types Packing Visited Prog Store Identity Slot SlotRun.
From S2P Require Import IdentitySpec SlotSpec Alloc Demo Interleave Exclusive SafeCalls.

(** The calls of src/core/zipc.c that visit a slot. *)
Inductive call :=
| Allocate (fuel : nat) (allocator parent offset length epoch hop_limit duration : Z)
    (enable : bool) (a : Z)
| Send (handle c next link : Z) (m : zipc_message_t)
| Claim (m : zipc_message_t) (receiver a : Z)
| Release (handle c : Z).

Inductive call_kind := KAllocate | KSend | KClaim | KRelease.
#[export] Instance call_kind_eq_dec : EqDecision call_kind.
Proof. solve_decision. Defined.

Definition kind_of (c : call) : call_kind :=
  match c with
  | Allocate _ _ _ _ _ _ _ _ _ _ => KAllocate
  | Send _ _ _ _ _ => KSend
  | Claim _ _ _ => KClaim
  | Release _ _ => KRelease
  end.

(** The C types of the arguments, and a buffer object to write to. *)
Definition call_wf (buffers : list Z) (c : call) : Prop :=
  match c with
  | Allocate _ _ _ offset length _ _ _ _ a => a ∈ buffers ∧ 0 <= offset ∧ 0 <= length
  | Claim _ _ a => a ∈ buffers
  | Send _ _ _ _ _ | Release _ _ => True
  end.

Section calls.
Context {E : Type} `{Platform E}.
Context (pool : zipc_pool_t) (hd : zipc_pool_header_t).

(** The status, and the message a transfer leaves. *)
Definition result : Type := zipc_status_t * option zipc_message_t.

Definition call_prog (c : call) : prog (world E) result :=
  match c with
  | Allocate fuel allocator parent offset length epoch hop_limit duration enable a =>
      r ← buffer_allocate_internal fuel (Some pool) allocator parent offset length epoch
            hop_limit duration enable a; mret (r, None)
  | Send handle c next link m =>
      '(r, m') ← buffer_prepare_transfer_internal (Some pool) handle c next link (Some m);
      mret (r, Some m')
  | Claim m receiver a =>
      r ← zipc_buffer_claim (Some pool) (Some m) receiver a; mret (r, None)
  | Release handle c =>
      r ← zipc_pool_buffer_release (Some pool) handle c; mret (r, None)
  end.

(** The slot the call names; an allocation may take any. *)
Definition call_slot (key : Z * Z) (c : call) : Prop :=
  match c with
  | Allocate _ _ _ _ _ _ _ _ _ _ => True
  | Send handle _ _ _ _ | Release handle _ =>
      slot_key pool (zipc_handle_slot_id handle) = key
  | Claim m _ _ => slot_key pool (zipc_handle_slot_id (m_handle m)) = key
  end.

(** The effect of the contract on the slot. *)
Definition call_effect (c : call) (r : result) (v : visit) : Prop :=
  match c with
  | Allocate _ allocator parent offset length _ hop_limit duration _ _ =>
      allocate_effect allocator parent offset length hop_limit duration r.1 v
  | Send handle c next link m =>
      ∃ m', r.2 = Some m' ∧ send_effect pool handle c next link m (r.1, m') v
  | Claim m receiver _ => claim_effect hd m receiver r.1 v
  | Release handle c => release_effect c r.1 v
  end.

(** The visits that explain a result: at most one, and one if the call
    succeeded on the slot it names. *)
Definition explained (key : Z * Z) (c : call) (r : result) (h : list visit) : Prop :=
  (h = [] ∧ (kind_of c ≠ KAllocate → call_slot key c → r.1 ≠ ZIPC_OK)) ∨
  (∃ v, h = [v] ∧ call_slot key c ∧ call_effect c r v).

Lemma explained_intro {R} key c (ok : R → bool) here effect (r : R) r' h :
  visited_by ok here effect r h →
  (here ↔ call_slot key c) → (∀ v, effect r v → call_effect c r' v) →
  (kind_of c ≠ KAllocate → ok r = status_is r'.1 ZIPC_OK) →
  explained key c r' h.
Proof.
  intros [[-> Hno]|(v & -> & Hh & Hef)] Hhere Heff Hok.
  - left. split; [done|]. intros Hk Hs Hr. specialize (Hno (proj2 Hhere Hs)).
    rewrite Hok, Hr in Hno by done. done.
  - right. exists v. split_and!; [done|by apply Hhere|by apply Heff].
Qed.

Lemma call_safe buffers key total c :
  call_wf buffers c → (total = true → kind_of c ≠ KAllocate) →
  safe pool hd buffers key total (λ v, ∃ r, call_effect c r v) (call_prog c) Outside []
    (λ r ph h, ph = Outside ∧ explained key c r h).
Proof.
  intros Hwf Ht. destruct c; simpl in Hwf, Ht; apply safe_bind.
  - destruct Hwf as (Ha & Ho & Hl). destruct total; [by destruct Ht|].
    eapply safe_mono; [apply safe_allocate; try done|].
    + intros r v Hef. by exists (r, None).
    + intros r ph h [-> Hv]. apply safe_ret. split; [done|]. by eapply explained_intro.
  - eapply safe_mono; [apply safe_send|].
    + intros [r m'] v Hef. exists (r, Some m'). simpl. eauto.
    + intros [r m'] ph h [-> Hv]. apply safe_ret. split; [done|].
      eapply explained_intro; [done|done| |done]. intros v Hef. simpl. eauto.
  - eapply safe_mono; [by apply safe_claim; [|intros r v Hef; exists (r, None)]|].
    intros r ph h [-> Hv]. apply safe_ret. split; [done|]. by eapply explained_intro.
  - eapply safe_mono; [apply safe_release; intros r v Hef; by exists (r, None)|].
    intros r ph h [-> Hv]. apply safe_ret. split; [done|]. by eapply explained_intro.
Qed.

(** ** Linearisation *)

(** What the calls did to the slot, up to configuration [c]: the visits [h] lead
    from [s] to [last], the slot itself unless a call that has not returned is
    inside. *)
Record linearised (key : Z * Z) (calls : list call) (s : zipc_slot_control_t)
    (c : config (world E) result) (h : list (nat * visit)) (last : zipc_slot_control_t)
    : Prop := {
  li_chain : chain (guarded s) h last;
  li_ok : slot_ok (h_slot_capacity hd) last;
  li_slot : ∃ s', w_controls c.2 !! key = Some s' ∧
    if state_is (s_state s') ZIPC_SLOT_CLAIMING
    then ∃ j p, c.1 !! j = Some p ∧ returned_value p = None
    else last = guarded s';
  li_effect j v : (j, v) ∈ h →
    ∃ cl r, calls !! j = Some cl ∧ call_effect cl r v;
  li_returned j cl r : calls !! j = Some cl → c.1 !! j = Some (Ret r) →
    explained key cl r (visits_of j h) }.

Section linear.
Context (buffers : list Z) (i : Z) (total : bool).
Let key := slot_key pool i.
Context (calls : list call) (w : world E) (s : zipc_slot_control_t).
Hypothesis (Hlive : live pool hd buffers w) (Hslot : w_controls w !! key = Some s).
Hypothesis (Hidle : s_state s ≠ ZIPC_SLOT_CLAIMING) (Hok : slot_ok (h_slot_capacity hd) s).
Hypothesis (Hwf : Forall (call_wf buffers) calls).
Hypothesis (Htotal : total = true → Forall (λ c, kind_of c ≠ KAllocate) calls).

Definition call_allowed (j : nat) (v : visit) : Prop :=
  ∃ cl r, calls !! j = Some cl ∧ call_effect cl r v.
Definition call_returns (j : nat) (r : result) (h : list visit) : Prop :=
  ∀ cl, calls !! j = Some cl → explained key cl r h.

Lemma calls_linear c :
  rtc (step (interferes pool hd buffers key)) (call_prog <$> calls, w) c →
  ∃ holder h s', linear pool hd buffers key total call_allowed call_returns
    (guarded s) c holder h s'.
Proof.
  intros Hsteps. refine (proj2 (safe_linear _ _ _ _ _ _ _ _ _ _ _ _ Hlive Hslot _ _ _ _ Hsteps));
    [done|done|by apply guarded_ok|].
  intros j p Hp. rewrite list_lookup_fmap in Hp. apply fmap_Some in Hp as (cl & Hcl & ->).
  assert (Hc : call_wf buffers cl) by (by eapply Forall_lookup_1).
  assert (Hk : total = true → kind_of cl ≠ KAllocate).
  { intros Ht. eapply (Forall_lookup_1 (λ c, kind_of c ≠ KAllocate)); [by apply Htotal|done]. }
  eapply safe_mono; [eapply safe_allowed; [|by apply (call_safe _ _ total)]|].
  - intros v [r Hef]. by exists cl, r.
  - intros r ph h [-> Hex]. split; [done|]. intros cl' Hcl'. by simplify_eq.
Qed.

Lemma calls_linearised c :
  rtc (step (interferes pool hd buffers key)) (call_prog <$> calls, w) c →
  ∃ h last, linearised key calls s c h last.
Proof.
  intros Hsteps. destruct (calls_linear c Hsteps) as (holder & h & s' & HL).
  pose proof (ln_holder _ _ _ _ _ _ _ _ _ _ _ _ HL) as Hh.
  exists h, (match holder with Some (_, (before, _)) => before | None => guarded s' end).
  split.
  - apply HL.
  - destruct holder as [[j [b n]]|]; naive_solver.
  - exists s'. split; [apply HL|]. destruct holder as [[j [b n]]|].
    + destruct Hh as (_ & -> & _). unfold state_is. rewrite bool_decide_eq_true_2 by done.
      exists j. by eapply linear_inside.
    + destruct Hh as [Hst _]. unfold state_is. by rewrite bool_decide_eq_false_2.
  - intros j v Hin. by apply (ln_allowed _ _ _ _ _ _ _ _ _ _ _ _ HL).
  - intros j cl r Hcl Hr. by apply (linear_returned _ _ _ _ _ _ _ _ _ _ _ _ _ _ HL Hr).
Qed.

End linear.


(** ** Rival calls *)

(** A visit that takes the slot out of [P]. *)
Definition takes (P : slot_view → bool) (v : visit) : Prop :=
  P (abs_slot v.1) = true ∧ P (abs_slot v.2) = false.

(** No visit brings the slot into [P]. *)
Definition leaves (P : slot_view → bool) (h : list (nat * visit)) : Prop :=
  ∀ e, e ∈ h → P (abs_slot e.2.1) = false → P (abs_slot e.2.2) = false.

Lemma leaves_snoc P h e : leaves P (h ++ [e]) ↔ leaves P h ∧ leaves P [e].
Proof. unfold leaves. setoid_rewrite elem_of_app. naive_solver. Qed.

Lemma chain_taken P s h s' e :
  chain s h s' → leaves P h → e ∈ h → takes P e.2 → P (abs_slot s') = false.
Proof.
  intros Hch. induction Hch as [s|s h s1 j s2 Hch IH]; [by intros _ ?%elem_of_nil|].
  intros [Hl Hl1]%leaves_snoc [He|He%list_elem_of_singleton]%elem_of_app Ht;
    [|subst e; apply Ht].
  apply (Hl1 (j, (s1, s2))); [by left|]. by apply IH.
Qed.

(** Then one visit at most takes the slot out. *)
Lemma chain_one_taker P s h s' e e' :
  chain s h s' → leaves P h → e ∈ h → takes P e.2 → e' ∈ h → takes P e'.2 → e = e'.
Proof.
  intros Hch. induction Hch as [s|s h s1 j s2 Hch IH]; [by intros _ ?%elem_of_nil|].
  intros [Hl _]%leaves_snoc [He|He%list_elem_of_singleton]%elem_of_app Ht
    [He'|He'%list_elem_of_singleton]%elem_of_app Ht'; subst; [by apply IH| | |done].
  - destruct Ht' as [Ht' _]. simpl in Ht'. by rewrite (chain_taken _ _ _ _ _ Hch Hl He Ht) in Ht'.
  - destruct Ht as [Ht _]. simpl in Ht. by rewrite (chain_taken _ _ _ _ _ Hch Hl He' Ht') in Ht.
Qed.

(** The state a call of each kind takes the slot out of: rivals have one stake. *)
Definition stake (k : call_kind) : zipc_slot_state_t :=
  match k with
  | KAllocate => ZIPC_SLOT_FREE
  | KSend | KRelease => ZIPC_SLOT_OWNED
  | KClaim => ZIPC_SLOT_TRANSFER
  end.
Definition contested (x : zipc_slot_state_t) (v : slot_view) : bool :=
  match x, sv_owner v with
  | ZIPC_SLOT_FREE, Free _ => true
  | ZIPC_SLOT_OWNED, Owned _ _ _ => true
  | ZIPC_SLOT_TRANSFER, InTransfer _ _ _ _ _ => true
  | _, _ => false
  end.

(** A call leaves a slot that is in another state alone, and takes the slot when
    it succeeds. *)
Lemma call_effect_keeps cl r v :
  kind_of cl ≠ KAllocate → call_effect cl r v →
  contested (stake (kind_of cl)) (abs_slot v.1) = false →
  contested (stake (kind_of cl)) (abs_slot v.2) = false.
Proof.
  destruct cl; [done|..]; intros _ Hef; cbn [kind_of stake call_effect] in *; unfold contested.
  - destruct Hef as (m' & _ & now & prot & ep & _ & -> & _). unfold spec_send.
    intros Hno. destruct (sv_owner (abs_slot v.1)) eqn:Ho; try done; cbn [o_view]; by rewrite Ho.
  - destruct Hef as (now & prot & ep & _ & ->). unfold spec_claim.
    intros Hno. destruct (sv_owner (abs_slot v.1)) eqn:Ho; try done; cbn [o_view]; by rewrite Ho.
  - destruct Hef as (prot & ep & _ & ->). unfold spec_release.
    intros Hno. destruct (negb _); [done|].
    destruct (sv_owner (abs_slot v.1)) eqn:Ho; try done; cbn [o_view]; by rewrite Ho.
Qed.
Lemma call_effect_takes cl r v :
  kind_of cl ≠ KAllocate → call_effect cl r v → r.1 = ZIPC_OK →
  takes (contested (stake (kind_of cl))) v.
Proof.
  destruct cl; [done|..]; intros _ Hef Hr; cbn [kind_of stake call_effect] in *.
  - destruct Hef as (m' & _ & now & prot & ep & Hst & Hv & _). simpl in Hst. rewrite Hr in Hst.
    unfold takes. rewrite Hv. clear Hv. unfold spec_send in *. unfold contested.
    repeat case_match; simplify_eq/=; done.
  - destruct Hef as (now & prot & ep & Hst & Hv). rewrite Hr in Hst.
    unfold takes. rewrite Hv. clear Hv. unfold spec_claim in *. unfold contested.
    repeat case_match; simplify_eq/=; done.
  - destruct Hef as (prot & ep & Hst & Hv). rewrite Hr in Hst.
    unfold takes. rewrite Hv. clear Hv. unfold spec_release in *. unfold contested.
    repeat case_match; simplify_eq/=; done.
Qed.


End calls.

(** ** Progress *)
Section progress.
Context {E : Type} `{Platform E}.
Context (pool : zipc_pool_t) (hd : zipc_pool_header_t).

Lemma within_registered_epoch c : steps_within (W := world E) 1 (registered_epoch pool c).
Proof. unfold registered_epoch. by destruct (negb _). Qed.
Lemma within_protect i rw : steps_within (W := world E) 3 (protect_slot pool i rw).
Proof.
  unfold protect_slot. destruct (_ =? 0); [done|]. simpl. intros count.
  destruct (_ <=? _); [done|]. simpl. intros [stride capacity]. by destruct rw.
Qed.
Lemma within_trace i c ev : steps_within (W := world E) 5 (trace_slot pool i c ev).
Proof. simpl. intros ? ? []; done. Qed.
Lemma within_error c : steps_within (W := world E) 4 (record_protocol_error pool None c).
Proof. simpl. intros ? []; done. Qed.
Lemma within_error_slot i c :
  steps_within (W := world E) 6 (record_protocol_error pool (Some i) c).
Proof. simpl. intros ? ? ? []; done. Qed.
Lemma within_view i handle a : steps_within (W := world E) 4 (make_view pool i handle a).
Proof.
  simpl. intros r [capacity stride]. destruct (_ || _); [done|]. simpl. by intros [].
Qed.
Lemma within_invalidate a : steps_within (W := world E) 1 (buffer_invalidate a).
Proof. unfold buffer_invalidate. by destruct (a =? 0). Qed.
Lemma within_publish k x t : steps_within (W := world E) 2 (publish_state k x t).
Proof. done. Qed.
Lemma within_clear k t : steps_within (W := world E) 1 (clear_claim_token k t).
Proof. done. Qed.
Lemma within_free i : steps_within (W := world E) 4 (free_claiming_slot pool i).
Proof. done. Qed.

#[local] Opaque steps_within.

(** Walk down a program, spending steps. *)
Ltac within_step :=
  lazymatch goal with
  | |- steps_within _ (mret _) => apply steps_within_ret
  | |- steps_within _ (if ?b then _ else _) => destruct b; psimpl
  | |- steps_within _ (let '(_, _) := ?p in _) => destruct p
  | |- steps_within _ (mbind _ (if _ then _ else _)) => (* a second look at the token *)
      apply (steps_within_bind 2);
        [ repeat within_step | lia | intros ?; cbn [Nat.sub] ]
  | |- steps_within _ (mbind _ _) =>
      eapply steps_within_bind;
        [ first [ apply within_registered_epoch | apply within_protect | apply within_trace
                | apply within_error | apply within_error_slot | apply within_view
                | apply within_invalidate | apply within_publish | apply within_clear
                | apply within_free | apply (steps_within_act 0) ]
        | lia
        | intros ?; cbn [Nat.sub] ]
  | |- steps_within _ _ => apply steps_within_act
  end.

Lemma within_claim m receiver a :
  steps_within (W := world E) 40 (zipc_buffer_claim (Some pool) (Some m) receiver a).
Proof.
  unfold zipc_buffer_claim. cbn zeta.
  repeat (within_step; try unfold receive_claimed).
Qed.
Lemma within_send handle c next link m :
  steps_within (W := world E) 40
    (buffer_prepare_transfer_internal (Some pool) handle c next link (Some m)).
Proof.
  unfold buffer_prepare_transfer_internal. cbn zeta.
  repeat (within_step; try unfold transfer_claimed).
Qed.
Lemma within_release handle c :
  steps_within (W := world E) 40 (zipc_pool_buffer_release (Some pool) handle c).
Proof. unfold zipc_pool_buffer_release. cbn zeta. repeat within_step. Qed.

Lemma within_call cl :
  kind_of cl ≠ KAllocate → steps_within 40 (call_prog (E := E) pool cl).
Proof.
  destruct cl; [done|..]; intros _; unfold call_prog;
    (eapply (steps_within_bind 40); [|lia|]).
  - apply within_send.
  - intros []. apply steps_within_ret.
  - apply within_claim.
  - intros ?. apply steps_within_ret.
  - apply within_release.
  - intros ?. apply steps_within_ret.
Qed.

(** C10. Transfers, claims and releases are wait-free: in every configuration
    that concurrent calls reach, a call that has not returned can take its next
    step (no action faults), and no schedule gives a call more than 40 steps, so
    each returns whatever the other calls and processes do. *)
Theorem calls_wait_free buffers i calls w s c j cl p :
  live pool hd buffers w → w_controls w !! slot_key pool i = Some s →
  s_state s ≠ ZIPC_SLOT_CLAIMING → slot_ok (h_slot_capacity hd) s →
  Forall (call_wf buffers) calls → Forall (λ cl, kind_of cl ≠ KAllocate) calls →
  rtc (step (interferes pool hd buffers (slot_key pool i))) (call_prog pool <$> calls, w) c →
  calls !! j = Some cl → c.1 !! j = Some p →
  (is_Some (returned_value p) ∨ is_Some (step_prog p c.2)) ∧
  (∀ schedule c', run_schedule schedule (call_prog pool <$> calls, w) = Some c' →
     (count_occ Nat.eq_dec schedule j <= 40)%nat).
Proof.
  intros Hl Hs Hst Hok Hwf Hk Hsteps Hj Hp. split.
  - destruct (calls_linear _ _ _ _ true _ _ _ Hl Hs Hst Hok Hwf) with (2 := Hsteps)
      as (holder & h & s' & HL); [done|].
    by eapply (linear_progress _ _ _ _ true); [|apply HL|].
  - intros schedule c' Hrun. eapply run_schedule_within; [done| |].
    + by rewrite list_lookup_fmap, Hj.
    + by apply within_call, (Forall_lookup_1 _ _ _ _ Hk Hj).
Qed.

End progress.

(** ** A stale release *)

(** The statuses of the calls, and the state and generation of slot 0. *)
Definition observe (c : config (world demo) result)
    : list (option zipc_status_t) * option (zipc_slot_state_t * Z) :=
  (map (option_map fst) (results c),
   option_map (λ s, (s_state s, s_generation s)) (w_controls c.2 !! (1000, 0))).

(** Two releases of one handle (slot 0, generation 1) and an allocation, all by
    component 7. *)
Definition race_calls : list call :=
  [Release (zipc_handle_make 0 1) 7; Release (zipc_handle_make 0 1) 7;
   Allocate 4 7 0 0 16 0 0 0 false 1].
Definition race_start : config (world demo) result :=
  (call_prog demo_pool <$> race_calls, demo_world).
(** The first release is suspended once it has looked at the slot; the second
    release and the allocation run. *)
Definition race_middle : list nat := replicate 5 0%nat ++ replicate 21 1%nat ++ replicate 36 2%nat.


(** ** Witnesses *)

(** Two receivers race for the message of [demo_world_sent]; the second takes
    its first steps before the first claims the slot. *)
Definition rivals : list call := [Claim demo_message 9 1; Claim demo_message 9 2].
Definition rivals_start : config (world demo) result :=
  (call_prog demo_pool <$> rivals, demo_world_sent).
Definition rivals_schedule : list nat :=
  replicate 3 0%nat ++ replicate 3 1%nat ++ replicate 4 0%nat ++ replicate 5 1%nat ++
  replicate 19 0%nat.

Lemma demo_live s0 s1 : live demo_pool demo_header [1; 2] (demo_world_with s0 s1).
Proof.
  apply attached_live; [apply demo_attached|]. intros a Ha.
  repeat (apply elem_of_cons in Ha as [->|Ha]; [by eexists|]). by apply elem_of_nil in Ha.
Qed.
Lemma rivals_wf : Forall (call_wf [1; 2]) rivals.
Proof. repeat constructor. Qed.
Definition rivals_end : config (world demo) result := after rivals_schedule rivals_start.
Lemma rivals_results :
  results rivals_end = [Some (ZIPC_OK, None); Some (ZIPC_ERR_INVALID_STATE, None)].
Proof. vm_compute. reflexivity. Qed.



(** After three steps the first call is not done; it can go on, and has at most 40
    steps in all. *)
Definition rivals_begun : config (world demo) result := after (replicate 3 0%nat) rivals_start.
Lemma calls_wait_free_witness :
  ∃ p, rivals_begun.1 !! 0%nat = Some p ∧ returned_value p = None ∧
    is_Some (step_prog p rivals_begun.2).
Proof.
  eexists. split; [reflexivity|]. split; [reflexivity|].
  destruct (calls_wait_free demo_pool demo_header [1; 2] 0 rivals demo_world_sent
    demo_transfer rivals_begun 0 (Claim demo_message 9 1) _ (demo_live _ _) eq_refl ltac:(done)
    demo_transfer_ok rivals_wf ltac:(repeat constructor; done)
    (after_steps _ (replicate 3 0%nat) rivals_start) eq_refl eq_refl) as [[Hr|Hs] _];
    [by destruct Hr|exact Hs].
Defined.
