(* ===== verification/BareMetal.v ===== *)
(** * The bare-metal platform (platform/baremetal/platform-baremetal.c)

    Memory objects over reserved or caller-owned memory, without page
    protection, and the RPMsg, IPI, PL-ring and secure-call transports.  The
    allocator, the OpenAMP endpoint, the callbacks of a configuration and the
    objects they share are the class [BoardOs]; the macros of the port
    (allocation, address translation, clock, entropy) are the class [BoardMm]. *)
From Stdlib Require Import String.
From S2P Require Import Prelude Types Packing Prog Store Backends Layout Ring Link.
From S2P Require Import LinuxMemory.

(** ** Memory *)
Class BoardMm (O : Type) := {
  (** ZIPC_BAREMETAL_ALLOC and ZIPC_BAREMETAL_FREE of a memory object. *)
  bm_alloc : O → option Z * O;
  bm_free : Z → O → O;
  (** ZIPC_BAREMETAL_PHYS_TO_VIRT *)
  bm_phys_to_virt : Z → Z;
  (** ZIPC_BAREMETAL_TIME_NS *)
  bm_time_ns : O → Z * O;
  (** ZIPC_BAREMETAL_RANDOM of so many bytes; [None] when it is not defined. *)
  bm_random : option (Z → O → (zipc_status_t * list Z) * O) }.

Record board_memory_t := BoardMemory {
  bo_type : zipc_platform_memory_type_t;
  bo_base : Z;
  bo_size : Z;
  bo_physical_base : Z;
  bo_capabilities : Z }.

(** The memory objects by address, and the board. *)
Record board (O : Type) := Board {
  bd_objects : gmap Z board_memory_t;
  bd_os : O }.
Arguments Board {O} _ _.
Arguments bd_objects {O} _.
Arguments bd_os {O} _.

Section memory.
Context {O : Type} `{BoardMm O}.

Definition board_call {A} (f : O → A * O) : prog (board O) A :=
  act (λ m, let '(a, o) := f (bd_os m) in Some (a, Board (bd_objects m) o)).

(** The types the platform offers. *)
Definition memory_supported (type : zipc_platform_memory_type_t) : bool :=
  match type with
  | ZIPC_SHM_DTREVMEM_CACHED | ZIPC_SHM_DTREVMEM_UNCACHED | ZIPC_SHM_PREALLOCATED => true
  | _ => false
  end.

(** The capabilities of reserved memory. *)
Definition reserved_capabilities (config : zipc_platform_memory_config_t) (cached : bool) : Z :=
  with_cap (mc_dtrevmem_device_memory config) ZIPC_MEM_CAP_DEVICE_MEMORY
    (with_cap (mc_dtrevmem_remote_accessible config) ZIPC_MEM_CAP_REMOTE_ACCESS
      (with_cap (mc_dtrevmem_supports_cpu_atomics config)
         (Z.lor ZIPC_MEM_CAP_ATOMIC32 ZIPC_MEM_CAP_ATOMIC64)
        (with_cap cached ZIPC_MEM_CAP_CACHEABLE
          (Z.lor (Z.lor ZIPC_MEM_CAP_CPU_READ ZIPC_MEM_CAP_CPU_WRITE)
             ZIPC_MEM_CAP_FIXED_PHYS)))).

(** The object of a supported configuration, [None] when its address is missing. *)
Definition describe_memory (config : zipc_platform_memory_config_t) : option board_memory_t :=
  match mc_type config with
  | ZIPC_SHM_PREALLOCATED =>
      if mc_preallocated_address config =? 0 then None
      else Some {| bo_type := mc_type config;
                   bo_base := mc_preallocated_address config;
                   bo_size := mc_size config;
                   bo_physical_base := mc_preallocated_physical_address config;
                   bo_capabilities := mc_preallocated_capabilities config |}
  | type =>
      let physical := mc_dtrevmem_physical_address config in
      if physical =? ZIPC_PHYS_ADDR_INVALID then None
      else Some {| bo_type := type;
                   bo_base := bm_phys_to_virt physical;
                   bo_size := mc_size config;
                   bo_physical_base := physical;
                   bo_capabilities := reserved_capabilities config
                     (match type with ZIPC_SHM_DTREVMEM_CACHED => true | _ => false end) |}
  end.

(** The address of the object on OK. *)
Definition zipc_platform_memory_open (config : zipc_platform_memory_config_t)
    : prog (board O) (zipc_status_t + Z) :=
  if mc_size config =? 0 then mret (inl ZIPC_ERR_INVALID_ARGUMENT)
  else if negb (memory_supported (mc_type config))
  then mret (inl ZIPC_ERR_UNSUPPORTED_MEMORY)
  else
  object ← board_call bm_alloc;
  match object with
  | None => mret (inl ZIPC_ERR_PLATFORM)
  | Some self =>
  match describe_memory config with
  | None => board_call (λ o, (tt, bm_free self o));; mret (inl ZIPC_ERR_INVALID_ARGUMENT)
  | Some memory =>
      act (λ m, Some (tt, Board (<[self := memory]> (bd_objects m)) (bd_os m)));;
      mret (inr self)
  end
  end.

Definition zipc_platform_memory_close (memory : Z) : prog (board O) () :=
  if memory =? 0 then mret ()
  else
  board_call (λ o, (tt, bm_free memory o));;
  act (λ m, Some (tt, Board (delete memory (bd_objects m)) (bd_os m))).

(** ** Attributes *)
Definition board_attribute {A} (f : board_memory_t → A) (null : A) (m : board O) (memory : Z) : A :=
  match bd_objects m !! memory with Some o => f o | None => null end.
Definition memory_base : board O → Z → Z := board_attribute bo_base 0.
Definition memory_size : board O → Z → Z := board_attribute bo_size 0.
Definition memory_physical_base : board O → Z → Z :=
  board_attribute bo_physical_base ZIPC_PHYS_ADDR_INVALID.
Definition memory_capabilities : board O → Z → Z := board_attribute bo_capabilities 0.
Definition page_size (m : board O) : Z := 0.
Definition memory_page_size (m : board O) (memory : Z) : Z := 0.
Definition memory_protect_none (memory offset length : Z) (m : board O)
    : zipc_status_t * board O := (ZIPC_ERR_UNSUPPORTED_MEMORY, m).
Definition memory_protect_rw (memory offset length : Z) (m : board O)
    : zipc_status_t * board O := (ZIPC_ERR_UNSUPPORTED_MEMORY, m).

(** ** Clock and entropy *)
Definition time_ns (m : board O) : Z * board O :=
  let '(t, o) := bm_time_ns (bd_os m) in (t, Board (bd_objects m) o).
(** [buffer = false] is NULL; the bytes written. *)
Definition platform_random (buffer : bool) (length : Z) (m : board O)
    : (zipc_status_t * list Z) * board O :=
  if negb buffer && negb (length =? 0) then ((ZIPC_ERR_INVALID_ARGUMENT, []), m)
  else
  match bm_random with
  | None => ((ZIPC_ERR_ENTROPY_UNAVAILABLE, []), m)
  | Some random =>
      let '(r, o) := random length (bd_os m) in (r, Board (bd_objects m) o)
  end.
End memory.

(** ** Transports *)
Class BoardOs (E : Type) := {
  (** [memset] allocation of a transport object: its address. *)
  bo_alloc : E → option Z * E;
  bo_free : Z → E → E;
  (** [rpmsg_send] of a whole descriptor: negative on error. *)
  bo_rpmsg_send : Z → zipc_message_t → E → Z * E;
  (** The callbacks of a configuration. *)
  bo_signal_send : Z → Z → E → zipc_status_t * E;
  bo_signal_wait : Z → Z → Z → E → zipc_status_t * E;
  bo_secure_call : Z → Z → Z → zipc_message_t → E → (zipc_status_t * zipc_message_t) * E;
  (** Mailboxes by address, and the pending response of a secure transport. *)
  bo_mailbox_store : Z → zipc_message_t → E → E;
  bo_mailbox_load : Z → E → zipc_message_t;
  bo_response_store : Z → option zipc_message_t → E → E;
  bo_response_load : Z → E → option zipc_message_t }.

(** The members of the union. *)
Inductive board_handle :=
| BoardNone
| BoardRpmsg (endpoint mailbox wait context : Z)
| BoardIpi (mailbox send wait context : Z)
| BoardPlRing (ring send wait context : Z)
| BoardSecure (call context service_id : Z).

Record board_transport := BoardTransport {
  bt_self : Z;
  bt_type : zipc_platform_transport_type_t;
  bt_timeout_ticks : Z;
  bt_handle : board_handle }.

Section transport.
Context {E : Type} `{BoardOs E}.

Definition board_do (f : E → E) : prog (world E) () := env_call (λ e, (tt, f e)).

(** Each gives the status and the handle and timeout as it leaves them. *)
Definition open_rpmsg (config : zipc_platform_transport_config_t)
    : zipc_status_t * board_handle * Z :=
  if (tc_platform_handle config =? 0) || (tc_shared_mailbox config =? 0)
     || (tc_signal_wait config =? 0) then (ZIPC_ERR_INVALID_ARGUMENT, BoardNone, 0)
  else
  (ZIPC_OK, BoardRpmsg (tc_platform_handle config) (tc_shared_mailbox config)
     (tc_signal_wait config) (tc_signal_context config), tc_timeout_ticks config).

Definition open_ipi (config : zipc_platform_transport_config_t)
    : zipc_status_t * board_handle * Z :=
  if (tc_shared_mailbox config =? 0) || (tc_signal_send config =? 0)
     || (tc_signal_wait config =? 0) then (ZIPC_ERR_INVALID_ARGUMENT, BoardNone, 0)
  else
  (ZIPC_OK, BoardIpi (tc_shared_mailbox config) (tc_signal_send config)
     (tc_signal_wait config) (tc_signal_context config), tc_timeout_ticks config).

Definition open_pl_ring_irq (config : zipc_platform_transport_config_t)
    : prog (world E) (zipc_status_t * board_handle * Z) :=
  let ring := tc_platform_handle config in
  if (ring =? 0) || (tc_signal_send config =? 0) || (tc_signal_wait config =? 0)
  then mret (ZIPC_ERR_INVALID_ARGUMENT, BoardNone, 0)
  else
  status ←
    (if tc_create_endpoint config
     then zipc_transport_spsc_ring_initialize ring (tc_ring_depth config)
     else
       found ← ring_read ring ring_depth;
       mret (if (found <? 2) || (negb (tc_ring_depth config =? 0)
                                 && negb (found =? tc_ring_depth config))
             then ZIPC_ERR_INVALID_ARGUMENT else ZIPC_OK));
  if negb (status_is status ZIPC_OK) then mret (status, BoardNone, 0)
  else
  mret (ZIPC_OK, BoardPlRing ring (tc_signal_send config) (tc_signal_wait config)
    (tc_signal_context config), tc_timeout_ticks config).

(** [self] is the transport object, whose response is cleared. *)
Definition open_secure (self : Z) (config : zipc_platform_transport_config_t)
    : prog (world E) (zipc_status_t * board_handle * Z) :=
  if tc_secure_call config =? 0 then mret (ZIPC_ERR_INVALID_ARGUMENT, BoardNone, 0)
  else
  board_do (bo_response_store self None);;
  mret (ZIPC_OK, BoardSecure (tc_secure_call config) (tc_secure_context config)
    (tc_secure_service_id config), 0).

(** The [switch] over the types. *)
Definition open_by_type (self : Z) (config : zipc_platform_transport_config_t)
    : prog (world E) (zipc_status_t * board_handle * Z) :=
  match tc_type config with
  | ZIPC_TRANSPORT_RPMSG => mret (open_rpmsg config)
  | ZIPC_TRANSPORT_IPI => mret (open_ipi config)
  | ZIPC_TRANSPORT_PL_RING_IRQ => open_pl_ring_irq config
  | ZIPC_TRANSPORT_SMC | ZIPC_TRANSPORT_FFA => open_secure self config
  | _ => mret (ZIPC_ERR_TRANSPORT, BoardNone, 0)
  end.

Definition zipc_platform_transport_open (config : zipc_platform_transport_config_t)
    : prog (world E) (zipc_status_t + board_transport) :=
  object ← env_call bo_alloc;
  match object with
  | None => mret (inl ZIPC_ERR_PLATFORM)
  | Some self =>
  '(status, handle, timeout) ← open_by_type self config;
  if negb (status_is status ZIPC_OK) then board_do (bo_free self);; mret (inl status)
  else mret (inr (BoardTransport self (tc_type config) timeout handle))
  end.

(** ** Sending *)

(** The ring of the PL, without a look for duplicates. *)
Definition pl_ring_push (ring : Z) (message : zipc_message_t) : prog (world E) bool :=
  producer ← ring_read ring ring_producer;
  consumer ← ring_read ring ring_consumer;
  depth ← ring_read ring ring_depth;
  if depth <=? u32 (producer - consumer) then mret false
  else
  ring_write ring (set_entry producer message);;
  ring_write ring (set_producer (u32 (producer + 1)));;
  mret true.

(** [status == ZIPC_OK ? ZIPC_OK : ZIPC_ERR_TRANSPORT_PUBLISHED] *)
Definition signalled (status : zipc_status_t) : zipc_status_t :=
  if status_is status ZIPC_OK then ZIPC_OK else ZIPC_ERR_TRANSPORT_PUBLISHED.

(** A failed call has written to the response too; it is read only while an
    earlier one is pending. *)
Definition overwrite_response (self : Z) (response : zipc_message_t) (e : E) : E :=
  match bo_response_load self e with
  | Some _ => bo_response_store self (Some response) e
  | None => e
  end.

Definition zipc_platform_transport_send (t : board_transport) (message : zipc_message_t)
    : prog (world E) zipc_status_t :=
  match bt_type t, bt_handle t with
  | ZIPC_TRANSPORT_RPMSG, BoardRpmsg endpoint _ _ _ =>
      result ← env_call (bo_rpmsg_send endpoint message);
      mret (if 0 <=? result then ZIPC_OK else ZIPC_ERR_TRANSPORT)
  | ZIPC_TRANSPORT_IPI, BoardIpi mailbox send _ context =>
      board_do (bo_mailbox_store mailbox message);;
      status ← env_call (bo_signal_send send context);
      mret (signalled status)
  | ZIPC_TRANSPORT_PL_RING_IRQ, BoardPlRing ring send _ context =>
      pushed ← pl_ring_push ring message;
      if negb pushed then mret ZIPC_ERR_TRANSPORT
      else
      status ← env_call (bo_signal_send send context);
      mret (signalled status)
  | ZIPC_TRANSPORT_SMC, BoardSecure call context service_id
  | ZIPC_TRANSPORT_FFA, BoardSecure call context service_id =>
      '(status, response) ← env_call (bo_secure_call call context service_id message);
      board_do (if status_is status ZIPC_OK then bo_response_store (bt_self t) (Some response)
                else overwrite_response (bt_self t) response);;
      mret (signalled status)
  | _, _ => mret ZIPC_ERR_TRANSPORT
  end.

(** ** Receiving *)

(** Take the oldest entry, or report [empty]; [consumer % ring->depth] of a ring
    of depth 0 is undefined. *)
Definition spsc_pop (empty : zipc_status_t) (ring : Z)
    : prog (world E) (zipc_status_t * option zipc_message_t) :=
  consumer ← ring_read ring ring_consumer;
  producer ← ring_read ring ring_producer;
  if consumer =? producer then mret (empty, None)
  else
  depth ← ring_read ring ring_depth;
  if depth =? 0 then fault
  else
  message ← ring_read ring (ring_entry consumer);
  ring_write ring (set_consumer (u32 (consumer + 1)));;
  mret (ZIPC_OK, Some message).
Definition pl_ring_pop (ring : Z) : prog (world E) (zipc_status_t * option zipc_message_t) :=
  spsc_pop ZIPC_ERR_TRANSPORT ring.

(** Wait for the signal, then look into the mailbox. *)
Definition mailbox_receive (mailbox wait context timeout : Z)
    : prog (world E) (zipc_status_t * option zipc_message_t) :=
  status ← env_call (bo_signal_wait wait context timeout);
  if negb (status_is status ZIPC_OK) then mret (status, None)
  else
  message ← env_get (bo_mailbox_load mailbox);
  mret (ZIPC_OK, Some message).

(** [*message] on OK. *)
Definition zipc_platform_transport_receive (t : board_transport)
    : prog (world E) (zipc_status_t * option zipc_message_t) :=
  match bt_type t, bt_handle t with
  | ZIPC_TRANSPORT_RPMSG, BoardRpmsg _ mailbox wait context
  | ZIPC_TRANSPORT_IPI, BoardIpi mailbox _ wait context =>
      mailbox_receive mailbox wait context (bt_timeout_ticks t)
  | ZIPC_TRANSPORT_PL_RING_IRQ, BoardPlRing ring _ wait context =>
      status ← env_call (bo_signal_wait wait context (bt_timeout_ticks t));
      if negb (status_is status ZIPC_OK) then mret (status, None)
      else pl_ring_pop ring
  | ZIPC_TRANSPORT_SMC, BoardSecure _ _ _ | ZIPC_TRANSPORT_FFA, BoardSecure _ _ _ =>
      response ← env_get (bo_response_load (bt_self t));
      match response with
      | None => mret (ZIPC_ERR_TRANSPORT, None)
      | Some message =>
          board_do (bo_response_store (bt_self t) None);; mret (ZIPC_OK, Some message)
      end
  | _, _ => mret (ZIPC_ERR_TRANSPORT, None)
  end.

(** The message is consumed here: these transports are not transactional. *)
Definition zipc_platform_transport_receive_begin (t : board_transport)
    : prog (world E) (zipc_status_t * zipc_message_t * zipc_transport_receive_token_t) :=
  '(status, message) ← zipc_platform_transport_receive t;
  mret (status, default zero_message message,
        {| zero_receive_token with rt_transport_cookie := bt_self t;
                                   rt_pending := status_is status ZIPC_OK |}).

Definition clear_pending (token : zipc_transport_receive_token_t) :=
  {| token with rt_pending := false |}.
Definition zipc_platform_transport_receive_commit (t : board_transport)
    (token : zipc_transport_receive_token_t)
    : prog (world E) (zipc_status_t * zipc_transport_receive_token_t) :=
  mret (if negb (rt_pending token) || negb (rt_transport_cookie token =? bt_self t)
        then (ZIPC_ERR_INVALID_ARGUMENT, token)
        else (ZIPC_OK, clear_pending token)).
Definition zipc_platform_transport_receive_abort (t : board_transport)
    (token : zipc_transport_receive_token_t) : zipc_transport_receive_token_t :=
  if rt_transport_cookie token =? bt_self t then clear_pending token else token.

Definition zipc_platform_transport_close (t : board_transport) : prog (world E) () :=
  board_do (bo_free (bt_self t)).
End transport.

(** ** The interface of Link.v *)
#[export] Instance baremetal_transport {E} `{BoardOs E} : Transport E board_transport := {|
  Link.zipc_platform_transport_open := zipc_platform_transport_open;
  Link.zipc_platform_transport_close := zipc_platform_transport_close;
  Link.zipc_platform_transport_send := zipc_platform_transport_send;
  Link.zipc_platform_transport_receive_begin := zipc_platform_transport_receive_begin;
  Link.zipc_platform_transport_receive_commit := zipc_platform_transport_receive_commit |}.
