(* ===== verification/FreeRtos.v ===== *)
(** * The FreeRTOS platform (platform/freertos/platform-freertos.c)

    Queue, RPMsg, task-notification, IPI, PL-ring and secure-call transports,
    memory objects, the tick clock and entropy.  The code that the file shares
    word for word with platform-baremetal.c is taken from BareMetal.v, over an
    allocator that is [pvPortMalloc] and [vPortFree]; the kernel calls of
    FreeRTOS are the class [Rtos]. *)
From Stdlib Require Import String.
From S2P Require Import Prelude Types Packing Prog Store Backends Layout Ring Link.
From S2P Require Import LinuxMemory BareMetal.

Class Rtos (E : Type) := {
  (** [xQueueCreate] of that length: a handle, 0 is NULL. *)
  rt_queue_create : Z → E → Z * E;
  rt_queue_delete : Z → E → E;
  (** [pdPASS] within that many ticks. *)
  rt_queue_send : Z → zipc_message_t → Z → E → bool * E;
  rt_queue_receive : Z → Z → E → option zipc_message_t * E;
  (** [xTaskNotifyGiveIndexed], [ulTaskNotifyTakeIndexed]. *)
  rt_notify_give : Z → Z → E → bool * E;
  rt_notify_take : Z → Z → E → Z * E }.

(** ** Memory *)
Section memory.
Context {O : Type} `{BoardMm O}.

Definition memory_open : zipc_platform_memory_config_t → prog (board O) (zipc_status_t + Z) :=
  BareMetal.zipc_platform_memory_open.
Definition memory_close : Z → prog (board O) () := BareMetal.zipc_platform_memory_close.
Definition memory_base : board O → Z → Z := BareMetal.memory_base.
Definition memory_size : board O → Z → Z := BareMetal.memory_size.
Definition memory_physical_base : board O → Z → Z := BareMetal.memory_physical_base.
Definition memory_capabilities : board O → Z → Z := BareMetal.memory_capabilities.
Definition page_size : board O → Z := BareMetal.page_size.
Definition memory_page_size : board O → Z → Z := BareMetal.memory_page_size.
Definition memory_protect_none : Z → Z → Z → board O → zipc_status_t * board O :=
  BareMetal.memory_protect_none.
Definition memory_protect_rw : Z → Z → Z → board O → zipc_status_t * board O :=
  BareMetal.memory_protect_rw.
Definition platform_random : bool → Z → board O → (zipc_status_t * list Z) * board O :=
  BareMetal.platform_random.

(** [ticks] is [xTaskGetTickCount()], [rate] configTICK_RATE_HZ. *)
Definition tick_time_ns (ticks rate : Z) : Z := u64 (ticks * 1000000000) / rate.
End memory.

(** ** Transports *)

(** The members of the union; IPI, PL ring and secure call are those of the
    bare-metal platform. *)
Inductive rtos_handle :=
| RtosNone
| RtosQueue (queue : Z)
| RtosRpmsg (endpoint receive_queue : Z)
| RtosTask (destination_task mailbox notification_index : Z)
| RtosBoard (h : board_handle).

Record rtos_transport := RtosTransport {
  rt_self : Z;
  rt_type : zipc_platform_transport_type_t;
  rt_timeout_ticks : Z;
  rt_owns_handle : bool;
  rt_handle : rtos_handle }.

Section transport.
Context {E : Type} `{BoardOs E} `{Rtos E}.

(** What an open leaves: status, handle, timeout, ownership. *)
Record opened := Opened {
  op_status : zipc_status_t;
  op_handle : rtos_handle;
  op_timeout : Z;
  op_owns : bool }.

Definition ZIPC_FREERTOS_DEFAULT_QUEUE_LENGTH : Z := 8.
Definition open_queue (config : zipc_platform_transport_config_t) : prog (world E) opened :=
  '(queue, owns) ←
    (if tc_create_endpoint config then
       let length := if negb (tc_queue_length config =? 0) then tc_queue_length config
                     else ZIPC_FREERTOS_DEFAULT_QUEUE_LENGTH in
       queue ← env_call (rt_queue_create length);
       mret (queue, true)
     else mret (tc_platform_handle config, false));
  mret (Opened (if negb (queue =? 0) then ZIPC_OK else ZIPC_ERR_PLATFORM) (RtosQueue queue)
          (tc_timeout_ticks config) owns).

Definition open_rpmsg (config : zipc_platform_transport_config_t) : opened :=
  Opened (if negb (tc_platform_handle config =? 0) then ZIPC_OK else ZIPC_ERR_INVALID_ARGUMENT)
    (RtosRpmsg (tc_platform_handle config) (tc_receive_handle config))
    (tc_timeout_ticks config) false.

Definition open_task_notification (config : zipc_platform_transport_config_t) : opened :=
  if (tc_platform_handle config =? 0) || (tc_shared_mailbox config =? 0)
  then Opened ZIPC_ERR_INVALID_ARGUMENT RtosNone 0 false
  else
  Opened ZIPC_OK (RtosTask (tc_platform_handle config) (tc_shared_mailbox config)
    (tc_notification_index config)) (tc_timeout_ticks config) false.

Definition board_opened (r : zipc_status_t * board_handle * Z) : opened :=
  let '(status, handle, timeout) := r in Opened status (RtosBoard handle) timeout false.
Definition open_ipi (config : zipc_platform_transport_config_t) : opened :=
  board_opened (BareMetal.open_ipi config).
Definition open_pl_ring_irq (config : zipc_platform_transport_config_t)
    : prog (world E) opened :=
  r ← BareMetal.open_pl_ring_irq config; mret (board_opened r).
Definition open_secure (self : Z) (config : zipc_platform_transport_config_t)
    : prog (world E) opened :=
  r ← BareMetal.open_secure self config; mret (board_opened r).

(** The [switch] over the types. *)
Definition open_by_type (self : Z) (config : zipc_platform_transport_config_t)
    : prog (world E) opened :=
  match tc_type config with
  | ZIPC_TRANSPORT_MESSAGE_QUEUE => open_queue config
  | ZIPC_TRANSPORT_RPMSG => mret (open_rpmsg config)
  | ZIPC_TRANSPORT_TASK_NOTIFICATION => mret (open_task_notification config)
  | ZIPC_TRANSPORT_IPI => mret (open_ipi config)
  | ZIPC_TRANSPORT_PL_RING_IRQ => open_pl_ring_irq config
  | ZIPC_TRANSPORT_SMC | ZIPC_TRANSPORT_FFA => open_secure self config
  | _ => mret (Opened ZIPC_ERR_TRANSPORT RtosNone 0 false)
  end.

Definition zipc_platform_transport_open (config : zipc_platform_transport_config_t)
    : prog (world E) (zipc_status_t + rtos_transport) :=
  object ← env_call bo_alloc;
  match object with
  | None => mret (inl ZIPC_ERR_PLATFORM)
  | Some self =>
  o ← open_by_type self config;
  if negb (status_is (op_status o) ZIPC_OK)
  then board_do (bo_free self);; mret (inl (op_status o))
  else mret (inr (RtosTransport self (tc_type config) (op_timeout o) (op_owns o) (op_handle o)))
  end.

(** The transport as the bare-metal code sees it. *)
Definition as_board (t : rtos_transport) (h : board_handle) : board_transport :=
  BoardTransport (rt_self t) (rt_type t) (rt_timeout_ticks t) h.

Definition zipc_platform_transport_send (t : rtos_transport) (message : zipc_message_t)
    : prog (world E) zipc_status_t :=
  match rt_type t, rt_handle t with
  | ZIPC_TRANSPORT_MESSAGE_QUEUE, RtosQueue queue =>
      passed ← env_call (rt_queue_send queue message (rt_timeout_ticks t));
      mret (if passed : bool then ZIPC_OK else ZIPC_ERR_TRANSPORT)
  | ZIPC_TRANSPORT_RPMSG, RtosRpmsg endpoint _ =>
      result ← env_call (bo_rpmsg_send endpoint message);
      mret (if 0 <=? result then ZIPC_OK else ZIPC_ERR_TRANSPORT)
  | ZIPC_TRANSPORT_TASK_NOTIFICATION, RtosTask task mailbox index =>
      board_do (bo_mailbox_store mailbox message);;
      passed ← env_call (rt_notify_give task index);
      mret (if passed : bool then ZIPC_OK else ZIPC_ERR_TRANSPORT_PUBLISHED)
  | ZIPC_TRANSPORT_IPI, RtosBoard h | ZIPC_TRANSPORT_PL_RING_IRQ, RtosBoard h
  | ZIPC_TRANSPORT_SMC, RtosBoard h | ZIPC_TRANSPORT_FFA, RtosBoard h =>
      BareMetal.zipc_platform_transport_send (as_board t h) message
  | _, _ => mret ZIPC_ERR_TRANSPORT
  end.

(** [xQueueReceive]; [*message] on OK. *)
Definition queue_receive (queue timeout : Z)
    : prog (world E) (zipc_status_t * option zipc_message_t) :=
  received ← env_call (rt_queue_receive queue timeout);
  mret (match received with
        | Some message => (ZIPC_OK, Some message)
        | None => (ZIPC_ERR_TRANSPORT, None)
        end).

Definition zipc_platform_transport_receive (t : rtos_transport)
    : prog (world E) (zipc_status_t * option zipc_message_t) :=
  match rt_type t, rt_handle t with
  | ZIPC_TRANSPORT_MESSAGE_QUEUE, RtosQueue queue => queue_receive queue (rt_timeout_ticks t)
  | ZIPC_TRANSPORT_RPMSG, RtosRpmsg _ receive_queue =>
      if receive_queue =? 0 then mret (ZIPC_ERR_TRANSPORT, None)
      else queue_receive receive_queue (rt_timeout_ticks t)
  | ZIPC_TRANSPORT_TASK_NOTIFICATION, RtosTask _ mailbox index =>
      taken ← env_call (rt_notify_take index (rt_timeout_ticks t));
      if taken =? 0 then mret (ZIPC_ERR_TRANSPORT, None)
      else
      message ← env_get (bo_mailbox_load mailbox);
      mret (ZIPC_OK, Some message)
  | ZIPC_TRANSPORT_IPI, RtosBoard h | ZIPC_TRANSPORT_PL_RING_IRQ, RtosBoard h
  | ZIPC_TRANSPORT_SMC, RtosBoard h | ZIPC_TRANSPORT_FFA, RtosBoard h =>
      BareMetal.zipc_platform_transport_receive (as_board t h)
  | _, _ => mret (ZIPC_ERR_TRANSPORT, None)
  end.

Definition zipc_platform_transport_receive_begin (t : rtos_transport)
    : prog (world E) (zipc_status_t * zipc_message_t * zipc_transport_receive_token_t) :=
  '(status, message) ← zipc_platform_transport_receive t;
  mret (status, default zero_message message,
        {| zero_receive_token with rt_transport_cookie := rt_self t;
                                   rt_pending := status_is status ZIPC_OK |}).
Definition zipc_platform_transport_receive_commit (t : rtos_transport)
    (token : zipc_transport_receive_token_t)
    : prog (world E) (zipc_status_t * zipc_transport_receive_token_t) :=
  mret (if negb (rt_pending token) || negb (rt_transport_cookie token =? rt_self t)
        then (ZIPC_ERR_INVALID_ARGUMENT, token)
        else (ZIPC_OK, clear_pending token)).
Definition zipc_platform_transport_receive_abort (t : rtos_transport)
    (token : zipc_transport_receive_token_t) : zipc_transport_receive_token_t :=
  if rt_transport_cookie token =? rt_self t then clear_pending token else token.

Definition zipc_platform_transport_close (t : rtos_transport) : prog (world E) () :=
  (match rt_type t, rt_handle t with
   | ZIPC_TRANSPORT_MESSAGE_QUEUE, RtosQueue queue =>
       if rt_owns_handle t && negb (queue =? 0) then board_do (rt_queue_delete queue)
       else mret ()
   | _, _ => mret ()
   end);;
  board_do (bo_free (rt_self t)).
End transport.

(** ** The interface of Link.v *)
#[export] Instance freertos_transport {E} `{BoardOs E} `{Rtos E} : Transport E rtos_transport := {|
  Link.zipc_platform_transport_open := zipc_platform_transport_open;
  Link.zipc_platform_transport_close := zipc_platform_transport_close;
  Link.zipc_platform_transport_send := zipc_platform_transport_send;
  Link.zipc_platform_transport_receive_begin := zipc_platform_transport_receive_begin;
  Link.zipc_platform_transport_receive_commit := zipc_platform_transport_receive_commit |}.
