(* ===== verification/Xen.v ===== *)
(** * The Xen platform (platform/xen/platform-xen.c)

    Static shared memory of a guest and the ring announced over an event
    channel.  Mapping, clock and entropy use the system calls of [LinuxMm]
    (LinuxMemory.v); the event-channel device is the class [XenOs]. *)
From Stdlib Require Import String.
From S2P Require Import Prelude Types Packing Prog Store Backends Layout Ring Link.
From S2P Require Import LinuxMemory.

(** ** Memory *)
Section memory.
Context {O : Type} `{LinuxMm O}.

Definition xen_map_static (memory : zipc_platform_memory) (config : zipc_platform_memory_config_t)
    : prog (linux_memory O) (zipc_status_t * zipc_platform_memory) :=
  match mc_xen_device_path config with
  | None | Some EmptyString => mret (ZIPC_ERR_INVALID_ARGUMENT, memory)
  | Some path =>
  page_size ← os_call (λ o, (mm_pagesize o, o));
  if page_size <=? 0 then mret (ZIPC_ERR_PLATFORM, memory)
  else
  let physical := mc_xen_guest_physical_address config in
  let aligned := Z.land physical (u64 (Z.lnot (page_size - 1))) in
  let page_offset := physical - aligned in
  if SIZE_MAX - page_offset <? mc_size config then mret (ZIPC_ERR_INVALID_ARGUMENT, memory)
  else
  fd ← os_call (mm_open path false);
  let memory := {| memory with pm_fd := fd |} in
  if fd <? 0 then mret (ZIPC_ERR_PLATFORM, memory)
  else
  let mapping_size := mc_size config + page_offset in
  mapped ← os_call (mm_mmap fd mapping_size aligned);
  let memory := {| memory with pm_mapping_size := mapping_size |} in
  match mapped with
  | None => mret (ZIPC_ERR_PLATFORM, {| memory with pm_mapping_base := 0 |})
  | Some address =>
  mret (ZIPC_OK,
    {| memory with
       pm_mapping_base := address;
       pm_base := address + page_offset;
       pm_size := mc_size config;
       pm_physical_base := physical;
       pm_capabilities :=
         with_cap (mc_xen_cacheable config) ZIPC_MEM_CAP_CACHEABLE
           (with_cap (mc_xen_supports_cpu_atomics config)
              (Z.lor ZIPC_MEM_CAP_ATOMIC32 ZIPC_MEM_CAP_ATOMIC64)
              (Z.lor (Z.lor (Z.lor ZIPC_MEM_CAP_CPU_READ ZIPC_MEM_CAP_CPU_WRITE)
                 ZIPC_MEM_CAP_FIXED_PHYS) ZIPC_MEM_CAP_REMOTE_ACCESS)) |})
  end
  end.

(** [0] is NULL; an address that is no object is undefined behaviour. *)
Definition memory_close (memory : Z) : prog (linux_memory O) () :=
  if memory =? 0 then mret ()
  else
  object ← act (λ m, o ← lm_objects m !! memory; Some (o, m));
  (if negb (pm_mapping_base object =? 0)
   then os_run (mm_munmap (pm_mapping_base object) (pm_mapping_size object)) else mret ());;
  (if 0 <=? pm_fd object then os_run (mm_close (pm_fd object)) else mret ());;
  os_run (mm_free memory);;
  act (λ m, Some (tt, LinuxMemory (delete memory (lm_objects m)) (lm_os m))).

Definition is_xen_static (type : zipc_platform_memory_type_t) : bool :=
  match type with ZIPC_SHM_XEN_STATIC => true | _ => false end.

Definition memory_open (config : zipc_platform_memory_config_t)
    : prog (linux_memory O) (zipc_status_t + Z) :=
  if mc_size config =? 0 then mret (inl ZIPC_ERR_INVALID_ARGUMENT)
  else if negb (is_xen_static (mc_type config)) then mret (inl ZIPC_ERR_UNSUPPORTED_MEMORY)
  else
  object ← os_call mm_calloc;
  match object with
  | None => mret (inl ZIPC_ERR_PLATFORM)
  | Some self =>
  '(status, memory) ← xen_map_static
      {| pm_type := mc_type config; pm_fd := -1; pm_mapping_base := 0; pm_mapping_size := 0;
         pm_base := 0; pm_size := 0; pm_physical_base := ZIPC_PHYS_ADDR_INVALID;
         pm_capabilities := 0; pm_unlink_on_close := false; pm_object_name := "" |} config;
  act (λ m, Some (tt, LinuxMemory (<[self := memory]> (lm_objects m)) (lm_os m)));;
  if negb (status_is status ZIPC_OK) then memory_close self;; mret (inl status)
  else mret (inr self)
  end.

(** ** Attributes, clock and entropy; no page protection *)
Definition memory_base : linux_memory O → Z → Z := attribute pm_base 0.
Definition memory_size : linux_memory O → Z → Z := attribute pm_size 0.
Definition memory_physical_base : linux_memory O → Z → Z :=
  attribute pm_physical_base ZIPC_PHYS_ADDR_INVALID.
Definition memory_capabilities : linux_memory O → Z → Z := attribute pm_capabilities 0.
Definition page_size (m : linux_memory O) : Z := 0.
Definition memory_page_size (m : linux_memory O) (memory : Z) : Z := 0.
Definition memory_protect_none (memory offset length : Z) (m : linux_memory O)
    : zipc_status_t * linux_memory O := (ZIPC_ERR_UNSUPPORTED_MEMORY, m).
Definition memory_protect_rw (memory offset length : Z) (m : linux_memory O)
    : zipc_status_t * linux_memory O := (ZIPC_ERR_UNSUPPORTED_MEMORY, m).
Definition time_ns : linux_memory O → Z * linux_memory O := LinuxMemory.time_ns.
Definition platform_random : nat → bool → Z → linux_memory O →
    option (zipc_status_t * list Z * linux_memory O) := LinuxMemory.platform_random.
End memory.

(** ** The event channel *)

(** [read] or [write] of a port: interrupted, failed or short, or done. *)
Inductive port_answer := PortInterrupted | PortFailed | PortDone (port : Z).

Class XenOs (E : Type) := {
  xo_calloc : E → option Z * E;
  xo_free : Z → E → E;
  (** A negative descriptor means failure. *)
  xo_open : string → E → Z * E;
  xo_close : Z → E → E;
  (** The ioctls of the device: a port or a negative number. *)
  xo_bind_static : Z → Z → E → Z * E;
  xo_bind_interdomain : Z → Z → Z → E → Z * E;
  xo_bind_unbound : Z → Z → E → Z * E;
  xo_unbind : Z → Z → E → E;
  xo_notify : Z → Z → E → Z * E;
  (** The pending port, and the write that unmasks it. *)
  xo_read_port : Z → E → port_answer * E;
  xo_write_port : Z → Z → E → port_answer * E }.

Record xen_transport := XenTransport {
  xt_self : Z;
  xt_type : zipc_platform_transport_type_t;
  xt_evtchn_fd : Z;
  xt_local_port : Z;
  xt_owns_binding : bool;
  xt_ring : Z;
  xt_depth : Z }.

Section transport.
Context {E : Type} `{XenOs E}.

Definition xen_do (f : E → E) : prog (world E) () := env_call (λ e, (tt, f e)).

Definition xen_bind_evtchn (t : xen_transport) (config : zipc_platform_transport_config_t)
    : prog (world E) (zipc_status_t * xen_transport) :=
  fd ← env_call (xo_open (default "/dev/xen/evtchn"%string (tc_device_path config)));
  let t := {| t with xt_evtchn_fd := fd |} in
  if fd <? 0 then mret (ZIPC_ERR_PLATFORM, t)
  else
  port ←
    (if negb (tc_xen_static_port config =? 0)
     then env_call (xo_bind_static fd (tc_xen_static_port config))
     else if negb (tc_xen_remote_port config =? 0)
     then env_call (xo_bind_interdomain fd (tc_xen_remote_domid config)
                      (tc_xen_remote_port config))
     else env_call (xo_bind_unbound fd (tc_xen_remote_domid config)));
  if port <? 0 then mret (ZIPC_ERR_PLATFORM, t)
  else mret (ZIPC_OK, {| t with xt_local_port := u32 port; xt_owns_binding := true |}).

Definition zipc_platform_transport_close (t : xen_transport) : prog (world E) () :=
  (if (0 <=? xt_evtchn_fd t) && xt_owns_binding t
   then xen_do (xo_unbind (xt_evtchn_fd t) (xt_local_port t)) else mret ());;
  (if 0 <=? xt_evtchn_fd t then xen_do (xo_close (xt_evtchn_fd t)) else mret ());;
  xen_do (xo_free (xt_self t)).

Definition is_xen_ring (type : zipc_platform_transport_type_t) : bool :=
  match type with ZIPC_TRANSPORT_XEN_RING_EVTCHN => true | _ => false end.

Definition zipc_platform_transport_open (config : zipc_platform_transport_config_t)
    : prog (world E) (zipc_status_t + xen_transport) :=
  if negb (is_xen_ring (tc_type config)) || (tc_platform_handle config =? 0)
     || (tc_ring_depth config <? 2) then mret (inl ZIPC_ERR_INVALID_ARGUMENT)
  else
  object ← env_call xo_calloc;
  match object with
  | None => mret (inl ZIPC_ERR_PLATFORM)
  | Some self =>
  let ring := tc_platform_handle config in
  let t := XenTransport self (tc_type config) (-1) 0 false ring (tc_ring_depth config) in
  matching ←
    (if tc_create_endpoint config then
       ring_write ring (set_producer 0);;
       ring_write ring (set_consumer 0);;
       ring_write ring (λ r, {| r with ring_depth := tc_ring_depth config |});;
       mret true
     else
       depth ← ring_read ring ring_depth; mret (depth =? tc_ring_depth config));
  if negb matching then xen_do (xo_free self);; mret (inl ZIPC_ERR_INVALID_ARGUMENT)
  else
  '(status, t) ← xen_bind_evtchn t config;
  if negb (status_is status ZIPC_OK)
  then zipc_platform_transport_close t;; mret (inl status)
  else mret (inr t)
  end.

(** [ring->entries[position % transport->depth]]: the depth is the transport's
    own copy. *)
Definition entry_at (depth position : Z) (r : zipc_transport_spsc_ring_t) : zipc_message_t :=
  nth (Z.to_nat (position `mod` depth)) (ring_entries r) zero_message.
Definition set_entry_at (depth position : Z) (m : zipc_message_t)
    (r : zipc_transport_spsc_ring_t) : zipc_transport_spsc_ring_t :=
  {| r with ring_entries := <[Z.to_nat (position `mod` depth) := m]> (ring_entries r) |}.

Definition zipc_platform_transport_send (t : xen_transport) (message : zipc_message_t)
    : prog (world E) zipc_status_t :=
  if negb (is_xen_ring (xt_type t)) then mret ZIPC_ERR_INVALID_ARGUMENT
  else
  producer ← ring_read (xt_ring t) ring_producer;
  consumer ← ring_read (xt_ring t) ring_consumer;
  if xt_depth t <=? u32 (producer - consumer) then mret ZIPC_ERR_TRANSPORT
  else
  ring_write (xt_ring t) (set_entry_at (xt_depth t) producer message);;
  ring_write (xt_ring t) (set_producer (u32 (producer + 1)));;
  notified ← env_call (xo_notify (xt_evtchn_fd t) (xt_local_port t));
  mret (if notified <? 0 then ZIPC_ERR_TRANSPORT_PUBLISHED else ZIPC_OK).

(** [do { ... } while (count < 0 && errno == EINTR)]; [None] on failure. *)
Definition port_retry (fuel : nat) (attempt : E → port_answer * E)
    : prog (world E) (option Z) :=
  r ← loop fuel (
    answer ← env_call attempt;
    mret (match answer with
          | PortInterrupted => None
          | PortFailed => Some None
          | PortDone port => Some (Some port)
          end));
  returned r.

(** One turn of the [for (;;)]. *)
Definition receive_turn (fuel : nat) (t : xen_transport)
    : prog (world E) (option (zipc_status_t * option zipc_message_t)) :=
  consumer ← ring_read (xt_ring t) ring_consumer;
  producer ← ring_read (xt_ring t) ring_producer;
  if negb (consumer =? producer) then
    message ← ring_read (xt_ring t) (entry_at (xt_depth t) consumer);
    ring_write (xt_ring t) (set_consumer (u32 (consumer + 1)));;
    mret (Some (ZIPC_OK, Some message))
  else
  pending ← port_retry fuel (xo_read_port (xt_evtchn_fd t));
  match pending with
  | None => mret (Some (ZIPC_ERR_TRANSPORT, None))
  | Some port =>
  unmasked ← port_retry fuel (xo_write_port (xt_evtchn_fd t) port);
  mret (match unmasked with
        | None => Some (ZIPC_ERR_TRANSPORT, None)
        | Some _ => None
        end)
  end.
Definition zipc_platform_transport_receive (fuel : nat) (t : xen_transport)
    : prog (world E) (zipc_status_t * option zipc_message_t) :=
  if negb (is_xen_ring (xt_type t)) then mret (ZIPC_ERR_INVALID_ARGUMENT, None)
  else r ← loop fuel (receive_turn fuel t); returned r.

Definition zipc_platform_transport_receive_begin (fuel : nat) (t : xen_transport)
    : prog (world E) (zipc_status_t * zipc_message_t * zipc_transport_receive_token_t) :=
  '(status, message) ← zipc_platform_transport_receive fuel t;
  mret (status, default zero_message message,
        {| zero_receive_token with rt_transport_cookie := xt_self t;
                                   rt_pending := status_is status ZIPC_OK |}).
Definition zipc_platform_transport_receive_commit (t : xen_transport)
    (token : zipc_transport_receive_token_t)
    : prog (world E) (zipc_status_t * zipc_transport_receive_token_t) :=
  mret (if negb (rt_pending token) || negb (rt_transport_cookie token =? xt_self t)
        then (ZIPC_ERR_INVALID_ARGUMENT, token)
        else (ZIPC_OK, {| token with rt_pending := false |})).
Definition zipc_platform_transport_receive_abort (t : xen_transport)
    (token : zipc_transport_receive_token_t) : zipc_transport_receive_token_t :=
  if rt_transport_cookie token =? xt_self t then {| token with rt_pending := false |} else token.
Definition zipc_platform_transport_xen_local_port (t : xen_transport) : Z :=
  if is_xen_ring (xt_type t) then xt_local_port t else 0.
End transport.

(** ** The interface of Link.v *)
#[export] Instance xen_link_transport (fuel : nat) {E} `{XenOs E} : Transport E xen_transport := {|
  Link.zipc_platform_transport_open := zipc_platform_transport_open;
  Link.zipc_platform_transport_close := zipc_platform_transport_close;
  Link.zipc_platform_transport_send := zipc_platform_transport_send;
  Link.zipc_platform_transport_receive_begin := zipc_platform_transport_receive_begin fuel;
  Link.zipc_platform_transport_receive_commit := zipc_platform_transport_receive_commit |}.
