(* ===== verification/Kernel.v ===== *)
(** * The Linux kernel platform (platform/linux/kernel/platform-linux-kernel.c)

    Transports of kernel modules over a kfifo or a shared ring, the clock and
    entropy.  The allocator, kfifos, wait queues and the callbacks of a
    configuration are the class [KernelOs].  The descriptor, status and ring types
    of zipc-kernel.h have the layout of those of zipc.h and are taken from
    Types.v; pointers are addresses and 0 is NULL. *)
From S2P Require Import Prelude Types Packing Prog Store Layout Ring Link BareMetal.

Inductive zipc_kernel_transport_type_t :=
| ZIPC_KERNEL_TRANSPORT_KFIFO
| ZIPC_KERNEL_TRANSPORT_RING_WAITQUEUE
| ZIPC_KERNEL_TRANSPORT_RPMSG
| ZIPC_KERNEL_TRANSPORT_IPI
| ZIPC_KERNEL_TRANSPORT_PL_RING_IRQ
| ZIPC_KERNEL_TRANSPORT_SMC
| ZIPC_KERNEL_TRANSPORT_FFA.

(** [ring_depth] and [platform_handle] are not read by this platform. *)
Record zipc_kernel_transport_config_t := KernelConfig {
  kc_type : zipc_kernel_transport_type_t;
  kc_ring : Z;
  kc_waitq : Z;
  kc_fifo : Z;
  kc_notify : Z;
  kc_wait : Z;
  kc_context : Z }.

Record zipc_kernel_transport := KernelTransport {
  kt_self : Z;
  kt_type : zipc_kernel_transport_type_t;
  kt_ring : Z;
  kt_waitq : Z;
  kt_fifo : Z;
  kt_notify : Z;
  kt_wait : Z;
  kt_context : Z }.

Class KernelOs (E : Type) := {
  kn_kzalloc : E → option Z * E;
  kn_kfree : Z → E → E;
  (** [kfifo_avail] and [kfifo_len] in bytes. *)
  kn_fifo_avail : Z → E → Z;
  kn_fifo_len : Z → E → Z;
  (** [kfifo_in] and [kfifo_out] of a descriptor: the bytes copied. *)
  kn_fifo_in : Z → zipc_message_t → E → Z * E;
  kn_fifo_out : Z → E → (Z * zipc_message_t) * E;
  kn_wake_up : Z → E → E;
  (** What a wait whose condition does not hold yet returns after so many
      jiffies: 0 when the condition still does not hold, negative when
      interrupted, otherwise positive. *)
  kn_sleep : Z → Z → E → Z * E;
  (** The callbacks, nonzero on failure. *)
  kn_notify : Z → Z → E → Z * E;
  kn_wait : Z → Z → Z → E → Z * E;
  kn_ktime_ns : E → Z * E;
  (** [get_random_bytes_wait]: 0 on success, and the bytes. *)
  kn_random : Z → E → (Z * list Z) * E }.

Definition is_kfifo (type : zipc_kernel_transport_type_t) : bool :=
  match type with ZIPC_KERNEL_TRANSPORT_KFIFO => true | _ => false end.
Definition is_ring_waitqueue (type : zipc_kernel_transport_type_t) : bool :=
  match type with ZIPC_KERNEL_TRANSPORT_RING_WAITQUEUE => true | _ => false end.

Section kernel.
Context {E : Type} `{KernelOs E}.

Definition kernel_do (f : E → E) : prog (world E) () := env_call (λ e, (tt, f e)).

(** ** The ring *)
Definition ring_push (ring : Z) (message : zipc_message_t) : prog (world E) zipc_status_t :=
  pushed ← pl_ring_push ring message;
  mret (if pushed : bool then ZIPC_OK else ZIPC_ERR_TRANSPORT).
Definition ring_pop (ring : Z) : prog (world E) (zipc_status_t * option zipc_message_t) :=
  spsc_pop ZIPC_ERR_NO_BUFFER ring.

(** [wait_event_interruptible_timeout]: a condition that already holds does not
    wait. *)
Definition wait_event (condition : prog (world E) bool) (waitq timeout : Z)
    : prog (world E) Z :=
  ready ← condition;
  if ready : bool then mret (if timeout =? 0 then 1 else timeout)
  else env_call (kn_sleep waitq timeout).

(** ** Transports *)

(** [!t->ring || t->ring->depth < 2U] *)
Definition ring_unusable (ring : Z) : prog (world E) bool :=
  if ring =? 0 then mret true
  else depth ← ring_read ring ring_depth; mret (depth <? 2).

Definition zipc_kernel_transport_open (cfg : zipc_kernel_transport_config_t)
    : prog (world E) (zipc_status_t + zipc_kernel_transport) :=
  object ← env_call kn_kzalloc;
  match object with
  | None => mret (inl ZIPC_ERR_PLATFORM)
  | Some self =>
  let refuse := kernel_do (kn_kfree self);; mret (inl ZIPC_ERR_INVALID_ARGUMENT) in
  unusable ← (if is_kfifo (kc_type cfg) then mret false else ring_unusable (kc_ring cfg));
  if unusable : bool then refuse
  else if is_ring_waitqueue (kc_type cfg) && (kc_waitq cfg =? 0) then refuse
  else
  mret (inr (KernelTransport self (kc_type cfg) (kc_ring cfg) (kc_waitq cfg) (kc_fifo cfg)
               (kc_notify cfg) (kc_wait cfg) (kc_context cfg)))
  end.

Definition wake (waitq : Z) : prog (world E) () :=
  if negb (waitq =? 0) then kernel_do (kn_wake_up waitq) else mret ().

(** The kfifo branch of a send. *)
Definition fifo_send (t : zipc_kernel_transport) (message : zipc_message_t)
    : prog (world E) zipc_status_t :=
  if kt_fifo t =? 0 then mret ZIPC_ERR_TRANSPORT
  else
  available ← env_get (kn_fifo_avail (kt_fifo t));
  if available <? sizeof_zipc_message_t then mret ZIPC_ERR_TRANSPORT
  else
  copied ← env_call (kn_fifo_in (kt_fifo t) message);
  if negb (copied =? sizeof_zipc_message_t)
  then mret (if negb (copied =? 0) then ZIPC_ERR_TRANSPORT_PUBLISHED else ZIPC_ERR_TRANSPORT)
  else wake (kt_waitq t);; mret ZIPC_OK.

Definition zipc_kernel_transport_send (t : zipc_kernel_transport) (message : zipc_message_t)
    : prog (world E) zipc_status_t :=
  if is_kfifo (kt_type t) then fifo_send t message
  else
  status ← ring_push (kt_ring t) message;
  if negb (status_is status ZIPC_OK) then mret status
  else
  failed ← (if negb (kt_notify t =? 0)
            then env_call (kn_notify (kt_notify t) (kt_context t)) else mret 0);
  if negb (failed =? 0) then mret ZIPC_ERR_TRANSPORT_PUBLISHED
  else wake (kt_waitq t);; mret ZIPC_OK.

(** The kfifo branch of a receive; [*message] on OK. *)
Definition fifo_receive (t : zipc_kernel_transport) (timeout : Z)
    : prog (world E) (zipc_status_t * option zipc_message_t) :=
  if kt_fifo t =? 0 then mret (ZIPC_ERR_INVALID_ARGUMENT, None)
  else
  let filled := held ← env_get (kn_fifo_len (kt_fifo t)); mret (sizeof_zipc_message_t <=? held) in
  ready ← filled;
  remaining ←
    (if ready : bool then mret 1
     else if kt_waitq t =? 0 then mret 0
     else wait_event filled (kt_waitq t) timeout);
  if remaining =? 0 then mret (ZIPC_ERR_NO_BUFFER, None)
  else
  '(copied, message) ← env_call (kn_fifo_out (kt_fifo t));
  mret (if copied =? sizeof_zipc_message_t then (ZIPC_OK, Some message)
        else (ZIPC_ERR_TRANSPORT, None)).

(** [atomic_read(&ring->consumer) != atomic_read(&ring->producer)] *)
Definition ring_filled (ring : Z) : prog (world E) bool :=
  consumer ← ring_read ring ring_consumer;
  producer ← ring_read ring ring_producer;
  mret (negb (consumer =? producer)).

Definition zipc_kernel_transport_receive (t : zipc_kernel_transport) (timeout : Z)
    : prog (world E) (zipc_status_t * option zipc_message_t) :=
  if is_kfifo (kt_type t) then fifo_receive t timeout
  else
  '(status, message) ← ring_pop (kt_ring t);
  if status_is status ZIPC_OK then mret (ZIPC_OK, message)
  else
  failed ← (if negb (kt_wait t =? 0)
            then env_call (kn_wait (kt_wait t) (kt_context t) timeout) else mret 0);
  if negb (failed =? 0) then mret (ZIPC_ERR_PLATFORM, None)
  else
  remaining ← (if negb (kt_waitq t =? 0)
               then wait_event (ring_filled (kt_ring t)) (kt_waitq t) timeout else mret 1);
  if remaining =? 0 then mret (ZIPC_ERR_NO_BUFFER, None)
  else ring_pop (kt_ring t).

(** [kfree] of NULL does nothing. *)
Definition zipc_kernel_transport_close (t : zipc_kernel_transport) : prog (world E) () :=
  kernel_do (kn_kfree (kt_self t)).

(** ** Clock and entropy *)
Definition kernel_time_ns : prog (world E) Z := env_call kn_ktime_ns.
(** [buffer = false] is NULL; the bytes written. *)
Definition kernel_random (buffer : bool) (length : Z)
    : prog (world E) (zipc_status_t * list Z) :=
  if negb buffer && negb (length =? 0) then mret (ZIPC_ERR_INVALID_ARGUMENT, [])
  else if length =? 0 then mret (ZIPC_OK, [])
  else
  '(result, bytes) ← env_call (kn_random length);
  mret (if result =? 0 then ZIPC_OK else ZIPC_ERR_ENTROPY_UNAVAILABLE, bytes).
End kernel.
