(* ===== verification/DeviceSpec.v ===== *)
(** * Bare-metal, FreeRTOS, Xen and kernel platforms: theorems

    Their rings are bounded FIFO queues whose receive consumes at once
    ([ConsumingLaws]); without page protection the platform contract of Store.v
    holds and strict pools are refused; the FreeRTOS tick clock neither
    overflows nor runs backwards. *)
From S2P Require Import Prelude Types Packing Prog Store Backends Layout Ring RingSpec Link.
From S2P Require Import LinkSpec SlotRun Demo LinuxMemory BareMetal FreeRtos Xen Kernel.

(** ** The contract of a transport that consumes on receive *)
Section contract.
Context {E : Type}.
(** The messages held, oldest first, of at most so many. *)
Context (queue : Z → world E → list zipc_message_t → Prop).

(** A message is queued exactly if the status says so, and refused exactly if
    the queue is full. *)
Definition send_contract (send : zipc_message_t → prog (world E) zipc_status_t) : Prop :=
  ∀ depth m q w, queue depth w q →
    wp (send m)
      (λ r w', io_only w w' ∧ queue depth w' (if published r then q ++ [m] else q) ∧
         published r = (Z.of_nat (length q) <? depth)) w.

(** A receive that reports OK takes the oldest message; any other leaves all. *)
Definition taken (depth : Z) (q : list zipc_message_t) (w : world E)
    (r : zipc_status_t * option zipc_message_t) (w' : world E) : Prop :=
  io_only w w' ∧
  if status_is r.1 ZIPC_OK
  then ∃ m q', q = m :: q' ∧ r.2 = Some m ∧ queue depth w' q'
  else queue depth w' q.
Definition receive_contract
    (receive : prog (world E) (zipc_status_t * option zipc_message_t)) : Prop :=
  ∀ depth q w, queue depth w q → wp receive (taken depth q w) w.

(** The same with a token, pending exactly on OK. *)
Definition begin_contract (begin :
    prog (world E) (zipc_status_t * zipc_message_t * zipc_transport_receive_token_t)) : Prop :=
  ∀ depth q w, queue depth w q →
    wp begin
      (λ r w', io_only w w' ∧ rt_pending r.2 = status_is r.1.1 ZIPC_OK ∧
         if status_is r.1.1 ZIPC_OK
         then ∃ q', q = r.1.2 :: q' ∧ queue depth w' q'
         else queue depth w' q) w.

(** A token around a receive. *)
Lemma receive_begin_contract receive (begin :
    prog (world E) (zipc_status_t * zipc_message_t * zipc_transport_receive_token_t)) token :
  begin = ('(status, message) ← receive;
           mret (status, default zero_message message, token status)) →
  (∀ status, rt_pending (token status) = status_is status ZIPC_OK) →
  receive_contract receive → begin_contract begin.
Proof.
  intros -> Htoken Hr depth q w Hq. apply wp_bind. eapply wp_mono; [by apply Hr|].
  intros [st x] w' [Hio H]. apply wp_ret. cbn [fst snd] in *. split_and!; [done..|].
  destruct (status_is st ZIPC_OK); [|done]. destruct H as (m & q' & -> & -> & Hq'). eauto.
Qed.
End contract.

Class ConsumingLaws (E T : Type) `{Transport E T} := {
  consuming_queue : T → Z → world E → list zipc_message_t → Prop;
  consuming_send t : send_contract (consuming_queue t) (Link.zipc_platform_transport_send t);
  consuming_begin t :
    begin_contract (consuming_queue t) (Link.zipc_platform_transport_receive_begin t) }.

Section rings.
Context {E : Type}.
Implicit Type w : world E.

(** ** The ring of the PL *)
Lemma wp_pl_ring_push a r m (Q : bool → world E → Prop) w :
  ring_at a r w →
  (∀ r', ring_wf r' → ring_depth r' = ring_depth r →
     Z.of_nat (length (ring_contents r)) < ring_depth r →
     ring_contents r' = ring_contents r ++ [m] → Q true (put_ring a r' w)) →
  (ring_depth r <= Z.of_nat (length (ring_contents r)) → Q false w) →
  wp (pl_ring_push a m) Q w.
Proof.
  intros (Ha & Hr & Hwf) Hyes Hno. unfold pl_ring_push. pose proof (length_ring_contents r) as Hlen.
  do 3 (apply wp_bind; eapply wp_ring_read; [exact Hr|]).
  fold (ring_used r). rewrite Hlen in *.
  destruct (Z.leb_spec (ring_depth r) (ring_used r)) as [Hfull|Hfree].
  { by apply wp_ret, Hno. }
  apply wp_bind. eapply wp_ring_write; [exact Hr|]. apply wp_bind.
  eapply wp_ring_write; [apply lookup_insert_eq|]. apply wp_ret. rewrite put_ring_twice.
  destruct (ring_push_contents r m Hwf Hfree) as [Hwf' Hc']. by apply Hyes.
Qed.

Lemma wp_spsc_pop empty a r Q w :
  ring_at a r w →
  (∀ m q r', ring_contents r = m :: q → ring_wf r' → ring_depth r' = ring_depth r →
     ring_contents r' = q → Q (ZIPC_OK, Some m) (put_ring a r' w)) →
  (ring_contents r = [] → Q (empty, None) w) →
  wp (spsc_pop empty a) Q w.
Proof.
  intros (Ha & Hr & Hwf) Hyes Hno. unfold spsc_pop. pose proof (length_ring_contents r) as Hlen.
  pose proof (ring_nonempty r Hwf) as Hne. pose proof (rw_depth _ Hwf) as Hd.
  do 2 (apply wp_bind; eapply wp_ring_read; [exact Hr|]).
  destruct (Z.eqb_spec (ring_consumer r) (ring_producer r)) as [He|He].
  { apply wp_ret, Hno. destruct (ring_contents r); [done|simpl in *; lia]. }
  apply wp_bind. eapply wp_ring_read; [exact Hr|].
  rewrite (proj2 (Z.eqb_neq _ _)) by lia.
  apply wp_bind. eapply wp_ring_read; [exact Hr|]. apply wp_bind.
  eapply wp_ring_write; [exact Hr|]. apply wp_ret.
  destruct (ring_pop_contents r Hwf) as [Hwf' Hc]; [lia|]. by eapply Hyes.
Qed.
End rings.

(** ** Bare metal *)
Section baremetal.
Context {E : Type} `{BoardOs E}.
Implicit Type w : world E.

Definition board_queue (t : board_transport) (depth : Z) w (q : list zipc_message_t) : Prop :=
  ∃ a send wait context r, bt_type t = ZIPC_TRANSPORT_PL_RING_IRQ ∧
    bt_handle t = BoardPlRing a send wait context ∧ ring_at a r w ∧ ring_depth r = depth ∧
    ring_contents r = q.

(** The queue depends on the rings alone. *)
Lemma ring_at_env a r e w : ring_at a r w → ring_at a r (put_env e w).
Proof. done. Qed.
Lemma ring_at_put a r r' w : ring_at a r w → ring_wf r' → ring_at a r' (put_ring a r' w).
Proof. intros (Ha & _ & _) Hwf. split_and!; [done|apply lookup_insert_eq|done]. Qed.

Lemma published_signalled st : published (signalled st) = true.
Proof. unfold published, signalled. by destruct (status_is st ZIPC_OK). Qed.

Lemma board_send t : send_contract (board_queue t) (BareMetal.zipc_platform_transport_send t).
Proof.
  intros depth m q w (a & send & wait & context & r & Ht & Hh & Hr & <- & <-).
  unfold BareMetal.zipc_platform_transport_send. rewrite Ht, Hh.
  apply wp_bind. eapply wp_pl_ring_push; [done| |].
  - intros r' Hwf Hd Hlt Hc. psimpl. apply wp_bind, wp_env_call, wp_ret.
    rewrite published_signalled. split_and!; [done| |by rewrite (proj2 (Z.ltb_lt _ _))].
    exists a, send, wait, context, r'. split_and!; try done. by eapply ring_at_put.
  - intros Hfull. psimpl. apply wp_ret. split_and!; [done| |by rewrite (proj2 (Z.ltb_ge _ _))].
    by exists a, send, wait, context, r.
Qed.

Lemma board_receive t :
  receive_contract (board_queue t) (BareMetal.zipc_platform_transport_receive t).
Proof.
  intros depth q w (a & send & wait & context & r & Ht & Hh & Hr & <- & <-).
  unfold BareMetal.zipc_platform_transport_receive. rewrite Ht, Hh.
  apply wp_bind, wp_env_call. set (st := (bo_signal_wait _ _ _ _).1).
  destruct (status_is st ZIPC_OK) eqn:Hst; psimpl.
  - eapply wp_spsc_pop; [by apply ring_at_env| |].
    + intros m q r' Hq Hwf Hd Hc. split; [done|]. status_eval. exists m, q.
      split_and!; [done..|]. exists a, send, wait, context, r'.
      split_and!; try done. by eapply ring_at_put.
    + intros _. split; [done|]. status_eval. by exists a, send, wait, context, r.
  - apply wp_ret. split; [done|]; cbn [fst snd]. rewrite Hst.
    by exists a, send, wait, context, r.
Qed.

#[export] Instance baremetal_consuming : ConsumingLaws E board_transport.
Proof.
  refine {| consuming_queue := board_queue; consuming_send := board_send |}.
  intros t. eapply receive_begin_contract; [reflexivity|done|apply board_receive].
Defined.
End baremetal.

(** ** FreeRTOS *)
Section freertos.
Context {E : Type} `{BoardOs E} `{Rtos E}.
Implicit Type w : world E.

Definition rtos_queue (t : rtos_transport) (depth : Z) w (q : list zipc_message_t) : Prop :=
  ∃ h, rt_handle t = RtosBoard h ∧ board_queue (as_board t h) depth w q.

Lemma rtos_queue_type t depth w q :
  rtos_queue t depth w q → rt_type t = ZIPC_TRANSPORT_PL_RING_IRQ.
Proof. by intros (h & _ & a & send & wait & context & r & Ht & _). Qed.

Lemma rtos_send t : send_contract (rtos_queue t) (FreeRtos.zipc_platform_transport_send t).
Proof.
  intros depth m q w Hq. pose proof (rtos_queue_type _ _ _ _ Hq) as Ht.
  destruct Hq as (h & Hh & Hq). unfold FreeRtos.zipc_platform_transport_send. rewrite Ht, Hh.
  eapply wp_mono; [by apply board_send|]. intros r w' (Hio & Hq' & Hp).
  split_and!; [done| |done]. by exists h.
Qed.

Lemma rtos_receive t :
  receive_contract (rtos_queue t) (FreeRtos.zipc_platform_transport_receive t).
Proof.
  intros depth q w Hq. pose proof (rtos_queue_type _ _ _ _ Hq) as Ht.
  destruct Hq as (h & Hh & Hq). unfold FreeRtos.zipc_platform_transport_receive. rewrite Ht, Hh.
  eapply wp_mono; [by apply board_receive|]. intros r w' [Hio Hr]. split; [done|].
  destruct (status_is r.1 ZIPC_OK); [|by exists h].
  destruct Hr as (m & q' & -> & Hm & Hq'). exists m, q'. split_and!; [done..|by exists h].
Qed.

#[export] Instance freertos_consuming : ConsumingLaws E rtos_transport.
Proof.
  refine {| consuming_queue := rtos_queue; consuming_send := rtos_send |}.
  intros t. eapply receive_begin_contract; [reflexivity|done|apply rtos_receive].
Defined.
End freertos.

(** ** Xen *)
Section xen.
Context {E : Type} `{XenOs E} (fuel : nat).
Implicit Type w : world E.

(** The ring has the depth the transport was opened with. *)
Definition xen_queue (t : xen_transport) (depth : Z) w (q : list zipc_message_t) : Prop :=
  ∃ r, xt_type t = ZIPC_TRANSPORT_XEN_RING_EVTCHN ∧ xt_depth t = depth ∧
    ring_at (xt_ring t) r w ∧ ring_depth r = depth ∧ ring_contents r = q.

Lemma xen_send t : send_contract (xen_queue t) (Xen.zipc_platform_transport_send t).
Proof.
  intros depth m q w (r & Ht & Hd & Hat & <- & <-). pose proof Hat as (Ha & Hr & Hwf).
  pose proof (length_ring_contents r) as Hlen.
  unfold Xen.zipc_platform_transport_send. rewrite Ht, Hd. cbn [is_xen_ring negb].
  do 2 (apply wp_bind; eapply wp_ring_read; [exact Hr|]). fold (ring_used r).
  rewrite Hlen. destruct (Z.leb_spec (ring_depth r) (ring_used r)) as [Hfull|Hfree].
  { apply wp_ret. split_and!; [done|by exists r|by rewrite (proj2 (Z.ltb_ge _ _))]. }
  apply wp_bind. eapply wp_ring_write; [exact Hr|]. apply wp_bind.
  eapply wp_ring_write; [apply lookup_insert_eq|]. rewrite put_ring_twice.
  apply wp_bind, wp_env_call, wp_ret.
  destruct (ring_push_contents r m Hwf Hfree) as [Hwf' Hc'].
  assert (published (if (xo_notify (xt_evtchn_fd t) (xt_local_port t) (w_env w)).1 <? 0
    then ZIPC_ERR_TRANSPORT_PUBLISHED else ZIPC_OK) = true) as Hp by (by destruct (_ <? 0)).
  cbn [w_env put_ring]. rewrite Hp. split_and!; [done| |by rewrite (proj2 (Z.ltb_lt _ _))].
  exists (set_producer (u32 (ring_producer r + 1)) (set_entry (ring_producer r) m r)).
  split_and!; [done|done| |done|exact Hc']. by apply (ring_at_put _ r).
Qed.

Lemma xen_receive t depth m q w :
  (0 < fuel)%nat → xen_queue t depth w (m :: q) →
  wp (Xen.zipc_platform_transport_receive fuel t)
    (λ r w', io_only w w' ∧ r = (ZIPC_OK, Some m) ∧ xen_queue t depth w' q) w.
Proof.
  intros Hf (r & Ht & Hd & Hat & <- & Hq). pose proof Hat as (Ha & Hr & Hwf).
  pose proof (length_ring_contents r) as Hlen. pose proof (ring_nonempty r Hwf) as Hne.
  rewrite Hq in Hlen. simpl in Hlen.
  unfold Xen.zipc_platform_transport_receive. rewrite Ht. cbn [is_xen_ring negb].
  destruct fuel as [|n]; [lia|]. cbn [loop]. apply wp_bind, wp_bind. unfold receive_turn at 1.
  do 2 (apply wp_bind; eapply wp_ring_read; [exact Hr|]).
  rewrite (proj2 (Z.eqb_neq _ _)) by (intros He; apply Hne; [lia|done]). psimpl.
  apply wp_bind. eapply wp_ring_read; [exact Hr|]. apply wp_bind.
  eapply wp_ring_write; [exact Hr|]. apply wp_ret, wp_ret, wp_returned.
  destruct (ring_pop_contents r Hwf) as [Hwf' Hc]; [lia|]. rewrite Hq in Hc.
  injection Hc as -> Hc. split_and!; [done|by rewrite Hd|].
  exists (set_consumer (u32 (ring_consumer r + 1)) r).
  split_and!; [done|done|by apply (ring_at_put _ r)|done|done].
Qed.

(** With fuel for one turn. *)
Lemma xen_begin t depth m q w :
  (0 < fuel)%nat → xen_queue t depth w (m :: q) →
  wp (Xen.zipc_platform_transport_receive_begin fuel t)
    (λ r w', io_only w w' ∧ r.1 = (ZIPC_OK, m) ∧ rt_pending r.2 = true ∧
       xen_queue t depth w' q) w.
Proof.
  intros Hf Hq. apply wp_bind. eapply wp_mono; [by apply xen_receive|].
  intros r w' (Hio & -> & Hq'). by apply wp_ret.
Qed.
End xen.

(** ** The Linux kernel *)
Section kernel.
Context {E : Type} `{KernelOs E}.
Implicit Type w : world E.

Definition kernel_queue (t : zipc_kernel_transport) (depth : Z) w (q : list zipc_message_t)
    : Prop :=
  ∃ r, is_kfifo (kt_type t) = false ∧ ring_at (kt_ring t) r w ∧ ring_depth r = depth ∧
    ring_contents r = q.

Lemma kernel_queue_env t depth e w q :
  kernel_queue t depth w q → kernel_queue t depth (put_env e w) q.
Proof. done. Qed.

Lemma wp_wake waitq (Q : () → world E → Prop) w :
  (∀ e, Q () (put_env e w)) → Q () w → wp (wake waitq) Q w.
Proof. intros He Hw. unfold wake. destruct (negb _); [apply wp_env_call|apply wp_ret]; auto. Qed.

Lemma kernel_send t : send_contract (kernel_queue t) (zipc_kernel_transport_send t).
Proof.
  intros depth m q w (r & Ht & Hr & <- & <-). unfold zipc_kernel_transport_send. rewrite Ht.
  apply wp_bind, wp_bind. eapply wp_pl_ring_push; [done| |].
  - intros r' Hwf Hd Hlt Hc. apply wp_ret. psimpl.
    assert (Hq : kernel_queue t (ring_depth r) (put_ring (kt_ring t) r' w) (ring_contents r ++ [m]))
      by (exists r'; split_and!; [done|by eapply ring_at_put|done|done]).
    assert (Hlt' : true = (Z.of_nat (length (ring_contents r)) <? ring_depth r)) by lia.
    apply wp_bind. destruct (negb (kt_notify t =? 0)).
    + apply wp_env_call. destruct (negb _); [by apply wp_ret|]. apply wp_bind, wp_wake.
      all: intros; by apply wp_ret.
    + apply wp_ret. psimpl. apply wp_bind, wp_wake. all: intros; by apply wp_ret.
  - intros Hfull. apply wp_ret. psimpl. apply wp_ret.
    split_and!; [done|by exists r|by rewrite (proj2 (Z.ltb_ge _ _))].
Qed.

(** A message that is there is taken without a wait. *)
Lemma kernel_pop t depth q w (Q : zipc_status_t * option zipc_message_t → world E → Prop) :
  kernel_queue t depth w q →
  (∀ m q' w', q = m :: q' → io_only w w' → kernel_queue t depth w' q' → Q (ZIPC_OK, Some m) w') →
  (q = [] → Q (ZIPC_ERR_NO_BUFFER, None) w) →
  wp (ring_pop (kt_ring t)) Q w.
Proof.
  intros (r & Ht & Hr & <- & <-) Hyes Hno. eapply wp_spsc_pop; [done| |done].
  intros m q' r' Hq Hwf Hd Hc. eapply Hyes; [done..|]. exists r'.
  split_and!; [done|by eapply ring_at_put|done|done].
Qed.

Lemma wp_ring_filled t depth q w (Q : bool → world E → Prop) :
  kernel_queue t depth w q → (∀ b, Q b w) → wp (ring_filled (kt_ring t)) Q w.
Proof.
  intros (r & _ & (_ & Hr & _) & _) HQ. unfold ring_filled.
  do 2 (apply wp_bind; eapply wp_ring_read; [exact Hr|]). apply wp_ret, HQ.
Qed.

(** The pop that follows a wait. *)
Lemma kernel_pop_again t depth e w :
  kernel_queue t depth w [] →
  wp (ring_pop (kt_ring t)) (taken (kernel_queue t) depth [] w) (put_env e w).
Proof.
  intros Hq. eapply kernel_pop; [by apply kernel_queue_env|done|]. by intros _.
Qed.

Lemma kernel_wait t depth timeout e w :
  kernel_queue t depth w [] →
  wp (remaining ← (if negb (kt_waitq t =? 0)
        then wait_event (ring_filled (kt_ring t)) (kt_waitq t) timeout else mret 1);
      if remaining =? 0 then mret (ZIPC_ERR_NO_BUFFER, None) else ring_pop (kt_ring t))
    (taken (kernel_queue t) depth [] w) (put_env e w).
Proof.
  intros Hq. pose proof (λ e', kernel_pop_again t depth e' w Hq) as Hpop.
  apply wp_bind. destruct (negb _); [|apply wp_ret; exact (Hpop e)].
  apply wp_bind. eapply wp_ring_filled; [by apply kernel_queue_env|]. intros [].
  - apply wp_ret. destruct (_ =? 0); [by apply wp_ret|exact (Hpop e)].
  - apply wp_env_call. destruct (_ =? 0); [by apply wp_ret|exact (Hpop _)].
Qed.

Lemma kernel_receive t timeout :
  receive_contract (kernel_queue t) (zipc_kernel_transport_receive t timeout).
Proof.
  intros depth q w Hq. unfold zipc_kernel_transport_receive.
  destruct (Hq) as (r & -> & _). apply wp_bind. eapply kernel_pop; [exact Hq| |].
  - intros m q' w' -> Hio Hq'. status_eval. apply wp_ret. split; [done|]. status_eval.
    by exists m, q'.
  - intros ->. status_eval. apply wp_bind. destruct (negb (kt_wait t =? 0)).
    + apply wp_env_call. destruct (negb _); [by apply wp_ret|]. by apply kernel_wait.
    + apply wp_ret. pose proof (kernel_wait t depth timeout (w_env w) w Hq). by destruct w.
Qed.
End kernel.

(** C31. The rings of the bare-metal, FreeRTOS, Xen and Linux-kernel platforms are
    bounded FIFO queues when their depth divides 2^32: a send appends its message
    exactly if it reports OK or PUBLISHED, which it does exactly if the ring is not
    full, and a receive takes the oldest message exactly if it reports OK, and
    otherwise none; nothing but the ring and the platform changes.  With Xen a
    receive from a ring that is not empty always reports OK. *)
Theorem device_rings_fifo {E} `{BoardOs E} `{Rtos E} `{XenOs E} `{KernelOs E} fuel timeout
    (tb : board_transport) (tr : rtos_transport) (tx : xen_transport)
    (tk : zipc_kernel_transport) :
  (0 < fuel)%nat →
  (send_contract (board_queue tb) (BareMetal.zipc_platform_transport_send tb) ∧
   begin_contract (board_queue tb) (BareMetal.zipc_platform_transport_receive_begin tb)) ∧
  (send_contract (rtos_queue tr) (FreeRtos.zipc_platform_transport_send tr) ∧
   begin_contract (rtos_queue tr) (FreeRtos.zipc_platform_transport_receive_begin tr)) ∧
  (send_contract (xen_queue tx) (Xen.zipc_platform_transport_send tx) ∧
   ∀ depth m q (w : world E), xen_queue tx depth w (m :: q) →
     wp (Xen.zipc_platform_transport_receive_begin fuel tx)
       (λ r w', io_only w w' ∧ r.1 = (ZIPC_OK, m) ∧ rt_pending r.2 = true ∧
          xen_queue tx depth w' q) w) ∧
  (send_contract (kernel_queue tk) (zipc_kernel_transport_send tk) ∧
   receive_contract (kernel_queue tk) (zipc_kernel_transport_receive tk timeout)).
Proof.
  intros Hf. split_and!.
  - exact (consuming_send (T := board_transport) tb).
  - exact (consuming_begin (T := board_transport) tb).
  - exact (consuming_send (T := rtos_transport) tr).
  - exact (consuming_begin (T := rtos_transport) tr).
  - apply xen_send.
  - intros depth m q w. by apply xen_begin.
  - apply kernel_send.
  - apply kernel_receive.
Qed.

(** ** Platforms without page protection *)

(** The four bytes of a [uint32_t], least significant first. *)
Definition board_word {O} `{BoardMm O} (m : board O) : (zipc_status_t * Z) * board O :=
  let '((status, bytes), m') := BareMetal.platform_random true 4 m in
  ((status, u32 (foldr (λ b acc, b + 256 * acc) 0 bytes)), m').
#[export] Instance board_platform {O} `{BoardMm O} : Platform (board O) := {
  Store.zipc_platform_memory_base := BareMetal.memory_base;
  Store.zipc_platform_memory_size := BareMetal.memory_size;
  Store.zipc_platform_memory_physical_base := BareMetal.memory_physical_base;
  Store.zipc_platform_memory_capabilities := BareMetal.memory_capabilities;
  Store.zipc_platform_memory_page_size := BareMetal.memory_page_size;
  Store.zipc_platform_page_size := BareMetal.page_size;
  Store.zipc_platform_memory_protect_none := BareMetal.memory_protect_none;
  Store.zipc_platform_memory_protect_rw := BareMetal.memory_protect_rw;
  Store.zipc_platform_time_ns := BareMetal.time_ns;
  Store.zipc_platform_random := board_word }.

(** A strict or guarded pool cannot be formatted where pages cannot be
    protected, and the attempt leaves memory alone. *)
Theorem board_refuses_protection {O} `{BoardMm O} config (w : world (board O)) :
  pool_flag ZIPC_POOL_F_STRICT_OWNERSHIP config = true ∨
  pool_flag ZIPC_POOL_F_GUARD_PAGES config = true →
  wp (zipc_pool_format (Some config)) (λ status w', w' = w ∧ status ≠ ZIPC_OK) w.
Proof.
  intros Hflag. assert (Hbad : ∀ e m, page_layout_bad (E := board O) e config m = true) by done.
  assert (Hn : ∃ st, normalize_config (w_env w) (Some config) = inl st ∧ st ≠ ZIPC_OK).
  { unfold normalize_config, normalize_stride. rewrite !Hbad.
    destruct (_ || _); [eauto|]. destruct (_ || _); [eauto|].
    destruct (pool_flag ZIPC_POOL_F_STRICT_OWNERSHIP config); [by eauto|].
    destruct Hflag as [?| ->]; [done|]. by eauto. }
  destruct Hn as (st & Hn & Hst). unfold zipc_pool_format. apply wp_bind, wp_env_get.
  rewrite Hn. by apply wp_ret.
Qed.

(** ** The tick clock *)

(** With 32-bit ticks the product does not overflow, and time does not run
    backwards. *)
Theorem tick_time_monotone ticks ticks' rate :
  0 <= ticks <= ticks' → ticks' <= UINT32_MAX → 0 < rate →
  tick_time_ns ticks rate = ticks * 1000000000 / rate ∧
  0 <= tick_time_ns ticks rate <= tick_time_ns ticks' rate ∧
  tick_time_ns ticks' rate <= UINT64_MAX.
Proof.
  intros Ht Hm Hr. unfold tick_time_ns. rewrite !u64_small by zlia. split_and!.
  - done.
  - apply Z.div_pos; lia.
  - apply Z.div_le_mono; lia.
  - apply Z.div_le_upper_bound; nia.
Qed.

(** ** Witness *)

(** A board whose signals always arrive. *)
#[local] Instance demo_board : BoardOs demo := {
  bo_alloc e := (Some 900, e);
  bo_free _ e := e;
  bo_rpmsg_send _ _ e := (24, e);
  bo_signal_send _ _ e := (ZIPC_OK, e);
  bo_signal_wait _ _ _ e := (ZIPC_OK, e);
  bo_secure_call _ _ _ m e := ((ZIPC_OK, m), e);
  bo_mailbox_store _ _ e := e;
  bo_mailbox_load _ _ := zero_message;
  bo_response_store _ _ e := e;
  bo_response_load _ _ := None }.
#[local] Instance demo_rtos : Rtos demo := {
  rt_queue_create _ e := (901, e);
  rt_queue_delete _ e := e;
  rt_queue_send _ _ _ e := (true, e);
  rt_queue_receive _ _ e := (None, e);
  rt_notify_give _ _ e := (true, e);
  rt_notify_take _ _ e := (1, e) }.
#[local] Instance demo_xen : XenOs demo := {
  xo_calloc e := (Some 902, e);
  xo_free _ e := e;
  xo_open _ e := (3, e);
  xo_close _ e := e;
  xo_bind_static _ port e := (port, e);
  xo_bind_interdomain _ _ port e := (port, e);
  xo_bind_unbound _ _ e := (5, e);
  xo_unbind _ _ e := e;
  xo_notify _ _ e := (0, e);
  xo_read_port _ e := (PortDone 5, e);
  xo_write_port _ port e := (PortDone port, e) }.

#[local] Instance demo_kernel : KernelOs demo := {
  kn_kzalloc e := (Some 903, e);
  kn_kfree _ e := e;
  kn_fifo_avail _ _ := 0;
  kn_fifo_len _ _ := 0;
  kn_fifo_in _ _ e := (0, e);
  kn_fifo_out _ e := ((0, zero_message), e);
  kn_wake_up _ e := e;
  kn_sleep _ _ e := (0, e);
  kn_notify _ _ e := (0, e);
  kn_wait _ _ _ e := (0, e);
  kn_ktime_ns e := (0, e);
  kn_random _ e := ((0, []), e) }.

Definition demo_board_ring : board_transport :=
  BoardTransport 900 ZIPC_TRANSPORT_PL_RING_IRQ 0 (BoardPlRing 77 1 2 3).
Definition demo_rtos_ring : rtos_transport :=
  RtosTransport 901 ZIPC_TRANSPORT_PL_RING_IRQ 0 false (RtosBoard (BoardPlRing 77 1 2 3)).
Definition demo_xen_ring : xen_transport :=
  XenTransport 902 ZIPC_TRANSPORT_XEN_RING_EVTCHN 3 5 true 77 (ring_depth demo_ring).

Definition demo_kernel_ring : zipc_kernel_transport :=
  KernelTransport 903 ZIPC_KERNEL_TRANSPORT_RING_WAITQUEUE 77 4 0 0 0 0.

(** A send over the bare-metal ring of RingSpec.v. *)
Lemma device_rings_fifo_witness :
  wp (BareMetal.zipc_platform_transport_send demo_board_ring demo_message)
    (λ r w', io_only demo_ring_world w' ∧
       board_queue demo_board_ring (ring_depth demo_ring) w'
         (if published r then ring_contents demo_ring ++ [demo_message]
          else ring_contents demo_ring) ∧
       published r = (Z.of_nat (length (ring_contents demo_ring)) <? ring_depth demo_ring))
    demo_ring_world.
Proof.
  assert (Hf : (0 < 1)%nat) by lia.
  destruct (device_rings_fifo 1 0 demo_board_ring demo_rtos_ring demo_xen_ring demo_kernel_ring Hf)
    as ((Hsend & _) & _). apply Hsend.
  exists 77, 1, 2, 3, demo_ring. split_and!; try reflexivity. all: apply demo_ring_at.
Defined.
