(* ===== verification/History.v ===== *)
(** * A pool through a sequence of calls

    The slot operations of src/core/zipc.c composed: from a formatted pool, any
    sequence of allocations, transfers, claims and releases by any components,
    with processes, registrations and the platform changing in between, keeps
    every slot well formed, leaves no claim behind, and conserves buffers. *)
From S2P Require Import Prelude Types Packing Visited Prog Store Identity Slot SlotRun.
From S2P Require Import IdentitySpec SlotSpec Alloc Demo Interleave Exclusive SafeCalls Concurrent.
From S2P Require Import Layout LayoutSpec PoolSpec Protocol.

(** ** Sums over slots *)
Fixpoint total (f : Z → Z) (l : list Z) : Z :=
  match l with [] => 0 | i :: l => f i + total f l end.

Lemma total_ext f f' l : (∀ i, i ∈ l → f' i = f i) → total f' l = total f l.
Proof.
  induction l as [|j l IH]; intros Hf; [done|]. simpl. rewrite Hf by set_solver.
  rewrite IH; [done|]. intros i Hi. apply Hf. set_solver.
Qed.

Lemma total_update f f' l i :
  NoDup l → i ∈ l → (∀ j, j ≠ i → f' j = f j) → total f' l = total f l + (f' i - f i).
Proof.
  intros Hnd Hi Hf. induction Hnd as [|j l Hj Hnd IH]; [set_solver|].
  simpl. destruct (decide (j = i)) as [->|Hne].
  - rewrite (total_ext f f' l); [lia|].
    intros k Hk. apply Hf. intros ->. done.
  - rewrite IH by set_solver. rewrite (Hf j) by done. lia.
Qed.

(** ** Buffers in use *)
Definition held (s : zipc_slot_control_t) : Z :=
  if state_is (s_state s) ZIPC_SLOT_FREE then 0 else 1.
Definition held_view (v : slot_view) : Z :=
  match sv_owner v with Free _ => 0 | _ => 1 end.
Definition quiet_view (v : slot_view) : Prop :=
  sv_token v = 0 ∧ match sv_owner v with Busy _ => False | _ => True end.

Lemma held_abs s : held s = held_view (abs_slot s).
Proof. unfold held, held_view, abs_slot. by destruct (s_state s). Qed.
Lemma quiescent_abs s : quiescent s ↔ quiet_view (abs_slot s).
Proof. unfold quiescent, quiet_view, abs_slot. destruct (s_state s); simpl; naive_solver. Qed.

Section history.
Context {E : Type} `{Platform E}.
Context (pool : zipc_pool_t).
Implicit Type w : world E.
Implicit Type hd : zipc_pool_header_t.

Definition held_at w (i : Z) : Z :=
  match w_controls w !! slot_key pool i with Some s => held s | None => 0 end.
Definition in_use hd w : Z := total (held_at w) (seqZ 0 (h_slot_count hd)).

(** ** A pool between calls *)
Record pool_ok hd w : Prop := {
  po_attached : attached pool hd w;
  po_slots i : 0 <= i < h_slot_count hd → ∃ s,
    w_controls w !! slot_key pool i = Some s ∧ slot_ok (h_slot_capacity hd) s ∧ quiescent s;
  po_allocations : in_u64 (h_allocation_count hd);
  po_releases : in_u64 (h_release_count hd) }.

(** Geometry does not change. *)
Definition same_shape hd hd' : Prop :=
  h_slot_count hd' = h_slot_count hd ∧ h_slot_capacity hd' = h_slot_capacity hd.

(** What one call does to the pool: at most one slot changes, and [d] buffers
    come into use. *)
Record moved hd w hd' w' (d : Z) : Prop := {
  mv_shape : same_shape hd hd';
  mv_headers : w_headers w' = <[p_header pool := hd']> (w_headers w);
  mv_components : w_components w' = w_components w;
  mv_slots : (d = 0 ∧ w_controls w' = w_controls w) ∨
    ∃ i s s', 0 <= i < h_slot_count hd ∧ w_controls w !! slot_key pool i = Some s ∧
      w_controls w' = <[slot_key pool i := s']> (w_controls w) ∧
      slot_ok (h_slot_capacity hd) s' ∧ quiescent s' ∧ d = held s' - held s }.

Lemma moved_in_use hd w hd' w' d : moved hd w hd' w' d → in_use hd' w' = in_use hd w + d.
Proof.
  intros [[Hn _] _ _ Hs]. unfold in_use. rewrite Hn.
  destruct Hs as [[-> Hc]|(i & s & s' & Hi & Hl & Hc & _ & _ & ->)].
  - unfold held_at. rewrite Hc. lia.
  - erewrite (total_update (held_at w) (held_at w') _ i); [| |by apply elem_of_seqZ|].
    + unfold held_at. by rewrite Hc, Hl, lookup_insert_eq.
    + apply NoDup_seqZ.
    + intros j Hj. unfold held_at. rewrite Hc, lookup_insert_ne; [done|].
      intros [= Heq]. congruence.
Qed.

Lemma moved_ok hd w hd' w' d :
  moved hd w hd' w' d → pool_ok hd w →
  in_u64 (h_allocation_count hd') → in_u64 (h_release_count hd') → pool_ok hd' w'.
Proof.
  intros [[Hn Hcap] Hh Hco Hs] [[Hhd Hcnt Hsl Hcs] Hok _ _] Ha Hr.
  assert (Hslots : ∀ i, 0 <= i < h_slot_count hd' → ∃ s,
    w_controls w' !! slot_key pool i = Some s ∧ slot_ok (h_slot_capacity hd') s ∧ quiescent s).
  { rewrite Hn, Hcap. intros i Hi.
    destruct Hs as [[_ ->]|(j & s & s' & _ & _ & -> & Hok' & Hq & _)]; [by apply Hok|].
    destruct (decide (slot_key pool j = slot_key pool i)) as [->|Hne].
    - exists s'. by rewrite lookup_insert_eq.
    - rewrite lookup_insert_ne by done. by apply Hok. }
  split; [split|..]; try done.
  - rewrite Hh. apply lookup_insert_eq.
  - by rewrite Hn.
  - intros i Hi. destruct (Hslots i Hi) as (s & Hl & _). eauto.
  - by rewrite Hco.
Qed.

(** ** The effect of a call *)

(** Buffers a call allocated and released. *)
Definition allocated (c : call) (r : result) : Z :=
  if bool_decide (kind_of c = KAllocate) && status_is r.1 ZIPC_OK then 1 else 0.
Definition released (c : call) (r : result) : Z :=
  if bool_decide (kind_of c = KRelease) && status_is r.1 ZIPC_OK then 1 else 0.
(** Claims that failed; one that cannot map the payload drops the buffer. *)
Definition claim_failed (c : call) (r : result) : Z :=
  if bool_decide (kind_of c = KClaim) && negb (status_is r.1 ZIPC_OK) then 1 else 0.

Definition strict_pool : bool :=
  negb (Z.land (p_flags pool) ZIPC_POOL_F_STRICT_OWNERSHIP =? 0).

Record accounted hd (c : call) (r : result) hd' (d : Z) (dropped : Z) : Prop := {
  ac_use : d = allocated c r - released c r - dropped;
  ac_dropped : 0 <= dropped <= if strict_pool then claim_failed c r else 0;
  ac_allocations : h_allocation_count hd' = u64 (h_allocation_count hd + allocated c r);
  ac_releases : h_release_count hd' = u64 (h_release_count hd + released c r) }.

(** A buffer object to write to, arguments of their C types, an initialised
    generator, and fuel for the spurious failures ahead. *)
Definition call_ready (c : call) w : Prop :=
  match c with
  | Allocate fuel allocator _ offset length _ _ _ _ a =>
      (a = 0 ∨ is_Some (w_buffers w !! a)) ∧ 0 <= offset ∧ 0 <= length ∧
      (List.length (w_spurious w) + 1 < fuel)%nat ∧
      ∃ g, w_generators w !! allocator = Some g ∧ generator_ok g
  | Claim _ _ a => a = 0 ∨ is_Some (w_buffers w !! a)
  | Send _ _ _ _ _ | Release _ _ => True
  end.

Definition call_post hd (c : call) w (r : result) w' : Prop :=
  ∃ hd' d dropped, moved hd w hd' w' d ∧ accounted hd c r hd' d dropped.

(** No slot changes, no buffer comes or goes. *)
Lemma refused_post hd hd' c w r w' :
  refused pool hd' w w' → pool_ok hd w → same_shape hd hd' →
  h_allocation_count hd' = h_allocation_count hd → h_release_count hd' = h_release_count hd →
  allocated c r = 0 → released c r = 0 → call_post hd c w r w'.
Proof.
  intros (Hc & Hh & _ & Hrest) [_ _ Ha Hr] Hs Hal Hre Ha0 Hr0. exists hd', 0, 0. split.
  - split; [done..|apply Hrest|by left].
  - split; rewrite ?Ha0, ?Hr0, ?Z.add_0_r, ?u64_small; try done.
    unfold claim_failed. destruct strict_pool; [|lia]. destruct (_ && _); lia.
Qed.

(** One slot changes to the view [v]. *)
Lemma moved_one hd hd' i s s' v w w' :
  w_headers w' = <[p_header pool := hd']> (w_headers w) →
  w_controls w' = <[slot_key pool i := s']> (w_controls w) →
  w_components w' = w_components w → same_shape hd hd' →
  0 <= i < h_slot_count hd → w_controls w !! slot_key pool i = Some s →
  slot_ok (h_slot_capacity hd) s' → abs_slot s' = v → quiet_view v →
  moved hd w hd' w' (held_view v - held_view (abs_slot s)).
Proof.
  intros Hh Hc Hco Hsh Hi Hs Hok <- Hq. split; try done. right. exists i, s, s'.
  rewrite <- !held_abs. split_and!; try (done || lia). by apply quiescent_abs.
Qed.

(** One slot changes as the contract says. *)
Lemma implements_post hd hd' i s o c w r w' dropped :
  implements pool hd' i s o w r.1 w' → pool_ok hd w → same_shape hd hd' →
  0 <= i < h_slot_count hd → w_controls w !! slot_key pool i = Some s →
  quiet_view (o_view o) →
  accounted hd c r hd' (held_view (o_view o) - held_view (abs_slot s)) dropped →
  call_post hd c w r w'.
Proof.
  intros (s' & (Hc & Hh & Hrest) & _ & Hv & Hok) Hp [Hn Hcap] Hi Hs Hq Hac.
  destruct (po_slots _ _ Hp i Hi) as (s0 & Hs0 & Hok0 & _). simplify_eq.
  eexists hd', _, dropped. split; [|exact Hac].
  eapply moved_one; try done; [apply Hrest|]. rewrite <- Hcap. apply Hok. by rewrite Hcap.
Qed.

Lemma slot_index handle : 0 <= zipc_handle_slot_id handle.
Proof. rewrite zipc_handle_slot_id_mod. by apply Z.mod_pos_bound. Qed.

Lemma counted_shape e hd : same_shape hd (counted e hd).
Proof. by destruct e. Qed.
Lemma counted_allocations e hd : h_allocation_count (counted e hd) = h_allocation_count hd.
Proof. by destruct e. Qed.
Lemma counted_releases e hd : h_release_count (counted e hd) = h_release_count hd.
Proof. by destruct e. Qed.

(** The slot a handle of the pool names. *)
Lemma pool_ok_slot hd w handle :
  pool_ok hd w → zipc_handle_slot_id handle < h_slot_count hd →
  ∃ s, w_controls w !! slot_key pool (zipc_handle_slot_id handle) = Some s ∧
    slot_ok (h_slot_capacity hd) s ∧ quiescent s.
Proof. intros Hp Hi. apply (po_slots _ _ Hp). pose proof (slot_index handle). lia. Qed.
Lemma pool_ok_component hd w c :
  pool_ok hd w → zipc_component_id_valid c = true →
  ∃ cs, w_components w !! (p_header pool, c) = Some cs.
Proof. intros Hp Hc. apply (at_components _ _ _ (po_attached _ _ Hp) c Hc). Qed.

Lemma refused_same hd w : attached pool hd w → refused pool hd w w.
Proof. intros [Hh _ _ _]. split_and!; [done| |done|done]. symmetry. by apply insert_id. Qed.

(** A call that keeps its buffers. *)
Lemma accounted_still hd c r hd' d w :
  pool_ok hd w → d = 0 → allocated c r = 0 → released c r = 0 →
  h_allocation_count hd' = h_allocation_count hd → h_release_count hd' = h_release_count hd →
  accounted hd c r hd' d 0.
Proof.
  intros [_ _ Ha Hr] -> Ha0 Hr0 Hal Hre. split; rewrite ?Ha0, ?Hr0, ?Z.add_0_r, ?u64_small; try done.
  unfold claim_failed. destruct strict_pool; [|lia]. destruct (_ && _); lia.
Qed.

(** ** The contract keeps slots quiet *)
Lemma spec_send_quiet now prot g c epoch next link v :
  quiet_view v →
  let o := spec_send now prot g c epoch next link v in
  quiet_view (o_view o) ∧ held_view (o_view o) = held_view v.
Proof.
  intros Hq. unfold spec_send. destruct (sv_owner v) eqn:Ho; try done.
  repeat case_match; try done. simpl. unfold held_view. by rewrite Ho.
Qed.

(** A claim keeps the buffer, unless it cannot map it. *)
Lemma spec_claim_quiet now prot cap m receiver epoch v :
  quiet_view v →
  let o := spec_claim now prot cap m receiver epoch v in
  quiet_view (o_view o) ∧
  (held_view (o_view o) = held_view v ∨
   held_view (o_view o) = held_view v - 1 ∧ o_status o ≠ ZIPC_OK ∧
   (prot ≠ ZIPC_OK ∨ ∃ o e d l b, sv_owner v = InTransfer o e d l b ∧
      region_fits cap (bi_region b) = false)).
Proof.
  intros Hv. pose proof Hv as [Ht _]. unfold spec_claim. destruct (sv_owner v) eqn:Ho; try by split; [|left].
  rewrite Ht. cbn [orb negb Z.eqb]. unfold held_view at 2 4. rewrite Ho.
  repeat case_match; cbn [o_view o_status]; (split; [done|]); try by left.
  - right. assert (prot ≠ ZIPC_OK) by (by intros ->). split_and!; [done|done|by left].
  - right. split_and!; [done|done|right]. do 5 eexists. split; [done|]. by apply negb_true_iff.
Qed.

Lemma spec_release_quiet prot g c epoch v :
  quiet_view v →
  let o := spec_release prot g c epoch v in
  quiet_view (o_view o) ∧
  held_view (o_view o) = held_view v - if status_is (o_status o) ZIPC_OK then 1 else 0.
Proof.
  intros Hq. unfold spec_release. destruct (negb _); [by split; [|rewrite Z.sub_0_r]|].
  destruct (sv_owner v) eqn:Ho; try by split; [|rewrite Z.sub_0_r].
  destruct (negb (_ && _)); [by split; [|rewrite Z.sub_0_r]|].
  destruct (negb (_ =? 0)); [by split; [|rewrite Z.sub_0_r]|].
  destruct (status_is prot ZIPC_OK) eqn:Hprot; cbn [negb o_view o_status].
  - split; [done|]. status_eval. unfold held_view. by rewrite Ho.
  - rewrite Hprot. by split; [|rewrite Z.sub_0_r].
Qed.

(** ** Each call accounts for its buffers *)
Lemma send_post hd handle c next link m w :
  pool_ok hd w →
  wp (buffer_prepare_transfer_internal (Some pool) handle c next link (Some m))
    (λ r w', call_post hd (Send handle c next link m) w (r.1, Some r.2) w') w.
Proof.
  intros Hp. pose proof (po_attached _ _ Hp) as Hat.
  destruct (zipc_component_id_valid c) eqn:Hc, (zipc_component_id_valid next) eqn:Hn.
  2-4: unfold buffer_prepare_transfer_internal; rewrite Hc, Hn; apply wp_ret;
    by apply (refused_post hd hd); [apply refused_same| ..].
  destruct (Z.lt_ge_cases (zipc_handle_slot_id handle) (h_slot_count hd)) as [Hi|Hi].
  - destruct (pool_ok_slot _ _ _ Hp Hi) as (s & Hs & Hok & Hq%quiescent_abs).
    destruct (pool_ok_component _ _ _ Hp Hc) as [cs Hcs].
    eapply wp_mono; [by eapply (wp_prepare_transfer pool hd s cs)|].
    intros r w' (Him & _). pose proof (slot_index handle).
    edestruct spec_send_quiet as [Hq' Hheld]; [exact Hq|].
    eapply implements_post; [exact Him|done|apply counted_shape|lia|done|exact Hq'|].
    eapply accounted_still; [done|rewrite Hheld; lia|done|done|
      apply counted_allocations|apply counted_releases].
  - eapply wp_mono; [by apply send_outside|]. intros r w' [-> Hr].
    by apply (refused_post _ _ _ _ _ _ Hr).
Qed.

Lemma release_post hd handle c w :
  pool_ok hd w →
  wp (zipc_pool_buffer_release (Some pool) handle c)
    (λ r w', call_post hd (Release handle c) w (r, None) w') w.
Proof.
  intros Hp. pose proof (po_attached _ _ Hp) as Hat.
  destruct (zipc_component_id_valid c) eqn:Hc.
  2: { unfold zipc_pool_buffer_release; rewrite Hc; apply wp_ret.
       by apply (refused_post hd hd); [apply refused_same| ..]. }
  destruct (Z.lt_ge_cases (zipc_handle_slot_id handle) (h_slot_count hd)) as [Hi|Hi].
  - destruct (pool_ok_slot _ _ _ Hp Hi) as (s & Hs & Hok & Hq%quiescent_abs).
    destruct (pool_ok_component _ _ _ Hp Hc) as [cs Hcs].
    eapply wp_mono; [by eapply (wp_release pool hd s cs)|].
    intros r w' (Him & _). pose proof (slot_index handle).
    edestruct spec_release_quiet as [Hq' Hheld]; [exact Hq|].
    destruct (Him) as (s' & _ & Hst & _). rewrite <- Hst in Hheld.
    eapply (implements_post _ _ _ _ _ _ _ _ _ 0); [exact Him|done| |lia|done|exact Hq'|]; [by destruct (status_is _ _)|].
    destruct Hp as [_ _ Ha Hr]. split; unfold allocated, released; simpl.
    + rewrite Hheld. destruct (status_is _ _); lia.
    + by destruct strict_pool.
    + rewrite Z.add_0_r, u64_small by done. by destruct (status_is _ _).
    + destruct (status_is _ _); [done|]. by rewrite Z.add_0_r, u64_small.
  - eapply wp_mono; [by apply release_outside|]. intros r w' [-> Hr].
    by apply (refused_post _ _ _ _ _ _ Hr).
Qed.

(** Without strict ownership nothing is unmapped. *)
Lemma protect_result_lax hd i rw e : strict_pool = false → (protect_result pool hd i rw e).1 = ZIPC_OK.
Proof. unfold strict_pool, protect_result. by destruct (_ =? 0). Qed.

Lemma transfer_fits hd s o e d l b :
  slot_ok (h_slot_capacity hd) s → sv_owner (abs_slot s) = InTransfer o e d l b →
  region_fits (h_slot_capacity hd) (bi_region b) = true.
Proof.
  intros Hok Ho. unfold abs_slot in Ho. destruct (s_state s) eqn:Hst; simpl in Ho; try done.
  injection Ho as <- <- <- <- <-. destruct (slot_ok_transfer _ _ Hok Hst) as [[_ _ _ Hr] _].
  by apply region_in_fits.
Qed.

Lemma claim_post hd m receiver a w :
  pool_ok hd w → call_ready (Claim m receiver a) w →
  wp (zipc_buffer_claim (Some pool) (Some m) receiver a)
    (λ r w', call_post hd (Claim m receiver a) w (r, None) w') w.
Proof.
  intros Hp Hready. pose proof (po_attached _ _ Hp) as Hat.
  destruct (zipc_component_id_valid receiver) eqn:Hc, (Z.eqb_spec a 0) as [Ha|Ha].
  all: try (unfold zipc_buffer_claim; rewrite Hc, ?(proj2 (Z.eqb_eq a 0) Ha), ?orb_true_r;
    apply wp_ret; by apply (refused_post hd hd); [apply refused_same| ..]).
  assert (Hout : ∀ w', refused pool (count_protocol_error hd) w w' → ∀ r, r ≠ ZIPC_OK →
    call_post hd (Claim m receiver a) w (r, None) w').
  { intros w' Hr r _. by apply (refused_post _ _ _ _ _ _ Hr). }
  destruct (decide (m_pool_id m = p_pool_id pool ∧ m_destination_component m = receiver ∧
    zipc_handle_slot_id (m_handle m) < h_slot_count hd)) as [(Hpool & Hdest & Hi)|Hno].
  - destruct (pool_ok_slot _ _ _ Hp Hi) as (s & Hs & Hok & Hq%quiescent_abs).
    destruct (pool_ok_component _ _ _ Hp Hc) as [cs Hcs]. destruct Hready as [?|Hb]; [done|].
    eapply wp_mono; [by eapply (wp_claim pool hd s cs)|].
    intros r w' (Him & _). pose proof (slot_index (m_handle m)).
    edestruct spec_claim_quiet as [Hq' Hheld]; [exact Hq|].
    destruct (Him) as (s' & _ & Hst & _). rewrite <- Hst in Hheld.
    destruct Hheld as [Hheld|(Hheld & Hne & Hwhy)].
    + eapply implements_post; [exact Him|done|apply counted_shape|lia|done|exact Hq'|].
      eapply accounted_still; [done|rewrite Hheld; lia|done|done|
        apply counted_allocations|apply counted_releases].
    + eapply (implements_post _ _ _ _ _ _ _ _ _ 1);
        [exact Him|done|apply counted_shape|lia|done|exact Hq'|].
      assert (Hstrict : strict_pool = true).
      { destruct strict_pool eqn:Hlax; [done|]. destruct Hwhy as [Hpr|(?&?&?&?&?&Ho&Hr)].
        - destruct Hpr. by apply protect_result_lax.
        - by rewrite (transfer_fits _ _ _ _ _ _ _ Hok Ho) in Hr. }
      destruct Hp as [_ _ Hal Hre]. split; unfold allocated, released; simpl.
      * rewrite Hheld. lia.
      * rewrite Hstrict. unfold claim_failed. simpl. unfold status_is.
        rewrite bool_decide_eq_false_2 by done. simpl. lia.
      * by rewrite Z.add_0_r, counted_allocations, u64_small.
      * by rewrite Z.add_0_r, counted_releases, u64_small.
  - eapply wp_mono; [apply claim_outside; try done|].
    + destruct (decide (m_pool_id m = p_pool_id pool)); [|by left].
      destruct (decide (m_destination_component m = receiver)); [|by right; left].
      right; right. apply Z.le_ngt. naive_solver.
    + intros r w' [-> Hr]. apply Hout; [done|]. by repeat case_match.
Qed.

Lemma alloc_outcome_post hd c allocator parent offset length epoch hop_limit duration a enable
    g w r w' :
  pool_ok hd w → w_components w' = w_components w → kind_of c = KAllocate →
  alloc_outcome pool hd allocator parent offset length epoch hop_limit duration a enable g w r w' →
  call_post hd c w (r, None) w'.
Proof.
  intros Hp Hco Hk Hout. pose proof Hp as [Hat Hslots Hal Hre].
  assert (Hrel : released c (r, None) = 0) by (unfold released; by rewrite Hk).
  assert (Hyes : r = ZIPC_OK → allocated c (r, None) = 1)
    by (intros ->; unfold allocated; by rewrite Hk).
  assert (Hno : r ≠ ZIPC_OK → allocated c (r, None) = 0).
  { intros Hr. unfold allocated, status_is. simpl. rewrite (bool_decide_eq_false_2 _ Hr).
    by rewrite andb_false_r. }
  destruct Hout as [(n & s & Hn & Hs & Hfree & _ & Hone)|(_ & -> & Hc & Hh & _)].
  - pose proof (at_count _ _ _ Hat). destruct (Hslots (scan_slot hd n)) as (s0 & Hs0 & Hok & _);
      [apply scan_slot_range; lia|]. simplify_eq.
    apply andb_true_iff in Hfree as [Hst%bool_decide_eq_true Htok%Z.eqb_eq].
    assert (Hheld : held_view (abs_slot s) = 0) by (rewrite <- held_abs; unfold held; by rewrite Hst).
    assert (Hi := scan_slot_range hd n ltac:(lia)).
    destruct Hone as [s' se sq now w' Hc _ Hv Hh _ _ Hok'|s' g' st w' Hc Hwhy Hv Hh _ _ Hok'].
    all: specialize (Hok' (proj1 Hok)).
    + eexists _, _, 0. split; [by eapply moved_one|].
      split; simpl; rewrite ?Hyes, ?Hrel, ?Hheld by done; try done.
      * unfold claim_failed. by rewrite Hk; destruct strict_pool.
      * by rewrite Z.add_0_r, u64_small.
    + assert (Hne : st ≠ ZIPC_OK) by (by destruct Hwhy as [[-> _]|(_ & ? & _)]).
      eexists _, _, 0. split; [by eapply moved_one|].
      eapply accounted_still; eauto. by rewrite Hheld.
  - eexists _, 0, 0. split; [split; [|exact Hh|done|by left]; done|].
    eapply accounted_still; eauto.
Qed.

Lemma allocate_post hd fuel allocator parent offset length epoch hop_limit duration enable a w :
  let c := Allocate fuel allocator parent offset length epoch hop_limit duration enable a in
  pool_ok hd w → call_ready c w →
  wp (buffer_allocate_internal fuel (Some pool) allocator parent offset length epoch
        hop_limit duration enable a)
    (λ r w', call_post hd c w (r, None) w') w.
Proof.
  intros c Hp (Hb & Ho & Hl & Hf & g & Hg & Hgok). pose proof (po_attached _ _ Hp) as Hat.
  destruct (Z.eqb_spec a 0) as [Ha|Ha].
  1: unfold buffer_allocate_internal; rewrite (proj2 (Z.eqb_eq a 0) Ha); apply wp_ret;
    by apply (refused_post hd hd); [apply refused_same| ..].
  destruct (zipc_component_id_valid allocator) eqn:Hc.
  2: unfold buffer_allocate_internal; rewrite Hc, orb_true_r; apply wp_ret;
    by apply (refused_post hd hd); [apply refused_same| ..].
  destruct (negb (parent =? 0) && negb (zipc_buffer_id_valid parent)) eqn:Hpar.
  1: unfold buffer_allocate_internal; rewrite Hpar, orb_true_r; apply wp_ret;
    by apply (refused_post hd hd); [apply refused_same| ..].
  destruct (region_fits (h_slot_capacity hd) (ZipcRegion offset length)) eqn:Hfit.
  2: { unfold buffer_allocate_internal. rewrite Hpar, Hc, (proj2 (Z.eqb_neq a 0) Ha). psimpl.
       apply wp_bind. eapply wp_header_read; [apply (at_header _ _ _ Hat)|].
       unfold region_fits in Hfit. apply negb_false_iff in Hfit. cbn [r_offset r_length] in Hfit.
       rewrite Hfit. apply wp_ret. by apply (refused_post hd hd); [apply refused_same| ..]. }
  destruct (pool_ok_component _ _ _ Hp Hc) as [cs Hcs]. destruct Hb as [?|Hb]; [done|].
  eapply wp_mono; [eapply (wp_buffer_allocate pool hd allocator parent offset length); try done|].
  { apply andb_false_iff in Hpar. rewrite !negb_false_iff, Z.eqb_eq in Hpar. naive_solver. }
  intros r w' [Hout (Hco & _)]. eapply alloc_outcome_post; done.
Qed.

(** Every call, whatever its arguments, runs to its end and accounts for its
    buffers. *)
Lemma call_accounts hd c w :
  pool_ok hd w → call_ready c w → wp (call_prog pool c) (call_post hd c w) w.
Proof.
  intros Hp Hready. destruct c; cbn [call_prog]; apply wp_bind.
  - eapply wp_mono; [by apply allocate_post|]. intros r w' Hpost. by apply wp_ret.
  - eapply wp_mono; [by apply send_post|]. intros [r m'] w' Hpost. by apply wp_ret.
  - eapply wp_mono; [by apply claim_post|]. intros r w' Hpost. by apply wp_ret.
  - eapply wp_mono; [by apply release_post|]. intros r w' Hpost. by apply wp_ret.
Qed.

(** ** Histories *)
Definition event : Type := call * result.

(** Between two calls everything but the slots and the header of the pool may
    change: the process and its objects, registrations, payloads, the platform. *)
Definition elsewhere w w' : Prop :=
  w_headers w' = w_headers w ∧ w_controls w' = w_controls w ∧
  ∀ c, zipc_component_id_valid c = true → is_Some (w_components w' !! (p_header pool, c)).

Inductive history w : list event → world E → Prop :=
| history_start : history w [] w
| history_call es w1 c r w2 :
    history w es w1 → call_ready c w1 → run (call_prog pool c) w1 = Some (r, w2) →
    history w ((c, r) :: es) w2
| history_elsewhere es w1 w2 :
    history w es w1 → elsewhere w1 w2 → history w es w2.

Definition count (f : call → result → Z) (es : list event) : Z :=
  foldr (λ e acc, f e.1 e.2 + acc) 0 es.

Lemma elsewhere_ok hd w w' : elsewhere w w' → pool_ok hd w → pool_ok hd w'.
Proof.
  intros (Hh & Hc & Hco) [[Hhd Hcnt Hsl _] Hok Ha Hr].
  split; [split; [by rewrite Hh|done| |done]| |done|done].
  - intros i Hi. rewrite Hc. by apply Hsl.
  - intros i Hi. rewrite Hc. by apply Hok.
Qed.

Lemma accounted_u64 hd c r hd' d dropped :
  accounted hd c r hd' d dropped →
  in_u64 (h_allocation_count hd') ∧ in_u64 (h_release_count hd').
Proof. intros [_ _ -> ->]. split; apply u64_range. Qed.

Lemma history_accounts hd w es w' :
  pool_ok hd w → history w es w' →
  ∃ hd' dropped, pool_ok hd' w' ∧ same_shape hd hd' ∧
    0 <= dropped <= (if strict_pool then count claim_failed es else 0) ∧
    in_use hd' w' = in_use hd w + count allocated es - count released es - dropped ∧
    h_allocation_count hd' = u64 (h_allocation_count hd + count allocated es) ∧
    h_release_count hd' = u64 (h_release_count hd + count released es).
Proof.
  intros Hp Hh. induction Hh as [|es w1 c r w2 _ IH Hready Hrun|es w1 w2 _ IH Helse].
  - exists hd, 0. destruct Hp as [? ? Ha Hr]. simpl. rewrite !Z.add_0_r, !u64_small by done.
    split_and!; try done; [by destruct strict_pool|lia].
  - destruct IH as (hd1 & dr & Hp1 & Hsh & Hdr & Huse & Hal & Hre).
    pose proof (call_accounts _ _ _ Hp1 Hready) as Hwp. unfold wp in Hwp. rewrite Hrun in Hwp.
    destruct Hwp as (hd2 & d & dr' & Hmv & Hac). destruct (accounted_u64 _ _ _ _ _ _ Hac).
    exists hd2, (dr' + dr). pose proof (moved_in_use _ _ _ _ _ Hmv) as Huse2.
    destruct (Hac) as [Hd Hdr' Hal' Hre']. simpl. split_and!.
    + by eapply moved_ok.
    + destruct (mv_shape _ _ _ _ _ Hmv), Hsh. split; congruence.
    + lia.
    + destruct strict_pool; lia.
    + lia.
    + rewrite Hal', Hal. unfold u64. rewrite Z.add_mod_idemp_l by done. f_equal. lia.
    + rewrite Hre', Hre. unfold u64. rewrite Z.add_mod_idemp_l by done. f_equal. lia.
  - destruct IH as (hd1 & dr & Hp1 & Hsh & Hdr & Huse & Hal & Hre). exists hd1, dr.
    split_and!; try (done || lia); [by eapply elsewhere_ok|].
    rewrite <- Huse. unfold in_use, held_at. by destruct Helse as (_ & -> & _).
Qed.

(** C8. Whatever calls have been made on a well-formed pool, in whatever order
    and with whatever arguments, with registrations, processes and the platform
    changing in between, the pool is well formed: attached, every slot within
    its machine types and satisfying the invariant of its state, no claim left
    open; and the next call runs to a result without undefined behaviour. *)
Theorem history_well_formed hd w es w' :
  pool_ok hd w → history w es w' →
  ∃ hd', pool_ok hd' w' ∧ same_shape hd hd' ∧
    ∀ c, call_ready c w' → ∃ r w'', run (call_prog pool c) w' = Some (r, w'').
Proof.
  intros Hp Hh. destruct (history_accounts _ _ _ _ Hp Hh) as (hd' & _ & Hp' & Hsh & _).
  exists hd'. split_and!; [done|done|]. intros c Hready.
  apply (call_accounts _ _ _ Hp'), wp_run in Hready as (r & w'' & Hrun & _). eauto.
Qed.

(** A pool as [zipc_pool_format] leaves it. *)
Record pool_fresh hd w : Prop := {
  pf_attached : attached pool hd w;
  pf_allocations : h_allocation_count hd = 0;
  pf_releases : h_release_count hd = 0;
  pf_slots i : 0 <= i < h_slot_count hd → ∃ s, w_controls w !! slot_key pool i = Some s ∧
    slot_ok (h_slot_capacity hd) s ∧ allocatable s = true }.

Lemma allocatable_free s : allocatable s = true → held s = 0 ∧ quiescent s.
Proof.
  intros [Hst%bool_decide_eq_true Ht%Z.eqb_eq]%andb_true_iff.
  unfold held, quiescent. by rewrite Hst.
Qed.

Lemma fresh_ok hd w : pool_fresh hd w → pool_ok hd w.
Proof.
  intros [Hat Ha Hr Hs]. split; [done| |by rewrite Ha|by rewrite Hr].
  intros i Hi. destruct (Hs i Hi) as (s & ? & ? & [_ ?]%allocatable_free). eauto.
Qed.

Lemma total_bounds f l : (∀ i, i ∈ l → 0 <= f i <= 1) → 0 <= total f l <= Z.of_nat (length l).
Proof.
  induction l as [|i l IH]; intros Hf; [done|]. simpl.
  pose proof (Hf i ltac:(set_solver)). specialize (IH ltac:(set_solver)). lia.
Qed.

Lemma in_use_bounds hd w : 0 <= h_slot_count hd → 0 <= in_use hd w <= h_slot_count hd.
Proof.
  intros Hn. unfold in_use. pose proof (total_bounds (held_at w) (seqZ 0 (h_slot_count hd))) as Hb.
  rewrite length_seqZ in Hb. destruct Hb; [|lia].
  intros i _. unfold held_at, held. repeat case_match; lia.
Qed.

Lemma fresh_unused hd w : pool_fresh hd w → in_use hd w = 0.
Proof.
  intros [_ _ _ Hs]. unfold in_use. rewrite (total_ext (λ _, 0)).
  - generalize (seqZ 0 (h_slot_count hd)). intros l. by induction l.
  - intros i Hi%elem_of_seqZ. destruct (Hs i ltac:(lia)) as (s & Hl & _ & [? _]%allocatable_free).
    unfold held_at. by rewrite Hl.
Qed.

(** C7. Buffers are conserved: after any history of a freshly formatted pool,
    every successful allocation is accounted for by a successful release, by a
    slot that is not free, or by a claim that failed to map its payload, which
    happens in strict pools alone; no more slots are in use than there are, and
    the counters of the header are the numbers of successful calls. *)
Theorem buffers_conserved hd w es w' :
  pool_fresh hd w → history w es w' →
  ∃ hd' dropped, attached pool hd' w' ∧
    count allocated es = count released es + in_use hd' w' + dropped ∧
    0 <= in_use hd' w' <= h_slot_count hd ∧
    0 <= dropped <= (if strict_pool then count claim_failed es else 0) ∧
    h_allocation_count hd' = u64 (count allocated es) ∧
    h_release_count hd' = u64 (count released es).
Proof.
  intros Hf Hh. pose proof Hf as [_ Ha Hr _].
  destruct (history_accounts _ _ _ _ (fresh_ok _ _ Hf) Hh)
    as (hd' & dropped & [Hat _ _ _] & [Hn _] & Hd & Huse & Hal & Hre).
  rewrite (fresh_unused _ _ Hf) in Huse. rewrite Ha in Hal. rewrite Hr in Hre.
  exists hd', dropped. split_and!; try done; try lia.
  - apply in_use_bounds. pose proof (at_count _ _ _ Hat). lia.
  - rewrite <- Hn. apply in_use_bounds. pose proof (at_count _ _ _ Hat). lia.
Qed.
End history.

(** ** Witnesses: an allocation from a pool of two free slots *)
Definition fresh_world : world demo := demo_world_with demo_free demo_free.
Lemma fresh_world_fresh : pool_fresh demo_pool demo_header fresh_world.
Proof.
  split; [apply demo_attached|done|done|]. change (h_slot_count demo_header) with 2.
  intros i Hi. exists demo_free.
  assert (i = 0 ∨ i = 1) as [-> | ->] by lia; (split_and!; [done|apply demo_free_ok|done]).
Qed.

Definition demo_call : call := Allocate 4 7 0 8 16 0 0 0 true 1.
Definition demo_next : world demo :=
  match run (call_prog demo_pool demo_call) fresh_world with
  | Some (_, w) => w
  | None => fresh_world
  end.
Lemma demo_history : history demo_pool fresh_world [(demo_call, (ZIPC_OK, None))] demo_next.
Proof.
  eapply history_call; [apply history_start| |].
  - split_and!; [by right; eexists|done|done|simpl; lia|]. exists (ZipcGenerator 3 12 0).
    split; [done|]. split; simpl; zlia.
  - vm_compute. reflexivity.
Qed.

Lemma history_well_formed_witness :
  ∃ hd', pool_ok demo_pool hd' demo_next ∧ same_shape demo_header hd'.
Proof.
  destruct (history_well_formed demo_pool demo_header fresh_world _ demo_next
    (fresh_ok _ _ _ fresh_world_fresh) demo_history) as (hd' & Hok & Hsh & _).
  by exists hd'.
Defined.

Lemma buffers_conserved_witness :
  ∃ hd' dropped, 1 = 0 + in_use demo_pool hd' demo_next + dropped ∧
    h_allocation_count hd' = 1 ∧ h_release_count hd' = 0.
Proof.
  destruct (buffers_conserved demo_pool demo_header fresh_world _ demo_next fresh_world_fresh
    demo_history) as (hd' & dropped & _ & Hc & _ & _ & Ha & Hr).
  exists hd', dropped. split_and!; [exact Hc|exact Ha|exact Hr].
Defined.
